(* ===== verification/_CoqProject ===== *)
-Q . S2P
Prelude.v
DataT.v
Types.v
NNVector.v
TreeHeap.v
BinaryTree.v
RBTree.v
RBInsert.v
KNN.v
Stream.v
IO.v
Containers.v
Nodes.v
Scheduler.v
Workers.v
Build.v
KdTree.v
Forest.v
Barrier.v
FileMapper.v
NativeFs.v
SafsFile.v
SafsResize.v
Fifo.v
PageArray.v
PageCell.v
HashCell.v
SlabAllocator.v
IoRequest.v
Messaging.v
SeqLock.v
AssocCache.v
Flusher.v
