(* ===== verification/Prelude.v ===== *)
(** * Monya: a verification library for the semi-external-memory tree engine

    Monya builds and queries forests of decision trees over a matrix that is in
    memory or in a file.  Under [src/src] is the engine with its example, an
    exact nearest-neighbour search with kd-trees; under [src/SAFS] the
    user-space file system that stripes files over several disks.  The library
    models both in Rocq and proves that they do what their interfaces promise.

    ** The program and the files that model it

    The driver ([examples/kdtree.cpp]) makes a [ComputeEngine] of tree programs,
    gives every tree a root, trains it and runs queries.  [build] hands the
    nodes of a level to the [Scheduler], which deals them out to [WorkerThread]s
    through task queues and waits at a barrier; a node reads its column through
    an [IO] object, sorts it and spawns its children.  A query keeps the best
    answers in an [NNVector].

    - [Prelude.v]: results, exceptions ([common/exception.hpp]), the
      state-and-error monad, machine integers, shared lemmas and automation.
    - [DataT.v]: [float] as IEEE binary32, [common/distance.hpp].
    - [Types.v]: [common/types.hpp].
    - [NNVector.v]: [common/NNVector.hpp], a linked list on a heap.
    - [TreeHeap.v], [BinaryTree.v]: [structures/BinaryTree], nodes as heap
      locations related to a functional tree.
    - [RBTree.v], [RBInsert.v]: [structures/RBTree], the pointer programs and the
      proof that insertion implements a functional fix-up.
    - [KNN.v]: [validate/BruteForcekNN.hpp], [common/Metric.hpp].
    - [Stream.v], [IO.v]: [std::fstream], [io/vecs_reader.hpp],
      [utils/FileUtil.hpp], [io/IO.hpp], [io/IOfactory.hpp].  The class [MatrixIO]
      is what the nodes rely on; [MemoryIO] and [SyncIO] are its instances.
    - [Containers.v]: [structures/VecBinaryTree], [Stack], [SampleVector].
    - [Nodes.v]: [structures/NodeView], [NAryNode], [EMNode], [kdnode].
    - [Scheduler.v]: [structures/TaskQueue], [Scheduler] and the tasks of
      [WorkerThread], one after the other; [Workers.v]: the workers of a level as
      interleaved threads (the class [StableIO] says which I/O objects they can
      share); [Barrier.v]: the wake-up protocol of the threads as an interleaving
      step relation.
    - [Build.v]: [BinaryTreeProgram.hpp]; [KdTree.v]: [structures/Query],
      [kdTreeProgram], [ComputeEngine.hpp]; [Forest.v]: the whole run.

    Of SAFS ([SAFS/libsafs]):

    - [FileMapper.v]: [file_mapper], [file_partition.h], [safs_header.h]: the
      place of every page of a striped file.
    - [NativeFs.v]: [native_file]: a POSIX file system as a finite map.
    - [SafsFile.v]: [safs_file], the file groups, [RAID_config]; [SafsResize.v]:
      what [resize] does to a created file.
    - [Fifo.v]: [container.h]: the ring queues and the embedded arrays.
    - [PageArray.v]: [page_byte_array] of [cache.h] with its iterators, and the
      arrays the I/O layers build.  The class [ArrayHolds] is what an array
      promises; the accesses are proved against it, the arrays discharge it.
    - [PageCell.v]: the page descriptors of [cache.h], [page_cell] and the
      eviction policies of [associative_cache].
    - [HashCell.v]: [hash_cell] and the linear hashing of [associative_cache].
    - [SlabAllocator.v]: [slab_allocator], its list of free objects and the
      buffers of the threads, one thread at a time and as a concurrent system.
    - [IoRequest.v]: [io_request.h]: requests, their extensions, the serialized
      form, the requests extracted from a page and their grouping by [io].
    - [Messaging.v]: [messaging.h]: messages, message queues and senders.
    - [SeqLock.v]: [concurrency.h] and the [frame] of [cache.h]: the sequence
      lock and the pin/unpin/evict protocol, as interleaving step relations.
    - [AssocCache.v]: [associative_cache] over its cells and [memory_manager]:
      creation, [expand], [search], lookup and [shrink].  The class
      [PageManager] is what the cache relies on for its pages;
      [memory_manager] over the slab allocator is its instance.
    - [Flusher.v]: [associative_flusher]: the queue of dirty cells, the writes
      it issues and their completion.

    ** What the theorems show

    The engine: [Forest.kd_forest_exact] joins [Build.kd_build_correct] (a
    complete tree whose leaves partition the samples, with termination) and
    [KdTree.kd_query_complete] to the statement that the answer of a query is
    the exact one of brute force, for every file, orientation and number of
    threads.  There the tasks of a level run one after the other;
    [Workers.workers_interleave] shows that workers that run them at the same
    time, interleaved in any way, end in the same heap when the I/O object can be
    shared, as [MemoryIO] can, and [sync_get_col_races] that [SyncIO] cannot.
    [Scheduler.sched_deal_partition] shows that dealing loses nothing;
    [Barrier.barrier_safe] and
    [barrier_progress] are proved for all interleavings, and
    [barrier_lost_wakeup] gives the run in which a wake-up is lost.
    The containers: red-black and plain search trees keep their invariants and
    contents, the nearest-neighbour list refines bounded ordered insertion,
    in-memory and on-disk matrices agree, and the file formats round-trip.
    SAFS: striping is injective and the computed sizes are sufficient; a created
    file can be opened and holds every page; extending it gives the sizes to the
    directories, so that every page has its place when they are in the order of
    the parts, and not always otherwise; creating and deleting is the identity; configuration and metadata round-trip; groups give permutations;
    the queues refine a bounded list and lose nothing when they grow or block.
    The page cache: [memcpy] and all iterators give the bytes of the file that
    were requested ([PageArray.memcpy_correct], [iterators_agree],
    [request_arrays_hold]); [HashCell.search_correct] is the contract of a cell,
    with uniqueness of identifiers as its invariant and termination;
    [PageCell.gclock_evicts_lowest_score] identifies the page that the clock
    evicts with the one of lowest flush score; splitting and merging cells lose
    no page, and [HashCell.linear_hashing_correct] shows that a page is still
    found while the table is split.  [AssocCache.expand_correct] lifts this to
    the whole table: expanding by any number of pages keeps every page where a
    lookup finds it, and
    no page is cached twice, with the invariant of the cache re-established;
    [cache_new_correct] is the contract of creation (both for least cell sizes of 1
    to 8 pages), and [cache_lookup_correct] that of a lookup in a cache in use.  [Flusher.run_correct] shows that a round of the flusher
    writes dirty pages only, each at most once, and marks what it writes.
    Support: [SlabAllocator.slab_concurrent_safe] holds for all interleavings of the
    threads of an allocator that takes its lock (no object is given out twice), [slab_alloc_correct] is the sequential contract;
    [SeqLock.seq_read_consistent] shows that a read that is accepted is not
    torn, [frame_pin_safe] that a pinned frame is not evicted.
    Requests and messages: an extension refines a list of buffers, the extracted
    requests tile the request they come from, serialization round-trips,
    grouping by [io] is a stable partition; the message queue refines a bounded
    queue of messages and a sender delivers each request once, in order, unless
    the allocator has no buffer for it.
    Several theorems are about what the code does wrong: they say so.

    ** Modelling decisions

    Pointers are locations of a finite map; a bad dereference, a failed
    [assert] and an exception are different errors of [exn], and the state at
    that moment is kept.  [unsigned], [size_t] and [int] wrap at their width
    where the code can reach it.  Loops that are not structural take fuel, and
    the theorems show that a given amount is enough: the number of heap nodes
    plus one for trees and searches, the number of levels for [build], 33
    doublings for a queue, two rounds for a blocking add, two
    levels for deleting an SAFS file, four rounds plus the hits of the pages
    for an eviction, the remaining growths plus one for an allocation, the
    number of messages plus one for a sender, twice the number of objects plus
    one for a message, 17 passes per cell to fill the table, half the table to
    split it, its size plus one to expand, the level plus two to shrink, 257
    passes to predict an eviction (the score of a page is one byte), and the
    queued cells plus the pages to write for a round of the flusher.
    The threads of [Workers.v] need no fuel: the number of their steps is bounded.
    The operations of a cache cell hold its lock and are one
    step; waiting for a reference to be dropped is [OutOfFuel].  [std::sort] and its parallel version
    are parameters with their contract, with a concrete instance for the
    witnesses, and what uninitialised memory holds is a parameter; a random shuffle is an
    argument of which only being a permutation is assumed.

    ** Not modelled

    Printing and timing; the option parser [cxxopts]; NUMA binding; the
    [PRUNE] variant of [kdnode]; [NNVector]'s overload of the accuracy metric,
    which calls a function that does not return.  In SAFS: the caches the build
    does not select, the asynchronous I/O layers ([global_cached_io],
    [part_global_cached_io], [async_io], [remote_io]) that compose the modelled
    parts, the configuration tables, threads and platform code, and
    [safs_file::load_data], which goes through them.  [expand] is proved for
    [SA_min_cell_size] up to 8; for the default of 12 [AssocCache] shows that it
    fails.  Planned next, in this order: the page states and the request paths of
    [global_cached_io], [io_interface], and the schedulers of the I/O layers. *)

From Stdlib Require Export ZArith Lia.
From stdpp Require Export base gmap list strings sorting.
From stdpp Require Import options.

(** ** Results, exceptions and the state-and-error monad

    Every operation of the C++ code that can throw, fail an [assert] or
    dereference a bad pointer returns a [res].  The state component is kept on
    the error path too, because several methods mutate before they throw. *)

(** The ways control leaves a function without a value.  The first five
    constructors are the exception classes of [common/exception.hpp] and
    [std::runtime_error]; [AssertFailed] is a failing [assert];
    [Segfault] is a dereference of NULL or of a freed or never allocated
    address; [OutOfFuel] is the model's report that a loop has not finished
    within the given number of iterations. *)
Inductive exn :=
  | runtime_error (what : string)
  | not_implemented_exception
  | abstract_exception (msg : string)
  | io_exception (msg : string)
  | parameter_exception (msg : string)
  | concurrency_exception (msg : string)
  | AssertFailed
  | Segfault
  | OutOfFuel.

Inductive res (A : Type) :=
  | Ok (a : A)
  | Throw (e : exn).
Arguments Ok {A} a.
Arguments Throw {A} e.

Definition M (St A : Type) : Type := St → St * res A.

Definition mret {St A} (a : A) : M St A := λ s, (s, Ok a).
Definition mthrow {St A} (e : exn) : M St A := λ s, (s, Throw e).
Definition mbind' {St A B} (m : M St A) (f : A → M St B) : M St B := λ s,
  match m s with
  | (s', Ok a) => f a s'
  | (s', Throw e) => (s', Throw e)
  end.
Definition mget {St} : M St St := λ s, (s, Ok s).
Definition mput {St} (s : St) : M St unit := λ _, (s, Ok tt).
Definition mmodify {St} (f : St → St) : M St unit := λ s, (f s, Ok tt).
(** [assert(b)] *)
Definition massert {St} (b : bool) : M St unit :=
  if b then mret tt else mthrow AssertFailed.

Declare Scope monya_scope.
Delimit Scope monya_scope with monya.
Notation "'let!' x ':=' m 'in' k" := (mbind' m (λ x, k))
  (at level 200, x pattern, m at level 100, k at level 200,
   format "'[v' 'let!'  x  ':='  m  'in' '/' k ']'") : monya_scope.
Notation "m ';;;' k" := (mbind' m (λ _, k))
  (at level 199, right associativity, format "'[v' m ';;;' '/' k ']'") : monya_scope.
Open Scope monya_scope.

(** Sequencing of computations that do not touch a state. *)
Definition rbind {A B} (m : res A) (f : A → res B) : res B :=
  match m with Ok a => f a | Throw e => Throw e end.
Notation "'let?' x ':=' m 'in' k" := (rbind m (λ x, k))
  (at level 200, x pattern, m at level 100, k at level 200,
   format "'[v' 'let?'  x  ':='  m  'in' '/' k ']'") : monya_scope.
(** Runs such a computation inside the state monad. *)
Definition mlift {St A} (m : res A) : M St A := λ s, (s, m).

Lemma mbind_ok {St A B} (m : M St A) (f : A → M St B) s s' a :
  m s = (s', Ok a) → mbind' m f s = f a s'.
Proof. unfold mbind'. by intros ->. Qed.

Lemma mbind_throw {St A B} (m : M St A) (f : A → M St B) s s' e :
  m s = (s', Throw e) → mbind' m f s = (s', Throw e).
Proof. unfold mbind'. by intros ->. Qed.

Lemma mbind_assoc {St A B C} (m : M St A) (f : A → M St B) (g : B → M St C) s :
  mbind' (mbind' m f) g s = mbind' m (λ a, mbind' (f a) g) s.
Proof. unfold mbind'. by destruct (m s) as [s' [a|e]]. Qed.

Lemma mbind_ok_inv {St A B} (m : M St A) (f : A → M St B) s s' b :
  mbind' m f s = (s', Ok b) →
  ∃ a s1, m s = (s1, Ok a) ∧ f a s1 = (s', Ok b).
Proof. unfold mbind'. destruct (m s) as [s1 [a|e]]; naive_solver. Qed.

(** ** Machine integers

    [unsigned] is 32 bits and [size_t] 64 bits on the supported platforms
    (x86-64 Linux and macOS); arithmetic on them wraps. *)
Definition u32 (z : Z) : Z := z `mod` 2 ^ 32.
Definition u64 (z : Z) : Z := z `mod` 2 ^ 64.
Definition UINT_MAX : Z := 2 ^ 32 - 1.
Definition SIZE_MAX : Z := 2 ^ 64 - 1.

Lemma u32_small z : (0 ≤ z < 2 ^ 32)%Z → u32 z = z.
Proof. apply Z.mod_small. Qed.
Lemma u64_small z : (0 ≤ z < 2 ^ 64)%Z → u64 z = z.
Proof. apply Z.mod_small. Qed.
Lemma u64_range z : (0 ≤ u64 z < 2 ^ 64)%Z.
Proof. unfold u64. apply Z.mod_pos_bound. lia. Qed.
Lemma u32_range z : (0 ≤ u32 z < 2 ^ 32)%Z.
Proof. unfold u32. apply Z.mod_pos_bound. lia. Qed.
Lemma u64_0_pred : u64 (0 - 1) = SIZE_MAX.
Proof. reflexivity. Qed.

(** [int]: conversion to 32 bits, two's complement. *)
Definition s32 (z : Z) : Z := ((z + 2 ^ 31) mod 2 ^ 32 - 2 ^ 31)%Z.
Definition s64 (z : Z) : Z := ((z + 2 ^ 63) mod 2 ^ 64 - 2 ^ 63)%Z.
Lemma s64_small z : (- 2 ^ 63 ≤ z < 2 ^ 63)%Z → s64 z = z.
Proof. intros. unfold s64. rewrite Z.mod_small; lia. Qed.
Lemma s32_range z : (- 2 ^ 31 ≤ s32 z < 2 ^ 31)%Z.
Proof. unfold s32. pose proof (Z.mod_pos_bound (z + 2 ^ 31) (2 ^ 32)). lia. Qed.

Lemma s32_small z : (0 ≤ z < 2 ^ 31)%Z → s32 z = z.
Proof. intros. unfold s32. rewrite Z.mod_small by lia. lia. Qed.

(** ** Addresses *)
Abbreviation loc := positive.

(** ** Automation

    [monya] holds the lemmas that close the routine side goals; [monad_step]
    runs one primitive of the monad on a concrete state. *)
Create HintDb monya discriminated.
#[export] Hint Resolve u32_range u64_range : monya.

Ltac unfold_monad :=
  unfold mret, mthrow, mget, mput, mmodify, massert, mbind' in *.
Ltac monad_step := progress (unfold_monad; simpl).

(** ** Lists shared by the components *)

Section lists.
Context {A : Type}.
Implicit Types (l : list A) (x : A).

Lemma take_app_le' n l1 l2 : n ≤ length l1 → take n (l1 ++ l2) = take n l1.
Proof. intros. rewrite take_app. by replace (n - length l1) with 0 by lia; rewrite take_0, app_nil_r. Qed.

Lemma NoDup_app_split l1 x l2 :
  NoDup (l1 ++ x :: l2) → x ∉ l1 ∧ x ∉ l2.
Proof.
  rewrite NoDup_app, NoDup_cons. intros (_&H&Hx&_). split; [|done].
  intros Hin. apply (H x Hin). left.
Qed.
End lists.

(** ** Ordered insertion

    [ins_by lt x l] puts [x] before the first element that [lt] says is greater.
    It is the reference definition of the bounded list, of the search trees and
    of insertion sort. *)
Fixpoint ins_by {A} (lt : A → A → bool) (x : A) (l : list A) : list A :=
  match l with
  | [] => [x]
  | y :: l' => if lt x y then x :: y :: l' else y :: ins_by lt x l'
  end.

Lemma ins_by_perm {A} lt (x : A) l : ins_by lt x l ≡ₚ x :: l.
Proof.
  induction l as [|y l IH]; [done|]. simpl. case_match; [done|].
  rewrite IH. apply Permutation_swap.
Qed.

Lemma ins_by_split {A} lt (x : A) l1 l2 :
  Forall (λ y, lt x y = false) l1 → Forall (λ y, lt x y = true) l2 →
  ins_by lt x (l1 ++ l2) = l1 ++ x :: l2.
Proof.
  intros H1 H2. induction H1 as [|y l1 Hy _ IH]; simpl.
  - destruct H2 as [|z l2 Hz _]; [done|]. simpl. by rewrite Hz.
  - by rewrite Hy, IH.
Qed.

(** Sortedness of an image. *)
Lemma StronglySorted_fmap_iff {B C} (P : C → C → Prop) (g : B → C) l :
  StronglySorted P (g <$> l) ↔ StronglySorted (λ a b, P (g a) (g b)) l.
Proof.
  induction l as [|x l IH]; simpl; [split; constructor|]. split.
  - intros [H1 H2]%StronglySorted_inv. constructor; [by apply IH|]. exact (proj1 (Forall_fmap g (P (g x)) l) H2).
  - intros [H1 H2]%StronglySorted_inv. constructor; [by apply IH|]. exact (proj2 (Forall_fmap g (P (g x)) l) H2).
Qed.
