(* ===== verification/DataT.v ===== *)
(** * [data_t]: IEEE binary32, its order, and [monya::distance]

    [data_t] is a C++ [float].  It is modelled by the Standard Library's
    executable specification of IEEE 754 arithmetic at precision 24 and
    maximal exponent 128 (binary32, round to nearest even), so every
    comparison and every distance below is the one the hardware computes,
    NaN, infinities and signed zeros included. *)
From Stdlib Require Import SpecFloat.
From S2P Require Import Prelude.
From stdpp Require Import options.

(** ** The type and its operations *)

Definition data_t : Type := spec_float.

Definition fadd : data_t → data_t → data_t := SFadd 24 128.
Definition fsub : data_t → data_t → data_t := SFsub 24 128.
Definition fmul : data_t → data_t → data_t := SFmul 24 128.
Definition fdiv : data_t → data_t → data_t := SFdiv 24 128.
Definition fsqrt : data_t → data_t := SFsqrt 24 128.
(** [a < b], [a > b], [a == b] of the language *)
Definition flt : data_t → data_t → bool := SFltb.
Definition fgt (a b : data_t) : bool := flt b a.
Definition feq : data_t → data_t → bool := SFeqb.
(** An integer converted to [float]. *)
Definition of_int (z : Z) : data_t := binary_normalize 24 128 z 0 false.
Definition fzero : data_t := S754_zero false.
(** [std::numeric_limits<data_t>::max()] *)
Definition FLT_MAX : data_t := SFmax_float 24 128.

Definition is_nan (x : data_t) : bool :=
  match x with S754_nan => true | _ => false end.
Definition is_finite (x : data_t) : bool :=
  match x with S754_zero _ | S754_finite _ _ _ => true | _ => false end.

Abbreviation ordered x := (is_nan x = false).

#[export] Instance data_t_eq_dec : EqDecision data_t.
Proof. intros x y. unfold Decision, data_t in *. decide equality; try apply Z.eq_dec; decide equality. Defined.
#[export] Instance data_t_inhabited : Inhabited data_t := populate fzero.

(** ** The order of the non-NaN values

    [key] maps a value that is not a NaN to a triple whose lexicographic order
    is the order of [flt]; all order laws follow from it by arithmetic. *)

Definition key (x : data_t) : Z * Z * Z :=
  match x with
  | S754_zero _ | S754_nan => (0, 0, 0)%Z
  | S754_infinity s => ((if s then -2 else 2), 0, 0)%Z
  | S754_finite true m e => (-1, -e, Z.neg m)%Z
  | S754_finite false m e => (1, e, Z.pos m)%Z
  end.

Definition lex (a b : Z * Z * Z) : Prop :=
  (a.1.1 < b.1.1 ∨ (a.1.1 = b.1.1 ∧ (a.1.2 < b.1.2 ∨ (a.1.2 = b.1.2 ∧ a.2 < b.2))))%Z.

Lemma flt_key x y : ordered x → ordered y → flt x y = true ↔ lex (key x) (key y).
Proof.
  unfold flt, SFltb, lex.
  destruct x as [sx|sx| |sx mx ex], y as [sy|sy| |sy my ey];
    intros Hx Hy; try discriminate Hx; try discriminate Hy; clear Hx Hy;
    try destruct sx; try destruct sy; simpl; try (split; [done|lia]); try (split; lia).
  - destruct (Z.compare_spec ex ey) as [->|H|H]; [|split; [done|lia]|split; [lia|done]].
    change (Pos.compare_cont Eq mx my) with (Pos.compare mx my).
    destruct (Pos.compare_spec mx my); simpl; split; try done; lia.
  - destruct (Z.compare_spec ex ey) as [->|H|H]; [|split; [lia|done]|split; [done|lia]].
    change (Pos.compare_cont Eq mx my) with (Pos.compare mx my).
    destruct (Pos.compare_spec mx my); simpl; split; try done; lia.
Qed.

Lemma feq_key x y : ordered x → ordered y → feq x y = true ↔ key x = key y.
Proof.
  unfold feq, SFeqb.
  destruct x as [sx|sx| |sx mx ex], y as [sy|sy| |sy my ey];
    intros Hx Hy; try discriminate Hx; try discriminate Hy; clear Hx Hy;
    try destruct sx; try destruct sy; simpl; try (split; done); try (split; [done|naive_solver lia]).
  - destruct (Z.compare_spec ex ey) as [->|H|H]; [|split; [done|naive_solver lia]..].
    change (Pos.compare_cont Eq mx my) with (Pos.compare mx my).
    destruct (Pos.compare_spec mx my); simpl; split; try done; try naive_solver lia; by subst.
  - destruct (Z.compare_spec ex ey) as [->|H|H]; [|split; [done|naive_solver lia]..].
    change (Pos.compare_cont Eq mx my) with (Pos.compare mx my).
    destruct (Pos.compare_spec mx my); simpl; split; try done; try naive_solver lia; by subst.
Qed.

Lemma flt_key_false x y : ordered x → ordered y → flt x y = false ↔ ¬ lex (key x) (key y).
Proof. intros Hx Hy. rewrite <-(flt_key x y) by done. by destruct (flt x y). Qed.

(** A comparison that holds has no NaN on either side. *)
Lemma flt_ordered x y : flt x y = true → ordered x ∧ ordered y.
Proof. by destruct x, y. Qed.
Lemma flt_nan_l x y : is_nan x = true → flt x y = false.
Proof. by destruct x. Qed.
Lemma flt_nan_r x y : is_nan y = true → flt x y = false.
Proof. by destruct x, y. Qed.

Lemma flt_irrefl x : flt x x = false.
Proof.
  destruct (is_nan x) eqn:Hn; [by apply flt_nan_l|].
  apply flt_key_false; [done..|]. unfold lex. lia.
Qed.

Lemma flt_trans x y z : flt x y = true → flt y z = true → flt x z = true.
Proof.
  intros H1 H2. destruct (flt_ordered _ _ H1), (flt_ordered _ _ H2).
  apply flt_key in H1, H2; [|done..]. apply flt_key; [done..|]. unfold lex in *. lia.
Qed.

Lemma flt_asym x y : flt x y = true → flt y x = false.
Proof.
  intros H. destruct (flt_ordered _ _ H).
  apply flt_key in H; [|done..]. apply flt_key_false; [done..|]. unfold lex in *. lia.
Qed.

(** Incomparability is transitive through a non-NaN value: with [flt_trans] and
    [flt_irrefl], [flt] is a strict weak order on the non-NaN values, which is
    what [std::sort] and [std::binary_search] require of it. *)
Lemma fnlt_trans x y z :
  ordered x → ordered y → ordered z →
  flt x y = false → flt y z = false → flt x z = false.
Proof.
  intros ??? H1 H2. apply flt_key_false in H1, H2; [|done..].
  apply flt_key_false; [done..|]. unfold lex in *. lia.
Qed.

Lemma flt_fnlt_trans x y z :
  ordered x → ordered y → ordered z →
  flt x y = true → flt z y = false → flt x z = true.
Proof.
  intros ??? H1 H2. apply flt_key in H1; [|done..]. apply flt_key_false in H2; [|done..].
  apply flt_key; [done..|]. unfold lex in *. lia.
Qed.

Lemma fnlt_flt_trans x y z :
  ordered x → ordered y → ordered z →
  flt y x = false → flt y z = true → flt x z = true.
Proof.
  intros ??? H1 H2. apply flt_key in H2; [|done..]. apply flt_key_false in H1; [|done..].
  apply flt_key; [done..|]. unfold lex in *. lia.
Qed.

(** On non-NaN values [==] is the incomparability of [<]. *)
Lemma feq_incomparable x y :
  ordered x → ordered y → feq x y = true ↔ flt x y = false ∧ flt y x = false.
Proof.
  intros Hx Hy. rewrite feq_key, !flt_key_false by done. unfold lex.
  destruct (key x) as [[a b] c], (key y) as [[a' b'] c']; simpl.
  split; [intros [= -> -> ->]; lia|]. intros [??]. do 2 f_equal; lia.
Qed.

#[export] Hint Resolve flt_irrefl flt_asym : monya.

(** The order as a relation: [fle x y] is [!(y < x)], the only order the code
    ever tests. *)
Definition fle (x y : data_t) : Prop := flt y x = false.
#[export] Instance fle_dec x y : Decision (fle x y).
Proof. unfold fle. apply _. Defined.
Lemma fle_refl x : fle x x.
Proof. apply flt_irrefl. Qed.
Lemma fle_total x y : fle x y ∨ fle y x.
Proof. unfold fle. destruct (flt y x) eqn:H; [right; by apply flt_asym|by left]. Qed.
#[export] Hint Resolve fle_refl : monya.

(** ** [distance::euclidean]

    [arr] and [other] are the memory from the two pointers on: reading past
    the end of either is a [Segfault]. *)
Fixpoint euclidean_loop (acc : data_t) (arr other : list data_t) (nelem : nat)
  {struct nelem} : res data_t :=
  match nelem with
  | O => Ok (fsqrt acc)
  | S n =>
      match arr, other with
      | a :: arr', o :: other' =>
          let tmp := fsub a o in
          euclidean_loop (fadd acc (fmul tmp tmp)) arr' other' n
      | _, _ => Throw Segfault
      end
  end.

Definition euclidean (arr other : list data_t) (nelem : nat) : res data_t :=
  euclidean_loop fzero arr other nelem.

(** *** Sign and NaN of the arithmetic *)

Definition sign_of (x : data_t) : bool :=
  match x with
  | S754_zero s | S754_infinity s | S754_finite s _ _ => s
  | S754_nan => false
  end.

(** [nonneg x]: a value with a clear sign bit that is not a NaN. *)
Definition nonneg (x : data_t) : bool := negb (is_nan x) && negb (sign_of x).

Lemma shr_1_nonneg r : (0 ≤ shr_m r)%Z → (0 ≤ shr_m (shr_1 r))%Z.
Proof. destruct r as [[|[p|p|]|p] rr ss]; simpl; lia. Qed.

Lemma iter_shr_nonneg p r : (0 ≤ shr_m r)%Z → (0 ≤ shr_m (SpecFloat.iter_pos shr_1 p r))%Z.
Proof.
  revert r. induction p as [p IH|p IH|]; intros r H; simpl;
    [apply IH, IH, shr_1_nonneg, H|apply IH, IH, H|apply shr_1_nonneg, H].
Qed.

Lemma shr_fexp_nonneg prec emax m e l :
  (0 ≤ m)%Z → (0 ≤ shr_m (shr_fexp prec emax m e l).1)%Z.
Proof.
  intros H. unfold shr_fexp, shr.
  assert (0 ≤ shr_m (shr_record_of_loc m l))%Z by (destruct l as [|[]]; done).
  case_match; simpl; [done| |done]. by apply iter_shr_nonneg.
Qed.

Lemma round_nonneg m l : (0 ≤ m)%Z → (0 ≤ round_nearest_even m l)%Z.
Proof. intros. destruct l as [|[]]; simpl; [lia| |lia|lia]. case_match; lia. Qed.

(** Rounding a non-negative mantissa never makes a NaN and keeps the sign. *)
Lemma binary_round_aux_ok prec emax sx m e l :
  (0 ≤ m)%Z →
  is_nan (binary_round_aux prec emax sx m e l) = false ∧
  sign_of (binary_round_aux prec emax sx m e l) = sx.
Proof.
  intros H. unfold binary_round_aux.
  pose proof (shr_fexp_nonneg prec emax m e l H) as H1.
  destruct (shr_fexp prec emax m e l) as [r1 e1]. simpl in H1.
  pose proof (shr_fexp_nonneg prec emax _ e1 loc_Exact
    (round_nonneg _ (loc_of_shr_record r1) H1)) as H2.
  destruct (shr_fexp _ _ _ e1 _) as [r2 e2]. simpl in H2.
  destruct (shr_m r2); [done| |lia]. by case_match.
Qed.

Lemma binary_round_ok prec emax sx m e :
  is_nan (binary_round prec emax sx m e) = false ∧
  sign_of (binary_round prec emax sx m e) = sx.
Proof.
  unfold binary_round. destruct (shl_align _ _ _). by apply binary_round_aux_ok.
Qed.

Lemma nonneg_alt x : nonneg x = true ↔ is_nan x = false ∧ sign_of x = false.
Proof. unfold nonneg. destruct (is_nan x), (sign_of x); naive_solver. Qed.

(** The square of any value that is not a NaN is non-negative. *)
Lemma fmul_self_nonneg x : ordered x → nonneg (fmul x x) = true.
Proof.
  intros Hx. apply nonneg_alt. destruct x as [s|s| |s m e]; try done; simpl;
    rewrite ?xorb_nilpotent; try done. by apply binary_round_aux_ok.
Qed.

Lemma fadd_nonneg x y : nonneg x = true → nonneg y = true → nonneg (fadd x y) = true.
Proof.
  rewrite !nonneg_alt.
  destruct x as [[]|[]| |[] mx ex], y as [[]|[]| |[] my ey]; simpl;
    intros [??] [??]; try done. apply binary_round_ok.
Qed.

Lemma fsqrt_nonneg x : nonneg x = true → nonneg (fsqrt x) = true.
Proof.
  rewrite !nonneg_alt. destruct x as [[]|[]| |[] m e]; simpl; intros [??]; try done.
  unfold SFsqrt_core_binary.
  set (m' := match _ with Z0 => _ | Zpos _ => _ | Zneg _ => _ end).
  assert (0 ≤ (Z.sqrtrem m').1)%Z.
  { pose proof (Z.sqrtrem_sqrt m') as Hq. rewrite Hq. apply Z.sqrt_nonneg. }
  destruct (Z.sqrtrem m') as [q r]. by apply binary_round_aux_ok.
Qed.

(** The difference of finite values is not a NaN. *)
Lemma fsub_finite_ordered x y :
  is_finite x = true → is_finite y = true → ordered (fsub x y).
Proof.
  destruct x as [[]|[]| |sx mx ex], y as [[]|[]| |sy my ey]; simpl; intros; try done.
  unfold fsub, SFsub, binary_normalize. case_match; [done|apply binary_round_ok..].
Qed.

Lemma euclidean_loop_nonneg acc arr other n d :
  nonneg acc = true →
  Forall (λ x, is_finite x = true) arr → Forall (λ x, is_finite x = true) other →
  euclidean_loop acc arr other n = Ok d → nonneg d = true.
Proof.
  revert acc arr other. induction n as [|n IH]; intros acc arr other Hacc Ha Ho; simpl.
  { intros [= <-]. by apply fsqrt_nonneg. }
  destruct Ha as [|a arr Ha Ha'], Ho as [|o other Ho Ho']; try done.
  apply IH; [|done..]. apply fadd_nonneg; [done|].
  by apply fmul_self_nonneg, fsub_finite_ordered.
Qed.

(** *** Symmetry *)

Lemma binary_round_opp prec emax m e :
  binary_round prec emax true m e = SFopp (binary_round prec emax false m e).
Proof.
  unfold binary_round, binary_round_aux. destruct (shl_align _ _ _).
  destruct (shr_fexp _ _ _ _ _). destruct (shr_fexp _ _ _ _ _). simpl.
  case_match; [done| |done]. by case_match.
Qed.

Lemma binary_normalize_opp prec emax m e :
  m ≠ 0%Z →
  binary_normalize prec emax (- m) e false = SFopp (binary_normalize prec emax m e false).
Proof.
  intros Hm. destruct m as [|m|m]; [done|..]; simpl; rewrite binary_round_opp; [done|].
  by destruct (binary_round prec emax false m e) as [[]|[]| |[] ? ?].
Qed.

(** Subtraction in the other order changes at most the sign. *)
Lemma fsub_swap x y : fsub y x = SFopp (fsub x y) ∨ fsub y x = fsub x y.
Proof.
  destruct x as [[]|[]| |sx mx ex], y as [[]|[]| |sy my ey]; simpl; try (by auto);
    try (by destruct sy; auto); try (by destruct sx; auto).
  unfold fsub, SFsub. rewrite (Z.min_comm ey ex).
  set (a := cond_Zopp sx _). set (b := cond_Zopp sy _).
  destruct (decide (a - b = 0)%Z) as [E|E].
  - right. by replace (b - a)%Z with (a - b)%Z by lia.
  - left. replace (b - a)%Z with (- (a - b))%Z by lia. by apply binary_normalize_opp.
Qed.

Lemma fmul_opp_opp x : fmul (SFopp x) (SFopp x) = fmul x x.
Proof. by destruct x as [[]|[]| |[] m e]. Qed.

Lemma fsub_square_sym x y : fmul (fsub x y) (fsub x y) = fmul (fsub y x) (fsub y x).
Proof. destruct (fsub_swap x y) as [->| ->]; [by rewrite fmul_opp_opp|done]. Qed.

Lemma euclidean_loop_sym acc arr other n :
  euclidean_loop acc arr other n = euclidean_loop acc other arr n.
Proof.
  revert acc arr other. induction n as [|n IH]; intros acc arr other; [done|].
  destruct arr, other; simpl; try done. by rewrite IH, fsub_square_sym.
Qed.

Lemma euclidean_loop_total acc arr other n :
  n ≤ length arr → n ≤ length other → ∃ d, euclidean_loop acc arr other n = Ok d.
Proof.
  revert acc arr other. induction n as [|n IH]; intros acc arr other; [by eexists|].
  destruct arr, other; simpl; try lia. intros. apply IH; lia.
Qed.

Lemma euclidean_loop_oob acc arr other n :
  length arr < n ∨ length other < n → euclidean_loop acc arr other n = Throw Segfault.
Proof.
  revert acc arr other. induction n as [|n IH]; intros acc arr other; [lia|].
  destruct arr, other; simpl; try done. intros. apply IH; lia.
Qed.

(** ** Properties *)

(** [distance::euclidean] on two arrays of at least [nelem] finite values is
    symmetric and returns a value that is not a NaN and has a clear sign, so
    that it is comparable with every other distance; a shorter array is read
    out of bounds. *)
Theorem euclidean_metric arr other nelem :
  Forall (λ x, is_finite x = true) arr → Forall (λ x, is_finite x = true) other →
  euclidean arr other nelem = euclidean other arr nelem ∧
  (if decide (nelem ≤ length arr ∧ nelem ≤ length other)
   then ∃ d, euclidean arr other nelem = Ok d ∧ ordered d ∧ sign_of d = false ∧ fle fzero d
   else euclidean arr other nelem = Throw Segfault).
Proof.
  intros Ha Ho. split; [apply euclidean_loop_sym|]. unfold euclidean. case_decide as Hlen.
  - destruct (euclidean_loop_total fzero arr other nelem) as [d Hd]; [lia..|].
    pose proof (euclidean_loop_nonneg fzero arr other nelem d eq_refl Ha Ho Hd) as Hn.
    apply nonneg_alt in Hn as [Hn Hs]. exists d. split_and!; [done..|].
    unfold fle. by destruct d as [[]|[]| |[] m e].
  - apply euclidean_loop_oob. lia.
Qed.

Lemma euclidean_metric_witness :
  ∃ d, euclidean [of_int 3; of_int 0] [of_int 0; of_int 4] 2 = Ok d ∧ d = of_int 5 ∧ fle fzero d.
Proof.
  destruct (euclidean_metric [of_int 3; of_int 0] [of_int 0; of_int 4] 2) as [_ (d & Hd & _ & _ & Hle)];
    [repeat (apply Forall_cons_2; [reflexivity|]); apply Forall_nil_2..|].
  exists d. split; [exact Hd|]. split; [|exact Hle]. vm_compute in Hd. injection Hd as <-. vm_compute. reflexivity.
Defined.
