(* ===== verification/Types.v ===== *)
(** * [common/types.hpp]: enumerations, [Params], [IndexVal], [IndexVector],
      [cunsigned]

    [sample_id_t], [tree_t] and [unsigned] values are integers of type [Z] kept
    in [0, 2^32); [size_t] and [depth_t] in [0, 2^64).  The vector inside an
    [IndexVector] is a list. *)
From S2P Require Import Prelude DataT.
From stdpp Require Import options.

(** ** Enumerations and parameters *)

Inductive file_t := BIN | FVECS | IVECS | BVECS | HDF5.
Inductive order_t := PREORDER | INORDER | POSTORDER | LEVELORDER.
Inductive bchild_t := LEFT | RIGHT.
Inductive io_t := MEM | SEM | SYNC.
Inductive mat_orient_t := ROW | COL | BAND | INVALID.

#[export] Instance file_t_eq_dec : EqDecision file_t.
Proof. solve_decision. Defined.
#[export] Instance bchild_t_eq_dec : EqDecision bchild_t.
Proof. solve_decision. Defined.
#[export] Instance io_t_eq_dec : EqDecision io_t.
Proof. solve_decision. Defined.
#[export] Instance mat_orient_t_eq_dec : EqDecision mat_orient_t.
Proof. solve_decision. Defined.

Definition MAX_DEPTH : Z := SIZE_MAX.

Record Params := mkParams {
  nsamples : Z;
  nfeatures : Z;
  fn : string;
  iotype : io_t;
  ntree : Z;
  nthread : Z;
  orientation : mat_orient_t;
  fanout : Z;
  max_depth : Z;
  filetype : file_t
}.

(** The constructor: the fields are set first, then the combination of I/O type
    and thread count is checked. *)
Definition Params_ctor (nsamples nfeatures : Z) (fn : string) (iotype : io_t)
    (ntree nthread : Z) (orientation : mat_orient_t) (fanout max_depth : Z)
    (filetype : file_t) : res Params :=
  let p := mkParams nsamples nfeatures fn iotype ntree nthread orientation
             fanout max_depth filetype in
  if bool_decide (iotype ≠ MEM) && (1 <? nthread)%Z
  then Throw (parameter_exception "Multithreading only support for in memory mode currently!")
  else Ok p.

(** ** [IndexVal<data_t>] *)

Record IndexVal := mkIV { iv_index : Z; iv_val : data_t }.

#[export] Instance IndexVal_eq_dec : EqDecision IndexVal.
Proof. solve_decision. Defined.
#[export] Instance IndexVal_inhabited : Inhabited IndexVal := populate (mkIV 0 fzero).

Definition iv_set_val (v : data_t) (iv : IndexVal) : IndexVal := mkIV (iv_index iv) v.
Definition iv_set_index (i : Z) (iv : IndexVal) : IndexVal := mkIV i (iv_val iv).
Definition iv_lt (a b : IndexVal) : bool := flt (iv_val a) (iv_val b).
(** Equivalence is only based on the value. *)
Definition iv_eq (a b : IndexVal) : bool := feq (iv_val a) (iv_val b).
Definition iv_ne (a b : IndexVal) : bool := negb (iv_eq a b).

Abbreviation iv_ordered iv := (is_nan (iv_val iv) = false).
Definition iv_le (a b : IndexVal) : Prop := fle (iv_val a) (iv_val b).
#[export] Instance iv_le_dec a b : Decision (iv_le a b).
Proof. unfold iv_le. apply _. Defined.

Abbreviation iv_sorted := (StronglySorted iv_le).

(** ** Stable ordered insertion

    [ins] puts an element before the first strictly greater one; [isort] is the
    stable insertion sort it induces.  They are the reference definitions the
    linked list of [NNVector.v] is compared with. *)

Abbreviation ins := (ins_by iv_lt).

Definition ins_all (acc l : list IndexVal) : list IndexVal :=
  fold_left (λ a x, ins x a) l acc.
Definition isort (l : list IndexVal) : list IndexVal := ins_all [] l.

Lemma ins_perm x l : ins x l ≡ₚ x :: l.
Proof. apply ins_by_perm. Qed.

Lemma ins_all_perm acc l : ins_all acc l ≡ₚ acc ++ l.
Proof.
  revert acc. induction l as [|x l IH]; intros acc; simpl; [by rewrite app_nil_r|].
  unfold ins_all in *. simpl. rewrite IH, ins_perm. simpl. by rewrite Permutation_middle.
Qed.

Lemma isort_perm l : isort l ≡ₚ l.
Proof. apply ins_all_perm. Qed.

Lemma length_ins x l : length (ins x l) = S (length l).
Proof. by rewrite (ins_perm x l). Qed.

Lemma ins_Forall P x l : Forall P (ins x l) ↔ P x ∧ Forall P l.
Proof. by rewrite (ins_perm x l), Forall_cons. Qed.

Lemma ins_sorted x l :
  iv_ordered x → Forall (λ y, iv_ordered y) l → iv_sorted l → iv_sorted (ins x l).
Proof.
  intros Hx Hl Hs. induction Hs as [|y l Hs IH Hy]; simpl; [by repeat constructor|].
  apply Forall_cons in Hl as [Hoy Hl]. destruct (iv_lt x y) eqn:E.
  - constructor; [by constructor|]. apply Forall_cons. split; [by apply flt_asym|].
    rewrite Forall_forall in Hl, Hy |- *. intros z Hz.
    specialize (Hl z Hz). specialize (Hy z Hz). unfold iv_le, fle in *.
    apply fnlt_trans with (iv_val y); [done..|]. by apply flt_asym.
  - constructor; [by apply IH|]. apply ins_Forall. split; [done|done].
Qed.

Lemma ins_all_sorted acc l :
  Forall (λ y, iv_ordered y) acc → Forall (λ y, iv_ordered y) l →
  iv_sorted acc → iv_sorted (ins_all acc l).
Proof.
  revert acc. induction l as [|x l IH]; intros acc Ha Hl Hs; [done|].
  apply Forall_cons in Hl as [Hx Hl]. apply IH; [|done|by apply ins_sorted].
  by apply ins_Forall.
Qed.

Lemma isort_sorted l : Forall (λ y, iv_ordered y) l → iv_sorted (isort l).
Proof. intros. by apply ins_all_sorted; [constructor| |constructor]. Qed.

(** Truncation commutes with insertion: an element beyond the first [k] never
    matters again. *)
Lemma take_ins k x l : take k (ins x (take k l)) = take k (ins x l).
Proof.
  revert l. induction k as [|k IH]; intros l; [done|].
  destruct l as [|y l]; [done|]. simpl. destruct (iv_lt x y); simpl; [|by rewrite IH].
  destruct k as [|k]; [done|]. simpl. do 2 f_equal. by rewrite take_take, Nat.min_l by lia.
Qed.

Lemma take_ins_all k acc l : take k (ins_all (take k acc) l) = take k (ins_all acc l).
Proof.
  revert acc. induction l as [|x l IH]; intros acc; simpl.
  { by rewrite take_take, Nat.min_id. }
  unfold ins_all in *. simpl. rewrite <-IH, take_ins, IH. done.
Qed.

(** Two sorted permutations of each other agree up to [==] at every position. *)
Lemma sorted_perm_head x y l1 l2 :
  Forall (λ y, iv_ordered y) (x :: l1) →
  x :: l1 ≡ₚ y :: l2 → iv_sorted (x :: l1) → iv_sorted (y :: l2) →
  iv_le x y ∧ iv_le y x.
Proof.
  intros Hf Hp H1 H2. apply StronglySorted_inv in H1 as [_ H1], H2 as [_ H2].
  rewrite Forall_forall in H1, H2.
  assert (y ∈ x :: l1) as Hy by (rewrite Hp; left).
  assert (x ∈ y :: l2) as Hx by (rewrite <-Hp; left).
  apply elem_of_cons in Hy, Hx. split.
  - destruct Hy as [->|Hy]; [apply fle_refl|by apply H1].
  - destruct Hx as [->|Hx]; [apply fle_refl|by apply H2].
Qed.

(** ** [std::sort] and [std::binary_search]

    [std::sort] leaves the order of equivalent elements open and is undefined
    for keys on which [<] is not a strict weak order, that is for NaN.  The
    class states exactly its postcondition; every theorem below holds for any
    implementation of it. *)
Class StdSort := {
  std_sort : list IndexVal → list IndexVal;
  std_sort_perm l : Forall (λ y, iv_ordered y) l → std_sort l ≡ₚ l;
  std_sort_sorted l : Forall (λ y, iv_ordered y) l → iv_sorted (std_sort l)
}.

#[export] Program Instance isort_std_sort : StdSort | 100 := {| std_sort := isort |}.
Next Obligation. intros. apply isort_perm. Qed.
Next Obligation. intros. by apply isort_sorted. Qed.

(** [std::lower_bound]'s halving loop; [first] and [len] delimit what is left. *)
Fixpoint lower_bound_loop (fuel : nat) (l : list IndexVal) (v : IndexVal)
    (first len : nat) : nat :=
  match fuel with
  | O => first
  | S fuel =>
      if len =? 0 then first else
      let half := len / 2 in
      match l !! (first + half) with
      | Some m =>
          if iv_lt m v
          then lower_bound_loop fuel l v (first + half + 1) (len - half - 1)
          else lower_bound_loop fuel l v first half
      | None => first
      end
  end.

Definition binary_search (l : list IndexVal) (v : IndexVal) : bool :=
  match l !! lower_bound_loop (length l) l v 0 (length l) with
  | Some x => negb (iv_lt v x)
  | None => false
  end.

Lemma sorted_lookup_le l i j x y :
  iv_sorted l → i < j → l !! i = Some x → l !! j = Some y → iv_le x y.
Proof.
  intros Hs. revert i j. induction Hs as [|z l Hs IH Hz]; intros i j Hij Hi Hj; [done|].
  destruct j as [|j]; [lia|]. destruct i as [|i]; simpl in *.
  - simplify_eq. rewrite Forall_forall in Hz. by apply Hz, list_elem_of_lookup_2 with j.
  - by apply (IH i j); [lia| |].
Qed.

Lemma sorted_lt_lt l i j x y v :
  iv_sorted l → Forall (λ y, iv_ordered y) l → i ≤ j → l !! i = Some x → l !! j = Some y →
  iv_lt y v = true → iv_lt x v = true.
Proof.
  intros Hs Hf Hij Hi Hj Hy. destruct (decide (i = j)) as [->|]; [by simplify_eq|].
  assert (iv_le x y) as Hle by (apply (sorted_lookup_le l i j); [done|lia|done|done]).
  rewrite Forall_lookup in Hf. pose proof (Hf _ _ Hi). pose proof (Hf _ _ Hj).
  destruct (flt_ordered _ _ Hy). by apply fnlt_flt_trans with (iv_val y).
Qed.

Lemma lower_bound_spec fuel l v first len :
  iv_sorted l → Forall (λ y, iv_ordered y) l →
  len ≤ fuel → first + len ≤ length l →
  (∀ i x, i < first → l !! i = Some x → iv_lt x v = true) →
  (∀ i x, first + len ≤ i → l !! i = Some x → iv_lt x v = false) →
  let p := lower_bound_loop fuel l v first len in
  p ≤ length l ∧
  (∀ i x, i < p → l !! i = Some x → iv_lt x v = true) ∧
  (∀ i x, p ≤ i → l !! i = Some x → iv_lt x v = false).
Proof.
  intros Hs Hf. revert first len. induction fuel as [|fuel IH]; intros first len Hlen Hb Hlo Hhi;
    cbn [lower_bound_loop].
  { assert (len = 0) as -> by lia. rewrite Nat.add_0_r in Hhi. split_and!; [lia|done|done]. }
  destruct (len =? 0) eqn:E0.
  { apply Nat.eqb_eq in E0 as ->. rewrite Nat.add_0_r in Hhi. split_and!; [lia|done|done]. }
  apply Nat.eqb_neq in E0.
  assert (len / 2 < len) as Hh by (apply Nat.div_lt; lia).
  set (half := len / 2) in *. clearbody half.
  destruct (lookup_lt_is_Some_2 l (first + half)) as [m Hm]; [lia|]. rewrite Hm.
  destruct (iv_lt m v) eqn:Em.
  - apply IH; [lia|lia| |].
    + intros i x Hi Hx. apply (sorted_lt_lt l i (first + half) x m v Hs Hf); [lia|done..].
    + intros i x Hi Hx. apply (Hhi i x); [lia|done].
  - apply IH; [lia|lia|done|]. intros i x Hi Hx.
    destruct (iv_lt x v) eqn:Ex; [|done].
    rewrite (sorted_lt_lt l (first + half) i m x v Hs Hf) in Em; [done|lia|done..].
Qed.

Lemma binary_search_spec l v :
  iv_sorted l → Forall (λ y, iv_ordered y) l → iv_ordered v →
  binary_search l v = existsb (λ x, iv_eq x v) l.
Proof.
  intros Hs Hf Hv. unfold binary_search.
  destruct (lower_bound_spec (length l) l v 0 (length l) Hs Hf) as (Hp & Hlo & Hhi);
    [lia|lia|lia| |].
  { intros i x Hi Hx. apply lookup_lt_Some in Hx. lia. }
  set (p := lower_bound_loop _ _ _ _ _) in *. clearbody p.
  apply Bool.eq_iff_eq_true. rewrite existsb_exists. split.
  - destruct (l !! p) as [x|] eqn:Ex; [|done]. intros E%negb_true_iff.
    exists x. split; [by apply list_elem_of_In, list_elem_of_lookup_2 with p|].
    rewrite Forall_lookup in Hf. apply feq_incomparable; [by eapply Hf|done|].
    split; [by apply (Hhi p)|done].
  - intros (x & Hin%list_elem_of_In & Heq). apply list_elem_of_lookup in Hin as [i Hi].
    rewrite Forall_lookup in Hf. pose proof (Hf _ _ Hi) as Hox.
    apply feq_incomparable in Heq as [H1 H2]; [|done..].
    assert (p ≤ i) as Hpi.
    { destruct (decide (p ≤ i)); [done|].
      assert (iv_lt x v = true) as H3 by (apply (Hlo i x); [lia|done]).
      unfold iv_lt in H3. congruence. }
    assert (p < length l) by (apply lookup_lt_Some in Hi; lia).
    destruct (lookup_lt_is_Some_2 l p) as [y Hy]; [done|]. rewrite Hy.
    apply negb_true_iff. destruct (decide (p = i)) as [->|]; [by simplify_eq|].
    assert (iv_le y x) as Hyx by (apply (sorted_lookup_le l p i); [done|lia|done|done]).
    pose proof (Hf _ _ Hy). unfold iv_lt. by apply fnlt_trans with (iv_val x).
Qed.

(** ** [IndexVector] *)

Record IndexVector := mkIVec { ivec : list IndexVal; sorted : bool }.

Definition IndexVector_ctor : IndexVector := mkIVec [] false.

Definition iv_push (iv : IndexVal) (v : IndexVector) : IndexVector :=
  mkIVec (ivec v ++ [iv]) (sorted v).

(** [append(id, val)] and [append(iv)] *)
Definition append (id : Z) (val : data_t) (v : IndexVector) : IndexVector :=
  iv_push (mkIV id val) v.

Definition size (v : IndexVector) : nat := length (ivec v).
Definition empty (v : IndexVector) : bool := bool_decide (ivec v = []).

(** [IndexVector(const std::vector<data_t>&)]: the position becomes the index,
    truncated to [sample_id_t]. *)
Definition IndexVector_of_vals (vals : list data_t) : IndexVector :=
  mkIVec (imap (λ i v, mkIV (u32 (Z.of_nat i)) v) vals) false.

(** [IndexVector(const std::vector<sample_id_t>&)]: 0 is a place holder. *)
Definition IndexVector_of_ids (ids : list Z) : IndexVector :=
  mkIVec (map (λ i, mkIV i fzero) ids) false.

(** [operator[](int)]; outside the vector it is undefined behaviour.  The index is
    a [nat]: the conversion to [int] is the identity below [2^31], and no caller
    goes beyond (the index of a node is at most half of fewer than [2^32] rows). *)
Definition iv_at (v : IndexVector) (index : nat) : res IndexVal :=
  match ivec v !! index with Some x => Ok x | None => Throw Segfault end.

(** [set_indexes(const sample_id_t*, nelem)] *)
Definition set_indexes_ids (idxs : list Z) (v : IndexVector) : IndexVector :=
  mkIVec (map (λ i, mkIV i fzero) idxs) (sorted v).

(** [set_indexes(const data_t*, nelem)] *)
Definition set_indexes_vals (vals : list data_t) (v : IndexVector) : IndexVector :=
  mkIVec (imap (λ i x, mkIV (u32 (Z.of_nat i)) x) vals) (sorted v).

(** [get_indexes(std::vector<sample_id_t>&)] *)
Definition get_indexes (v : IndexVector) (out : list Z) : res (list Z) :=
  match out with
  | [] => Ok (map iv_index (ivec v))
  | _ :: _ => Throw AssertFailed
  end.

(** [resize]: the loop bound [nelem - size()] is read again in every round. *)
Fixpoint resize_loop (fuel nelem i : nat) (l : list IndexVal) : list IndexVal :=
  match fuel with
  | O => l
  | S fuel =>
      if i <? nelem - length l
      then resize_loop fuel nelem (S i) (l ++ [mkIV 0 fzero])
      else l
  end.

Definition iv_resize (nelem : nat) (v : IndexVector) : res IndexVector :=
  if size v <=? nelem
  then Ok (mkIVec (resize_loop nelem nelem 0 (ivec v)) (sorted v))
  else Throw AssertFailed.

(** [IndexVector(const size_t nelem)] *)
Definition IndexVector_of_size (nelem : nat) : res IndexVector :=
  iv_resize nelem IndexVector_ctor.

(** [insert(item, offset)]: an iterator beyond [end()] is undefined. *)
Definition iv_insert (item : IndexVal) (offset : nat) (v : IndexVector) : res IndexVector :=
  if offset <=? size v
  then Ok (mkIVec (take offset (ivec v) ++ item :: drop offset (ivec v)) (sorted v))
  else Throw Segfault.

(** [trim]: [std::vector::resize]; when it grows the vector the new elements
    have index 0 and an indeterminate value [ind]. *)
Definition trim (ind : data_t) (nelem : nat) (v : IndexVector) : IndexVector :=
  mkIVec (resize nelem (mkIV 0 ind) (ivec v)) (sorted v).

Definition set_sorted (b : bool) (v : IndexVector) : IndexVector := mkIVec (ivec v) b.
Definition is_sorted (v : IndexVector) : bool := sorted v.

Section sorting.
Context `{StdSort}.

Definition iv_sort (v : IndexVector) : IndexVector := mkIVec (std_sort (ivec v)) true.

Definition iv_find (iv : IndexVal) (v : IndexVector) : IndexVector * bool :=
  let v := if negb (is_sorted v) then iv_sort v else v in
  (v, binary_search (ivec v) iv).
End sorting.

(** [to_string]: the sum [__repr__ + item.to_string() + "\n"] is a discarded
    expression; [item_to_string] stands for the formatting of one element. *)
Definition iv_to_string (item_to_string : IndexVal → string) (v : IndexVector) : string :=
  fold_left (λ repr item,
    let _ := (repr +:+ item_to_string item +:+ String (Ascii.ascii_of_nat 10) "")%string in repr)
    (ivec v) "".

(** ** [cunsigned]: a circular unsigned integer *)

Record cunsigned := mkCU { cval : Z; cmax : Z }.

Definition cunsigned_ctor1 (max : Z) : res cunsigned :=
  if (max =? 0)%Z then Throw (parameter_exception "max must be > 0")
  else Ok (mkCU 0 max).

Definition cunsigned_ctor2 (val max : Z) : res cunsigned :=
  if (max =? 0)%Z then Throw (parameter_exception "max must be > 0")
  else if (max <=? val)%Z then Throw (parameter_exception "val must be < max")
  else Ok (mkCU val max).

(** [set] stores the value before it checks it. *)
Definition cset (val : Z) : M cunsigned unit := λ c,
  let c' := mkCU val (cmax c) in
  if (cmax c <=? val)%Z then (c', Throw (parameter_exception "val must be < max"))
  else (c', Ok tt).

Definition inc : M cunsigned Z := λ c,
  let v := if (cval c =? u32 (cmax c - 1))%Z then 0%Z else u32 (cval c + 1) in
  (mkCU v (cmax c), Ok v).

Definition dec : M cunsigned Z := λ c,
  let v := if (cval c =? 0)%Z then u32 (cmax c - 1) else u32 (cval c - 1) in
  (mkCU v (cmax c), Ok v).

Definition cget (c : cunsigned) : Z := cval c.

(** The class invariant: [max] is a positive [unsigned] and [val < max]. *)
Definition cunsigned_wf (c : cunsigned) : Prop :=
  (0 ≤ cval c < cmax c)%Z ∧ (cmax c < 2 ^ 32)%Z.

Lemma inc_spec c : cunsigned_wf c →
  inc c = (mkCU ((cval c + 1) mod cmax c) (cmax c), Ok ((cval c + 1) mod cmax c))%Z.
Proof.
  intros [H1 H2]. unfold inc. rewrite (u32_small (cmax c - 1)) by lia.
  destruct (Z.eqb_spec (cval c) (cmax c - 1)) as [E|E].
  - rewrite E. replace (cmax c - 1 + 1)%Z with (cmax c) by lia. by rewrite Z.mod_same by lia.
  - rewrite u32_small by lia. by rewrite Z.mod_small by lia.
Qed.

Lemma dec_spec c : cunsigned_wf c →
  dec c = (mkCU ((cval c - 1) mod cmax c) (cmax c), Ok ((cval c - 1) mod cmax c))%Z.
Proof.
  intros [H1 H2]. unfold dec.
  destruct (Z.eqb_spec (cval c) 0) as [E|E].
  - rewrite E, u32_small by lia. replace ((0 - 1) mod cmax c)%Z with (cmax c - 1)%Z; [done|].
    symmetry. rewrite <-(Z.mod_add _ 1) by lia. rewrite Z.mod_small; lia.
  - rewrite u32_small by lia. by rewrite Z.mod_small by lia.
Qed.

(** *** Lemmas on [IndexVector] *)

(** The flag tells the truth. *)
Definition ivec_wf (v : IndexVector) : Prop := sorted v = true → iv_sorted (ivec v).

Lemma resize_loop_length fuel nelem i l :
  nelem - length l ≤ i + 2 * fuel →
  length (resize_loop fuel nelem i l)
    = length l + Nat.div2 (S (nelem - length l) - i).
Proof.
  revert i l. induction fuel as [|fuel IH]; intros i l Hf; cbn [resize_loop].
  { assert (S (nelem - length l) - i ≤ 1) as Hle by lia.
    destruct (S (nelem - length l) - i) as [|[|n]]; simpl; lia. }
  destruct (Nat.ltb_spec i (nelem - length l)) as [Hi|Hi].
  - rewrite IH by (rewrite length_app; simpl; lia). rewrite length_app. simpl length.
    destruct (S (nelem - length l) - i) as [|[|n]] eqn:E; [lia|lia|].
    replace (S (nelem - (length l + 1)) - S i) with n by lia. simpl. lia.
  - destruct (S (nelem - length l) - i) as [|[|n]] eqn:E; simpl; lia.
Qed.

Lemma resize_loop_prefix fuel nelem i l :
  ∃ n, resize_loop fuel nelem i l = l ++ replicate n (mkIV 0 fzero).
Proof.
  revert i l. induction fuel as [|fuel IH]; intros i l; cbn [resize_loop].
  { exists 0. by rewrite app_nil_r. }
  case_match; [|exists 0; by rewrite app_nil_r].
  destruct (IH (S i) (l ++ [mkIV 0 fzero])) as [n ->]. exists (S n).
  by rewrite <-app_assoc.
Qed.

Lemma iv_to_string_empty f v : iv_to_string f v = "".
Proof. unfold iv_to_string. by induction (ivec v). Qed.

(** [find] on a truthful flag. *)
Lemma iv_find_spec `{StdSort} (v : IndexVector) (iv : IndexVal) :
  ivec_wf v → Forall (λ y, iv_ordered y) (ivec v) → iv_ordered iv →
  let '(v', found) := iv_find iv v in
  found = existsb (λ x, iv_eq x iv) (ivec v) ∧
  ivec v' ≡ₚ ivec v ∧ sorted v' = true ∧ ivec_wf v'.
Proof.
  intros Hwf Hf Hiv. unfold iv_find, is_sorted.
  destruct (sorted v) eqn:Es; simpl.
  { split_and!; [|done|done|done]. apply binary_search_spec; auto. }
  pose proof (std_sort_perm _ Hf) as Hp.
  split_and!; [|done|done|intros _; by apply std_sort_sorted].
  rewrite binary_search_spec; [|by apply std_sort_sorted|by rewrite Hp|done].
  apply Bool.eq_iff_eq_true. rewrite !existsb_exists.
  setoid_rewrite <-list_elem_of_In. by setoid_rewrite Hp.
Qed.

#[export] Hint Resolve ins_sorted isort_sorted isort_perm : monya.

(** ** Properties of [IndexVector] and [cunsigned] *)

(** On a vector whose [sorted] flag is truthful and whose values are not NaN,
    [IndexVector::find] answers exactly whether an element with an equal value
    is present; it sorts the vector at most once, keeps its elements, and
    leaves the flag truthful. *)
Theorem iv_find_correct `{StdSort} (v : IndexVector) (iv : IndexVal) :
  ivec_wf v → Forall (λ y, iv_ordered y) (ivec v) → iv_ordered iv →
  let '(v', found) := iv_find iv v in
  found = existsb (λ x, iv_eq x iv) (ivec v) ∧
  ivec v' ≡ₚ ivec v ∧ sorted v' = true ∧ ivec_wf v'.
Proof. apply iv_find_spec. Qed.

Lemma iv_find_correct_witness :
  (iv_find (mkIV 9 (of_int 3)) (IndexVector_of_vals [of_int 5; of_int 3; of_int 4])).2
    = existsb (λ x, iv_eq x (mkIV 9 (of_int 3)))
        (ivec (IndexVector_of_vals [of_int 5; of_int 3; of_int 4])).
Proof.
  apply (iv_find_correct (IndexVector_of_vals [of_int 5; of_int 3; of_int 4])
           (mkIV 9 (of_int 3))).
  - intros [=].
  - repeat constructor.
  - reflexivity.
Defined.

(** [IndexVector::resize] does not reach the requested size: it appends
    only half of the missing elements, rounded up, because the loop bound
    shrinks while the counter grows; what it appends are zeroed elements. *)
Theorem iv_resize_half (nelem : nat) (v : IndexVector) :
  size v ≤ nelem →
  ∃ v', iv_resize nelem v = Ok v' ∧
    size v' = size v + Nat.div2 (S (nelem - size v)) ∧
    ivec v' = ivec v ++ replicate (Nat.div2 (S (nelem - size v))) (mkIV 0 fzero).
Proof.
  intros Hle. unfold iv_resize. rewrite (proj2 (Nat.leb_le _ _) Hle).
  eexists. split; [done|]. unfold size in *. cbn [ivec].
  pose proof (resize_loop_length nelem nelem 0 (ivec v)) as Hl. rewrite Nat.sub_0_r in Hl.
  specialize (Hl ltac:(lia)). split; [apply Hl|].
  destruct (resize_loop_prefix nelem nelem 0 (ivec v)) as [n Hn].
  rewrite Hn in Hl |- *. rewrite length_app, length_replicate in Hl.
  do 2 f_equal. lia.
Qed.

Lemma iv_resize_half_witness :
  ∃ v', iv_resize 4 IndexVector_ctor = Ok v' ∧ size v' = 0 + Nat.div2 (S (4 - 0)) ∧
    ivec v' = [] ++ replicate (Nat.div2 (S (4 - 0))) (mkIV 0 fzero).
Proof. apply (iv_resize_half 4 IndexVector_ctor). unfold size. simpl. lia. Defined.

(** C40. A [cunsigned] stays in range: [inc] and [dec] keep [val < max], return
    the stored value, step by one modulo [max], and undo each other. *)
Theorem cunsigned_inc_dec (c : cunsigned) :
  cunsigned_wf c →
  cunsigned_wf (inc c).1 ∧ cunsigned_wf (dec c).1 ∧
  (inc c).2 = Ok ((cval c + 1) mod cmax c)%Z ∧
  (dec c).2 = Ok ((cval c - 1) mod cmax c)%Z ∧
  dec (inc c).1 = (c, Ok (cval c)) ∧ inc (dec c).1 = (c, Ok (cval c)).
Proof.
  intros Hwf. pose proof Hwf as [H1 H2].
  assert (∀ z, cunsigned_wf (mkCU (z mod cmax c) (cmax c))) as Hm.
  { intros z. split; simpl; [apply Z.mod_pos_bound; lia|lia]. }
  rewrite inc_spec, dec_spec by done. cbn [fst snd].
  rewrite (dec_spec (mkCU _ _)), (inc_spec (mkCU _ _)) by done. cbn [cval cmax].
  rewrite Zminus_mod_idemp_l, Zplus_mod_idemp_l.
  replace (cval c + 1 - 1)%Z with (cval c) by lia.
  replace (cval c - 1 + 1)%Z with (cval c) by lia.
  rewrite (Z.mod_small (cval c)) by lia. destruct c; simpl. by split_and!.
Qed.

Lemma cunsigned_inc_dec_witness :
  cunsigned_wf (inc (mkCU 2 3)).1 ∧ dec (inc (mkCU 2 3)).1 = (mkCU 2 3, Ok 2%Z).
Proof.
  destruct (cunsigned_inc_dec (mkCU 2 3)) as (H1 & _ & _ & _ & H2 & _); [|by split].
  split; simpl; lia.
Defined.
