(* ===== verification/NNVector.v ===== *)
(** * [common/NNVector.hpp]: the bounded nearest-neighbour list

    A circular doubly linked list with a sentinel, of at most [k] elements
    sorted by distance, with a one-entry cache for indexed access.  The nodes
    live in a heap; a NULL or dangling pointer dereference is a [Segfault]. *)
From S2P Require Import Prelude DataT Types.
From stdpp Require Import options.

(** ** Data *)

Record Node := mkNode { prev : option loc; next : option loc; data : IndexVal }.

Record NNVector := mkNNV {
  nheap : gmap loc Node;
  sentinel : loc;
  cache : Z * option loc;
  nk : Z;
  _size : Z
}.

(** ** Field accesses through a pointer *)

Definition set_heap (h : gmap loc Node) (s : NNVector) : NNVector :=
  mkNNV h (sentinel s) (cache s) (nk s) (_size s).
Definition set_size (n : Z) (s : NNVector) : NNVector :=
  mkNNV (nheap s) (sentinel s) (cache s) (nk s) n.
Definition set_cache (c : Z * option loc) (s : NNVector) : NNVector :=
  mkNNV (nheap s) (sentinel s) c (nk s) (_size s).

Definition load (p : option loc) : M NNVector Node := λ s,
  match p ≫= (λ l, nheap s !! l) with
  | Some n => (s, Ok n)
  | None => (s, Throw Segfault)
  end.

Definition upd (f : Node → Node) (p : option loc) : M NNVector unit := λ s,
  match p with
  | Some l =>
      match nheap s !! l with
      | Some n => (set_heap (<[l := f n]> (nheap s)) s, Ok tt)
      | None => (s, Throw Segfault)
      end
  | None => (s, Throw Segfault)
  end.

Definition set_next (q : option loc) (n : Node) : Node := mkNode (prev n) q (data n).
Definition set_prev (q : option loc) (n : Node) : Node := mkNode q (next n) (data n).

(** [new Node(iv)] *)
Definition new_Node (iv : IndexVal) : M NNVector (option loc) := λ s,
  let l := fresh (dom (nheap s)) in
  (set_heap (<[l := mkNode None None iv]> (nheap s)) s, Ok (Some l)).

(** [delete p] *)
Definition delete_Node (p : option loc) : M NNVector unit := λ s,
  match p with
  | None => (s, Ok tt)
  | Some l =>
      match nheap s !! l with
      | Some _ => (set_heap (delete l (nheap s)) s, Ok tt)
      | None => (s, Throw Segfault)
      end
  end.

(** ** Methods *)

Definition NNVector_ctor (k : Z) : NNVector :=
  mkNNV {[ 1%positive := mkNode (Some 1%positive) (Some 1%positive) (mkIV 0 FLT_MAX) ]}
        1%positive (0%Z, None) k 0.

Definition update_cache (index : Z) (node : option loc) : M NNVector unit :=
  mmodify (set_cache (index, node)).

Definition invalidate_cache : M NNVector unit := λ s,
  match (cache s).2 with
  | Some _ => (set_cache ((cache s).1, None) s, Ok tt)
  | None => (s, Ok tt)
  end.

Definition push_back (new_node : option loc) : M NNVector unit :=
  let! s := mget in
  let sen := Some (sentinel s) in
  (if (_size s =? 0)%Z then
     upd (set_prev sen) new_node;;;
     upd (set_next sen) new_node;;;
     upd (set_prev new_node) sen;;;
     upd (set_next new_node) sen
   else
     let! sn := load sen in
     let back := prev sn in
     upd (set_next sen) new_node;;;
     upd (set_prev back) new_node;;;
     upd (set_next new_node) back;;;
     upd (set_prev new_node) sen);;;
  mmodify (λ s, set_size (u64 (_size s + 1)) s).

Definition pop_back : M NNVector unit :=
  let! s := mget in
  if (_size s =? 0)%Z then mret tt else
  let sen := Some (sentinel s) in
  let! sn := load sen in
  let delnode := prev sn in
  if decide (delnode = sen) then mret tt else
  let! dn := load delnode in
  upd (set_next sen) (prev dn);;;
  let! dn := load delnode in
  upd (set_prev (prev dn)) sen;;;
  delete_Node delnode;;;
  mmodify (λ s, set_size (u64 (_size s - 1)) s);;;
  invalidate_cache.

(** The search loop of [eval]: insert before the first strictly greater
    element; returns [insert_flag]. *)
Fixpoint eval_loop (fuel : nat) (iv : IndexVal) (curr : option loc) : M NNVector bool :=
  match fuel with
  | O => mthrow OutOfFuel
  | S fuel =>
      let! s := mget in
      if decide (curr = Some (sentinel s)) then mret false else
      massert (bool_decide (curr ≠ None));;;
      let! c := load curr in
      if flt (iv_val iv) (iv_val (data c)) then
        let! new_node := new_Node iv in
        let! c := load curr in
        upd (set_next new_node) (prev c);;;
        let! c := load curr in
        upd (set_prev (prev c)) new_node;;;
        upd (set_prev new_node) curr;;;
        upd (set_next curr) new_node;;;
        mmodify (λ s, set_size (u64 (_size s + 1)) s);;;
        mret true
      else
        let! c := load curr in
        eval_loop fuel iv (next c)
  end.

(** The insertion part of [eval]: into an empty list, before a greater element,
    or at the end while there is room. *)
Definition eval_insert (iv : IndexVal) : M NNVector unit :=
  let! s := mget in
  let sen := Some (sentinel s) in
  if (_size s =? 0)%Z then
    let! new_node := new_Node iv in
    upd (set_next new_node) sen;;;
    upd (set_prev sen) new_node;;;
    upd (set_prev new_node) sen;;;
    upd (set_next sen) new_node;;;
    mmodify (λ s, set_size (u64 (_size s + 1)) s)
  else
    let! sn := load sen in
    let! insert_flag := eval_loop (S (base.size (nheap s))) iv (next sn) in
    let! s := mget in
    if (_size s <? nk s)%Z && negb insert_flag then
      let! n := new_Node iv in
      push_back n
    else mret tt.

(** [eval]: insert, then drop the last element if there are too many. *)
Definition eval (iv : IndexVal) : M NNVector unit :=
  eval_insert iv;;;
  let! s := mget in
  (if (nk s <? _size s)%Z then pop_back else mret tt);;;
  invalidate_cache.

(** [eval(id, dist)] *)
Definition eval_id (id : Z) (dist : data_t) : M NNVector unit := eval (mkIV id dist).

(** [n] steps along [next]. *)
Fixpoint walk (n : nat) (curr : option loc) : M NNVector (option loc) :=
  match n with
  | O => mret curr
  | S n => let! c := load curr in walk n (next c)
  end.

(** [operator[]]: [while (pos++ < index)] takes [index - pos] steps and
    [while (pos++ <= index)] takes [index - pos + 1]. *)
Definition at_ (index : Z) : M NNVector IndexVal :=
  let! s := mget in
  if (_size s <? u64 (index + 1))%Z then mthrow (runtime_error "Out of bounds index") else
  let! curr :=
    (match cache s with
     | (first, Some c) =>
         if (first =? u64 (index - 1))%Z then
           let! cn := load (Some c) in
           update_cache index (next cn);;; mret (next cn)
         else
           let! curr :=
             (if (first <=? index)%Z
              then walk (Z.to_nat (index - first)) (Some c)
              else walk (Z.to_nat (index + 1)) (Some (sentinel s))) in
           update_cache index curr;;; mret curr
     | (_, None) =>
         let! curr := walk (Z.to_nat (index + 1)) (Some (sentinel s)) in
         update_cache index curr;;; mret curr
     end) in
  massert (bool_decide (curr ≠ None));;;
  let! n := load curr in
  mret (data n).

Definition nn_size (s : NNVector) : Z := _size s.
Definition nn_empty (s : NNVector) : bool := (_size s =? 0)%Z.

(** [operator==(IndexVector&)]: positions [i], [i+1], ... of both. *)
Fixpoint eq_loop (i : Z) (l : list IndexVal) : M NNVector bool :=
  match l with
  | [] => mret true
  | x :: l =>
      let! y := at_ i in
      if iv_ne x y then mret false else eq_loop (i + 1) l
  end.

Definition eq_IndexVector (iv : IndexVector) : M NNVector bool :=
  let! s := mget in
  if decide (Z.of_nat (size iv) ≠ _size s) then mret false else
  eq_loop 0 (ivec iv).

(** [to_IndexVector]: the loop body does not advance [curr]. *)
Fixpoint to_IndexVector_loop (fuel : nat) (curr : option loc) (ret : IndexVector)
  : M NNVector IndexVector :=
  match fuel with
  | O => mthrow OutOfFuel
  | S fuel =>
      let! s := mget in
      if decide (curr = Some (sentinel s)) then mret ret else
      let! c := load curr in
      to_IndexVector_loop fuel curr (iv_push (data c) ret)
  end.

Definition to_IndexVector (fuel : nat) : M NNVector IndexVector :=
  let! s := mget in
  let! sn := load (Some (sentinel s)) in
  to_IndexVector_loop fuel (next sn) IndexVector_ctor.

(** [find]: the loop body does not advance [curr] either. *)
Fixpoint find_loop (fuel : nat) (iv : IndexVal) (curr : option loc) : M NNVector bool :=
  match fuel with
  | O => mthrow OutOfFuel
  | S fuel =>
      let! s := mget in
      if decide (curr = Some (sentinel s)) then mret false else
      let! c := load curr in
      if iv_eq (data c) iv then mret true else find_loop fuel iv curr
  end.

Definition find (fuel : nat) (iv : IndexVal) : M NNVector bool :=
  let! s := mget in
  let! sn := load (Some (sentinel s)) in
  find_loop fuel iv (next sn).

(** The destructor. *)
Fixpoint dtor_loop (fuel : nat) (curr curr_next : option loc) : M NNVector unit :=
  match fuel with
  | O => mthrow OutOfFuel
  | S fuel =>
      delete_Node curr;;;
      let curr := curr_next in
      let! s := mget in
      if decide (curr = Some (sentinel s)) then mret tt else
      let! c := load curr in
      dtor_loop fuel curr (next c)
  end.

Definition NNVector_dtor : M NNVector unit :=
  let! s := mget in
  (if negb (_size s =? 0)%Z then
     let! sn := load (Some (sentinel s)) in
     let curr := next sn in
     let! c := load curr in
     dtor_loop (S (base.size (nheap s))) curr (next c)
   else mret tt);;;
  delete_Node (Some (sentinel s)).

(** ** The heap, one field at a time

    The fields of a node are updated independently, so the heap is viewed as
    three partial functions. *)

Definition nxt (h : gmap loc Node) (a : loc) : option loc := h !! a ≫= next.
Definition prv (h : gmap loc Node) (a : loc) : option loc := h !! a ≫= prev.
Definition dat (h : gmap loc Node) (a : loc) : option IndexVal := data <$> h !! a.

Lemma nxt_set_next h a b q :
  is_Some (h !! a) → nxt (alter (set_next q) a h) b = if decide (a = b) then q else nxt h b.
Proof.
  intros [n Hn]. unfold nxt. rewrite lookup_alter. case_decide; [subst|done].
  by rewrite Hn.
Qed.
Lemma prv_set_prev h a b q :
  is_Some (h !! a) → prv (alter (set_prev q) a h) b = if decide (a = b) then q else prv h b.
Proof.
  intros [n Hn]. unfold prv. rewrite lookup_alter. case_decide; [subst|done].
  by rewrite Hn.
Qed.
Lemma nxt_set_prev h a b q : nxt (alter (set_prev q) a h) b = nxt h b.
Proof. unfold nxt. rewrite lookup_alter. case_decide; [subst|done]. by destruct (h !! b). Qed.
Lemma prv_set_next h a b q : prv (alter (set_next q) a h) b = prv h b.
Proof. unfold prv. rewrite lookup_alter. case_decide; [subst|done]. by destruct (h !! b). Qed.
Lemma dat_set_prev h a b q : dat (alter (set_prev q) a h) b = dat h b.
Proof. unfold dat. rewrite lookup_alter. case_decide; [subst|done]. by destruct (h !! b). Qed.
Lemma dat_set_next h a b q : dat (alter (set_next q) a h) b = dat h b.
Proof. unfold dat. rewrite lookup_alter. case_decide; [subst|done]. by destruct (h !! b). Qed.

Lemma nxt_new h l b iv :
  nxt (<[l := mkNode None None iv]> h) b = if decide (l = b) then None else nxt h b.
Proof. unfold nxt. rewrite lookup_insert. by case_decide. Qed.
Lemma prv_new h l b iv :
  prv (<[l := mkNode None None iv]> h) b = if decide (l = b) then None else prv h b.
Proof. unfold prv. rewrite lookup_insert. by case_decide. Qed.
Lemma dat_new h l b iv :
  dat (<[l := mkNode None None iv]> h) b = if decide (l = b) then Some iv else dat h b.
Proof. unfold dat. rewrite lookup_insert. by case_decide. Qed.

Lemma nxt_delete h l b : nxt (delete l h) b = if decide (l = b) then None else nxt h b.
Proof. unfold nxt. rewrite lookup_delete. by case_decide. Qed.
Lemma prv_delete h l b : prv (delete l h) b = if decide (l = b) then None else prv h b.
Proof. unfold prv. rewrite lookup_delete. by case_decide. Qed.
Lemma dat_delete h l b : dat (delete l h) b = if decide (l = b) then None else dat h b.
Proof. unfold dat. rewrite lookup_delete. by case_decide. Qed.

Lemma alter_is_Some f a b (h : gmap loc Node) : is_Some (alter f a h !! b) ↔ is_Some (h !! b).
Proof. rewrite lookup_alter. case_decide; [|done]. subst. by rewrite fmap_is_Some. Qed.

Lemma nxt_is_Some h a b : nxt h a = Some b → is_Some (h !! a).
Proof. unfold nxt. destruct (h !! a); [by eexists|done]. Qed.
Lemma prv_is_Some h a b : prv h a = Some b → is_Some (h !! a).
Proof. unfold prv. destruct (h !! a); [by eexists|done]. Qed.
Lemma dat_is_Some h a x : dat h a = Some x → is_Some (h !! a).
Proof. unfold dat. destruct (h !! a); [by eexists|done]. Qed.

Create Rewrite HintDb fields.
#[export] Hint Rewrite nxt_set_prev prv_set_next dat_set_prev dat_set_next
  nxt_new prv_new dat_new nxt_delete prv_delete dat_delete : fields.

(** *** Running the primitives *)

Lemma load_ok s a n : nheap s !! a = Some n → load (Some a) s = (s, Ok n).
Proof. unfold load. simpl. by intros ->. Qed.

Lemma upd_ok f s a : is_Some (nheap s !! a) →
  upd f (Some a) s = (set_heap (alter f a (nheap s)) s, Ok tt).
Proof.
  intros [n Hn]. unfold upd. rewrite Hn. do 2 f_equal.
  apply map_eq. intros i. rewrite lookup_alter, lookup_insert.
  case_decide; [subst|done]. by rewrite Hn.
Qed.

Lemma delete_ok s a : is_Some (nheap s !! a) →
  delete_Node (Some a) s = (set_heap (delete a (nheap s)) s, Ok tt).
Proof. intros [n Hn]. unfold delete_Node. by rewrite Hn. Qed.

(** A [load] followed by a use of [next] or [prev] only. *)
Lemma load_next {B} s a b (f : option loc → M NNVector B) :
  nxt (nheap s) a = Some b →
  mbind' (load (Some a)) (λ n, f (next n)) s = f (Some b) s.
Proof.
  unfold nxt. intros H. destruct (nheap s !! a) as [n|] eqn:E; [|done].
  rewrite (mbind_ok _ _ _ _ _ (load_ok _ _ _ E)). simpl in H. by rewrite H.
Qed.
Lemma load_prev {B} s a b (f : option loc → M NNVector B) :
  prv (nheap s) a = Some b →
  mbind' (load (Some a)) (λ n, f (prev n)) s = f (Some b) s.
Proof.
  unfold prv. intros H. destruct (nheap s !! a) as [n|] eqn:E; [|done].
  rewrite (mbind_ok _ _ _ _ _ (load_ok _ _ _ E)). simpl in H. by rewrite H.
Qed.
Lemma load_data {B} s a x (f : IndexVal → M NNVector B) :
  dat (nheap s) a = Some x →
  mbind' (load (Some a)) (λ n, f (data n)) s = f x s.
Proof.
  unfold dat. intros H. destruct (nheap s !! a) as [n|] eqn:E; [|done].
  rewrite (mbind_ok _ _ _ _ _ (load_ok _ _ _ E)). simpl in H. by simplify_eq.
Qed.

Lemma prv_node h a b : prv h a = Some b → ∃ n, h !! a = Some n ∧ prev n = Some b.
Proof. unfold prv. destruct (h !! a) as [n|]; [|done]. intros. by exists n. Qed.
Lemma nxt_node h a b : nxt h a = Some b → ∃ n, h !! a = Some n ∧ next n = Some b.
Proof. unfold nxt. destruct (h !! a) as [n|]; [|done]. intros. by exists n. Qed.

(** Runs a [load] whose [prev] ([next]) field is known. *)
Ltac run_prev H :=
  let n := fresh "n" in let E := fresh "E" in let F := fresh "F" in
  destruct (prv_node _ _ _ H) as (n & E & F);
  rewrite (mbind_ok _ _ _ _ _ (load_ok _ _ _ E)), F; clear E F n.
Ltac run_next H :=
  let n := fresh "n" in let E := fresh "E" in let F := fresh "F" in
  destruct (nxt_node _ _ _ H) as (n & E & F);
  rewrite (mbind_ok _ _ _ _ _ (load_ok _ _ _ E)), F; clear E F n.

(** ** The shape of the list *)

Definition linked (h : gmap loc Node) (a b : loc) : Prop :=
  nxt h a = Some b ∧ prv h b = Some a.

Fixpoint path (h : gmap loc Node) (l : list loc) : Prop :=
  match l with
  | a :: l' => match l' with b :: _ => linked h a b ∧ path h l' | [] => True end
  | [] => True
  end.

Lemma path_app h l1 a l2 : path h (l1 ++ a :: l2) ↔ path h (l1 ++ [a]) ∧ path h (a :: l2).
Proof.
  induction l1 as [|b l1 IH]; [simpl; naive_solver|].
  destruct l1 as [|c l1]; simpl in *; naive_solver.
Qed.

Lemma path_ext h h' pre q :
  (∀ a, a ∈ pre → nxt h' a = nxt h a) →
  (∀ b, b ∈ tail (pre ++ [q]) → prv h' b = prv h b) →
  path h (pre ++ [q]) → path h' (pre ++ [q]).
Proof.
  induction pre as [|a pre IH]; intros Hn Hp; [done|].
  assert (∃ b r, pre ++ [q] = b :: r) as (b & r & E).
  { destruct pre as [|b pre]; [by exists q, []|by exists b, (pre ++ [q])]. }
  simpl in *. rewrite E in IH, Hp |- *. simpl. intros [[H1 H2] H3]. split.
  - split; [rewrite Hn; [done|left]|rewrite Hp; [done|left]].
  - apply IH; [|intros c Hc; apply Hp; right; exact Hc|done]. intros c Hc. apply Hn. by right.
Qed.

(** [dll h sen ps l]: the nodes [ps] after the sentinel [sen] form a circular
    doubly linked list holding [l], and they are all of the heap. *)
Record dll (h : gmap loc Node) (sen : loc) (ps : list loc) (l : list IndexVal) : Prop := {
  dll_path : path h (sen :: ps ++ [sen]);
  dll_nodup : NoDup (sen :: ps);
  dll_data : Forall2 (λ p x, dat h p = Some x) ps l;
  dll_dom : dom h = list_to_set (sen :: ps)
}.

Lemma dll_elem h sen ps l a : dll h sen ps l → a ∈ sen :: ps → is_Some (h !! a).
Proof. intros H Ha. apply elem_of_dom. rewrite (dll_dom _ _ _ _ H). by apply elem_of_list_to_set. Qed.

Lemma dll_not_elem h sen ps l a : dll h sen ps l → h !! a = None → a ∉ sen :: ps.
Proof. intros H Ha Hin. destruct (dll_elem _ _ _ _ _ H Hin). congruence. Qed.

Lemma Forall2_dat_ext h h' ps l :
  (∀ a, a ∈ ps → dat h' a = dat h a) →
  Forall2 (λ p x, dat h p = Some x) ps l → Forall2 (λ p x, dat h' p = Some x) ps l.
Proof.
  intros He Hf. induction Hf as [|p x ps l Hp Hf IH]; constructor.
  - rewrite He; [done|left].
  - apply IH. intros a Ha. apply He. by right.
Qed.

(** The last node before a position and the first one at it. *)
Lemma snoc_case {A} (s : A) ps : ∃ pre q, s :: ps = pre ++ [q].
Proof. destruct (exists_last (l := s :: ps)) as (pre & q & ->); [done|]. by exists pre, q. Qed.
Lemma cons_case {A} (ps : list A) (s : A) : ∃ c post, ps ++ [s] = c :: post.
Proof. destruct ps as [|c ps]; [by exists s, []|by exists c, (ps ++ [s])]. Qed.

(** Linking a fresh node [n] between the neighbours [q] and [c]. *)
Lemma dll_insert h h' sen ps1 ps2 l1 l2 n x pre q c post :
  dll h sen (ps1 ++ ps2) (l1 ++ l2) → length ps1 = length l1 →
  h !! n = None →
  sen :: ps1 = pre ++ [q] → ps2 ++ [sen] = c :: post →
  (∀ a, nxt h' a = if decide (a = n) then Some c else if decide (a = q) then Some n else nxt h a) →
  (∀ a, prv h' a = if decide (a = n) then Some q else if decide (a = c) then Some n else prv h a) →
  (∀ a, dat h' a = if decide (a = n) then Some x else dat h a) →
  dom h' = {[n]} ∪ dom h →
  dll h' sen (ps1 ++ n :: ps2) (l1 ++ x :: l2).
Proof.
  intros H Hlen Hn Eq Ec Hnx Hpv Hda Hdom.
  pose proof (dll_not_elem _ _ _ _ _ H Hn) as Hni.
  pose proof (dll_nodup _ _ _ _ H) as Hnd.
  assert (NoDup (pre ++ [q] ++ ps2)) as Hnd2
    by (rewrite app_assoc, <-Eq; exact Hnd).
  assert (NoDup (ps1 ++ c :: post)) as Hnd3.
  { rewrite <-Ec, app_assoc. rewrite Permutation_app_comm. exact Hnd. }
  pose proof (dll_path _ _ _ _ H) as Hpath.
  rewrite <-app_assoc, app_comm_cons, Eq, Ec, <-app_assoc in Hpath.
  change ([q] ++ c :: post) with (q :: c :: post) in Hpath.
  apply path_app in Hpath as [Hp1 [[_ _] Hp2]].
  assert (n ∉ pre ++ [q] ++ ps2) as Hn2 by (rewrite app_assoc, <-Eq; exact Hni).
  assert (n ∉ ps1 ++ c :: post) as Hn3.
  { rewrite <-Ec. set_solver. }
  constructor.
  - rewrite <-app_assoc, app_comm_cons, Eq, <-app_assoc. simpl. rewrite Ec.
    apply path_app. split; [|split; [|split]].
    + apply path_ext with h; [| |done].
      * intros a Ha. rewrite Hnx. rewrite !decide_False; [done| |set_solver].
        intros ->. apply NoDup_app in Hnd2 as (_&Hd&_). apply (Hd q Ha). left.
      * rewrite <-Eq. simpl. intros a Ha. rewrite Hpv. rewrite !decide_False; [done| |set_solver].
        intros ->. apply NoDup_app in Hnd3 as (_&Hd&_). apply (Hd c Ha). left.
    + split; [rewrite Hnx|rewrite Hpv, decide_True by done; done].
      rewrite decide_False by set_solver. by rewrite decide_True.
    + split; [rewrite Hnx; by rewrite decide_True|].
      rewrite Hpv. rewrite decide_False by set_solver. by rewrite decide_True.
    + destruct (snoc_case c post) as (pre2 & q2 & E2). rewrite E2 in Hp2 |- *.
      apply path_ext with h; [| |done].
      * intros a Ha. rewrite Hnx.
        assert (a ∈ ps2) as Ha2.
        { rewrite <-Ec in E2. apply app_inj_tail in E2 as [-> ->]. done. }
        rewrite !decide_False; [done| |set_solver].
        intros ->. apply NoDup_app in Hnd2 as (_&_&Hd). apply NoDup_app in Hd as (_&Hd&_).
        by apply (Hd q); [left|].
      * rewrite <-E2. simpl. intros a Ha. rewrite Hpv. rewrite !decide_False; [done| |set_solver].
        intros ->. apply NoDup_app in Hnd3 as (_&_&Hd). apply NoDup_cons in Hd as [Hd _]. done.
  - rewrite app_comm_cons, <-Permutation_middle. constructor; [exact Hni|exact Hnd].
  - pose proof (dll_data _ _ _ _ H) as Hd.
    apply (Forall2_dat_ext h h') in Hd.
    2: { intros a Ha. rewrite Hda, decide_False; [done|]. intros ->. apply Hni. by right. }
    apply Forall2_app_inv in Hd as [Hd1 Hd2]; [|done].
    apply Forall2_app; [done|]. constructor; [|done]. rewrite Hda. by rewrite decide_True.
  - rewrite Hdom, (dll_dom _ _ _ _ H). set_solver.
Qed.

(** Unlinking the last node [d]. *)
Lemma dll_remove_last h h' sen ps l d x pre q :
  dll h sen (ps ++ [d]) (l ++ [x]) →
  sen :: ps = pre ++ [q] →
  (∀ a, nxt h' a = if decide (a = d) then None else if decide (a = q) then Some sen else nxt h a) →
  (∀ a, prv h' a = if decide (a = d) then None else if decide (a = sen) then Some q else prv h a) →
  (∀ a, dat h' a = if decide (a = d) then None else dat h a) →
  dom h' = dom h ∖ {[d]} →
  dll h' sen ps l.
Proof.
  intros H Eq Hnx Hpv Hda Hdom.
  pose proof (dll_nodup _ _ _ _ H) as Hnd. rewrite app_comm_cons, Eq in Hnd.
  pose proof (dll_path _ _ _ _ H) as Hpath.
  rewrite <-app_assoc, app_comm_cons, Eq, <-app_assoc in Hpath.
  change ([q] ++ [d] ++ [sen]) with (q :: [d; sen]) in Hpath.
  apply path_app in Hpath as [Hp1 _].
  assert (sen ∈ pre ++ [q]) as Hsen by (rewrite <-Eq; left).
  assert (d ∉ pre ++ [q]) as Hd.
  { apply NoDup_app in Hnd as (_&Hd&_). intros Hin. apply (Hd d Hin). left. }
  assert (q ∉ pre) as Hq.
  { apply NoDup_app in Hnd as (Hnd&_). apply NoDup_app in Hnd as (_&Hnd&_).
    intros Hin. apply (Hnd q Hin). left. }
  constructor.
  - rewrite app_comm_cons, Eq, <-app_assoc. simpl. apply path_app. split.
    + apply path_ext with h; [| |done].
      * intros a Ha. rewrite Hnx, !decide_False; [done|set_solver..].
      * rewrite <-Eq. simpl. intros a Ha. rewrite Hpv, !decide_False; [done| |].
        -- intros ->. apply NoDup_app in Hnd as (Hnd&_). rewrite <-Eq in Hnd.
           by apply NoDup_cons in Hnd as [? _].
        -- intros ->. apply Hd. rewrite <-Eq. by right.
    + simpl. split; [|done]. split; [rewrite Hnx|rewrite Hpv].
      * rewrite decide_False by set_solver. by rewrite decide_True.
      * rewrite decide_False by set_solver. by rewrite decide_True.
  - apply NoDup_app in Hnd as (Hnd&_). by rewrite Eq.
  - pose proof (dll_data _ _ _ _ H) as Hf.
    apply Forall2_app_inv in Hf as [Hf _].
    2: { apply Forall2_length in Hf. rewrite !length_app in Hf. simpl in Hf. lia. }
    apply (Forall2_dat_ext h); [|done].
    intros a Ha. rewrite Hda, decide_False; [done|]. intros ->. apply Hd. rewrite <-Eq. by right.
  - rewrite Hdom, (dll_dom _ _ _ _ H). rewrite app_comm_cons, Eq, list_to_set_app_L. set_solver.
Qed.

(** ** Symbolic execution of the methods *)

Lemma set_heap_heap h s : nheap (set_heap h s) = h.
Proof. done. Qed.

Lemma new_Node_ok iv s :
  ∃ n, nheap s !! n = None ∧
    new_Node iv s = (set_heap (<[n := mkNode None None iv]> (nheap s)) s, Ok (Some n)).
Proof.
  exists (fresh (dom (nheap s))). split; [|done].
  apply not_elem_of_dom, is_fresh.
Qed.

Ltac fields :=
  repeat first
    [ rewrite nxt_set_next by (rewrite ?alter_is_Some; eauto)
    | rewrite prv_set_prev by (rewrite ?alter_is_Some; eauto)
    | progress autorewrite with fields ].

(** One write through a pointer that is known to be allocated. *)
Ltac run_upd :=
  erewrite mbind_ok;
  [|apply upd_ok; rewrite ?set_heap_heap, ?alter_is_Some; eauto; fail];
  cbv beta; cbn [set_heap nheap sentinel cache nk _size].

Lemma is_Some_new (h : gmap loc Node) n x a :
  is_Some (h !! a) → is_Some (<[n := x]> h !! a).
Proof. intros. rewrite lookup_insert. case_decide; [by eexists|done]. Qed.
Lemma is_Some_new_eq (h : gmap loc Node) n x : is_Some (<[n := x]> h !! n).
Proof. rewrite lookup_insert_eq. by eexists. Qed.
#[export] Hint Resolve is_Some_new is_Some_new_eq : core.

(** The sequence of writes that links [n] between [q] and [c], whatever their
    order: only the resulting fields matter. *)
Definition link_between (h : gmap loc Node) (n q c : loc) (x : IndexVal)
    (h' : gmap loc Node) : Prop :=
  (∀ a, nxt h' a = if decide (a = n) then Some c else if decide (a = q) then Some n else nxt h a) ∧
  (∀ a, prv h' a = if decide (a = n) then Some q else if decide (a = c) then Some n else prv h a) ∧
  (∀ a, dat h' a = if decide (a = n) then Some x else dat h a) ∧
  dom h' = {[n]} ∪ dom h.

Lemma link_between_dll h h' sen ps1 ps2 l1 l2 n x pre q c post :
  link_between h n q c x h' →
  dll h sen (ps1 ++ ps2) (l1 ++ l2) → length ps1 = length l1 → h !! n = None →
  sen :: ps1 = pre ++ [q] → ps2 ++ [sen] = c :: post →
  dll h' sen (ps1 ++ n :: ps2) (l1 ++ x :: l2).
Proof. intros (?&?&?&?) ?????. by eapply dll_insert. Qed.

Lemma new_neq (h : gmap loc Node) n a : h !! n = None → is_Some (h !! a) → n ≠ a.
Proof. intros Hn [x Hx] ->. congruence. Qed.

(** Case analysis on every pointer comparison of the goal. *)
Ltac ptr_cases := repeat case_decide; subst; try done; try congruence.

Lemma insert_before_run s iv c q :
  prv (nheap s) c = Some q → is_Some (nheap s !! q) →
  ∃ n h', nheap s !! n = None ∧ link_between (nheap s) n q c iv h' ∧
    (let! new_node := new_Node iv in
     let! cn := load (Some c) in
     upd (set_next new_node) (prev cn);;;
     let! cn := load (Some c) in
     upd (set_prev (prev cn)) new_node;;;
     upd (set_prev new_node) (Some c);;;
     upd (set_next (Some c)) new_node;;;
     mmodify (λ s, set_size (u64 (_size s + 1)) s);;;
     mret true) s = (set_size (u64 (_size s + 1)) (set_heap h' s), Ok true).
Proof.
  intros Hpc Hq. pose proof (prv_is_Some _ _ _ Hpc) as Hc.
  destruct (new_Node_ok iv s) as (n & Hn & En).
  pose proof (new_neq _ _ _ Hn Hq) as Hnq. pose proof (new_neq _ _ _ Hn Hc) as Hnc.
  eexists n, _. split; [done|]. split; cycle 1.
  - rewrite (mbind_ok _ _ _ _ _ En).
    rewrite (load_prev (B:=bool) _ c q (λ p, upd (set_next (Some n)) p;;; _)).
    2: { cbn. fields. ptr_cases. }
    run_upd.
    rewrite (load_prev (B:=bool) _ c q (λ p, upd (set_prev p) (Some n);;; _)).
    2: { cbn. fields. ptr_cases. }
    run_upd. run_upd. run_upd. reflexivity.
  - split_and!.
    + intros a. fields. ptr_cases.
    + intros a. fields. ptr_cases.
    + intros a. fields. ptr_cases.
    + rewrite !dom_alter_L, dom_insert_L. done.
Qed.

Lemma dll_neighbours h sen ps1 ps2 l pre q c post :
  dll h sen (ps1 ++ ps2) l → sen :: ps1 = pre ++ [q] → ps2 ++ [sen] = c :: post →
  linked h q c ∧ is_Some (h !! q) ∧ is_Some (h !! c).
Proof.
  intros H Eq Ec. pose proof (dll_path _ _ _ _ H) as Hp.
  rewrite <-app_assoc, app_comm_cons, Eq, Ec, <-app_assoc in Hp.
  apply path_app in Hp as [_ [Hl _]]. split; [done|]. destruct Hl as [H1 H2].
  split; [by eapply nxt_is_Some|by eapply prv_is_Some].
Qed.

Lemma ins_app_le iv l1 l2 :
  Forall (λ y, iv_lt iv y = false) l1 → ins iv (l1 ++ l2) = l1 ++ ins iv l2.
Proof. induction 1 as [|y l1 Hy _ IH]; [done|]. simpl. by rewrite Hy, IH. Qed.

Lemma eval_loop_spec fuel iv s ps1 ps2 l1 l2 c post :
  dll (nheap s) (sentinel s) (ps1 ++ ps2) (l1 ++ l2) → length ps1 = length l1 →
  length ps2 < fuel →
  ps2 ++ [sentinel s] = c :: post →
  (∃ h' ps', eval_loop fuel iv (Some c) s
       = (set_size (u64 (_size s + 1)) (set_heap h' s), Ok true) ∧
     dll h' (sentinel s) ps' (l1 ++ ins iv l2)) ∨
  (eval_loop fuel iv (Some c) s = (s, Ok false) ∧ ins iv l2 = l2 ++ [iv]).
Proof.
  revert ps1 ps2 l1 l2 c post.
  induction fuel as [|fuel IH]; intros ps1 ps2 l1 l2 c post H Hlen Hf Ec; [lia|].
  cbn [eval_loop]. rewrite (mbind_ok _ _ _ _ _ eq_refl : mbind' mget _ s = _).
  pose proof (dll_nodup _ _ _ _ H) as Hnd.
  pose proof (dll_data _ _ _ _ H) as Hd. apply Forall2_app_inv in Hd as [_ Hd]; [|done].
  destruct Hd as [|c' y ps2 l2 Hy Hd]; simpl in Ec; injection Ec as <- <-.
  { right. rewrite decide_True by done. done. }
  rewrite decide_False.
  2: { intros [= ->]. apply NoDup_cons in Hnd as [Hnd _]. apply Hnd. set_solver. }
  rewrite (mbind_ok _ _ s s tt) by done.
  destruct (snoc_case (sentinel s) ps1) as (pre & q & Eq).
  destruct (dll_neighbours _ _ _ _ _ _ _ c' (ps2 ++ [sentinel s]) H Eq) as ([Hnq Hpc] & Hq & Hc); [done|].
  rewrite (load_data s c' y (λ d, if flt (iv_val iv) (iv_val d) then _ else _)) by done.
  change (flt (iv_val iv) (iv_val y)) with (iv_lt iv y).
  destruct (iv_lt iv y) eqn:E.
  - left. destruct (insert_before_run s iv c' q Hpc Hq) as (n & h' & Hn & Hl & Hrun).
    exists h', (ps1 ++ n :: c' :: ps2). split; [exact Hrun|]. simpl. rewrite E.
    by eapply link_between_dll.
  - destruct (cons_case ps2 (sentinel s)) as (c2 & post2 & Ec2).
    assert (nxt (nheap s) c' = Some c2) as Hnx.
    { pose proof (dll_path _ _ _ _ H) as Hp.
      rewrite <-app_assoc, <-app_comm_cons, Ec2, app_comm_cons in Hp. apply path_app in Hp as [_ [[??] _]]. done. }
    rewrite (load_next s c' c2 (λ p, eval_loop fuel iv p)) by done.
    specialize (IH (ps1 ++ [c']) ps2 (l1 ++ [y]) l2 c2 post2).
    rewrite <-!app_assoc in IH. cbn [app] in IH. cbn [ins_by]. rewrite E.
    destruct IH as [(h' & ps' & Hrun & Hdll)|[Hrun Hins]]; [done|rewrite !length_app; simpl; lia
      |simpl in Hf; lia|done|left|right].
    + by exists h', ps'.
    + split; [done|]. by rewrite Hins.
Qed.

(** ** The representation invariant *)

Definition cache_ok (s : NNVector) (ps : list loc) : Prop :=
  match (cache s).2 with
  | None => True
  | Some c => (0 ≤ (cache s).1)%Z ∧ ps !! Z.to_nat (cache s).1 = Some c
  end.

Definition nn_shape (s : NNVector) (ps : list loc) (l : list IndexVal) : Prop :=
  dll (nheap s) (sentinel s) ps l ∧ _size s = Z.of_nat (length l).

(** [nn_rep s l]: the object [s] represents the list [l] of at most [k]
    elements, and its cache points into the list. *)
Definition nn_rep (s : NNVector) (l : list IndexVal) : Prop :=
  (∃ ps, nn_shape s ps l ∧ cache_ok s ps) ∧
  (0 ≤ nk s < 2 ^ 32)%Z ∧ (Z.of_nat (length l) ≤ nk s)%Z.

Lemma dll_length h sen ps l : dll h sen ps l → length ps = length l.
Proof. intros H. by apply Forall2_length with (1 := dll_data _ _ _ _ H). Qed.

Lemma dll_size h sen ps l : dll h sen ps l → base.size h = S (length l).
Proof.
  intros H. rewrite <-size_dom, (dll_dom _ _ _ _ H), size_list_to_set.
  - simpl. by rewrite (dll_length _ _ _ _ H).
  - apply (dll_nodup _ _ _ _ H).
Qed.

Lemma invalidate_cache_eq s :
  invalidate_cache s = (set_cache ((cache s).1, None) s, Ok tt).
Proof. destruct s as [h sen [i [c|]] k n]; done. Qed.

Lemma new_push_back_spec s iv ps l :
  nn_shape s ps l → (Z.of_nat (length l) + 1 < 2 ^ 64)%Z →
  ∃ h' ps', (let! n := new_Node iv in push_back n) s
      = (set_size (_size s + 1) (set_heap h' s), Ok tt) ∧
    dll h' (sentinel s) ps' (l ++ [iv]).
Proof.
  intros [H Hs] Hb. destruct (new_Node_ok iv s) as (n & Hn & En).
  rewrite (mbind_ok _ _ _ _ _ En). unfold push_back.
  destruct (snoc_case (sentinel s) ps) as (pre & q & Eq).
  destruct (dll_neighbours (nheap s) (sentinel s) ps [] l pre q (sentinel s) []) as ([Hnq Hpc] & Hq & Hsen);
    [by rewrite app_nil_r|done|done|].
  pose proof (new_neq _ _ _ Hn Hq) as Hnq'. pose proof (new_neq _ _ _ Hn Hsen) as Hnc.
  rewrite (mbind_ok _ _ _ _ _ eq_refl : mbind' mget _ _ = _).
  cbn [set_heap nheap sentinel cache nk _size].
  assert (∀ h', link_between (nheap s) n q (sentinel s) iv h' →
    dll h' (sentinel s) (ps ++ [n]) (l ++ [iv])) as Hlink.
  { intros h' Hl. eapply (link_between_dll _ _ _ ps [] l []); [done| |
      by apply (dll_length _ _ _ _ H)|done|done|done]. by rewrite !app_nil_r. }
  destruct (Z.eqb_spec (_size s) 0) as [E|E].
  - assert (l = []) as -> by (destruct l; [done|simpl in Hs; lia]).
    assert (ps = []) as -> by (by apply nil_length_inv, (dll_length _ _ _ _ H)).
    simplify_list_eq. destruct pre as [|? []]; simplify_list_eq.
    eexists _, [n]. split.
    + rewrite mbind_assoc. run_upd. rewrite mbind_assoc. run_upd.
      rewrite mbind_assoc. run_upd. run_upd. cbv [mmodify]. cbn. do 2 f_equal.
      rewrite u64_small by (simpl in *; lia). reflexivity.
    + apply Hlink. split_and!; [intros a; fields; ptr_cases..|].
      rewrite !dom_alter_L, dom_insert_L. done.
  - eexists _, (ps ++ [n]). split.
    + rewrite mbind_assoc.
      rewrite (load_prev (B:=unit) _ (sentinel s) q
        (λ p, mbind' (upd (set_next (Some (sentinel s))) (Some n);;; upd (set_prev p) (Some n);;;
                      upd (set_next (Some n)) p;;; upd (set_prev (Some n)) (Some (sentinel s))) _)).
      2: { cbn. fields. ptr_cases. }
      rewrite mbind_assoc. run_upd. rewrite mbind_assoc. run_upd.
      rewrite mbind_assoc. run_upd. run_upd. cbv [mmodify]. cbn. do 2 f_equal.
      rewrite u64_small by lia. reflexivity.
    + apply Hlink. split_and!; [intros a; fields; ptr_cases..|].
      rewrite !dom_alter_L, dom_insert_L. done.
Qed.

Lemma pop_back_spec s ps l x :
  nn_shape s ps (l ++ [x]) → (Z.of_nat (length l) + 1 < 2 ^ 64)%Z →
  ∃ h' ps', pop_back s
      = (set_cache ((cache s).1, None) (set_size (_size s - 1) (set_heap h' s)), Ok tt) ∧
    dll h' (sentinel s) ps' l.
Proof.
  intros [H Hs] Hb. unfold pop_back. rewrite (mbind_ok _ _ _ _ _ eq_refl : mbind' mget _ _ = _).
  rewrite length_app in Hs. simpl in Hs.
  destruct (Z.eqb_spec (_size s) 0) as [E|E]; [lia|].
  destruct ps as [|d ps _] using rev_ind.
  { pose proof (dll_length _ _ _ _ H) as Hl. rewrite length_app in Hl. simpl in Hl. lia. }
  destruct (dll_neighbours (nheap s) (sentinel s) (ps ++ [d]) [] (l ++ [x]) (sentinel s :: ps) d (sentinel s) [])
    as ([Hnd Hpd] & Hd & Hsen); [by rewrite app_nil_r|done|done|].
  destruct (snoc_case (sentinel s) ps) as (pre & q & Eq).
  destruct (dll_neighbours _ _ ps [d] _ pre q d [sentinel s] H Eq eq_refl) as ([Hnq Hpq] & Hq & _).
  pose proof (dll_nodup _ _ _ _ H) as Hnodup.
  assert (d ≠ sentinel s) as Hds.
  { intros ->. apply NoDup_cons in Hnodup as [Hno _]. apply Hno. set_solver. }
  assert (d ≠ q) as Hdq.
  { intros ->. rewrite app_comm_cons, Eq in Hnodup. apply NoDup_app in Hnodup as (_&Hno&_).
    apply (Hno q); set_solver. }
  run_prev Hpd. rewrite decide_False by congruence. run_prev Hpq.
  run_upd.
  rewrite (load_prev _ d q (λ p, upd (set_prev p) (Some (sentinel s));;; _)) by (cbn; by fields).
  run_upd.
  erewrite mbind_ok; [|apply delete_ok; cbn; rewrite !alter_is_Some; done].
  erewrite mbind_ok by reflexivity. rewrite invalidate_cache_eq. cbn.
  rewrite u64_small by lia. eexists _, ps. split; [reflexivity|].
  eapply dll_remove_last; [done|done|intros a; fields; ptr_cases..|].
  rewrite dom_delete_L, !dom_alter_L. done.
Qed.

Lemma dll_first h sen ps l :
  dll h sen ps l → ∃ c post, ps ++ [sen] = c :: post ∧ nxt h sen = Some c.
Proof.
  intros H. destruct (cons_case ps sen) as (c & post & E). exists c, post. split; [done|].
  pose proof (dll_path _ _ _ _ H) as Hp. rewrite E in Hp. by destruct Hp as [[? _] _].
Qed.

Lemma eval_insert_spec s iv l :
  nn_rep s l →
  ∃ h1 ps1 l1, eval_insert iv s
      = (set_size (Z.of_nat (length l1)) (set_heap h1 s), Ok tt) ∧
    dll h1 (sentinel s) ps1 l1 ∧
    (l1 = ins iv l ∨ l1 = l ∧ Z.of_nat (length l) = nk s ∧ ins iv l = l ++ [iv]).
Proof.
  intros [(ps & [H Hs] & _) [Hk Hl]]. unfold eval_insert.
  rewrite (mbind_ok _ _ _ _ _ eq_refl : mbind' mget _ s = _).
  destruct (Z.eqb_spec (_size s) 0) as [E|E].
  - assert (l = []) as -> by (destruct l; [done|simpl in Hs; lia]).
    assert (ps = []) as -> by (by apply nil_length_inv, (dll_length _ _ _ _ H)).
    destruct (new_Node_ok iv s) as (n & Hn & En). rewrite (mbind_ok _ _ _ _ _ En).
    assert (is_Some (nheap s !! sentinel s)) as Hsen by (eapply dll_elem; [done|left]).
    pose proof (new_neq _ _ _ Hn Hsen) as Hns.
    eexists _, [n], [iv]. split; [|split; [|by left]].
    + run_upd. run_upd. run_upd. run_upd. cbv [mmodify]. cbn. do 2 f_equal.
      rewrite u64_small by lia. rewrite E. reflexivity.
    + eapply (link_between_dll (nheap s) _ _ [] [] [] [] _ _ [] (sentinel s) (sentinel s) []);
        [|done..]. split_and!; [intros a; fields; ptr_cases..|].
      rewrite !dom_alter_L, dom_insert_L. done.
  - destruct (dll_first _ _ _ _ H) as (c & post & Ec & Hc). run_next Hc.
    destruct (eval_loop_spec (S (base.size (nheap s))) iv s [] ps [] l c post)
      as [(h1 & ps1 & Hrun & H1)|[Hrun Hins]]; [done|done| |done|..].
    { rewrite (dll_size _ _ _ _ H), (dll_length _ _ _ _ H). lia. }
    + rewrite (mbind_ok _ _ _ _ _ Hrun), (mbind_ok _ _ _ _ _ eq_refl : mbind' mget _ _ = _).
      rewrite andb_false_r. exists h1, ps1, (ins iv l). split; [|by split; [|left]].
      unfold mret. do 3 f_equal. rewrite length_ins, Hs, u64_small by lia. lia.
    + rewrite (mbind_ok _ _ _ _ _ Hrun), (mbind_ok _ _ _ _ _ eq_refl : mbind' mget _ _ = _).
      rewrite andb_true_r. destruct (Z.ltb_spec (_size s) (nk s)) as [Hlt|Hge].
      * destruct (new_push_back_spec s iv ps l) as (h1 & ps1 & Hr & H1); [done|lia|].
        exists h1, ps1, (l ++ [iv]). split; [|split; [done|by left]].
        rewrite Hr. do 3 f_equal. rewrite length_app. simpl. lia.
      * exists (nheap s), ps, l. split; [|split; [done|right; split; [done|split; [lia|done]]]].
        rewrite <-Hs. by destruct s.
Qed.

(** [eval] implements bounded ordered insertion. *)
Lemma eval_spec s iv l :
  nn_rep s l →
  ∃ s', eval iv s = (s', Ok tt) ∧ nk s' = nk s ∧
    nn_rep s' (take (Z.to_nat (nk s)) (ins iv l)).
Proof.
  intros Hrep. destruct (eval_insert_spec s iv l Hrep) as (h1 & ps1 & l1 & Hrun & H1 & Hl1).
  destruct Hrep as (_ & Hk & Hl).
  unfold eval. rewrite (mbind_ok _ _ _ _ _ Hrun), (mbind_ok _ _ _ _ _ eq_refl : mbind' mget _ _ = _).
  cbn [set_size set_heap nk _size sentinel nheap cache].
  assert (length l1 ≤ S (length l)) as Hlen.
  { destruct Hl1 as [->|[-> _]]; [by rewrite length_ins|lia]. }
  destruct (Z.ltb_spec (nk s) (Z.of_nat (length l1))) as [Hgt|Hle].
  - assert (l1 = ins iv l) as -> by (destruct Hl1 as [->|[-> _]]; [done|lia]).
    destruct (exists_last (l := ins iv l)) as (l2 & x & E2).
    { by intros E; rewrite E in Hgt; simpl in Hgt; lia. }
    rewrite E2 in H1, Hgt, Hlen |- *. rewrite length_app in Hgt, Hlen. simpl in Hgt, Hlen.
    destruct (pop_back_spec (set_size (Z.of_nat (length (l2 ++ [x]))) (set_heap h1 s)) ps1 l2 x)
      as (h2 & ps2 & Hrun2 & H2); [by split|lia|].
    rewrite (mbind_ok _ _ _ _ _ Hrun2), invalidate_cache_eq.
    eexists. split; [reflexivity|]. split; [done|].
    rewrite take_app_le' by lia. rewrite take_ge by lia.
    split; [|cbn; lia]. exists ps2. split; [split; [done|]|done].
    cbn. rewrite length_app. simpl. lia.
  - rewrite (mbind_ok _ _ _ _ tt eq_refl : mbind' (mret tt) _ _ = _), invalidate_cache_eq.
    eexists. split; [reflexivity|]. split; [done|].
    assert (take (Z.to_nat (nk s)) (ins iv l) = l1) as ->.
    { destruct Hl1 as [->|(-> & Hkl & ->)]; [by apply take_ge; lia|].
      rewrite take_app_le' by lia. apply take_ge. lia. }
    split; [|done]. exists ps1. by split; [split|].
Qed.

Lemma nn_rep_ctor k : (0 ≤ k < 2 ^ 32)%Z → nn_rep (NNVector_ctor k) [].
Proof.
  intros Hk. split; [|cbn; lia]. exists []. split; [|done]. split; [|done].
  constructor; [done|apply NoDup_singleton|constructor|]. simpl. set_solver.
Qed.

(** A sequence of [eval] calls. *)
Fixpoint eval_all (ivs : list IndexVal) : M NNVector unit :=
  match ivs with
  | [] => mret tt
  | iv :: ivs => eval iv;;; eval_all ivs
  end.

Lemma eval_all_spec s ivs l :
  nn_rep s (take (Z.to_nat (nk s)) l) →
  ∃ s', eval_all ivs s = (s', Ok tt) ∧ nk s' = nk s ∧
    nn_rep s' (take (Z.to_nat (nk s)) (ins_all l ivs)).
Proof.
  revert s l. induction ivs as [|iv ivs IH]; intros s l H; simpl.
  { by exists s. }
  destruct (eval_spec s iv _ H) as (s1 & Hrun & Hk & H1).
  rewrite (mbind_ok _ _ _ _ _ Hrun). rewrite take_ins, <-Hk in H1.
  destruct (IH s1 _ H1) as (s2 & Hrun2 & Hk2 & H2).
  exists s2. rewrite Hk in *. by split_and!.
Qed.

(** *** Indexed access *)

Lemma path_lookup h l i a b :
  path h l → l !! i = Some a → l !! S i = Some b → linked h a b.
Proof.
  revert i. induction l as [|c l IH]; intros i Hp Ha Hb; [done|].
  destruct l as [|d l]; [by destruct i|]. destruct Hp as [Hl Hp].
  destruct i as [|i]; simpl in *; [by simplify_eq|by apply (IH i)].
Qed.

Lemma walk_spec n s l i a b :
  path (nheap s) l → l !! i = Some a → l !! (i + n) = Some b →
  walk n (Some a) s = (s, Ok (Some b)).
Proof.
  revert i a. induction n as [|n IH]; intros i a Hp Ha Hb; simpl.
  { rewrite Nat.add_0_r in Hb. by simplify_eq. }
  assert (is_Some (l !! S i)) as [c Hc].
  { apply lookup_lt_is_Some. apply lookup_lt_Some in Hb. lia. }
  destruct (path_lookup _ _ _ _ _ Hp Ha Hc) as [Hn _]. run_next Hn.
  apply (IH (S i)); [done|done|]. by rewrite Nat.add_succ_comm.
Qed.

(** The node of position [i] of the list is at position [i + 1] of the cycle. *)
Lemma cycle_lookup (sen : loc) ps i p : ps !! i = Some p → (sen :: ps ++ [sen]) !! S i = Some p.
Proof. intros H. simpl. by apply lookup_app_l_Some. Qed.

Lemma nn_rep_small s l : nn_rep s l → (Z.of_nat (length l) < 2 ^ 32)%Z.
Proof. intros (_&?&?). lia. Qed.

Lemma at_spec s l i x :
  nn_rep s l → l !! i = Some x →
  ∃ p, at_ (Z.of_nat i) s = (set_cache (Z.of_nat i, Some p) s, Ok x) ∧
    nn_rep (set_cache (Z.of_nat i, Some p) s) l.
Proof.
  intros Hrep Hx. pose proof (nn_rep_small _ _ Hrep) as Hsm.
  pose proof (lookup_lt_Some _ _ _ Hx) as Hi.
  destruct Hrep as [(ps & [H Hs] & Hc) Hk].
  pose proof (dll_data _ _ _ _ H) as Hd. pose proof (dll_path _ _ _ _ H) as Hp.
  destruct (Forall2_lookup_r _ _ _ _ _ Hd Hx) as (p & Hpi & Hdat).
  exists p. split.
  2: { split; [|done]. exists ps. split; [done|]. split; cbn; [lia|by rewrite Nat2Z.id]. }
  unfold at_. rewrite (mbind_ok _ _ _ _ _ eq_refl : mbind' mget _ _ = _).
  rewrite u64_small by lia. destruct (Z.ltb_spec (_size s) (Z.of_nat i + 1)); [lia|].
  assert (∀ st, nheap st = nheap s → load (Some p) st = (st, Ok (default (mkNode None None x) (nheap s !! p)))) as Hload.
  { intros st Est. destruct (dat_is_Some _ _ _ Hdat) as [n Hn]. rewrite Hn. apply load_ok. by rewrite Est. }
  assert (data (default (mkNode None None x) (nheap s !! p)) = x) as Hdx.
  { unfold dat in Hdat. destruct (nheap s !! p); [|done]. by injection Hdat. }
  set (fin := λ curr : option loc, _ : M NNVector IndexVal).
  assert (fin (Some p) (set_cache (Z.of_nat i, Some p) s) = (set_cache (Z.of_nat i, Some p) s, Ok x)) as Hfin.
  { unfold fin. rewrite (mbind_ok _ _ _ _ _ eq_refl : mbind' (massert true) _ _ = _).
    erewrite mbind_ok by (by apply Hload). unfold mret. by rewrite Hdx. }
  assert (walk (Z.to_nat (Z.of_nat i + 1)) (Some (sentinel s)) s = (s, Ok (Some p))) as Hcold.
  { apply (walk_spec _ s _ 0 _ _ Hp); [done|].
    replace (0 + Z.to_nat (Z.of_nat i + 1)) with (S i) by lia. by apply cycle_lookup. }
  unfold cache_ok in Hc. destruct (cache s) as [first [c|]]; cbn in Hc.
  2: { rewrite mbind_assoc, (mbind_ok _ _ _ _ _ Hcold). exact Hfin. }
  destruct Hc as [Hf0 Hc]. pose proof (lookup_lt_Some _ _ _ Hc) as Hfl.
  rewrite (dll_length _ _ _ _ H) in Hfl.
  destruct (Z.eqb_spec first (u64 (Z.of_nat i - 1))) as [Ef|Ef].
  - assert (i ≠ 0) as Hi0.
    { intros ->. change (u64 (Z.of_nat 0 - 1)) with SIZE_MAX in Ef. unfold SIZE_MAX in Ef. lia. }
    rewrite u64_small in Ef by lia.
    assert (linked (nheap s) c p) as [Hn _].
    { apply (path_lookup _ _ i _ _ Hp).
      - replace i with (S (Z.to_nat first)) by lia. by apply cycle_lookup.
      - by apply cycle_lookup. }
    rewrite mbind_assoc. run_next Hn. exact Hfin.
  - destruct (Z.leb_spec first (Z.of_nat i)) as [Hle|Hgt].
    + rewrite mbind_assoc. erewrite mbind_ok; [exact Hfin|].
      apply (walk_spec _ s _ (S (Z.to_nat first)) _ _ Hp); [by apply cycle_lookup|].
      replace (S (Z.to_nat first) + Z.to_nat (Z.of_nat i - first)) with (S i) by lia.
      by apply cycle_lookup.
    + rewrite mbind_assoc, (mbind_ok _ _ _ _ _ Hcold). exact Hfin.
Qed.

Lemma at_oob s l (i : Z) :
  nn_rep s l → (Z.of_nat (length l) ≤ i < SIZE_MAX)%Z →
  at_ i s = (s, Throw (runtime_error "Out of bounds index")).
Proof.
  intros [(ps & [_ Hs] & _) _] Hi. unfold SIZE_MAX in Hi. unfold at_.
  rewrite (mbind_ok _ _ _ _ _ eq_refl : mbind' mget _ _ = _).
  rewrite u64_small by lia. destruct (Z.ltb_spec (_size s) (i + 1)); [done|lia].
Qed.

(** *** Comparison with an [IndexVector] *)

Fixpoint eqb_lists (l1 l2 : list IndexVal) : bool :=
  match l1, l2 with
  | [], [] => true
  | x :: l1, y :: l2 => iv_eq x y && eqb_lists l1 l2
  | _, _ => false
  end.

Lemma eq_loop_spec s l1 l2 i l :
  nn_rep s l → drop i l = l2 → length l1 = length l2 →
  ∃ s', eq_loop (Z.of_nat i) l1 s = (s', Ok (eqb_lists l1 l2)) ∧ nn_rep s' l.
Proof.
  revert s l2 i. induction l1 as [|x l1 IH]; intros s l2 i Hrep Hd Hlen; simpl.
  { exists s. by destruct l2. }
  destruct l2 as [|y l2]; [done|]. simpl in Hlen.
  assert (l !! i = Some y) as Hy by (rewrite <-(Nat.add_0_r i), <-lookup_drop, Hd; done).
  destruct (at_spec s l i y Hrep Hy) as (p & Hrun & Hrep').
  rewrite (mbind_ok _ _ _ _ _ Hrun). unfold iv_ne.
  destruct (iv_eq x y) eqn:E; simpl; [|by eexists].
  replace (Z.of_nat i + 1)%Z with (Z.of_nat (S i)) by lia. apply IH; [done| |lia].
  replace (S i) with (i + 1) by lia. by rewrite <-drop_drop, Hd.
Qed.

Lemma eqb_lists_length l1 l2 : length l1 ≠ length l2 → eqb_lists l1 l2 = false.
Proof.
  revert l2. induction l1 as [|x l1 IH]; intros [|y l2] H; try done.
  simpl. rewrite IH; [apply andb_false_r|simpl in H; lia].
Qed.

(** *** The destructor *)

Lemma dtor_loop_spec fuel s c ps d :
  NoDup (sentinel s :: c :: ps) →
  dom (nheap s) = list_to_set (sentinel s :: c :: ps) →
  (∀ i a b, (c :: ps ++ [sentinel s]) !! i = Some a →
            (c :: ps ++ [sentinel s]) !! S i = Some b → nxt (nheap s) a = Some b) →
  nxt (nheap s) c = Some d → length ps < fuel →
  ∃ h', dtor_loop fuel (Some c) (Some d) s = (set_heap h' s, Ok tt) ∧ dom h' = {[sentinel s]}.
Proof.
  revert s c ps d. induction fuel as [|fuel IH]; intros s c ps d Hnd Hdom Hl Hd Hf; [lia|].
  cbn [dtor_loop].
  assert (is_Some (nheap s !! c)) as Hc by (apply elem_of_dom; rewrite Hdom; set_solver).
  rewrite (mbind_ok _ _ _ _ _ (delete_ok _ _ Hc)).
  rewrite (mbind_ok _ _ _ _ _ eq_refl : mbind' mget _ _ = _).
  cbn [set_heap sentinel nheap].
  apply NoDup_cons in Hnd as [Hsc Hnd]. apply NoDup_cons in Hnd as [Hcp Hnd].
  assert (Some d = hd_error (ps ++ [sentinel s])) as Ed.
  { destruct ps as [|c2 ps]; rewrite <-Hd; symmetry; by rewrite (Hl 0 c _ eq_refl eq_refl). }
  destruct ps as [|c2 ps]; injection Ed as ->.
  - rewrite decide_True by done. eexists. split; [done|].
    rewrite dom_delete_L, Hdom. set_solver.
  - rewrite decide_False; [|intros [= ->]; set_solver].
    destruct (cons_case ps (sentinel s)) as (e & post & Ee).
    assert (nxt (nheap s) c2 = Some e) as He.
    { apply (Hl 1); [done|]. simpl. by rewrite Ee. }
    assert (nxt (delete c (nheap s)) c2 = Some e) as He'.
    { rewrite nxt_delete, decide_False; [done|set_solver]. }
    destruct (nxt_node _ _ _ He') as (n & En & Fn).
    rewrite (mbind_ok _ _ _ (set_heap (delete c (nheap s)) s) n) by (by apply load_ok). rewrite Fn.
    destruct (IH (set_heap (delete c (nheap s)) s) c2 ps e) as (h' & Hrun & Hh').
    + cbn. apply NoDup_cons. split; [set_solver|done].
    + cbn [set_heap nheap sentinel]. rewrite dom_delete_L, Hdom. apply set_eq. intros a.
      rewrite elem_of_difference, !elem_of_list_to_set, elem_of_singleton, !elem_of_cons.
      split; [naive_solver|]. intros Ha. split; [naive_solver|]. intros ->. set_solver.
    + cbn [set_heap nheap sentinel]. intros i a b Ha Hb. rewrite nxt_delete.
      rewrite decide_False; [by apply (Hl (S i))|]. intros ->.
      apply list_elem_of_lookup_2 in Ha. set_solver.
    + done.
    + simpl in Hf. lia.
    + exists h'. split; [exact Hrun|done].
Qed.

Lemma eq_IndexVector_spec (s : NNVector) (l : list IndexVal) (iv : IndexVector) :
  nn_rep s l →
  ∃ s', eq_IndexVector iv s = (s', Ok (eqb_lists (ivec iv) l)) ∧ nn_rep s' l.
Proof.
  intros H. pose proof H as [(ps & [_ Hs] & _) _]. unfold eq_IndexVector, size.
  rewrite (mbind_ok _ _ _ _ _ eq_refl : mbind' mget _ _ = _).
  case_decide as E.
  - exists s. rewrite eqb_lists_length; [done|]. intros E2. rewrite Hs in E. lia.
  - apply (eq_loop_spec s (ivec iv) l 0); [done|done|]. rewrite Hs in E. lia.
Qed.

(** ** Properties *)

(** C36. A fresh [NNVector(k)] fed any sequence of [eval] calls never faults and
    ends up holding exactly the first [k] elements of the stable insertion sort
    [isort] of that sequence by the comparison the code uses: for distances that
    are not NaN the [k] nearest neighbours, earlier ones first among equals (a NaN
    is neither smaller nor larger than anything, and is placed as the comparison
    places it). *)
Theorem nn_eval_k_nearest (k : Z) (ivs : list IndexVal) :
  (0 ≤ k < 2 ^ 32)%Z →
  ∃ s', eval_all ivs (NNVector_ctor k) = (s', Ok tt) ∧ nk s' = k ∧
    nn_rep s' (take (Z.to_nat k) (isort ivs)).
Proof.
  intros Hk. destruct (eval_all_spec (NNVector_ctor k) ivs []) as (s' & Hrun & Hk' & H).
  { rewrite take_nil. by apply nn_rep_ctor. }
  by exists s'.
Qed.

Definition ex_ivs : list IndexVal :=
  [mkIV 0 (of_int 7); mkIV 1 (of_int 3); mkIV 2 (of_int 5); mkIV 3 (of_int 3)].

Lemma nn_eval_k_nearest_witness :
  ∃ s', eval_all ex_ivs (NNVector_ctor 2) = (s', Ok tt) ∧ nk s' = 2%Z ∧
    nn_rep s' [mkIV 1 (of_int 3); mkIV 3 (of_int 3)].
Proof.
  change [mkIV 1 (of_int 3); mkIV 3 (of_int 3)] with (take (Z.to_nat 2) (isort ex_ivs)).
  apply (nn_eval_k_nearest 2 ex_ivs). lia.
Defined.

(** [eval] refines bounded ordered insertion on every well-formed object:
    the element goes before the first strictly greater one, and the list is
    cut to [k] elements; the heap holds no node that is not in the list. *)
Theorem nn_eval_refines (s : NNVector) (iv : IndexVal) (l : list IndexVal) :
  nn_rep s l →
  ∃ s', eval iv s = (s', Ok tt) ∧
    nn_rep s' (take (Z.to_nat (nk s)) (ins iv l)) ∧
    base.size (nheap s') = S (length (take (Z.to_nat (nk s)) (ins iv l))).
Proof.
  intros H. destruct (eval_spec s iv l H) as (s' & Hrun & _ & Hrep).
  exists s'. split_and!; [done|done|]. destruct Hrep as [(ps & [Hd _] & _) _].
  by apply dll_size with (1 := Hd).
Qed.

Lemma nn_eval_refines_witness :
  ∃ s', eval (mkIV 4 (of_int 2)) (NNVector_ctor 3) = (s', Ok tt) ∧
    nn_rep s' [mkIV 4 (of_int 2)] ∧ base.size (nheap s') = 2.
Proof.
  apply (nn_eval_refines (NNVector_ctor 3) (mkIV 4 (of_int 2)) []).
  apply nn_rep_ctor. lia.
Defined.

(** [operator[]] returns the element at the given position whatever the
    state of the one-entry cache, keeps the represented list, and throws
    [std::runtime_error] for a position outside it. *)
Theorem nn_at_correct (s : NNVector) (l : list IndexVal) (i : nat) :
  nn_rep s l → (Z.of_nat i < SIZE_MAX)%Z →
  match l !! i with
  | Some x => ∃ s', at_ (Z.of_nat i) s = (s', Ok x) ∧ nn_rep s' l
  | None => at_ (Z.of_nat i) s = (s, Throw (runtime_error "Out of bounds index"))
  end.
Proof.
  intros H Hi. destruct (l !! i) as [x|] eqn:E.
  - destruct (at_spec s l i x H E) as (p & Hrun & Hrep). by eexists.
  - apply lookup_ge_None in E. apply (at_oob s l); [done|lia].
Qed.

Lemma nn_at_correct_witness :
  at_ (Z.of_nat 0) (NNVector_ctor 3)
    = (NNVector_ctor 3, Throw (runtime_error "Out of bounds index")).
Proof.
  apply (nn_at_correct (NNVector_ctor 3) [] 0); [apply nn_rep_ctor; lia|reflexivity].
Defined.

(** [operator==(IndexVector&)] terminates without a fault and compares the
    two sequences elementwise by value, answering [false] for different
    sizes. *)
Theorem nn_eq_correct (s : NNVector) (l : list IndexVal) (iv : IndexVector) :
  nn_rep s l →
  ∃ s', eq_IndexVector iv s = (s', Ok (eqb_lists (ivec iv) l)) ∧ nn_rep s' l.
Proof. apply eq_IndexVector_spec. Qed.

Lemma nn_eq_correct_witness :
  ∃ s', eq_IndexVector IndexVector_ctor (NNVector_ctor 3) = (s', Ok true) ∧ nn_rep s' [].
Proof. apply (nn_eq_correct (NNVector_ctor 3) [] IndexVector_ctor). apply nn_rep_ctor. lia. Defined.

(** The destructor frees every node exactly once: it ends without a fault
    and with an empty heap. *)
Theorem nn_dtor_no_leak (s : NNVector) (l : list IndexVal) :
  nn_rep s l → ∃ s', NNVector_dtor s = (s', Ok tt) ∧ nheap s' = ∅.
Proof.
  intros [(ps & [H Hs] & _) _]. unfold NNVector_dtor.
  rewrite (mbind_ok _ _ _ _ _ eq_refl : mbind' mget _ _ = _).
  assert (∀ h, dom h = {[sentinel s]} →
    ∃ s', delete_Node (Some (sentinel s)) (set_heap h s) = (s', Ok tt) ∧ nheap s' = ∅) as Hfin.
  { intros h Hh. eexists. split.
    - apply (delete_ok (set_heap h s)). apply elem_of_dom. cbn. rewrite Hh. set_solver.
    - cbn. apply dom_empty_inv_L. rewrite dom_delete_L, Hh. set_solver. }
  destruct (Z.eqb_spec (_size s) 0) as [E|E]; simpl.
  - rewrite (mbind_ok _ _ _ _ tt eq_refl : mbind' (mret tt) _ _ = _).
    assert (l = []) as -> by (destruct l; [done|simpl in Hs; lia]).
    assert (ps = []) as -> by (by apply nil_length_inv, (dll_length _ _ _ _ H)).
    specialize (Hfin (nheap s)). replace (set_heap (nheap s) s) with s in Hfin by (by destruct s).
    apply Hfin. rewrite (dll_dom _ _ _ _ H). set_solver.
  - destruct ps as [|c ps].
    { pose proof (dll_length _ _ _ _ H). simpl in *. lia. }
    pose proof (dll_path _ _ _ _ H) as Hp.
    destruct (cons_case ps (sentinel s)) as (d & post & Ed).
    assert (nxt (nheap s) (sentinel s) = Some c) as Hc by (by destruct Hp as [[? _] _]).
    assert (nxt (nheap s) c = Some d) as Hd.
    { apply (path_lookup _ _ 1 _ _ Hp); [done|]. simpl. by rewrite Ed. }
    rewrite mbind_assoc. run_next Hc. rewrite mbind_assoc. run_next Hd.
    destruct (dtor_loop_spec (S (base.size (nheap s))) s c ps d) as (h' & Hrun & Hh').
    + apply (dll_nodup _ _ _ _ H).
    + apply (dll_dom _ _ _ _ H).
    + intros i a b Ha Hb. by apply (path_lookup _ _ (S i) _ _ Hp).
    + done.
    + rewrite (dll_size _ _ _ _ H). pose proof (dll_length _ _ _ _ H). simpl in *. lia.
    + rewrite (mbind_ok _ _ _ _ _ Hrun). by apply Hfin.
Qed.

Lemma nn_dtor_no_leak_witness :
  ∃ s', NNVector_dtor (NNVector_ctor 3) = (s', Ok tt) ∧ nheap s' = ∅.
Proof. apply (nn_dtor_no_leak (NNVector_ctor 3) []). apply nn_rep_ctor. lia. Defined.

Lemma find_loop_stuck fuel iv s c y :
  c ≠ sentinel s → dat (nheap s) c = Some y → iv_eq y iv = false →
  find_loop fuel iv (Some c) s = (s, Throw OutOfFuel).
Proof.
  intros Hc Hy He. induction fuel as [|fuel IH]; [done|]. cbn [find_loop].
  rewrite (mbind_ok _ _ _ _ _ eq_refl : mbind' mget _ _ = _).
  rewrite decide_False by congruence.
  rewrite (load_data s c y (λ d, if iv_eq d iv then _ else _)) by done. by rewrite He.
Qed.

Lemma to_IndexVector_loop_stuck fuel s c y r :
  c ≠ sentinel s → dat (nheap s) c = Some y →
  to_IndexVector_loop fuel (Some c) r s = (s, Throw OutOfFuel).
Proof.
  intros Hc Hy. revert r. induction fuel as [|fuel IH]; intros r; [done|].
  cbn [to_IndexVector_loop].
  rewrite (mbind_ok _ _ _ _ _ eq_refl : mbind' mget _ _ = _).
  rewrite decide_False by congruence.
  rewrite (load_data s c y (λ d, to_IndexVector_loop fuel (Some c) (iv_push d r))) by done.
  apply IH.
Qed.

(** C39. [find] and [to_IndexVector] never advance their cursor: on a non-empty
    list [to_IndexVector] does not return within any number of iterations, and
    neither does [find] unless the first element matches. *)
Theorem nn_find_diverges (s : NNVector) (x : IndexVal) (l : list IndexVal) (iv : IndexVal)
    (fuel : nat) :
  nn_rep s (x :: l) →
  to_IndexVector fuel s = (s, Throw OutOfFuel) ∧
  (iv_eq x iv = false → find fuel iv s = (s, Throw OutOfFuel)).
Proof.
  intros [(ps & [H Hs] & _) _]. pose proof (dll_data _ _ _ _ H) as Hd.
  destruct ps as [|c ps]; [by inversion Hd|]. apply Forall2_cons in Hd as [Hx _].
  pose proof (dll_path _ _ _ _ H) as Hp.
  assert (nxt (nheap s) (sentinel s) = Some c) as Hc by (by destruct Hp as [[? _] _]).
  assert (c ≠ sentinel s).
  { intros ->. pose proof (dll_nodup _ _ _ _ H) as [Hno _]%NoDup_cons. apply Hno. left. }
  unfold to_IndexVector, find.
  rewrite !(mbind_ok _ _ _ _ _ eq_refl : mbind' mget _ _ = _).
  split; [|intros He]; run_next Hc.
  - by eapply to_IndexVector_loop_stuck.
  - by eapply find_loop_stuck.
Qed.

Lemma nn_find_diverges_witness :
  ∃ s, (∀ fuel, find fuel (mkIV 0 (of_int 9)) s = (s, Throw OutOfFuel)).
Proof.
  destruct (eval_spec (NNVector_ctor 3) (mkIV 4 (of_int 2)) []) as (s & _ & _ & H).
  { apply nn_rep_ctor. lia. }
  exists s. intros fuel.
  apply (nn_find_diverges s (mkIV 4 (of_int 2)) [] (mkIV 0 (of_int 9)) fuel H).
  reflexivity.
Defined.
