(* ===== verification/TreeHeap.v ===== *)
(** * Linked tree nodes: the heap shared by [BinaryTree] and [RBTree]

    [structures/BinaryNode.hpp] and [structures/RBNode.hpp] declare nodes with
    [parent], [left] and [right] pointers.  A node is a payload [A] (its
    comparator, colour, ...) with these three pointers; a tree object is a root
    pointer, a depth and the heap of nodes.  [tree_rep] relates the heap to a
    functional tree that also records the addresses; [ctx] is the path from a
    subtree up to the root. *)
From S2P Require Import Prelude DataT Types.
From stdpp Require Import options.

(** ** Nodes and tree objects *)

Record tnode (A : Type) := mkT {
  payload : A;
  parent : option loc;
  left : option loc;
  right : option loc
}.
Arguments mkT {A}.
Arguments payload {A}.
Arguments parent {A}.
Arguments left {A}.
Arguments right {A}.

Record tree_st (A : Type) := mkTree {
  root : option loc;
  depth : Z;
  theap : gmap loc (tnode A)
}.
Arguments mkTree {A}.
Arguments root {A}.
Arguments depth {A}.
Arguments theap {A}.

Section heap.
Context {A : Type}.
Implicit Types (s : tree_st A) (h : gmap loc (tnode A)) (n : tnode A).

Definition set_theap h s : tree_st A := mkTree (root s) (depth s) h.
Definition set_root_ptr (p : option loc) s : tree_st A := mkTree p (depth s) (theap s).
Definition set_depth (d : Z) s : tree_st A := mkTree (root s) d (theap s).

Definition set_payload (a : A) n : tnode A := mkT a (parent n) (left n) (right n).
Definition set_parent (p : option loc) n : tnode A := mkT (payload n) p (left n) (right n).
Definition set_left (p : option loc) n : tnode A := mkT (payload n) (parent n) p (right n).
Definition set_right (p : option loc) n : tnode A := mkT (payload n) (parent n) (left n) p.

Definition tload (p : option loc) : M (tree_st A) (tnode A) := λ s,
  match p ≫= (λ l, theap s !! l) with
  | Some n => (s, Ok n)
  | None => (s, Throw Segfault)
  end.

Definition tupd (f : tnode A → tnode A) (p : option loc) : M (tree_st A) unit := λ s,
  match p with
  | Some l =>
      match theap s !! l with
      | Some n => (set_theap (<[l := f n]> (theap s)) s, Ok tt)
      | None => (s, Throw Segfault)
      end
  | None => (s, Throw Segfault)
  end.

(** [delete node] *)
Definition tfree (p : option loc) : M (tree_st A) unit := λ s,
  match p with
  | None => (s, Ok tt)
  | Some l =>
      match theap s !! l with
      | Some _ => (set_theap (delete l (theap s)) s, Ok tt)
      | None => (s, Throw Segfault)
      end
  end.

Definition set_root_m (p : option loc) : M (tree_st A) unit := mmodify (set_root_ptr p).

Lemma tload_ok s p n : theap s !! p = Some n → tload (Some p) s = (s, Ok n).
Proof. unfold tload. simpl. by intros ->. Qed.
Lemma tupd_ok f s p n : theap s !! p = Some n →
  tupd f (Some p) s = (set_theap (<[p := f n]> (theap s)) s, Ok tt).
Proof. unfold tupd. by intros ->. Qed.
Lemma tfree_ok s p n : theap s !! p = Some n →
  tfree (Some p) s = (set_theap (delete p (theap s)) s, Ok tt).
Proof. unfold tfree. by intros ->. Qed.
Lemma tload_null s : tload None s = (s, Throw Segfault).
Proof. done. Qed.

(** ** Functional trees with addresses *)

Inductive tree :=
  | E
  | T (p : loc) (a : A) (l r : tree).

Definition rootp (t : tree) : option loc :=
  match t with E => None | T p _ _ _ => Some p end.

Fixpoint nodes (t : tree) : list (loc * A) :=
  match t with E => [] | T p a l r => nodes l ++ (p, a) :: nodes r end.
Definition locs (t : tree) : list loc := (nodes t).*1.
Definition payloads (t : tree) : list A := (nodes t).*2.

Fixpoint height (t : tree) : nat :=
  match t with E => 0 | T _ _ l r => S (Nat.max (height l) (height r)) end.

Fixpoint tree_at h (par : option loc) (t : tree) : Prop :=
  match t with
  | E => True
  | T p a l r =>
      h !! p = Some (mkT a par (rootp l) (rootp r)) ∧
      tree_at h (Some p) l ∧ tree_at h (Some p) r
  end.

(** [tree_rep s t]: the tree object [s] holds exactly the tree [t]; the heap
    may contain further nodes that are not linked into it. *)
Record tree_rep s (t : tree) : Prop := {
  rep_root : root s = rootp t;
  rep_at : tree_at (theap s) None t;
  rep_nodup : NoDup (locs t)
}.

(** A frame of the path to the root: the hole is the left ([FL]) or the right
    ([FR]) child of node [p]; the other child is given. *)
Inductive frame :=
  | FL (p : loc) (a : A) (r : tree)
  | FR (p : loc) (a : A) (l : tree).

Abbreviation ctx := (list frame).

Definition frame_loc (f : frame) : loc := match f with FL p _ _ | FR p _ _ => p end.
Definition frame_payload (f : frame) : A := match f with FL _ a _ | FR _ a _ => a end.
Definition frame_sib (f : frame) : tree := match f with FL _ _ t | FR _ _ t => t end.
Definition fill (f : frame) (t : tree) : tree :=
  match f with FL p a r => T p a t r | FR p a l => T p a l t end.

Fixpoint plug (c : ctx) (t : tree) : tree :=
  match c with [] => t | f :: c => plug c (fill f t) end.

Definition ctx_par (c : ctx) : option loc :=
  match c with [] => None | f :: _ => Some (frame_loc f) end.

Definition frame_node (f : frame) (par q : option loc) : tnode A :=
  match f with
  | FL p a r => mkT a par q (rootp r)
  | FR p a l => mkT a par (rootp l) q
  end.

Fixpoint ctx_at h (q : option loc) (c : ctx) : Prop :=
  match c with
  | [] => True
  | f :: c =>
      h !! frame_loc f = Some (frame_node f (ctx_par c) q) ∧
      tree_at h (Some (frame_loc f)) (frame_sib f) ∧
      ctx_at h (Some (frame_loc f)) c
  end.

Fixpoint ctx_locs (c : ctx) : list loc :=
  match c with
  | [] => []
  | f :: c => frame_loc f :: locs (frame_sib f) ++ ctx_locs c
  end.

Definition ctx_root (c : ctx) (q : option loc) : option loc :=
  match last c with Some f => Some (frame_loc f) | None => q end.

(** *** Lists of nodes and addresses *)

Lemma locs_T p a l r : locs (T p a l r) = locs l ++ p :: locs r.
Proof. unfold locs. simpl. by rewrite fmap_app. Qed.
Lemma locs_fill f t : locs (fill f t) ≡ₚ frame_loc f :: locs (frame_sib f) ++ locs t.
Proof.
  destruct f as [p a r|p a l]; simpl; rewrite locs_T.
  - rewrite <-Permutation_middle. by rewrite (Permutation_app_comm (locs t)).
  - by rewrite <-Permutation_middle.
Qed.
Lemma locs_plug c t : locs (plug c t) ≡ₚ ctx_locs c ++ locs t.
Proof.
  revert t. induction c as [|f c IH]; intros t; simpl; [done|].
  rewrite IH, locs_fill. rewrite <-Permutation_middle.
  rewrite <-app_assoc. rewrite (Permutation_app_comm (ctx_locs c)), <-app_assoc.
  by rewrite (Permutation_app_comm (locs t)).
Qed.

Fixpoint ctx_before (c : ctx) : list (loc * A) :=
  match c with
  | [] => []
  | FL _ _ _ :: c => ctx_before c
  | FR p a l :: c => ctx_before c ++ nodes l ++ [(p, a)]
  end.
Fixpoint ctx_after (c : ctx) : list (loc * A) :=
  match c with
  | [] => []
  | FL p a r :: c => (p, a) :: nodes r ++ ctx_after c
  | FR _ _ _ :: c => ctx_after c
  end.

Lemma nodes_plug c t : nodes (plug c t) = ctx_before c ++ nodes t ++ ctx_after c.
Proof.
  revert t. induction c as [|[p a r|p a l] c IH]; intros t; simpl.
  - by rewrite app_nil_r.
  - rewrite IH. simpl. by rewrite <-!app_assoc.
  - rewrite IH. simpl. by rewrite <-!app_assoc.
Qed.

Lemma root_plug c t : rootp (plug c t) = ctx_root c (rootp t).
Proof.
  revert t. induction c as [|f c IH]; intros t; [done|]. simpl. rewrite IH.
  unfold ctx_root. rewrite last_cons. destruct (last c); [done|]. by destruct f.
Qed.

(** *** Heap updates outside a tree *)

Lemma tree_at_ext h h' par t :
  (∀ p, p ∈ locs t → h' !! p = h !! p) → tree_at h par t → tree_at h' par t.
Proof.
  revert par. induction t as [|p a l IHl r IHr]; intros par He; [done|]. simpl.
  setoid_rewrite locs_T in He. intros (Hp & Hl & Hr). split_and!.
  - rewrite He; [done|]. set_solver.
  - apply IHl; [|done]. intros q Hq. apply He. set_solver.
  - apply IHr; [|done]. intros q Hq. apply He. set_solver.
Qed.

Lemma ctx_at_ext h h' q c :
  (∀ p, p ∈ ctx_locs c → h' !! p = h !! p) → ctx_at h q c → ctx_at h' q c.
Proof.
  revert q. induction c as [|f c IH]; intros q He; [done|]. simpl in *.
  intros (Hp & Ht & Hc). split_and!.
  - rewrite He; [done|]. set_solver.
  - apply (tree_at_ext h); [|done]. intros p Hq. apply He. set_solver.
  - apply IH; [|done]. intros p Hq. apply He. set_solver.
Qed.

Lemma tree_at_plug h c t :
  tree_at h None (plug c t) ↔ ctx_at h (rootp t) c ∧ tree_at h (ctx_par c) t.
Proof.
  revert t. induction c as [|f c IH]; intros t; simpl; [naive_solver|].
  rewrite IH. destruct f as [p a r|p a l]; simpl; naive_solver.
Qed.

Lemma tree_at_elem h par t p : tree_at h par t → p ∈ locs t → is_Some (h !! p).
Proof.
  revert par. induction t as [|q a l IHl r IHr]; intros par; [set_solver|].
  simpl. rewrite locs_T. intros (Hq & Hl & Hr).
  rewrite elem_of_app, elem_of_cons. intros [Hp|[->|Hp]]; [eauto|by rewrite Hq|eauto].
Qed.

Lemma rootp_locs t p : rootp t = Some p → p ∈ locs t.
Proof. destruct t; [done|]. intros [= ->]. rewrite locs_T. set_solver. Qed.

(** *** Splitting a representation at a context *)

Lemma rep_plug s c t :
  tree_rep s (plug c t) →
  root s = ctx_root c (rootp t) ∧ ctx_at (theap s) (rootp t) c ∧
  tree_at (theap s) (ctx_par c) t ∧ NoDup (ctx_locs c ++ locs t).
Proof.
  intros [Hr Ha Hn]. rewrite root_plug in Hr. apply tree_at_plug in Ha as [Hc Ht].
  split_and!; [done..|]. by rewrite <-locs_plug.
Qed.

Lemma plug_rep s c t :
  root s = ctx_root c (rootp t) → ctx_at (theap s) (rootp t) c →
  tree_at (theap s) (ctx_par c) t → NoDup (ctx_locs c ++ locs t) →
  tree_rep s (plug c t).
Proof.
  intros. split; [by rewrite root_plug|by apply tree_at_plug|by rewrite locs_plug].
Qed.

(** *** The insertion point *)

(** [descend lt a c t]: the path to the leaf at which a descent comparing [a]
    with [lt] ends. *)
Fixpoint descend (lt : A → A → bool) (a : A) (c : ctx) (t : tree) : ctx :=
  match t with
  | E => c
  | T p b l r => if lt a b then descend lt a (FL p b r :: c) l
                 else descend lt a (FR p b l :: c) r
  end.

Lemma plug_descend lt a c t : plug (descend lt a c t) E = plug c t.
Proof. revert c. induction t as [|p b l IHl r IHr]; intros c; simpl; [done|]. case_match; by rewrite ?IHl, ?IHr. Qed.

Lemma descend_app lt a c t : descend lt a c t = descend lt a [] t ++ c.
Proof.
  revert c. induction t as [|p b l IHl r IHr]; intros c; simpl; [done|].
  case_match.
  - rewrite (IHl (FL p b r :: c)), (IHl [FL p b r]), <-app_assoc. done.
  - rewrite (IHr (FR p b l :: c)), (IHr [FR p b l]), <-app_assoc. done.
Qed.

Lemma length_descend lt a t : length (descend lt a [] t) ≤ height t.
Proof.
  induction t as [|p b l IHl r IHr]; simpl; [lia|].
  case_match; rewrite descend_app, length_app; simpl; lia.
Qed.

(** The loop [while (tmp) { parent = tmp; tmp = *node < *tmp ? ... }] of
    [insert] in both trees. *)
Fixpoint find_parent (lt : A → A → bool) (fuel : nat) (node tmp parent_ : option loc)
  : M (tree_st A) (option loc) :=
  match fuel with
  | O => mthrow OutOfFuel
  | S fuel =>
      match tmp with
      | None => mret parent_
      | Some _ =>
          let! n := tload node in
          let! t := tload tmp in
          if lt (payload n) (payload t)
          then find_parent lt fuel node (left t) tmp
          else find_parent lt fuel node (right t) tmp
      end
  end.

Lemma find_parent_spec lt fuel s (n : loc) (nd : tnode A) c t :
  theap s !! n = Some nd →
  tree_at (theap s) (ctx_par c) t → height t < fuel →
  find_parent lt fuel (Some n) (rootp t) (ctx_par c) s
    = (s, Ok (ctx_par (descend lt (payload nd) c t))).
Proof.
  intros Hn. revert fuel c. induction t as [|p b l IHl r IHr]; intros fuel c Hat Hf;
    (destruct fuel as [|fuel]; [simpl in Hf; lia|]); cbn [find_parent rootp]; [done|].
  destruct Hat as (Hp & Hl & Hr).
  rewrite (mbind_ok _ _ _ _ _ (tload_ok _ _ _ Hn)), (mbind_ok _ _ _ _ _ (tload_ok _ _ _ Hp)).
  simpl in *. destruct (lt (payload nd) b).
  - apply (IHl fuel (FL p b r :: c)); [done|lia].
  - apply (IHr fuel (FR p b l :: c)); [done|lia].
Qed.

Lemma tree_at_height h par t : tree_at h par t → NoDup (locs t) → height t ≤ base.size h.
Proof.
  intros Hat Hnd. assert (height t ≤ length (locs t)) as Hh.
  { clear. induction t as [|p a l IHl r IHr]; simpl; [lia|].
    rewrite locs_T, length_app. simpl. lia. }
  etrans; [exact Hh|]. rewrite <-size_dom, <-(size_list_to_set (C:=gset loc)) by done.
  apply subseteq_size. intros p Hp%elem_of_list_to_set. apply elem_of_dom. by eapply tree_at_elem.
Qed.

(** ** Linking a node into the tree *)

(** [node->parent = node->left = node->right = NULL] *)
Definition link_root (node : option loc) : M (tree_st A) unit :=
  tupd (set_right None) node;;;
  tupd (set_left None) node;;;
  tupd (set_parent None) node.

(** Makes [node] a leaf under [par], on the side its comparator selects. *)
Definition link_child (lt : A → A → bool) (node par : option loc) : M (tree_st A) unit :=
  tupd (set_parent par) node;;;
  tupd (set_right None) node;;;
  tupd (set_left None) node;;;
  let! n := tload node in
  let! p := tload par in
  if lt (payload n) (payload p)
  then tupd (set_left node) par
  else tupd (set_right node) par.

Definition is_left (f : frame) : bool := match f with FL _ _ _ => true | FR _ _ _ => false end.

(** The innermost frame of a descent records the last comparison. *)
Lemma descend_side lt a c t :
  (∀ f, head c = Some f → lt a (frame_payload f) = is_left f) →
  ∀ f, head (descend lt a c t) = Some f → lt a (frame_payload f) = is_left f.
Proof.
  revert c. induction t as [|p b l IHl r IHr]; intros c H; simpl; [done|].
  destruct (lt a b) eqn:Eb; [apply IHl|apply IHr]; by intros ? [= <-].
Qed.

Lemma link_root_spec s (n : loc) (nd : tnode A) :
  theap s !! n = Some nd →
  link_root (Some n) s = (set_theap (<[n := mkT (payload nd) None None None]> (theap s)) s, Ok tt).
Proof.
  intros Hn. unfold link_root.
  erewrite mbind_ok by (apply tupd_ok; exact Hn). cbn [set_theap theap].
  erewrite mbind_ok by (apply tupd_ok; cbn; apply lookup_insert_eq).
  erewrite tupd_ok by (cbn; apply lookup_insert_eq).
  cbn. by rewrite !insert_insert_eq.
Qed.

Lemma ctx_root_cons f c q q' : ctx_root (f :: c) q = ctx_root (f :: c) q'.
Proof. unfold ctx_root. rewrite last_cons. by destruct (last c). Qed.

Lemma ctx_root_step f c q : ctx_root (f :: c) q = ctx_root c (Some (frame_loc f)).
Proof. unfold ctx_root. rewrite last_cons. by destruct (last c). Qed.

(** The writes to the new node itself. *)
Lemma link_leaf_run {B} s (n : loc) (nd : tnode A) par (k : M (tree_st A) B) :
  theap s !! n = Some nd →
  (tupd (set_parent par) (Some n);;; tupd (set_right None) (Some n);;;
   tupd (set_left None) (Some n);;; k) s
  = k (set_theap (<[n := mkT (payload nd) par None None]> (theap s)) s).
Proof.
  intros Hn. erewrite mbind_ok by (apply tupd_ok; exact Hn). cbn [set_theap theap].
  erewrite mbind_ok by (apply tupd_ok; cbn; apply lookup_insert_eq). cbn [set_theap theap].
  rewrite insert_insert_eq.
  erewrite mbind_ok by (apply tupd_ok; cbn; apply lookup_insert_eq). cbn [set_theap theap].
  rewrite insert_insert_eq. reflexivity.
Qed.

(** The heap after linking [n] below the frame [f]. *)
Definition linked_heap h (n : loc) (a : A) f (c : ctx) : gmap loc (tnode A) :=
  <[frame_loc f := frame_node f (ctx_par c) (Some n)]>
    (<[n := mkT a (Some (frame_loc f)) None None]> h).

Definition link_side (f : frame) (n : loc) : M (tree_st A) unit :=
  if is_left f then tupd (set_left (Some n)) (Some (frame_loc f))
  else tupd (set_right (Some n)) (Some (frame_loc f)).

Lemma link_side_run s (n : loc) (a : A) f c q :
  frame_loc f ≠ n → theap s !! frame_loc f = Some (frame_node f (ctx_par c) q) →
  link_side f n (set_theap (<[n := mkT a (Some (frame_loc f)) None None]> (theap s)) s)
    = (set_theap (linked_heap (theap s) n a f c) s, Ok tt).
Proof.
  intros Hfn Hf. unfold link_side, linked_heap.
  destruct f; cbn [is_left frame_loc] in *;
    erewrite tupd_ok by (cbn; rewrite lookup_insert_ne by done; exact Hf); done.
Qed.

(** Whatever the child pointer [q] of the parent was, afterwards the new node
    is the leaf below it. *)
Lemma linked_rep s (n : loc) (a : A) f c q :
  n ∉ ctx_locs (f :: c) → NoDup (ctx_locs (f :: c)) →
  root s = ctx_root (f :: c) q → ctx_at (theap s) q (f :: c) →
  tree_rep (set_theap (linked_heap (theap s) n a f c) s) (plug (f :: c) (T n a E E)).
Proof.
  intros Hnc Hnd Hr (Hf & Hsib & Hc). simpl in Hnc, Hnd.
  assert (frame_loc f ≠ n) as Hfn by set_solver.
  apply NoDup_cons in Hnd as [Hfl Hnd]. unfold linked_heap.
  apply plug_rep; cbn [set_theap root theap rootp ctx_par].
  - rewrite Hr. apply ctx_root_cons.
  - cbn [ctx_at]. split_and!; [apply lookup_insert_eq|..].
    + apply (tree_at_ext (theap s)); [|done]. intros p Hp.
      rewrite !lookup_insert_ne; [done|set_solver..].
    + apply (ctx_at_ext (theap s)); [|done]. intros p Hp.
      rewrite !lookup_insert_ne; [done|set_solver..].
  - simpl. rewrite lookup_insert_ne by done. by rewrite lookup_insert_eq.
  - change (locs (T n a E E)) with [n]. rewrite Permutation_app_comm. simpl.
    apply NoDup_cons. split; [set_solver|]. apply NoDup_cons. by split.
Qed.

Lemma link_child_spec lt s (n : loc) (nd : tnode A) f c q :
  theap s !! n = Some nd → frame_loc f ≠ n →
  theap s !! frame_loc f = Some (frame_node f (ctx_par c) q) →
  lt (payload nd) (frame_payload f) = is_left f →
  link_child lt (Some n) (Some (frame_loc f)) s
    = (set_theap (linked_heap (theap s) n (payload nd) f c) s, Ok tt).
Proof.
  intros Hn Hfn Hf Hlt. unfold link_child. rewrite (link_leaf_run _ _ _ _ _ Hn).
  erewrite mbind_ok by (apply tload_ok; cbn; apply lookup_insert_eq).
  erewrite mbind_ok by (apply tload_ok; cbn; rewrite lookup_insert_ne by done; exact Hf).
  replace (payload (frame_node f (ctx_par c) q)) with (frame_payload f) by (by destruct f).
  cbn [payload]. rewrite Hlt. by apply (link_side_run s n (payload nd) f c q).
Qed.

Lemma linked_heap_ne h (n : loc) (a : A) f c p :
  p ≠ n → p ≠ frame_loc f → linked_heap h n a f c !! p = h !! p.
Proof. intros. unfold linked_heap. by rewrite !lookup_insert_ne. Qed.

(** *** Sorted traversals *)

Lemma ctx_before_app (c1 c2 : ctx) : ctx_before (c1 ++ c2) = ctx_before c2 ++ ctx_before c1.
Proof. induction c1 as [|[] c1 IH]; simpl; rewrite ?IH, ?app_nil_r, ?app_assoc; done. Qed.
Lemma ctx_after_app (c1 c2 : ctx) : ctx_after (c1 ++ c2) = ctx_after c1 ++ ctx_after c2.
Proof. induction c1 as [|[] c1 IH]; simpl; rewrite ?IH, ?app_assoc; done. Qed.
Lemma payloads_T p a l r : payloads (T p a l r) = payloads l ++ a :: payloads r.
Proof. unfold payloads. simpl. by rewrite fmap_app. Qed.
End heap.

Arguments tree A : clear implicits.
Arguments frame A : clear implicits.
Arguments E {A}.
