(* ===== verification/BinaryTree.v ===== *)
(** * [structures/BinaryTree.cpp]: the pointer-based binary search tree

    Nodes are compared by their comparator, a [data_t].  Recursion over the heap
    takes fuel; the number of allocated nodes plus one is always enough for a
    well-formed tree, and that is the fuel the entry points use. *)
From S2P Require Import Prelude DataT Types TreeHeap.
From stdpp Require Import options.

Section binary_tree.
Context {A : Type} (comparator : A → data_t).
Implicit Types (s : tree_st A) (t : tree A).

(** [NodeView::operator<] on payloads. *)
Definition node_lt (a b : A) : bool := flt (comparator a) (comparator b).
Definition node_gt (a b : A) : bool := fgt (comparator a) (comparator b).

(** ** Operations *)

Definition BinaryTree_ctor : tree_st A := mkTree None 0 ∅.
Definition empty s : bool := bool_decide (root s = None).
Definition get_root s : option loc := root s.

(** [insert] *)
Definition insert (node : option loc) : M (tree_st A) unit :=
  let! s := mget in
  let! par := find_parent node_lt (S (base.size (theap s))) node (root s) None in
  match par with
  | None => set_root_m node;;; link_root node
  | Some _ => link_child node_lt node par
  end.

(** [set_root] *)
Definition set_root (node : option loc) : M (tree_st A) unit :=
  massert (bool_decide (node ≠ None));;; insert node.

(** [insert_at]: the children of [node] are read before the test of [node]
    against NULL. *)
Definition insert_at (new_node node : option loc) (pos : bchild_t) : M (tree_st A) unit :=
  let! n := tload node in
  match pos, left n, right n with
  | LEFT, Some _, _ => mthrow (runtime_error "BinaryTree::insert_at: Left child already populated")
  | RIGHT, _, Some _ => mthrow (runtime_error "BinaryTree::insert_at: Right child already populated")
  | _, _, _ =>
      match node with
      | None =>
          set_root_m node;;; tupd (set_right None) node;;; tupd (set_left None) node;;;
          tupd (set_parent None) node;;; mmodify (set_depth 1)
      | Some _ =>
          tupd (set_parent node) new_node;;;
          tupd (set_right None) new_node;;;
          tupd (set_left None) new_node;;;
          match pos with
          | LEFT => tupd (set_left new_node) node
          | RIGHT => tupd (set_right new_node) node
          end
      end
  end.

(** [find(shell)] *)
Fixpoint find_loop (fuel : nat) (shell : A) (node : option loc) : M (tree_st A) (option loc) :=
  match fuel with
  | O => mthrow OutOfFuel
  | S fuel =>
      match node with
      | None => mthrow (runtime_error "node not found")
      | Some _ =>
          let! n := tload node in
          if node_gt (payload n) shell then find_loop fuel shell (left n)
          else if node_lt (payload n) shell then find_loop fuel shell (right n)
          else mret node
      end
  end.

Definition find (shell : A) : M (tree_st A) (option loc) :=
  let! s := mget in
  find_loop (S (base.size (theap s))) shell (root s).

(** [get_nnodes(node, nnodes&)] *)
Fixpoint get_nnodes (fuel : nat) (node : option loc) (nnodes : Z) : M (tree_st A) Z :=
  match fuel with
  | O => mthrow OutOfFuel
  | S fuel =>
      match node with
      | None => mret nnodes
      | Some _ =>
          let! n := tload node in
          let! nnodes := get_nnodes fuel (left n) (u64 (nnodes + 1)) in
          get_nnodes fuel (right n) nnodes
      end
  end.

(** [delete_node], used by the destructor. *)
Fixpoint delete_node (fuel : nat) (node : option loc) : M (tree_st A) unit :=
  match fuel with
  | O => mthrow OutOfFuel
  | S fuel =>
      match node with
      | None => mret tt
      | Some _ =>
          let! n := tload node in
          (match left n with Some _ => delete_node fuel (left n) | None => mret tt end);;;
          let! n := tload node in
          (match right n with Some _ => delete_node fuel (right n) | None => mret tt end);;;
          tfree node
      end
  end.

Definition BinaryTree_dtor : M (tree_st A) unit :=
  let! s := mget in
  delete_node (S (base.size (theap s))) (root s).

(** [echo]: the lines printed, as indentation and comparator. *)
Fixpoint echo_node (fuel : nat) (node : option loc) (tabs : nat) : M (tree_st A) (list (nat * data_t)) :=
  match fuel with
  | O => mthrow OutOfFuel
  | S fuel =>
      match node with
      | None => mret []
      | Some _ =>
          let! n := tload node in
          let! out1 := echo_node fuel (left n) (S tabs) in
          let! out2 := echo_node fuel (right n) (S tabs) in
          mret (out1 ++ (tabs, comparator (payload n)) :: out2)
      end
  end.

Definition echo : M (tree_st A) (list (nat * data_t)) :=
  let! s := mget in
  echo_node (S (base.size (theap s))) (root s) 0.

(** ** Search-tree order *)

Definition cmp_ordered (a : A) : Prop := ordered (comparator a).
Definition cmp_le (a b : A) : Prop := fle (comparator a) (comparator b).

(** In-order traversal sorted by comparator, no NaN. *)
Definition bst t : Prop :=
  Forall cmp_ordered (payloads t) ∧ StronglySorted cmp_le (payloads t).

(** The tree after inserting address [n] with payload [a]. *)
Definition ins_tree (n : loc) (a : A) t : tree A :=
  plug (descend node_lt a [] t) (T n a E E).

Lemma StronglySorted_mid (R : A → A → Prop) l1 x l2 :
  StronglySorted R (l1 ++ x :: l2) →
  StronglySorted R l1 ∧ StronglySorted R l2 ∧ Forall (λ y, R y x) l1 ∧ Forall (R x) l2.
Proof.
  induction l1 as [|y l1 IH]; simpl; intros [H1 H2]%StronglySorted_inv.
  - split_and!; [constructor|done|constructor|done].
  - destruct (IH H1) as (?&?&?&?). rewrite Forall_app, Forall_cons in H2.
    destruct H2 as (?&?&?). split_and!; [by constructor|done|by constructor|done].
Qed.

(** The descent separates the nodes not greater than [a] from the greater ones. *)
Lemma descend_sorted a t :
  bst t → cmp_ordered a →
  Forall (λ b, node_lt a b = false) (ctx_before (descend node_lt a [] t)).*2 ∧
  Forall (λ b, node_lt a b = true) (ctx_after (descend node_lt a [] t)).*2.
Proof.
  intros [Ho Hs] Ha. induction t as [|p b l IHl r IHr]; simpl.
  { split; constructor. }
  rewrite payloads_T in Ho, Hs. apply Forall_app in Ho as [Hol Hor].
  apply Forall_cons in Hor as [Hob Hor].
  apply StronglySorted_mid in Hs as (Hsl & Hsr & Hlb & Hbr).
  specialize (IHl Hol Hsl). specialize (IHr Hor Hsr).
  unfold node_lt in *. unfold cmp_le, fle, cmp_ordered in *.
  destruct (flt (comparator a) (comparator b)) eqn:Eab; rewrite descend_app,
    ctx_before_app, ctx_after_app; simpl; rewrite ?app_nil_r, ?fmap_app, !Forall_app; simpl.
  - destruct IHl as [IH1 IH2]. split_and!; [done|done|].
    apply Forall_cons. split; [done|]. rewrite Forall_forall in Hbr, Hor |- *.
    intros x Hx. apply flt_fnlt_trans with (comparator b); auto.
  - destruct IHr as [IH1 IH2]. rewrite Forall_cons. split_and!; [|done..].
    rewrite Forall_forall in Hlb, Hol |- *.
    intros x Hx. apply fnlt_trans with (comparator b); auto.
Qed.

(** Inserting keeps the in-order sequence: the new node goes right before the
    first greater one. *)
Lemma ins_tree_payloads n a t :
  bst t → cmp_ordered a → payloads (ins_tree n a t) = ins_by node_lt a (payloads t).
Proof.
  intros Hb Ha. destruct (descend_sorted a t Hb Ha) as [H1 H2].
  unfold ins_tree, payloads. rewrite nodes_plug. simpl. rewrite fmap_app. simpl.
  rewrite <-(plug_descend node_lt a [] t) at 3. rewrite nodes_plug. simpl. rewrite fmap_app.
  by rewrite ins_by_split.
Qed.

Lemma ins_tree_bst n a t : bst t → cmp_ordered a → bst (ins_tree n a t).
Proof.
  intros Hb Ha. unfold bst. rewrite ins_tree_payloads by done. destruct Hb as [Ho Hs].
  split; [rewrite ins_by_perm; by constructor|].
  induction Hs as [|y l Hs IH Hy]; simpl; [by repeat constructor|].
  apply Forall_cons in Ho as [Hoy Ho]. unfold node_lt. unfold cmp_le, fle, cmp_ordered in *.
  destruct (flt (comparator a) (comparator y)) eqn:Ey.
  - constructor; [by constructor|]. apply Forall_cons. split; [by apply flt_asym|].
    rewrite Forall_forall in Ho, Hy |- *. intros z Hz.
    apply fnlt_trans with (comparator y); auto using flt_asym.
  - constructor; [by apply IH|]. rewrite ins_by_perm. by constructor.
Qed.

Lemma locs_ins_tree n a t : locs (ins_tree n a t) ≡ₚ n :: locs t.
Proof.
  unfold ins_tree. rewrite locs_plug. simpl.
  rewrite <-(plug_descend node_lt a [] t) at 2. rewrite locs_plug. simpl.
  unfold locs at 1. simpl. rewrite app_nil_r. by rewrite Permutation_app_comm.
Qed.

(** ** Correctness of the operations *)

Lemma rep_height s t : tree_rep s t → height t ≤ base.size (theap s).
Proof. intros [_ Ha Hn]. by apply tree_at_height with None. Qed.

Lemma insert_spec s t n nd :
  tree_rep s t → theap s !! n = Some nd → n ∉ locs t →
  ∃ s', insert (Some n) s = (s', Ok tt) ∧ tree_rep s' (ins_tree n (payload nd) t) ∧
    depth s' = depth s ∧
    (∀ p, p ∉ locs (ins_tree n (payload nd) t) → theap s' !! p = theap s !! p).
Proof.
  intros Hrep Hn Hnt. pose proof (rep_height _ _ Hrep) as Hh.
  unfold insert. rewrite (mbind_ok _ _ _ _ _ eq_refl : mbind' mget _ s = _).
  rewrite (rep_root _ _ Hrep).
  rewrite (mbind_ok _ _ _ _ _ (find_parent_spec node_lt _ s n nd [] t Hn (rep_at _ _ Hrep)
    (le_n_S _ _ Hh))).
  pose proof (locs_ins_tree n (payload nd) t) as Hl.
  unfold ins_tree in *. set (c := descend node_lt (payload nd) [] t) in *.
  assert (tree_rep s (plug c E)) as Hrep' by (unfold c; by rewrite plug_descend).
  pose proof (descend_side node_lt (payload nd) [] t) as Hside. fold c in Hside.
  assert (n ∉ ctx_locs c) as Hnc.
  { intros Hin. apply Hnt. rewrite <-(plug_descend node_lt (payload nd) [] t : _ = t).
    rewrite locs_plug. set_solver. }
  clearbody c. apply rep_plug in Hrep' as (Hr & Hc & _ & Hnd). rewrite app_nil_r in Hnd.
  destruct c as [|f c]; cbn [ctx_par].
  - erewrite mbind_ok by reflexivity. rewrite (link_root_spec _ n nd) by done.
    eexists. split; [reflexivity|]. split_and!; [|done|].
    + split; cbn; [done| |by apply NoDup_singleton]. by rewrite lookup_insert_eq.
    + intros p Hp. cbn. rewrite lookup_insert_ne; [done|]. intros ->. apply Hp. rewrite Hl. left.
  - assert (frame_loc f ≠ n) by (intros <-; apply Hnc; left).
    rewrite (link_child_spec node_lt s n nd f c None) by (done || apply Hc || by apply Hside).
    eexists. split; [reflexivity|]. split; [by apply linked_rep with None|]. split; [done|].
    intros p Hp. cbn. apply linked_heap_ne; intros ->; apply Hp.
    + rewrite Hl. left.
    + rewrite locs_plug. left.
Qed.

(** *** Search *)

(** The search [find] performs, on the functional tree. *)
Fixpoint search (shell : A) t : option loc :=
  match t with
  | E => None
  | T p b l r =>
      if node_gt b shell then search shell l
      else if node_lt b shell then search shell r
      else Some p
  end.

Lemma find_loop_spec fuel s shell par t :
  tree_at (theap s) par t → height t < fuel →
  find_loop fuel shell (rootp t) s
    = (s, match search shell t with
          | Some p => Ok (Some p)
          | None => Throw (runtime_error "node not found")
          end).
Proof.
  revert par t. induction fuel as [|fuel IH]; intros par [|p b l r] Hat Hf;
    cbn [find_loop rootp search height] in *; [lia|lia|done|].
  destruct Hat as (Hp & Hl & Hr). rewrite (mbind_ok _ _ _ _ _ (tload_ok _ _ _ Hp)).
  cbn [payload left right].
  destruct (node_gt b shell); [by apply (IH (Some p)); [|lia]|].
  destruct (node_lt b shell); [by apply (IH (Some p)); [|lia]|done].
Qed.

Lemma find_spec s shell t :
  tree_rep s t →
  find shell s
    = (s, match search shell t with
          | Some p => Ok (Some p)
          | None => Throw (runtime_error "node not found")
          end).
Proof.
  intros H. unfold find. rewrite (mbind_ok _ _ _ _ _ eq_refl : mbind' mget _ _ = _).
  rewrite (rep_root _ _ H). apply (find_loop_spec _ s shell None t); [apply H|].
  pose proof (rep_height _ _ H). lia.
Qed.

Definition same_key (a b : A) : bool := feq (comparator a) (comparator b).

Lemma search_Some shell t p :
  search shell t = Some p → Forall cmp_ordered (payloads t) → cmp_ordered shell →
  ∃ a, (p, a) ∈ nodes t ∧ same_key a shell = true.
Proof.
  intros Hs Ho Hsh. induction t as [|q b l IHl r IHr]; simpl in *; [done|].
  rewrite payloads_T in Ho. apply Forall_app in Ho as [Hol Hor]. apply Forall_cons in Hor as [Hob Hor].
  destruct (node_gt b shell) eqn:E1.
  { destruct (IHl Hs Hol) as (a & Ha & He). exists a. set_solver. }
  destruct (node_lt b shell) eqn:E2.
  { destruct (IHr Hs Hor) as (a & Ha & He). exists a. set_solver. }
  injection Hs as <-. exists b. split; [set_solver|]. by apply feq_incomparable.
Qed.

Lemma search_None shell t :
  search shell t = None → bst t → cmp_ordered shell →
  Forall (λ a, same_key a shell = false) (payloads t).
Proof.
  intros Hn [Ho Hs] Hsh. induction t as [|q b l IHl r IHr]; simpl in *; [constructor|].
  rewrite payloads_T in Ho, Hs |- *. apply Forall_app in Ho as [Hol Hor].
  apply Forall_cons in Hor as [Hob Hor].
  apply StronglySorted_mid in Hs as (Hsl & Hsr & Hlb & Hbr).
  assert (∀ a, cmp_ordered a → flt (comparator a) (comparator shell) = true ∨
    flt (comparator shell) (comparator a) = true → same_key a shell = false) as Hne.
  { intros a Ha Hlt. unfold same_key. apply not_true_iff_false.
    rewrite feq_incomparable by done. intros [??]. destruct Hlt; congruence. }
  unfold node_gt, fgt, node_lt in Hn. unfold cmp_ordered, cmp_le, fle in *.
  destruct (flt (comparator shell) (comparator b)) eqn:E1.
  - apply Forall_app. split; [by apply IHl|]. apply Forall_cons. split; [by apply Hne; [|right]|].
    rewrite Forall_forall in Hbr, Hor |- *. intros a Ha. apply Hne; [by apply Hor|right].
    apply flt_fnlt_trans with (comparator b); auto.
  - destruct (flt (comparator b) (comparator shell)) eqn:E2; [|done].
    apply Forall_app. split; [|apply Forall_cons; split; [by apply Hne; [|left]|by apply IHr]].
    rewrite Forall_forall in Hlb, Hol |- *. intros a Ha. apply Hne; [by apply Hol|left].
    apply fnlt_flt_trans with (comparator b); auto.
Qed.

(** *** Whole-tree traversals *)

Lemma get_nnodes_spec fuel s par t k :
  tree_at (theap s) par t → height t < fuel →
  get_nnodes fuel (rootp t) (u64 k) s = (s, Ok (u64 (k + Z.of_nat (length (locs t))))).
Proof.
  revert par t k. induction fuel as [|fuel IH]; intros par [|p b l r] k Hat Hf;
    cbn [get_nnodes rootp height] in *; [lia|lia| |].
  { by rewrite Z.add_0_r. }
  destruct Hat as (Hp & Hl & Hr). rewrite (mbind_ok _ _ _ _ _ (tload_ok _ _ _ Hp)).
  cbn [left right].
  replace (u64 (u64 k + 1)) with (u64 (k + 1)) by (unfold u64; by rewrite Zplus_mod_idemp_l).
  rewrite (mbind_ok _ _ _ _ _ (IH _ _ (k + 1)%Z Hl ltac:(lia))).
  rewrite (IH _ _ _ Hr) by lia. do 3 f_equal. rewrite locs_T, length_app. simpl. lia.
Qed.

Fixpoint echo_lines (tabs : nat) t : list (nat * data_t) :=
  match t with
  | E => []
  | T _ a l r => echo_lines (S tabs) l ++ (tabs, comparator a) :: echo_lines (S tabs) r
  end.

Lemma echo_node_spec fuel s par t tabs :
  tree_at (theap s) par t → height t < fuel →
  echo_node fuel (rootp t) tabs s = (s, Ok (echo_lines tabs t)).
Proof.
  revert par t tabs. induction fuel as [|fuel IH]; intros par [|p b l r] tabs Hat Hf;
    cbn [echo_node rootp height echo_lines] in *; [lia|lia|done|].
  destruct Hat as (Hp & Hl & Hr). rewrite (mbind_ok _ _ _ _ _ (tload_ok _ _ _ Hp)).
  cbn [left right payload].
  rewrite (mbind_ok _ _ _ _ _ (IH _ _ _ Hl ltac:(lia))).
  by rewrite (mbind_ok _ _ _ _ _ (IH _ _ _ Hr ltac:(lia))).
Qed.

Lemma echo_lines_comparators tabs t : (echo_lines tabs t).*2 = comparator <$> payloads t.
Proof.
  revert tabs. induction t as [|p a l IHl r IHr]; intros tabs; [done|]. simpl.
  rewrite payloads_T, !fmap_app. simpl. by rewrite IHl, IHr.
Qed.

(** The heap without the given addresses. *)
Definition heap_minus (h : gmap loc (tnode A)) (L : list loc) : gmap loc (tnode A) :=
  filter (λ x, x.1 ∉ L) h.

Lemma heap_minus_lookup h L p :
  heap_minus h L !! p = if decide (p ∈ L) then None else h !! p.
Proof.
  unfold heap_minus. rewrite map_lookup_filter. destruct (h !! p) as [n|]; simpl;
    case_decide; try done; case_guard; naive_solver.
Qed.

Lemma tree_at_minus h par t L :
  (∀ p, p ∈ locs t → p ∉ L) → tree_at h par t → tree_at (heap_minus h L) par t.
Proof.
  intros HL. apply tree_at_ext. intros p Hp. rewrite heap_minus_lookup.
  rewrite decide_False; [done|]. by apply HL.
Qed.

Lemma heap_minus_minus h L1 L2 : heap_minus (heap_minus h L1) L2 = heap_minus h (L1 ++ L2).
Proof.
  apply map_eq. intros p. rewrite !heap_minus_lookup.
  repeat case_decide; set_solver.
Qed.

Lemma heap_minus_delete h L p : delete p (heap_minus h L) = heap_minus h (L ++ [p]).
Proof.
  apply map_eq. intros q. rewrite lookup_delete, !heap_minus_lookup.
  repeat case_decide; set_solver.
Qed.

Lemma heap_minus_perm h L1 L2 : (∀ p, p ∈ L1 ↔ p ∈ L2) → heap_minus h L1 = heap_minus h L2.
Proof. intros H. apply map_eq. intros p. rewrite !heap_minus_lookup. repeat case_decide; naive_solver. Qed.

Lemma heap_minus_nil h : heap_minus h [] = h.
Proof. apply map_eq. intros p. rewrite heap_minus_lookup. case_decide; set_solver. Qed.

Lemma set_theap_id s : set_theap (theap s) s = s.
Proof. by destruct s. Qed.

Lemma delete_node_spec fuel s par t :
  tree_at (theap s) par t → NoDup (locs t) → height t < fuel →
  delete_node fuel (rootp t) s = (set_theap (heap_minus (theap s) (locs t)) s, Ok tt).
Proof.
  clear comparator.
  revert s par t. induction fuel as [|fuel IH]; intros s par [|p b l r] Hat Hnd Hf;
    cbn [delete_node rootp height] in *; [lia|lia| |].
  { cbn. by rewrite heap_minus_nil, set_theap_id. }
  destruct Hat as (Hp & Hl & Hr). rewrite locs_T in Hnd |- *.
  apply NoDup_app in Hnd as (Hndl & Hdis & [Hpr Hndr]%NoDup_cons).
  rewrite (mbind_ok _ _ _ _ _ (tload_ok _ _ _ Hp)). cbn [left right].
  assert ((match rootp l with Some _ => delete_node fuel (rootp l) | None => mret tt end) s
    = (set_theap (heap_minus (theap s) (locs l)) s, Ok tt)) as Hrunl.
  { destruct l as [|lp la ll lr]; [by rewrite heap_minus_nil, set_theap_id|].
    cbn [rootp]. by apply (IH s (Some p) (T lp la ll lr)); [..|lia]. }
  rewrite (mbind_ok _ _ _ _ _ Hrunl).
  set (s1 := set_theap (heap_minus (theap s) (locs l)) s).
  assert (theap s1 !! p = Some (mkT b par (rootp l) (rootp r))) as Hp1.
  { unfold s1. cbn. rewrite heap_minus_lookup, decide_False; [done|]. set_solver. }
  rewrite (mbind_ok _ _ _ _ _ (tload_ok _ _ _ Hp1)). cbn [right].
  assert ((match rootp r with Some _ => delete_node fuel (rootp r) | None => mret tt end) s1
    = (set_theap (heap_minus (theap s1) (locs r)) s1, Ok tt)) as Hrunr.
  { destruct r as [|rp ra rl rr]; [by rewrite heap_minus_nil, set_theap_id|].
    cbn [rootp]. apply (IH s1 (Some p) (T rp ra rl rr)); [|done|lia].
    apply tree_at_minus; [|done]. intros q Hq Hq'. apply (Hdis q Hq'). by right. }
  rewrite (mbind_ok _ _ _ _ _ Hrunr).
  erewrite tfree_ok by (cbn; rewrite !heap_minus_lookup, !decide_False; [exact Hp|set_solver..]).
  unfold s1. cbn. rewrite heap_minus_minus, heap_minus_delete. unfold set_theap. cbn.
  do 2 f_equal. apply heap_minus_perm. set_solver.
Qed.

(** *** Insertion at a chosen position *)

Lemma insert_at_spec s c p a l r n nd pos :
  tree_rep s (plug c (T p a l r)) →
  theap s !! n = Some nd → n ∉ locs (plug c (T p a l r)) →
  match pos with LEFT => l | RIGHT => r end = E →
  ∃ s', insert_at (Some n) (Some p) pos s = (s', Ok tt) ∧
    tree_rep s' (plug c (match pos with
                         | LEFT => T p a (T n (payload nd) E E) r
                         | RIGHT => T p a l (T n (payload nd) E E)
                         end)).
Proof.
  clear comparator. intros Hrep Hn Hnt Hpos. apply rep_plug in Hrep as (Hr & Hc & Ht & Hnd).
  rewrite locs_plug, locs_T in Hnt. rewrite locs_T in Hnd. destruct Ht as (Hp & Hl & Hr').
  assert (p ≠ n) as Hnp by set_solver.
  set (f := match pos with LEFT => FL p a r | RIGHT => FR p a l end).
  assert (frame_loc f = p) as Hfp by (by destruct pos).
  assert (ctx_at (theap s) None (f :: c)) as Hcf
    by (destruct pos; [subst l|subst r]; by split_and!).
  exists (set_theap (linked_heap (theap s) n (payload nd) f c) s). split.
  - unfold insert_at. rewrite (mbind_ok _ _ _ _ _ (tload_ok _ _ _ Hp)). cbn [left right].
    assert ((tupd (set_parent (Some p)) (Some n);;; tupd (set_right None) (Some n);;;
      tupd (set_left None) (Some n);;; link_side f n) s
      = (set_theap (linked_heap (theap s) n (payload nd) f c) s, Ok tt)) as Hrun.
    { rewrite (link_leaf_run _ _ _ _ _ Hn). rewrite <-Hfp at 1.
      apply (link_side_run s n (payload nd) f c None); [by rewrite Hfp|apply Hcf]. }
    destruct pos; [subst l|subst r]; exact Hrun.
  - assert (tree_rep (set_theap (linked_heap (theap s) n (payload nd) f c) s)
      (plug (f :: c) (T n (payload nd) E E))) as Hrep'.
    { apply linked_rep with None; [| |by rewrite Hr, ctx_root_step, Hfp|done].
      - destruct pos; simpl; set_solver.
      - apply NoDup_app in Hnd as (Hndc & Hdisc & Hnd).
        apply NoDup_app in Hnd as (Hndl & Hdis & [Hpr Hndr]%NoDup_cons).
        destruct pos; simpl; (apply NoDup_cons; split; [|apply NoDup_app; split_and!]); set_solver. }
    by destruct pos.
Qed.

(** *** A sequence of insertions *)

Fixpoint insert_all (ns : list loc) : M (tree_st A) unit :=
  match ns with
  | [] => mret tt
  | n :: ns => insert (Some n);;; insert_all ns
  end.

Lemma insert_all_spec s t ns ps :
  tree_rep s t → bst t →
  Forall2 (λ n a, payload <$> theap s !! n = Some a) ns ps →
  NoDup (ns ++ locs t) → Forall cmp_ordered ps →
  ∃ s' t', insert_all ns s = (s', Ok tt) ∧ tree_rep s' t' ∧ bst t' ∧
    locs t' ≡ₚ ns ++ locs t ∧
    payloads t' = fold_left (λ l a, ins_by node_lt a l) ps (payloads t).
Proof.
  intros Hrep Hb Hns. revert s t ps Hrep Hb Hns.
  induction ns as [|n ns IH]; intros s t ps Hrep Hb Hns Hnd Ho.
  { inversion Hns; subst. by exists s, t. }
  destruct ps as [|a ps]; [by inversion Hns|]. apply Forall2_cons in Hns as [Hn Hns].
  apply Forall_cons in Ho as [Ha Ho]. simpl in Hnd. apply NoDup_cons in Hnd as [Hnn Hnd].
  destruct (theap s !! n) as [nd|] eqn:En; [|done]. simpl in Hn. injection Hn as Hn.
  destruct (insert_spec s t n nd Hrep En) as (s1 & Hrun & Hrep1 & _ & Hfr); [set_solver|].
  rewrite Hn in *. pose proof (locs_ins_tree n a t) as Hl.
  destruct (IH s1 (ins_tree n a t) ps) as (s2 & t2 & Hrun2 & Hrep2 & Hb2 & Hl2 & Hp2).
  - done.
  - by apply ins_tree_bst.
  - clear -Hns Hfr Hnd Hnn Hl. apply Forall2_same_length_lookup. split; [exact (Forall2_length _ _ _ Hns)|].
    intros i x b Hx Hb. rewrite Hfr.
    + by eapply (Forall2_lookup_lr _ _ _ _ _ _ Hns).
    + rewrite Hl. apply list_elem_of_lookup_2 in Hx. apply NoDup_app in Hnd as (_&Hnd&_).
      specialize (Hnd x Hx). set_solver.
  - rewrite Hl, <-Permutation_middle. by apply NoDup_cons.
  - done.
  - exists s2, t2. simpl. rewrite (mbind_ok _ _ _ _ _ Hrun). split_and!; [done..| |].
    + rewrite Hl2, Hl. by rewrite Permutation_middle.
    + rewrite Hp2. by rewrite ins_tree_payloads.
Qed.

(** ** Properties *)

(** C35. [BinaryTree::insert] of an allocated, unlinked node into a well-formed
    search tree succeeds and yields a well-formed search tree whose in-order
    sequence is the old one with the new node right before the first strictly
    greater comparator; nodes outside the tree are untouched. *)
Theorem bt_insert_correct s t n nd :
  tree_rep s t → bst t → theap s !! n = Some nd → n ∉ locs t → cmp_ordered (payload nd) →
  ∃ s' t', insert (Some n) s = (s', Ok tt) ∧ tree_rep s' t' ∧ bst t' ∧
    locs t' ≡ₚ n :: locs t ∧
    payloads t' = ins_by node_lt (payload nd) (payloads t) ∧
    (∀ p, p ∉ n :: locs t → theap s' !! p = theap s !! p).
Proof.
  intros Hrep Hb Hn Hnt Ho.
  destruct (insert_spec s t n nd Hrep Hn Hnt) as (s' & Hrun & Hrep' & _ & Hfr).
  pose proof (locs_ins_tree n (payload nd) t) as Hl.
  exists s', (ins_tree n (payload nd) t). split_and!; [done|done|by apply ins_tree_bst|done|
    by apply ins_tree_payloads|]. intros p Hp. apply Hfr. by rewrite Hl.
Qed.

(** [BinaryTree::find] on a well-formed search tree returns a node of the
    tree whose comparator equals the one searched for if there is one, and
    throws "node not found" otherwise; it changes nothing. *)
Theorem bt_find_correct s t shell :
  tree_rep s t → bst t → cmp_ordered shell →
  (∃ p a, find shell s = (s, Ok (Some p)) ∧ (p, a) ∈ nodes t ∧ same_key a shell = true) ∨
  (find shell s = (s, Throw (runtime_error "node not found")) ∧
   Forall (λ a, same_key a shell = false) (payloads t)).
Proof.
  intros Hrep Hb Ho. rewrite (find_spec s shell t Hrep).
  destruct (search shell t) as [p|] eqn:Es; [left|right].
  - destruct (search_Some shell t p Es) as (a & Ha & He); [apply Hb|done|]. by exists p, a.
  - split; [done|]. by apply search_None.
Qed.

(** Building a tree by inserting any list of distinct allocated nodes into
    an empty tree, and then calling [echo], prints all the comparators in
    non-decreasing order, equal ones in insertion order. *)
Theorem bt_build_echo_sorted s ns ps :
  root s = None →
  Forall2 (λ n a, payload <$> theap s !! n = Some a) ns ps →
  NoDup ns → Forall cmp_ordered ps →
  ∃ s' out, insert_all ns s = (s', Ok tt) ∧ echo s' = (s', Ok out) ∧
    out.*2 = comparator <$> fold_left (λ l a, ins_by node_lt a l) ps [] ∧
    StronglySorted fle (out.*2).
Proof.
  intros Hr Hns Hnd Ho.
  destruct (insert_all_spec s E ns ps) as (s' & t' & Hrun & Hrep & Hb & _ & Hp);
    [by split; [done|done|constructor]|by split; constructor|done|by rewrite app_nil_r|done|].
  exists s', (echo_lines 0 t'). rewrite echo_lines_comparators. split_and!; [done| |by rewrite Hp|].
  - unfold echo. rewrite (mbind_ok _ _ _ _ _ eq_refl : mbind' mget _ _ = _).
    rewrite (rep_root _ _ Hrep). apply (echo_node_spec _ s' None t' 0); [apply Hrep|].
    pose proof (rep_height _ _ Hrep). lia.
  - destruct Hb as [_ Hs]. clear -Hs. induction Hs as [|a l _ IH Ha]; [constructor|].
    simpl. constructor; [done|]. by apply Forall_fmap.
Qed.

(** The destructor of [BinaryTree] frees every node of the tree exactly once
    and no other node, and [get_nnodes] counts the nodes of the tree. *)
Theorem bt_dtor_frees_tree s t :
  tree_rep s t →
  ∃ s', BinaryTree_dtor s = (s', Ok tt) ∧
    (∀ p, theap s' !! p = if decide (p ∈ locs t) then None else theap s !! p) ∧
    get_nnodes (S (base.size (theap s))) (root s) 0 s
      = (s, Ok (u64 (Z.of_nat (length (locs t))))).
Proof.
  intros Hrep. pose proof (rep_height _ _ Hrep) as Hh. eexists. split_and!.
  - unfold BinaryTree_dtor. rewrite (mbind_ok _ _ _ _ _ eq_refl : mbind' mget _ _ = _).
    rewrite (rep_root _ _ Hrep). apply (delete_node_spec _ s None t); [apply Hrep..|lia].
  - intros p. apply heap_minus_lookup.
  - rewrite (rep_root _ _ Hrep). change 0%Z with (u64 0).
    apply (get_nnodes_spec _ s None t 0); [apply Hrep|lia].
Qed.

(** [BinaryTree::insert_at] attaches the new node as the requested child
    when that place is free, throws when it is taken, and dereferences NULL
    when the parent is NULL, so the branch for an empty tree never runs. *)
Theorem bt_insert_at_correct s c p a l r n nd pos :
  tree_rep s (plug c (T p a l r)) → theap s !! n = Some nd → n ∉ locs (plug c (T p a l r)) →
  match match pos with LEFT => l | RIGHT => r end with
  | E => ∃ s', insert_at (Some n) (Some p) pos s = (s', Ok tt) ∧
           tree_rep s' (plug c (match pos with
                                | LEFT => T p a (T n (payload nd) E E) r
                                | RIGHT => T p a l (T n (payload nd) E E)
                                end))
  | T _ _ _ _ => ∃ msg, insert_at (Some n) (Some p) pos s = (s, Throw (runtime_error msg))
  end ∧ insert_at (Some n) None pos s = (s, Throw Segfault).
Proof.
  intros Hrep Hn Hnt. split; [|done].
  destruct (match pos with LEFT => l | RIGHT => r end) eqn:Ec.
  - by apply insert_at_spec.
  - apply rep_plug in Hrep as (_ & _ & (Hp & _) & _).
    unfold insert_at. rewrite (mbind_ok _ _ _ _ _ (tload_ok _ _ _ Hp)). cbn [left right].
    destruct pos; subst; eexists; [done|]. by destruct (rootp l).
Qed.
End binary_tree.

(** *** Witnesses: a heap of three nodes whose payload is the comparator *)

Definition ex_heap : gmap loc (tnode data_t) :=
  {[ 1%positive := mkT (of_int 5) None None None;
     2%positive := mkT (of_int 3) None None None;
     3%positive := mkT (of_int 4) None None None ]}.
Definition ex_tree : tree_st data_t := mkTree None 0 ex_heap.

Lemma ex_tree_rep : tree_rep ex_tree E ∧ bst id E.
Proof. split; [by split; [| |constructor]|by split; constructor]. Qed.

Lemma bt_insert_correct_witness :
  ∃ s' t', insert id (Some 1%positive) ex_tree = (s', Ok tt) ∧ tree_rep s' t' ∧ bst id t' ∧
    payloads t' = [of_int 5].
Proof.
  destruct (bt_insert_correct id ex_tree E 1%positive (mkT (of_int 5) None None None))
    as (s' & t' & H1 & H2 & H3 & _ & H4 & _); [apply ex_tree_rep..|reflexivity|set_solver|reflexivity|].
  by exists s', t'.
Defined.

Lemma bt_find_correct_witness :
  find id (of_int 7) ex_tree = (ex_tree, Throw (runtime_error "node not found")).
Proof.
  destruct (bt_find_correct id ex_tree E (of_int 7)) as [(p & a & _ & Hin & _)|[H _]];
    [apply ex_tree_rep..|reflexivity| |exact H]. by apply elem_of_nil in Hin.
Defined.

Lemma bt_build_echo_sorted_witness :
  ∃ s' out, insert_all id [1%positive; 2%positive; 3%positive] ex_tree = (s', Ok tt) ∧
    echo id s' = (s', Ok out) ∧ out.*2 = [of_int 3; of_int 4; of_int 5].
Proof.
  destruct (bt_build_echo_sorted id ex_tree [1%positive; 2%positive; 3%positive]
    [of_int 5; of_int 3; of_int 4]) as (s' & out & H1 & H2 & H3 & _);
    [reflexivity|repeat (apply Forall2_cons_2; [reflexivity|]); apply Forall2_nil_2
    |apply (bool_decide_unpack _); vm_compute; done
    |repeat (apply Forall_cons_2; [reflexivity|]); apply Forall_nil_2|].
  exists s', out. split_and!; [done..|]. rewrite H3. vm_compute. reflexivity.
Defined.

Lemma bt_dtor_frees_tree_witness :
  ∃ s', BinaryTree_dtor ex_tree = (s', Ok tt).
Proof.
  destruct (bt_dtor_frees_tree ex_tree E) as (s' & H & _); [apply ex_tree_rep|by exists s'].
Defined.

Definition ex_tree1 : tree_st data_t := mkTree (Some 1%positive) 0 ex_heap.

Lemma bt_insert_at_correct_witness :
  ∃ s', insert_at (Some 2%positive) (Some 1%positive) LEFT ex_tree1 = (s', Ok tt) ∧
    tree_rep s' (T 1%positive (of_int 5) (T 2%positive (of_int 3) E E) E).
Proof.
  apply (bt_insert_at_correct ex_tree1 [] 1%positive (of_int 5) E E 2%positive
    (mkT (of_int 3) None None None) LEFT); [|reflexivity|].
  - split; [reflexivity|by split_and!|apply NoDup_singleton].
  - apply not_elem_of_cons. split; [done|apply not_elem_of_nil].
Defined.
