(* ===== verification/RBTree.v ===== *)
(** * [structures/RBTree.cpp]: the red-black tree

    The payload of a node is its colour ([RBNode::color], 0 = black, 1 = red)
    and its comparator.  The operations are the pointer programs of the source;
    the fix-up of [balance] is shown to implement a functional fix-up on the
    path to the root. *)
From S2P Require Import Prelude DataT Types TreeHeap.
From S2P Require BinaryTree.
From stdpp Require Import options.

(** ** Nodes *)

Record RBNode := mkRB { color : Z; comparator : data_t }.

Abbreviation rbtree := (tree RBNode).
Abbreviation rbst := (tree_st RBNode).
Abbreviation R := (M rbst).

Definition rb_lt (a b : RBNode) : bool := flt (comparator a) (comparator b).
Definition rb_gt (a b : RBNode) : bool := fgt (comparator a) (comparator b).
(** [NodeView::operator!=] *)
Definition rb_ne (a b : RBNode) : bool := negb (feq (comparator a) (comparator b)).

Definition get_parent (p : option loc) : R (option loc) := let! n := tload p in mret (parent n).
Definition get_left (p : option loc) : R (option loc) := let! n := tload p in mret (left n).
Definition get_right (p : option loc) : R (option loc) := let! n := tload p in mret (right n).
Definition get_color (p : option loc) : R Z := let! n := tload p in mret (color (payload n)).
Definition recolor (c : Z) (n : tnode RBNode) : tnode RBNode :=
  set_payload (mkRB c (comparator (payload n))) n.
Definition set_color (c : Z) (p : option loc) : R unit := tupd (recolor c) p.

(** [p && p->color == 1] *)
Definition is_red (p : option loc) : R bool :=
  match p with
  | None => mret false
  | Some _ => let! c := get_color p in mret (c =? 1)%Z
  end.

(** ** Rotations and [transplant] *)

(** Makes [y] take the place of [x] below [x]'s parent. *)
Definition replace_child (x y : option loc) : R unit :=
  let! xp := get_parent x in
  match xp with
  | None => set_root_m y
  | Some _ =>
      let! pl := get_left xp in
      if decide (x = pl) then tupd (set_left y) xp else tupd (set_right y) xp
  end.

Definition rotate_left (x : option loc) : R unit :=
  let! y := get_right x in
  let! yl := get_left y in
  tupd (set_right yl) x;;;
  let! yl := get_left y in
  (match yl with Some _ => tupd (set_parent x) yl | None => mret tt end);;;
  let! xp := get_parent x in
  tupd (set_parent xp) y;;;
  tupd (set_left x) y;;;
  replace_child x y;;;
  tupd (set_parent y) x.

Definition rotate_right (y : option loc) : R unit :=
  let! x := get_left y in
  let! xr := get_right x in
  tupd (set_left xr) y;;;
  let! xr := get_right x in
  (match xr with Some _ => tupd (set_parent y) xr | None => mret tt end);;;
  let! yp := get_parent y in
  tupd (set_parent yp) x;;;
  tupd (set_right y) x;;;
  replace_child y x;;;
  tupd (set_parent x) y.

Definition transplant (dest src : option loc) : R unit :=
  replace_child dest src;;;
  match src with
  | Some _ => let! dp := get_parent dest in tupd (set_parent dp) src
  | None => mret tt
  end.

Fixpoint minimum (fuel : nat) (tr : option loc) : R (option loc) :=
  match fuel with
  | O => mthrow OutOfFuel
  | S fuel =>
      let! l := get_left tr in
      match l with Some _ => minimum fuel l | None => mret tr end
  end.

(** ** Insertion *)

(** One round of the loop of [balance]; [new_node] moves up by two levels when
    the uncle is red. *)
Fixpoint balance_loop (fuel : nat) (new_node : option loc) : R unit :=
  match fuel with
  | O => mthrow OutOfFuel
  | S fuel =>
      let! par := get_parent new_node in
      let! red := is_red par in
      if negb red then mret tt else
      let! g := get_parent par in
      let! gl := get_left g in
      let side := bool_decide (par = gl) in
      let! uncle := (if side then get_right g else get_left g) in
      let! ured := is_red uncle in
      if ured then
        set_color 0 par;;; set_color 0 uncle;;; set_color 1 g;;;
        balance_loop fuel g
      else
        let! inner := (if side then get_right par else get_left par) in
        let! new_node :=
          (if decide (new_node = inner)
           then (if side then rotate_left par else rotate_right par);;; mret par
           else mret new_node) in
        let! par := get_parent new_node in
        set_color 0 par;;;
        let! g := get_parent par in
        set_color 1 g;;;
        (if side then rotate_right g else rotate_left g);;;
        balance_loop fuel new_node
  end.

(** The linking that [insert] performs and [balance] repeats. *)
Definition link_new (par node : option loc) : R unit :=
  match par with
  | None => set_root_m node;;; set_color 0 node;;; link_root node
  | Some _ => set_color 1 node;;; link_child rb_lt node par
  end.

Definition balance (par node : option loc) : R unit :=
  link_new par node;;;
  let! s := mget in
  balance_loop (S (S (base.size (theap s)))) node;;;
  let! s := mget in
  set_color 0 (root s).

Definition insert (node : option loc) : R unit :=
  let! s := mget in
  let! par := find_parent rb_lt (S (base.size (theap s))) node (root s) None in
  link_new par node;;;
  balance par node.

Definition set_root (node : option loc) : R unit :=
  massert (bool_decide (node ≠ None));;; insert node.

(** [insert_at(new_node, node, pos)]: [balance] is called with [node] both as
    the parent and as the node to insert. *)
Definition insert_at (new_node node : option loc) (pos : bchild_t) : R unit :=
  let! nl := get_left node in
  match nl with
  | Some _ => mthrow (runtime_error "Left child already populated")
  | None =>
      (match node with
       | None =>
           set_root_m node;;; set_color 0 node;;; link_root node;;; mmodify (set_depth 1)
       | Some _ =>
           set_color 1 new_node;;;
           tupd (set_parent node) new_node;;;
           tupd (set_right None) new_node;;;
           tupd (set_left None) new_node;;;
           match pos with
           | LEFT => tupd (set_left new_node) node
           | RIGHT => tupd (set_right new_node) node
           end
       end);;;
      balance node node
  end.

(** ** Search and deletion *)

(** The descent shared by [find] and [_delete]. *)
Fixpoint search_loop (fuel : nat) (shell : RBNode) (node : option loc) : R (option loc) :=
  match fuel with
  | O => mthrow OutOfFuel
  | S fuel =>
      match node with
      | None => mret None
      | Some _ =>
          let! n := tload node in
          if rb_gt (payload n) shell then search_loop fuel shell (left n)
          else if rb_lt (payload n) shell then search_loop fuel shell (right n)
          else mret node
      end
  end.

Definition find (shell : RBNode) : R (option loc) :=
  let! s := mget in
  let! node := search_loop (S (base.size (theap s))) shell (root s) in
  match node with
  | Some _ => mret node
  | None => mthrow (runtime_error "node not found")
  end.

(** The fix-up loop of [_delete]; the condition
    [0 == side ? sibling->right->color : sibling->left->color] selects by
    [side] first. *)
Fixpoint delete_loop (fuel : nat) (old : option loc) : R unit :=
  match fuel with
  | O => mthrow OutOfFuel
  | S fuel =>
      let! s := mget in
      if decide (old = root s) then mret tt else
      let! oc := get_color old in
      if negb (oc =? 0)%Z then mret tt else
      let! op := get_parent old in
      let! opl := get_left op in
      let side := bool_decide (old = opl) in
      let! sibling := (if side then get_right op else get_left op) in
      let! sc := get_color sibling in
      let! sibling :=
        (if (sc =? 1)%Z then
           set_color 0 sibling;;;
           set_color 1 op;;;
           (if side then rotate_left op else rotate_right op);;;
           let! op := get_parent old in
           if side then get_right op else get_left op
         else mret sibling) in
      let! sl := get_left sibling in
      let! slc := get_color sl in
      let! both := (if (slc =? 0)%Z
                    then let! sr := get_right sibling in
                         let! src := get_color sr in mret (src =? 1)%Z
                    else mret false) in
      if both then
        set_color 1 sibling;;;
        let! op := get_parent old in
        delete_loop fuel op
      else
        let! cond := (if negb side
                      then let! sr := get_right sibling in get_color sr
                      else let! sl := get_left sibling in get_color sl) in
        let! sibling :=
          (if negb (cond =? 0)%Z then
             set_color 1 sibling;;;
             (if side then
                let! sl := get_left sibling in
                set_color 0 sl;;;
                rotate_right sibling;;;
                let! op := get_parent old in get_right op
              else
                let! sr := get_right sibling in
                set_color 0 sr;;;
                rotate_left sibling;;;
                let! op := get_parent old in get_left op)
           else mret sibling) in
        let! op := get_parent old in
        let! opc := get_color op in
        set_color opc sibling;;;
        set_color 0 op;;;
        (if side then
           let! sl := get_left sibling in
           set_color 0 sl;;; rotate_left op
         else
           let! sr := get_right sibling in
           set_color 0 sr;;; rotate_right op);;;
        let! s := mget in
        delete_loop fuel (root s)
  end.

(** Unlinks [node]; returns [old] and the colour [original]. *)
Definition unlink (fuel : nat) (node : option loc) : R (option loc * Z) :=
  let! n := tload node in
  match left n, right n with
  | None, _ => transplant node (right n);;; mret (None, 0%Z)
  | Some _, None => transplant node (left n);;; mret (None, 0%Z)
  | Some _, Some _ =>
      let! old := minimum fuel (right n) in
      let! original := get_color old in
      let! sub := get_right old in
      let! oldp := get_parent old in
      (if decide (oldp = node) then
         tupd (set_parent node) sub
       else
         let! oldr := get_right old in
         transplant old oldr;;;
         let! nr := get_right node in
         tupd (set_right nr) old;;;
         let! oldr := get_right old in
         tupd (set_parent old) oldr);;;
      transplant node old;;;
      let! nl := get_left node in
      tupd (set_left nl) old;;;
      let! oldl := get_left old in
      tupd (set_parent old) oldl;;;
      let! nc := get_color node in
      set_color nc old;;;
      mret (old, original)
  end.

Definition _delete (fuel : nat) (shell : RBNode) : R unit :=
  let! s := mget in
  let! node := search_loop fuel shell (root s) in
  match node with
  | None => mret tt
  | Some _ =>
      let! n := tload node in
      if rb_ne (payload n) shell then mret tt else
      let! r := unlink fuel node in
      tfree node;;;
      if (r.2 =? 0)%Z then delete_loop fuel r.1 else mret tt
  end.

(** [get_nnodes], [delete_node] and the destructor have the same bodies as in
    [BinaryTree]. *)
Definition get_nnodes : nat → option loc → Z → R Z := BinaryTree.get_nnodes.
Definition delete_node : nat → option loc → R unit := BinaryTree.delete_node.
Definition RBTree_dtor : R unit := BinaryTree.BinaryTree_dtor.

(** [echo]: the letter printed after the comparator. *)
Definition echo_letter (n : RBNode) : string := if (color n =? 0)%Z then "R" else "B".

(** ** Small runs *)

Definition mk_heap (l : list (loc * data_t)) : gmap loc (tnode RBNode) :=
  list_to_map (map (λ x, (x.1, mkT (mkRB 0 x.2) None None None)) l).

Fixpoint insert_all (ns : list loc) : R unit :=
  match ns with
  | [] => mret tt
  | n :: ns => insert (Some n);;; insert_all ns
  end.

(** ** Symbolic execution

    Heaps are chains of updates of the initial heap at addresses that are known
    to be different; [hlook] looks an address up in such a chain. *)

Ltac hcbn := cbn [set_theap set_root_ptr TreeHeap.set_depth theap root depth
  payload parent left right set_parent set_left set_right set_payload recolor comparator color].
Ltac hlook :=
  hcbn; first
    [ eassumption
    | apply lookup_insert_eq
    | rewrite lookup_insert_ne by congruence; hlook ].
Lemma get_parent_ok (s : rbst) p n :
  theap s !! p = Some n → get_parent (Some p) s = (s, Ok (parent n)).
Proof. intros H. unfold get_parent. by rewrite (mbind_ok _ _ _ _ _ (tload_ok _ _ _ H)). Qed.
Lemma get_left_ok (s : rbst) p n :
  theap s !! p = Some n → get_left (Some p) s = (s, Ok (left n)).
Proof. intros H. unfold get_left. by rewrite (mbind_ok _ _ _ _ _ (tload_ok _ _ _ H)). Qed.
Lemma get_right_ok (s : rbst) p n :
  theap s !! p = Some n → get_right (Some p) s = (s, Ok (right n)).
Proof. intros H. unfold get_right. by rewrite (mbind_ok _ _ _ _ _ (tload_ok _ _ _ H)). Qed.
Lemma get_color_ok (s : rbst) p n :
  theap s !! p = Some n → get_color (Some p) s = (s, Ok (color (payload n))).
Proof. intros H. unfold get_color. by rewrite (mbind_ok _ _ _ _ _ (tload_ok _ _ _ H)). Qed.
Lemma set_color_ok (s : rbst) p n c :
  theap s !! p = Some n →
  set_color c (Some p) s = (set_theap (<[p := recolor c n]> (theap s)) s, Ok tt).
Proof. apply tupd_ok. Qed.

Ltac run_get :=
  erewrite mbind_ok by (first [apply get_parent_ok | apply get_left_ok | apply get_right_ok
    | apply get_color_ok | apply tload_ok]; hlook); hcbn.
Ltac run_upd :=
  erewrite mbind_ok by (first [apply set_color_ok | apply tupd_ok]; hlook); hcbn.

(** Addresses outside the updated ones keep their contents. *)
Ltac outside :=
  intros; hcbn; repeat rewrite lookup_insert_ne by (intros ?; subst; set_solver); done.

Lemma replace_child_root s x y n :
  theap s !! x = Some n → parent n = None →
  replace_child (Some x) y s = (set_root_ptr y s, Ok tt).
Proof.
  intros Hx Hp. unfold replace_child. by rewrite (mbind_ok _ _ _ _ _ (get_parent_ok _ _ _ Hx)), Hp.
Qed.

Lemma replace_child_frame s x y n f c :
  theap s !! x = Some n → parent n = Some (frame_loc f) →
  theap s !! frame_loc f = Some (frame_node f c (Some x)) →
  rootp (frame_sib f) ≠ Some x →
  replace_child (Some x) y s
    = (set_theap (<[frame_loc f := frame_node f c y]> (theap s)) s, Ok tt).
Proof.
  intros Hx Hp Hf Hne. unfold replace_child.
  rewrite (mbind_ok _ _ _ _ _ (get_parent_ok _ _ _ Hx)), Hp.
  rewrite (mbind_ok _ _ _ _ _ (get_left_ok _ _ _ Hf)).
  destruct f as [p a r|p a l]; cbn [frame_node left frame_sib frame_loc] in *.
  - rewrite decide_True by done. by rewrite (tupd_ok _ _ _ _ Hf).
  - rewrite decide_False by congruence. by rewrite (tupd_ok _ _ _ _ Hf).
Qed.

(** The effect of [replace_child] on a tree seen from the node [x] below the
    context [c]: the heap changes at the parent of [x] only. *)
Definition swap_child (c : list (frame RBNode)) (y : option loc) (s : rbst) : rbst :=
  match c with
  | [] => set_root_ptr y s
  | f :: c' => set_theap (<[frame_loc f := frame_node f (ctx_par c') y]> (theap s)) s
  end.

Lemma replace_child_spec s c x n y :
  theap s !! x = Some n → parent n = ctx_par c →
  ctx_at (theap s) (Some x) c → x ∉ ctx_locs c →
  replace_child (Some x) y s = (swap_child c y s, Ok tt).
Proof.
  intros Hx Hp Hc Hnx. destruct c as [|f c]; [by apply (replace_child_root s x y n)|].
  destruct Hc as (Hf & _ & _).
  apply (replace_child_frame s x y n f (ctx_par c) Hx Hp Hf). intros Hr%rootp_locs.
  simpl in Hnx. set_solver.
Qed.

Lemma swap_child_rep s c t q :
  root s = ctx_root c q → ctx_at (theap s) q c →
  NoDup (ctx_locs c ++ locs t) → tree_at (theap s) (ctx_par c) t →
  tree_rep (swap_child c (rootp t) s) (plug c t).
Proof.
  intros Hr Hc Hnd Ht. destruct c as [|f c]; simpl.
  { split; [done..|by rewrite app_nil_l in Hnd]. }
  destruct Hc as (Hf & Hsib & Hc). simpl in Hnd.
  apply NoDup_cons in Hnd as [Hfl Hnd]. rewrite <-app_assoc in Hnd, Hfl.
  apply (plug_rep _ (f :: c)); cbn [set_theap theap root ctx_par].
  - rewrite Hr. apply ctx_root_cons.
  - cbn [ctx_at]. split_and!; [apply lookup_insert_eq|..].
    + apply (tree_at_ext (theap s)); [|done]. outside.
    + apply (ctx_at_ext (theap s)); [|done]. outside.
  - apply (tree_at_ext (theap s)); [|done]. outside.
  - simpl. rewrite <-app_assoc. by apply NoDup_cons.
Qed.

(** [set_parent] on the root of a subtree. *)
Definition reparent (t : rbtree) (p : option loc) (h : gmap loc (tnode RBNode)) :
    gmap loc (tnode RBNode) :=
  match t with
  | E => h
  | T q a l r => <[q := mkT a p (rootp l) (rootp r)]> h
  end.

Lemma reparent_at h par p t :
  tree_at h par t → NoDup (locs t) → tree_at (reparent t p h) p t.
Proof.
  destruct t as [|q a l r]; [done|]. intros (Hq & Hl & Hr) Hnd. rewrite locs_T in Hnd.
  apply NoDup_app in Hnd as (_ & Hdis & [Hqr _]%NoDup_cons).
  simpl. split_and!; [apply lookup_insert_eq|..].
  - apply (tree_at_ext h); [|done]. outside.
  - apply (tree_at_ext h); [|done]. outside.
Qed.

Lemma reparent_ne h t p q : q ∉ locs t → reparent t p h !! q = h !! q.
Proof.
  destruct t as [|q' a l r]; [done|]. rewrite locs_T. intros. simpl.
  rewrite lookup_insert_ne; [done|]. set_solver.
Qed.

Lemma reparent_run s t par p :
  tree_at (theap s) par t →
  (match rootp t with Some _ => tupd (set_parent p) (rootp t) | None => mret tt end) s
    = (set_theap (reparent t p (theap s)) s, Ok tt).
Proof.
  destruct t as [|q a l r]; intros Hat; cbn [rootp reparent];
    [by destruct s|]. destruct Hat as (Hq & _). by rewrite (tupd_ok _ _ _ _ Hq).
Qed.

(** ** Rotations refine tree rotations *)

Lemma swap_child_insert s c y h x n :
  x ∉ ctx_locs c →
  set_theap (<[x := n]> (theap (swap_child c y (set_theap h s)))) (swap_child c y (set_theap h s))
    = swap_child c y (set_theap (<[x := n]> h) s).
Proof.
  intros Hx. destruct c as [|f c]; simpl in *; [done|]. unfold set_theap. cbn.
  f_equal. apply insert_insert_ne. intros E. set_solver.
Qed.

Lemma swap_child_lookup s c y h x :
  x ∉ ctx_locs c → theap (swap_child c y (set_theap h s)) !! x = h !! x.
Proof.
  intros Hx. destruct c as [|f c]; simpl in *; [done|]. rewrite lookup_insert_ne; [done|].
  intros E. set_solver.
Qed.

Lemma swap_child_same s c y : depth (swap_child c y s) = depth s.
Proof. by destruct c. Qed.

(** Splits the distinctness of all addresses into pieces [set_solver] can use. *)
Ltac split_nodup H :=
  let H1 := fresh "Hd" in let H2 := fresh "Hd" in
  lazymatch type of H with
  | NoDup (_ ++ _) =>
      apply NoDup_app in H as (H1 & H2 & H); try split_nodup H1; split_nodup H
  | NoDup (_ :: _) => apply NoDup_cons in H as [H1 H]; split_nodup H
  | _ => idtac
  end.

(** Moves the address comparisons of a lookup out of the way. *)
Ltac miss :=
  repeat match goal with
  | |- context [<[?x := ?n]> ?h !! ?y] =>
      assert_fails (constr_eq x y);
      rewrite (lookup_insert_ne h x y n) by (first [congruence | intros ?; subst; set_solver])
  | |- context [reparent ?t ?p ?h !! ?y] => rewrite (reparent_ne h t p y) by set_solver
  end.

Lemma rotate_left_spec s c x a l y b m r :
  tree_rep s (plug c (T x a l (T y b m r))) →
  ∃ s', rotate_left (Some x) s = (s', Ok tt) ∧
    tree_rep s' (plug c (T y b (T x a l m) r)) ∧ depth s' = depth s ∧
    (∀ p, p ∉ locs (plug c (T x a l (T y b m r))) → theap s' !! p = theap s !! p).
Proof.
  intros Hrep. apply rep_plug in Hrep as (Hr & Hc & Ht & Hnd).
  destruct Ht as (Hx & Hl & Hy & Hm & Hrr). rewrite !locs_T in Hnd.
  pose proof Hnd as Hnd0. split_nodup Hnd. assert (x ≠ y) as Hxy by set_solver.
  set (nx := mkT a (ctx_par c) (rootp l) (rootp m)).
  set (h1 := <[x := nx]> (theap s)).
  set (h2 := reparent m (Some x) h1).
  set (h3 := <[y := mkT b (ctx_par c) (Some x) (rootp r)]> h2).
  set (h4 := <[x := mkT a (Some y) (rootp l) (rootp m)]> h3).
  assert (h2 !! x = Some nx) as Hx2 by (unfold h2; miss; apply lookup_insert_eq).
  assert (h2 !! y = Some (mkT b (Some x) (rootp m) (rootp r))) as Hy2 by (unfold h2, h1; miss; done).
  assert (h3 !! x = Some nx) as Hx3 by (unfold h3; miss; done).
  assert (ctx_at h3 (Some x) c) as Hc3.
  { apply (ctx_at_ext (theap s)); [|done]. intros p Hp. unfold h3, h2, h1. by miss. }
  exists (swap_child c (Some y) (set_theap h4 s)). split_and!.
  - unfold rotate_left. run_get. run_get. run_upd. run_get.
    erewrite mbind_ok by (apply (reparent_run (set_theap h1 s) m (Some y)); cbn;
      apply (tree_at_ext (theap s)); [intros; unfold h1; by miss|done]).
    erewrite mbind_ok by (apply get_parent_ok; exact Hx2). cbn [parent nx].
    erewrite mbind_ok by (apply tupd_ok; exact Hy2). hcbn.
    erewrite mbind_ok by (apply tupd_ok; hcbn; apply lookup_insert_eq). hcbn.
    rewrite insert_insert_eq.
    erewrite mbind_ok by (apply (replace_child_spec (set_theap h3 s) c x nx); [done..|set_solver]).
    erewrite tupd_ok by (rewrite swap_child_lookup by set_solver; exact Hx3).
    hcbn. by rewrite swap_child_insert by set_solver.
  - apply (swap_child_rep _ c (T y b (T x a l m) r) (Some x)); hcbn.
    + done.
    + apply (ctx_at_ext h3); [|done]. intros p Hp. unfold h4. by miss.
    + rewrite !locs_T, <-app_assoc. done.
    + unfold h4, h3. cbn [tree_at rootp]. split_and!.
      * miss. apply lookup_insert_eq.
      * apply lookup_insert_eq.
      * apply (tree_at_ext (theap s)); [|done]. intros. unfold h2, h1. by miss.
      * apply (tree_at_ext h2).
        { intros. by miss. }
        apply reparent_at with (Some y); [|done].
        apply (tree_at_ext (theap s)); [|done]. intros. unfold h1. by miss.
      * apply (tree_at_ext (theap s)); [|done]. intros. unfold h2, h1. by miss.
  - by rewrite swap_child_same.
  - intros p Hp. rewrite locs_plug, !locs_T in Hp. rewrite swap_child_lookup by set_solver.
    unfold h4, h3, h2, h1. by miss.
Qed.

Lemma rotate_right_spec s c x a l y b m r :
  tree_rep s (plug c (T y b (T x a l m) r)) →
  ∃ s', rotate_right (Some y) s = (s', Ok tt) ∧
    tree_rep s' (plug c (T x a l (T y b m r))) ∧ depth s' = depth s ∧
    (∀ p, p ∉ locs (plug c (T y b (T x a l m) r)) → theap s' !! p = theap s !! p).
Proof.
  intros Hrep. apply rep_plug in Hrep as (Hr & Hc & Ht & Hnd).
  destruct Ht as (Hy & (Hx & Hl & Hm) & Hrr). rewrite !locs_T, <-app_assoc in Hnd.
  pose proof Hnd as Hnd0. split_nodup Hnd. assert (x ≠ y) as Hxy by set_solver.
  set (ny := mkT b (ctx_par c) (rootp m) (rootp r)).
  set (h1 := <[y := ny]> (theap s)).
  set (h2 := reparent m (Some y) h1).
  set (h3 := <[x := mkT a (ctx_par c) (rootp l) (Some y)]> h2).
  set (h4 := <[y := mkT b (Some x) (rootp m) (rootp r)]> h3).
  assert (h2 !! y = Some ny) as Hy2 by (unfold h2; miss; apply lookup_insert_eq).
  assert (h2 !! x = Some (mkT a (Some y) (rootp l) (rootp m))) as Hx2 by (unfold h2, h1; miss; done).
  assert (h3 !! y = Some ny) as Hy3 by (unfold h3; miss; done).
  assert (ctx_at h3 (Some y) c) as Hc3.
  { apply (ctx_at_ext (theap s)); [|done]. intros p Hp. unfold h3, h2, h1. by miss. }
  exists (swap_child c (Some x) (set_theap h4 s)). split_and!.
  - unfold rotate_right. run_get. run_get. run_upd. run_get.
    erewrite mbind_ok by (apply (reparent_run (set_theap h1 s) m (Some x)); cbn;
      apply (tree_at_ext (theap s)); [intros; unfold h1; by miss|done]).
    erewrite mbind_ok by (apply get_parent_ok; exact Hy2). cbn [parent ny].
    erewrite mbind_ok by (apply tupd_ok; exact Hx2). hcbn.
    erewrite mbind_ok by (apply tupd_ok; hcbn; apply lookup_insert_eq). hcbn.
    rewrite insert_insert_eq.
    erewrite mbind_ok by (apply (replace_child_spec (set_theap h3 s) c y ny); [done..|set_solver]).
    erewrite tupd_ok by (rewrite swap_child_lookup by set_solver; exact Hy3).
    hcbn. by rewrite swap_child_insert by set_solver.
  - apply (swap_child_rep _ c (T x a l (T y b m r)) (Some y)); hcbn.
    + done.
    + apply (ctx_at_ext h3); [|done]. intros p Hp. unfold h4. by miss.
    + rewrite !locs_T. done.
    + unfold h4, h3. cbn [tree_at rootp]. split_and!.
      * miss. apply lookup_insert_eq.
      * apply (tree_at_ext (theap s)); [|done]. intros. unfold h2, h1. by miss.
      * apply lookup_insert_eq.
      * apply (tree_at_ext h2).
        { intros. by miss. }
        apply reparent_at with (Some x); [|done].
        apply (tree_at_ext (theap s)); [|done]. intros. unfold h1. by miss.
      * apply (tree_at_ext (theap s)); [|done]. intros. unfold h2, h1. by miss.
  - by rewrite swap_child_same.
  - intros p Hp. rewrite locs_plug, !locs_T in Hp. rewrite swap_child_lookup by set_solver.
    unfold h4, h3, h2, h1. by miss.
Qed.

