(* ===== verification/RBInsert.v ===== *)
(** * Red-black insertion is correct

    The pointer programs [balance] and [insert] of [structures/RBTree.cpp] are
    shown to implement a functional fix-up on the path from the inserted node
    to the root; the fix-up restores the red-black invariants and keeps the
    in-order sequence. *)
From S2P Require Import Prelude DataT Types TreeHeap RBTree.
From S2P Require BinaryTree.
From stdpp Require Import options.

(** ** The functional fix-up *)

Definition red : Z := 1.
Definition black : Z := 0.
Definition paint (c : Z) (a : RBNode) : RBNode := mkRB c (comparator a).

Definition root_color (t : rbtree) : Z :=
  match t with E => black | T _ a _ _ => color a end.
Definition paint_root (c : Z) (t : rbtree) : rbtree :=
  match t with E => E | T p a l r => T p (paint c a) l r end.

(** [fixup c t]: [t] is the red node under repair and [c] the path to the root.
    A red parent with a red uncle is recoloured and the repair moves to the
    grandparent; otherwise one or two rotations end it. *)
Fixpoint fixup (c : list (frame RBNode)) (t : rbtree) {struct c} : rbtree :=
  match c with
  | f :: ((g :: c'') as c') =>
      if (color (frame_payload f) =? red)%Z then
        if (root_color (frame_sib g) =? red)%Z then
          let par := paint_root black (fill f t) in
          let unc := paint_root black (frame_sib g) in
          match g with
          | FL q b _ => fixup c'' (T q (paint red b) par unc)
          | FR q b _ => fixup c'' (T q (paint red b) unc par)
          end
        else
          match g, f, t with
          | FL q b u, FL p a r, _ => plug c'' (T p (paint black a) t (T q (paint red b) r u))
          | FL q b u, FR p a l, T n x t1 t2 =>
              plug c'' (T n (paint black x) (T p a l t1) (T q (paint red b) t2 u))
          | FR q b u, FR p a l, _ => plug c'' (T p (paint black a) (T q (paint red b) u l) t)
          | FR q b u, FL p a r, T n x t1 t2 =>
              plug c'' (T n (paint black x) (T q (paint red b) u t1) (T p a t2 r))
          | _, _, E => plug c t
          end
      else plug c t
  | _ => plug c t
  end.

(** *** Red-black invariants *)

(** [rb_ok t n]: every path has [n] black nodes and no red node has a red
    child; colours are 0 or 1. *)
Inductive rb_ok : rbtree → nat → Prop :=
  | rb_E : rb_ok E 0
  | rb_R p a l r n :
      color a = red → root_color l = black → root_color r = black →
      rb_ok l n → rb_ok r n → rb_ok (T p a l r) n
  | rb_B p a l r n :
      color a = black → rb_ok l n → rb_ok r n → rb_ok (T p a l r) (S n).

(** A context that can hold a subtree of black height [n]; only the innermost
    frame may clash with a red root of that subtree. *)
Inductive ctx_ok : list (frame RBNode) → nat → Prop :=
  | ctx_nil n : ctx_ok [] n
  | ctx_B f c n :
      color (frame_payload f) = black → rb_ok (frame_sib f) n → ctx_ok c (S n) →
      ctx_ok (f :: c) n
  | ctx_R f g c n :
      color (frame_payload f) = red → root_color (frame_sib f) = black →
      rb_ok (frame_sib f) n →
      color (frame_payload g) = black → ctx_ok (g :: c) n → ctx_ok (f :: g :: c) n.

(** A valid red-black tree: black root, valid below. *)
Definition rb_tree (t : rbtree) : Prop := root_color t = black ∧ ∃ n, rb_ok t n.

Ltac colors := unfold red, black in *; congruence.

Lemma rb_color_cases t n : rb_ok t n → root_color t = red ∨ root_color t = black.
Proof. destruct 1; simpl; auto. Qed.

Lemma rb_paint_black t n :
  rb_ok t n → root_color t = red → rb_ok (paint_root black t) (S n).
Proof. intros H Hc. destruct H; simpl in *; [done| |colors]. by constructor. Qed.

Lemma rb_paint_black_root t n : rb_ok t n → rb_tree (paint_root black t).
Proof.
  intros H. destruct H; [split; [done|by exists 0; constructor]|..];
    (split; [done|exists (S n); by constructor]).
Qed.

(** Filling a context whose innermost frame accepts the colour. *)
Lemma plug_ok c t n :
  ctx_ok c n → rb_ok t n →
  (∀ f, head c = Some f → color (frame_payload f) = red → root_color t = black) →
  ∃ m, rb_ok (plug c t) m.
Proof.
  intros Hc. revert t. induction Hc as [n|f c n Hf Hs Hc IH|f g c n Hf Hsc Hs Hg Hc IH]; intros t Ht Hh.
  - by exists n.
  - simpl. apply IH.
    + destruct f; simpl in *; by constructor.
    + intros g Hg _. by destruct f.
  - simpl plug. apply (IH (fill f t)).
    + specialize (Hh f eq_refl Hf). destruct f; simpl in *; by constructor.
    + intros g' [= <-]. rewrite Hg. done.
Qed.

Lemma color_red_dec c : (c =? red)%Z = true ↔ c = red.
Proof. apply Z.eqb_eq. Qed.

(** The fix-up restores the invariants (up to a red root) and keeps the
    in-order sequence of addresses and comparators. *)
Lemma fixup_ok c t n :
  ctx_ok c n → rb_ok t n → root_color t = red → ∃ m, rb_ok (fixup c t) m.
Proof.
  revert t n. induction c as [c IH] using (induction_ltof1 _ length); unfold ltof in IH.
  intros t n Hc Ht Hred. destruct c as [|f [|g c]]; simpl.
  - by exists n.
  - inversion Hc as [|? ? ? Hf Hs _|]; subst. destruct f; simpl in *; exists (S n); by constructor.
  - destruct (Z.eqb_spec (color (frame_payload f)) red) as [Ef|Ef].
    2: { apply (plug_ok (f :: g :: c) t n); [done..|]. intros ? [= <-] ?. done. }
    inversion Hc as [|? ? ? Hf|? ? ? ? _ Hsb Hs Hg Hc']; subst; [colors|].
    inversion Hc' as [|? ? ? _ Hu Hc''|]; subst; [|colors].
    destruct (Z.eqb_spec (root_color (frame_sib g)) red) as [Eu|Eu].
    + assert (rb_ok (paint_root black (fill f t)) (S n)) as Hpar.
      { destruct f; simpl in *; by constructor. }
      pose proof (rb_paint_black _ _ Hu Eu) as Hunc.
      assert (∀ t', root_color (paint_root black t') = black) as Hpb by (by intros []).
      destruct g as [q b u|q b u]; simpl in *; (eapply IH; [simpl; lia|done|by constructor|done]).
    + assert (root_color (frame_sib g) = black) as Hub by (by destruct (rb_color_cases _ _ Hu)).
      assert (∀ t', rb_ok t' (S n) → root_color t' = black → ∃ m, rb_ok (plug c t') m) as Hpl.
      { intros t' Ht' Hb. by apply (plug_ok c t' (S n)). }
      inversion Ht as [|tp ta tl tr ? Hta Htl Htr Hokl Hokr|tp ta tl tr ? Hta]; subst; simpl in *;
        [done| |colors].
      destruct g as [q b u|q b u], f as [p a r|p a l]; simpl in *; apply Hpl; try done;
        (apply rb_B; [done|..]); first [by apply rb_R | by apply rb_R; [..|by apply rb_R] | done].
Qed.

Definition keys (t : rbtree) : list (loc * data_t) := prod_map id comparator <$> nodes t.

Lemma keys_paint c t : keys (paint_root c t) = keys t.
Proof. destruct t; [done|]. unfold keys. simpl. by rewrite !fmap_app. Qed.

Lemma keys_T p a l r : keys (T p a l r) = keys l ++ (p, comparator a) :: keys r.
Proof. unfold keys. simpl. by rewrite fmap_app. Qed.

Lemma keys_plug c t t' : keys t = keys t' → keys (plug c t) = keys (plug c t').
Proof. intros H. unfold keys in *. rewrite !nodes_plug, !fmap_app. by rewrite H. Qed.

Lemma fixup_keys c t : keys (fixup c t) = keys (plug c t).
Proof.
  revert t. induction c as [c IH] using (induction_ltof1 _ length); unfold ltof in IH.
  intros t. destruct c as [|f [|g c]]; [done..|]. cbn [fixup].
  destruct (color (frame_payload f) =? red)%Z; [|done].
  destruct (root_color (frame_sib g) =? red)%Z.
  - destruct g as [q b u|q b u]; (rewrite IH by (simpl; lia)); cbn [plug]; apply keys_plug;
      simpl; rewrite !keys_T, !keys_paint; done.
  - destruct g as [q b u|q b u], f as [p a r|p a l]; cbn [plug fill]; try destruct t as [|n x t1 t2];
      cbn [plug fill]; try done; apply keys_plug; rewrite !keys_T; cbn [paint comparator]; 
      repeat (rewrite <-!app_assoc; cbn [app]); done.
Qed.

Lemma locs_keys t : locs t = (keys t).*1.
Proof. unfold locs, keys. rewrite <-list_fmap_compose. done. Qed.

Lemma payload_keys t : comparator <$> payloads t = (keys t).*2.
Proof. unfold payloads, keys. rewrite <-!list_fmap_compose. done. Qed.

(** ** [balance] implements the fix-up *)

(** [runs m s t t']: started in [s], which holds [t], the program [m] ends
    normally in a state that holds [t'], and touches nothing outside [t]. *)
Definition runs (m : R unit) (s : rbst) (t t' : rbtree) : Prop :=
  ∃ s', m s = (s', Ok tt) ∧ tree_rep s' t' ∧ depth s' = depth s ∧
    ∀ p, p ∉ locs t → theap s' !! p = theap s !! p.

Lemma runs_done s t : tree_rep s t → runs (mret tt) s t t.
Proof. by exists s. Qed.

Lemma runs_get {B} (g : R B) x k s t t' :
  g s = (s, Ok x) → runs (k x) s t t' → runs (mbind' g k) s t t'.
Proof. intros Hg (s' & Hs' & H). exists s'. by rewrite (mbind_ok _ _ _ _ _ Hg). Qed.

Lemma runs_seq m k s t t' t'' :
  runs m s t t' → locs t ≡ₚ locs t' →
  (∀ s', tree_rep s' t' → runs (k tt) s' t' t'') → runs (mbind' m k) s t t''.
Proof.
  intros (s' & Hm & Hrep & Hd & Ho) Hl Hk. destruct (Hk s' Hrep) as (s'' & Hk' & Hrep' & Hd' & Ho').
  exists s''. rewrite (mbind_ok _ _ _ _ _ Hm). split_and!; [done..|congruence|].
  intros p Hp. rewrite Ho', Ho; [done..|]. by rewrite <-Hl.
Qed.

Lemma locs_of_keys t t' : keys t = keys t' → locs t ≡ₚ locs t'.
Proof. intros H. by rewrite !locs_keys, H. Qed.

Lemma runs_recolor s c p a l r k :
  tree_rep s (plug c (T p a l r)) →
  runs (set_color k (Some p)) s (plug c (T p a l r)) (plug c (T p (paint k a) l r)).
Proof.
  intros Hrep. apply rep_plug in Hrep as (Hr & Hc & (Hp & Hl & Hrr) & Hnd).
  pose proof Hnd as Hnd0. rewrite locs_T in Hnd. split_nodup Hnd.
  eexists. split_and!; [by apply set_color_ok|..].
  - apply plug_rep; hcbn.
    + done.
    + apply (ctx_at_ext (theap s)); [|done]. intros. by miss.
    + cbn [tree_at]. split_and!; [apply lookup_insert_eq|..].
      * apply (tree_at_ext (theap s)); [|done]. intros. by miss.
      * apply (tree_at_ext (theap s)); [|done]. intros. by miss.
    + by rewrite locs_T in *.
  - done.
  - intros q Hq. rewrite locs_plug, locs_T in Hq. hcbn. by miss.
Qed.

Lemma runs_rotate_left s c x a l y b m r :
  tree_rep s (plug c (T x a l (T y b m r))) →
  runs (rotate_left (Some x)) s (plug c (T x a l (T y b m r))) (plug c (T y b (T x a l m) r)).
Proof. apply rotate_left_spec. Qed.
Lemma runs_rotate_right s c x a l y b m r :
  tree_rep s (plug c (T y b (T x a l m) r)) →
  runs (rotate_right (Some y)) s (plug c (T y b (T x a l m) r)) (plug c (T x a l (T y b m r))).
Proof. apply rotate_right_spec. Qed.

(** Reading the node at the hole and the frames above it. *)
Lemma hole_lookup (s : rbst) c n x l r :
  tree_rep s (plug c (T n x l r)) → theap s !! n = Some (mkT x (ctx_par c) (rootp l) (rootp r)).
Proof. by intros (_ & _ & (H & _) & _)%rep_plug. Qed.
Lemma frame_lookup (s : rbst) f c t :
  tree_rep s (plug (f :: c) t) →
  theap s !! frame_loc f = Some (frame_node f (ctx_par c) (rootp t)).
Proof. by intros (_ & (H & _) & _ & _)%rep_plug. Qed.
Lemma sib_lookup (s : rbst) f c t p a l r :
  tree_rep s (plug (f :: c) t) → frame_sib f = T p a l r →
  theap s !! p = Some (mkT a (Some (frame_loc f)) (rootp l) (rootp r)).
Proof. intros (_ & (_ & H & _) & _ & _)%rep_plug Hs. rewrite Hs in H. by destruct H. Qed.

Lemma is_red_ok (s : rbst) p n :
  theap s !! p = Some n → is_red (Some p) s = (s, Ok (color (payload n) =? 1)%Z).
Proof. intros H. unfold is_red. by rewrite (mbind_ok _ _ _ _ _ (get_color_ok _ _ _ H)). Qed.

Lemma is_red_tree (s : rbst) par t :
  tree_at (theap s) par t → is_red (rootp t) s = (s, Ok (root_color t =? red)%Z).
Proof.
  destruct t as [|p a l r]; [done|]. intros (H & _). cbn [rootp]. by rewrite (is_red_ok _ _ _ H).
Qed.

(** The sibling of the hole never starts at the address of the hole. *)
Lemma sib_ne (s : rbst) f c n x l r :
  tree_rep s (plug (f :: c) (T n x l r)) → rootp (frame_sib f) ≠ Some n.
Proof.
  intros (_ & _ & _ & Hnd)%rep_plug Hn%rootp_locs. rewrite locs_T in Hnd. cbn [ctx_locs] in Hnd.
  simpl in Hnd. apply NoDup_cons in Hnd as [_ Hnd].
  apply NoDup_app in Hnd as (_ & Hd & _). apply (Hd n); set_solver.
Qed.

(** The loop ends when the parent is missing or not red. *)
Lemma balance_stop fuel s c n x l r :
  tree_rep s (plug c (T n x l r)) →
  (∀ f, head c = Some f → color (frame_payload f) ≠ red) →
  balance_loop (S fuel) (Some n) s = (s, Ok tt).
Proof.
  intros Hrep Hc. cbn [balance_loop].
  rewrite (mbind_ok _ _ _ _ _ (get_parent_ok _ _ _ (hole_lookup _ _ _ _ _ _ Hrep))). cbn [parent].
  destruct c as [|f c]; [done|]. cbn [ctx_par].
  rewrite (mbind_ok _ _ _ _ _ (is_red_ok _ _ _ (frame_lookup _ _ _ _ Hrep))).
  specialize (Hc f eq_refl). replace (color _) with (color (frame_payload f)) by (by destruct f).
  unfold red in Hc. by apply Z.eqb_neq in Hc as ->.
Qed.

(** Recolouring the parent, the grandparent and the uncle of the hole. *)
Definition paint_frame (k : Z) (f : frame RBNode) : frame RBNode :=
  match f with FL p a r => FL p (paint k a) r | FR p a l => FR p (paint k a) l end.
Definition paint_sib (k : Z) (f : frame RBNode) : frame RBNode :=
  match f with FL p a r => FL p a (paint_root k r) | FR p a l => FR p a (paint_root k l) end.

Lemma runs_recolor_frame s f c t k :
  tree_rep s (plug (f :: c) t) →
  runs (set_color k (Some (frame_loc f))) s (plug (f :: c) t) (plug (paint_frame k f :: c) t).
Proof. destruct f; apply runs_recolor. Qed.

Lemma runs_recolor_sib s f c t k p a l r :
  frame_sib f = T p a l r → tree_rep s (plug (f :: c) t) →
  runs (set_color k (Some p)) s (plug (f :: c) t) (plug (paint_sib k f :: c) t).
Proof.
  destruct f as [q b u|q b u]; cbn [frame_sib]; intros ->.
  - apply (runs_recolor s (FR q b t :: c)).
  - apply (runs_recolor s (FL q b t :: c)).
Qed.

Lemma keys_paint_frame k f c t : keys (plug (paint_frame k f :: c) t) = keys (plug (f :: c) t).
Proof. cbn [plug]. apply keys_plug. destruct f; simpl; by rewrite !keys_T. Qed.
Lemma keys_paint_sib k f c t : keys (plug (paint_sib k f :: c) t) = keys (plug (f :: c) t).
Proof. cbn [plug]. apply keys_plug. destruct f; simpl; by rewrite !keys_T, keys_paint. Qed.

(** The last rotation, on a straight path. *)
Lemma runs_final_left fuel s c q b u p a r n x l1 r1 :
  tree_rep s (plug c (T q b (T p a (T n x l1 r1) r) u)) →
  runs (let! par := get_parent (Some n) in
        set_color 0 par;;;
        let! g := get_parent par in
        set_color 1 g;;;
        rotate_right g;;;
        balance_loop (S fuel) (Some n)) s
    (plug c (T q b (T p a (T n x l1 r1) r) u))
    (plug c (T p (paint black a) (T n x l1 r1) (T q (paint red b) r u))).
Proof.
  intros Hrep. set (t := T n x l1 r1) in *.
  eapply runs_get; [exact (get_parent_ok _ _ _ (hole_lookup s (FL p a r :: FL q b u :: c) _ _ _ _ Hrep))|].
  cbn [parent ctx_par frame_loc].
  eapply runs_seq; [apply (runs_recolor s (FL q b u :: c) p a t r), Hrep|..].
  { apply locs_of_keys. cbn [plug]. apply keys_plug. cbn [fill]. by rewrite !keys_T. }
  clear s Hrep. intros s Hrep.
  eapply runs_get; [exact (get_parent_ok _ _ _ (hole_lookup s (FL q b u :: c) _ _ _ _ Hrep))|].
  cbn [parent ctx_par frame_loc].
  eapply runs_seq; [apply (runs_recolor s c q b _ u), Hrep|..].
  { apply locs_of_keys. cbn [plug]. apply keys_plug. cbn [fill]. by rewrite !keys_T. }
  clear s Hrep. intros s Hrep.
  eapply runs_seq; [apply runs_rotate_right, Hrep|..].
  { apply locs_of_keys, keys_plug. rewrite !keys_T. by rewrite <-!app_assoc. }
  clear s Hrep. intros s Hrep. exists s. split_and!; try done.
  eapply (balance_stop _ s (FL p (paint 0 a) (T q (paint 1 b) r u) :: c)); [exact Hrep|].
  by intros ? [= <-].
Qed.

Lemma runs_final_right fuel s c q b u p a l n x l1 r1 :
  tree_rep s (plug c (T q b u (T p a l (T n x l1 r1)))) →
  runs (let! par := get_parent (Some n) in
        set_color 0 par;;;
        let! g := get_parent par in
        set_color 1 g;;;
        rotate_left g;;;
        balance_loop (S fuel) (Some n)) s
    (plug c (T q b u (T p a l (T n x l1 r1))))
    (plug c (T p (paint black a) (T q (paint red b) u l) (T n x l1 r1))).
Proof.
  intros Hrep. set (t := T n x l1 r1) in *.
  eapply runs_get; [exact (get_parent_ok _ _ _ (hole_lookup s (FR p a l :: FR q b u :: c) _ _ _ _ Hrep))|].
  cbn [parent ctx_par frame_loc].
  eapply runs_seq; [apply (runs_recolor s (FR q b u :: c) p a l t), Hrep|..].
  { apply locs_of_keys. cbn [plug]. apply keys_plug. cbn [fill]. by rewrite !keys_T. }
  clear s Hrep. intros s Hrep.
  eapply runs_get; [exact (get_parent_ok _ _ _ (hole_lookup s (FR q b u :: c) _ _ _ _ Hrep))|].
  cbn [parent ctx_par frame_loc].
  eapply runs_seq; [apply (runs_recolor s c q b u), Hrep|..].
  { apply locs_of_keys. cbn [plug]. apply keys_plug. cbn [fill]. by rewrite !keys_T. }
  clear s Hrep. intros s Hrep.
  eapply runs_seq; [apply runs_rotate_left, Hrep|..].
  { apply locs_of_keys, keys_plug. rewrite !keys_T. by rewrite <-!app_assoc. }
  clear s Hrep. intros s Hrep. exists s. split_and!; try done.
  eapply (balance_stop _ s (FR p (paint 0 a) (T q (paint 1 b) u l) :: c)); [exact Hrep|].
  by intros ? [= <-].
Qed.

(** One round of the loop below a red parent, with the side of the parent and
    of the node read off the path. *)
Lemma balance_round fuel s f g c n x l r :
  tree_rep s (plug (f :: g :: c) (T n x l r)) → color (frame_payload f) = red →
  balance_loop (S fuel) (Some n) s =
    (if (root_color (frame_sib g) =? red)%Z then
       set_color 0 (Some (frame_loc f));;; set_color 0 (rootp (frame_sib g));;;
       set_color 1 (Some (frame_loc g));;; balance_loop fuel (Some (frame_loc g))
     else
       let! new_node :=
         (if bool_decide (is_left f ≠ is_left g)
          then (if is_left g then rotate_left (Some (frame_loc f))
                else rotate_right (Some (frame_loc f)));;; mret (Some (frame_loc f))
          else mret (Some n)) in
       let! par := get_parent new_node in
       set_color 0 par;;;
       let! g' := get_parent par in
       set_color 1 g';;;
       (if is_left g then rotate_right g' else rotate_left g');;;
       balance_loop fuel new_node) s.
Proof.
  intros Hrep Hf. pose proof (hole_lookup _ _ _ _ _ _ Hrep) as Hn.
  pose proof (frame_lookup _ _ _ _ Hrep) as Hfl.
  pose proof (frame_lookup s g c (fill f (T n x l r)) Hrep) as Hgl.
  pose proof (sib_ne _ _ _ _ _ _ _ Hrep) as Hnf.
  assert (rootp (frame_sib g) ≠ Some (frame_loc f)) as Hng.
  { destruct f; cbn [frame_loc]; eapply (sib_ne s g c); exact Hrep. }
  assert (tree_at (theap s) (Some (frame_loc g)) (frame_sib g)) as Hu.
  { apply (rep_plug s (g :: c) (fill f (T n x l r))) in Hrep as (_ & (_ & H & _) & _). done. }
  cbn [balance_loop].
  rewrite (mbind_ok _ _ _ _ _ (get_parent_ok _ _ _ Hn)). cbn [parent ctx_par].
  rewrite (mbind_ok _ _ _ _ _ (is_red_ok _ _ _ Hfl)).
  replace (color (payload (frame_node f _ _))) with red by (by destruct f). cbn [negb red Z.eqb Pos.eqb].
  rewrite (mbind_ok _ _ _ _ _ (get_parent_ok _ _ _ Hfl)).
  replace (parent (frame_node f _ _)) with (Some (frame_loc g)) by (by destruct f).
  rewrite (mbind_ok _ _ _ _ _ (get_left_ok _ _ _ Hgl)).
  replace (rootp (fill f _)) with (Some (frame_loc f)) in * by (by destruct f).
  assert (bool_decide (Some (frame_loc f) = left (frame_node g (ctx_par c) (Some (frame_loc f)))) = is_left g) as ->.
  { destruct g; [by apply bool_decide_eq_true|]. apply bool_decide_eq_false. cbn in *. congruence. }
  assert ((if is_left g then get_right (Some (frame_loc g)) else get_left (Some (frame_loc g))) s
          = (s, Ok (rootp (frame_sib g)))) as Hunc.
  { destruct g; cbn [is_left];
      rewrite ?(get_left_ok _ _ _ Hgl), ?(get_right_ok _ _ _ Hgl); done. }
  rewrite (mbind_ok _ _ _ _ _ Hunc), (mbind_ok _ _ _ _ _ (is_red_tree _ _ _ Hu)).
  destruct (root_color (frame_sib g) =? red)%Z; [done|].
  assert (∃ i, (if is_left g then get_right (Some (frame_loc f)) else get_left (Some (frame_loc f))) s
          = (s, Ok i) ∧ (Some n = i ↔ is_left f ≠ is_left g)) as (i & Hi & Hiff).
  { destruct g, f; cbn [is_left frame_loc frame_node frame_sib rootp] in *;
      rewrite ?(get_left_ok _ _ _ Hfl), ?(get_right_ok _ _ _ Hfl); eexists; (split; [done|]);
      cbn [left right]; naive_solver congruence. }
  rewrite (mbind_ok _ _ _ _ _ Hi).
  destruct (decide (Some n = i)) as [E|E].
  - rewrite (bool_decide_eq_true_2 (is_left f ≠ is_left g)) by tauto. done.
  - rewrite (bool_decide_eq_false_2 (is_left f ≠ is_left g)) by tauto. done.
Qed.

Lemma runs_ext m m' s t t' : m s = m' s → runs m' s t t' → runs m s t t'.
Proof. intros H (s' & H' & ?). exists s'. by rewrite H. Qed.

(** The two shapes of the rotation cases: the node continues the direction of
    its parent, or is first rotated into that position. *)
Lemma runs_straight fuel s f g c n x l r :
  is_left f = is_left g → tree_rep s (plug (f :: g :: c) (T n x l r)) →
  runs (let! par := get_parent (Some n) in
        set_color 0 par;;;
        let! g' := get_parent par in
        set_color 1 g';;;
        (if is_left g then rotate_right g' else rotate_left g');;;
        balance_loop (S fuel) (Some n)) s (plug (f :: g :: c) (T n x l r))
    (match g, f with
     | FL q b u, FL p a r' | FL q b u, FR p a r' =>
         plug c (T p (paint black a) (T n x l r) (T q (paint red b) r' u))
     | FR q b u, FR p a l' | FR q b u, FL p a l' =>
         plug c (T p (paint black a) (T q (paint red b) u l') (T n x l r))
     end).
Proof.
  destruct f, g; intros [=] Hrep; [apply (runs_final_left _ s c)|apply (runs_final_right _ s c)];
    exact Hrep.
Qed.

Lemma runs_bent fuel s f g c n x l r :
  is_left f ≠ is_left g → tree_rep s (plug (f :: g :: c) (T n x l r)) →
  runs ((if is_left g then rotate_left (Some (frame_loc f)) else rotate_right (Some (frame_loc f)));;;
        let! par := get_parent (Some (frame_loc f)) in
        set_color 0 par;;;
        let! g' := get_parent par in
        set_color 1 g';;;
        (if is_left g then rotate_right g' else rotate_left g');;;
        balance_loop (S fuel) (Some (frame_loc f))) s (plug (f :: g :: c) (T n x l r))
    (match g, f with
     | FL q b u, FR p a l' | FL q b u, FL p a l' =>
         plug c (T n (paint black x) (T p a l' l) (T q (paint red b) r u))
     | FR q b u, FL p a r' | FR q b u, FR p a r' =>
         plug c (T n (paint black x) (T q (paint red b) u l) (T p a r r'))
     end).
Proof.
  destruct f as [p a w|p a w], g as [q b u|q b u]; intros Hne Hrep; try done;
    cbn [is_left frame_loc].
  - eapply runs_seq; [apply (runs_rotate_right s (FR q b u :: c)), Hrep|..].
    { apply locs_of_keys. cbn [plug]. apply keys_plug. cbn [fill]. rewrite !keys_T.
      by repeat (rewrite <-?app_assoc; cbn [app]). }
    intros s' Hrep'. apply (runs_final_right _ s' c), Hrep'.
  - eapply runs_seq; [apply (runs_rotate_left s (FL q b u :: c)), Hrep|..].
    { apply locs_of_keys. cbn [plug]. apply keys_plug. cbn [fill]. rewrite !keys_T.
      by repeat (rewrite <-?app_assoc; cbn [app]). }
    intros s' Hrep'. apply (runs_final_left _ s' c), Hrep'.
Qed.

(** The recolouring case. *)
Lemma runs_red_uncle k s f g c t t'' :
  root_color (frame_sib g) = red → tree_rep s (plug (f :: g :: c) t) →
  (∀ s', tree_rep s' (plug (paint_frame black f :: paint_frame red (paint_sib black g) :: c) t) →
     runs k s' (plug (paint_frame black f :: paint_frame red (paint_sib black g) :: c) t) t'') →
  runs (set_color 0 (Some (frame_loc f));;; set_color 0 (rootp (frame_sib g));;;
        set_color 1 (Some (frame_loc g));;; k) s (plug (f :: g :: c) t) t''.
Proof.
  intros Hu Hrep Hk. eapply runs_seq; [apply runs_recolor_frame, Hrep|..].
  { apply locs_of_keys. by rewrite keys_paint_frame. }
  clear s Hrep. intros s Hrep. destruct (frame_sib g) as [|up ua ul ur] eqn:Eg; [done|].
  eapply runs_seq; [exact (runs_recolor_sib s g c (fill (paint_frame 0 f) t) 0 _ _ _ _ Eg Hrep)|..].
  { apply locs_of_keys. symmetry. apply (keys_paint_sib 0 g c). }
  clear s Hrep. intros s Hrep.
  assert (frame_loc g = frame_loc (paint_sib 0 g)) as -> by (by destruct g).
  eapply runs_seq; [exact (runs_recolor_frame s _ c (fill (paint_frame 0 f) t) 1 Hrep)|..].
  { apply locs_of_keys. symmetry. apply (keys_paint_frame 1 _ c). }
  exact Hk.
Qed.

Lemma runs_balance_loop fuel s c n x l r m :
  ctx_ok c m → length c < fuel → tree_rep s (plug c (T n x l r)) →
  runs (balance_loop fuel (Some n)) s (plug c (T n x l r)) (fixup c (T n x l r)).
Proof.
  revert fuel s n x l r m. induction c as [c IH] using (induction_ltof1 _ length); unfold ltof in IH.
  intros fuel s n x l r m Hc Hlen Hrep. destruct fuel as [|fuel]; [lia|].
  assert ((∀ f, head c = Some f → color (frame_payload f) ≠ red) →
          runs (balance_loop (S fuel) (Some n)) s (plug c (T n x l r)) (plug c (T n x l r))) as Hstop.
  { intros Hh. exists s. split_and!; [by eapply balance_stop|done..]. }
  destruct c as [|f [|g c]].
  - by apply Hstop.
  - apply Hstop. intros ? [= <-]. inversion Hc; subst. colors.
  - cbn [fixup]. destruct (Z.eqb_spec (color (frame_payload f)) red) as [Ef|Ef].
    2: { apply Hstop. by intros ? [= <-]. }
    inversion Hc as [|? ? ? Hf|? ? ? ? _ Hsb Hs Hg Hc']; subst; [colors|].
    inversion Hc' as [|? ? ? _ Hu Hc''|]; subst; [|colors].
    eapply runs_ext; [exact (balance_round fuel _ _ _ _ _ _ _ _ Hrep Ef)|].
    destruct (Z.eqb_spec (root_color (frame_sib g)) red) as [Eu|Eu].
    + apply runs_red_uncle; [done..|]. simpl in Hlen. intros s' Hrep'.
      destruct g as [q b u|q b u], f as [p a w|p a w]; simpl in Hrep' |- *;
        (eapply (IH c); [simpl; lia|done|lia|exact Hrep']).
    + simpl in Hlen. destruct fuel as [|fuel]; [lia|]. case_bool_decide as Hside.
      * pose proof (runs_bent fuel s f g c n x l r Hside Hrep) as H.
        destruct g, f; try done; (eapply runs_ext; [apply mbind_assoc|exact H]).
      * pose proof (runs_straight fuel s f g c n x l r Hside Hrep) as H.
        destruct g, f; try done; exact H.
Qed.

(** ** Insertion *)

Definition new_color (c : list (frame RBNode)) : Z := match c with [] => black | _ => red end.

Lemma link_new_spec s c n nd q :
  theap s !! n = Some nd → n ∉ ctx_locs c → NoDup (ctx_locs c) →
  root s = ctx_root c q → ctx_at (theap s) q c →
  (∀ f, head c = Some f → rb_lt (payload nd) (frame_payload f) = is_left f) →
  ∃ s', link_new (ctx_par c) (Some n) s = (s', Ok tt) ∧
    tree_rep s' (plug c (T n (paint (new_color c) (payload nd)) E E)) ∧ depth s' = depth s ∧
    (∀ p, p ∉ n :: ctx_locs c → theap s' !! p = theap s !! p).
Proof.
  intros Hn Hnc Hnd Hr Hc Hside. destruct c as [|f c]; cbn [ctx_par link_new].
  - erewrite mbind_ok by reflexivity. erewrite mbind_ok by (by apply set_color_ok). hcbn.
    erewrite link_root_spec by (hcbn; apply lookup_insert_eq). hcbn.
    eexists. split; [reflexivity|]. rewrite insert_insert_eq. split_and!; [|done|].
    + split; cbn; [done| |by apply NoDup_singleton]. by rewrite lookup_insert_eq.
    + intros p Hp. hcbn. rewrite lookup_insert_ne; [done|]. intros ->. apply Hp. left.
  - cbn [frame_loc]. assert (frame_loc f ≠ n) by (intros <-; apply Hnc; left).
    erewrite mbind_ok by (by apply set_color_ok). hcbn.
    destruct Hc as (Hf & Hsib & Hc). simpl in Hnc. set (h := <[n := recolor 1 nd]> (theap s)).
    assert (ctx_at h q (f :: c)) as Hch.
    { apply (ctx_at_ext (theap s)); [|done]. intros p Hp. unfold h. rewrite lookup_insert_ne; [done|].
      intros <-. done. }
    rewrite (link_child_spec rb_lt (set_theap h s) n (recolor 1 nd) f c q);
      [|hcbn; apply lookup_insert_eq|done|apply Hch|by apply Hside].
    eexists. split; [reflexivity|]. split_and!; [|done|].
    + apply (linked_rep (set_theap h s) n _ f c q); done.
    + intros p Hp. cbn. rewrite linked_heap_ne by (intros ->; apply Hp; simpl; set_solver).
      unfold h. rewrite lookup_insert_ne; [done|]. intros ->. apply Hp. left.
Qed.

Lemma descend_ok a c t m :
  rb_ok t m → ctx_ok c m →
  (root_color t = red → ∃ g c', c = g :: c' ∧ color (frame_payload g) = black) →
  ctx_ok (descend rb_lt a c t) 0.
Proof.
  intros Ht. revert c. induction Ht as [|p b l r m Hb Hl Hr Hokl IHl Hokr IHr
    |p b l r m Hb Hokl IHl Hokr IHr]; intros c Hc Hg; simpl; [done|..].
  - destruct (Hg Hb) as (g & c' & -> & Hgb).
    destruct (rb_lt a b); [apply IHl|apply IHr]; try (by apply ctx_R); intros; colors.
  - destruct (rb_lt a b); [apply IHl|apply IHr]; try (by apply ctx_B); intros; eauto.
Qed.

Lemma length_ctx_locs (c : list (frame RBNode)) : length c ≤ length (ctx_locs c).
Proof. induction c as [|f c IH]; simpl; [lia|]. rewrite length_app. lia. Qed.

(** The tree after inserting address [n] with payload [a]. *)
Definition rb_ins (n : loc) (a : RBNode) (t : rbtree) : rbtree :=
  paint_root black (fixup (descend rb_lt a [] t) (T n (paint red a) E E)).

Lemma root_run s t k :
  tree_rep s t → t ≠ E → runs (let! s := mget in set_color k (root s)) s t (paint_root k t).
Proof.
  intros H Ht. destruct t as [|p a l r]; [done|].
  eapply runs_ext; [apply (mbind_ok _ _ _ _ _ eq_refl : mbind' mget _ _ = _)|].
  rewrite (rep_root _ _ H). by apply (runs_recolor s []).
Qed.

Lemma keys_not_E t t' : keys t = keys t' → t' ≠ E → t ≠ E.
Proof. intros H Ht ->. destruct t'; [done|]. rewrite keys_T in H. by destruct (keys t'1). Qed.

Lemma plug_not_E c (t : rbtree) : t ≠ E → plug c t ≠ E.
Proof. revert t. induction c as [|[] c IH]; intros t Ht; simpl; [done|by apply IH..]. Qed.

Lemma keys_repaint c k n a : keys (plug c (T n (paint k a) E E)) = keys (plug c (T n a E E)).
Proof. apply keys_plug. by rewrite !keys_T. Qed.

(** [balance] re-links the node and repairs the tree. *)
Lemma balance_spec s c n a :
  tree_rep s (plug c (T n a E E)) → ctx_ok c 0 →
  (∀ f, head c = Some f → rb_lt a (frame_payload f) = is_left f) →
  runs (balance (ctx_par c) (Some n)) s (plug c (T n a E E))
    (paint_root black (fixup c (T n (paint red a) E E))).
Proof.
  intros Hrep Hok Hside. pose proof Hrep as (Hr & Hc & (Hn & _) & Hnd)%rep_plug.
  change (locs (T n a E E)) with [n] in Hnd.
  apply NoDup_app in Hnd as (Hndc & Hdis & _).
  destruct (link_new_spec s c n _ (Some n) Hn) as (s1 & Hlink & Hrep1 & Hd1 & Ho1);
    [intros ?; by apply (Hdis n); [|left]|done..|].
  cbn [payload] in Hrep1. unfold balance.
  apply runs_seq with (t' := plug c (T n (paint (new_color c) a) E E)).
  { exists s1. split_and!; [done..|]. intros p Hp. apply Ho1. rewrite locs_plug in Hp.
    change (locs (T n a E E)) with [n] in Hp. set_solver. }
  { apply locs_of_keys. by rewrite keys_repaint. }
  clear s Hrep Hr Hc Hn Hlink Hd1 Ho1. clear s1 Hrep1. intros s Hrep.
  eapply runs_ext; [apply (mbind_ok _ _ _ _ _ eq_refl : mbind' mget _ _ = _)|].
  assert (paint_root black (fixup c (T n (paint red a) E E))
    = paint_root black (fixup c (T n (paint (new_color c) a) E E))) as -> by (by destruct c).
  eapply runs_seq; [eapply (runs_balance_loop _ _ _ _ _ _ _ 0 Hok); [|exact Hrep]|..].
  - pose proof (length_ctx_locs c). destruct Hrep as [_ Hat Hl].
    assert (length (locs (plug c (T n (paint (new_color c) a) E E))) ≤ base.size (theap s)) as Hsz.
    { rewrite <-size_dom, <-(size_list_to_set (C:=gset loc)) by done.
      apply subseteq_size. intros p Hp%elem_of_list_to_set. apply elem_of_dom. by eapply tree_at_elem. }
    rewrite locs_plug, length_app in Hsz. lia.
  - apply locs_of_keys. by rewrite fixup_keys.
  - intros s' Hrep'. apply root_run; [done|].
    eapply keys_not_E; [apply fixup_keys|]. by apply plug_not_E.
Qed.

Lemma rb_insert_spec s t n nd :
  tree_rep s t → rb_tree t → theap s !! n = Some nd → n ∉ locs t →
  ∃ s', insert (Some n) s = (s', Ok tt) ∧ tree_rep s' (rb_ins n (payload nd) t) ∧
    depth s' = depth s ∧ (∀ p, p ∉ n :: locs t → theap s' !! p = theap s !! p).
Proof.
  intros Hrep [Hblack [m Hok]] Hn Hnt.
  pose proof (BinaryTree.rep_height _ _ Hrep) as Hh.
  unfold insert. rewrite (mbind_ok _ _ _ _ _ eq_refl : mbind' mget _ s = _), (rep_root _ _ Hrep).
  rewrite (mbind_ok _ _ _ _ _ (find_parent_spec rb_lt _ s n nd [] t Hn (rep_at _ _ Hrep) (le_n_S _ _ Hh))).
  unfold rb_ins. pose proof (descend_side rb_lt (payload nd) [] t) as Hside.
  pose proof (descend_ok (payload nd) [] t m Hok (ctx_nil m)) as Hcok.
  pose proof (plug_descend rb_lt (payload nd) [] t) as Hpl. cbn [plug] in Hpl.
  set (c := descend rb_lt (payload nd) [] t) in *. clearbody c. subst t.
  apply rep_plug in Hrep as (Hr & Hc & _ & Hnd). rewrite app_nil_r in Hnd.
  rewrite locs_plug, app_nil_r in Hnt.
  destruct (link_new_spec s c n nd None) as (s1 & Hl1 & Hrep1 & Hd1 & Ho1); try done.
  { by apply Hside. }
  destruct (balance_spec s1 c n _ Hrep1) as (s2 & Hb & Hrep2 & Hd2 & Ho2).
  { apply Hcok. intros; colors. }
  { by apply Hside. }
  exists s2. rewrite (mbind_ok _ _ _ _ _ Hl1). split_and!; [done|done|congruence|].
  intros p Hp. rewrite locs_plug, app_nil_r in Hp. rewrite Ho2, Ho1; [done|done|].
  rewrite locs_plug. change (locs (T n _ E E)) with [n]. set_solver.
Qed.

(** *** What the inserted tree is *)

Lemma rb_ins_keys n a t : keys (rb_ins n a t) = keys (BinaryTree.ins_tree comparator n a t).
Proof. unfold rb_ins. by rewrite keys_paint, fixup_keys, keys_repaint. Qed.

Lemma rb_ins_valid n a t : rb_tree t → rb_tree (rb_ins n a t).
Proof.
  intros [Hblack [m Hok]]. unfold rb_ins.
  destruct (fixup_ok (descend rb_lt a [] t) (T n (paint red a) E E) 0) as [k Hk].
  - apply (descend_ok a [] t m); [done|constructor|intros; colors].
  - apply rb_R; [done..|constructor|constructor].
  - done.
  - by apply rb_paint_black_root in Hk.
Qed.

Definition cmps (t : rbtree) : list data_t := comparator <$> payloads t.

(** Sortedness depends on the comparators only. *)
Definition sorted_tree (t : rbtree) : Prop := Forall (λ x, ordered x) (cmps t) ∧ StronglySorted fle (cmps t).

Lemma sorted_tree_bst t : sorted_tree t ↔ BinaryTree.bst comparator t.
Proof.
  unfold sorted_tree, BinaryTree.bst, cmps. rewrite Forall_fmap, StronglySorted_fmap_iff. done.
Qed.

Lemma cmps_keys t : cmps t = (keys t).*2.
Proof. apply payload_keys. Qed.

Lemma rb_ins_sorted n a t : sorted_tree t → ordered (comparator a) → sorted_tree (rb_ins n a t).
Proof.
  intros Ht Ha. unfold sorted_tree. rewrite cmps_keys, rb_ins_keys, <-cmps_keys.
  apply sorted_tree_bst. apply BinaryTree.ins_tree_bst; [by apply sorted_tree_bst|done].
Qed.

Lemma ins_by_fmap {B C} (g : B → C) ltb ltc x l :
  (∀ y, ltc (g x) (g y) = ltb x y) → g <$> ins_by ltb x l = ins_by ltc (g x) (g <$> l).
Proof.
  intros H. induction l as [|y l IH]; [done|]. rewrite fmap_cons. cbn [ins_by]. rewrite H.
  destruct (ltb x y); rewrite !fmap_cons, ?IH; done.
Qed.

Lemma rb_ins_cmps n a t :
  sorted_tree t → ordered (comparator a) →
  cmps (rb_ins n a t) = ins_by flt (comparator a) (cmps t).
Proof.
  intros Ht Ha. rewrite cmps_keys, rb_ins_keys, <-cmps_keys. unfold cmps.
  rewrite BinaryTree.ins_tree_payloads; [|by apply sorted_tree_bst|done].
  by apply ins_by_fmap.
Qed.

Lemma rb_ins_elements n a t : keys (rb_ins n a t) ≡ₚ (n, comparator a) :: keys t.
Proof.
  rewrite rb_ins_keys. unfold BinaryTree.ins_tree, keys. rewrite nodes_plug.
  rewrite <-(plug_descend rb_lt a [] t : _ = t) at 3. rewrite nodes_plug. simpl.
  rewrite !fmap_app. simpl. by rewrite <-Permutation_middle.
Qed.

Lemma rb_ins_locs n a t : locs (rb_ins n a t) ≡ₚ n :: locs t.
Proof. rewrite !locs_keys. by rewrite rb_ins_elements. Qed.

(** *** Balance *)

Lemma rb_height t m :
  rb_ok t m →
  height t ≤ 2 * m + (if (root_color t =? red)%Z then 1 else 0) ∧ 2 ^ m ≤ S (length (locs t)).
Proof.
  induction 1 as [|p a l r m Ha Hl Hr Hokl [IHl1 IHl2] Hokr [IHr1 IHr2]
    |p a l r m Ha Hokl [IHl1 IHl2] Hokr [IHr1 IHr2]];
    cbn [height root_color]; rewrite ?locs_T, ?length_app; cbn [length]; [split; vm_compute; lia|..].
  - rewrite Ha. rewrite Hl, Hr in *. cbn in *. lia.
  - rewrite Ha. cbn [Nat.pow]. change (black =? red)%Z with false. cbn iota.
    assert (∀ u, (if (root_color u =? red)%Z then 1 else 0) ≤ 1) as Hle
      by (intros u; destruct (root_color u =? red)%Z; lia).
    pose proof (Hle l). pose proof (Hle r). lia.
Qed.

Lemma rb_tree_height t : rb_tree t → height t ≤ 2 * Nat.log2 (S (length (locs t))).
Proof.
  intros [Hb [m Hm]]. destruct (rb_height t m Hm) as [H1 H2]. rewrite Hb in H1.
  change (black =? red)%Z with false in H1. cbn iota in H1.
  apply Nat.log2_le_mono in H2. rewrite Nat.log2_pow2 in H2 by lia. lia.
Qed.

(** ** Search *)

Lemma search_loop_spec fuel s shell par t :
  tree_at (theap s) par t → height t < fuel →
  search_loop fuel shell (rootp t) s = (s, Ok (BinaryTree.search comparator shell t)).
Proof.
  revert par t. induction fuel as [|fuel IH]; intros par [|p b l r] Hat Hf;
    cbn [search_loop rootp BinaryTree.search height] in *; [lia|lia|done|].
  destruct Hat as (Hp & Hl & Hr). rewrite (mbind_ok _ _ _ _ _ (tload_ok _ _ _ Hp)).
  cbn [payload left right]. unfold rb_gt, rb_lt, BinaryTree.node_gt, BinaryTree.node_lt.
  destruct (fgt (comparator b) (comparator shell)); [by apply (IH (Some p)); [|lia]|].
  destruct (flt (comparator b) (comparator shell)); [by apply (IH (Some p)); [|lia]|done].
Qed.

Lemma rb_find_spec s shell t :
  tree_rep s t →
  find shell s = (s, match BinaryTree.search comparator shell t with
                     | Some p => Ok (Some p)
                     | None => Throw (runtime_error "node not found")
                     end).
Proof.
  intros H. unfold find. rewrite (mbind_ok _ _ _ _ _ eq_refl : mbind' mget _ _ = _), (rep_root _ _ H).
  pose proof (BinaryTree.rep_height _ _ H) as Hh.
  rewrite (mbind_ok _ _ _ _ _ (search_loop_spec _ s shell None t (rep_at _ _ H) (le_n_S _ _ Hh))).
  by destruct (BinaryTree.search _ _ _).
Qed.

(** ** Sequences of insertions *)

Lemma rb_insert_all_spec s t ns ps :
  tree_rep s t → rb_tree t → sorted_tree t →
  Forall2 (λ n a, (comparator ∘ payload <$> theap s !! n) = Some a) ns ps →
  NoDup (ns ++ locs t) → Forall (λ x, ordered x) ps →
  ∃ s' t', insert_all ns s = (s', Ok tt) ∧ tree_rep s' t' ∧ rb_tree t' ∧ sorted_tree t' ∧
    keys t' ≡ₚ zip ns ps ++ keys t ∧ cmps t' = fold_left (λ l a, ins_by flt a l) ps (cmps t).
Proof.
  intros Hrep Hrb Hst Hns. revert s t Hrep Hrb Hst Hns. revert ps.
  induction ns as [|n ns IH]; intros ps s t Hrep Hrb Hst Hns Hnd Ho.
  { apply Forall2_nil_inv_l in Hns as ->. by exists s, t. }
  apply Forall2_cons_inv_l in Hns as (a & ps' & Hn & Hns & ->). simpl in Hnd.
  apply NoDup_cons in Hnd as [Hnl Hnd]. apply Forall_cons in Ho as [Ha Ho].
  destruct (theap s !! n) as [nd|] eqn:En; [|done]. injection Hn as <-.
  destruct (rb_insert_spec s t n nd Hrep Hrb En) as (s1 & Hrun & Hrep1 & _ & Hout); [set_solver|].
  destruct (IH ps' s1 (rb_ins n (payload nd) t)) as (s2 & t2 & Hrun2 & Hrep2 & Hrb2 & Hst2 & Hk & Hcm).
  - done.
  - by apply rb_ins_valid.
  - by apply rb_ins_sorted.
  - apply Forall2_same_length_lookup. split; [exact (Forall2_length _ _ _ Hns)|].
    intros i x b Hx Hb. rewrite Hout.
    + by eapply (Forall2_lookup_lr _ _ _ _ _ _ Hns).
    + apply list_elem_of_lookup_2 in Hx. apply NoDup_app in Hnd as (_&Hnd&_).
      specialize (Hnd x Hx). set_solver.
  - rewrite rb_ins_locs, <-Permutation_middle. by apply NoDup_cons.
  - done.
  - exists s2, t2. simpl. rewrite (mbind_ok _ _ _ _ _ Hrun). split_and!; [done..| |].
    + rewrite Hk, rb_ins_elements. by rewrite Permutation_middle.
    + rewrite Hcm, rb_ins_cmps by done. done.
Qed.

(** ** Deletion of a node with at most one child *)

Lemma transplant_spec s c p a l r sub :
  tree_rep s (plug c (T p a l r)) → sub = l ∨ sub = r →
  ∃ s', transplant (Some p) (rootp sub) s = (s', Ok tt) ∧ tree_rep s' (plug c sub) ∧
    is_Some (theap s' !! p) ∧ p ∉ locs (plug c sub).
Proof.
  intros Hrep Hsub. apply rep_plug in Hrep as (Hr & Hc & (Hp & Hl & Hrr) & Hnd).
  rewrite locs_T in Hnd. split_nodup Hnd.
  assert (tree_at (theap s) (Some p) sub) as Hat by (by destruct Hsub; subst).
  assert (NoDup (ctx_locs c ++ locs sub)) as Hnds.
  { apply NoDup_app. destruct Hsub; subst; (split_and!; [done|set_solver|done]). }
  assert (p ∉ locs sub ∧ p ∉ ctx_locs c) as [Hps Hpc] by (destruct Hsub; subst; set_solver).
  set (h := reparent sub (ctx_par c) (theap s)).
  assert (theap (swap_child c (rootp sub) s) !! p = Some (mkT a (ctx_par c) (rootp l) (rootp r))) as Hp1.
  { destruct s as [sr sd sh]. by rewrite (swap_child_lookup (mkTree sr sd sh) c (rootp sub) sh). }
  exists (swap_child c (rootp sub) (set_theap h s)). split_and!.
  - unfold transplant.
    erewrite mbind_ok by (by eapply (replace_child_spec s c p)).
    destruct sub as [|q b sl sr]; cbn [rootp]; [by destruct s|].
    rewrite (mbind_ok _ _ _ _ _ (get_parent_ok _ _ _ Hp1)). cbn [parent].
    assert (q ∉ ctx_locs c) as Hqc.
    { rewrite locs_T in Hnds. apply NoDup_app in Hnds as (_ & Hd' & _). set_solver. }
    destruct Hat as [Hq _]. destruct s as [sr0 sd sh].
    erewrite tupd_ok by (rewrite (swap_child_lookup (mkTree sr0 sd sh) c (Some q) sh) by done; exact Hq).
    f_equal. apply (swap_child_insert (mkTree sr0 sd sh) c (Some q) sh). done.
  - apply swap_child_rep with (Some p); hcbn; [done| |done|].
    + apply (ctx_at_ext (theap s)); [|done]. intros q Hq. unfold h.
      apply NoDup_app in Hnds as (_ & Hd' & _). apply reparent_ne. by apply Hd'.
    + apply reparent_at with (Some p); [done|]. by apply NoDup_app in Hnds as (_ & _ & ?).
  - rewrite swap_child_lookup by done. unfold h. rewrite reparent_ne by done. by rewrite Hp.
  - rewrite locs_plug. set_solver.
Qed.

Lemma free_rep (s : rbst) t p :
  tree_rep s t → p ∉ locs t → tree_rep (set_theap (delete p (theap s)) s) t.
Proof.
  intros [Hr Ha Hn] Hp. split; [done| |done]. apply (tree_at_ext (theap s)); [|done].
  intros q Hq. cbn. rewrite lookup_delete_ne; [done|]. by intros ->.
Qed.

Lemma delete_loop_null fuel s t :
  tree_rep s t →
  delete_loop (S fuel) None s = (s, match t with E => Ok tt | T _ _ _ _ => Throw Segfault end).
Proof.
  intros [Hr _ _]. cbn [delete_loop]. rewrite (mbind_ok _ _ _ _ _ eq_refl : mbind' mget _ _ = _), Hr.
  by destruct t.
Qed.

Lemma delete_one_child fuel s c p a l r shell sub :
  tree_rep s (plug c (T p a l r)) → height (plug c (T p a l r)) < fuel →
  BinaryTree.search comparator shell (plug c (T p a l r)) = Some p →
  feq (comparator a) (comparator shell) = true →
  (l = E ∧ sub = r ∨ r = E ∧ sub = l) →
  ∃ s', _delete fuel shell s
          = (s', match plug c sub with E => Ok tt | T _ _ _ _ => Throw Segfault end) ∧
    tree_rep s' (plug c sub) ∧ theap s' !! p = None.
Proof.
  intros Hrep Hfuel Hsearch Heq Hsub. unfold _delete.
  rewrite (mbind_ok _ _ _ _ _ eq_refl : mbind' mget _ _ = _), (rep_root _ _ Hrep).
  rewrite (mbind_ok _ _ _ _ _ (search_loop_spec _ s shell None _ (rep_at _ _ Hrep) Hfuel)), Hsearch.
  pose proof (hole_lookup _ _ _ _ _ _ Hrep) as Hp.
  rewrite (mbind_ok _ _ _ _ _ (tload_ok _ _ _ Hp)). cbn [payload]. unfold rb_ne. rewrite Heq. cbn [negb].
  destruct (transplant_spec s c p a l r sub Hrep) as (s1 & Ht & Hrep1 & [n1 Hn1] & Hpl); [tauto|].
  assert (unlink fuel (Some p) s = (s1, Ok (None, 0%Z))) as Hun.
  { unfold unlink. rewrite (mbind_ok _ _ _ _ _ (tload_ok _ _ _ Hp)). cbn [left right].
    destruct Hsub as [[-> ->]|[-> ->]]; cbn [rootp].
    - by rewrite (mbind_ok _ _ _ _ _ Ht).
    - destruct l as [|lp la ll lr]; cbn [rootp] in *; by rewrite (mbind_ok _ _ _ _ _ Ht). }
  rewrite (mbind_ok _ _ _ _ _ Hun), (mbind_ok _ _ _ _ _ (tfree_ok _ _ _ Hn1)). cbn [snd fst].
  destruct fuel as [|fuel]; [lia|].
  eexists. split; [by eapply delete_loop_null, free_rep|]. split; [by apply free_rep|].
  cbn. apply lookup_delete_eq.
Qed.

(** ** [insert_at] loops *)

(** The two shapes between which the node alternates. *)
Definition self_loop (s : rbst) (p : loc) : Prop :=
  ∃ a, color a = 1%Z ∧
    (theap s !! p = Some (mkT a (Some p) None (Some p)) ∨
     theap s !! p = Some (mkT a (Some p) (Some p) None)).

(** Runs the next read or write at the one address in question. *)
Ltac self_step :=
  first
    [ rewrite mbind_assoc; self_step
    | erewrite mbind_ok by (first [apply get_parent_ok | apply get_left_ok | apply get_right_ok
        | apply is_red_ok | apply set_color_ok | apply tupd_ok];
        hcbn; first [eassumption | apply lookup_insert_eq]); hcbn; rewrite ?insert_insert_eq
    | erewrite mbind_ok by reflexivity ];
  repeat first [rewrite decide_True by done | rewrite decide_False by done
    | rewrite bool_decide_true by done | rewrite bool_decide_false by done]; cbn [negb].

Lemma rotate_left_self s p a :
  theap s !! p = Some (mkT a (Some p) None (Some p)) →
  rotate_left (Some p) s = (set_theap (<[p := mkT a (Some p) (Some p) None]> (theap s)) s, Ok tt).
Proof.
  intros Hp. unfold rotate_left, replace_child. do 11 self_step.
  erewrite tupd_ok by (hcbn; apply lookup_insert_eq). hcbn. rewrite ?insert_insert_eq. done.
Qed.
Lemma rotate_right_self s p a :
  theap s !! p = Some (mkT a (Some p) (Some p) None) →
  rotate_right (Some p) s = (set_theap (<[p := mkT a (Some p) None (Some p)]> (theap s)) s, Ok tt).
Proof.
  intros Hp. unfold rotate_right, replace_child. do 11 self_step.
  erewrite tupd_ok by (hcbn; apply lookup_insert_eq). hcbn. rewrite ?insert_insert_eq. done.
Qed.

Lemma self_loop_round fuel s p :
  self_loop s p → ∃ s', balance_loop (S fuel) (Some p) s = balance_loop fuel (Some p) s' ∧ self_loop s' p.
Proof.
  intros (a & Ha & [Hp|Hp]); cbn [balance_loop].
  - do 2 self_step. rewrite Ha. cbn [Z.eqb Pos.eqb negb]. do 3 self_step.
    do 6 self_step.
    self_step. erewrite mbind_ok by (apply rotate_left_self; hcbn; apply lookup_insert_eq).
    eexists. split; [reflexivity|]. eexists. split; [|right; hcbn; apply lookup_insert_eq]. done.
  - do 2 self_step. rewrite Ha. cbn [Z.eqb Pos.eqb negb]. do 9 self_step.
    self_step. erewrite mbind_ok by (apply rotate_right_self; hcbn; apply lookup_insert_eq).
    eexists. split; [reflexivity|]. eexists. split; [|left; hcbn; apply lookup_insert_eq]. done.
Qed.

Lemma self_loop_diverges fuel s p : self_loop s p → (balance_loop fuel (Some p) s).2 = Throw OutOfFuel.
Proof.
  revert s. induction fuel as [|fuel IH]; intros s Hs; [done|].
  destruct (self_loop_round fuel s p Hs) as (s' & -> & Hs'). by apply IH.
Qed.

(** [balance] with the node as its own parent. *)
Lemma link_self s p nd :
  theap s !! p = Some nd →
  ∃ s', link_new (Some p) (Some p) s = (s', Ok tt) ∧ self_loop s' p.
Proof.
  intros Hp. unfold link_new, link_child. do 4 self_step.
  do 2 (erewrite mbind_ok by (apply tload_ok; hcbn; apply lookup_insert_eq)). hcbn.
  unfold rb_lt. rewrite flt_irrefl.
  erewrite tupd_ok by (hcbn; apply lookup_insert_eq). hcbn. rewrite insert_insert_eq.
  eexists. split; [reflexivity|]. exists (mkRB 1 (comparator (payload nd))).
  split; [done|]. left. hcbn. apply lookup_insert_eq.
Qed.

Lemma insert_at_reaches_balance s new p pos nd nw :
  theap s !! p = Some nd → left nd = None → theap s !! new = Some nw → new ≠ p →
  ∃ s1, is_Some (theap s1 !! p) ∧
    insert_at (Some new) (Some p) pos s = balance (Some p) (Some p) s1.
Proof.
  intros Hp Hl Hn Hne. unfold insert_at.
  rewrite (mbind_ok _ _ _ _ _ (get_left_ok _ _ _ Hp)), Hl. do 4 (rewrite mbind_assoc; run_upd).
  destruct pos; (erewrite mbind_ok by (apply tupd_ok; hlook)); hcbn;
    (eexists; split; [|reflexivity]); hcbn; rewrite lookup_insert_eq; eauto.
Qed.

(** ** Properties *)

(** C23. [RBTree::insert] of an allocated, unlinked node into a valid red-black
    search tree terminates normally and leaves a valid red-black search tree:
    black root, no red node with a red child, equally many black nodes on every
    path, parent pointers consistent; the in-order sequence is the old one with
    the new comparator inserted in order, and no node outside the tree is
    touched. *)
Theorem rb_insert_correct s t n nd :
  tree_rep s t → rb_tree t → sorted_tree t →
  theap s !! n = Some nd → n ∉ locs t → ordered (comparator (payload nd)) →
  ∃ s' t', insert (Some n) s = (s', Ok tt) ∧ tree_rep s' t' ∧ rb_tree t' ∧ sorted_tree t' ∧
    keys t' ≡ₚ (n, comparator (payload nd)) :: keys t ∧
    cmps t' = ins_by flt (comparator (payload nd)) (cmps t) ∧
    (∀ p, p ∉ n :: locs t → theap s' !! p = theap s !! p).
Proof.
  intros Hrep Hrb Hs Hn Hnt Ho.
  destruct (rb_insert_spec s t n nd Hrep Hrb Hn Hnt) as (s' & Hrun & Hrep' & _ & Hout).
  exists s', (rb_ins n (payload nd) t). split_and!;
    auto using rb_ins_valid, rb_ins_sorted, rb_ins_elements, rb_ins_cmps.
Qed.

(** C24. [RBTree::balance] implements the functional fix-up: on a path whose
    frames satisfy the red-black conditions, the pointer program re-links the
    node, recolours and rotates so that the heap holds exactly the tree that
    [fixup] computes, with its root painted black, and it terminates within the
    chosen fuel. *)
Theorem rb_balance_refines s c n a :
  tree_rep s (plug c (T n a E E)) → ctx_ok c 0 →
  (∀ f, head c = Some f → rb_lt a (frame_payload f) = is_left f) →
  runs (balance (ctx_par c) (Some n)) s (plug c (T n a E E))
    (paint_root black (fixup c (T n (paint red a) E E))).
Proof. apply balance_spec. Qed.

(** Inserting any list of distinct allocated nodes into an empty [RBTree]
    yields a valid red-black tree that holds exactly these nodes in sorted
    order and whose height is at most twice the logarithm of their number plus
    one. *)
Theorem rb_build_balanced s ns ps :
  root s = None →
  Forall2 (λ n a, (comparator ∘ payload <$> theap s !! n) = Some a) ns ps →
  NoDup ns → Forall (λ x, ordered x) ps →
  ∃ s' t', insert_all ns s = (s', Ok tt) ∧ tree_rep s' t' ∧ rb_tree t' ∧
    keys t' ≡ₚ zip ns ps ∧ cmps t' = fold_left (λ l a, ins_by flt a l) ps [] ∧
    height t' ≤ 2 * Nat.log2 (S (length ns)).
Proof.
  intros Hr Hns Hnd Ho.
  destruct (rb_insert_all_spec s E ns ps) as (s' & t' & Hrun & Hrep & Hrb & _ & Hk & Hc);
    [by split; [done|done|constructor]|by split; [done|exists 0; constructor]|by split; constructor
    |done|by rewrite app_nil_r|done|].
  exists s', t'. rewrite app_nil_r in Hk. split_and!; [done..|].
  pose proof (rb_tree_height t' Hrb) as Hh. replace (length (locs t')) with (length ns) in Hh; [done|].
  rewrite locs_keys, Hk, length_fmap, length_zip. pose proof (Forall2_length _ _ _ Hns). lia.
Qed.

(** C28. [RBTree::find] on a valid red-black search tree returns a node with an
    equal comparator if there is one and throws "node not found" otherwise, and
    its loop makes at most 2*log2(n+1)+1 iterations. *)
Theorem rb_find_correct s t shell :
  tree_rep s t → rb_tree t → sorted_tree t → ordered (comparator shell) →
  search_loop (S (2 * Nat.log2 (S (length (locs t))))) shell (root s) s
    = (s, Ok (BinaryTree.search comparator shell t)) ∧
  ((∃ p a, find shell s = (s, Ok (Some p)) ∧ (p, a) ∈ nodes t ∧
      feq (comparator a) (comparator shell) = true) ∨
   (find shell s = (s, Throw (runtime_error "node not found")) ∧
    Forall (λ x, feq x (comparator shell) = false) (cmps t))).
Proof.
  intros Hrep Hrb Hs Ho. apply sorted_tree_bst in Hs. split.
  - rewrite (rep_root _ _ Hrep). apply search_loop_spec with None; [apply Hrep|].
    pose proof (rb_tree_height t Hrb). lia.
  - rewrite (rb_find_spec s shell t Hrep).
    destruct (BinaryTree.search comparator shell t) as [p|] eqn:Es; [left|right].
    + destruct (BinaryTree.search_Some comparator shell t p Es) as (a & Ha & He); [apply Hs|done|].
      by exists p, a.
    + split; [done|]. unfold cmps. rewrite Forall_fmap. by apply BinaryTree.search_None.
Qed.

(** [RBTree::_delete] of a node with at most one child unlinks and frees
    the node correctly and then dereferences NULL in its fix-up loop, unless
    the tree is empty afterwards. *)
Theorem rb_delete_segfault fuel s c p a l r shell sub :
  tree_rep s (plug c (T p a l r)) → height (plug c (T p a l r)) < fuel →
  BinaryTree.search comparator shell (plug c (T p a l r)) = Some p →
  feq (comparator a) (comparator shell) = true →
  (l = E ∧ sub = r ∨ r = E ∧ sub = l) →
  ∃ s', _delete fuel shell s
          = (s', match plug c sub with E => Ok tt | T _ _ _ _ => Throw Segfault end) ∧
    tree_rep s' (plug c sub) ∧ theap s' !! p = None ∧
    keys (plug c (T p a l r)) ≡ₚ (p, comparator a) :: keys (plug c sub).
Proof.
  intros H1 H2 H3 H4 Hsub. destruct (delete_one_child fuel s c p a l r shell sub H1 H2 H3 H4 Hsub) as (s' & Hr & Hrep & Hp).
  exists s'. split_and!; [done|done|done|]. unfold keys. rewrite !nodes_plug, !fmap_app. cbn [nodes].
  destruct Hsub as [[-> ->]|[-> ->]]; cbn [nodes app]; rewrite ?fmap_app; cbn [fmap list_fmap app]; rewrite ?app_nil_r; rewrite ?(Permutation_middle (_ <$> ctx_before c)); cbn [app]; by rewrite <-?app_assoc, ?Permutation_middle.
Qed.

(** [RBTree::insert_at] below a node without a left child never returns:
    [balance] is called with the parent as the node to insert, which makes it
    its own parent, and the loop rotates it for ever. *)
Theorem rb_insert_at_diverges s new p pos nd nw :
  theap s !! p = Some nd → left nd = None → theap s !! new = Some nw → new ≠ p →
  ∃ s1 s2, insert_at (Some new) (Some p) pos s = balance (Some p) (Some p) s1 ∧
    link_new (Some p) (Some p) s1 = (s2, Ok tt) ∧
    ∀ fuel, (balance_loop fuel (Some p) s2).2 = Throw OutOfFuel.
Proof.
  intros Hp Hl Hn Hne.
  destruct (insert_at_reaches_balance s new p pos nd nw Hp Hl Hn Hne) as (s1 & [n1 Hs1] & Heq).
  destruct (link_self s1 p n1 Hs1) as (s2 & Hlink & Hself).
  exists s1, s2. split_and!; [done..|]. intros fuel. by apply self_loop_diverges.
Qed.

(** *** Witnesses *)

Definition ex_rb_heap : gmap loc (tnode RBNode) :=
  mk_heap [(1%positive, of_int 5); (2%positive, of_int 3); (3%positive, of_int 4)].
Definition ex_rb : rbst := mkTree None 0 ex_rb_heap.
Definition ex_rb1 : rbst := mkTree (Some 1%positive) 0 ex_rb_heap.
Definition ex_t1 : rbtree := T 1%positive (mkRB 0 (of_int 5)) E E.

Lemma ex_rb1_rep : tree_rep ex_rb1 ex_t1.
Proof. split; [done| |apply NoDup_singleton]. by vm_compute. Qed.
Lemma ex_t1_valid : rb_tree ex_t1 ∧ sorted_tree ex_t1.
Proof.
  split; [split; [done|exists 1; apply rb_B; [done|constructor..]]|].
  split; [by apply Forall_singleton|]. constructor; constructor.
Qed.

Lemma rb_insert_correct_witness :
  ∃ s' t', insert (Some 2%positive) ex_rb1 = (s', Ok tt) ∧ tree_rep s' t' ∧ rb_tree t' ∧
    cmps t' = [of_int 3; of_int 5].
Proof.
  destruct (rb_insert_correct ex_rb1 ex_t1 2%positive (mkT (mkRB 0 (of_int 3)) None None None))
    as (s' & t' & H1 & H2 & H3 & _ & _ & H4 & _);
    [exact ex_rb1_rep|apply ex_t1_valid..|reflexivity| |reflexivity|].
  - apply not_elem_of_cons. split; [done|apply not_elem_of_nil].
  - exists s', t'. split_and!; [done..|]. rewrite H4. vm_compute. reflexivity.
Defined.

Lemma rb_balance_refines_witness :
  runs (balance None (Some 1%positive)) ex_rb1 ex_t1 ex_t1.
Proof.
  apply (rb_balance_refines ex_rb1 [] 1%positive (mkRB 0 (of_int 5)));
    [exact ex_rb1_rep|constructor|done].
Defined.

Lemma rb_build_balanced_witness :
  ∃ s' t', insert_all [1%positive; 2%positive; 3%positive] ex_rb = (s', Ok tt) ∧ tree_rep s' t' ∧
    cmps t' = [of_int 3; of_int 4; of_int 5] ∧ height t' ≤ 4.
Proof.
  destruct (rb_build_balanced ex_rb [1%positive; 2%positive; 3%positive]
    [of_int 5; of_int 3; of_int 4]) as (s' & t' & H1 & H2 & _ & _ & H3 & H4);
    [reflexivity|repeat (apply Forall2_cons_2; [reflexivity|]); apply Forall2_nil_2
    |apply (bool_decide_unpack _); vm_compute; done
    |repeat (apply Forall_cons_2; [reflexivity|]); apply Forall_nil_2|].
  exists s', t'. split_and!; [done..| |exact H4]. rewrite H3. vm_compute. reflexivity.
Defined.

Lemma rb_find_correct_witness :
  find (mkRB 0 (of_int 7)) ex_rb1 = (ex_rb1, Throw (runtime_error "node not found")).
Proof.
  destruct (rb_find_correct ex_rb1 ex_t1 (mkRB 0 (of_int 7))) as [_ [(p & a & _ & Hin & He)|[H _]]];
    [exact ex_rb1_rep|apply ex_t1_valid..|reflexivity| |exact H].
  apply list_elem_of_singleton in Hin as [= -> ->]. vm_compute in He. discriminate.
Defined.

Definition ex_t2 : rbtree := T 1%positive (mkRB 0 (of_int 5)) (T 2%positive (mkRB 1 (of_int 3)) E E) E.
Definition ex_rb2 : rbst := (insert (Some 2%positive) ex_rb1).1.

Lemma rb_delete_segfault_witness :
  ∃ s', _delete 5 (mkRB 0 (of_int 3)) ex_rb2 = (s', Throw Segfault) ∧ tree_rep s' ex_t1.
Proof.
  destruct (rb_delete_segfault 5 ex_rb2 [FL 1%positive (mkRB 0 (of_int 5)) E] 2%positive
    (mkRB 1 (of_int 3)) E E (mkRB 0 (of_int 3)) E) as (s' & H1 & H2 & _).
  - split; [reflexivity|by vm_compute|apply (bool_decide_unpack _); vm_compute; done].
  - vm_compute. lia.
  - vm_compute. reflexivity.
  - reflexivity.
  - by left.
  - by exists s'.
Defined.

Lemma rb_insert_at_diverges_witness :
  ∃ s1 s2, insert_at (Some 2%positive) (Some 1%positive) LEFT ex_rb1
             = balance (Some 1%positive) (Some 1%positive) s1 ∧
    link_new (Some 1%positive) (Some 1%positive) s1 = (s2, Ok tt) ∧
    ∀ fuel, (balance_loop fuel (Some 1%positive) s2).2 = Throw OutOfFuel.
Proof.
  apply (rb_insert_at_diverges ex_rb1 2%positive 1%positive LEFT
    (mkT (mkRB 0 (of_int 5)) None None None) (mkT (mkRB 0 (of_int 3)) None None None));
    [reflexivity..|done].
Defined.
