(* ===== verification/KNN.v ===== *)
(** * Exact nearest neighbours: [validate/BruteForcekNN.hpp] and
      [common/Metric.hpp]

    [getNN] computes the distance of a sample to every row and keeps the [k]
    smallest; [get_raw_accuracy] compares two answers.  Both are shown to
    compute what their comments promise, and the answer of [getNN] is shown to
    be [==] to that of an [NNVector] fed with the same distances in any
    order. *)
From S2P Require Import Prelude DataT Types NNVector.
From stdpp Require Import options.

(** ** [BruteForcekNN] *)

Record BruteForcekNN := mkBF { bdata : list data_t; bnsamples : nat; bnfeatures : nat }.

(** The inner loop [for (long j = k - 1; j >= 0; j--)]; [n] is [j + 1]. *)
Fixpoint repl_loop (n : nat) (dist : data_t) (NN : IndexVector) (repl_indx : option nat)
  : res (option nat) :=
  match n with
  | O => Ok repl_indx
  | S j =>
      let? x := iv_at NN j in
      repl_loop j dist NN (if flt dist (iv_val x) then Some j else repl_indx)
  end.

Section brute_force.
Context `{StdSort}.

(** The loop over the samples from [i] on, [n] of them left. *)
Fixpoint getNN_loop (bf : BruteForcekNN) (sample : list data_t) (k : Z) (n i : nat)
    (NN : IndexVector) {struct n} : res IndexVector :=
  match n with
  | O => Ok NN
  | S n =>
      let? dist := euclidean sample (drop (i * bnfeatures bf) (bdata bf)) (bnfeatures bf) in
      let? NN :=
        (if (Z.of_nat i <? u32 k)%Z then Ok (append (u32 (Z.of_nat i)) dist NN)
         else
           let NN := if (Z.of_nat i =? u32 k)%Z then iv_sort NN else NN in
           let? repl_indx := repl_loop (Z.to_nat k) dist NN None in
           match repl_indx with
           | Some j => iv_insert (mkIV (u32 (Z.of_nat i)) dist) j NN
           | None => Ok NN
           end) in
      getNN_loop bf sample k n (S i) NN
  end.

(** [ind] is the indeterminate value of an element [trim] would create. *)
Definition getNN (ind : data_t) (bf : BruteForcekNN) (sample : list data_t) (k : Z)
  : res IndexVector :=
  let? NN := getNN_loop bf sample k (bnsamples bf) 0 IndexVector_ctor in
  Ok (if (u32 k <? Z.of_nat (size NN))%Z then trim ind (Z.to_nat k) NN else NN).
End brute_force.

(** ** [Metric] *)

Section metric.
Context `{StdSort}.

Fixpoint match_loop (fuel i : nat) (approx exact : IndexVector) (matches : list bool)
  : res (IndexVector * list bool) :=
  match fuel with
  | O => Throw OutOfFuel
  | S fuel =>
      if i <? size approx then
        let? e := iv_at exact i in
        let '(approx, found) := iv_find e approx in
        match_loop fuel (S i) approx exact (if found then <[i := true]> matches else matches)
      else Ok (approx, matches)
  end.

Definition match_count (matches : list bool) : nat := length (filter Is_true matches).

(** Returns the (possibly sorted) [approx] too, which is passed by reference. *)
Definition get_raw_accuracy (approx exact : IndexVector) : res (IndexVector * data_t) :=
  if size approx =? size exact then
    let? r := match_loop (S (size approx)) 0 approx exact (replicate (size approx) false) in
    Ok (r.1, if match_count r.2 =? 0 then fzero
             else fdiv (of_int (Z.of_nat (match_count r.2))) (of_int (Z.of_nat (length r.2))))
  else Throw AssertFailed.
End metric.

(** ** Lemmas *)

(** The distances in sample order. *)
Fixpoint dists (bf : BruteForcekNN) (sample : list data_t) (n i : nat) : res (list IndexVal) :=
  match n with
  | O => Ok []
  | S n =>
      let? d := euclidean sample (drop (i * bnfeatures bf) (bdata bf)) (bnfeatures bf) in
      let? ds := dists bf sample n (S i) in
      Ok (mkIV (u32 (Z.of_nat i)) d :: ds)
  end.

(** The last write wins: the loop finds the first position whose value is
    greater. *)
Lemma repl_loop_spec n dist NN r :
  n ≤ size NN →
  repl_loop n dist NN r
    = Ok (match list_find (λ x, flt dist (iv_val x) = true) (take n (ivec NN)) with
          | Some (j, _) => Some j
          | None => r
          end).
Proof.
  unfold size. revert r. induction n as [|n IH]; intros r Hn; simpl; [done|].
  destruct (lookup_lt_is_Some_2 (ivec NN) n) as [x Hx]; [lia|].
  unfold iv_at. rewrite Hx. cbn [rbind]. rewrite IH by lia.
  rewrite (take_S_r _ _ _ Hx).
  destruct (list_find _ (take n (ivec NN))) as [[j y]|] eqn:Ef.
  { by rewrite (list_find_app_l _ _ _ _ _ Ef). }
  rewrite list_find_app_r by done. simpl. destruct (flt dist (iv_val x)) eqn:E.
  - rewrite decide_True by done. simpl. by rewrite length_take_le by lia.
  - rewrite decide_False by done. done.
Qed.

(** Inserting before the first greater of the first [k], and keeping [k]. *)
Lemma ins_at_take k x l :
  k ≤ length l →
  take k (match list_find (λ y, iv_lt x y = true) (take k l) with
          | Some (j, _) => take j l ++ x :: drop j l
          | None => l
          end) = take k (ins x (take k l)).
Proof.
  revert k. induction l as [|y l IH]; intros [|k] Hk; simpl in Hk; [done|lia|done|].
  cbn [take list_find ins_by]. destruct (iv_lt x y) eqn:E.
  - rewrite decide_True by done. simpl. destruct k; [done|]. simpl.
    by rewrite take_take, Nat.min_l by lia.
  - rewrite decide_False by done. specialize (IH k ltac:(lia)).
    destruct (list_find _ (take k l)) as [[j z]|]; simpl; by rewrite <-IH.
Qed.

(** *** The loop of [getNN] *)

Section brute_force_proofs.
Context `{StdSort}.
Implicit Types (bf : BruteForcekNN) (NN : IndexVector).

Lemma dists_total bf sample n i :
  (i + n) * bnfeatures bf ≤ length (bdata bf) → bnfeatures bf ≤ length sample →
  ∃ ds, dists bf sample n i = Ok ds ∧ length ds = n.
Proof.
  revert i. induction n as [|n IH]; intros i Hd Hs; simpl; [by eexists|].
  destruct (euclidean_loop_total fzero sample (drop (i * bnfeatures bf) (bdata bf)) (bnfeatures bf))
    as [d Hd']; [done|rewrite length_drop; nia|].
  unfold euclidean. rewrite Hd'. cbn [rbind].
  destruct (IH (S i)) as (ds & -> & Hl); [nia|done|]. cbn [rbind]. eexists. split; [done|]. simpl. lia.
Qed.

Lemma dists_ordered bf sample n i ds :
  Forall (λ x, is_finite x = true) (bdata bf) → Forall (λ x, is_finite x = true) sample →
  dists bf sample n i = Ok ds → Forall (λ y, iv_ordered y) ds.
Proof.
  intros Hb Hs. revert i ds. induction n as [|n IH]; intros i ds; simpl; [by intros [= <-]|].
  destruct (euclidean _ _ _) as [d|e] eqn:Ed; [|done]. cbn [rbind].
  destruct (dists bf sample n (S i)) as [ds'|e] eqn:Eds; [|done]. intros [= <-].
  constructor; [|by eapply IH]. cbn [iv_val].
  pose proof (euclidean_loop_nonneg fzero sample _ _ d eq_refl Hs (Forall_drop _ _ _ Hb) Ed) as Hn.
  by apply nonneg_alt in Hn as [? _].
Qed.

(** The first [k] samples are appended. *)
Lemma getNN_fill bf sample k n m i NN ds :
  dists bf sample n i = Ok ds → i + n ≤ Z.to_nat k → (0 ≤ k < 2 ^ 32)%Z →
  getNN_loop bf sample k (n + m) i NN
    = getNN_loop bf sample k m (i + n) (mkIVec (ivec NN ++ ds) (sorted NN)).
Proof.
  revert i NN ds. induction n as [|n IH]; intros i NN ds Hds Hin Hk; simpl in *.
  { injection Hds as <-. rewrite app_nil_r, Nat.add_0_r. by destruct NN. }
  destruct (euclidean _ _ _) as [d|e]; [|done]. cbn [rbind] in *.
  destruct (dists bf sample n (S i)) as [ds'|e] eqn:Eds; [|done]. injection Hds as <-.
  rewrite u32_small by lia. rewrite (proj2 (Z.ltb_lt _ _)) by lia. cbn [rbind].
  rewrite (IH (S i) _ ds') by (done || lia). unfold append, iv_push. cbn [ivec sorted].
  rewrite <-app_assoc. by replace (S i + n) with (i + S n) by lia.
Qed.

(** One round beyond them. *)
Lemma getNN_step bf sample k n i NN d :
  euclidean sample (drop (i * bnfeatures bf) (bdata bf)) (bnfeatures bf) = Ok d →
  Z.to_nat k ≤ i → (0 ≤ k < 2 ^ 32)%Z →
  let NN0 := if (Z.of_nat i =? k)%Z then iv_sort NN else NN in
  Z.to_nat k ≤ size NN0 →
  ∃ NN1, getNN_loop bf sample k (S n) i NN = getNN_loop bf sample k n (S i) NN1 ∧
    Z.to_nat k ≤ size NN1 ∧
    take (Z.to_nat k) (ivec NN1)
      = take (Z.to_nat k) (ins (mkIV (u32 (Z.of_nat i)) d) (ivec NN0)).
Proof.
  intros Hd Hi Hk NN0 Hsz. cbn [getNN_loop]. rewrite Hd. cbn [rbind].
  set (x := mkIV _ d) in *. rewrite (u32_small k) by lia.
  rewrite (proj2 (Z.ltb_ge _ _)) by lia. fold NN0.
  rewrite repl_loop_spec by done. cbn [rbind].
  pose proof (ins_at_take (Z.to_nat k) x (ivec NN0) Hsz) as Hins. unfold iv_lt at 1 in Hins.
  change (iv_val x) with d in Hins.
  rewrite <-(take_ins (Z.to_nat k) x (ivec NN0)), <-Hins. clear Hins.
  destruct (list_find _ _) as [[j y]|] eqn:Ef; [|by exists NN0].
  apply list_find_Some in Ef as (Hj & _ & _). apply lookup_lt_Some in Hj.
  rewrite length_take_le in Hj by done.
  unfold iv_insert. rewrite (proj2 (Nat.leb_le _ _)) by lia. eexists. split; [done|].
  split; [|done]. unfold size in *. cbn [ivec]. rewrite length_app. simpl.
  rewrite length_take, length_drop. lia.
Qed.

(** Beyond them, the first [k] elements are those of ordered insertion. *)
Lemma getNN_rest bf sample k n i NN ds :
  dists bf sample n i = Ok ds → Z.to_nat k < i → (0 ≤ k < 2 ^ 32)%Z →
  Z.to_nat k ≤ size NN →
  ∃ NN', getNN_loop bf sample k n i NN = Ok NN' ∧ Z.to_nat k ≤ size NN' ∧
    take (Z.to_nat k) (ivec NN') = take (Z.to_nat k) (ins_all (ivec NN) ds).
Proof.
  revert i NN ds. induction n as [|n IH]; intros i NN ds Hds Hi Hk Hsz.
  { injection Hds as <-. by exists NN. }
  simpl in Hds. destruct (euclidean _ _ _) as [d|e] eqn:Ed; [|done]. cbn [rbind] in *.
  destruct (dists bf sample n (S i)) as [ds'|e] eqn:Eds; [|done]. injection Hds as <-.
  pose proof (getNN_step bf sample k n i NN d Ed) as Hstep. cbn zeta in Hstep.
  rewrite (proj2 (Z.eqb_neq (Z.of_nat i) k)) in Hstep by lia.
  destruct Hstep as (NN1 & -> & Hsz1 & Ht1); [lia|done..|].
  destruct (IH (S i) NN1 ds' Eds) as (NN' & HNN' & Hsz' & Ht'); [lia|done|done|].
  exists NN'. split_and!; [done..|]. rewrite Ht'. set (x := mkIV _ d) in *.
  change (ins_all (ivec NN) (x :: ds')) with (ins_all (ins x (ivec NN)) ds').
  rewrite <-take_ins_all, Ht1. apply take_ins_all.
Qed.

Lemma dists_split bf sample n m i ds :
  dists bf sample (n + m) i = Ok ds →
  ∃ ds1 ds2, dists bf sample n i = Ok ds1 ∧ dists bf sample m (i + n) = Ok ds2 ∧
    ds = ds1 ++ ds2 ∧ length ds1 = n.
Proof.
  revert i ds. induction n as [|n IH]; intros i ds Hds; simpl in *.
  { exists [], ds. by rewrite Nat.add_0_r. }
  destruct (euclidean _ _ _) as [d|e]; [|done]. cbn [rbind] in *.
  destruct (dists bf sample (n + m) (S i)) as [ds'|e] eqn:E; [|done]. injection Hds as <-.
  destruct (IH (S i) ds' E) as (ds1 & ds2 & -> & H2 & -> & Hl). cbn [rbind].
  exists (mkIV (u32 (Z.of_nat i)) d :: ds1), ds2. split_and!; [done| |done|simpl; lia].
  by replace (i + S n) with (S i + n) by lia.
Qed.

Lemma getNN_few ind bf sample k ds :
  dists bf sample (bnsamples bf) 0 = Ok ds → (0 ≤ k < 2 ^ 32)%Z →
  bnsamples bf ≤ Z.to_nat k → length ds = bnsamples bf →
  getNN ind bf sample k = Ok (mkIVec ds false).
Proof.
  intros Hds Hk Hn Hl. unfold getNN.
  pose proof (getNN_fill bf sample k (bnsamples bf) 0 0 IndexVector_ctor ds Hds) as Hf.
  rewrite Nat.add_0_r in Hf. rewrite Hf by (done || lia). cbn [rbind getNN_loop ivec sorted].
  unfold size. cbn [ivec app IndexVector_ctor]. rewrite Hl, u32_small by lia.
  by rewrite (proj2 (Z.ltb_ge _ _)) by lia.
Qed.

Lemma getNN_many ind bf sample k ds :
  dists bf sample (bnsamples bf) 0 = Ok ds → Forall (λ y, iv_ordered y) ds →
  (0 ≤ k < 2 ^ 32)%Z → Z.to_nat k < bnsamples bf →
  ∃ v, getNN ind bf sample k = Ok v ∧
    ivec v = take (Z.to_nat k) (ins_all (std_sort (take (Z.to_nat k) ds)) (drop (Z.to_nat k) ds)).
Proof.
  intros Hds Ho Hk Hn. unfold getNN.
  replace (bnsamples bf) with (Z.to_nat k + S (bnsamples bf - Z.to_nat k - 1)) in Hds |- * by lia.
  set (m := bnsamples bf - _ - 1) in *.
  destruct (dists_split bf sample _ _ _ _ Hds) as (ds1 & ds2 & H1 & H2 & -> & Hl1).
  rewrite (getNN_fill bf sample k _ _ 0 _ ds1 H1) by (done || lia). cbn [IndexVector_ctor ivec sorted app].
  rewrite Nat.add_0_l in *.
  simpl in H2. destruct (euclidean _ _ _) as [d|e] eqn:Ed; [|done]. cbn [rbind] in H2.
  destruct (dists bf sample m (S (Z.to_nat k))) as [ds3|e] eqn:E3; [|done]. injection H2 as <-.
  apply Forall_app in Ho as [Ho1 _].
  pose proof (std_sort_perm ds1 Ho1) as Hp. apply Permutation_length in Hp.
  pose proof (getNN_step bf sample k m (Z.to_nat k) (mkIVec ds1 false) d Ed) as Hstep. cbn zeta in Hstep.
  rewrite Z2Nat.id, Z.eqb_refl in Hstep by lia.
  destruct Hstep as (NN1 & -> & Hsz1 & Ht1); [lia|done|unfold size; simpl; lia|].
  destruct (getNN_rest bf sample k m _ NN1 ds3 E3) as (NN' & -> & Hsz' & Ht'); [lia|done..|].
  cbn [rbind]. eexists. split; [done|].
  rewrite take_app_length', drop_app_length' by done. rewrite Z2Nat.id by lia.
  change (ins_all (std_sort ds1) (mkIV (u32 k) d :: ds3))
    with (ins_all (ins (mkIV (u32 k) d) (std_sort ds1)) ds3).
  cbn [iv_sort ivec] in Ht1. rewrite <-take_ins_all, <-Ht1, take_ins_all, <-Ht'.
  rewrite u32_small by lia. destruct (Z.ltb_spec k (Z.of_nat (size NN'))) as [Hlt|Hge].
  - cbn [trim ivec]. rewrite resize_le; [done|]. unfold size in *. lia.
  - unfold size in *. rewrite take_ge; [done|lia].
Qed.
End brute_force_proofs.

(** *** Sorted permutations agree up to [==] *)

Definition vkey (iv : IndexVal) : Z * Z * Z := key (iv_val iv).
Definition kle (a b : Z * Z * Z) : Prop := ¬ lex b a.

#[export] Instance kle_antisym : AntiSymm (=) kle.
Proof. intros [[a1 a2] a3] [[b1 b2] b3]. unfold kle, lex. simpl. intros. f_equal; [f_equal|]; lia. Qed.

Lemma sorted_vkeys l :
  Forall (λ y, iv_ordered y) l → iv_sorted l → StronglySorted kle (vkey <$> l).
Proof.
  intros Ho Hs. apply StronglySorted_fmap_iff. induction Hs as [|x l Hs IH Hx]; [constructor|].
  apply Forall_cons in Ho as [Hox Ho]. constructor; [by apply IH|].
  rewrite Forall_forall in Ho, Hx |- *. intros y Hy. apply flt_key_false; [by apply Ho|done|]. by apply Hx.
Qed.

Lemma sorted_perm_vkeys l1 l2 :
  Forall (λ y, iv_ordered y) l1 → l1 ≡ₚ l2 → iv_sorted l1 → iv_sorted l2 → vkey <$> l1 = vkey <$> l2.
Proof.
  intros Ho Hp H1 H2. apply (StronglySorted_unique kle).
  - by apply sorted_vkeys.
  - apply sorted_vkeys; [by rewrite <-Hp|done].
  - by rewrite Hp.
Qed.

Lemma vkeys_eqb l1 l2 :
  Forall (λ y, iv_ordered y) l1 → Forall (λ y, iv_ordered y) l2 →
  vkey <$> l1 = vkey <$> l2 → eqb_lists l1 l2 = true.
Proof.
  intros H1. revert l2. induction H1 as [|x l1 Hx H1 IH]; intros [|y l2] H2 He; try done.
  apply Forall_cons in H2 as [Hy H2]. injection He as He1 He2. simpl.
  apply andb_true_iff. split; [by apply feq_key|by apply IH].
Qed.

Lemma sorted_split_le k l x y :
  iv_sorted l → x ∈ take k l → y ∈ drop k l → iv_le x y.
Proof.
  intros Hs [i Hi]%list_elem_of_lookup [j Hj]%list_elem_of_lookup.
  rewrite lookup_drop in Hj. apply lookup_take_Some in Hi as [Hi Hik].
  eapply (sorted_lookup_le l i (k + j)); [done|lia|done..].
Qed.

(** [v] is the list of the [k] nearest of [ds]. *)
Definition k_nearest (k : nat) (ds v : list IndexVal) : Prop :=
  length v = k ∧ iv_sorted v ∧
  ∃ rest, v ++ rest ≡ₚ ds ∧ ∀ x y, x ∈ v → y ∈ rest → iv_le x y.

Section brute_force_theorems.
Context `{StdSort}.

Lemma getNN_sorted_all k ds :
  Forall (λ y, iv_ordered y) ds →
  ins_all (std_sort (take k ds)) (drop k ds) ≡ₚ ds ∧
  iv_sorted (ins_all (std_sort (take k ds)) (drop k ds)).
Proof.
  intros Ho. pose proof (Forall_take _ k _ Ho) as Ht. split.
  - rewrite ins_all_perm, std_sort_perm by done. by rewrite take_drop.
  - apply ins_all_sorted; [by rewrite std_sort_perm|by apply Forall_drop|by apply std_sort_sorted].
Qed.

Lemma sorted_take_nearest k l ds :
  iv_sorted l → l ≡ₚ ds → k ≤ length ds → k_nearest k ds (take k l).
Proof.
  intros Hs Hp Hk. apply Permutation_length in Hp as Hl. split_and!.
  - rewrite length_take. lia.
  - rewrite <-(take_drop k l) in Hs. by apply StronglySorted_app_1_l in Hs.
  - exists (drop k l). split; [by rewrite take_drop|]. intros x y. by apply sorted_split_le.
Qed.

Definition bf_wf (bf : BruteForcekNN) (sample : list data_t) : Prop :=
  bnsamples bf * bnfeatures bf ≤ length (bdata bf) ∧ bnfeatures bf ≤ length sample ∧
  Forall (λ x, is_finite x = true) (bdata bf) ∧ Forall (λ x, is_finite x = true) sample.
End brute_force_theorems.

(** *** The accuracy loop *)

Definition occurs (l : list IndexVal) (e : IndexVal) : bool := existsb (λ x, iv_eq x e) l.

Lemma occurs_perm l1 l2 e : l1 ≡ₚ l2 → occurs l1 e = occurs l2 e.
Proof.
  intros Hp. apply Bool.eq_iff_eq_true. unfold occurs. rewrite !existsb_exists.
  setoid_rewrite <-list_elem_of_In. by setoid_rewrite Hp.
Qed.

(** The accuracy of [l] against [ex] as a function of the two lists. *)
Definition accuracy (l ex : list IndexVal) : data_t :=
  let c := length (filter (λ e, Is_true (occurs l e)) ex) in
  if c =? 0 then fzero else fdiv (of_int (Z.of_nat c)) (of_int (Z.of_nat (length ex))).

Lemma accuracy_perm l1 l2 ex1 ex2 : l1 ≡ₚ l2 → ex1 ≡ₚ ex2 → accuracy l1 ex1 = accuracy l2 ex2.
Proof.
  intros Hl He. unfold accuracy.
  assert (length (filter (λ e, Is_true (occurs l1 e)) ex1)
          = length (filter (λ e, Is_true (occurs l2 e)) ex2)) as ->.
  { rewrite <-He. f_equal. apply list_filter_iff. intros e. by rewrite (occurs_perm l1 l2). }
  by rewrite He.
Qed.

Lemma match_count_map f (ex : list IndexVal) :
  match_count (map f ex) = length (filter (λ e, Is_true (f e)) ex).
Proof.
  unfold match_count. induction ex as [|e ex IH]; [done|]. simpl. rewrite !filter_cons.
  repeat case_decide; simpl; by rewrite ?IH.
Qed.

Section metric_proofs.
Context `{StdSort}.

Lemma match_loop_spec fuel i approx exact l0 :
  ivec_wf approx → ivec approx ≡ₚ l0 → Forall (λ y, iv_ordered y) l0 →
  Forall (λ y, iv_ordered y) (ivec exact) → length l0 = size exact →
  i ≤ size exact → size exact - i < fuel →
  ∃ approx', match_loop fuel i approx exact
      (map (occurs l0) (take i (ivec exact)) ++ replicate (size exact - i) false)
      = Ok (approx', map (occurs l0) (ivec exact)) ∧ ivec approx' ≡ₚ l0 ∧ ivec_wf approx'.
Proof.
  revert i approx. induction fuel as [|fuel IH]; intros i approx Hwf Hp Ho Hoe Hl Hi Hf; [lia|].
  cbn [match_loop]. assert (size approx = size exact) as Hsz.
  { unfold size. by rewrite Hp, Hl. }
  destruct (Nat.ltb_spec i (size approx)) as [Hlt|Hge].
  2: { exists approx. replace (size exact - i) with 0 by lia. rewrite app_nil_r.
       rewrite take_ge by (unfold size in *; lia). done. }
  destruct (lookup_lt_is_Some_2 (ivec exact) i) as [e He]; [unfold size in *; lia|].
  unfold iv_at. rewrite He. cbn [rbind].
  assert (iv_ordered e) as Hoe' by (rewrite Forall_lookup in Hoe; by eapply Hoe).
  pose proof (iv_find_spec approx e Hwf) as Hfind. rewrite Hp in Hfind at 1. specialize (Hfind Ho Hoe').
  destruct (iv_find e approx) as [approx1 found]. destruct Hfind as (-> & Hp1 & Hs1 & Hwf1).
  change (existsb _ (ivec approx)) with (occurs (ivec approx) e). rewrite (occurs_perm _ _ e Hp).
  destruct (IH (S i) approx1) as (approx' & Hrun & Hp' & Hwf'); [done|by rewrite Hp1|done..|lia|lia|].
  exists approx'. split; [|done]. rewrite <-Hrun. f_equal.
  rewrite (take_S_r _ _ _ He), map_app, <-app_assoc. cbn [map app].
  replace (size exact - i) with (S (size exact - S i)) by lia. cbn [replicate].
  assert (length (map (occurs l0) (take i (ivec exact))) = i) as Hlen.
  { rewrite length_map, length_take. unfold size in *. lia. }
  destruct (occurs l0 e); [|done]. rewrite insert_app_r_alt by lia. by rewrite Hlen, Nat.sub_diag.
Qed.

Lemma get_raw_accuracy_spec approx exact :
  ivec_wf approx → size approx = size exact →
  Forall (λ y, iv_ordered y) (ivec approx) → Forall (λ y, iv_ordered y) (ivec exact) →
  ∃ approx', get_raw_accuracy approx exact = Ok (approx', accuracy (ivec approx) (ivec exact)) ∧
    ivec approx' ≡ₚ ivec approx ∧ ivec_wf approx'.
Proof.
  intros Hwf Hsz Ha He. unfold get_raw_accuracy. rewrite Hsz, Nat.eqb_refl.
  destruct (match_loop_spec (S (size exact)) 0 approx exact (ivec approx)) as (a' & Hrun & Hp & Hwf');
    [done..|lia|lia|]. rewrite take_0, Nat.sub_0_r in Hrun. cbn [map app] in Hrun.
  rewrite Hrun. cbn [rbind fst snd]. exists a'. split; [|done].
  rewrite match_count_map. unfold accuracy. by rewrite length_map.
Qed.
End metric_proofs.

Lemma getNN_eval_agree `{StdSort} ind bf sample k ds ivs :
  bf_wf bf sample → (0 ≤ k < 2 ^ 32)%Z → Z.to_nat k < bnsamples bf →
  dists bf sample (bnsamples bf) 0 = Ok ds → ivs ≡ₚ ds →
  ∃ v s s', getNN ind bf sample k = Ok v ∧ eval_all ivs (NNVector_ctor k) = (s, Ok tt) ∧
    eq_IndexVector v s = (s', Ok true).
Proof.
  intros (Hd & Hs & Hfd & Hfs) Hk Hkn Hds Hp.
  pose proof (dists_ordered _ _ _ _ _ Hfd Hfs Hds) as Ho.
  destruct (getNN_many ind bf sample k ds Hds Ho Hk Hkn) as (v & Hv & Hvl).
  destruct (eval_all_spec (NNVector_ctor k) ivs []) as (s & Hrun & _ & Hrep).
  { rewrite take_nil. by apply nn_rep_ctor. }
  destruct (eq_IndexVector_spec s _ v Hrep) as (s' & Heq & _).
  exists v, s, s'. split_and!; [done..|]. rewrite Heq. do 2 f_equal.
  destruct (getNN_sorted_all (Z.to_nat k) ds Ho) as [Hp2 Hs2].
  assert (Forall (λ y, iv_ordered y) ivs) as Hoi by (by rewrite Hp).
  rewrite Hvl. apply vkeys_eqb.
  - apply Forall_take. by rewrite Hp2.
  - apply Forall_take. by rewrite isort_perm.
  - rewrite !fmap_take. f_equal. apply sorted_perm_vkeys; [by rewrite Hp2| |done|by apply isort_sorted].
    by rewrite Hp2, isort_perm.
Qed.

(** ** Properties *)

(** [BruteForcekNN::getNN] on a well-formed data set with more than [k]
    samples returns the [k] nearest: a sorted list of [k] of the (index,
    distance) pairs such that no pair left out has a smaller distance.  With at
    most [k] samples it returns all of them in sample order, not sorted. *)
Theorem bf_getNN_k_nearest `{StdSort} ind bf sample k :
  bf_wf bf sample → (0 ≤ k < 2 ^ 32)%Z →
  ∃ ds v, dists bf sample (bnsamples bf) 0 = Ok ds ∧ length ds = bnsamples bf ∧
    getNN ind bf sample k = Ok v ∧
    if decide (Z.to_nat k < bnsamples bf) then k_nearest (Z.to_nat k) ds (ivec v)
    else ivec v = ds.
Proof.
  intros (Hd & Hs & Hfd & Hfs) Hk.
  destruct (dists_total bf sample (bnsamples bf) 0) as (ds & Hds & Hl); [done..|].
  pose proof (dists_ordered _ _ _ _ _ Hfd Hfs Hds) as Ho. case_decide as Hkn.
  - destruct (getNN_many ind bf sample k ds Hds Ho Hk Hkn) as (v & Hv & Hvl).
    exists ds, v. split_and!; [done..|]. rewrite Hvl.
    destruct (getNN_sorted_all (Z.to_nat k) ds Ho) as [Hp Hsr].
    apply sorted_take_nearest; [done..|lia].
  - exists ds, (mkIVec ds false). split_and!; [done..| |done]. apply getNN_few; [done..|lia|done].
Qed.

(** The assertion the kd-tree driver makes about its answers: feeding the
    distances of all samples, in any order, to an [NNVector] of capacity [k]
    gives a list that is [==] to what [BruteForcekNN::getNN] returns, when there
    are more than [k] samples. *)
Theorem bf_agrees_with_NNVector `{StdSort} ind bf sample k ds ivs :
  bf_wf bf sample → (0 ≤ k < 2 ^ 32)%Z → Z.to_nat k < bnsamples bf →
  dists bf sample (bnsamples bf) 0 = Ok ds → ivs ≡ₚ ds →
  ∃ v s s', getNN ind bf sample k = Ok v ∧ eval_all ivs (NNVector_ctor k) = (s, Ok tt) ∧
    eq_IndexVector v s = (s', Ok true).
Proof. apply getNN_eval_agree. Qed.

(** [Metric::get_raw_accuracy] on two vectors of equal size returns the
    fraction of the exact answers whose distance occurs among the approximate
    ones, and the order of either vector does not matter; vectors of different
    sizes fail the assertion. *)
Theorem metric_accuracy_correct `{StdSort} approx exact approx2 exact2 :
  ivec_wf approx → ivec_wf approx2 →
  Forall (λ y, iv_ordered y) (ivec approx) → Forall (λ y, iv_ordered y) (ivec exact) →
  ivec approx2 ≡ₚ ivec approx → ivec exact2 ≡ₚ ivec exact →
  if decide (size approx = size exact) then
    ∃ a1 a2 acc, get_raw_accuracy approx exact = Ok (a1, acc) ∧
      get_raw_accuracy approx2 exact2 = Ok (a2, acc) ∧
      acc = accuracy (ivec approx) (ivec exact) ∧ ivec a1 ≡ₚ ivec approx
  else get_raw_accuracy approx exact = Throw AssertFailed.
Proof.
  intros Hwf Hwf2 Ha He Hpa Hpe. case_decide as Hsz.
  - destruct (get_raw_accuracy_spec approx exact Hwf Hsz Ha He) as (a1 & H1 & Hp1 & _).
    destruct (get_raw_accuracy_spec approx2 exact2 Hwf2) as (a2 & H2 & _);
      [unfold size in *; by rewrite Hpa, Hpe|by rewrite Hpa|by rewrite Hpe|].
    exists a1, a2, (accuracy (ivec approx) (ivec exact)). split_and!; [done| |done|done].
    rewrite H2. by rewrite (accuracy_perm _ _ _ _ Hpa Hpe).
  - unfold get_raw_accuracy. by rewrite (proj2 (Nat.eqb_neq _ _)).
Qed.

(** *** Witnesses *)

Definition ex_bf : BruteForcekNN := mkBF [of_int 5; of_int 1; of_int 9; of_int 2] 4 1.

Lemma ex_bf_wf : bf_wf ex_bf [of_int 0].
Proof. split_and!; [vm_compute; lia..| |]; repeat (apply Forall_cons_2; [reflexivity|]); apply Forall_nil_2. Qed.

Lemma bf_getNN_k_nearest_witness :
  ∃ ds v, dists ex_bf [of_int 0] 4 0 = Ok ds ∧ getNN fzero ex_bf [of_int 0] 2 = Ok v ∧
    k_nearest 2 ds (ivec v).
Proof.
  destruct (bf_getNN_k_nearest fzero ex_bf [of_int 0] 2) as (ds & v & H1 & _ & H2 & H3);
    [exact ex_bf_wf|lia|]. exists ds, v. split_and!; [exact H1|exact H2|].
  revert H3. rewrite decide_True; [done|]. simpl. lia.
Defined.

Definition ex_ds : list IndexVal :=
  [mkIV 0 (of_int 5); mkIV 1 (of_int 1); mkIV 2 (of_int 9); mkIV 3 (of_int 2)].

Lemma bf_agrees_with_NNVector_witness :
  ∃ v s s', getNN fzero ex_bf [of_int 0] 2 = Ok v ∧
    eval_all (reverse ex_ds) (NNVector_ctor 2) = (s, Ok tt) ∧ eq_IndexVector v s = (s', Ok true).
Proof.
  apply (bf_agrees_with_NNVector fzero ex_bf [of_int 0] 2 ex_ds (reverse ex_ds));
    [exact ex_bf_wf|lia|simpl; lia|vm_compute; reflexivity|apply reverse_Permutation].
Defined.

Lemma metric_accuracy_correct_witness :
  ∃ a1 a2 acc, get_raw_accuracy (mkIVec ex_ds false) (mkIVec ex_ds false) = Ok (a1, acc) ∧
    get_raw_accuracy (mkIVec (reverse ex_ds) false) (mkIVec ex_ds false) = Ok (a2, acc) ∧
    acc = of_int 1.
Proof.
  pose proof (metric_accuracy_correct (mkIVec ex_ds false) (mkIVec ex_ds false)
    (mkIVec (reverse ex_ds) false) (mkIVec ex_ds false)) as Hm.
  rewrite decide_True in Hm by done.
  destruct Hm as (a1 & a2 & acc & H1 & H2 & H3 & _);
    [by intros [=]|by intros [=]|..|apply reverse_Permutation|reflexivity|].
  - repeat (apply Forall_cons_2; [reflexivity|]); apply Forall_nil_2.
  - repeat (apply Forall_cons_2; [reflexivity|]); apply Forall_nil_2.
  - exists a1, a2, acc. split_and!; [exact H1|exact H2|]. rewrite H3. vm_compute. reflexivity.
Defined.
