(* ===== verification/Stream.v ===== *)
(** * Files: binary32 encoding, [std::fstream], [io/vecs_reader.hpp],
      [utils/FileUtil.hpp]

    A file is a list of bytes.  [of_bits]/[to_bits] are the binary32 encoding,
    little endian on the supported platforms; a stream has a position and a
    sticky failure state.  [files] is the file system: the contents of the file
    a name denotes, if it can be opened. *)
From Stdlib Require Import SpecFloat Ascii.
From S2P Require Import Prelude DataT Types.
From stdpp Require Import options.

(** ** binary32 *)

Definition of_bits (w : Z) : data_t :=
  let s := Z.testbit w 31 in
  let e := Z.land (Z.shiftr w 23) 255 in
  let m := Z.land w (2 ^ 23 - 1) in
  if (e =? 0)%Z then
    match m with Z.pos p => S754_finite s p (-149) | _ => S754_zero s end
  else if (e =? 255)%Z then
    (if (m =? 0)%Z then S754_infinity s else S754_nan)
  else S754_finite s (Z.to_pos (2 ^ 23 + m)) (e - 150).

Definition sign_bit (s : bool) : Z := if s then 2 ^ 31 else 0.

Definition to_bits (x : data_t) : Z :=
  match x with
  | S754_zero s => sign_bit s
  | S754_infinity s => sign_bit s + 255 * 2 ^ 23
  | S754_nan => 255 * 2 ^ 23 + 2 ^ 22
  | S754_finite s m e =>
      if (Z.pos m <? 2 ^ 23)%Z then sign_bit s + Z.pos m
      else sign_bit s + (e + 150) * 2 ^ 23 + (Z.pos m - 2 ^ 23)
  end.

(** ** Bytes and arrays *)

Definition bytes_of_word (w : Z) : list Z :=
  [w mod 256; (w / 2 ^ 8) mod 256; (w / 2 ^ 16) mod 256; (w / 2 ^ 24) mod 256]%Z.
Definition word_of_bytes (b0 b1 b2 b3 : Z) : Z :=
  (b0 + 2 ^ 8 * b1 + 2 ^ 16 * b2 + 2 ^ 24 * b3)%Z.

Definition bytes_of (xs : list data_t) : list Z :=
  flat_map (λ x, bytes_of_word (to_bits x)) xs.

(** Copies bytes over the beginning of an array; a last incomplete word keeps
    its remaining bytes; writing past the end is a [Segfault]. *)
Fixpoint overlay (arr : list data_t) (bs : list Z) : res (list data_t) :=
  match bs with
  | [] => Ok arr
  | b0 :: bs0 =>
      match arr with
      | [] => Throw Segfault
      | x :: arr' =>
          let '(c1, c2, c3) := match bytes_of_word (to_bits x) with
                               | [_; c1; c2; c3] => (c1, c2, c3)
                               | _ => (0, 0, 0)%Z
                               end in
          match bs0 with
          | b1 :: b2 :: b3 :: bs' =>
              let? r := overlay arr' bs' in Ok (of_bits (word_of_bytes b0 b1 b2 b3) :: r)
          | [b1; b2] => Ok (of_bits (word_of_bytes b0 b1 b2 c3) :: arr')
          | [b1] => Ok (of_bits (word_of_bytes b0 b1 c2 c3) :: arr')
          | [] => Ok (of_bits (word_of_bytes b0 c1 c2 c3) :: arr')
          end
      end
  end.

(** The same at index [i] of the array. *)
Definition overlay_at (arr : list data_t) (i : nat) (bs : list Z) : res (list data_t) :=
  let? r := overlay (drop i arr) bs in Ok (take i arr ++ r).

(** [sizeof(data_t)] *)
Definition dtype_size : nat := 4.

(** ** [std::fstream] *)

Record fstream := mkFS { is_open : bool; content : list Z; pos : nat; good : bool }.

Definition closed_stream : fstream := mkFS false [] 0 true.

(** [read]: a short read takes what there is and sets the failure state. *)
Definition fs_read (n : nat) (f : fstream) : fstream * list Z :=
  if is_open f && good f then
    let bs := take n (drop (pos f) (content f)) in
    (mkFS true (content f) (pos f + length bs) (length bs =? n), bs)
  else (f, []).

(** [seekp] moves the single position of the file buffer. *)
Definition fs_seekp (p : nat) (f : fstream) : fstream :=
  if good f then mkFS (is_open f) (content f) p true else f.

Definition fs_write (bs : list Z) (f : fstream) : fstream :=
  if is_open f && good f then
    let c := content f ++ replicate (pos f - length (content f)) 0%Z in
    mkFS true (take (pos f) c ++ bs ++ drop (pos f + length bs) c) (pos f + length bs) true
  else f.

Definition fs_close (f : fstream) : fstream := closed_stream.

(** ** [FileUtil] *)

(** [get_file_size]: -1 converted to [size_t] when [stat] fails. *)
Definition get_file_size (files : string → option (list Z)) (fn : string) : Z :=
  match files fn with Some c => Z.of_nat (length c) | None => u64 (-1) end.

Definition file_exists (files : string → option (list Z)) (fn : string) : bool :=
  match files fn with Some _ => true | None => false end.

(** [s.rfind('.')] *)
Fixpoint rfind_dot (s : string) : option nat :=
  match s with
  | EmptyString => None
  | String c s' =>
      match rfind_dot s' with
      | Some i => Some (S i)
      | None => if decide (c = "."%char) then Some 0 else None
      end
  end.

Fixpoint string_drop (n : nat) (s : string) : string :=
  match n, s with S n, String _ s => string_drop n s | _, _ => s end.

Definition get_file_ext (s : string) : string :=
  match rfind_dot s with Some i => string_drop (S i) s | None => "" end.

(** ** [fvecs_reader] *)

Definition open_error (fn : string) : exn := io_exception ("Failure to open file: '" +:+ fn +:+ "'").

(** A two's complement [int] of 32 bits. *)

(** Reading four bytes into an [int] that held [old]. *)
Definition overlay_int (old : Z) (bs : list Z) : Z :=
  match bs, bytes_of_word (u32 old) with
  | [b0; b1; b2; b3], _ => s32 (word_of_bytes b0 b1 b2 b3)
  | [b0; b1; b2], [_; _; _; c3] => s32 (word_of_bytes b0 b1 b2 c3)
  | [b0; b1], [_; _; c2; c3] => s32 (word_of_bytes b0 b1 c2 c3)
  | [b0], [_; c1; c2; c3] => s32 (word_of_bytes b0 c1 c2 c3)
  | _, _ => old
  end.

(** The loop of [read(data_t* buf)]: [n] rows left, [row] the current one. *)
Fixpoint fvecs_read_loop (n row ncol : nat) (read_dim : Z) (f : fstream) (buf : list data_t)
  : res (list data_t) :=
  match n with
  | O => Ok buf
  | S n =>
      let '(f, bs) := fs_read 4 f in
      let read_dim := overlay_int read_dim bs in
      if (read_dim =? s32 (Z.of_nat ncol))%Z then
        let '(f, bs) := fs_read (ncol * dtype_size) f in
        let? buf := overlay_at buf (row * ncol) bs in
        fvecs_read_loop n (S row) ncol read_dim f buf
      else Throw AssertFailed
  end.

(** The constructor opens the file, [read] fills the buffer; [read_dim0] is the
    indeterminate initial value of [read_dim]. *)
Definition fvecs_read (files : string → option (list Z)) (fn : string) (nrow ncol : nat)
    (read_dim0 : Z) (buf : list data_t) : res (list data_t) :=
  match files fn with
  | None => Throw (open_error fn)
  | Some c => fvecs_read_loop nrow 0 ncol read_dim0 (mkFS true c 0 true) buf
  end.

(** ** The encoding round trip *)

Definition valid_float (x : data_t) : Prop := valid_binary 24 128 x = true ∧ is_nan x = false.

Lemma digits2_pos_bounds m :
  (2 ^ (Z.pos (digits2_pos m) - 1) ≤ Z.pos m < 2 ^ Z.pos (digits2_pos m))%Z.
Proof.
  assert (∀ p, Z.pos (Pos.succ p) - 1 = Z.pos p)%Z as Hp by lia.
  induction m as [m IH|m IH|]; cbn [digits2_pos]; rewrite ?Hp; [..|done];
    (replace (Z.pos (digits2_pos m)) with (Z.pos (digits2_pos m) - 1 + 1)%Z at 1 by lia);
    rewrite Pos2Z.inj_succ, Z.pow_succ_r by lia; rewrite Z.pow_add_r by lia; lia.
Qed.

(** The shape of a finite value: normal, or subnormal with the least exponent. *)
Lemma valid_finite s m e :
  valid_binary 24 128 (S754_finite s m e) = true →
  (2 ^ 23 ≤ Z.pos m < 2 ^ 24 ∧ -149 ≤ e ≤ 104)%Z ∨ (Z.pos m < 2 ^ 23 ∧ e = -149)%Z.
Proof.
  simpl. unfold bounded, canonical_mantissa, fexp, SpecFloat.emin. intros [H1 H2]%andb_true_iff.
  apply Zeq_bool_eq in H1. apply Z.leb_le in H2. pose proof (digits2_pos_bounds m) as Hb.
  set (d := Z.pos (digits2_pos m)) in *. assert (0 < d)%Z by (unfold d; lia).
  destruct (decide (d = 24)%Z) as [->|Hd].
  - left. simpl in Hb. lia.
  - right. assert (d < 24)%Z by lia. split; [|lia].
    apply Z.lt_le_trans with (2 ^ d)%Z; [lia|]. apply Z.pow_le_mono_r; lia.
Qed.

(** Splitting a word into its three fields. *)
Lemma bits_fields s E F :
  (0 ≤ E < 256)%Z → (0 ≤ F < 2 ^ 23)%Z →
  Z.testbit (sign_bit s + E * 2 ^ 23 + F) 31 = s ∧
  Z.land (Z.shiftr (sign_bit s + E * 2 ^ 23 + F) 23) 255 = E ∧
  Z.land (sign_bit s + E * 2 ^ 23 + F) (2 ^ 23 - 1) = F.
Proof.
  intros HE HF. set (w := (sign_bit s + E * 2 ^ 23 + F)%Z).
  assert (w / 2 ^ 23 = (if s then 256 else 0) + E)%Z as Hdiv.
  { unfold w. replace (sign_bit s + E * 2 ^ 23 + F)%Z
      with (F + ((if s then 256 else 0) + E) * 2 ^ 23)%Z by (destruct s; simpl; lia).
    rewrite Z.div_add by lia. rewrite Z.div_small by lia. lia. }
  split_and!.
  - assert (Z.b2z (Z.testbit w 31) = Z.b2z s) as Hb.
    { rewrite Z.testbit_spec' by lia. replace (2 ^ 31)%Z with (2 ^ 23 * 2 ^ 8)%Z by lia.
      rewrite <-Z.div_div by lia. rewrite Hdiv.
      destruct s; [replace (256 + E)%Z with (E + 1 * 2 ^ 8)%Z by lia; rewrite Z.div_add by lia|];
        rewrite Z.div_small by lia; done. }
    by destruct (Z.testbit w 31), s.
  - rewrite Z.shiftr_div_pow2, Hdiv by lia. change 255%Z with (Z.ones 8).
    rewrite Z.land_ones by lia. destruct s.
    + replace (256 + E)%Z with (E + 1 * 2 ^ 8)%Z by lia. rewrite Z.mod_add, Z.mod_small by lia. done.
    + rewrite Z.mod_small by lia. done.
  - change (2 ^ 23 - 1)%Z with (Z.ones 23). rewrite Z.land_ones by lia. unfold w.
    replace (sign_bit s + E * 2 ^ 23 + F)%Z
      with (F + ((if s then 256 else 0) + E) * 2 ^ 23)%Z by (destruct s; simpl; lia).
    by rewrite Z.mod_add, Z.mod_small by lia.
Qed.

Lemma of_to_bits x : valid_float x → of_bits (to_bits x) = x.
Proof.
  intros [Hv Hn]. destruct x as [s|s| |s m e]; [by destruct s|by destruct s|done|].
  apply valid_finite in Hv. unfold to_bits.
  destruct (Z.ltb_spec (Z.pos m) (2 ^ 23)) as [Hm|Hm].
  - destruct Hv as [[? _]|[_ ->]]; [lia|].
    destruct (bits_fields s 0 (Z.pos m)) as (H1 & H2 & H3); [lia..|].
    rewrite Z.mul_0_l, Z.add_0_r in *. unfold of_bits. by rewrite H1, H2, H3.
  - destruct Hv as [[Hm2 He]|[? _]]; [|lia].
    destruct (bits_fields s (e + 150) (Z.pos m - 2 ^ 23)) as (H1 & H2 & H3); [lia..|].
    unfold of_bits. rewrite H1, H2, H3.
    rewrite (proj2 (Z.eqb_neq _ _)), (proj2 (Z.eqb_neq _ _)) by lia.
    f_equal; [|lia]. replace (2 ^ 23 + (Z.pos m - 2 ^ 23))%Z with (Z.pos m) by lia. done.
Qed.

Lemma to_bits_range x : valid_float x → (0 ≤ to_bits x < 2 ^ 32)%Z.
Proof.
  intros [Hv Hn]. destruct x as [s|s| |s m e]; [by destruct s|by destruct s|done|].
  apply valid_finite in Hv. unfold to_bits. destruct (Z.ltb_spec (Z.pos m) (2 ^ 23)); destruct s;
    simpl sign_bit; lia.
Qed.

Lemma word_bytes w :
  (0 ≤ w < 2 ^ 32)%Z →
  word_of_bytes (w mod 256) ((w / 2 ^ 8) mod 256) ((w / 2 ^ 16) mod 256) ((w / 2 ^ 24) mod 256) = w.
Proof.
  intros Hw. unfold word_of_bytes.
  assert (w / 2 ^ 16 = w / 2 ^ 8 / 256)%Z as H1 by (rewrite Z.div_div by lia; done).
  assert (w / 2 ^ 24 = w / 2 ^ 16 / 256)%Z as H2 by (rewrite Z.div_div by lia; done).
  assert (w / 2 ^ 8 = w / 256)%Z as H0 by done.
  rewrite (Z.mod_small (w / 2 ^ 24)) by (split; [apply Z.div_pos; lia|apply Z.div_lt_upper_bound; lia]).
  pose proof (Z.div_mod w 256). pose proof (Z.div_mod (w / 2 ^ 8) 256).
  pose proof (Z.div_mod (w / 2 ^ 16) 256). lia.
Qed.

Lemma length_bytes_of xs : length (bytes_of xs) = length xs * dtype_size.
Proof. induction xs as [|x xs IH]; [done|]. simpl. rewrite IH. unfold dtype_size. lia. Qed.

Lemma overlay_bytes arr xs :
  Forall valid_float xs → length xs ≤ length arr →
  overlay arr (bytes_of xs) = Ok (xs ++ drop (length xs) arr).
Proof.
  intros Hv. revert arr. induction Hv as [|x xs Hx Hv IH]; intros [|a arr] Hl; simpl in Hl; try done; [lia|].
  cbn [bytes_of flat_map bytes_of_word app overlay].
  change (flat_map (λ x, bytes_of_word (to_bits x)) xs) with (bytes_of xs).
  rewrite IH by lia. cbn [rbind]. by rewrite word_bytes, of_to_bits by (done || by apply to_bits_range).
Qed.

(** ** Reading what was written *)

Lemma fs_read_exact pre bs post :
  fs_read (length bs) (mkFS true (pre ++ bs ++ post) (length pre) true)
    = (mkFS true (pre ++ bs ++ post) (length pre + length bs) true, bs).
Proof.
  unfold fs_read. cbn [is_open good andb pos content].
  rewrite drop_app_length, take_app_length. by rewrite Nat.eqb_refl.
Qed.

Lemma overlay_at_nil arr i : overlay_at arr i [] = Ok arr.
Proof. unfold overlay_at. destruct (drop i arr) eqn:E; cbn; rewrite <-E; by rewrite take_drop. Qed.

Lemma overlay_at_bytes arr i xs :
  Forall valid_float xs → i + length xs ≤ length arr →
  overlay_at arr i (bytes_of xs) = Ok (take i arr ++ xs ++ drop (i + length xs) arr).
Proof.
  intros Hv Hl. unfold overlay_at. rewrite overlay_bytes by (done || rewrite length_drop; lia).
  cbn [rbind]. by rewrite drop_drop.
Qed.


Lemma overlay_int_word old w : (0 ≤ w < 2 ^ 31)%Z → overlay_int old (bytes_of_word w) = w.
Proof. intros Hw. cbn [overlay_int bytes_of_word]. rewrite word_bytes by lia. by apply s32_small. Qed.

(** The [fvecs] format: every row is preceded by its dimension. *)
Definition fvecs_encode (ncol : nat) (rows : list (list data_t)) : list Z :=
  flat_map (λ row, bytes_of_word (Z.of_nat ncol) ++ bytes_of row) rows.

(** At the end of the file the remaining rounds change nothing. *)
Lemma fvecs_read_eof n row ncol f buf :
  pos f = length (content f) ∨ good f = false → is_open f = true → (Z.of_nat ncol < 2 ^ 31)%Z →
  fvecs_read_loop n row ncol (Z.of_nat ncol) f buf = Ok buf.
Proof.
  intros Hf Ho Hn. revert row f Hf Ho. induction n as [|n IH]; intros row f Hf Ho; [done|].
  cbn [fvecs_read_loop].
  assert (∃ f', fs_read 4 f = (f', []) ∧ good f' = false ∧ is_open f' = true) as (f' & -> & Hg & Ho').
  { unfold fs_read. destruct (good f) eqn:Eg; rewrite Ho; cbn [andb]; [|by exists f].
    destruct Hf as [Hp|?]; [|done]. rewrite Hp, drop_all. by eexists. }
  cbn [overlay_int]. rewrite s32_small by lia. rewrite Z.eqb_refl.
  assert (fs_read (ncol * dtype_size) f' = (f', [])) as ->.
  { unfold fs_read. by rewrite Ho', Hg. }
  rewrite overlay_at_nil. cbn [rbind]. apply IH; auto.
Qed.

Lemma fvecs_read_rows n m row ncol d pre rows buf :
  length rows = n → (n ≠ 0 ∨ d = Z.of_nat ncol) → (Z.of_nat ncol < 2 ^ 31)%Z →
  Forall (λ r, length r = ncol ∧ Forall valid_float r) rows → (row + n) * ncol ≤ length buf →
  fvecs_read_loop (n + m) row ncol d
    (mkFS true (pre ++ fvecs_encode ncol rows) (length pre) true) buf
  = Ok (take (row * ncol) buf ++ concat rows ++ drop ((row + n) * ncol) buf).
Proof.
  intros Hn Hd Hncol Hrows. revert n row d pre buf Hn Hd.
  induction Hrows as [|r rows [Hr Hv] _ IH]; intros n row d pre buf Hn Hd Hb; simpl in Hn; subst n.
  { destruct Hd as [?| ->]; [done|]. simpl. rewrite Nat.add_0_r, take_drop.
    apply fvecs_read_eof; [|done|lia]. left. cbn [pos content]. by rewrite app_nil_r. }
  cbn [Nat.add fvecs_read_loop fvecs_encode flat_map].
  change (flat_map _ rows) with (fvecs_encode ncol rows). rewrite <-app_assoc.
  pose proof (fs_read_exact pre (bytes_of_word (Z.of_nat ncol)) (bytes_of r ++ fvecs_encode ncol rows)) as Hr1.
  change (length (bytes_of_word (Z.of_nat ncol))) with 4 in Hr1. rewrite Hr1.
  rewrite overlay_int_word, s32_small, Z.eqb_refl by lia.
  pose proof (fs_read_exact (pre ++ bytes_of_word (Z.of_nat ncol)) (bytes_of r) (fvecs_encode ncol rows)) as Hr2.
  rewrite length_app, length_bytes_of, Hr, <-!app_assoc in Hr2.
  change (length (bytes_of_word (Z.of_nat ncol))) with 4 in Hr2. rewrite Hr2.
  rewrite overlay_at_bytes by (done || nia). cbn [rbind].
  specialize (IH (length rows) (S row) (Z.of_nat ncol) (pre ++ bytes_of_word (Z.of_nat ncol) ++ bytes_of r)
    (take (row * ncol) buf ++ r ++ drop (row * ncol + length r) buf)).
  rewrite <-!app_assoc in IH. rewrite !length_app, length_bytes_of, Hr in IH.
  change (length (bytes_of_word (Z.of_nat ncol))) with 4 in IH.
  replace (length pre + (4 + ncol * dtype_size)) with (length pre + 4 + ncol * dtype_size) in IH by lia.
  rewrite Hr, IH; [|done|by right|].
  2: { rewrite length_take, length_drop. nia. }
  assert (length (take (row * ncol) buf ++ r) = row * ncol + ncol) as Hlen.
  { rewrite length_app, length_take, Hr. nia. }
  rewrite (app_assoc (take (row * ncol) buf) r).
  rewrite (take_app_length' _ _ (S row * ncol)) by lia.
  rewrite drop_app_ge by lia. rewrite drop_drop, Hlen. cbn [concat]. rewrite <-!app_assoc.
  do 5 f_equal. nia.
Qed.

(** *** File names *)

Lemma rfind_dot_app s e :
  rfind_dot e = None → rfind_dot (s +:+ "." +:+ e) = Some (String.length s).
Proof.
  intros He. induction s as [|c s IH].
  - change ("" +:+ "." +:+ e) with (String "." e). simpl. by rewrite He.
  - change (String c s +:+ "." +:+ e) with (String c (s +:+ "." +:+ e)). simpl. by rewrite IH.
Qed.

Lemma string_drop_app s t : string_drop (String.length s) (s +:+ t) = t.
Proof. induction s as [|c s IH]; [by destruct t|exact IH]. Qed.

Lemma string_drop_S n s : string_drop (S n) s = string_drop 1 (string_drop n s).
Proof.
  revert s. induction n as [|n IH]; intros s; [done|]. destruct s as [|c s]; [done|]. apply IH.
Qed.

Lemma get_file_ext_spec s e : rfind_dot e = None → get_file_ext (s +:+ "." +:+ e) = e.
Proof.
  intros He. unfold get_file_ext. rewrite rfind_dot_app by done.
  rewrite string_drop_S, string_drop_app. by destruct e.
Qed.

(** ** Properties *)

(** C38. [fvecs_reader::read] is the inverse of the [fvecs] encoding: a file that
    holds the encoding of rows of [ncol] values each fills the buffer with
    exactly these values.  A file with fewer rows than announced is not
    noticed: the stream fails, [read_dim] keeps its old value, the assertion
    passes, and the rest of the buffer is left as it was. *)
Theorem fvecs_read_roundtrip files fn nrow ncol d0 rows buf :
  files fn = Some (fvecs_encode ncol rows) → rows ≠ [] → length rows ≤ nrow →
  (Z.of_nat ncol < 2 ^ 31)%Z →
  Forall (λ r, length r = ncol ∧ Forall valid_float r) rows → nrow * ncol ≤ length buf →
  fvecs_read files fn nrow ncol d0 buf = Ok (concat rows ++ drop (length rows * ncol) buf).
Proof.
  intros Hf Hne Hlen Hncol Hrows Hb. unfold fvecs_read. rewrite Hf.
  replace nrow with (length rows + (nrow - length rows)) by lia.
  apply (fvecs_read_rows (length rows) (nrow - length rows) 0 ncol d0 [] rows buf); try done.
  - left. by destruct rows.
  - nia.
Qed.

Definition ex_rows : list (list data_t) := [[of_int 1; of_int 2]; [of_int 3; of_int (-4)]].

Lemma fvecs_read_roundtrip_witness :
  fvecs_read (λ _, Some (fvecs_encode 2 ex_rows)) "base.fvecs" 3 2 77 (replicate 6 (of_int 9))
    = Ok [of_int 1; of_int 2; of_int 3; of_int (-4); of_int 9; of_int 9].
Proof.
  apply (fvecs_read_roundtrip (λ _, Some (fvecs_encode 2 ex_rows)) "base.fvecs" 3 2 77 ex_rows);
    [reflexivity|done|simpl; lia|lia| |simpl; lia].
  repeat (apply Forall_cons_2; [split; [reflexivity|];
    repeat (apply Forall_cons_2; [split; reflexivity|]); apply Forall_nil_2|]); apply Forall_nil_2.
Defined.
