(* ===== verification/IO.v ===== *)
(** * [io/IO.hpp] and [io/IOfactory.hpp]: matrices in memory and on disk

    [IO] is the base class; [MemoryIO] keeps the matrix in an array, [SyncIO]
    reads it from a stream on every access.  The class [MatrixIO] states what
    the tree nodes rely on: [get_col] and [get_row] return the columns and rows
    of one fixed matrix, whatever the orientation; both implementations are
    instances. *)
From S2P Require Import Prelude DataT Types Stream.
From stdpp Require Import options.

(** ** The base class *)

Record IO := mkIO {
  fn_ : string;
  data : option (list data_t);
  orient : mat_orient_t;
  dim : nat * nat
}.

Definition IO_ctor : IO := mkIO "" None INVALID (0, 0).
Definition IO_ctor_fn (fn : string) : IO := mkIO fn None INVALID (0, 0).
Definition IO_ctor_dim (d : nat * nat) (o : mat_orient_t) : IO := mkIO "" None o d.

Definition set_orientation_base (o : mat_orient_t) (io : IO) : IO := mkIO (fn_ io) (data io) o (dim io).
Definition set_fn_base (fn : string) (io : IO) : IO := mkIO fn (data io) (orient io) (dim io).
Definition shape_base (d : nat * nat) (io : IO) : IO := mkIO (fn_ io) (data io) (orient io) d.
Definition set_data_ptr (d : option (list data_t)) (io : IO) : IO := mkIO (fn_ io) d (orient io) (dim io).
Definition shape (io : IO) : nat * nat := dim io.
Definition get_orientation (io : IO) : mat_orient_t := orient io.
Definition get_fn (io : IO) : string := fn_ io.

(** What a [data_t*] returned by an accessor points to: the array of the object
    from an offset on, or an array allocated for the caller. *)
Inductive buf :=
  | View (offset : nat)
  | Fresh (arr : list data_t).

Definition read_buf (arr : list data_t) (b : buf) : list data_t :=
  match b with View o => drop o arr | Fresh a => a end.

(** ** [MemoryIO] *)

Module MemoryIO.
Record t := mk { base : IO; is_data_local : bool }.

Definition MemoryIO_ctor : t := mk IO_ctor false.
(** The constructor with a buffer does not set [is_data_local], which keeps an
    indeterminate value [ind]. *)
Definition MemoryIO_ctor_data (ind : bool) (d : list data_t) (dm : nat * nat) (o : mat_orient_t) : t :=
  mk (set_data_ptr (Some d) (IO_ctor_dim dm o)) ind.

(** [create]: the singleton [memIOSingleton] is made by the first call; later
    calls ignore their arguments. *)
Definition create (singleton : option t) : t :=
  match singleton with Some io => io | None => MemoryIO_ctor end.
Definition create_data (ind : bool) (d : list data_t) (dm : nat * nat) (o : mat_orient_t)
    (singleton : option t) : t :=
  match singleton with Some io => io | None => MemoryIO_ctor_data ind d dm o end.

Definition upd_base (f : IO → IO) (io : t) : t := mk (f (base io)) (is_data_local io).

Definition set_fn (fn : string) (io : t) : t :=
  if decide (fn_ (base io) = "") then upd_base (set_fn_base fn) io else io.
Definition set_orientation (o : mat_orient_t) (io : t) : t :=
  if decide (orient (base io) = INVALID) then upd_base (set_orientation_base o) io else io.
Definition set_shape (d : nat * nat) (io : t) : t :=
  if decide (dim (base io) = (0, 0)) then upd_base (shape_base d) io else io.

Definition set_data (d : option (list data_t)) (io : t) : t :=
  match data (base io) with Some _ => io | None => upd_base (set_data_ptr d) io end.
Definition get_data (io : t) : option (list data_t) := data (base io).

(** [from_file]: the array is allocated before the file is opened; [junk] is
    the indeterminate value of its elements. *)
Definition from_file (files : string → option (list Z)) (junk : data_t) (junk_int : Z) : M t unit :=
  let! io := mget in
  match data (base io) with
  | Some _ => mret tt
  | None =>
      massert (bool_decide (fn_ (base io) ≠ ""));;;
      let '(n, m) := dim (base io) in
      let arr := replicate (n * m) junk in
      mmodify (upd_base (set_data_ptr (Some arr)));;;
      let! arr :=
        mlift (if decide (get_file_ext (fn_ (base io)) = "fvecs")
               then fvecs_read files (fn_ (base io)) n m junk_int arr
               else match files (fn_ (base io)) with
                    | None => Throw (open_error (fn_ (base io)))
                    | Some c => overlay arr (fs_read (n * m * dtype_size) (mkFS true c 0 true)).2
                    end) in
      mmodify (λ io, mk (set_data_ptr (Some arr) (base io)) true)
  end.

(** [read(buf, offset, nbytes)] assigns its own parameter: the caller's buffer
    is unchanged. *)
Definition read (callers_buf : list data_t) (offset nbytes : nat) (io : t) : list data_t :=
  let _ := View offset in callers_buf.

(** [write]: the new contents of the file [fn]. *)
Definition write (io : t) : res (string * list Z) :=
  if decide (fn_ (base io) = "") then Throw AssertFailed
  else match data (base io) with
       | None => Throw Segfault
       | Some d =>
           let '(n, m) := dim (base io) in
           if n * m <=? length d then Ok (fn_ (base io), bytes_of (take (n * m) d)) else Throw Segfault
       end.

(** The two nested loops of [transpose] (the same in both branches), as the
    sequence of the writes [tmp[col*dim.first+row] = data[row*dim.second+col]]. *)
Definition transpose_write (n m : nat) (d : list data_t) (acc : res (list data_t)) (rc : nat * nat)
  : res (list data_t) :=
  let '(row, col) := rc in
  let? tmp := acc in
  match d !! (row * m + col) with
  | Some x => if col * n + row <? length tmp then Ok (<[col * n + row := x]> tmp) else Throw Segfault
  | None => Throw Segfault
  end.

Definition transpose_loop (n m : nat) (d tmp : list data_t) : res (list data_t) :=
  fold_left (transpose_write n m d) (list_prod (seq 0 n) (seq 0 m)) (Ok tmp).

Definition transpose (junk : data_t) : M t unit :=
  let! io := mget in
  let '(n, m) := dim (base io) in
  let! tmp := mlift (match data (base io) with
                     | None => if n * m =? 0 then Ok [] else Throw Segfault
                     | Some d => transpose_loop n m d (replicate (n * m) junk)
                     end) in
  mmodify (upd_base (λ b,
    mkIO (fn_ b) (Some tmp) (if decide (orient b = ROW) then COL else ROW) (m, n))).

(** A strided copy: [tmp[i] = data[i*stride+offset]] for [i < len]. *)
Fixpoint gather (d : list data_t) (stride offset len i : nat) : res (list data_t) :=
  match len with
  | O => Ok []
  | S len =>
      match d !! (i * stride + offset) with
      | None => Throw Segfault
      | Some x => let? r := gather d stride offset len (S i) in Ok (x :: r)
      end
  end.

Definition gather_buf (d : option (list data_t)) (stride offset len : nat) : res buf :=
  match d with
  | None => if len =? 0 then Ok (Fresh []) else Throw Segfault
  | Some d => let? a := gather d stride offset len 0 in Ok (Fresh a)
  end.

Definition get_col (offset : nat) (io : t) : res buf :=
  let '(n, m) := dim (base io) in
  match orient (base io) with
  | COL => Ok (View (offset * n))
  | ROW => gather_buf (data (base io)) m offset n
  | _ => Throw not_implemented_exception
  end.

Definition get_row (offset : nat) (io : t) : res buf :=
  let '(n, m) := dim (base io) in
  match orient (base io) with
  | ROW => Ok (View (offset * m))
  | COL => gather_buf (data (base io)) n offset m
  | _ => Throw not_implemented_exception
  end.

Definition destroy (io : t) : t :=
  match data (base io) with
  | Some _ => if is_data_local io then upd_base (set_data_ptr None) io else io
  | None => io
  end.
End MemoryIO.

(** ** [SyncIO] *)

Module SyncIO.
Record t := mk { base : IO; fs : fstream }.

Definition SyncIO_ctor : t := mk IO_ctor closed_stream.
Definition SyncIO_ctor_fn (fn : string) : t := mk (IO_ctor_fn fn) closed_stream.

Definition set_base (b : IO) (io : t) : t := mk b (fs io).
Definition set_fs (f : fstream) (io : t) : t := mk (base io) f.

(** [open]: opening an open stream sets its failure state. *)
Definition open (files : string → option (list Z)) : M t unit :=
  let! io := mget in
  if is_open (fs io) then mmodify (set_fs (mkFS true (content (fs io)) (pos (fs io)) false))
  else match files (fn_ (base io)) with
       | Some c => mmodify (set_fs (mkFS true c 0 (good (fs io))))
       | None =>
           mmodify (set_fs (mkFS false [] 0 false));;;
           mthrow (open_error (fn_ (base io)))
       end.

Definition set_fn (files : string → option (list Z)) (fn : string) : M t unit :=
  mmodify (λ io, set_base (set_fn_base fn (base io)) io);;; open files.

(** [SyncIO(fn, dim, orient)] *)
Definition SyncIO_ctor_dim (files : string → option (list Z)) (fn : string) (d : nat * nat)
    (o : mat_orient_t) : t * res unit :=
  set_fn files fn (mk (IO_ctor_dim d o) closed_stream).

(** [read(buf)]: the whole file, from the current position. *)
Definition read (files : string → option (list Z)) (b : list data_t) : M t (list data_t) :=
  let! io := mget in
  (if is_open (fs io) then mret tt else open files);;;
  let! io := mget in
  let '(f, bs) := fs_read (Z.to_nat (get_file_size files (fn_ (base io)))) (fs io) in
  mmodify (set_fs f);;;
  mlift (overlay b bs).

Definition write (b : list data_t) (nbytes : nat) : M t unit :=
  if nbytes <=? length b * dtype_size
  then mmodify (λ io, set_fs (fs_write (take nbytes (bytes_of b)) (fs io)) io)
  else mthrow Segfault.

Definition write_at (b : list data_t) (offset nbytes : nat) : M t unit :=
  mmodify (λ io, set_fs (fs_seekp offset (fs io)) io);;; write b nbytes.

(** [append(buf, nelem)] writes at the current position. *)
Definition append (b : list data_t) (nelem : nat) : M t unit := write b (dtype_size * nelem).

(** Seeks to element [i] of the file and reads [len] elements over [arr]. *)
Definition read_elems (i len : nat) (arr : list data_t) : M t (list data_t) :=
  let! io := mget in
  let '(f, bs) := fs_read (dtype_size * len) (fs_seekp (i * dtype_size) (fs io)) in
  mmodify (set_fs f);;;
  mlift (overlay arr bs).

(** The element-wise loops [for (j...) { seekp((j*stride+offset)*size); read(&tmp[j]) }]. *)
Fixpoint gather (junk : data_t) (stride offset len j : nat) : M t (list data_t) :=
  match len with
  | O => mret []
  | S len =>
      let! x := read_elems (j * stride + offset) 1 [junk] in
      let! r := gather junk stride offset len (S j) in
      mret (x ++ r)
  end.

(** In column orientation the column is read into the one buffer [data] of the
    object, allocated by the first call. *)
Definition get_col (junk : data_t) (offset : nat) : M t buf :=
  let! io := mget in
  massert (is_open (fs io));;;
  let '(n, m) := dim (base io) in
  match orient (base io) with
  | COL =>
      let arr := match data (base io) with Some a => a | None => replicate n junk end in
      let! arr := read_elems (offset * n) n arr in
      mmodify (λ io, set_base (set_data_ptr (Some arr) (base io)) io);;;
      mret (View 0)
  | ROW => let! a := gather junk m offset n 0 in mret (Fresh a)
  | _ => mthrow not_implemented_exception
  end.

Definition get_row (junk : data_t) (offset : nat) : M t buf :=
  let! io := mget in
  massert (is_open (fs io));;;
  let '(n, m) := dim (base io) in
  match orient (base io) with
  | ROW => let! a := read_elems (offset * m) m (replicate m junk) in mret (Fresh a)
  | COL => let! a := gather junk n offset m 0 in mret (Fresh a)
  | _ => mthrow not_implemented_exception
  end.

(** [destroy] closes the stream and frees [data] without clearing the pointer;
    the second component tells whether an array was freed. *)
Definition destroy (io : t) : t * bool :=
  (set_fs (if is_open (fs io) then fs_close (fs io) else fs io) io,
   match data (base io) with Some _ => true | None => false end).
End SyncIO.

(** ** [IOfactory] *)

Inductive any_io :=
  | AMem (io : MemoryIO.t)
  | ASync (io : SyncIO.t).

Definition IOfactory_create (iotype : io_t) (singleton : option MemoryIO.t) : res any_io :=
  match iotype with
  | MEM => Ok (AMem (MemoryIO.create singleton))
  | SEM => Throw not_implemented_exception
  | SYNC => Ok (ASync SyncIO.SyncIO_ctor)
  end.

(** ** The interface the nodes use *)

Record matrix := mkMat { mrows : nat; mcols : nat; mentry : nat → nat → data_t }.

Definition mcol (m : matrix) (c : nat) : list data_t := map (λ r, mentry m r c) (seq 0 (mrows m)).
Definition mrow (m : matrix) (r : nat) : list data_t := map (λ c, mentry m r c) (seq 0 (mcols m)).

(** [io_repr io m]: the object gives access to the matrix [m].  The accessors
    return what can be read from the returned pointer. *)
Class MatrixIO (I : Type) := {
  io_shape : I → nat * nat;
  io_orient : I → mat_orient_t;
  io_get_col : nat → M I (list data_t);
  io_get_row : nat → M I (list data_t);
  io_repr : I → matrix → Prop;
  io_shape_ok io m : io_repr io m → io_shape io = (mrows m, mcols m);
  io_get_col_ok io m c :
    io_repr io m → c < mcols m →
    ∃ io' b, io_get_col c io = (io', Ok b) ∧ take (mrows m) b = mcol m c ∧
      io_repr io' m ∧ io_orient io' = io_orient io;
  io_get_row_ok io m r :
    io_repr io m → r < mrows m →
    ∃ io' b, io_get_row r io = (io', Ok b) ∧ take (mcols m) b = mrow m r ∧
      io_repr io' m ∧ io_orient io' = io_orient io
}.

(** *** [MemoryIO] implements it *)

(** The position of entry [(r, c)] in the array. *)
Definition index_of (o : mat_orient_t) (n m r c : nat) : nat :=
  match o with COL => c * n + r | _ => r * m + c end.

Definition holds (o : mat_orient_t) (l : list data_t) (m : matrix) : Prop :=
  (o = ROW ∨ o = COL) ∧
  ∀ r c, r < mrows m → c < mcols m → l !! index_of o (mrows m) (mcols m) r c = Some (mentry m r c).

Definition mem_repr (io : MemoryIO.t) (m : matrix) : Prop :=
  dim (MemoryIO.base io) = (mrows m, mcols m) ∧
  ∃ l, data (MemoryIO.base io) = Some l ∧ holds (orient (MemoryIO.base io)) l m.

Lemma gather_spec l stride offset len i f :
  (∀ j, i ≤ j < i + len → l !! (j * stride + offset) = Some (f j)) →
  MemoryIO.gather l stride offset len i = Ok (map f (seq i len)).
Proof.
  revert i. induction len as [|len IH]; intros i Hl; cbn [MemoryIO.gather]; [done|].
  rewrite (Hl i) by lia. rewrite IH; [done|]. intros. apply Hl. lia.
Qed.

Lemma take_drop_map l (f : nat → data_t) o n :
  (∀ j, j < n → l !! (o + j) = Some (f j)) → take n (drop o l) = map f (seq 0 n).
Proof.
  intros Hl. apply list_eq. intros j. destruct (decide (j < n)) as [Hj|Hj].
  - rewrite lookup_take_lt, lookup_drop, Hl by done.
    rewrite list_lookup_fmap, lookup_seq_lt by done. done.
  - rewrite lookup_take_ge by lia. symmetry. apply lookup_ge_None. rewrite length_map, length_seq. lia.
Qed.

Lemma mem_get_col_ok io m c :
  mem_repr io m → c < mcols m →
  ∃ b l, MemoryIO.get_col c io = Ok b ∧ data (MemoryIO.base io) = Some l ∧
    take (mrows m) (read_buf l b) = mcol m c.
Proof.
  intros (Hd & l & Hl & [Ho Hh]) Hc. unfold MemoryIO.get_col. rewrite Hd, Hl.
  destruct Ho as [Ho|Ho]; rewrite Ho in *; cbn [index_of] in Hh.
  - cbn [MemoryIO.gather_buf].
    rewrite (gather_spec l (mcols m) c (mrows m) 0 (λ r, mentry m r c)) by (intros; apply Hh; lia).
    cbn [rbind]. eexists _, l. split_and!; [done..|]. cbn [read_buf].
    unfold mcol, mrow. apply take_ge. by rewrite length_map, length_seq.
  - eexists _, l. split_and!; [done..|]. cbn [read_buf]. apply take_drop_map. intros. by apply Hh.
Qed.

Lemma mem_get_row_ok io m r :
  mem_repr io m → r < mrows m →
  ∃ b l, MemoryIO.get_row r io = Ok b ∧ data (MemoryIO.base io) = Some l ∧
    take (mcols m) (read_buf l b) = mrow m r.
Proof.
  intros (Hd & l & Hl & [Ho Hh]) Hc. unfold MemoryIO.get_row. rewrite Hd, Hl.
  destruct Ho as [Ho|Ho]; rewrite Ho in *; cbn [index_of] in Hh.
  - eexists _, l. split_and!; [done..|]. cbn [read_buf]. apply take_drop_map. intros. by apply Hh.
  - cbn [MemoryIO.gather_buf].
    rewrite (gather_spec l (mrows m) r (mcols m) 0 (λ c, mentry m r c)) by (intros; apply Hh; lia).
    cbn [rbind]. eexists _, l. split_and!; [done..|]. cbn [read_buf].
    unfold mcol, mrow. apply take_ge. by rewrite length_map, length_seq.
Qed.

(** What the caller reads through the returned pointer. *)
Definition deref (d : option (list data_t)) (b : res buf) : res (list data_t) :=
  let? b := b in Ok (read_buf (default [] d) b).

#[export] Program Instance MemoryIO_matrix : MatrixIO MemoryIO.t := {|
  io_shape io := dim (MemoryIO.base io);
  io_orient io := orient (MemoryIO.base io);
  io_get_col c io := (io, deref (data (MemoryIO.base io)) (MemoryIO.get_col c io));
  io_get_row r io := (io, deref (data (MemoryIO.base io)) (MemoryIO.get_row r io));
  io_repr := mem_repr
|}.
Next Obligation. by intros io m [? _]. Qed.
Next Obligation.
  intros io m c Hr Hc. destruct (mem_get_col_ok io m c Hr Hc) as (b & l & -> & Hl & Ht).
  exists io, (read_buf l b). rewrite Hl. by split_and!.
Qed.
Next Obligation.
  intros io m c Hr Hc. destruct (mem_get_row_ok io m c Hr Hc) as (b & l & -> & Hl & Ht).
  exists io, (read_buf l b). rewrite Hl. by split_and!.
Qed.

(** *** [SyncIO] implements it *)

Definition stream_ok (f : fstream) (l : list data_t) : Prop :=
  is_open f = true ∧ good f = true ∧ content f = bytes_of l ∧ Forall valid_float l.

Definition sync_repr (io : SyncIO.t) (m : matrix) : Prop :=
  dim (SyncIO.base io) = (mrows m, mcols m) ∧
  (∀ a, data (SyncIO.base io) = Some a → length a = mrows m) ∧
  ∃ l, stream_ok (SyncIO.fs io) l ∧ holds (orient (SyncIO.base io)) l m.

Lemma bytes_of_app l1 l2 : bytes_of (l1 ++ l2) = bytes_of l1 ++ bytes_of l2.
Proof. apply flat_map_app. Qed.

Lemma read_elems_spec io l i len arr :
  stream_ok (SyncIO.fs io) l → i + len ≤ length l → len ≤ length arr →
  ∃ f, SyncIO.read_elems i len arr io
         = (SyncIO.set_fs f io, Ok (take len (drop i l) ++ drop len arr)) ∧ stream_ok f l.
Proof.
  intros (Ho & Hg & Hc & Hv) Hi Hl. destruct io as [b [o c p g]]. simpl in *. subst.
  unfold SyncIO.read_elems. rewrite (mbind_ok _ _ _ _ _ eq_refl : mbind' mget _ _ = _).
  cbn [SyncIO.fs fs_seekp good is_open content].
  assert (length (take len (drop i l)) = len) as Hlen by (rewrite length_take, length_drop; lia).
  pose proof (fs_read_exact (bytes_of (take i l)) (bytes_of (take len (drop i l)))
    (bytes_of (drop (i + len) l))) as Hr.
  rewrite <-!bytes_of_app, !length_bytes_of, Hlen in Hr.
  rewrite length_take_le in Hr by lia.
  assert (take i l ++ take len (drop i l) ++ drop (i + len) l = l) as Hsplit.
  { rewrite <-(drop_drop l len i). by rewrite !take_drop. }
  rewrite Hsplit in Hr. rewrite (Nat.mul_comm dtype_size len), Hr.
  rewrite overlay_bytes; [|by apply Forall_take, Forall_drop|lia]. rewrite Hlen.
  eexists. split; [reflexivity|]. by split_and!.
Qed.

Lemma sync_gather_spec io l junk stride offset len j f :
  stream_ok (SyncIO.fs io) l →
  (∀ i, j ≤ i < j + len → l !! (i * stride + offset) = Some (f i)) →
  ∃ g, SyncIO.gather junk stride offset len j io
         = (SyncIO.set_fs g io, Ok (map f (seq j len))) ∧ stream_ok g l.
Proof.
  revert j io. induction len as [|len IH]; intros j io Hs Hl; cbn [SyncIO.gather].
  { exists (SyncIO.fs io). by destruct io. }
  pose proof (Hl j ltac:(lia)) as Hj. pose proof (lookup_lt_Some _ _ _ Hj) as Hlt.
  destruct (read_elems_spec io l (j * stride + offset) 1 [junk] Hs) as (f1 & Hr & Hs1); [lia|simpl; lia|].
  rewrite (mbind_ok _ _ _ _ _ Hr).
  destruct (IH (S j) (SyncIO.set_fs f1 io)) as (f2 & Hr2 & Hs2); [done|intros; apply Hl; lia|].
  rewrite (mbind_ok _ _ _ _ _ Hr2). exists f2. split; [|done].
  rewrite (drop_S _ _ _ Hj). done.
Qed.

Lemma holds_block_row l m r :
  holds ROW l m → r < mrows m →
  r * mcols m + mcols m ≤ length l ∧ take (mcols m) (drop (r * mcols m) l) = mrow m r.
Proof.
  intros [_ Hh] Hr. cbn [index_of] in Hh. split; [|apply take_drop_map; intros; by apply Hh].
  destruct (decide (mcols m = 0)) as [->|]; [lia|].
  pose proof (lookup_lt_Some _ _ _ (Hh r (mcols m - 1) Hr ltac:(lia))). lia.
Qed.

Lemma holds_block_col l m c :
  holds COL l m → c < mcols m →
  c * mrows m + mrows m ≤ length l ∧ take (mrows m) (drop (c * mrows m) l) = mcol m c.
Proof.
  intros [_ Hh] Hc. cbn [index_of] in Hh. split; [|apply take_drop_map; intros; by apply Hh].
  destruct (decide (mrows m = 0)) as [->|]; [lia|].
  pose proof (lookup_lt_Some _ _ _ (Hh (mrows m - 1) c ltac:(lia) Hc)). lia.
Qed.

Lemma sync_get_row_ok junk io m r :
  sync_repr io m → r < mrows m →
  ∃ io', SyncIO.get_row junk r io = (io', Ok (Fresh (mrow m r))) ∧ sync_repr io' m ∧
    orient (SyncIO.base io') = orient (SyncIO.base io).
Proof.
  intros (Hd & Hbuf & l & Hs & Hh) Hr. pose proof Hs as (Ho & _). unfold SyncIO.get_row.
  rewrite (mbind_ok _ _ _ _ _ eq_refl : mbind' mget _ _ = _), Ho, Hd.
  rewrite (mbind_ok (massert true) _ _ _ _ eq_refl).
  pose proof Hh as [[Hor|Hor] Hcells]; rewrite Hor in *.
  - destruct (holds_block_row l m r Hh Hr) as [Hlen Hrow].
    destruct (read_elems_spec io l (r * mcols m) (mcols m) (replicate (mcols m) junk) Hs Hlen)
      as (f & Hrun & Hf); [by rewrite length_replicate|].
    rewrite (mbind_ok _ _ _ _ _ Hrun), Hrow, drop_ge, app_nil_r by (by rewrite length_replicate).
    eexists. split; [reflexivity|]. split; [|done]. split_and!; [done..|]. exists l. cbn. by rewrite Hor.
  - destruct (sync_gather_spec io l junk (mrows m) r (mcols m) 0 (λ c, mentry m r c) Hs) as (f & Hrun & Hf).
    { intros. apply Hcells; lia. }
    rewrite (mbind_ok _ _ _ _ _ Hrun).
    eexists. split; [reflexivity|]. split; [|done]. split_and!; [done..|]. exists l. cbn. by rewrite Hor.
Qed.

Lemma sync_get_col_ok junk io m c :
  sync_repr io m → c < mcols m →
  ∃ io' b, SyncIO.get_col junk c io = (io', Ok b) ∧
    read_buf (default [] (data (SyncIO.base io'))) b = mcol m c ∧ sync_repr io' m ∧
    orient (SyncIO.base io') = orient (SyncIO.base io).
Proof.
  intros (Hd & Hbuf & l & Hs & Hh) Hc. pose proof Hs as (Ho & _). unfold SyncIO.get_col.
  rewrite (mbind_ok _ _ _ _ _ eq_refl : mbind' mget _ _ = _), Ho, Hd.
  rewrite (mbind_ok (massert true) _ _ _ _ eq_refl).
  pose proof Hh as [[Hor|Hor] Hcells]; rewrite Hor in *.
  - destruct (sync_gather_spec io l junk (mcols m) c (mrows m) 0 (λ r, mentry m r c) Hs) as (f & Hrun & Hf).
    { intros. apply Hcells; lia. }
    rewrite (mbind_ok _ _ _ _ _ Hrun).
    eexists _, _. split; [reflexivity|]. split_and!; [done| |done]. split_and!; [done..|].
    exists l. cbn. by rewrite Hor.
  - destruct (holds_block_col l m c Hh Hc) as [Hlen Hcol].
    set (arr := match data (SyncIO.base io) with Some a => a | None => replicate (mrows m) junk end).
    assert (length arr = mrows m) as Harr.
    { unfold arr. destruct (data (SyncIO.base io)) eqn:E; [by apply Hbuf|apply length_replicate]. }
    destruct (read_elems_spec io l (c * mrows m) (mrows m) arr Hs Hlen) as (f & Hrun & Hf); [lia|].
    rewrite (mbind_ok _ _ _ _ _ Hrun), Hcol, drop_ge, app_nil_r by lia.
    rewrite (mbind_ok _ _ _ _ _ eq_refl : mbind' (mmodify _) _ _ = _).
    eexists _, _. split; [reflexivity|]. cbn. split_and!; [done| |done]. split_and!; cbn; [done| |].
    + intros a [= <-]. unfold mcol. by rewrite length_map, length_seq.
    + exists l. by rewrite Hor.
Qed.

(** The indeterminate contents of fresh arrays never show. *)
#[export] Program Instance SyncIO_matrix : MatrixIO SyncIO.t := {|
  io_shape io := dim (SyncIO.base io);
  io_orient io := orient (SyncIO.base io);
  io_get_col c :=
    let! b := SyncIO.get_col fzero c in
    let! io := mget in mret (read_buf (default [] (data (SyncIO.base io))) b);
  io_get_row r :=
    let! b := SyncIO.get_row fzero r in
    let! io := mget in mret (read_buf (default [] (data (SyncIO.base io))) b);
  io_repr := sync_repr
|}.
Next Obligation. by intros io m [? _]. Qed.
Next Obligation.
  intros io m c Hr Hc. destruct (sync_get_col_ok fzero io m c Hr Hc) as (io' & b & Hrun & Hb & Hr' & Ho).
  exists io', (mcol m c). rewrite (mbind_ok _ _ _ _ _ Hrun).
  rewrite (mbind_ok _ _ _ _ _ eq_refl : mbind' mget _ _ = _), Hb. split_and!; [done| |done..].
  unfold mcol. apply take_ge. by rewrite length_map, length_seq.
Qed.
Next Obligation.
  intros io m r Hr Hc. destruct (sync_get_row_ok fzero io m r Hr Hc) as (io' & Hrun & Hr' & Ho).
  exists io', (mrow m r). rewrite (mbind_ok _ _ _ _ _ Hrun).
  split_and!; [done| |done..]. unfold mrow. apply take_ge. by rewrite length_map, length_seq.
Qed.

(** ** [transpose] *)

Lemma index_inj n r c r' c' : r < n → r' < n → c * n + r = c' * n + r' → r = r' ∧ c = c'.
Proof. intros H1 H2 He. assert (c = c') as -> by nia. split; [lia|done]. Qed.

Lemma transpose_loop_spec n m d tmp L :
  n * m ≤ length d → length tmp = n * m →
  (∀ r c, (r, c) ∈ L → r < n ∧ c < m) →
  ∃ tmp', fold_left (MemoryIO.transpose_write n m d) L (Ok tmp) = Ok tmp' ∧ length tmp' = n * m ∧
    ∀ r c, r < n → c < m →
      tmp' !! (c * n + r) = if decide ((r, c) ∈ L) then d !! (r * m + c) else tmp !! (c * n + r).
Proof.
  intros Hd. revert tmp. induction L as [|[r0 c0] L IH]; intros tmp Ht HL; cbn [fold_left].
  { exists tmp. split_and!; [done..|]. intros r c _ _. by rewrite decide_False by set_solver. }
  destruct (HL r0 c0) as [Hr0 Hc0]; [left|].
  destruct (lookup_lt_is_Some_2 d (r0 * m + c0)) as [x Hx]; [nia|].
  unfold MemoryIO.transpose_write at 2. cbn [rbind]. rewrite Hx, (proj2 (Nat.ltb_lt _ _)) by nia.
  destruct (IH (<[c0 * n + r0:=x]> tmp)) as (tmp' & Hrun & Hl & Hcells);
    [by rewrite length_insert|intros; apply HL; by right|].
  exists tmp'. split_and!; [done..|]. intros r c Hr Hc. rewrite Hcells by done.
  destruct (decide ((r, c) ∈ L)) as [Hin|Hin]; [by rewrite decide_True by (by right)|].
  destruct (decide ((r, c) = (r0, c0))) as [[= -> ->]|Hne].
  - rewrite decide_True by left. rewrite list_lookup_insert_eq by nia. by rewrite Hx.
  - rewrite decide_False by (by intros [?|?]%elem_of_cons).
    apply list_lookup_insert_ne. intros He. apply Hne.
    by destruct (index_inj n r0 c0 r c) as [-> ->].
Qed.

Lemma transpose_cells n m d junk :
  length d = n * m →
  ∃ tmp, MemoryIO.transpose_loop n m d (replicate (n * m) junk) = Ok tmp ∧ length tmp = n * m ∧
    ∀ r c, r < n → c < m → tmp !! (c * n + r) = d !! (r * m + c).
Proof.
  intros Hd. destruct (transpose_loop_spec n m d (replicate (n * m) junk) (list_prod (seq 0 n) (seq 0 m)))
    as (tmp & Hrun & Hl & Hcells); [lia|apply length_replicate| |].
  { intros r c [Hr Hc]%list_elem_of_In%in_prod_iff. apply in_seq in Hr, Hc. lia. }
  exists tmp. split_and!; [done..|]. intros r c Hr Hc. rewrite Hcells by done.
  rewrite decide_True; [done|]. apply list_elem_of_In, in_prod_iff. rewrite !in_seq. lia.
Qed.

(** Every position of the array is the position of an entry. *)
Lemma index_surj n m i : i < n * m → ∃ r c, r < n ∧ c < m ∧ i = r * m + c.
Proof.
  intros Hi. assert (m ≠ 0) by (intros ->; lia). exists (i / m), (i mod m).
  pose proof (Nat.div_mod i m). pose proof (Nat.mod_upper_bound i m).
  split_and!; [apply Nat.Div0.div_lt_upper_bound; nia|lia|nia].
Qed.

Lemma transpose_run io junk l n m :
  data (MemoryIO.base io) = Some l → dim (MemoryIO.base io) = (n, m) → length l = n * m →
  ∃ io' l', MemoryIO.transpose junk io = (io', Ok tt) ∧
    data (MemoryIO.base io') = Some l' ∧ dim (MemoryIO.base io') = (m, n) ∧ length l' = m * n ∧
    orient (MemoryIO.base io') = (if decide (orient (MemoryIO.base io) = ROW) then COL else ROW) ∧
    fn_ (MemoryIO.base io') = fn_ (MemoryIO.base io) ∧
    MemoryIO.is_data_local io' = MemoryIO.is_data_local io ∧
    ∀ r c, r < n → c < m → l' !! (c * n + r) = l !! (r * m + c).
Proof.
  intros Hl Hd Hlen. destruct (transpose_cells n m l junk Hlen) as (tmp & Hrun & Htl & Hcells).
  unfold MemoryIO.transpose. rewrite (mbind_ok _ _ _ _ _ eq_refl : mbind' mget _ _ = _), Hd, Hl, Hrun.
  erewrite mbind_ok by reflexivity. eexists _, tmp. split; [reflexivity|].
  cbn. split_and!; try done. lia.
Qed.

(** [from_file] of a complete file. *)
Lemma from_file_spec files junk ji fn n m o l :
  fn ≠ "" → get_file_ext fn ≠ "fvecs" → length l = n * m → Forall valid_float l →
  files fn = Some (bytes_of l) →
  MemoryIO.from_file files junk ji (MemoryIO.mk (mkIO fn None o (n, m)) false)
    = (MemoryIO.mk (mkIO fn (Some l) o (n, m)) true, Ok tt).
Proof.
  intros Hfn Hext Hl Hv Hf. unfold MemoryIO.from_file. rewrite (mbind_ok _ _ _ _ _ eq_refl : mbind' mget _ _ = _). cbn.
  rewrite bool_decide_true by done. rewrite (mbind_ok (massert true) _ _ _ _ eq_refl).
  rewrite (mbind_ok _ _ _ _ _ eq_refl : mbind' (mmodify _) _ _ = _).
  rewrite decide_False, Hf by done. unfold fs_read. cbn [is_open good andb pos content snd]. rewrite drop_0.
  rewrite take_ge by (rewrite length_bytes_of; lia).
  rewrite overlay_bytes by (done || rewrite length_replicate; lia).
  rewrite drop_ge, app_nil_r by (rewrite length_replicate; lia).
  by rewrite (mbind_ok _ _ _ _ _ eq_refl : mbind' (mlift (Ok l)) _ _ = _).
Qed.

(** ** Properties *)

(** [MemoryIO] and [SyncIO] give the same access to a matrix: on objects that
    hold the same matrix, in memory and in a file, in either orientation,
    [get_col] and [get_row] of both return exactly the columns and rows of the
    matrix and keep it accessible. *)
Theorem io_access_agrees mem sync m r c :
  io_repr (I := MemoryIO.t) mem m → io_repr (I := SyncIO.t) sync m →
  r < mrows m → c < mcols m →
  ∃ s1 s2 b1 b2 b3 b4,
    io_get_row r mem = (mem, Ok b1) ∧ io_get_row r sync = (s1, Ok b2) ∧
    take (mcols m) b1 = mrow m r ∧ take (mcols m) b2 = mrow m r ∧
    io_get_col c mem = (mem, Ok b3) ∧ io_get_col c s1 = (s2, Ok b4) ∧
    take (mrows m) b3 = mcol m c ∧ take (mrows m) b4 = mcol m c ∧ io_repr s2 m.
Proof.
  intros Hm Hs Hr Hc.
  destruct (io_get_row_ok mem m r Hm Hr) as (mem' & b1 & H1 & Hb1 & _).
  destruct (io_get_col_ok mem m c Hm Hc) as (mem'' & b3 & H3 & Hb3 & _).
  destruct (io_get_row_ok sync m r Hs Hr) as (s1 & b2 & H2 & Hb2 & Hs1 & _).
  destruct (io_get_col_ok s1 m c Hs1 Hc) as (s2 & b4 & H4 & Hb4 & Hs2 & _).
  exists s1, s2, b1, b2, b3, b4. injection H1 as <- H1. injection H3 as <- H3.
  cbn. rewrite H1, H3. by split_and!.
Qed.

(** [MemoryIO::transpose] swaps the dimensions and the orientation, and doing
    it twice restores the object.  For a square matrix a single call changes
    only the storage order: the object still gives access to the same matrix,
    not to its transpose. *)
Theorem mem_transpose_involution io junk l n m :
  data (MemoryIO.base io) = Some l → dim (MemoryIO.base io) = (n, m) → length l = n * m →
  orient (MemoryIO.base io) = ROW ∨ orient (MemoryIO.base io) = COL →
  ∃ io', MemoryIO.transpose junk io = (io', Ok tt) ∧
    dim (MemoryIO.base io') = (m, n) ∧ orient (MemoryIO.base io') ≠ orient (MemoryIO.base io) ∧
    MemoryIO.transpose junk io' = (io, Ok tt) ∧
    (n = m → ∀ mat, mem_repr io mat → mem_repr io' mat).
Proof.
  intros Hl Hd Hlen Ho.
  destruct (transpose_run io junk l n m Hl Hd Hlen) as (io1 & l1 & Hrun1 & Hl1 & Hd1 & Hlen1 & Ho1 & Hf1 & Hi1 & Hc1).
  destruct (transpose_run io1 junk l1 m n Hl1 Hd1 Hlen1) as (io2 & l2 & Hrun2 & Hl2 & Hd2 & Hlen2 & Ho2 & Hf2 & Hi2 & Hc2).
  exists io1. split_and!; [done..| | |].
  - rewrite Ho1. by destruct Ho as [-> | ->].
  - rewrite Hrun2. f_equal. destruct io2 as [[f2 d2 o2 dm2] i2], io as [[f d o dm] i].
    cbn in *. subst. rewrite Ho1. assert (l2 = l) as ->; [|by destruct Ho as [-> | ->]].
    apply list_eq. intros i0. destruct (decide (i0 < n * m)) as [Hi0|Hi0].
    + destruct (index_surj n m i0 Hi0) as (r & c & Hr & Hc & ->). by rewrite Hc2, Hc1.
    + rewrite !lookup_ge_None_2 by lia. done.
  - intros -> mat (Hdm & l0 & Hl0 & [_ Hcells]). rewrite Hd in Hdm. injection Hdm as Hn Hm.
    rewrite Hl0 in Hl. injection Hl as ->. split; [rewrite Hd1; congruence|]. exists l1. split; [done|].
    split; [rewrite Ho1; destruct (decide _); [by right|by left]|]. intros r c Hr Hc. rewrite <-Hcells by done. rewrite Ho1.
    rewrite <-Hn, <-Hm in *. destruct Ho as [-> | ->]; cbn [decide index_of].
    + rewrite decide_True by done. cbn [index_of]. rewrite Hc1 by lia. done.
    + rewrite decide_False by done. cbn [index_of]. rewrite <-(Hc1 c r) by lia. done.
Qed.

(** [MemoryIO::write] followed by [from_file] in a fresh object of the same
    shape restores the matrix bit for bit (for a file that is not an [fvecs]
    file). *)
Theorem mem_write_from_file_roundtrip files junk ji fn n m o l :
  fn ≠ "" → get_file_ext fn ≠ "fvecs" → length l = n * m → Forall valid_float l →
  ∃ bs, MemoryIO.write (MemoryIO.mk (mkIO fn (Some l) o (n, m)) false) = Ok (fn, bs) ∧
    (files fn = Some bs →
     MemoryIO.from_file files junk ji (MemoryIO.mk (mkIO fn None o (n, m)) false)
       = (MemoryIO.mk (mkIO fn (Some l) o (n, m)) true, Ok tt)).
Proof.
  intros Hfn Hext Hl Hv. exists (bytes_of l). split.
  - unfold MemoryIO.write. cbn. rewrite decide_False by done.
    rewrite (proj2 (Nat.leb_le _ _)) by lia. by rewrite take_ge by lia.
  - intros Hf. by apply from_file_spec.
Qed.

(** When the file cannot be opened, [MemoryIO::from_file] throws but keeps the
    array it has allocated, so that a second call returns normally and the
    object presents indeterminate values as its matrix. *)
Theorem mem_from_file_failure_sticks files junk ji io n m :
  data (MemoryIO.base io) = None → fn_ (MemoryIO.base io) ≠ "" →
  dim (MemoryIO.base io) = (n, m) → files (fn_ (MemoryIO.base io)) = None →
  ∃ io', MemoryIO.from_file files junk ji io
           = (io', Throw (open_error (fn_ (MemoryIO.base io)))) ∧
    MemoryIO.from_file files junk ji io' = (io', Ok tt) ∧
    MemoryIO.get_data io' = Some (replicate (n * m) junk).
Proof.
  intros Hd Hfn Hdim Hf. exists (MemoryIO.upd_base (set_data_ptr (Some (replicate (n * m) junk))) io).
  split; [|split; [reflexivity|reflexivity]].
  unfold MemoryIO.from_file. rewrite (mbind_ok _ _ _ _ _ eq_refl : mbind' mget _ _ = _), Hd, Hdim.
  rewrite bool_decide_true by done. rewrite (mbind_ok (massert true) _ _ _ _ eq_refl).
  rewrite (mbind_ok _ _ _ _ _ eq_refl : mbind' (mmodify _) _ _ = _).
  apply mbind_throw. unfold mlift. f_equal. unfold fvecs_read. rewrite Hf. by case_decide.
Qed.

(** *** Witnesses and examples *)

Definition ex_mat : matrix := mkMat 2 2 (λ r c, of_int (Z.of_nat (2 * r + c))).
Definition ex_cells : list data_t := [of_int 0; of_int 1; of_int 2; of_int 3].
Definition ex_mem : MemoryIO.t := MemoryIO.mk (mkIO "m.bin" (Some ex_cells) ROW (2, 2)) false.
Definition ex_sync : SyncIO.t :=
  SyncIO.mk (mkIO "m.bin" None COL (2, 2))
    (mkFS true (bytes_of [of_int 0; of_int 2; of_int 1; of_int 3]) 0 true).

Ltac all_cells := intros [|[|r]] [|[|c]] ? ?; simpl in *; try lia; reflexivity.
Ltac all_valid := repeat (apply Forall_cons_2; [split; reflexivity|]); apply Forall_nil_2.

Lemma io_access_agrees_witness :
  ∃ b1 s1 b2, io_get_row 1 ex_mem = (ex_mem, Ok b1) ∧ io_get_row 1 ex_sync = (s1, Ok b2) ∧
    take 2 b1 = [of_int 2; of_int 3] ∧ take 2 b2 = [of_int 2; of_int 3].
Proof.
  destruct (io_access_agrees ex_mem ex_sync ex_mat 1 1) as (s1 & s2 & b1 & b2 & b3 & b4 & H1 & H2 & H3 & H4 & _).
  - split; [done|]. exists ex_cells. split; [done|]. split; [by left|]. all_cells.
  - split; [done|]. split; [done|]. eexists. split; [split_and!; [done..|all_valid]|].
    split; [by right|]. all_cells.
  - simpl. lia.
  - simpl. lia.
  - exists b1, s1, b2. by split_and!.
Defined.

Lemma mem_transpose_involution_witness :
  ∃ io', MemoryIO.transpose fzero ex_mem = (io', Ok tt) ∧ MemoryIO.transpose fzero io' = (ex_mem, Ok tt).
Proof.
  destruct (mem_transpose_involution ex_mem fzero ex_cells 2 2) as (io' & H1 & _ & _ & H2 & _);
    [reflexivity..|by left|]. by exists io'.
Defined.

(** For a matrix that is not square, the rows of the object after [transpose]
    are neither the rows nor the columns it had. *)
Example transpose_not_square :
  let io := MemoryIO.mk (mkIO "m.bin" (Some (of_int <$> [1; 2; 3; 4; 5; 6]%Z)) ROW (2, 3)) false in
  let io' := (MemoryIO.transpose fzero io).1 in
  shape (MemoryIO.base io') = (3, 2) ∧ io_get_row 0 io' = (io', Ok (of_int <$> [1; 5]%Z)).
Proof. vm_compute. split; reflexivity. Qed.

Lemma mem_write_from_file_roundtrip_witness :
  MemoryIO.from_file (λ _, Some (bytes_of ex_cells)) fzero 0
      (MemoryIO.mk (mkIO "m.bin" None ROW (2, 2)) false)
    = (MemoryIO.mk (mkIO "m.bin" (Some ex_cells) ROW (2, 2)) true, Ok tt).
Proof.
  destruct (mem_write_from_file_roundtrip (λ _, Some (bytes_of ex_cells)) fzero 0 "m.bin" 2 2 ROW ex_cells)
    as (bs & Hw & Hr); [done|by vm_compute|reflexivity|all_valid|].
  apply Hr. vm_compute in Hw. injection Hw as <-. vm_compute. reflexivity.
Defined.

Lemma mem_from_file_failure_sticks_witness :
  ∃ io', MemoryIO.from_file (λ _, None) (of_int 7) 0 (MemoryIO.mk (mkIO "none" None ROW (1, 2)) false)
           = (io', Throw (open_error "none")) ∧
    MemoryIO.from_file (λ _, None) (of_int 7) 0 io' = (io', Ok tt) ∧
    MemoryIO.get_data io' = Some [of_int 7; of_int 7].
Proof.
  apply (mem_from_file_failure_sticks (λ _, None) (of_int 7) 0
    (MemoryIO.mk (mkIO "none" None ROW (1, 2)) false) 1 2); done.
Defined.
