(* ===== verification/Containers.v ===== *)
(** * Small containers: [structures/VecBinaryTree], [Stack.hpp],
      [SampleVector.hpp]

    [VecBinaryTree] stores a binary tree in an array: the children of index [i]
    are [2i+1] and [2i+2].  Indices are [size_t] and wrap. *)
From S2P Require Import Prelude DataT Types.
From stdpp Require Import options.

(** ** [VecBinaryTree] *)

Module VecBinaryTree.
Record VNode := mkVNode { vcomparator : data_t; vecpos : Z }.
Abbreviation t := (list VNode).

Definition VecBinaryTree_ctor : t := [].
Definition empty (v : t) : bool := bool_decide (v = []).
Definition get_nnodes (v : t) : nat := length v.
Definition get_at_idx (i : nat) (v : t) : res VNode :=
  match v !! i with Some n => Ok n | None => Throw Segfault end.
Definition get_root (v : t) : res VNode := get_at_idx 0 v.

(** [floor(log2(nelem))] *)
Definition get_depth (nelem : Z) : Z := Z.log2 nelem.
Definition tree_depth (v : t) : Z := get_depth (Z.of_nat (length v)).

(** [prealloc]: [nodes->resize(pow(2, max_depth) - 1)]; [d] is the default node. *)
Definition prealloc (d : VNode) (max_depth : nat) (v : t) : t := resize (2 ^ max_depth - 1) d v.

Definition compute_idx (parent_idx : Z) (p : bchild_t) : Z :=
  match p with
  | LEFT => u64 (u64 (2 * parent_idx) + 1)
  | RIGHT => u64 (u64 (2 * parent_idx) + 2)
  end.

Definition get_child_idx (parent_idx : Z) (p : bchild_t) : Z :=
  if decide (p = LEFT) then u64 (u64 (2 * parent_idx) + 1) else u64 (u64 (2 * parent_idx) + 2).

Definition get_parent_idx (node_idx : Z) : Z := (u64 (node_idx - 1) / 2)%Z.

Definition set_root (n : VNode) (v : t) : t :=
  match v with [] => [n] | _ :: v' => n :: v' end.

Definition set_vecpos (p : Z) (n : VNode) : VNode := mkVNode (vcomparator n) p.

(** [insert_at]: compiled without [VECNODES] both overloads are empty. *)
Definition insert_at_idx (vecnodes : bool) (new_node : VNode) (parent_idx : Z) (p : bchild_t) (v : t) : t :=
  if vecnodes then v ++ [set_vecpos (get_child_idx parent_idx p) new_node] else v.
Definition insert_at (vecnodes : bool) (new_node node : VNode) (p : bchild_t) (v : t) : t :=
  if vecnodes then v ++ [set_vecpos (get_child_idx (vecpos node) p) new_node] else v.

Definition insert (n : VNode) (v : t) : res t := Throw not_implemented_exception.
Definition find (shell : VNode) (v : t) : res VNode := Throw (runtime_error "node not found").

(** [echo]: each comparator with the number of the line it is printed on. *)
Fixpoint echo_loop (i : Z) (print_depth : Z) (v : t) : list (Z * data_t) :=
  match v with
  | [] => []
  | n :: v =>
      let print_depth := if (print_depth <? get_depth (i + 1))%Z then (print_depth + 1)%Z else print_depth in
      (print_depth, vcomparator n) :: echo_loop (i + 1) print_depth v
  end.
Definition echo (v : t) : list (Z * data_t) := if empty v then [] else echo_loop 0 0 v.
End VecBinaryTree.

(** ** [Stack] *)

Module Stack.
Section stack.
Context {A : Type}.
(** The back of the vector is the head of the list. *)
Definition push (x : A) (s : list A) : list A := x :: s.
Definition pop (s : list A) : res (list A * A) :=
  match s with [] => Throw Segfault | x :: s => Ok (s, x) end.
Definition size (s : list A) : nat := length s.
Definition empty (s : list A) : bool := match s with [] => true | _ => false end.
(** Iteration from [begin()] to [end()]. *)
Definition elements (s : list A) : list A := reverse s.
End stack.
End Stack.

(** ** [DenseVector] *)

Module DenseVector.
Definition at_ (v : list data_t) (idx : nat) : res data_t :=
  match v !! idx with Some x => Ok x | None => Throw Segfault end.
Definition raw_data (v : list data_t) : list data_t := v.
Definition size (v : list data_t) : nat := length v.
Definition nnz (v : list data_t) : nat := length v.
Definition empty (v : list data_t) : bool := match v with [] => true | _ => false end.
(** [populate]: copies [nelem] elements from the array. *)
Definition populate (src : list data_t) (nelem : nat) : res (list data_t) :=
  if nelem <=? length src then Ok (take nelem src) else Throw Segfault.
Definition create_raw (src : list data_t) (nelem : nat) : res (list data_t) := populate src nelem.
End DenseVector.

(** ** Lemmas *)

Import VecBinaryTree.

Lemma compute_idx_eq i p : compute_idx i p = get_child_idx i p.
Proof. by destruct p. Qed.

Lemma child_idx_small i p :
  (0 ≤ i)%Z → (2 * i + 2 < 2 ^ 64)%Z →
  get_child_idx i p = (2 * i + match p with LEFT => 1 | RIGHT => 2 end)%Z.
Proof.
  intros Hi Hb. unfold get_child_idx.
  destruct p; cbn [decide]; [rewrite decide_True by done|rewrite decide_False by done];
    rewrite (u64_small (2 * i)) by lia; by rewrite u64_small by lia.
Qed.

Lemma parent_idx_small i : (0 < i < 2 ^ 64)%Z → get_parent_idx i = ((i - 1) / 2)%Z.
Proof. intros Hi. unfold get_parent_idx. by rewrite u64_small by lia. Qed.

Lemma parent_of_child i p :
  (0 ≤ i)%Z → (2 * i + 2 < 2 ^ 64)%Z → get_parent_idx (get_child_idx i p) = i.
Proof.
  intros Hi Hb. rewrite child_idx_small by lia. rewrite parent_idx_small by (destruct p; lia).
  destruct p.
  - replace (2 * i + 1 - 1)%Z with (i * 2)%Z by lia. by rewrite Z.div_mul by lia.
  - replace (2 * i + 2 - 1)%Z with (1 + i * 2)%Z by lia. by rewrite Z.div_add by lia.
Qed.

Lemma child_of_parent i :
  (0 < i < 2 ^ 64)%Z → get_child_idx (get_parent_idx i) (if Z.odd i then LEFT else RIGHT) = i.
Proof.
  intros Hi. rewrite parent_idx_small by done.
  pose proof (Z.div_mod (i - 1) 2 ltac:(lia)) as Hdm.
  pose proof (Z.mod_pos_bound (i - 1) 2 ltac:(lia)) as Hm.
  pose proof (Zodd_mod i) as Ho. pose proof (Zdiv.Zmod_odd i) as Hodd.
  assert ((i - 1) mod 2 = if Z.odd i then 0 else 1)%Z as Hpar.
  { rewrite Zdiv.Zmod_odd. rewrite Z.odd_sub. by destruct (Z.odd i). }
  destruct (Z.odd i); rewrite Hpar in Hdm; unfold get_child_idx; cbn [decide].
  - rewrite decide_True by done. rewrite (u64_small (2 * _)) by lia. rewrite u64_small by lia. lia.
  - rewrite decide_False by done. rewrite (u64_small (2 * _)) by lia. rewrite u64_small by lia. lia.
Qed.

Lemma child_depth i p :
  (0 ≤ i)%Z → (2 * i + 2 < 2 ^ 64)%Z → get_depth (get_child_idx i p + 1) = (get_depth (i + 1) + 1)%Z.
Proof.
  intros Hi Hb. rewrite child_idx_small by lia. unfold get_depth. destruct p.
  - replace (2 * i + 1 + 1)%Z with (2 * (i + 1))%Z by lia. rewrite Z.log2_double by lia. lia.
  - replace (2 * i + 2 + 1)%Z with (2 * (i + 1) + 1)%Z by lia. rewrite Z.log2_succ_double by lia. lia.
Qed.

(** The depth grows by at most one from one index to the next. *)
Lemma echo_loop_spec i d v :
  (0 ≤ i)%Z → (d = get_depth (i + 1) ∨ (d + 1 = get_depth (i + 1)))%Z →
  echo_loop i d v = imap (λ k n, (get_depth (i + Z.of_nat k + 1), vcomparator n)) v.
Proof.
  revert i d. induction v as [|n v IH]; intros i d Hi Hd; [done|]. cbn [echo_loop imap].
  assert ((if (d <? get_depth (i + 1))%Z then (d + 1)%Z else d) = get_depth (i + 1)) as ->.
  { destruct (Z.ltb_spec d (get_depth (i + 1))); lia. }
  rewrite IH; [|lia|].
  - f_equal; [by rewrite Nat2Z.inj_0, Z.add_0_r|]. apply imap_ext. intros k x _. simpl.
    do 2 f_equal. lia.
  - unfold get_depth. pose proof (Z.log2_succ_or (i + 1)) as Hl. unfold Z.succ in Hl. lia.
Qed.

(** The array positions of the nodes are their [vecpos]. *)
Definition vec_wf (v : VecBinaryTree.t) : Prop := ∀ i n, v !! i = Some n → vecpos n = Z.of_nat i.

Lemma vec_wf_snoc v n : vec_wf v → vecpos n = Z.of_nat (length v) → vec_wf (v ++ [n]).
Proof.
  intros Hv Hn i x Hx. apply lookup_app_Some in Hx as [Hx|[Hi Hx]]; [by apply Hv|].
  apply list_lookup_singleton_Some in Hx as [He ->]. rewrite Hn. lia.
Qed.

(** ** Properties *)

(** The index arithmetic of [VecBinaryTree] is consistent below the [size_t]
    limit: the parent of a child is the node itself, every index but 0 is the
    child of its parent on the side its parity says, distinct (node, side)
    pairs have distinct children, and a child is one level deeper.  The
    "parent" of the root wraps to 2^63 - 1. *)
Theorem vec_index_arithmetic i j p q :
  (0 ≤ i)%Z → (2 * i + 2 < 2 ^ 64)%Z → (0 ≤ j)%Z → (2 * j + 2 < 2 ^ 64)%Z →
  get_parent_idx (get_child_idx i p) = i ∧
  (get_child_idx i p = get_child_idx j q → i = j ∧ p = q) ∧
  get_depth (get_child_idx i p + 1) = (get_depth (i + 1) + 1)%Z ∧
  compute_idx i p = get_child_idx i p ∧
  (0 < i → get_child_idx (get_parent_idx i) (if Z.odd i then LEFT else RIGHT) = i)%Z ∧
  get_parent_idx 0 = (2 ^ 63 - 1)%Z.
Proof.
  intros. split_and!; [by apply parent_of_child| |by apply child_depth|apply compute_idx_eq| |done].
  - rewrite !child_idx_small by lia. destruct p, q; intros; split; try done; lia.
  - intros. apply child_of_parent. lia.
Qed.

(** [VecBinaryTree::insert_at] appends, so it keeps every node at the index
    its [vecpos] names exactly when the children arrive in level order: the
    child index must be the current number of nodes. *)
Theorem vec_insert_at_level_order v parent new p :
  vec_wf v →
  let v' := insert_at_idx true new (Z.of_nat parent) p v in
  (vec_wf v' ↔ get_child_idx (Z.of_nat parent) p = Z.of_nat (length v)) ∧
  get_nnodes v' = S (get_nnodes v) ∧
  insert_at_idx false new (Z.of_nat parent) p v = v.
Proof.
  intros Hwf v'. split_and!; [|unfold get_nnodes, v', insert_at_idx; rewrite length_app; simpl; lia|done].
  split.
  - intros Hv'. apply (Hv' (length v) (set_vecpos (get_child_idx (Z.of_nat parent) p) new)).
    unfold v', insert_at_idx. by rewrite lookup_app_r, Nat.sub_diag.
  - intros Hc. apply vec_wf_snoc; [done|]. cbn [vecpos]. done.
Qed.

(** [VecBinaryTree::echo] prints the nodes in array order and puts the node at
    index [i] on line [floor(log2(i+1))], so each level of the tree is one
    line. *)
Theorem vec_echo_levels v :
  echo v = imap (λ i n, (Z.log2 (Z.of_nat i + 1), vcomparator n)) v.
Proof.
  unfold echo, empty. case_bool_decide as He; [by subst|].
  rewrite echo_loop_spec; [done|lia|by left].
Qed.

Lemma vec_index_arithmetic_witness :
  get_parent_idx (get_child_idx 5 RIGHT) = 5%Z ∧ get_child_idx 5 RIGHT = 12%Z.
Proof.
  destruct (vec_index_arithmetic 5 5 RIGHT RIGHT) as (H & _); [lia..|]. by split.
Defined.

Lemma vec_insert_at_level_order_witness :
  let v := [mkVNode (of_int 1) 0] in
  vec_wf (insert_at_idx true (mkVNode (of_int 2) 77) 0 LEFT v) ∧
  ¬ vec_wf (insert_at_idx true (mkVNode (of_int 2) 77) 0 RIGHT v).
Proof.
  assert (vec_wf [mkVNode (of_int 1) 0]) as Hwf.
  { intros [|i] n Hn; [by injection Hn as <-|done]. }
  destruct (vec_insert_at_level_order [mkVNode (of_int 1) 0] 0 (mkVNode (of_int 2) 77) LEFT Hwf)
    as [HL _].
  destruct (vec_insert_at_level_order [mkVNode (of_int 1) 0] 0 (mkVNode (of_int 2) 77) RIGHT Hwf)
    as [HR _].
  split; [by apply HL|]. intros H%HR. discriminate H.
Defined.
