(* ===== verification/Nodes.v ===== *)
(** * Tree nodes: [structures/NodeView], [BinaryNode.hpp], [NAryNode],
      [EMNode.hpp] and the [kdnode] of [examples/kdtree.cpp]

    Nodes live in a heap that the tree, the scheduler and the queries share;
    [world] is that heap with the I/O object all nodes point to.  The I/O
    object is used through the interface [MatrixIO] only. *)
From S2P Require Import Prelude DataT Types Stream IO.
From stdpp Require Import options.

(** ** Node objects

    [nv_parent] is [NodeView::parent]; [parent], [left], [right] are the
    pointers [BinaryNode] declares (its [parent] hides the inherited one). *)
Record kdnode := mkKd {
  data_index : IndexVector;
  req_indxs : list Z;
  comparator : data_t;
  depth : Z;
  ioer_set : bool;
  nv_parent : option loc;
  parent : option loc;
  left : option loc;
  right : option loc;
  split_dim : Z
}.

Record world (I : Type) := mkWorld { kheap : gmap loc kdnode; wio : I }.
Arguments mkWorld {I}.
Arguments kheap {I}.
Arguments wio {I}.

Definition with_data_index v n := mkKd v (req_indxs n) (comparator n) (depth n) (ioer_set n) (nv_parent n) (parent n) (left n) (right n) (split_dim n).
Definition with_req l n := mkKd (data_index n) l (comparator n) (depth n) (ioer_set n) (nv_parent n) (parent n) (left n) (right n) (split_dim n).
Definition set_comparator c n := mkKd (data_index n) (req_indxs n) c (depth n) (ioer_set n) (nv_parent n) (parent n) (left n) (right n) (split_dim n).
Definition set_depth d n := mkKd (data_index n) (req_indxs n) (comparator n) d (ioer_set n) (nv_parent n) (parent n) (left n) (right n) (split_dim n).
Definition set_ioer b n := mkKd (data_index n) (req_indxs n) (comparator n) (depth n) b (nv_parent n) (parent n) (left n) (right n) (split_dim n).
Definition with_nv_parent p n := mkKd (data_index n) (req_indxs n) (comparator n) (depth n) (ioer_set n) p (parent n) (left n) (right n) (split_dim n).
Definition with_left p n := mkKd (data_index n) (req_indxs n) (comparator n) (depth n) (ioer_set n) (nv_parent n) (parent n) p (right n) (split_dim n).
Definition with_right p n := mkKd (data_index n) (req_indxs n) (comparator n) (depth n) (ioer_set n) (nv_parent n) (parent n) (left n) p (split_dim n).
Definition set_split_dim d n := mkKd (data_index n) (req_indxs n) (comparator n) (depth n) (ioer_set n) (nv_parent n) (parent n) (left n) (right n) d.

(** [kdnode()]: the comparator and the split dimension are not initialised. *)
Definition kdnode_ctor (junk : data_t) (junk_dim : Z) : kdnode :=
  mkKd IndexVector_ctor [] junk 0 false None None None None junk_dim.

(** ** [NodeView] *)

(** [set_index_range]: appends [start, stop). *)
Definition set_index_range (start stop : Z) (n : kdnode) : kdnode :=
  with_req (req_indxs n ++ map (λ i, (start + Z.of_nat i)%Z) (seq 0 (Z.to_nat (stop - start)))) n.
Definition set_index_vec (l : list Z) (n : kdnode) : kdnode := with_req l n.
(** [set_index(indxs, nelem)] inserts at the front. *)
Definition set_index_arr (l : list Z) (n : kdnode) : kdnode := with_req (l ++ req_indxs n) n.
(** [set_index(const sample_id_t)]: the parameter is a 32-bit unsigned, the
    callers pass a [size_t]. *)
Definition set_index (i : Z) (n : kdnode) : kdnode := with_req [u32 i] n.

Definition set_ph_data_index (idxs : list Z) (n : kdnode) : kdnode :=
  with_data_index (set_indexes_ids idxs (data_index n)) n.
Definition data_index_append (idx : Z) (val : data_t) (n : kdnode) : kdnode :=
  with_data_index (append idx val (data_index n)) n.

Definition nv_eq (a b : kdnode) : bool := feq (comparator a) (comparator b).
Definition nv_ne (a b : kdnode) : bool := negb (nv_eq a b).
Definition nv_lt (a b : kdnode) : bool := flt (comparator a) (comparator b).
Definition nv_gt (a b : kdnode) : bool := fgt (comparator a) (comparator b).
Definition nv_le (a b : kdnode) : bool := negb (nv_gt a b).
Definition nv_ge (a b : kdnode) : bool := negb (nv_lt a b).
Definition is_root (n : kdnode) : bool := (depth n =? 0)%Z.
Definition has_child (n : kdnode) : bool :=
  match left n, right n with None, None => false | _, _ => true end.

(** ** The heap of nodes *)

Section node_ops.
Context {I : Type} `{MatrixIO I}.
Abbreviation W := (M (world I)).

Definition wload (p : option loc) : W kdnode := λ w,
  match p ≫= (λ l, kheap w !! l) with
  | Some n => (w, Ok n)
  | None => (w, Throw Segfault)
  end.
Definition wupd (f : kdnode → kdnode) (p : option loc) : W unit := λ w,
  match p with
  | Some l =>
      match kheap w !! l with
      | Some n => (mkWorld (<[l := f n]> (kheap w)) (wio w), Ok tt)
      | None => (w, Throw Segfault)
      end
  | None => (w, Throw Segfault)
  end.
(** [new kdnode] *)
Definition wnew (n : kdnode) : W loc := λ w,
  let l := fresh (dom (kheap w)) in (mkWorld (<[l := n]> (kheap w)) (wio w), Ok l).

(** A call of the shared I/O object. *)
Definition with_io {A} (m : M I A) : W A := λ w,
  let '(io', r) := m (wio w) in (mkWorld (kheap w) io', r).
Definition get_shape : W (nat * nat) := λ w, (w, Ok (io_shape (wio w))).

(** Following the pointer [ioer], which the constructors leave indeterminate. *)
Definition deref_ioer (n : kdnode) : W unit := if ioer_set n then mret tt else mthrow Segfault.

(** The loop [data_index[i].set_val(ret[idx])]. *)
Fixpoint fill_vals (ret : list data_t) (l : list IndexVal) : res (list IndexVal) :=
  match l with
  | [] => Ok []
  | iv :: l =>
      match ret !! Z.to_nat (iv_index iv) with
      | None => Throw Segfault
      | Some v => let? r := fill_vals ret l in Ok (iv_set_val v iv :: r)
      end
  end.

(** [NodeView::prep] *)
Definition prep (p : option loc) : W unit :=
  let! n := wload p in
  match req_indxs n with
  | [i] =>
      deref_ioer n;;;
      let! ret := with_io (io_get_col (Z.to_nat i)) in
      if empty (data_index n) then
        let! s := get_shape in
        let! v := mlift (if s.1 <=? length ret
                         then Ok (set_indexes_vals (take s.1 ret) (data_index n))
                         else Throw Segfault) in
        wupd (with_data_index v) p
      else
        let! l := mlift (fill_vals ret (ivec (data_index n))) in
        wupd (with_data_index (mkIVec l (sorted (data_index n)))) p
  | _ => mthrow AssertFailed
  end.

(** [NodeView::bestow] *)
Definition bestow (this node : option loc) : W unit :=
  let! t := wload this in
  wupd (with_nv_parent this) node;;;
  wupd (set_ioer (ioer_set t)) node;;;
  wupd (set_depth (u64 (depth t + 1))) node;;;
  massert (feq (comparator t) (comparator t));;;
  let! n := wload node in
  massert (bool_decide (nv_parent n ≠ None));;;
  massert (ioer_set n);;;
  massert (0 <? depth n)%Z.

(** *** [kdnode] *)

(** The two sorts [__gnu_parallel::sort] and [std::sort]. *)
Context (par_sort seq_sort : StdSort).
(** Indeterminate initial values. *)
Context (junk : data_t) (junk_dim : Z).

Definition sort_data_index (par : bool) (n : kdnode) : kdnode :=
  let s := if par then par_sort else seq_sort in
  with_data_index (mkIVec (@std_sort s (ivec (data_index n))) (sorted (data_index n))) n.

(** [kdnode::run] *)
Definition run_node (n : kdnode) : res kdnode :=
  let n := sort_data_index (depth n <? 3)%Z n in
  let? m := iv_at (data_index n) (size (data_index n) / 2) in
  Ok (set_comparator (iv_val m) n).

Definition run (p : option loc) : W unit :=
  let! n := wload p in
  let! n' := mlift (run_node n) in
  wupd (λ _, n') p.

(** [kdnode::spawn] *)
Definition spawn (this : option loc) : W unit :=
  let! l := wnew (kdnode_ctor junk junk_dim) in
  wupd (with_left (Some l)) this;;;
  let! r := wnew (kdnode_ctor junk junk_dim) in
  wupd (with_right (Some r)) this;;;
  bestow this (Some l);;;
  bestow this (Some r);;;
  let! n := wload this in
  deref_ioer n;;;
  let! s := get_shape in
  let next_split := if (u64 (split_dim n + 1) =? Z.of_nat s.2)%Z then 0%Z else u64 (split_dim n + 1) in
  wupd (set_split_dim next_split) (Some l);;;
  wupd (set_index next_split) (Some l);;;
  wupd (set_split_dim next_split) (Some r);;;
  wupd (set_index next_split) (Some r);;;
  let! n := wload this in
  let! idxs := mlift (get_indexes (data_index n) []) in
  let half := size (data_index n) / 2 in
  massert (bool_decide (length idxs = size (data_index n)));;;
  wupd (set_ph_data_index (take half idxs)) (Some l);;;
  wupd (set_ph_data_index (drop half idxs)) (Some r).

(** What a worker thread does with one task. *)
Definition run_task (p : loc) : W unit := prep (Some p);;; run (Some p).

Fixpoint run_tasks (ps : list loc) : W unit :=
  match ps with
  | [] => mret tt
  | p :: ps => run_task p;;; run_tasks ps
  end.
End node_ops.

(** ** [NAryNode] and the external-memory headers of [EMNode.hpp] *)

Record NAryNode := mkNAry { nchild : Z; childs : option (list loc) }.
(** The default constructor leaves the pointer [childs] indeterminate. *)
Definition NAryNode_ctor (ind : option (list loc)) : NAryNode := mkNAry 0 ind.
Definition NAryNode_ctor_childs (c : list loc) (n : Z) : NAryNode := mkNAry n (Some c).
Definition nary_has_child (n : NAryNode) : bool := match childs n with Some _ => true | None => false end.
Definition add_child (c : loc) (n : NAryNode) : NAryNode := n.
Definition remove_child (n : NAryNode) : NAryNode := n.

Definition INVALID_ID : Z := UINT_MAX.
Record TreeHeader := mkTH { th_nnodes : Z; th_dtype : Z }.
Record BinaryTreeHeader := mkBTH { bth_base : TreeHeader; bth_nnodes : Z; bth_nchilds : Z }.
Definition BinaryTreeHeader_ctor (junk : TreeHeader) (junk_n : Z) : BinaryTreeHeader := mkBTH junk junk_n 2.
Record NodeHeader := mkNH { nh_id : Z }.
Definition NodeHeader_ctor : NodeHeader := mkNH INVALID_ID.
Record VarNodeHeader := mkVNH { vnh_base : NodeHeader; vnh_datasize : Z }.
Definition VarNodeHeader_ctor (datasize : Z) : VarNodeHeader := mkVNH NodeHeader_ctor datasize.

(** ** What the operations do *)

Section node_specs.
Context {I : Type} `{MatrixIO I} (par_sort seq_sort : StdSort) (junk : data_t) (junk_dim : Z).
Implicit Types (w : world I) (mat : matrix) (nd : kdnode).

Lemma wload_ok w p nd : kheap w !! p = Some nd → wload (Some p) w = (w, Ok nd).
Proof. unfold wload. simpl. by intros ->. Qed.
Lemma wupd_ok f w p nd :
  kheap w !! p = Some nd → wupd f (Some p) w = (mkWorld (<[p := f nd]> (kheap w)) (wio w), Ok tt).
Proof. unfold wupd. by intros ->. Qed.

(** The values of the requested column put into the node's index. *)
Definition filled mat (c : nat) (l : list IndexVal) : list IndexVal :=
  match l with
  | [] => imap (λ i v, mkIV (u32 (Z.of_nat i)) v) (mcol mat c)
  | _ => map (λ iv, iv_set_val (mentry mat (Z.to_nat (iv_index iv)) c) iv) l
  end.

Definition req_col nd : nat := match req_indxs nd with [i] => Z.to_nat i | _ => 0 end.

Definition sort_for nd : list IndexVal → list IndexVal :=
  @std_sort (if (depth nd <? 3)%Z then par_sort else seq_sort).

(** The node after [prep] and [run]. *)
Definition task_result mat nd : kdnode :=
  let l := sort_for nd (filled mat (req_col nd) (ivec (data_index nd))) in
  set_comparator (iv_val (l !!! (length l / 2)))
    (with_data_index (mkIVec l (sorted (data_index nd))) nd).

(** A node that is ready to be run. *)
Record task_ready mat nd : Prop := {
  tr_ioer : ioer_set nd = true;
  tr_req : ∃ i, req_indxs nd = [i] ∧ Z.to_nat i < mcols mat;
  tr_ids : Forall (λ iv, Z.to_nat (iv_index iv) < mrows mat) (ivec (data_index nd));
  tr_rows : 0 < mrows mat;
  tr_ordered : ∀ r c, r < mrows mat → c < mcols mat → ordered (mentry mat r c)
}.

Lemma lookup_mcol mat c r : r < mrows mat → mcol mat c !! r = Some (mentry mat r c).
Proof. intros Hr. unfold mcol. rewrite list_lookup_fmap, lookup_seq_lt by done. done. Qed.

Lemma fill_vals_spec mat c ret l :
  take (mrows mat) ret = mcol mat c → Forall (λ iv, Z.to_nat (iv_index iv) < mrows mat) l →
  fill_vals ret l = Ok (map (λ iv, iv_set_val (mentry mat (Z.to_nat (iv_index iv)) c) iv) l).
Proof.
  intros Hret. induction 1 as [|iv l Hiv _ IH]; simpl; [done|].
  pose proof (lookup_mcol mat c _ Hiv) as Hl. rewrite <-Hret, lookup_take_lt in Hl by done.
  by rewrite Hl, IH.
Qed.

Lemma length_mcol mat c : length (mcol mat c) = mrows mat.
Proof. unfold mcol. by rewrite length_map, length_seq. Qed.

Lemma prep_spec w mat p nd :
  io_repr (wio w) mat → kheap w !! p = Some nd → task_ready mat nd →
  ∃ io', prep (Some p) w
      = (mkWorld (<[p := with_data_index
           (mkIVec (filled mat (req_col nd) (ivec (data_index nd))) (sorted (data_index nd))) nd]>
           (kheap w)) io', Ok tt) ∧ io_repr io' mat ∧ io_orient io' = io_orient (wio w).
Proof.
  intros Hio Hp [Hi (i & Hreq & Hcol) Hids Hrows _]. unfold prep.
  rewrite (mbind_ok _ _ _ _ _ (wload_ok _ _ _ Hp)), Hreq. unfold deref_ioer. rewrite Hi.
  rewrite (mbind_ok (mret tt) _ _ _ _ eq_refl).
  destruct (io_get_col_ok (wio w) mat (Z.to_nat i) Hio Hcol) as (io' & b & Hrun & Hb & Hio' & Ho').
  exists io'. split; [|done].
  assert (with_io (io_get_col (Z.to_nat i)) w = (mkWorld (kheap w) io', Ok b)) as Hget
    by (unfold with_io; by rewrite Hrun).
  rewrite (mbind_ok _ _ _ _ _ Hget). unfold req_col. rewrite Hreq.
  assert (mrows mat ≤ length b) as Hlen.
  { rewrite <-(length_mcol mat (Z.to_nat i)), <-Hb, length_take. lia. }
  unfold empty. destruct (ivec (data_index nd)) as [|iv l] eqn:El.
  - rewrite bool_decide_true by done.
    assert (get_shape (mkWorld (kheap w) io') = (mkWorld (kheap w) io', Ok (mrows mat, mcols mat))) as Hs
      by (unfold get_shape; simpl; by rewrite (io_shape_ok _ _ Hio')).
    rewrite (mbind_ok _ _ _ _ _ Hs). cbn [fst]. rewrite (proj2 (Nat.leb_le _ _) Hlen), Hb.
    rewrite (mbind_ok (mlift (Ok _)) _ _ _ _ eq_refl).
    by rewrite (wupd_ok _ (mkWorld (kheap w) io') p nd).
  - rewrite bool_decide_false by done. rewrite <-El in *.
    rewrite (fill_vals_spec mat (Z.to_nat i)) by done.
    rewrite (mbind_ok (mlift (Ok _)) _ _ _ _ eq_refl).
    rewrite (wupd_ok _ (mkWorld (kheap w) io') p nd) by done. by rewrite El.
Qed.

Lemma filled_ordered mat c l :
  (∀ r c, r < mrows mat → c < mcols mat → ordered (mentry mat r c)) → c < mcols mat →
  Forall (λ iv, Z.to_nat (iv_index iv) < mrows mat) l → Forall (λ y, iv_ordered y) (filled mat c l).
Proof.
  intros Ho Hc Hl. unfold filled. destruct l as [|iv l].
  - apply Forall_lookup. intros i x Hx. rewrite list_lookup_imap in Hx.
    destruct (mcol mat c !! i) as [v|] eqn:Ev; [|done]. injection Hx as <-. cbn [iv_val].
    pose proof (lookup_lt_Some _ _ _ Ev) as Hi. rewrite length_mcol in Hi.
    rewrite lookup_mcol in Ev by done. injection Ev as <-. by apply Ho.
  - apply Forall_fmap. eapply Forall_impl; [exact Hl|]. intros x Hx. by apply Ho.
Qed.

Lemma filled_length mat c l : length (filled mat c l) = match l with [] => mrows mat | _ => length l end.
Proof. destruct l; simpl; [by rewrite length_imap, length_mcol|by rewrite length_map]. Qed.

Lemma sort_for_perm nd l : Forall (λ y, iv_ordered y) l → sort_for nd l ≡ₚ l.
Proof. apply std_sort_perm. Qed.
Lemma sort_for_sorted nd l : Forall (λ y, iv_ordered y) l → iv_sorted (sort_for nd l).
Proof. apply std_sort_sorted. Qed.

Lemma task_filled_ordered mat nd :
  task_ready mat nd →
  Forall (λ y, iv_ordered y) (filled mat (req_col nd) (ivec (data_index nd))) ∧
  0 < length (filled mat (req_col nd) (ivec (data_index nd))).
Proof.
  intros [_ (i & Hreq & Hi) Hids Hr Ho]. unfold req_col. rewrite Hreq. split.
  - by apply filled_ordered.
  - rewrite filled_length. destruct (ivec (data_index nd)); simpl; lia.
Qed.

Lemma run_task_spec w mat p nd :
  io_repr (wio w) mat → kheap w !! p = Some nd → task_ready mat nd →
  ∃ io', run_task par_sort seq_sort p w
           = (mkWorld (<[p := task_result mat nd]> (kheap w)) io', Ok tt) ∧
    io_repr io' mat ∧ io_orient io' = io_orient (wio w).
Proof.
  intros Hio Hp Hr. destruct (prep_spec w mat p nd Hio Hp Hr) as (io' & Hrun & Hio' & Ho').
  exists io'. split; [|done]. unfold run_task. rewrite (mbind_ok _ _ _ _ _ Hrun). unfold run.
  erewrite mbind_ok by (apply wload_ok; cbn; apply lookup_insert_eq).
  unfold run_node. cbn [sort_data_index with_data_index data_index ivec depth sorted].
  destruct (task_filled_ordered mat nd Hr) as [Hord Hlen].
  set (l := filled mat (req_col nd) (ivec (data_index nd))) in *.
  change (@std_sort (if (depth nd <? 3)%Z then par_sort else seq_sort) l) with (sort_for nd l).
  assert (length (sort_for nd l) = length l) as Hsl by (by rewrite sort_for_perm).
  unfold iv_at, size. cbn [ivec].
  destruct (lookup_lt_is_Some_2 (sort_for nd l) (length (sort_for nd l) / 2)) as [x Hx].
  { apply Nat.Div0.div_lt_upper_bound. lia. }
  rewrite Hx. cbn [rbind]. rewrite (mbind_ok (mlift (Ok _)) _ _ _ _ eq_refl).
  erewrite wupd_ok by (cbn; apply lookup_insert_eq). cbn. rewrite insert_insert_eq.
  do 3 f_equal. unfold task_result. fold l. by rewrite (list_lookup_total_correct _ _ _ Hx).
Qed.

(** Running any set of distinct ready nodes updates exactly these nodes, each
    as if it ran alone. *)
Lemma run_tasks_spec w mat ps :
  io_repr (wio w) mat → NoDup ps →
  Forall (λ p, ∃ nd, kheap w !! p = Some nd ∧ task_ready mat nd) ps →
  ∃ w', run_tasks par_sort seq_sort ps w = (w', Ok tt) ∧ io_repr (wio w') mat ∧
    io_orient (wio w') = io_orient (wio w) ∧
    ∀ q, kheap w' !! q
      = if decide (q ∈ ps) then task_result mat <$> (kheap w !! q) else kheap w !! q.
Proof.
  intros Hio Hnd. revert w Hio. induction Hnd as [|p ps Hp Hnd IH]; intros w Hio Hall.
  { exists w. split_and!; [done..|]. intros q. by rewrite decide_False by set_solver. }
  apply Forall_cons in Hall as [(nd & Hlk & Hready) Hall]. cbn [run_tasks].
  destruct (run_task_spec w mat p nd Hio Hlk Hready) as (io' & Hrun & Hio' & Ho').
  rewrite (mbind_ok _ _ _ _ _ Hrun).
  destruct (IH (mkWorld (<[p:=task_result mat nd]> (kheap w)) io')) as (w' & Hrun' & Hio'' & Ho'' & Hq);
    [done| |].
  { rewrite Forall_forall in Hall |- *. intros q Hin. destruct (Hall q Hin) as (ndq & Hlq & Hrq).
    exists ndq. split; [|done]. cbn. rewrite lookup_insert_ne; [done|]. by intros ->. }
  exists w'. split_and!; [done..|by rewrite Ho''|]. intros q. rewrite Hq. cbn [kheap].
  destruct (decide (q = p)) as [->|Hqp].
  - rewrite decide_False by done. rewrite decide_True by left. by rewrite lookup_insert_eq, Hlk.
  - rewrite lookup_insert_ne by done.
    destruct (decide (q ∈ ps)); [rewrite decide_True by (by right)|rewrite decide_False by set_solver]; done.
Qed.

(** *** [spawn] *)

Definition next_split (cols : nat) nd : Z :=
  if (u64 (split_dim nd + 1) =? Z.of_nat cols)%Z then 0%Z else u64 (split_dim nd + 1).

(** A child of the node [nd] at [p] that holds the samples [idxs]. *)
Definition child_node (cols : nat) (p : loc) nd (idxs : list Z) : kdnode :=
  mkKd (mkIVec (map (λ i, mkIV i fzero) idxs) false) [u32 (next_split cols nd)] junk
    (u64 (depth nd + 1)) true (Some p) None None None (next_split cols nd).

Definition ids nd : list Z := map iv_index (ivec (data_index nd)).

Lemma wnew_ok w n :
  wnew n w = (mkWorld (<[fresh (dom (kheap w)) := n]> (kheap w)) (wio w), Ok (fresh (dom (kheap w)))).
Proof. done. Qed.

Lemma bestow_spec w p c nd nc :
  kheap w !! p = Some nd → kheap w !! c = Some nc → c ≠ p →
  ioer_set nd = true → ordered (comparator nd) → (0 ≤ depth nd)%Z → (depth nd + 1 < 2 ^ 64)%Z →
  bestow (Some p) (Some c) w
    = (mkWorld (<[c := set_depth (u64 (depth nd + 1)) (set_ioer true (with_nv_parent (Some p) nc))]>
         (kheap w)) (wio w), Ok tt).
Proof.
  intros Hp Hc Hne Hi Ho Hd0 Hd. unfold bestow. rewrite (mbind_ok _ _ _ _ _ (wload_ok _ _ _ Hp)), Hi.
  do 3 (erewrite mbind_ok by (apply wupd_ok; cbn; first [eassumption|apply lookup_insert_eq]);
        cbn [kheap wio]; rewrite ?insert_insert_eq).
  assert (feq (comparator nd) (comparator nd) = true) as -> by (by apply feq_key).
  rewrite (mbind_ok (massert true) _ _ _ _ eq_refl).
  erewrite mbind_ok by (apply wload_ok; cbn; apply lookup_insert_eq).
  cbn [nv_parent set_depth set_ioer with_nv_parent ioer_set depth]. rewrite bool_decide_true by done.
  do 2 rewrite (mbind_ok (massert true) _ _ _ _ eq_refl).
  rewrite u64_small by lia. by rewrite (proj2 (Z.ltb_lt 0 (depth nd + 1))) by lia.
Qed.

(** Looks an address up in a chain of updates at different addresses. *)
Ltac wlook :=
  cbn [kheap]; first
    [ eassumption
    | apply lookup_insert_eq
    | rewrite lookup_insert_ne by congruence; wlook ].
Ltac wstep :=
  erewrite mbind_ok by (first [apply wload_ok|apply wupd_ok]; wlook); cbn [kheap wio].

Lemma spawn_spec w mat p nd :
  io_repr (wio w) mat → kheap w !! p = Some nd →
  ioer_set nd = true → ordered (comparator nd) → (0 ≤ depth nd)%Z → (depth nd + 1 < 2 ^ 64)%Z →
  ∃ l r h', spawn junk junk_dim (Some p) w = (mkWorld h' (wio w), Ok tt) ∧
    l ∉ dom (kheap w) ∧ r ∉ dom (kheap w) ∧ l ≠ r ∧ l ≠ p ∧ r ≠ p ∧
    let half := size (data_index nd) / 2 in
    h' !! p = Some (with_right (Some r) (with_left (Some l) nd)) ∧
    h' !! l = Some (child_node (mcols mat) p nd (take half (ids nd))) ∧
    h' !! r = Some (child_node (mcols mat) p nd (drop half (ids nd))) ∧
    (∀ q, q ≠ p → q ≠ l → q ≠ r → h' !! q = kheap w !! q).
Proof.
  intros Hio Hp Hi Ho Hd0 Hd. unfold spawn. rewrite (mbind_ok _ _ _ _ _ (wnew_ok _ _)).
  pose proof (is_fresh (dom (kheap w))) as Hfl. set (l := fresh (dom (kheap w))) in *. clearbody l.
  assert (l ≠ p) as Hlp by (intros ->; apply Hfl, elem_of_dom; eauto).
  wstep. rewrite (mbind_ok _ _ _ _ _ (wnew_ok _ _)). cbn [kheap wio].
  match goal with |- context [fresh ?D] => pose proof (is_fresh D) as Hfr; set (r := fresh D) in * end.
  clearbody r. rewrite !dom_insert in Hfr.
  assert (r ≠ p ∧ r ≠ l ∧ r ∉ dom (kheap w)) as (Hrp & Hrl & Hrw) by set_solver. clear Hfr.
  wstep. set (nd' := with_right (Some r) (with_left (Some l) nd)).
  erewrite mbind_ok by (apply (bestow_spec _ p l nd'); [wlook|wlook|done..]). cbn [kheap wio].
  erewrite mbind_ok by (apply (bestow_spec _ p r nd'); [wlook|wlook|done..]). cbn [kheap wio].
  wstep. unfold deref_ioer. change (ioer_set nd') with (ioer_set nd). rewrite Hi.
  rewrite (mbind_ok (mret tt) _ _ _ _ eq_refl).
  erewrite mbind_ok by (unfold get_shape; cbn [wio]; by rewrite (io_shape_ok _ _ Hio)). cbn [snd].
  change (split_dim nd') with (split_dim nd).
  change (if (u64 (split_dim nd + 1) =? Z.of_nat (mcols mat))%Z then 0%Z else u64 (split_dim nd + 1))
    with (next_split (mcols mat) nd).
  do 5 wstep. change (data_index nd') with (data_index nd). cbn [get_indexes].
  rewrite (mbind_ok (mlift (Ok _)) _ _ _ _ eq_refl).
  rewrite bool_decide_true by (by rewrite length_map). rewrite (mbind_ok (massert true) _ _ _ _ eq_refl).
  wstep. erewrite wupd_ok by wlook. cbn [kheap wio].
  exists l, r. eexists. split; [reflexivity|]. split_and!; try done; cbn [kheap].
  - repeat first [rewrite lookup_insert_eq | rewrite lookup_insert_ne by congruence]. reflexivity.
  - repeat first [rewrite lookup_insert_eq | rewrite lookup_insert_ne by congruence]. reflexivity.
  - rewrite lookup_insert_eq. reflexivity.
  - intros q H1 H2 H3. by rewrite !lookup_insert_ne by congruence.
Qed.
End node_specs.
