(* ===== verification/Scheduler.v ===== *)
(** * [structures/TaskQueue], [Scheduler], [WorkerThread] (task level)

    The scheduler keeps the nodes of every level and one task queue per worker.
    When a level is complete, its nodes are dealt out to the queues in blocks
    and the workers empty their queues.  This file models queues, scheduler and
    the task loop of a worker, run one after the other; [Workers.v] lets the
    workers run at the same time, and the wake-up protocol of the threads is in
    [Barrier.v]. *)
From S2P Require Import Prelude DataT Types Stream IO Nodes.
From stdpp Require Import options.

(** ** [BuildTaskQueue]

    [locked] is the state of the queue's error-checking mutex. *)
Record BuildTaskQueue := mkQ { tasks : list loc; locked : bool }.

Definition BuildTaskQueue_ctor : BuildTaskQueue := mkQ [] false.
Definition q_size (q : BuildTaskQueue) : nat := length (tasks q).

Definition acquire_lock : M BuildTaskQueue unit := λ q,
  if locked q then (q, Throw (concurrency_exception "pthread_mutex_lock"))
  else (mkQ (tasks q) true, Ok tt).
Definition release_lock : M BuildTaskQueue unit := λ q,
  if locked q then (mkQ (tasks q) false, Ok tt)
  else (q, Throw (concurrency_exception "pthread_mutex_unlock")).

Definition push (x : loc) (q : BuildTaskQueue) : BuildTaskQueue := mkQ (tasks q ++ [x]) (locked q).
Definition pop (q : BuildTaskQueue) : BuildTaskQueue := mkQ (tail (tasks q)) (locked q).

Definition has_task : M BuildTaskQueue bool :=
  acquire_lock;;;
  let! q := mget in
  let b := negb (bool_decide (tasks q = [])) in
  release_lock;;; mret b.

Fixpoint push_all (xs : list loc) : M BuildTaskQueue unit :=
  match xs with [] => mret tt | x :: xs => mmodify (push x);;; push_all xs end.

(** [enqueue(runnables, nnodes)] *)
Definition enqueue_n (xs : list loc) : M BuildTaskQueue unit :=
  acquire_lock;;; push_all xs;;; release_lock.
Definition enqueue (x : loc) : M BuildTaskQueue unit :=
  acquire_lock;;; mmodify (push x);;; release_lock.

(** [dequeue]: the emptiness test is made without the lock. *)
Definition dequeue : M BuildTaskQueue (option loc) :=
  let! q := mget in
  match tasks q with
  | [] => mret None
  | _ =>
      acquire_lock;;;
      let! q := mget in
      let node := head (tasks q) in
      mmodify pop;;; release_lock;;; mret node
  end.

Definition steal_task : M BuildTaskQueue bool := mthrow not_implemented_exception.

(** ** [Scheduler] *)

Definition MIN_TASKS_PT : nat := 8.

Record Scheduler := mkSched {
  fanout : Z;
  max_levels : Z;
  current_level : nat;
  tree_id : Z;
  nodes : list (list loc);
  queues : list BuildTaskQueue
}.

(** The constructor makes [nthread] workers with empty queues. *)
Definition Scheduler_ctor (fanout max_depth tree_id : Z) (nthread : nat) : Scheduler :=
  mkSched fanout max_depth 0 tree_id [] (replicate nthread BuildTaskQueue_ctor).

Definition get_nodes (level : nat) (s : Scheduler) : res (list loc) :=
  match nodes s !! level with Some l => Ok l | None => Throw Segfault end.
Definition get_nthread (s : Scheduler) : nat := length (queues s).

Definition level_is_full (level : nat) (s : Scheduler) : res bool :=
  let? l := get_nodes level s in
  Ok (fanout s ^ Z.of_nat level =? Z.of_nat (length l))%Z.

Definition set_queues qs s := mkSched (fanout s) (max_levels s) (current_level s) (tree_id s) (nodes s) qs.
Definition set_nodes ns s := mkSched (fanout s) (max_levels s) (current_level s) (tree_id s) ns (queues s).
Definition set_current_level l s := mkSched (fanout s) (max_levels s) l (tree_id s) (nodes s) (queues s).

(** Runs an operation on the queue of thread [tid]. *)
Definition on_queue {A} (tid : nat) (m : M BuildTaskQueue A) : M Scheduler A := λ s,
  match queues s !! tid with
  | None => (s, Throw Segfault)
  | Some q => let '(q', r) := m q in (set_queues (<[tid := q']> (queues s)) s, r)
  end.

(** The loop of [run_level] that deals the nodes out. *)
Fixpoint deal (fuel : nat) (level_nodes : list loc) (tid : cunsigned) (task_index : nat)
  : M Scheduler unit :=
  match fuel with
  | O => mthrow OutOfFuel
  | S fuel =>
      let ntasks := if task_index + MIN_TASKS_PT <? length level_nodes + 1 then MIN_TASKS_PT
                    else length level_nodes - task_index in
      on_queue (Z.to_nat (cget tid)) (enqueue_n (take ntasks (drop task_index level_nodes)));;;
      let tid := (inc tid).1 in
      let task_index := task_index + ntasks in
      if task_index =? length level_nodes then mret tt
      else deal fuel level_nodes tid task_index
  end.

(** The part of [run_level] before the workers are woken. *)
Definition deal_level (level : nat) : M Scheduler unit :=
  let! s := mget in
  let! level_nodes := mlift (get_nodes level s) in
  massert (negb (length level_nodes =? 0));;;
  let! tid := mlift (cunsigned_ctor1 (Z.of_nat (get_nthread s))) in
  deal (S (length level_nodes)) level_nodes tid 0.

(** ** Workers and the level barrier *)

Record engine (I : Type) := mkEngine { ew : world I; es : Scheduler }.
Arguments mkEngine {I}.
Arguments ew {I}.
Arguments es {I}.

Section scheduling.
Context {I : Type} `{MatrixIO I} (par_sort seq_sort : StdSort).
Abbreviation E := (M (engine I)).

Definition on_world {A} (m : M (world I) A) : E A := λ e,
  let '(w', r) := m (ew e) in (mkEngine w' (es e), r).
Definition on_sched {A} (m : M Scheduler A) : E A := λ e,
  let '(s', r) := m (es e) in (mkEngine (ew e) s', r).

(** [WorkerThread::run] in state BUILD: [request_task] until there is none. *)
Fixpoint worker_build (fuel tid : nat) : E unit :=
  match fuel with
  | O => mthrow OutOfFuel
  | S fuel =>
      let! active_node := on_sched (on_queue tid dequeue) in
      match active_node with
      | None => mret tt
      | Some p => on_world (run_task par_sort seq_sort p);;; worker_build fuel tid
      end
  end.

(** All workers, one after the other: the sequential reference.  The threads of
    [Workers.v] run at the same time, and end in the same heap when the I/O object
    can be shared. *)
Fixpoint workers_build (fuel n tid : nat) : E unit :=
  match n with
  | O => mret tt
  | S n => worker_build fuel tid;;; workers_build fuel n (S tid)
  end.

Definition total_tasks (s : Scheduler) : nat := sum_list (q_size <$> queues s).

(** [run_level]: deal, wake the workers, wait for all of them. *)
Definition run_level (level : nat) : E unit :=
  on_sched (deal_level level);;;
  let! e := mget in
  workers_build (S (total_tasks (es e))) (get_nthread (es e)) 0.

(** [schedule] *)
Definition schedule (node : loc) : E unit :=
  let! e := mget in
  let s := es e in
  on_sched (
    if length (nodes s) <? current_level s + 1
    then mmodify (set_nodes (nodes s ++ [[node]]))
    else match nodes s !! current_level s with
         | Some l => mmodify (set_nodes (<[current_level s := l ++ [node]]> (nodes s)))
         | None => mthrow Segfault
         end);;;
  let! e := mget in
  let! full := mlift (level_is_full (current_level (es e)) (es e)) in
  if full then
    on_sched (mmodify (set_current_level (S (current_level (es e)))));;;
    run_level (current_level (es e))
  else mret tt.
End scheduling.

(** ** Queues *)

Lemma push_all_spec xs q : push_all xs q = (mkQ (tasks q ++ xs) (locked q), Ok tt).
Proof.
  revert q. induction xs as [|x xs IH]; intros q; cbn [push_all].
  { rewrite app_nil_r. by destruct q. }
  rewrite (mbind_ok _ _ _ _ _ eq_refl : mbind' (mmodify _) _ _ = _), IH. cbn. by rewrite <-app_assoc.
Qed.

Lemma enqueue_n_spec xs q : locked q = false → enqueue_n xs q = (mkQ (tasks q ++ xs) false, Ok tt).
Proof.
  intros Hq. unfold enqueue_n, acquire_lock at 1. unfold mbind' at 1. rewrite Hq.
  by rewrite (mbind_ok _ _ _ _ _ (push_all_spec xs _)).
Qed.

Lemma dequeue_spec q :
  locked q = false → dequeue q = (mkQ (tail (tasks q)) false, Ok (head (tasks q))).
Proof. intros Hq. destruct q as [[|x ts] l]; simpl in Hq; subst; done. Qed.

(** ** Dealing out *)

#[local] Arguments Nat.div : simpl never.
#[local] Arguments Nat.modulo : simpl never.
#[local] Arguments Nat.mul : simpl never.

Definition free_queues (qs : list BuildTaskQueue) : Prop := Forall (λ q, locked q = false) qs.

(** The tasks with index in [i, i + n) that thread [t] of [T] gets. *)
Definition picked (T t : nat) (ns : list loc) (i n : nat) : list loc :=
  omap (λ k, if (k / MIN_TASKS_PT) mod T =? t then ns !! k else None) (seq i n).

Lemma list_omap_cons {A B} (f : A → option B) x l :
  omap f (x :: l) = match f x with Some y => y :: omap f l | None => omap f l end.
Proof. done. Qed.

Lemma omap_lookup_seq (ns : list loc) i n :
  i + n ≤ length ns → omap (λ k, ns !! k) (seq i n) = take n (drop i ns).
Proof.
  revert i. induction n as [|n IH]; intros i Hi; [by rewrite take_0|]. cbn [seq].
  destruct (lookup_lt_is_Some_2 ns i) as [x Hx]; [lia|].
  rewrite (drop_S _ _ _ Hx), list_omap_cons, Hx. simpl. f_equal. apply IH. lia.
Qed.

Lemma picked_app T t ns i a b : picked T t ns i (a + b) = picked T t ns i a ++ picked T t ns (i + a) b.
Proof. unfold picked. by rewrite seq_app, omap_app. Qed.

Lemma picked_block T t ns j m :
  m ≤ MIN_TASKS_PT → MIN_TASKS_PT * j + m ≤ length ns →
  picked T t ns (MIN_TASKS_PT * j) m
    = if j mod T =? t then take m (drop (MIN_TASKS_PT * j) ns) else [].
Proof.
  intros Hm Hl. unfold picked.
  assert (∀ k, k ∈ seq (MIN_TASKS_PT * j) m → k / MIN_TASKS_PT = j) as Hk.
  { intros k [H1 H2]%elem_of_seq. symmetry. apply (Nat.div_unique k MIN_TASKS_PT j (k - MIN_TASKS_PT * j)); lia. }
  rewrite <-omap_lookup_seq by done. revert Hk. generalize (seq (MIN_TASKS_PT * j) m) as L.
  induction L as [|k L IH]; intros Hk; [by case_match|]. rewrite !list_omap_cons, (Hk k) by left.
  rewrite IH by (intros; apply Hk; by right). by destruct (j mod T =? t).
Qed.

Lemma on_queue_run {A} s tid q (m : M BuildTaskQueue A) q' r :
  queues s !! tid = Some q → m q = (q', r) →
  on_queue tid m s = (set_queues (<[tid := q']> (queues s)) s, r).
Proof. intros Hq Hm. unfold on_queue. by rewrite Hq, Hm. Qed.

Lemma set_queues_twice qs1 qs2 s : set_queues qs1 (set_queues qs2 s) = set_queues qs1 s.
Proof. done. Qed.

Lemma deal_spec fuel ns c j s :
  0 < length (queues s) → (Z.of_nat (length (queues s)) < 2 ^ 32)%Z → free_queues (queues s) →
  c = mkCU (Z.of_nat (j mod length (queues s))) (Z.of_nat (length (queues s))) →
  MIN_TASKS_PT * j < length ns → length ns - MIN_TASKS_PT * j < fuel →
  ∃ qs, deal fuel ns c (MIN_TASKS_PT * j) s = (set_queues qs s, Ok tt) ∧
    length qs = length (queues s) ∧ free_queues qs ∧
    ∀ t q, queues s !! t = Some q →
      qs !! t = Some (mkQ (tasks q ++ picked (length (queues s)) t ns (MIN_TASKS_PT * j)
                                          (length ns - MIN_TASKS_PT * j)) false).
Proof.
  revert c j s. induction fuel as [|fuel IH]; intros c j s HT HT32 Hfree -> Hj Hfuel; [lia|].
  cbn [deal]. set (T := length (queues s)) in *. set (tid := j mod T).
  assert (tid < T) as Htid by (apply Nat.mod_upper_bound; lia).
  set (nt := if _ <? _ then MIN_TASKS_PT else _).
  assert (nt ≤ MIN_TASKS_PT ∧ 0 < nt ∧ MIN_TASKS_PT * j + nt ≤ length ns ∧
    (MIN_TASKS_PT * j + nt ≠ length ns → nt = MIN_TASKS_PT)) as (Hnt & Hnt0 & Hntl & Hnt8).
  { unfold nt, MIN_TASKS_PT in *. destruct (Nat.ltb_spec (8 * j + 8) (length ns + 1)); lia. }
  clearbody nt. cbn [cget cval]. rewrite Nat2Z.id.
  destruct (lookup_lt_is_Some_2 (queues s) tid Htid) as [q Hq].
  assert (locked q = false) as Hlq by (unfold free_queues in Hfree; rewrite Forall_lookup in Hfree; eauto).
  rewrite (mbind_ok _ _ _ _ _ (on_queue_run _ _ _ _ _ _ Hq (enqueue_n_spec _ _ Hlq))).
  set (q1 := mkQ (tasks q ++ _) false). set (qs1 := <[tid := q1]> (queues s)).
  assert (length qs1 = T) as HT1 by (unfold qs1; by rewrite length_insert).
  assert (free_queues qs1) as Hf1 by (apply Forall_insert; done).
  assert (∀ t q0, queues s !! t = Some q0 →
    qs1 !! t = Some (mkQ (tasks q0 ++ picked T t ns (MIN_TASKS_PT * j) nt) false)) as Hqs1.
  { intros t q0 Hq0. rewrite picked_block by done. fold tid. unfold qs1.
    destruct (Nat.eqb_spec tid t) as [<-|Hne].
    - rewrite list_lookup_insert_eq by done. rewrite Hq in Hq0. by injection Hq0 as <-.
    - rewrite list_lookup_insert_ne by done. rewrite app_nil_r, Hq0.
      unfold free_queues in Hfree. rewrite Forall_lookup in Hfree. specialize (Hfree _ _ Hq0).
      destruct q0; simpl in *; by subst. }
  destruct (Nat.eqb_spec (MIN_TASKS_PT * j + nt) (length ns)) as [He|He].
  { exists qs1. split_and!; [done..|]. intros t q0 Hq0.
    by replace (length ns - MIN_TASKS_PT * j) with nt by lia; apply Hqs1. }
  pose proof (Hnt8 He) as ->. clear Hnt8.
  replace (MIN_TASKS_PT * j + MIN_TASKS_PT) with (MIN_TASKS_PT * S j) in * by lia.
  rewrite inc_spec by (split; cbn [cval cmax]; lia). cbn [fst cval cmax].
  destruct (IH (mkCU ((Z.of_nat tid + 1) mod Z.of_nat T) (Z.of_nat T)) (S j) (set_queues qs1 s))
    as (qs & Hrun & Hl & Hf & Hall); cbn [queues set_queues]; rewrite ?HT1; try done.
  - f_equal. unfold tid. rewrite Nat2Z.inj_mod, Zplus_mod_idemp_l, Nat2Z.inj_mod. f_equal. lia.
  - unfold MIN_TASKS_PT in *. lia.
  - unfold MIN_TASKS_PT in *. lia.
  - exists qs. cbn [queues set_queues] in *. rewrite HT1 in *. split_and!; [done..|].
    intros t q0 Hq0. rewrite (Hall t _ (Hqs1 t q0 Hq0)). cbn [tasks].
    do 2 f_equal. rewrite <-app_assoc. f_equal.
    replace (length ns - MIN_TASKS_PT * j) with (MIN_TASKS_PT + (length ns - MIN_TASKS_PT * S j))
      by (unfold MIN_TASKS_PT in *; lia).
    rewrite picked_app. by replace (MIN_TASKS_PT * j + MIN_TASKS_PT) with (MIN_TASKS_PT * S j) by lia.
Qed.

(** Every task is picked by exactly one thread. *)
Lemma picked_perm (a : nat → nat) T (ns : list loc) ks :
  (∀ k, a k < T) →
  concat (map (λ t, omap (λ k, if a k =? t then ns !! k else None) ks) (seq 0 T))
    ≡ₚ omap (λ k, ns !! k) ks.
Proof.
  intros Ha. induction ks as [|k ks IH].
  { generalize (seq 0 T) as L. by induction L. }
  setoid_rewrite list_omap_cons.
  assert (∀ L, NoDup L → a k ∈ L →
    concat (map (λ t, match (if a k =? t then ns !! k else None) with
       | Some y => y :: omap (λ k, if a k =? t then ns !! k else None) ks
       | None => omap (λ k, if a k =? t then ns !! k else None) ks end) L)
    ≡ₚ (match ns !! k with Some y => [y] | None => [] end)
       ++ concat (map (λ t, omap (λ k, if a k =? t then ns !! k else None) ks) L)) as Hone.
  { induction L as [|t L IHL]; intros Hnd Hin; [by apply elem_of_nil in Hin|].
    apply NoDup_cons in Hnd as [Ht Hnd]. simpl. destruct (Nat.eqb_spec (a k) t) as [Hat|Hat].
    - assert (concat (map (λ t, match (if a k =? t then ns !! k else None) with
         | Some y => y :: omap (λ k, if a k =? t then ns !! k else None) ks
         | None => omap (λ k, if a k =? t then ns !! k else None) ks end) L)
        = concat (map (λ t, omap (λ k, if a k =? t then ns !! k else None) ks) L)) as ->.
      { f_equal. apply map_ext_in. intros t' Ht'%list_elem_of_In.
        rewrite (proj2 (Nat.eqb_neq (a k) t')); [done|]. intros <-. by subst. }
      by destruct (ns !! k).
    - rewrite IHL by set_solver. destruct (ns !! k); simpl; [|done]. by rewrite Permutation_middle. }
  rewrite Hone; [|apply NoDup_seq|apply elem_of_seq; specialize (Ha k); lia].
  rewrite IH. by destruct (ns !! k).
Qed.

Lemma picked_all T ns :
  0 < T → concat (map (λ t, picked T t ns 0 (length ns)) (seq 0 T)) ≡ₚ ns.
Proof.
  intros HT. unfold picked.
  rewrite (picked_perm (λ k, (k / MIN_TASKS_PT) mod T) T ns (seq 0 (length ns)))
    by (intros; apply Nat.mod_upper_bound; lia).
  rewrite omap_lookup_seq by lia. by rewrite drop_0, take_ge.
Qed.

(** ** Workers *)

Section worker_specs.
Context {I : Type} `{MatrixIO I} (par_sort seq_sort : StdSort).
Implicit Types (w : world I) (s : Scheduler) (mat : matrix).
Abbreviation tasks_run := (run_tasks par_sort seq_sort).

Lemma run_tasks_app w w1 w2 ps qs :
  tasks_run ps w = (w1, Ok tt) → tasks_run qs w1 = (w2, Ok tt) → tasks_run (ps ++ qs) w = (w2, Ok tt).
Proof.
  revert w. induction ps as [|p ps IH]; intros w Hp Hq; simpl in *; [by injection Hp as ->|].
  apply mbind_ok_inv in Hp as ([] & w' & Hrun & Hps).
  rewrite (mbind_ok _ _ _ _ _ Hrun). by apply IH.
Qed.

Lemma run_tasks_app_inv w w2 ps qs :
  tasks_run (ps ++ qs) w = (w2, Ok tt) →
  ∃ w1, tasks_run ps w = (w1, Ok tt) ∧ tasks_run qs w1 = (w2, Ok tt).
Proof.
  revert w. induction ps as [|p ps IH]; intros w Hp; simpl in *; [by exists w|].
  apply mbind_ok_inv in Hp as ([] & w' & Hrun & Hps). destruct (IH _ Hps) as (w1 & H1 & H2).
  exists w1. by rewrite (mbind_ok _ _ _ _ _ Hrun).
Qed.

Lemma list_insert_same_idem {A} (l : list A) i x y : <[i := x]> (<[i := y]> l) = <[i := x]> l.
Proof. apply list_insert_insert_eq. Qed.

(** A worker runs exactly the tasks of its queue, in order, and leaves it empty. *)
Lemma worker_build_spec fuel tid w w' s q :
  queues s !! tid = Some q → locked q = false → length (tasks q) < fuel →
  tasks_run (tasks q) w = (w', Ok tt) →
  worker_build par_sort seq_sort fuel tid (mkEngine w s)
    = (mkEngine w' (set_queues (<[tid := mkQ [] false]> (queues s)) s), Ok tt).
Proof.
  revert w s q. induction fuel as [|fuel IH]; intros w s q Hq Hl Hf Hrun; [lia|]. cbn [worker_build].
  assert (on_sched (on_queue tid dequeue) (mkEngine w s)
    = (mkEngine w (set_queues (<[tid := mkQ (tail (tasks q)) false]> (queues s)) s), Ok (head (tasks q)))) as Hdq.
  { unfold on_sched. cbn [es ew]. by rewrite (on_queue_run _ _ _ _ _ _ Hq (dequeue_spec q Hl)). }
  rewrite (mbind_ok _ _ _ _ _ Hdq). clear Hdq.
  destruct (tasks q) as [|p ps] eqn:Et; cbn [head tail].
  { injection Hrun as ->. done. }
  cbn [run_tasks] in Hrun. apply mbind_ok_inv in Hrun as ([] & w1 & Hp & Hps).
  assert (on_world (run_task par_sort seq_sort p)
    (mkEngine w (set_queues (<[tid := mkQ ps false]> (queues s)) s))
    = (mkEngine w1 (set_queues (<[tid := mkQ ps false]> (queues s)) s), Ok tt)) as Hw.
  { unfold on_world. cbn [es ew]. by rewrite Hp. }
  rewrite (mbind_ok _ _ _ _ _ Hw).
  pose proof (lookup_lt_Some _ _ _ Hq) as Hlt. simpl in Hf.
  rewrite (IH w1 _ (mkQ ps false)); cbn [queues set_queues tasks locked]; try done.
  - by rewrite list_insert_same_idem.
  - by rewrite list_lookup_insert_eq.
  - lia.
Qed.

Lemma workers_build_spec fuel n tid w w' s :
  tid + n = length (queues s) → free_queues (queues s) →
  length (concat (tasks <$> queues s)) < fuel →
  tasks_run (concat (tasks <$> drop tid (queues s))) w = (w', Ok tt) →
  workers_build par_sort seq_sort fuel n tid (mkEngine w s)
    = (mkEngine w' (set_queues (take tid (queues s) ++ replicate n BuildTaskQueue_ctor) s), Ok tt).
Proof.
  revert tid w s. induction n as [|n IH]; intros tid w s Ht Hfree Hf Hrun; cbn [workers_build].
  { rewrite drop_ge in Hrun by lia. injection Hrun as ->. rewrite take_ge, app_nil_r by lia. by destruct s. }
  destruct (lookup_lt_is_Some_2 (queues s) tid) as [q Hq]; [lia|].
  rewrite (drop_S _ _ _ Hq) in Hrun. cbn [fmap list_fmap concat] in Hrun.
  apply run_tasks_app_inv in Hrun as (w1 & H1 & H2).
  assert (locked q = false) as Hlq by (unfold free_queues in Hfree; rewrite Forall_lookup in Hfree; eauto).
  assert (length (tasks q) < fuel) as Hfq.
  { rewrite <-(take_drop_middle _ _ _ Hq), fmap_app, concat_app, length_app in Hf. simpl in Hf.
    rewrite length_app in Hf. lia. }
  rewrite (mbind_ok _ _ _ _ _ (worker_build_spec fuel tid w w1 s q Hq Hlq Hfq H1)).
  set (s1 := set_queues (<[tid:=mkQ [] false]> (queues s)) s).
  rewrite (IH (S tid) w1 s1).
  - unfold s1. cbn [queues set_queues]. rewrite set_queues_twice.
    rewrite (take_S_r _ _ (mkQ [] false)) by (rewrite list_lookup_insert_eq by lia; done).
    rewrite take_insert_ge by lia. by rewrite <-app_assoc.
  - unfold s1. cbn [queues set_queues]. rewrite length_insert. lia.
  - unfold s1, free_queues. cbn [queues set_queues]. by apply Forall_insert.
  - unfold s1. cbn [queues set_queues]. rewrite insert_take_drop by lia.
    rewrite fmap_app, concat_app, length_app. simpl.
    rewrite <-(take_drop_middle _ _ _ Hq), fmap_app, concat_app, length_app in Hf. simpl in Hf.
    rewrite length_app in Hf. lia.
  - unfold s1. cbn [queues set_queues]. by rewrite drop_insert_lt by lia.
Qed.

Lemma sum_sizes qs : sum_list (q_size <$> qs) = length (concat (tasks <$> qs)).
Proof.
  induction qs as [|q qs IH]; [done|]. rewrite !fmap_cons. cbn [concat sum_list]. by rewrite length_app, <-IH.
Qed.

(** A scheduler whose workers are idle. *)
Definition idle s : Prop :=
  queues s = replicate (length (queues s)) BuildTaskQueue_ctor ∧
  0 < length (queues s) ∧ (Z.of_nat (length (queues s)) < 2 ^ 32)%Z.

Lemma idle_free s : idle s → free_queues (queues s).
Proof. intros (Hq & _). rewrite Hq. by apply Forall_replicate. Qed.

Lemma set_queues_same s : set_queues (queues s) s = s.
Proof. by destruct s. Qed.

Lemma deal_level_spec level ns s :
  idle s → nodes s !! level = Some ns → ns ≠ [] →
  ∃ qs, deal_level level s = (set_queues qs s, Ok tt) ∧ length qs = length (queues s) ∧
    free_queues qs ∧ concat (tasks <$> qs) ≡ₚ ns ∧
    ∀ t, t < length (queues s) →
      qs !! t = Some (mkQ (picked (length (queues s)) t ns 0 (length ns)) false).
Proof.
  intros Hidle Hns Hne. pose proof Hidle as (Hq & HT & HT32). unfold deal_level.
  rewrite (mbind_ok _ _ _ _ _ eq_refl : mbind' mget _ _ = _). unfold get_nodes. rewrite Hns.
  rewrite (mbind_ok (mlift (Ok _)) _ _ _ _ eq_refl).
  assert (0 < length ns) as Hlen by (destruct ns; [done|simpl; lia]).
  rewrite (proj2 (Nat.eqb_neq _ _)) by lia. rewrite (mbind_ok (massert true) _ _ _ _ eq_refl).
  unfold cunsigned_ctor1, get_nthread. rewrite (proj2 (Z.eqb_neq _ _)) by lia.
  rewrite (mbind_ok (mlift (Ok _)) _ _ _ _ eq_refl).
  destruct (deal_spec (S (length ns)) ns (mkCU 0 (Z.of_nat (length (queues s)))) 0 s HT HT32
    (idle_free s Hidle)) as (qs & Hrun & Hl & Hf & Hall);
    [by rewrite Nat.Div0.mod_0_l|unfold MIN_TASKS_PT; lia|unfold MIN_TASKS_PT; lia|].
  rewrite Nat.mul_0_r, Nat.sub_0_r in *.
  assert (∀ t, t < length (queues s) →
    qs !! t = Some (mkQ (picked (length (queues s)) t ns 0 (length ns)) false)) as Hall'.
  { intros t Ht. rewrite (Hall t BuildTaskQueue_ctor); [done|]. rewrite Hq. by apply lookup_replicate_2. }
  exists qs. split_and!; [done..| |done].
  etrans; [|apply (picked_all (length (queues s)) ns HT)].
  assert (tasks <$> qs = map (λ t, picked (length (queues s)) t ns 0 (length ns))
    (seq 0 (length (queues s)))) as ->; [|done].
  apply list_eq. intros t. rewrite !list_lookup_fmap.
  destruct (decide (t < length (queues s))) as [Ht|Ht].
  - by rewrite Hall', lookup_seq_lt by done.
  - rewrite (lookup_ge_None_2 qs) by lia. rewrite (lookup_ge_None_2 (seq _ _)); [done|].
    rewrite length_seq. lia.
Qed.

(** [run_level] runs every node of the level once and leaves the workers idle. *)
Lemma run_level_spec level ns w s mat :
  idle s → nodes s !! level = Some ns → ns ≠ [] → NoDup ns →
  io_repr (wio w) mat →
  Forall (λ p, ∃ nd, kheap w !! p = Some nd ∧ task_ready mat nd) ns →
  ∃ w', run_level par_sort seq_sort level (mkEngine w s) = (mkEngine w' s, Ok tt) ∧
    io_repr (wio w') mat ∧ io_orient (wio w') = io_orient (wio w) ∧
    ∀ q, kheap w' !! q
      = if decide (q ∈ ns) then task_result par_sort seq_sort mat <$> (kheap w !! q) else kheap w !! q.
Proof.
  intros Hidle Hns Hne Hnd Hio Hready.
  destruct (deal_level_spec level ns s Hidle Hns Hne) as (qs & Hdeal & Hl & Hf & Hperm & _).
  destruct (run_tasks_spec par_sort seq_sort w mat (concat (tasks <$> qs))) as (w' & Hrun & Hio' & Ho' & Hq);
    [done|by rewrite Hperm|by rewrite Hperm|].
  exists w'. split_and!; [|done|done|].
  - unfold run_level.
    assert (on_sched (deal_level level) (mkEngine w s) = (mkEngine w (set_queues qs s), Ok tt)) as Hd
      by (unfold on_sched; cbn [es ew]; by rewrite Hdeal).
    rewrite (mbind_ok _ _ _ _ _ Hd), (mbind_ok _ _ _ _ _ eq_refl : mbind' mget _ _ = _).
    cbn [es get_nthread queues set_queues].
    rewrite (workers_build_spec _ (length qs) 0 w w' (set_queues qs s)); cbn [queues set_queues].
    + rewrite set_queues_twice, take_0. cbn [app]. destruct Hidle as (Hq0 & _).
      rewrite Hl, <-Hq0. by rewrite set_queues_same.
    + done.
    + done.
    + unfold total_tasks. cbn [queues set_queues]. rewrite sum_sizes. lia.
    + by rewrite drop_0.
  - intros q. rewrite Hq. destruct (decide (q ∈ ns)) as [Hin|Hin]; rewrite <-Hperm in Hin;
      [by rewrite decide_True|by rewrite decide_False].
Qed.
End worker_specs.

(** ** [schedule] *)

Section schedule_specs.
Context {I : Type} `{MatrixIO I} (par_sort seq_sort : StdSort).
Implicit Types (w : world I) (s : Scheduler).

(** The level lists when the level in progress holds [l]. *)
Definition level_lists (base : list (list loc)) (l : list loc) : list (list loc) :=
  match l with [] => base | _ => base ++ [l] end.

Lemma schedule_push w s base l node :
  nodes s = level_lists base l → length base = current_level s →
  schedule par_sort seq_sort node (mkEngine w s)
    = (if (fanout s ^ Z.of_nat (current_level s) =? Z.of_nat (S (length l)))%Z
       then run_level par_sort seq_sort (current_level s)
              (mkEngine w (set_current_level (S (current_level s)) (set_nodes (base ++ [l ++ [node]]) s)))
       else (mkEngine w (set_nodes (base ++ [l ++ [node]]) s), Ok tt)).
Proof.
  intros Hn Hb. unfold schedule. rewrite (mbind_ok _ _ _ _ _ eq_refl : mbind' mget _ _ = _). cbn [es].
  set (s1 := set_nodes (base ++ [l ++ [node]]) s).
  assert ((if length (nodes s) <? current_level s + 1
    then mmodify (set_nodes (nodes s ++ [[node]]))
    else match nodes s !! current_level s with
         | Some l => mmodify (set_nodes (<[current_level s := l ++ [node]]> (nodes s)))
         | None => mthrow Segfault
         end) s = (s1, Ok tt)) as Hpush.
  { rewrite Hn. destruct l as [|x l]; cbn [level_lists].
    - destruct (Nat.ltb_spec (length base) (current_level s + 1)); [done|lia].
    - rewrite length_app. cbn [length].
      destruct (Nat.ltb_spec (length base + 1) (current_level s + 1)); [lia|].
      rewrite <-Hb, lookup_app_r, Nat.sub_diag by lia. cbn [lookup list_lookup].
      rewrite insert_app_r_alt, Nat.sub_diag by lia. done. }
  assert (∀ m, m s = (s1, Ok tt) → on_sched (I := I) (A := unit) m (mkEngine w s) = (mkEngine w s1, Ok tt)) as Hon.
  { intros m Hm. unfold on_sched. cbn [es ew]. by rewrite Hm. }
  rewrite (mbind_ok _ _ _ _ _ (Hon _ Hpush)), (mbind_ok _ _ _ _ _ eq_refl : mbind' mget _ _ = _). cbn [es].
  assert (level_is_full (current_level s1) s1
    = Ok (fanout s ^ Z.of_nat (current_level s) =? Z.of_nat (S (length l)))%Z) as Hfull.
  { unfold level_is_full, get_nodes, s1. cbn [nodes set_nodes current_level fanout].
    rewrite <-Hb, lookup_app_r, Nat.sub_diag by lia. cbn. rewrite length_app. simpl.
    by rewrite Nat.add_1_r. }
  rewrite Hfull, (mbind_ok (mlift (Ok _)) _ _ _ _ eq_refl).
  by destruct (_ =? _)%Z.
Qed.

Fixpoint schedule_list (ps : list loc) : M (engine I) unit :=
  match ps with
  | [] => mret tt
  | p :: ps => schedule par_sort seq_sort p;;; schedule_list ps
  end.

(** Scheduling what is missing of a level runs the level, once. *)
Lemma schedule_level w s base l ps :
  nodes s = level_lists base l → length base = current_level s → ps ≠ [] →
  (fanout s ^ Z.of_nat (current_level s) = Z.of_nat (length l + length ps))%Z →
  schedule_list ps (mkEngine w s)
    = run_level par_sort seq_sort (current_level s)
        (mkEngine w (set_current_level (S (current_level s)) (set_nodes (base ++ [l ++ ps]) s))).
Proof.
  revert s l. induction ps as [|p ps IH]; intros s l Hn Hb Hne Hf; [done|]. cbn [schedule_list length] in *.
  unfold mbind' at 1. rewrite (schedule_push w s base l p Hn Hb).
  destruct ps as [|p' ps].
  - rewrite (proj2 (Z.eqb_eq _ _)) by (rewrite Hf; f_equal; simpl; lia).
    destruct (run_level _ _ _ _) as [e' [[]|ex]]; done.
  - rewrite (proj2 (Z.eqb_neq _ _)) by (rewrite Hf; simpl; lia).
    rewrite (IH (set_nodes (base ++ [l ++ [p]]) s) (l ++ [p])); cbn [nodes set_nodes current_level fanout].
    + by rewrite <-app_assoc.
    + by destruct l.
    + done.
    + done.
    + rewrite Hf. f_equal. rewrite length_app. simpl. lia.
Qed.
End schedule_specs.

(** ** Properties *)

(** [Scheduler::run_level] deals the nodes of a level out completely and
    without overlap: starting from idle workers it terminates, the node with
    index [i] goes to worker [(i/8) mod nthread], every queue holds its nodes in
    level order, and together the queues hold each node of the level exactly
    once; no queue is left locked. *)
Theorem sched_deal_partition level ns s :
  idle s → nodes s !! level = Some ns → ns ≠ [] →
  ∃ qs, deal_level level s = (set_queues qs s, Ok tt) ∧ length qs = get_nthread s ∧
    free_queues qs ∧ concat (tasks <$> qs) ≡ₚ ns ∧
    ∀ t, t < get_nthread s → ∃ q, qs !! t = Some q ∧
      tasks q = omap (λ i, if (i / 8) mod get_nthread s =? t then ns !! i else None)
                  (seq 0 (length ns)).
Proof.
  intros Hi Hn Hne. destruct (deal_level_spec level ns s Hi Hn Hne) as (qs & H1 & H2 & H3 & H4 & H5).
  exists qs. split_and!; [done..|]. intros t Ht. eexists. split; [by apply H5|done].
Qed.

(** The order of the tasks of a level does not matter when they run one after the
    other: [run_level] ends with idle workers, every node of the level has been
    prepared and run exactly once, and running the nodes, one whole task at a
    time, in any other order gives the same heap.  Tasks that overlap in time are
    the subject of [Workers.v]. *)
Theorem sched_level_order_irrelevant {I} `{MatrixIO I} par_sort seq_sort level ns (w : world I) s mat :
  idle s → nodes s !! level = Some ns → ns ≠ [] → NoDup ns → io_repr (wio w) mat →
  Forall (λ p, ∃ nd, kheap w !! p = Some nd ∧ task_ready mat nd) ns →
  ∃ w', run_level par_sort seq_sort level (mkEngine w s) = (mkEngine w' s, Ok tt) ∧
    (∀ p nd, p ∈ ns → kheap w !! p = Some nd →
       kheap w' !! p = Some (task_result par_sort seq_sort mat nd)) ∧
    ∀ ps, ps ≡ₚ ns → ∃ w'', run_tasks par_sort seq_sort ps w = (w'', Ok tt) ∧ kheap w'' = kheap w'.
Proof.
  intros Hi Hn Hne Hnd Hio Hr.
  destruct (run_level_spec par_sort seq_sort level ns w s mat Hi Hn Hne Hnd Hio Hr) as (w' & Hrun & _ & _ & Hh).
  exists w'. split_and!; [done|..].
  - intros p nd Hp Hl. by rewrite Hh, decide_True, Hl.
  - intros ps Hps.
    destruct (run_tasks_spec par_sort seq_sort w mat ps) as (w'' & Hrun' & _ & _ & Hh');
      [done|by rewrite Hps|by rewrite Hps|].
    exists w''. split; [done|]. apply map_eq. intros q. rewrite Hh, Hh'.
    destruct (decide (q ∈ ps)) as [Hin|Hin]; rewrite Hps in Hin;
      [by rewrite decide_True|by rewrite decide_False].
Qed.

(** *** Witnesses *)

Definition ex_sched : Scheduler := set_nodes [[1%positive; 2%positive]] (Scheduler_ctor 2 4 0 2).

Lemma ex_sched_idle : idle ex_sched.
Proof. split_and!; [reflexivity|simpl; lia|simpl; lia]. Qed.

Lemma sched_deal_partition_witness :
  ∃ qs, deal_level 0 ex_sched = (set_queues qs ex_sched, Ok tt) ∧
    concat (tasks <$> qs) ≡ₚ [1%positive; 2%positive].
Proof.
  destruct (sched_deal_partition 0 [1%positive; 2%positive] ex_sched) as (qs & H1 & _ & _ & H2 & _);
    [exact ex_sched_idle|reflexivity|done|]. by exists qs.
Defined.

Definition ex_kd (i : Z) : kdnode :=
  set_index 0 (set_ioer true (set_ph_data_index [i] (kdnode_ctor fzero 0))).
Definition ex_world : world MemoryIO.t :=
  mkWorld {[ 1%positive := ex_kd 0; 2%positive := ex_kd 1 ]} ex_mem.

Lemma ex_mem_repr : io_repr ex_mem ex_mat.
Proof. split; [done|]. exists ex_cells. split; [done|]. split; [by left|]. all_cells. Qed.

Lemma ex_kd_ready i : Z.to_nat i < 2 → task_ready ex_mat (ex_kd i).
Proof.
  intros Hi. split; [done|by exists 0%Z; split; [|simpl; lia]|by apply Forall_singleton|simpl; lia|].
  intros [|[|r]] [|[|c]] ? ?; simpl in *; try lia; reflexivity.
Qed.

Lemma sched_level_order_irrelevant_witness :
  ∃ w', run_level isort_std_sort isort_std_sort 0 (mkEngine ex_world ex_sched)
          = (mkEngine w' ex_sched, Ok tt) ∧
    ∃ w'', run_tasks isort_std_sort isort_std_sort [2%positive; 1%positive] ex_world = (w'', Ok tt) ∧
      kheap w'' = kheap w'.
Proof.
  destruct (sched_level_order_irrelevant isort_std_sort isort_std_sort 0 [1%positive; 2%positive]
    ex_world ex_sched ex_mat) as (w' & H1 & _ & H2);
    [exact ex_sched_idle|reflexivity|done|apply (bool_decide_unpack _); vm_compute; done|exact ex_mem_repr| |].
  - apply Forall_cons_2; [exists (ex_kd 0); split; [reflexivity|apply ex_kd_ready; simpl; lia]|].
    apply Forall_cons_2; [exists (ex_kd 1); split; [reflexivity|apply ex_kd_ready; simpl; lia]|apply Forall_nil_2].
  - exists w'. split; [exact H1|]. apply H2. apply Permutation_swap.
Defined.
