(* ===== verification/Workers.v ===== *)
(** * The workers of a level at the same time: [structures/WorkerThread.cpp],
      [NodeView::prep] and [IO::get_col]

    [Scheduler.v] runs the tasks of a level one after the other.  Here every
    worker is a thread of its own: it takes a task from its queue (a test without
    the lock, then lock, pop, unlock), calls [get_col] of the shared I/O object,
    copies the values into its node one by one and runs the node.  Each access to
    something shared is a step, and the steps of the workers interleave in any
    way.  For an I/O object whose [get_col] only reads, such as [MemoryIO], every
    interleaving ends with the heap that the sequential order gives; [SyncIO],
    whose calls share a stream and a buffer, is a counterexample.  Memory is
    sequentially consistent. *)
From S2P Require Import Prelude DataT Types Stream IO Nodes Scheduler.
From stdpp Require Import options.

(** ** [get_col] in steps *)

(** A call of [get_col] in progress, and what the calls share. *)
Class ThreadedIO (I : Type) := {
  gst : Type;
  gcol : nat → gst;
  gcol_step : gst → M I (gst + buf);
  io_array : I → option (list data_t)
}.
Arguments gst I {_}.

(** [ret[i]] *)
Definition buf_at (arr : option (list data_t)) (b : buf) (i : nat) : option data_t :=
  match b with View o => arr ≫= λ l, l !! (o + i) | Fresh a => a !! i end.

(** [MemoryIO::get_col]: at the start, or with [tmp] filled up to its length. *)
Record mem_call := mkMemCall { mc_offset : nat; mc_tmp : option (list data_t) }.
Definition mem_gcol_step (g : mem_call) : M MemoryIO.t (mem_call + buf) := λ io,
  let '(n, m) := dim (MemoryIO.base io) in
  match mc_tmp g with
  | None =>
      match orient (MemoryIO.base io) with
      | COL => (io, Ok (inr (View (mc_offset g * n))))
      | ROW => (io, Ok (inl (mkMemCall (mc_offset g) (Some []))))
      | _ => (io, Throw not_implemented_exception)
      end
  | Some tmp =>
      if length tmp <? n then
        match data (MemoryIO.base io) ≫= λ d, d !! (length tmp * m + mc_offset g) with
        | Some x => (io, Ok (inl (mkMemCall (mc_offset g) (Some (tmp ++ [x])))))
        | None => (io, Throw Segfault)
        end
      else (io, Ok (inr (Fresh tmp)))
  end.
#[export] Instance MemoryIO_threaded : ThreadedIO MemoryIO.t := {|
  gst := mem_call;
  gcol c := mkMemCall c None;
  gcol_step := mem_gcol_step;
  io_array io := data (MemoryIO.base io)
|}.

(** [SyncIO::get_col]: seek, allocate and read are separate steps on the shared
    stream and buffer. *)
Inductive sync_call :=
  | SStart (offset : nat)
  | SAlloc
  | SRead
  | SRowSeek (offset : nat) (tmp : list data_t)
  | SRowRead (offset : nat) (tmp : list data_t).
Definition sync_gcol_step (junk : data_t) (g : sync_call) : M SyncIO.t (sync_call + buf) := λ io,
  let '(n, m) := dim (SyncIO.base io) in
  match g with
  | SStart offset =>
      if negb (is_open (SyncIO.fs io)) then (io, Throw AssertFailed) else
      match orient (SyncIO.base io) with
      | COL => (SyncIO.set_fs (fs_seekp (offset * n * dtype_size) (SyncIO.fs io)) io, Ok (inl SAlloc))
      | ROW => (io, Ok (inl (SRowSeek offset [])))
      | _ => (io, Throw not_implemented_exception)
      end
  | SAlloc =>
      match data (SyncIO.base io) with
      | Some _ => (io, Ok (inl SRead))
      | None => (SyncIO.set_base (set_data_ptr (Some (replicate n junk)) (SyncIO.base io)) io, Ok (inl SRead))
      end
  | SRead =>
      let '(f, bs) := fs_read (dtype_size * n) (SyncIO.fs io) in
      match overlay (default [] (data (SyncIO.base io))) bs with
      | Ok arr => (SyncIO.set_base (set_data_ptr (Some arr) (SyncIO.base io)) (SyncIO.set_fs f io), Ok (inr (View 0)))
      | Throw e => (SyncIO.set_fs f io, Throw e)
      end
  | SRowSeek offset tmp =>
      if length tmp <? n then
        (SyncIO.set_fs (fs_seekp ((length tmp * m + offset) * dtype_size) (SyncIO.fs io)) io, Ok (inl (SRowRead offset tmp)))
      else (io, Ok (inr (Fresh tmp)))
  | SRowRead offset tmp =>
      let '(f, bs) := fs_read dtype_size (SyncIO.fs io) in
      match overlay [junk] bs with
      | Ok x => (SyncIO.set_fs f io, Ok (inl (SRowSeek offset (tmp ++ x))))
      | Throw e => (SyncIO.set_fs f io, Throw e)
      end
  end.
#[export] Instance SyncIO_threaded : ThreadedIO SyncIO.t := {|
  gst := sync_call;
  gcol := SStart;
  gcol_step := sync_gcol_step fzero;
  io_array io := data (SyncIO.base io)
|}.

(** ** Workers *)

(** Where a worker is in the loop of [WorkerThread::run]: the unlocked test of
    [dequeue], its lock, [pop] and unlock, [prep] with the call of [get_col], the
    two loops of [prep] at element [i], and [run]. *)
Inductive wpc (G : Type) :=
  | WTest
  | WAcquire
  | WPop
  | WRelease (p : loc)
  | WPrep (p : loc)
  | WGet (p : loc) (g : G)
  | WRet (p : loc) (b : buf)
  | WPush (p : loc) (b : buf) (n i : nat)
  | WFill (p : loc) (b : buf) (i : nat)
  | WRun (p : loc)
  | WIdle
  | WFail (e : exn).
Arguments WTest {G}.
Arguments WAcquire {G}.
Arguments WPop {G}.
Arguments WRelease {G}.
Arguments WPrep {G}.
Arguments WGet {G}.
Arguments WRet {G}.
Arguments WPush {G}.
Arguments WFill {G}.
Arguments WRun {G}.
Arguments WIdle {G}.
Arguments WFail {G}.

Section steps.
Context {I : Type} `{MatrixIO I} `{ThreadedIO I} (par_sort seq_sort : StdSort).

(** A worker: its queue and where it is. *)
Abbreviation worker := (BuildTaskQueue * wpc (gst I))%type.

(** [data_index[i].set_val(v)] and [_.push_back(IndexVal(i, v))] *)
Definition set_elem (i : nat) (v : data_t) (nd : kdnode) : kdnode :=
  with_data_index (mkIVec (alter (iv_set_val v) i (ivec (data_index nd))) (sorted (data_index nd))) nd.
Definition push_elem (i : nat) (v : data_t) (nd : kdnode) : kdnode :=
  with_data_index (mkIVec (ivec (data_index nd) ++ [mkIV (u32 (Z.of_nat i)) v]) (sorted (data_index nd))) nd.

Definition on_lock (m : M BuildTaskQueue unit) (q : BuildTaskQueue) (next : wpc (gst I)) : worker :=
  match m q with (q', Ok _) => (q', next) | (q', Throw e) => (q', WFail e) end.

(** One step of a worker; [None] when it has none. *)
Definition wstep (wk : worker) (w : world I) : option (worker * world I) :=
  let '(q, pc) := wk in
  let put p nd := mkWorld (<[p := nd]> (kheap w)) (wio w) in
  let at_node p (k : kdnode → worker * world I) :=
    match kheap w !! p with Some nd => Some (k nd) | None => Some ((q, WFail Segfault), w) end in
  match pc with
  | WTest => Some ((q, if bool_decide (tasks q = []) then WIdle else WAcquire), w)
  | WAcquire => Some (on_lock acquire_lock q WPop, w)
  | WPop =>
      match tasks q with
      | p :: _ => Some ((pop q, WRelease p), w)
      | [] => Some ((q, WFail Segfault), w)
      end
  | WRelease p => Some (on_lock release_lock q (WPrep p), w)
  | WPrep p => at_node p (λ nd,
      match req_indxs nd with
      | [i] => ((q, if ioer_set nd then WGet p (gcol (Z.to_nat i)) else WFail Segfault), w)
      | _ => ((q, WFail AssertFailed), w)
      end)
  | WGet p g =>
      match gcol_step g (wio w) with
      | (io, Ok (inl g)) => Some ((q, WGet p g), mkWorld (kheap w) io)
      | (io, Ok (inr b)) => Some ((q, WRet p b), mkWorld (kheap w) io)
      | (io, Throw e) => Some ((q, WFail e), mkWorld (kheap w) io)
      end
  | WRet p b => at_node p (λ nd,
      ((q, if empty (data_index nd) then WPush p b (io_shape (wio w)).1 0 else WFill p b 0), w))
  | WPush p b n i =>
      if i <? n then at_node p (λ nd,
        match buf_at (io_array (wio w)) b i with
        | Some v => ((q, WPush p b n (S i)), put p (push_elem i v nd))
        | None => ((q, WFail Segfault), w)
        end)
      else Some ((q, WRun p), w)
  | WFill p b i => at_node p (λ nd,
      match ivec (data_index nd) !! i with
      | None => ((q, WRun p), w)
      | Some iv =>
          match buf_at (io_array (wio w)) b (Z.to_nat (iv_index iv)) with
          | Some v => ((q, WFill p b (S i)), put p (set_elem i v nd))
          | None => ((q, WFail Segfault), w)
          end
      end)
  | WRun p => at_node p (λ nd,
      match run_node par_sort seq_sort nd with
      | Ok nd' => ((q, WTest), put p nd')
      | Throw e => ((q, WFail e), w)
      end)
  | WIdle | WFail _ => None
  end.

(** The level: any worker takes the next step. *)
Record level_conf := mkLC { lw : world I; lworkers : list worker }.
Inductive cstep : level_conf → level_conf → Prop :=
  | cstep_worker c t wk wk' w' : lworkers c !! t = Some wk → wstep wk (lw c) = Some (wk', w') →
      cstep c (mkLC w' (<[t := wk']> (lworkers c))).

(** All workers of a level that has been dealt out. *)
Definition level_start (w : world I) (qs : list BuildTaskQueue) : level_conf := mkLC w ((λ q, (q, WTest)) <$> qs).

(** A given order of the workers, for examples. *)
Fixpoint run_order (ts : list nat) (c : level_conf) : option level_conf :=
  match ts with
  | [] => Some c
  | t :: ts =>
      match lworkers c !! t with
      | None => None
      | Some wk =>
          match wstep wk (lw c) with
          | None => None
          | Some (wk', w') => run_order ts (mkLC w' (<[t := wk']> (lworkers c)))
          end
      end
  end.
End steps.
Arguments level_conf I {_}.

(** ** I/O objects that can be shared *)

(** The calls do not change the object, end after a number of steps that the
    matrix bounds, and return a pointer to the column. *)
Class StableIO (I : Type) `{MatrixIO I} `{ThreadedIO I} := {
  gcost : matrix → gst I → nat;
  ginv : I → matrix → nat → gst I → Prop;
  gcol_start io m c : io_repr io m → c < mcols m → ginv io m c (gcol c) ∧ gcost m (gcol c) ≤ mrows m + 2;
  gcol_next io m c g : io_repr io m → c < mcols m → ginv io m c g →
    (∃ g', gcol_step g io = (io, Ok (inl g')) ∧ ginv io m c g' ∧ gcost m g' < gcost m g) ∨
    (∃ b, gcol_step g io = (io, Ok (inr b)) ∧ ∀ r, r < mrows m → buf_at (io_array io) b r = Some (mentry m r c))
}.

#[export] Program Instance MemoryIO_stable : StableIO MemoryIO.t := {|
  gcost m g := match mc_tmp g with None => mrows m + 2 | Some tmp => S (mrows m - length tmp) end;
  ginv io m c g := mc_offset g = c ∧
    match mc_tmp g with
    | None => True
    | Some tmp => orient (MemoryIO.base io) = ROW ∧ length tmp ≤ mrows m ∧ tmp = map (λ r, mentry m r c) (seq 0 (length tmp))
    end
|}.
Next Obligation. intros io m c _ _. done. Qed.
Next Obligation.
  intros io m c [off tmp] (Hd & l & Hl & Ho & Hh) Hc [Hoff Hg]. cbn in Hoff, Hg |- *. subst off. unfold mem_gcol_step. rewrite Hd. cbn [mc_tmp mc_offset].
  destruct tmp as [tmp|].
  - destruct Hg as (Hr & Hlt & Htmp). rewrite Hr in *. cbn [index_of] in Hh. destruct (Nat.ltb_spec (length tmp) (mrows m)) as [Hn|Hn].
    + left. rewrite Hl. cbn [mbind option_bind]. rewrite (Hh (length tmp) c Hn Hc). eexists. split; [done|]. cbn [mc_tmp mc_offset]. rewrite length_app. cbn [length].
      split; [|lia]. split; [done|]. split_and!; [done|lia|]. rewrite Nat.add_1_r, seq_S, map_app, <-Htmp. done.
    + right. eexists. split; [done|]. intros r Hrow. cbn [buf_at]. rewrite Htmp. change (map ?f) with (fmap (M := list) f). rewrite list_lookup_fmap, lookup_seq_lt by lia. done.
  - destruct Ho as [Ho|Ho]; rewrite Ho in *.
    + left. eexists. split; [done|]. cbn. split; [|lia]. split_and!; [done|done|lia|done].
    + right. eexists. split; [done|]. intros r Hrow. cbn [buf_at io_array MemoryIO_threaded]. rewrite Hl. cbn. by apply Hh.
Qed.

(** ** Any interleaving *)

Section interleaving.
Context {I : Type} `{StableIO I} (par_sort seq_sort : StdSort).
Context (mat : matrix) (io : I) (h0 : gmap loc kdnode) (Hio : io_repr io mat).
#[local] Set Default Proof Using "All".
Implicit Types (h : gmap loc kdnode) (nd : kdnode).
Abbreviation worker := (BuildTaskQueue * wpc (gst I))%type.
Abbreviation tres := (task_result par_sort seq_sort mat).
Abbreviation goal_of nd := (filled mat (req_col nd) (ivec (data_index nd))).

(** The node with the elements [l] in its index. *)
Definition with_elems nd (l : list IndexVal) : kdnode := with_data_index (mkIVec l (sorted (data_index nd))) nd.
(** The index when the first [i] elements are in place. *)
Definition upto nd (i : nat) : list IndexVal := take i (goal_of nd) ++ drop i (ivec (data_index nd)).

Definition col_ok nd (b : buf) : Prop := ∀ r, r < mrows mat → buf_at (io_array io) b r = Some (mentry mat r (req_col nd)).
Definition ready0 (p : loc) : Prop := ∃ nd, h0 !! p = Some nd ∧ task_ready mat nd.

(** The node a worker is busy with. *)
Definition active (pc : wpc (gst I)) : list loc :=
  match pc with
  | WRelease p | WPrep p | WGet p _ | WRet p _ | WPush p _ _ _ | WFill p _ _ | WRun p => [p]
  | _ => []
  end.

Definition pc_ok h (q : BuildTaskQueue) (pc : wpc (gst I)) : Prop :=
  match pc with
  | WTest => locked q = false
  | WAcquire => locked q = false ∧ tasks q ≠ []
  | WPop => locked q = true ∧ tasks q ≠ []
  | WRelease p => locked q = true ∧ h !! p = h0 !! p
  | WPrep p => locked q = false ∧ h !! p = h0 !! p
  | WGet p g => locked q = false ∧ h !! p = h0 !! p ∧ ∃ nd, h0 !! p = Some nd ∧ ginv io mat (req_col nd) g
  | WRet p b => locked q = false ∧ h !! p = h0 !! p ∧ ∃ nd, h0 !! p = Some nd ∧ col_ok nd b
  | WPush p b n i => locked q = false ∧ ∃ nd, h0 !! p = Some nd ∧ col_ok nd b ∧ ivec (data_index nd) = [] ∧ n = mrows mat ∧
      i ≤ n ∧ h !! p = Some (with_elems nd (upto nd i))
  | WFill p b i => locked q = false ∧ ∃ nd, h0 !! p = Some nd ∧ col_ok nd b ∧ ivec (data_index nd) ≠ [] ∧
      i ≤ length (goal_of nd) ∧ h !! p = Some (with_elems nd (upto nd i))
  | WRun p => locked q = false ∧ ∃ nd, h0 !! p = Some nd ∧ h !! p = Some (with_elems nd (goal_of nd))
  | WIdle => locked q = false ∧ tasks q = []
  | WFail _ => False
  end.

(** The worker that was dealt [own] has done a first part of it, is busy with one
    node and has the rest before it. *)
Definition winv (own : list loc) h (wk : worker) : Prop :=
  ∃ finished, own = finished ++ active wk.2 ++ tasks wk.1 ∧
    (∀ p, p ∈ finished → h !! p = tres <$> h0 !! p) ∧ (∀ p, p ∈ tasks wk.1 → h !! p = h0 !! p) ∧ pc_ok h wk.1 wk.2.

(** An upper bound on the steps a task and a worker have left. *)
Definition elems (p : loc) : nat := match h0 !! p with Some nd => length (goal_of nd) | None => 0 end.
Definition task_cost (p : loc) : nat := elems p + mrows mat + 11.
Definition pc_cost (pc : wpc (gst I)) : nat :=
  match pc with
  | WTest => 4
  | WAcquire => 3
  | WPop => 2
  | WRelease p => elems p + mrows mat + 12
  | WPrep p => elems p + mrows mat + 11
  | WGet p g => elems p + gcost mat g + 8
  | WRet p _ => elems p + 7
  | WPush p _ _ i | WFill p _ i => elems p - i + 6
  | WRun _ => 5
  | WIdle | WFail _ => 0
  end.
Definition cost (wk : worker) : nat := sum_list (task_cost <$> tasks wk.1) + pc_cost wk.2.

(** The invariant of a worker is about its own nodes only. *)
Lemma winv_frame own h h' wk : winv own h wk → (∀ p, p ∈ own → h' !! p = h !! p) → winv own h' wk.
Proof.
  intros (fin & -> & Hf & Ht & Hpc) Hh. exists fin. split_and!; [done|..].
  - intros p Hp. rewrite Hh by set_solver. by apply Hf.
  - intros p Hp. rewrite Hh by set_solver. by apply Ht.
  - destruct wk as [q pc]. cbn in *. assert (∀ p, p ∈ active pc → h' !! p = h !! p) as Ha by (intros; apply Hh; set_solver).
    destruct pc; cbn [active pc_ok] in *; try done; rewrite Ha by left; done.
Qed.

Lemma goal_length nd : 0 < length (ivec (data_index nd)) → length (goal_of nd) = length (ivec (data_index nd)).
Proof. intros Hl. rewrite filled_length. destruct (ivec _); [simpl in Hl; lia|done]. Qed.
Lemma upto_0 nd : upto nd 0 = ivec (data_index nd).
Proof. unfold upto. by rewrite take_0, drop_0. Qed.
Lemma with_elems_same nd : with_elems nd (ivec (data_index nd)) = nd.
Proof. unfold with_elems, with_data_index. destruct nd as [[iv so] ?????????]. done. Qed.
Lemma upto_full nd i : length (goal_of nd) ≤ i → length (ivec (data_index nd)) ≤ length (goal_of nd) → upto nd i = goal_of nd.
Proof. intros Hi Hl. unfold upto. by rewrite take_ge, drop_ge, app_nil_r by lia. Qed.

(** The bodies of the two loops of [prep]. *)
Lemma push_upto nd i : ivec (data_index nd) = [] → i < mrows mat →
  push_elem i (mentry mat i (req_col nd)) (with_elems nd (upto nd i)) = with_elems nd (upto nd (S i)).
Proof.
  intros He Hi. unfold push_elem, with_elems, upto. cbn [data_index with_data_index ivec sorted]. rewrite He, !drop_nil, !app_nil_r. cbn [filled].
  erewrite (take_S_r _ i); [done|]. rewrite list_lookup_imap, lookup_mcol by done. done.
Qed.
Lemma set_upto nd i iv : ivec (data_index nd) ≠ [] → ivec (data_index nd) !! i = Some iv →
  upto nd i !! i = Some iv ∧
  set_elem i (mentry mat (Z.to_nat (iv_index iv)) (req_col nd)) (with_elems nd (upto nd i)) = with_elems nd (upto nd (S i)).
Proof.
  intros Hne Hi. pose proof (lookup_lt_Some _ _ _ Hi) as Hlt. pose proof (goal_length nd ltac:(lia)) as Hl.
  assert (goal_of nd !! i = Some (iv_set_val (mentry mat (Z.to_nat (iv_index iv)) (req_col nd)) iv)) as Hg.
  { unfold filled. destruct (ivec (data_index nd)) as [|x l] eqn:E; [done|]. rewrite <-E in *. change (map ?f) with (fmap (M := list) f). by rewrite list_lookup_fmap, Hi. }
  assert (length (take i (goal_of nd)) = i) as Htl by (rewrite length_take; lia).
  assert (upto nd i !! i = Some iv) as Hu by (unfold upto; rewrite lookup_app_r, Htl, Nat.sub_diag, lookup_drop, Nat.add_0_r by lia; done).
  split; [done|]. unfold set_elem, with_elems. cbn [data_index with_data_index ivec sorted].
  assert (alter (iv_set_val (mentry mat (Z.to_nat (iv_index iv)) (req_col nd))) i (upto nd i) = upto nd (S i)) as ->; [|done]. unfold upto.
  rewrite (take_S_r _ _ _ Hg), (drop_S _ _ _ Hi), <-(assoc_L (++)). rewrite alter_app_r_alt, Htl, Nat.sub_diag by lia. done.
Qed.

Lemma run_prepared nd : task_ready mat nd → run_node par_sort seq_sort (with_elems nd (goal_of nd)) = Ok (tres nd).
Proof.
  intros Hr. destruct (task_filled_ordered mat nd Hr) as [Hord Hlen]. unfold run_node. cbn [sort_data_index with_elems with_data_index data_index ivec depth sorted].
  change (@std_sort (if (depth nd <? 3)%Z then par_sort else seq_sort) (goal_of nd)) with (sort_for par_sort seq_sort nd (goal_of nd)).
  assert (length (sort_for par_sort seq_sort nd (goal_of nd)) = length (goal_of nd)) as Hsl by (by rewrite sort_for_perm). unfold iv_at, size. cbn [ivec].
  destruct (lookup_lt_is_Some_2 (sort_for par_sort seq_sort nd (goal_of nd)) (length (sort_for par_sort seq_sort nd (goal_of nd)) / 2)) as [x Hx].
  { apply Nat.Div0.div_lt_upper_bound. lia. }
  rewrite Hx. cbn [rbind]. unfold task_result. by rewrite (list_lookup_total_correct _ _ _ Hx).
Qed.

(** What a step does: the worker stays in its invariant, has less to do, and
    touches only nodes of its own. *)
Definition steps_well (own : list loc) h (wk : worker) : Prop :=
  ∃ wk' h', wstep par_sort seq_sort wk (mkWorld h io) = Some (wk', mkWorld h' io) ∧ winv own h' wk' ∧ cost wk' < cost wk ∧
    ∀ p, p ∉ own → h' !! p = h !! p.

(** A step that leaves the nodes alone. *)
Lemma same_heap own h q pc q' pc' :
  winv own h (q, pc) → wstep par_sort seq_sort (q, pc) (mkWorld h io) = Some ((q', pc'), mkWorld h io) →
  active pc' ++ tasks q' = active pc ++ tasks q → (∀ p, p ∈ tasks q' → p ∈ tasks q) → pc_ok h q' pc' → cost (q', pc') < cost (q, pc) →
  steps_well own h (q, pc).
Proof.
  intros (fin & -> & Hf & Ht & Hpc) Hs Ha Hsub Hok Hc. exists (q', pc'), h. split_and!; [done| |done|done].
  exists fin. cbn in *. split_and!; [by rewrite Ha|done|by eauto|done].
Qed.

(** A step that changes the active node and stays with it. *)
Lemma put_node own h q pc pc' p nd' :
  NoDup own → winv own h (q, pc) → wstep par_sort seq_sort (q, pc) (mkWorld h io) = Some ((q, pc'), mkWorld (<[p := nd']> h) io) →
  active pc = [p] → active pc' = [p] → pc_ok (<[p := nd']> h) q pc' → cost (q, pc') < cost (q, pc) → steps_well own h (q, pc).
Proof.
  intros Hnd (fin & Ho & Hf & Ht & Hpc) Hs Ha Ha' Hok Hc. cbn in *. rewrite Ha in Ho. assert (p ∉ fin ∧ p ∉ tasks q) as [Hpf Hpt].
  { rewrite Ho, Permutation_app_comm in Hnd. cbn in Hnd. apply NoDup_cons in Hnd as [Hn _]. set_solver. }
  exists (q, pc'), (<[p := nd']> h). split_and!; [done| |done|].
  - exists fin. cbn. split_and!; [by rewrite Ha'|..|done].
    + intros x Hx. rewrite lookup_insert_ne by set_solver. by apply Hf.
    + intros x Hx. rewrite lookup_insert_ne by set_solver. by apply Ht.
  - intros x Hx. apply lookup_insert_ne. intros <-. apply Hx. rewrite Ho. set_solver.
Qed.

Section one_step.
Context (own : list loc) h (q : BuildTaskQueue) (Hnd : NoDup own) (Hown : ∀ p, p ∈ own → ready0 p).

Lemma active_ready pc p : winv own h (q, pc) → active pc = [p] → ∃ nd, h0 !! p = Some nd ∧ task_ready mat nd ∧ elems p = length (goal_of nd).
Proof.
  intros (fin & Ho & _) Ha. cbn in Ho. rewrite Ha in Ho. destruct (Hown p) as (nd & Hp & Hr); [rewrite Ho; set_solver|]. exists nd. unfold elems. by rewrite Hp.
Qed.

(** [dequeue] *)
Lemma step_dequeue pc : winv own h (q, pc) → (pc = WTest ∨ pc = WAcquire ∨ pc = WPop ∨ ∃ p, pc = WRelease p) → steps_well own h (q, pc).
Proof.
  intros Hw Hpc. pose proof Hw as (fin & _ & _ & Ht & Hok). cbn [fst snd] in Ht, Hok. destruct q as [ts lk].
  destruct Hpc as [->|[->|[->|[p ->]]]]; cbn [pc_ok locked tasks] in Hok.
  - cbn in Hok. subst lk. destruct ts as [|p ts]; (eapply same_heap; [done|reflexivity|done|done|done|cbn; lia]).
  - destruct Hok as [-> Hne]. eapply same_heap; [done|reflexivity|done|done|done|cbn; lia].
  - destruct Hok as [-> Hne]. destruct ts as [|p ts]; [done|]. eapply same_heap; [done|reflexivity|done|set_solver|split; [done|apply Ht; left]|].
    unfold cost, task_cost. cbn. lia.
  - destruct Hok as [-> Hp]. eapply same_heap; [done|reflexivity|done|done|done|]. unfold cost. cbn. lia.
Qed.

(** [prep] up to the loops *)
Lemma step_get pc : winv own h (q, pc) → (∃ p, pc = WPrep p ∨ (∃ g, pc = WGet p g) ∨ ∃ b, pc = WRet p b) → steps_well own h (q, pc).
Proof.
  intros Hw (p & Hpc). assert (active pc = [p]) as Ha by (destruct Hpc as [->|[[g ->]|[b ->]]]; done).
  destruct (active_ready pc p Hw Ha) as (nd & Hp & Hr & He). pose proof Hw as (fin & _ & _ & _ & Hok). cbn [fst snd] in Hok.
  destruct (tr_req _ _ Hr) as (i & Hreq & Hi). assert (req_col nd = Z.to_nat i) as Hc by (unfold req_col; by rewrite Hreq).
  destruct Hpc as [->|[[g ->]|[b ->]]]; cbn [pc_ok] in Hok.
  - destruct Hok as [Hl Hh]. destruct (gcol_start io mat (Z.to_nat i) Hio Hi) as [Hg Hgc].
    eapply (same_heap _ _ _ _ q (WGet p (gcol (Z.to_nat i)))); [done| |done|done| |].
    + cbn. rewrite Hh, Hp, Hreq, (tr_ioer _ _ Hr). done.
    + split_and!; [done|done|]. exists nd. by rewrite Hc.
    + unfold cost. cbn. lia.
  - destruct Hok as (Hl & Hh & nd' & Hp' & Hg). assert (nd' = nd) as -> by congruence.
    destruct (gcol_next io mat (req_col nd) g Hio ltac:(by rewrite Hc) Hg) as [(g' & Hs & Hg' & Hlt)|(b & Hs & Hb)].
    + eapply (same_heap _ _ _ _ q (WGet p g')); [done|cbn; by rewrite Hs|done|done|split_and!; by eauto|unfold cost; cbn; lia].
    + eapply (same_heap _ _ _ _ q (WRet p b)); [done|cbn; by rewrite Hs|done|done|split_and!; by eauto|unfold cost; cbn; lia].
  - destruct Hok as (Hl & Hh & nd' & Hp' & Hb). assert (nd' = nd) as -> by congruence. destruct (decide (ivec (data_index nd) = [])) as [Hem|Hem].
    + eapply (same_heap _ _ _ _ q (WPush p b (mrows mat) 0)); [done| |done|done| |unfold cost; cbn; lia].
      * cbn. rewrite Hh, Hp. unfold empty. rewrite bool_decide_true by done. by rewrite (io_shape_ok _ _ Hio).
      * split; [done|]. exists nd. rewrite upto_0, with_elems_same, Hh. split_and!; try done. lia.
    + eapply (same_heap _ _ _ _ q (WFill p b 0)); [done| |done|done| |unfold cost; cbn; lia].
      * cbn. rewrite Hh, Hp. unfold empty. by rewrite bool_decide_false.
      * split; [done|]. exists nd. rewrite upto_0, with_elems_same, Hh. split_and!; try done. lia.
Qed.

(** The loops of [prep] *)
Lemma step_loops pc : winv own h (q, pc) → (∃ p b, (∃ n i, pc = WPush p b n i) ∨ ∃ i, pc = WFill p b i) → steps_well own h (q, pc).
Proof.
  intros Hw (p & b & Hpc). assert (active pc = [p]) as Ha by (destruct Hpc as [(n & i & ->)|(i & ->)]; done).
  destruct (active_ready pc p Hw Ha) as (nd & Hp & Hr & He). pose proof Hw as (fin & _ & _ & _ & Hok). cbn [fst snd] in Hok.
  destruct Hpc as [(n & i & ->)|(i & ->)]; cbn [pc_ok] in Hok; destruct Hok as (Hl & nd' & Hp' & Hb & Hem & Hrest); assert (nd' = nd) as -> by congruence.
  - destruct Hrest as (-> & Hi & Hh). assert (elems p = mrows mat) as Hen by (rewrite He, filled_length, Hem; done). destruct (decide (i < mrows mat)) as [Hlt|Hge].
    + eapply (put_node _ _ _ _ (WPush p b (mrows mat) (S i)) p (with_elems nd (upto nd (S i)))); [done|done| |done|done| |unfold cost; cbn; lia].
      * cbn [wstep kheap wio]. rewrite (proj2 (Nat.ltb_lt _ _) Hlt), Hh, (Hb i Hlt). by rewrite push_upto.
      * split; [done|]. exists nd. rewrite lookup_insert_eq. split_and!; try done. 
    + eapply (same_heap _ _ _ _ q (WRun p)); [done| |done|done| |unfold cost; cbn; lia].
      * cbn [wstep kheap wio]. by rewrite (proj2 (Nat.ltb_ge _ _)) by lia.
      * split; [done|]. exists nd. rewrite Hh, upto_full; [done|rewrite filled_length, Hem; lia|rewrite Hem; cbn; lia].
  - destruct Hrest as (Hi & Hh). destruct (ivec (data_index nd) !! i) as [iv|] eqn:Ei.
    + destruct (set_upto nd i iv Hem Ei) as [Hu Hset]. pose proof (lookup_lt_Some _ _ _ Ei) as Hlt. rewrite <-goal_length in Hlt by lia.
      eapply (put_node _ _ _ _ (WFill p b (S i)) p (with_elems nd (upto nd (S i)))); [done|done| |done|done| |unfold cost; cbn; lia].
      * cbn. rewrite Hh. cbn [with_elems with_data_index data_index ivec]. rewrite Hu, Hb, <-Hset; [done|].
        pose proof (tr_ids _ _ Hr) as Hids. rewrite Forall_lookup in Hids. by eapply Hids.
      * split; [done|]. exists nd. rewrite lookup_insert_eq. split_and!; try done.
    + apply lookup_ge_None in Ei. assert (length (goal_of nd) = length (ivec (data_index nd))) as Hgl by (apply goal_length; destruct (ivec _); [done|simpl; lia]).
      eapply (same_heap _ _ _ _ q (WRun p)); [done| |done|done| |unfold cost; cbn; lia].
      * cbn. rewrite Hh. cbn [with_elems with_data_index data_index ivec]. assert (upto nd i !! i = None) as ->; [|done].
        apply lookup_ge_None. unfold upto. rewrite length_app, length_take, length_drop. lia.
      * split; [done|]. exists nd. rewrite Hh, upto_full; [done|lia|lia].
Qed.

(** [run]: the node is finished. *)
Lemma step_run p : winv own h (q, WRun p) → steps_well own h (q, WRun p).
Proof.
  intros Hw. destruct (active_ready _ p Hw eq_refl) as (nd & Hp & Hr & _). destruct Hw as (fin & Ho & Hf & Ht & Hl & nd' & Hp' & Hh). cbn in *.
  assert (nd' = nd) as -> by congruence. assert (p ∉ tasks q) as Hpt.
  { rewrite Ho, Permutation_app_comm in Hnd. cbn in Hnd. apply NoDup_cons in Hnd as [Hn _]. set_solver. }
  exists (q, WTest), (<[p := tres nd]> h). split_and!.
  - cbn. by rewrite Hh, run_prepared.
  - exists (fin ++ [p]). cbn. split_and!; [by rewrite <-(assoc_L (++))|..|done].
    + intros x Hx. destruct (decide (x = p)) as [->|Hne]; [by rewrite lookup_insert_eq, Hp|]. rewrite lookup_insert_ne by done. apply Hf. set_solver.
    + intros x Hx. rewrite lookup_insert_ne by set_solver. by apply Ht.
  - unfold cost. cbn. lia.
  - intros x Hx. apply lookup_insert_ne. intros <-. apply Hx. rewrite Ho. set_solver.
Qed.

Lemma worker_steps pc : winv own h (q, pc) → pc = WIdle ∨ steps_well own h (q, pc).
Proof.
  intros Hw. destruct pc; try (right; first [apply step_dequeue; [done|by eauto] | apply step_get; [done|by eauto] | apply step_loops; [done|by eauto 6] | by apply step_run]).
  - by left.
  - by destruct Hw as (? & _ & _ & _ & []).
Qed.
End one_step.

(** *** All workers *)

Section all_workers.
Context (owns : list (list loc)) (Hnd : NoDup (concat owns)) (Hown : ∀ p, p ∈ concat owns → ready0 p).

Record cinv (c : level_conf I) : Prop := {
  ci_io : wio (lw c) = io;
  ci_workers : Forall2 (λ own wk, winv own (kheap (lw c)) wk) owns (lworkers c);
  ci_rest p : p ∉ concat owns → kheap (lw c) !! p = h0 !! p
}.
Definition is_idle (wk : worker) : bool := match wk.2 with WIdle => true | _ => false end.
Definition total_cost (c : level_conf I) : nat := sum_list (cost <$> lworkers c).

Lemma own_part t own : owns !! t = Some own → NoDup own ∧ (∀ p, p ∈ own → p ∈ concat owns) ∧
  ∀ t' own', owns !! t' = Some own' → t' ≠ t → ∀ p, p ∈ own → p ∉ own'.
Proof.
  intros Ht. assert (owns ≡ₚ own :: delete t owns) as Hp by (by rewrite <-delete_Permutation). split_and!.
  - rewrite Hp in Hnd. cbn in Hnd. by apply NoDup_app in Hnd as [? _].
  - intros p Hin. rewrite Hp. cbn. set_solver.
  - intros t' own' Ht' Hne p Hin Hin'. rewrite Hp in Hnd. cbn in Hnd. apply NoDup_app in Hnd as (_ & Hd & _). apply (Hd p Hin).
    apply list_elem_of_In, in_concat. exists own'. split; [|by apply list_elem_of_In]. apply list_elem_of_In, list_elem_of_lookup.
    destruct (decide (t' < t)); [exists t'; by rewrite list_lookup_delete_lt|exists (t' - 1); rewrite list_lookup_delete_ge by lia; by replace (S (t' - 1)) with t' by lia].
Qed.

Lemma sum_list_insert (l : list nat) t x y : l !! t = Some x → sum_list (<[t := y]> l) + x = sum_list l + y.
Proof.
  revert t. induction l as [|z l IH]; intros [|t] Ht; [done|done|..].
  - injection Ht as ->. cbn. lia.
  - specialize (IH t Ht). change (sum_list (z :: <[t:=y]> l) + x = sum_list (z :: l) + y). cbn [sum_list]. lia.
Qed.

(** Every step of a level keeps the invariant and leaves less to do. *)
Lemma cstep_inv c c' : cinv c → cstep par_sort seq_sort c c' → cinv c' ∧ total_cost c' < total_cost c.
Proof.
  intros Hc Hs. destruct Hs as [c t wk wk' w' Ht Hs]. destruct (Forall2_lookup_r _ _ _ _ _ (ci_workers _ Hc) Ht) as (own & Ho & Hw).
  destruct (own_part t own Ho) as (Hn & Hin & Hdis). destruct wk as [q pc].
  destruct (worker_steps own (kheap (lw c)) q Hn ltac:(by eauto) pc Hw) as [->|(wk1 & h' & Hs1 & Hw1 & Hlt & Hfr)]; [done|].
  assert (lw c = mkWorld (kheap (lw c)) io) as Ew by (rewrite <-(ci_io _ Hc); by destruct (lw c)). rewrite Ew in Hs. rewrite Hs1 in Hs. injection Hs as <- <-.
  split; [split|]; cbn [lw lworkers kheap wio].
  - done.
  - apply Forall2_same_length_lookup. split; [rewrite length_insert; apply (Forall2_length _ _ _ (ci_workers _ Hc))|]. intros t' own' wk2 Ho' Ht'.
    destruct (decide (t' = t)) as [->|Hne].
    + rewrite list_lookup_insert_eq in Ht' by (by eapply lookup_lt_Some). by simplify_eq.
    + rewrite list_lookup_insert_ne in Ht' by done. apply (winv_frame own' (kheap (lw c))); [by eapply (Forall2_lookup_lr _ _ _ _ _ _ (ci_workers _ Hc))|].
      intros p Hp. apply Hfr. intros Hp'. by apply (Hdis t' own' Ho' Hne p Hp').
  - intros p Hp. rewrite Hfr; [by apply (ci_rest _ Hc)|]. intros Hp'. by apply Hp, Hin.
  - unfold total_cost. cbn [lworkers]. rewrite list_fmap_insert. assert ((cost <$> lworkers c) !! t = Some (cost (q, pc))) as Hl by (by rewrite list_lookup_fmap, Ht).
    pose proof (sum_list_insert _ t _ (cost wk1) Hl). lia.
Qed.

Lemma cstep_bound k c c' : cinv c → nsteps (cstep par_sort seq_sort) k c c' → cinv c' ∧ k + total_cost c' ≤ total_cost c.
Proof.
  intros Hc Hs. revert Hc. induction Hs as [|k c c1 c2 Hst _ IH]; intros Hc; [split; [done|lia]|].
  destruct (cstep_inv c c1 Hc Hst) as [Hc1 Hlt]. destruct (IH Hc1) as [Hc2 Hle]. split; [done|lia].
Qed.

(** A level that is not done can go on; when it is done every node has its result. *)
Lemma level_progress c : cinv c →
  (∃ c', cstep par_sort seq_sort c c') ∨
  lworkers c = replicate (length owns) (BuildTaskQueue_ctor, WIdle) ∧
  ∀ p, kheap (lw c) !! p = if decide (p ∈ concat owns) then tres <$> h0 !! p else h0 !! p.
Proof.
  intros Hc. destruct (decide (Forall (λ wk, is_idle wk = true) (lworkers c))) as [Hall|Hnot].
  - right. assert (∀ t own wk, owns !! t = Some own → lworkers c !! t = Some wk → wk = (BuildTaskQueue_ctor, WIdle) ∧ ∀ p, p ∈ own → kheap (lw c) !! p = tres <$> h0 !! p) as Hidle.
    { intros t own [q pc] Ho Ht. pose proof (Forall_lookup_1 _ _ _ _ Hall Ht) as Hpc. destruct pc; try done.
      destruct (Forall2_lookup_lr _ _ _ _ _ _ (ci_workers _ Hc) Ho Ht) as (fin & Hf & Hres & _ & Hl & Hts). cbn in *. destruct q as [ts lk]. cbn in *. subst.
      split; [done|]. intros p Hp. apply Hres. by rewrite app_nil_r in Hp. }
    pose proof (Forall2_length _ _ _ (ci_workers _ Hc)) as Hlen. split.
    + apply list_eq. intros t. destruct (lworkers c !! t) as [wk|] eqn:Ht.
      * destruct (lookup_lt_is_Some_2 owns t) as [own Ho]; [rewrite Hlen; by eapply lookup_lt_Some|]. destruct (Hidle t own wk Ho Ht) as [-> _].
        symmetry. apply lookup_replicate_2. by eapply lookup_lt_Some.
      * symmetry. apply lookup_ge_None. rewrite length_replicate, Hlen. by apply lookup_ge_None.
    + intros p. case_decide as Hp; [|by apply (ci_rest _ Hc)]. apply list_elem_of_In, in_concat in Hp as (own & Ho & Hp).
      apply list_elem_of_In in Ho, Hp. apply list_elem_of_lookup in Ho as [t Ho]. destruct (lookup_lt_is_Some_2 (lworkers c) t) as [wk Ht]; [rewrite <-Hlen; by eapply lookup_lt_Some|].
      by apply (Hidle t own wk Ho Ht).
  - left. apply not_Forall_Exists in Hnot; [|apply _]. apply Exists_exists in Hnot as ([q pc] & Hin & Hpc). apply list_elem_of_lookup in Hin as [t Ht].
    destruct (Forall2_lookup_r _ _ _ _ _ (ci_workers _ Hc) Ht) as (own & Ho & Hw). destruct (own_part t own Ho) as (Hn & Hin & _).
    destruct (worker_steps own (kheap (lw c)) q Hn ltac:(by eauto) pc Hw) as [->|(wk1 & h' & Hs1 & _)]; [by destruct Hpc|].
    eexists. eapply cstep_worker; [exact Ht|]. assert (lw c = mkWorld (kheap (lw c)) io) as -> by (rewrite <-(ci_io _ Hc); by destruct (lw c)). exact Hs1.
Qed.
End all_workers.
End interleaving.

(** ** Properties *)

(** C31. The workers of a level may interleave in any way.  Take a level dealt out by
    [run_level] to idle workers, its nodes distinct and ready to be run, and an I/O
    object that concurrent calls of [get_col] only read ([StableIO]; [MemoryIO] is
    one).  In every execution of the workers, whichever takes the next step, no
    worker fails; the number of steps is bounded, so every execution ends; and as
    long as some worker is not done a step is possible.  When all are done, the
    queues are empty and unlocked, the I/O object is as it was, and the heap is the
    one that [run_level] computes by running the tasks one after the other: every
    node of the level has its sorted values and its comparator.  A step is one
    access to a queue, to the I/O object or to an element; sorting a node is one
    step. *)
Theorem workers_interleave {I} `{StableIO I} par_sort seq_sort level ns (w : world I) s mat :
  idle s → nodes s !! level = Some ns → ns ≠ [] → NoDup ns → io_repr (wio w) mat →
  Forall (λ p, ∃ nd, kheap w !! p = Some nd ∧ task_ready mat nd) ns →
  ∃ qs w', deal_level level s = (set_queues qs s, Ok tt) ∧
    run_level par_sort seq_sort level (mkEngine w s) = (mkEngine w' s, Ok tt) ∧
    (∀ p nd, p ∈ ns → kheap w !! p = Some nd → kheap w' !! p = Some (task_result par_sort seq_sort mat nd)) ∧
    (∀ k c, nsteps (cstep par_sort seq_sort) k (level_start w qs) c →
       k ≤ sum_list (task_cost mat (kheap w) <$> ns) + 4 * get_nthread s) ∧
    ∀ c, rtc (cstep par_sort seq_sort) (level_start w qs) c →
      Forall (λ wk, ∀ e, wk.2 ≠ WFail e) (lworkers c) ∧
      ((∃ c', cstep par_sort seq_sort c c') ∨
       lworkers c = replicate (get_nthread s) (BuildTaskQueue_ctor, WIdle) ∧ kheap (lw c) = kheap w' ∧ wio (lw c) = wio w).
Proof.
  intros Hi Hn Hne Hnd Hio Hr. destruct (deal_level_spec level ns s Hi Hn Hne) as (qs & Hdeal & Hl & Hf & Hperm & _).
  destruct (run_level_spec par_sort seq_sort level ns w s mat Hi Hn Hne Hnd Hio Hr) as (w' & Hrun & _ & _ & Hh).
  assert (NoDup (concat (tasks <$> qs))) as Hnd' by (by rewrite Hperm).
  assert (∀ p, p ∈ concat (tasks <$> qs) → ready0 mat (kheap w) p) as Hown by (intros p Hp; rewrite Hperm in Hp; rewrite Forall_forall in Hr; by apply Hr).
  assert (cinv par_sort seq_sort mat (wio w) (kheap w) (tasks <$> qs) (level_start w qs)) as Hc0.
  { split; [done| |done]. unfold level_start. cbn [lworkers lw]. rewrite Forall2_fmap. apply Forall_Forall2_diag, Forall_lookup. intros t q Hq.
    exists []. cbn. split_and!; [done|set_solver|done|]. by apply (Forall_lookup_1 _ _ _ _ Hf Hq). }
  exists qs, w'. split_and!; [done|done| |..].
  - intros p nd Hp Hnd0. by rewrite Hh, decide_True, Hnd0.
  - intros k c Hk. destruct (cstep_bound par_sort seq_sort mat (wio w) (kheap w) Hio (tasks <$> qs) Hnd' Hown k _ c Hc0 Hk) as [_ Hle].
    etrans; [|apply (Nat.eq_le_incl (total_cost mat (kheap w) (level_start w qs)))]; [lia|]. rewrite <-Hperm. unfold get_nthread. rewrite <-Hl. clear.
    unfold total_cost, level_start. cbn [lworkers]. induction qs as [|q qs IH]; [done|]. rewrite !fmap_cons. cbn [concat]. rewrite fmap_app, sum_list_with_app.
    change (sum_list_with id) with sum_list. cbn [sum_list length]. rewrite IH. unfold cost. cbn [fst snd pc_cost id]. lia.
  - intros c Hc. apply rtc_nsteps in Hc as [k Hk]. destruct (cstep_bound par_sort seq_sort mat (wio w) (kheap w) Hio (tasks <$> qs) Hnd' Hown k _ c Hc0 Hk) as [Hci _]. split.
    + apply Forall_lookup. intros t [q pc] Ht e. destruct (Forall2_lookup_r _ _ _ _ _ (ci_workers _ _ _ _ _ _ _ Hci) Ht) as (own & _ & fin & _ & _ & _ & Hpc).
      cbn in *. intros ->. exact Hpc.
    + destruct (level_progress par_sort seq_sort mat (wio w) (kheap w) Hio (tasks <$> qs) Hnd' Hown c Hci) as [Hs|[Hd Hk']]; [by left|right].
      split_and!; [|apply map_eq; intros p; rewrite Hk', Hh|apply Hci].
      * rewrite Hd, length_fmap. by rewrite Hl.
      * destruct (decide (p ∈ ns)) as [Hin|Hin]; rewrite <-Hperm in Hin; [by rewrite decide_True|by rewrite decide_False].
Qed.

(** *** Witnesses *)

Lemma run_order_rtc {I} `{MatrixIO I} `{ThreadedIO I} par_sort seq_sort ts (c c' : level_conf I) :
  run_order par_sort seq_sort ts c = Some c' → rtc (cstep par_sort seq_sort) c c'.
Proof.
  revert c. induction ts as [|t ts IH]; intros c; cbn [run_order]; [by intros [= ->]|]. destruct (lworkers c !! t) as [wk|] eqn:Ht; [|done].
  destruct (wstep par_sort seq_sort wk (lw c)) as [[wk' w']|] eqn:Hs; [|done]. intros Hr. eapply rtc_l; [by eapply cstep_worker|by apply IH].
Qed.

(** Nine nodes for two workers: eight for the first, one for the second. *)
Definition ex_ns : list loc := Pos.of_nat <$> seq 1 9.
Definition ex_nine : world MemoryIO.t := mkWorld (list_to_map ((λ p, (p, ex_kd (Z.of_nat (Pos.to_nat p mod 2)))) <$> ex_ns)) ex_mem.
Definition ex_sched9 : Scheduler := set_nodes [ex_ns] (Scheduler_ctor 2 4 0 2).
(** The workers take turns until the second is done. *)
Definition ex_turns : list nat := concat (replicate 14 [0; 1]) ++ replicate 91 0.

Lemma ex_nine_ready : Forall (λ p, ∃ nd, kheap ex_nine !! p = Some nd ∧ task_ready ex_mat nd) ex_ns.
Proof.
  unfold ex_ns. repeat (apply Forall_cons_2; [eexists; split; [reflexivity|apply ex_kd_ready; vm_compute; lia]|]). apply Forall_nil_2.
Qed.

Lemma workers_interleave_witness :
  ∃ qs w' c, run_level isort_std_sort isort_std_sort 0 (mkEngine ex_nine ex_sched9) = (mkEngine w' ex_sched9, Ok tt) ∧
    run_order isort_std_sort isort_std_sort ex_turns (level_start ex_nine qs) = Some c ∧ kheap (lw c) = kheap w'.
Proof.
  destruct (workers_interleave isort_std_sort isort_std_sort 0 ex_ns ex_nine ex_sched9 ex_mat) as (qs & w' & Hdeal & Hrun & _ & _ & Hall).
  - split; [reflexivity|split; [vm_compute; lia|reflexivity]].
  - reflexivity.
  - discriminate.
  - apply (bool_decide_unpack _). vm_compute. exact I.
  - exact ex_mem_repr.
  - exact ex_nine_ready.
  - exists qs, w'. vm_compute in Hdeal. injection Hdeal as <-.
    destruct (run_order isort_std_sort isort_std_sort ex_turns (level_start ex_nine _)) as [c|] eqn:Hc; [|vm_compute in Hc; discriminate Hc].
    exists c. split; [exact Hrun|]. split; [reflexivity|]. destruct (Hall c (run_order_rtc _ _ _ _ _ Hc)) as [_ [[c' Hs]|(_ & Hk & _)]]; [|exact Hk].
    exfalso. vm_compute in Hc. injection Hc as <-. inversion Hs as [? t wk wk' w2 Ht Hw]; subst. destruct t as [|[|t]]; cbn in Ht; try discriminate Ht; injection Ht as <-; discriminate Hw.
Defined.

(** ** What does not work *)

(** The matrix by columns in a file that two workers read through one [SyncIO]. *)
Definition ex_cols : list data_t := [of_int 0; of_int 2; of_int 1; of_int 3].
Definition ex_col_sync : SyncIO.t := SyncIO.mk (mkIO "m.bin" None COL (2, 2)) (mkFS true (bytes_of ex_cols) 0 true).
Definition ex_shared : level_conf SyncIO.t :=
  level_start (mkWorld {[ 1%positive := ex_kd 0; 2%positive := ex_kd 1 ]} ex_col_sync) [mkQ [1%positive] false; mkQ [2%positive] false].

(** Both want column 0.  If both seek before either reads, the second read goes on
    to column 1 and overwrites the buffer the first worker was given: both workers
    end without an error, and both nodes hold values of the wrong column. *)
Definition ex_both_seek : list nat := replicate 6 0 ++ replicate 6 1 ++ replicate 2 0 ++ replicate 2 1 ++ replicate 5 0 ++ replicate 5 1.
Definition ex_outcome : option (bool * option data_t * option data_t) :=
  c ← run_order isort_std_sort isort_std_sort ex_both_seek ex_shared;
  Some (forallb is_idle (lworkers c), comparator <$> kheap (lw c) !! 1%positive, comparator <$> kheap (lw c) !! 2%positive).
Example sync_get_col_races :
  ex_outcome = Some (true, Some (of_int 1), Some (of_int 3)) ∧ mentry ex_mat 0 0 = of_int 0 ∧ mentry ex_mat 1 0 = of_int 2.
Proof. split; [vm_compute; reflexivity|]. split; reflexivity. Qed.
