(* ===== verification/Build.v ===== *)
(** * [BinaryTreeProgram.hpp]: building a tree level by level

    [build] schedules the root and then, level after level, lets every node of
    the processed level spawn its children and schedules them.  For a kd-tree
    with at least [2^max_depth] samples the result is shown to be a complete
    tree of that depth whose leaves partition the samples. *)
From S2P Require Import Prelude DataT Types Stream IO Nodes Scheduler.
From stdpp Require Import options.

(** ** The program object *)

Record BinaryTreeProgram := mkProg {
  prog_tree_id : Z;
  numa_id : Z;
  exmem_fn : string;
  prog_nsamples : nat;
  prog_nfeatures : nat;
  prog_max_depth : Z;
  prog_depth : Z;
  prog_root : option loc;
  prog_sched : Scheduler
}.

(** [nworkers = max(1, (int)(nthread/ntree))] *)
Definition nworkers (nthread ntree : Z) : res Z :=
  if (ntree =? 0)%Z then Throw (runtime_error "division by zero")
  else Ok (Z.max 1 (s32 (nthread / ntree))).

(** The constructor: configures the I/O object, then the scheduler.  The I/O
    configuration is [MemoryIO]'s, whose setters keep the first value. *)
Definition configure_mem (files : string → option (list Z)) (junk : data_t) (ji : Z) (p : Params)
  : M MemoryIO.t unit :=
  mmodify (MemoryIO.set_fn (fn p));;;
  mmodify (MemoryIO.set_orientation (orientation p));;;
  mmodify (MemoryIO.set_shape (Z.to_nat (nsamples p), Z.to_nat (nfeatures p)));;;
  MemoryIO.from_file files junk ji.

Definition BinaryTreeProgram_ctor (p : Params) (tree_id numa_id : Z) : res BinaryTreeProgram :=
  if (Types.fanout p =? 2)%Z then
    let? n := nworkers (nthread p) (ntree p) in
    Ok (mkProg tree_id numa_id (fn p) (Z.to_nat (nsamples p)) (Z.to_nat (nfeatures p)) (max_depth p) 0 None
          (Scheduler_ctor (Types.fanout p) (max_depth p) tree_id (Z.to_nat n)))
  else Throw AssertFailed.

Definition prog_descend (p : BinaryTreeProgram) : BinaryTreeProgram :=
  mkProg (prog_tree_id p) (numa_id p) (exmem_fn p) (prog_nsamples p) (prog_nfeatures p)
    (prog_max_depth p) (u64 (prog_depth p + 1)) (prog_root p) (prog_sched p).

(** ** [build] *)

Section build.
Context {I : Type} `{MatrixIO I} (par_sort seq_sort : StdSort) (junk : data_t) (junk_dim : Z).
Abbreviation W := (M (world I)).
Abbreviation E := (M (engine I)).

(** The loop that spawns; it returns [one_spawned]. *)
Fixpoint spawn_loop (max_depth : Z) (ps : list loc) (one_spawned : bool) : W bool :=
  match ps with
  | [] => mret one_spawned
  | p :: ps =>
      let! n := wload (Some p) in
      if ((depth n <? max_depth) && (1 <? Z.of_nat (size (data_index n))))%Z then
        spawn junk junk_dim (Some p);;; spawn_loop max_depth ps true
      else spawn_loop max_depth ps one_spawned
  end.

(** The loop that schedules the children. *)
Fixpoint child_loop (ps : list loc) : E unit :=
  match ps with
  | [] => mret tt
  | p :: ps =>
      let! n := on_world (wload (Some p)) in
      (match left n with Some l => schedule par_sort seq_sort l | None => mret tt end);;;
      let! n := on_world (wload (Some p)) in
      (match right n with Some r => schedule par_sort seq_sort r | None => mret tt end);;;
      child_loop ps
  end.

Fixpoint build_loop (fuel : nat) (max_depth : Z) : E unit :=
  match fuel with
  | O => mthrow OutOfFuel
  | S fuel =>
      let! e := mget in
      let procd_level := u64 (Z.of_nat (current_level (es e)) - 1) in
      massert (procd_level <=? max_depth)%Z;;;
      let! procd_nodes := mlift (get_nodes (Z.to_nat procd_level) (es e)) in
      let! one_spawned := on_world (spawn_loop max_depth procd_nodes false) in
      if ((procd_level =? max_depth)%Z || negb one_spawned) then mret tt
      else child_loop procd_nodes;;; build_loop fuel max_depth
  end.

Definition build (fuel : nat) (max_depth : Z) (root : option loc) : E unit :=
  massert (bool_decide (root ≠ None));;;
  match root with
  | None => mthrow Segfault
  | Some r => schedule par_sort seq_sort r;;; build_loop fuel max_depth
  end.
End build.

(** ** Complete trees of addresses *)

Inductive ktree :=
  | Leaf (p : loc)
  | Node (p : loc) (l r : ktree).

Definition kroot (t : ktree) : loc := match t with Leaf p | Node p _ _ => p end.
Fixpoint frontier (t : ktree) : list loc :=
  match t with Leaf p => [p] | Node _ l r => frontier l ++ frontier r end.
Fixpoint klocs (t : ktree) : list loc :=
  match t with Leaf p => [p] | Node p l r => p :: klocs l ++ klocs r end.
Fixpoint complete (n : nat) (t : ktree) : Prop :=
  match n, t with
  | O, Leaf _ => True
  | S n, Node _ l r => complete n l ∧ complete n r
  | _, _ => False
  end.

(** Every leaf gets the next pair of children. *)
Fixpoint grow (t : ktree) (cs : list (loc * loc)) : ktree :=
  match t with
  | Leaf p => match cs with (l, r) :: _ => Node p (Leaf l) (Leaf r) | [] => Leaf p end
  | Node p a b =>
      Node p (grow a (take (length (frontier a)) cs)) (grow b (drop (length (frontier a)) cs))
  end.

Definition flat (cs : list (loc * loc)) : list loc := flat_map (λ c, [c.1; c.2]) cs.

Lemma kroot_grow t cs : kroot (grow t cs) = kroot t.
Proof. by destruct t, cs as [|[] ?]. Qed.

Lemma flat_app a b : flat (a ++ b) = flat a ++ flat b.
Proof. apply flat_map_app. Qed.

Lemma frontier_grow t cs : length cs = length (frontier t) → frontier (grow t cs) = flat cs.
Proof.
  revert cs. induction t as [p|p a IHa b IHb]; intros cs Hl; simpl in Hl.
  - by destruct cs as [|[l r] [|? ?]].
  - rewrite length_app in Hl. simpl. rewrite IHa, IHb by (rewrite ?length_take, ?length_drop; lia).
    by rewrite <-flat_app, take_drop.
Qed.

Lemma complete_grow n t cs : length cs = length (frontier t) → complete n t → complete (S n) (grow t cs).
Proof.
  revert n cs. induction t as [p|p a IHa b IHb]; intros n cs Hl Hc; simpl in Hl.
  - destruct n; [|done]. by destruct cs as [|[l r] [|? ?]].
  - destruct n as [|n]; [done|]. destruct Hc as [Ha Hb]. rewrite length_app in Hl.
    change (complete (S n) (grow a (take (length (frontier a)) cs)) ∧
            complete (S n) (grow b (drop (length (frontier a)) cs))).
    split; [apply IHa|apply IHb]; try done; rewrite ?length_take, ?length_drop; lia.
Qed.

Lemma klocs_grow t cs : length cs = length (frontier t) → klocs (grow t cs) ≡ₚ klocs t ++ flat cs.
Proof.
  revert cs. induction t as [p|p a IHa b IHb]; intros cs Hl; simpl in Hl.
  - by destruct cs as [|[l r] [|? ?]].
  - rewrite length_app in Hl. simpl. rewrite IHa, IHb by (rewrite ?length_take, ?length_drop; lia).
    rewrite <-(take_drop (length (frontier a)) cs) at 3. rewrite flat_app.
    constructor. rewrite <-!app_assoc. apply Permutation_app_head.
    rewrite !app_assoc. apply Permutation_app_tail. apply Permutation_app_comm.
Qed.

Lemma frontier_klocs t p : p ∈ frontier t → p ∈ klocs t.
Proof. induction t; simpl; [done|]. set_solver. Qed.

Lemma frontier_NoDup t : NoDup (klocs t) → NoDup (frontier t).
Proof.
  induction t as [p|p a IHa b IHb]; simpl; [done|].
  intros [_ (Ha & Hd & Hb)%NoDup_app]%NoDup_cons. apply NoDup_app. split_and!; [auto| |auto].
  intros x Hx Hy. apply (Hd x); by apply frontier_klocs.
Qed.

Lemma length_frontier n t : complete n t → length (frontier t) = 2 ^ n.
Proof.
  revert t. induction n as [|n IH]; intros [p|p a b]; simpl; try done.
  intros [Ha Hb]. rewrite length_app, (IH _ Ha), (IH _ Hb). lia.
Qed.

Lemma kroot_klocs t : kroot t ∈ klocs t.
Proof. destruct t; simpl; left. Qed.

(** ** Nodes during the construction *)

Section build_specs.
Context {I : Type} `{MatrixIO I} (par_sort seq_sort : StdSort) (junk : data_t) (junk_dim : Z).
Context (mat : matrix) (md : nat).
Abbreviation tres := (task_result par_sort seq_sort mat).
Implicit Types (nd : kdnode) (h : gmap loc kdnode).

Definition in_range (i : Z) : Prop := (0 ≤ i < Z.of_nat (mrows mat))%Z.

(** A node of level [L] that waits to be run. *)
Record ready (L : nat) nd : Prop := {
  rd_task : task_ready mat nd;
  rd_depth : depth nd = Z.of_nat L;
  rd_left : left nd = None;
  rd_right : right nd = None;
  rd_req : req_indxs nd = [split_dim nd];
  rd_split : (0 ≤ split_dim nd < Z.of_nat (mcols mat))%Z;
  rd_idx : Forall (λ iv, in_range (iv_index iv)) (filled mat (req_col nd) (ivec (data_index nd)));
  rd_size : 2 ^ (md - L) ≤ length (filled mat (req_col nd) (ivec (data_index nd)))
}.

(** The value a sample has in the split dimension of a node. *)
Definition key_of nd (i : Z) : data_t := mentry mat (Z.to_nat i) (Z.to_nat (split_dim nd)).

(** A node of level [L] that has been run and has no children. *)
Record runok (L : nat) nd : Prop := {
  ro_depth : depth nd = Z.of_nat L;
  ro_left : left nd = None;
  ro_right : right nd = None;
  ro_ioer : ioer_set nd = true;
  ro_split : (0 ≤ split_dim nd < Z.of_nat (mcols mat))%Z;
  ro_sorted : iv_sorted (ivec (data_index nd));
  ro_vals : Forall (λ iv, in_range (iv_index iv) ∧ iv_val iv = key_of nd (iv_index iv)) (ivec (data_index nd));
  ro_size : 2 ^ (md - L) ≤ length (ivec (data_index nd));
  ro_cmp : ∃ x, ivec (data_index nd) !! (length (ivec (data_index nd)) / 2) = Some x ∧
             comparator nd = iv_val x
}.

Definition all_ordered : Prop := ∀ r c, r < mrows mat → c < mcols mat → ordered (mentry mat r c).

Lemma filled_vals c l :
  Forall (λ iv, in_range (iv_index iv)) (filled mat c l) → (Z.of_nat (mrows mat) < 2 ^ 32)%Z →
  Forall (λ iv, iv_val iv = mentry mat (Z.to_nat (iv_index iv)) c) (filled mat c l).
Proof.
  intros Hr Hn. destruct l as [|iv l]; cbn [filled] in *.
  - apply Forall_lookup. intros i x Hx. rewrite list_lookup_imap in Hx.
    destruct (mcol mat c !! i) as [v|] eqn:Ev; [|done]. injection Hx as <-. cbn [iv_val iv_index].
    pose proof (lookup_lt_Some _ _ _ Ev) as Hi. rewrite length_mcol in Hi.
    rewrite lookup_mcol in Ev by done. injection Ev as <-. rewrite u32_small by lia. by rewrite Nat2Z.id.
  - apply Forall_fmap. apply Forall_true. intros x. done.
Qed.

Lemma filled_ids c l : l ≠ [] → map iv_index (filled mat c l) = map iv_index l.
Proof. intros Hl. destruct l as [|iv l]; [done|]. unfold filled. rewrite map_map. done. Qed.

Lemma ready_run L nd :
  (Z.of_nat (mrows mat) < 2 ^ 32)%Z → ready L nd →
  runok L (tres nd) ∧ ids (tres nd) ≡ₚ map iv_index (filled mat (req_col nd) (ivec (data_index nd))).
Proof.
  intros Hn [Ht Hd Hl Hr Hreq Hs Hidx Hsz].
  destruct (task_filled_ordered mat nd Ht) as [Hord Hlen].
  pose proof (filled_vals (req_col nd) (ivec (data_index nd)) Hidx Hn) as Hv.
  set (l := filled mat (req_col nd) (ivec (data_index nd))) in *.
  pose proof (sort_for_perm par_sort seq_sort nd l Hord) as Hp.
  assert (length (sort_for par_sort seq_sort nd l) = length l) as Hls by (by rewrite Hp).
  split.
  - split; cbn [task_result set_comparator with_data_index depth left right ioer_set split_dim data_index ivec comparator];
      fold l; try done.
    + apply Ht.
    + by apply sort_for_sorted.
    + rewrite Hp. apply Forall_and. split; [done|]. eapply Forall_impl; [exact Hv|]. intros iv Hiv.
      rewrite Hiv. unfold key_of. cbn [split_dim]. unfold req_col. by rewrite Hreq.
    + by rewrite Hls.
    + destruct (lookup_lt_is_Some_2 (sort_for par_sort seq_sort nd l) (length (sort_for par_sort seq_sort nd l) / 2)) as [x Hx].
      { apply Nat.Div0.div_lt_upper_bound. lia. }
      exists x. split; [done|]. by rewrite (list_lookup_total_correct _ _ _ Hx).
  - unfold ids. cbn. fold l. by rewrite Hp.
Qed.

(** What a node that has spawned guarantees about the samples of its children. *)
Record split_ok nd (li ri : list Z) : Prop := {
  so_split : (0 ≤ split_dim nd < Z.of_nat (mcols mat))%Z;
  so_perm : li ++ ri ≡ₚ ids nd;
  so_left_ne : li ≠ [];
  so_right_ne : ri ≠ [];
  so_left : Forall (λ i, fle (key_of nd i) (comparator nd)) li;
  so_right : Forall (λ i, fle (comparator nd) (key_of nd i)) ri
}.

Lemma split_ok_perm nd li ri li' ri' : li ≡ₚ li' → ri ≡ₚ ri' → split_ok nd li ri → split_ok nd li' ri'.
Proof.
  intros Hl Hr [H1 H2 H3 H4 H5 H6]. split; [done|by rewrite <-Hl, <-Hr| | |by rewrite <-Hl|by rewrite <-Hr].
  - intros ->. by apply Permutation_nil_r in Hl.
  - intros ->. by apply Permutation_nil_r in Hr.
Qed.

Lemma runok_split L nd :
  runok L nd → L < md →
  split_ok nd (take (size (data_index nd) / 2) (ids nd)) (drop (size (data_index nd) / 2) (ids nd)).
Proof.
  intros [_ _ _ _ Hs Hsort Hv Hsz (x & Hx & Hc)] HL. unfold ids, size.
  set (l := ivec (data_index nd)) in *.
  assert (2 ≤ length l) as Hlen.
  { transitivity (2 ^ (md - L)); [|done]. replace (md - L) with (S (md - L - 1)) by lia.
    cbn [Nat.pow]. pose proof (Nat.pow_nonzero 2 (md - L - 1)). lia. }
  assert (1 ≤ length l / 2 ∧ length l / 2 < length l) as [Hh1 Hh2].
  { split; [by apply Nat.div_le_lower_bound; lia|apply Nat.div_lt; lia]. }
  set (half := length l / 2) in *. rewrite Forall_lookup in Hv. split; [done|..].
  - by rewrite take_drop.
  - intros Hn. apply (f_equal length) in Hn. rewrite length_take, length_map in Hn. simpl in Hn. lia.
  - intros Hn. apply (f_equal length) in Hn. rewrite length_drop, length_map in Hn. simpl in Hn. lia.
  - apply Forall_lookup. intros j i Hi. apply lookup_take_Some in Hi as [Hi Hj].
    change (map iv_index l) with (iv_index <$> l) in Hi. rewrite list_lookup_fmap in Hi.
    destruct (l !! j) as [y|] eqn:Ey; [|done]. injection Hi as <-.
    rewrite Hc. destruct (Hv _ _ Ey) as [_ <-].
    apply (sorted_lookup_le l j half y x Hsort); [lia|done..].
  - apply Forall_lookup. intros j i Hi. rewrite lookup_drop in Hi.
    change (map iv_index l) with (iv_index <$> l) in Hi. rewrite list_lookup_fmap in Hi.
    destruct (l !! (half + j)) as [y|] eqn:Ey; [|done]. injection Hi as <-.
    rewrite Hc. destruct (Hv _ _ Ey) as [_ <-].
    destruct j as [|j].
    + rewrite Nat.add_0_r in Ey. rewrite Hx in Ey. injection Ey as <-. apply fle_refl.
    + apply (sorted_lookup_le l half (half + S j) x y Hsort); [lia|done..].
Qed.

Lemma child_ready L p nd idxs :
  all_ordered → (Z.of_nat (mcols mat) < 2 ^ 32)%Z → (Z.of_nat L + 1 < 2 ^ 64)%Z →
  runok L nd → idxs ≠ [] → Forall in_range idxs → 2 ^ (md - S L) ≤ length idxs →
  ready (S L) (child_node junk (mcols mat) p nd idxs).
Proof.
  intros Ho Hc HL [Hd _ _ _ Hs _ _ _ _] Hne Hr Hsz.
  assert (0 ≤ next_split (mcols mat) nd < Z.of_nat (mcols mat))%Z as Hns.
  { unfold next_split. rewrite u64_small by lia. destruct (Z.eqb_spec (split_dim nd + 1) (Z.of_nat (mcols mat))); lia. }
  assert (map (λ i, mkIV i fzero) idxs ≠ []) as Hne' by (by destruct idxs).
  assert (filled mat (req_col (child_node junk (mcols mat) p nd idxs)) (map (λ i, mkIV i fzero) idxs)
    = map (λ i, mkIV i (mentry mat (Z.to_nat i) (req_col (child_node junk (mcols mat) p nd idxs)))) idxs) as Hf.
  { destruct idxs as [|i idxs]; [done|]. unfold filled. cbn [map]. by rewrite map_map. }
  split; cbn [depth left right req_indxs split_dim data_index ivec child_node]; rewrite ?u32_small by lia; try done.
  - split; cbn [ioer_set req_indxs data_index ivec child_node]; rewrite ?u32_small by lia;
      [done|exists (next_split (mcols mat) nd); split; [done|lia]| | |done].
    + apply Forall_fmap. eapply Forall_impl; [exact Hr|]. unfold in_range. simpl. intros i Hi. lia.
    + destruct idxs as [|i idxs]; [done|]. apply Forall_cons in Hr as [Hi _]. unfold in_range in Hi. lia.
  - rewrite Hd, u64_small by lia. lia.
  - cbn [child_node data_index] in Hf. rewrite Hf. apply Forall_fmap.
    eapply Forall_impl; [exact Hr|]. done.
  - cbn [child_node data_index] in Hf. rewrite Hf. by rewrite length_map.
Qed.

(** ** The tree in the heap *)

(** [kd_ok P h t]: the nodes of [t] are in the heap with these child pointers,
    every inner node splits its samples between its children, and the leaves
    satisfy [P]. *)
Fixpoint kd_ok (P : kdnode → Prop) h (t : ktree) : Prop :=
  match t with
  | Leaf p => ∃ nd, h !! p = Some nd ∧ P nd
  | Node p a b =>
      (∃ nd na nb, h !! p = Some nd ∧ left nd = Some (kroot a) ∧ right nd = Some (kroot b) ∧
         h !! kroot a = Some na ∧ h !! kroot b = Some nb ∧ split_ok nd (ids na) (ids nb)) ∧
      kd_ok P h a ∧ kd_ok P h b
  end.

Lemma kd_ok_elem P h t p : kd_ok P h t → p ∈ klocs t → is_Some (h !! p).
Proof.
  induction t as [q|q a IHa b IHb]; simpl.
  - intros (nd & Hq & _) ->%list_elem_of_singleton. by rewrite Hq.
  - intros ((nd & _ & _ & Hq & _) & Ha & Hb). rewrite elem_of_cons, elem_of_app.
    intros [->|[Hp|Hp]]; [by rewrite Hq|auto..].
Qed.

Lemma kd_ok_impl (P Q : kdnode → Prop) h t : (∀ nd, P nd → Q nd) → kd_ok P h t → kd_ok Q h t.
Proof.
  intros HPQ. induction t as [q|q a IHa b IHb]; simpl.
  - intros (nd & ? & ?). exists nd. auto.
  - intros (? & ? & ?). auto.
Qed.

Lemma kd_ok_leaf P h t p : kd_ok P h t → p ∈ frontier t → ∃ nd, h !! p = Some nd ∧ P nd.
Proof.
  induction t as [q|q a IHa b IHb]; simpl.
  - by intros H1 ->%list_elem_of_singleton.
  - intros (_ & Ha & Hb) [Hp|Hp]%elem_of_app; auto.
Qed.

Lemma frontier_node_l p a b q :
  NoDup (klocs (Node p a b)) → q ∈ klocs a → q ∈ frontier (Node p a b) ↔ q ∈ frontier a.
Proof.
  simpl. intros [_ (_ & Hd & _)%NoDup_app]%NoDup_cons Hq. rewrite elem_of_app. split; [|by left].
  intros [?|Hb%frontier_klocs]; [done|]. by apply Hd in Hq.
Qed.
Lemma frontier_node_r p a b q :
  NoDup (klocs (Node p a b)) → q ∈ klocs b → q ∈ frontier (Node p a b) ↔ q ∈ frontier b.
Proof.
  simpl. intros [_ (_ & Hd & _)%NoDup_app]%NoDup_cons Hq. rewrite elem_of_app. split; [|by right].
  intros [Ha%frontier_klocs|?]; [|done]. by apply Hd in Ha.
Qed.
Lemma frontier_node_p p a b : NoDup (klocs (Node p a b)) → p ∉ frontier (Node p a b).
Proof.
  simpl. intros [Hp _]%NoDup_cons [Ha%frontier_klocs|Hb%frontier_klocs]%elem_of_app; set_solver.
Qed.

Definition after_run h h' (t : ktree) : Prop :=
  ∀ q, q ∈ klocs t → h' !! q = if decide (q ∈ frontier t) then tres <$> (h !! q) else h !! q.

Lemma after_run_l h h' p a b :
  NoDup (klocs (Node p a b)) → after_run h h' (Node p a b) → after_run h h' a.
Proof.
  intros Hnd Hr q Hq. rewrite Hr by (simpl; set_solver).
  destruct (decide (q ∈ frontier a)) as [Hf|Hf].
  - rewrite decide_True; [done|]. by apply frontier_node_l.
  - rewrite decide_False; [done|]. intros ?. apply Hf. by apply (frontier_node_l p a b q).
Qed.
Lemma after_run_r h h' p a b :
  NoDup (klocs (Node p a b)) → after_run h h' (Node p a b) → after_run h h' b.
Proof.
  intros Hnd Hr q Hq. rewrite Hr by (simpl; set_solver).
  destruct (decide (q ∈ frontier b)) as [Hf|Hf].
  - rewrite decide_True; [done|]. by apply frontier_node_r.
  - rewrite decide_False; [done|]. intros ?. apply Hf. by apply (frontier_node_r p a b q).
Qed.

(** Running a node permutes its samples. *)
Lemma after_run_ids L h h' t nd :
  (Z.of_nat (mrows mat) < 2 ^ 32)%Z → kd_ok (ready L) h t → after_run h h' t →
  h !! kroot t = Some nd → ids nd ≠ [] → ∃ nd', h' !! kroot t = Some nd' ∧ ids nd' ≡ₚ ids nd.
Proof.
  intros Hn Hok Hr Hnd Hne. specialize (Hr (kroot t) (kroot_klocs t)). rewrite Hnd in Hr.
  destruct (decide (kroot t ∈ frontier t)) as [Hf|Hf]; [|by exists nd].
  exists (tres nd). split; [done|]. destruct (kd_ok_leaf _ _ _ _ Hok Hf) as (nd0 & Hnd0 & Hrd).
  rewrite Hnd in Hnd0. injection Hnd0 as <-. destruct (ready_run L nd Hn Hrd) as [_ Hp].
  rewrite Hp. rewrite filled_ids; [done|]. intros He. apply Hne. unfold ids. by rewrite He.
Qed.

Lemma run_frontier_ok L h h' t :
  (Z.of_nat (mrows mat) < 2 ^ 32)%Z → NoDup (klocs t) →
  kd_ok (ready L) h t → after_run h h' t → kd_ok (runok L) h' t.
Proof.
  intros Hn. induction t as [p|p a IHa b IHb]; intros Hnd Hok Hr.
  - destruct Hok as (nd & Hp & Hrd). exists (tres nd). split.
    + rewrite Hr by (simpl; left). rewrite decide_True by left. by rewrite Hp.
    + by apply ready_run.
  - destruct Hok as ((nd & na & nb & Hp & Hl & Hrt & Ha & Hb & Hsp) & Hoka & Hokb).
    pose proof (after_run_l _ _ _ _ _ Hnd Hr) as Hra. pose proof (after_run_r _ _ _ _ _ Hnd Hr) as Hrb.
    destruct (after_run_ids L h h' a na Hn Hoka Hra Ha (so_left_ne _ _ _ Hsp)) as (na' & Ha' & Hpa).
    destruct (after_run_ids L h h' b nb Hn Hokb Hrb Hb (so_right_ne _ _ _ Hsp)) as (nb' & Hb' & Hpb).
    pose proof Hnd as Hnd'. simpl in Hnd'. apply NoDup_cons in Hnd' as [_ (Hnda & _ & Hndb)%NoDup_app].
    split; [|by auto]. exists nd, na', nb'. split_and!; try done.
    + rewrite Hr by (simpl; left). by rewrite decide_False by (by apply frontier_node_p).
    + by apply split_ok_perm with (ids na) (ids nb).
Qed.

(** *** Spawning a level *)

Definition spawned h h' (p : loc) (c : loc * loc) : Prop :=
  ∃ nd, h !! p = Some nd ∧
    h' !! p = Some (with_right (Some c.2) (with_left (Some c.1) nd)) ∧
    h' !! c.1 = Some (child_node junk (mcols mat) p nd (take (size (data_index nd) / 2) (ids nd))) ∧
    h' !! c.2 = Some (child_node junk (mcols mat) p nd (drop (size (data_index nd) / 2) (ids nd))).

Lemma runok_ordered L nd : all_ordered → runok L nd → ordered (comparator nd).
Proof.
  intros Ho [_ _ _ _ Hs _ Hv _ (x & Hx & ->)]. rewrite Forall_lookup in Hv.
  destruct (Hv _ _ Hx) as [Hr ->]. apply Ho; unfold in_range in Hr; lia.
Qed.

Lemma spawn_loop_spec L ps w b :
  all_ordered → io_repr (wio w) mat → NoDup ps → L < md → (Z.of_nat md < 2 ^ 63)%Z →
  Forall (λ p, ∃ nd, kheap w !! p = Some nd ∧ runok L nd) ps →
  ∃ h' cs, spawn_loop junk junk_dim (Z.of_nat md) ps b w
      = (mkWorld h' (wio w), Ok (b || negb (bool_decide (ps = [])))) ∧
    Forall2 (spawned (kheap w) h') ps cs ∧ NoDup (flat cs) ∧
    Forall (λ q, q ∉ dom (kheap w)) (flat cs) ∧
    (∀ q, q ∈ dom (kheap w) → q ∉ ps → h' !! q = kheap w !! q).
Proof.
  intros Ho Hio Hnd HL Hmd. revert w b Hio. induction Hnd as [|p ps Hp Hnd IH]; intros w b Hio Hall.
  { exists (kheap w), []. cbn. rewrite orb_false_r. destruct w. split_and!; try done; constructor. }
  apply Forall_cons in Hall as [(nd & Hlk & Hrun) Hall]. cbn [spawn_loop].
  rewrite (mbind_ok _ _ _ _ _ (wload_ok _ _ _ Hlk)).
  pose proof (runok_split L nd Hrun HL) as Hsp. pose proof (runok_ordered L nd Ho Hrun) as Hoc.
  pose proof Hrun as [Hd _ _ Hi _ _ _ Hsz _].
  assert (2 ≤ length (ivec (data_index nd))) as Hlen.
  { transitivity (2 ^ (md - L)); [|done]. replace (md - L) with (S (md - L - 1)) by lia.
    cbn [Nat.pow]. pose proof (Nat.pow_nonzero 2 (md - L - 1)). lia. }
  rewrite Hd, (proj2 (Z.ltb_lt _ _)) by lia. unfold size at 1. rewrite (proj2 (Z.ltb_lt _ _)) by lia. cbn [andb].
  destruct (spawn_spec junk junk_dim w mat p nd Hio Hlk Hi Hoc) as
    (l & r & h1 & Hspawn & Hl & Hr & Hlr & Hlp & Hrp & Hp1 & Hl1 & Hr1 & Hoth); [lia..|].
  rewrite (mbind_ok _ _ _ _ _ Hspawn).
  assert (∀ q, q ∈ dom (kheap w) → q ≠ p → h1 !! q = kheap w !! q) as Hsame.
  { intros q Hq Hqp. apply Hoth; [done|by intros ->|by intros ->]. }
  assert (dom (kheap w) ⊆ dom h1) as Hdom.
  { intros q Hq. destruct (decide (q = p)) as [->|Hqp]; [by apply elem_of_dom; rewrite Hp1|].
    apply elem_of_dom. rewrite Hsame by done. by apply elem_of_dom. }
  destruct (IH (mkWorld h1 (wio w)) true Hio) as (h' & cs & Hrun' & Hcs & Hndc & Hfc & Hoc'); cbn [kheap wio] in *.
  { rewrite Forall_forall in Hall |- *. intros q Hq. destruct (Hall q Hq) as (ndq & Hlq & Hrq).
    exists ndq. split; [|done]. rewrite Hsame; [done|by apply elem_of_dom|by intros ->]. }
  assert (l ∈ dom h1) as Hld by (apply elem_of_dom; by rewrite Hl1).
  assert (r ∈ dom h1) as Hrd by (apply elem_of_dom; by rewrite Hr1).
  assert (∀ q, q ∈ ps → q ∈ dom (kheap w)) as Hps.
  { rewrite Forall_forall in Hall. intros q Hq. destruct (Hall q Hq) as (ndq & Hlq & _). by apply elem_of_dom. }
  exists h', ((l, r) :: cs). split_and!.
  - rewrite Hrun'. by rewrite orb_true_r.
  - constructor.
    + exists nd. cbn [fst snd]. split_and!; [done|rewrite Hoc'; [done|by apply elem_of_dom; rewrite Hp1|done]|..];
        (rewrite Hoc'; [done|done|intros Hin%Hps; done]).
    + apply Forall2_same_length_lookup. split; [exact (Forall2_length _ _ _ Hcs)|].
      intros i q c Hq Hc. destruct (Forall2_lookup_lr _ _ _ _ _ _ Hcs Hq Hc) as (ndq & Hlq & H1 & H2 & H3).
      exists ndq. split_and!; [|done..]. rewrite <-Hsame; [done| |].
      * apply Hps. by eapply list_elem_of_lookup_2.
      * intros ->. apply Hp. by eapply list_elem_of_lookup_2.
  - cbn. rewrite Forall_forall in Hfc. apply NoDup_cons. split; [|apply NoDup_cons; split; [|done]].
    + intros [->|Hin]%elem_of_cons; [done|]. by apply Hfc in Hin.
    + intros Hin. by apply Hfc in Hin.
  - cbn. rewrite Forall_forall in Hfc. constructor; [done|]. constructor; [done|].
    apply Forall_forall. intros q Hq Hd'. apply (Hfc q Hq). by apply Hdom.
  - intros q Hq Hnq. rewrite Hoc'; [|by apply Hdom|set_solver]. apply Hsame; [done|set_solver].
Qed.

Lemma grow_ok L h h' t cs :
  all_ordered → (Z.of_nat (mcols mat) < 2 ^ 32)%Z → L < md → (Z.of_nat md < 2 ^ 63)%Z →
  NoDup (klocs t) → kd_ok (runok L) h t → Forall2 (spawned h h') (frontier t) cs →
  (∀ q, q ∈ klocs t → q ∉ frontier t → h' !! q = h !! q) →
  kd_ok (ready (S L)) h' (grow t cs) ∧
  (∀ nd, h !! kroot t = Some nd → ∃ nd', h' !! kroot t = Some nd' ∧ ids nd' = ids nd).
Proof.
  intros Ho Hc HL Hmd. revert cs. induction t as [p|p a IHa b IHb]; intros cs Hnd Hok Hcs Hoth.
  - destruct Hok as (nd & Hp & Hrun).
    apply Forall2_cons_inv_l in Hcs as ([l r] & cs' & (nd0 & Hp0 & Hp' & Hl & Hr) & _ & ->).
    rewrite Hp in Hp0. injection Hp0 as <-. cbn [fst snd grow kroot] in *.
    pose proof (runok_split L nd Hrun HL) as Hsp. pose proof Hsp as [_ _ Hlne Hrne _ _].
    assert (Forall in_range (ids nd)) as Hir.
    { apply Forall_fmap. eapply Forall_impl; [exact (ro_vals _ _ Hrun)|]. by intros iv [? _]. }
    assert (2 ^ (md - S L) ≤ length (ids nd) / 2) as Hsz.
    { apply Nat.div_le_lower_bound; [lia|]. unfold ids. rewrite length_map.
      etrans; [|apply (ro_size _ _ Hrun)]. replace (md - L) with (S (md - S L)) by lia. cbn [Nat.pow]. lia. }
    assert (size (data_index nd) = length (ids nd)) as Hsize by (unfold size, ids; by rewrite length_map).
    assert (∀ l0, ids (child_node junk (mcols mat) p nd l0) = l0) as Hids.
    { intros l0. unfold ids. cbn. rewrite map_map. apply map_id. }
    split; [|intros nd0 Hnd0; rewrite Hp in Hnd0; injection Hnd0 as <-; by eexists].
    split; [|split].
    + exists (with_right (Some r) (with_left (Some l) nd)). do 2 eexists.
      split_and!; [exact Hp'|done|done|exact Hl|exact Hr|]. rewrite !Hids.
      destruct Hsp as [G1 G2 G3 G4 G5 G6]. by split.
    + eexists. split; [exact Hl|]. apply (child_ready L); try done; [lia|by apply Forall_take|].
      rewrite length_take, Hsize. pose proof (Nat.Div0.div_le_upper_bound (length (ids nd)) 2 (length (ids nd))). lia.
    + eexists. split; [exact Hr|]. apply (child_ready L); try done; [lia|by apply Forall_drop|].
      rewrite length_drop, Hsize.
      assert (length (ids nd) / 2 * 2 ≤ length (ids nd)) by (rewrite Nat.mul_comm; apply Nat.Div0.mul_div_le). lia.
  - destruct Hok as ((nd & na & nb & Hp & Hl & Hrt & Ha & Hb & Hsp) & Hoka & Hokb).
    cbn [frontier] in Hcs. apply Forall2_app_inv_l in Hcs as (csa & csb & Hca & Hcb & ->).
    pose proof (Forall2_length _ _ _ Hca) as Hlena.
    pose proof Hnd as Hnd'. simpl in Hnd'. apply NoDup_cons in Hnd' as [_ (Hnda & _ & Hndb)%NoDup_app].
    destruct (IHa csa Hnda Hoka Hca) as [IHa1 IHa2].
    { intros q Hq Hf. apply Hoth; [simpl; set_solver|]. intros Hin. apply Hf. by apply (frontier_node_l p a b). }
    destruct (IHb csb Hndb Hokb Hcb) as [IHb1 IHb2].
    { intros q Hq Hf. apply Hoth; [simpl; set_solver|]. intros Hin. apply Hf. by apply (frontier_node_r p a b). }
    destruct (IHa2 na Ha) as (na' & Ha' & Hia). destruct (IHb2 nb Hb) as (nb' & Hb' & Hib).
    assert (h' !! p = Some nd) as Hp'.
    { rewrite Hoth; [done|simpl; left|by apply frontier_node_p]. }
    cbn [grow kroot]. rewrite Hlena, take_app_length, drop_app_length. split.
    + split; [|done]. exists nd, na', nb'. rewrite !kroot_grow. split_and!; try done. by rewrite Hia, Hib.
    + intros nd0 Hnd0. rewrite Hp in Hnd0. injection Hnd0 as <-. by exists nd.
Qed.

Lemma spawn_loop_none L ps w :
  md ≤ L → Forall (λ p, ∃ nd, kheap w !! p = Some nd ∧ runok L nd) ps →
  spawn_loop junk junk_dim (Z.of_nat md) ps false w = (w, Ok false).
Proof.
  intros HL. induction 1 as [|p ps (nd & Hp & Hr) _ IH]; [done|]. cbn [spawn_loop].
  rewrite (mbind_ok _ _ _ _ _ (wload_ok _ _ _ Hp)), (ro_depth _ _ Hr).
  by rewrite (proj2 (Z.ltb_ge _ _)) by lia.
Qed.

(** *** Scheduling the children *)

Definition has_children h (p : loc) (c : loc * loc) : Prop :=
  ∃ nd, h !! p = Some nd ∧ left nd = Some c.1 ∧ right nd = Some c.2.

Lemma mbind_tt {St} (m : M St unit) s : mbind' m (λ _, mret tt) s = m s.
Proof. unfold mbind'. by destruct (m s) as [s' [[]|e]]. Qed.

Lemma child_loop_spec w s base l ps cs :
  Forall2 (has_children (kheap w)) ps cs → cs ≠ [] →
  nodes s = level_lists base l → length base = current_level s →
  (Scheduler.fanout s ^ Z.of_nat (current_level s) = Z.of_nat (length l + length (flat cs)))%Z →
  child_loop par_sort seq_sort ps (mkEngine w s)
    = run_level par_sort seq_sort (current_level s)
        (mkEngine w (set_current_level (S (current_level s)) (set_nodes (base ++ [l ++ flat cs]) s))).
Proof.
  intros Hcs. revert s l. induction Hcs as [|p [cl cr] ps cs (nd & Hp & Hl & Hr) Hcs IH];
    intros s l Hne Hn Hb Hf; [done|]. cbn [fst snd flat flat_map app length] in *.
  change (flat_map (λ c, [c.1; c.2]) cs) with (flat cs) in *.
  assert (∀ s', on_world (wload (Some p)) (mkEngine w s') = (mkEngine w s', Ok nd)) as Hload.
  { intros s'. unfold on_world. cbn [ew es]. by rewrite (wload_ok _ _ _ Hp). }
  cbn [child_loop]. rewrite (mbind_ok _ _ _ _ _ (Hload s)), Hl.
  pose proof (schedule_push par_sort seq_sort w s base l cl Hn Hb) as H1.
  rewrite (proj2 (Z.eqb_neq _ _)) in H1 by (rewrite Hf; lia).
  rewrite (mbind_ok _ _ _ _ _ H1). clear H1. set (s1 := set_nodes (base ++ [l ++ [cl]]) s).
  rewrite (mbind_ok _ _ _ _ _ (Hload s1)), Hr.
  assert (nodes s1 = level_lists base (l ++ [cl])) as Hn1 by (by destruct l).
  pose proof (schedule_push par_sort seq_sort w s1 base (l ++ [cl]) cr Hn1 Hb) as H2.
  unfold mbind' at 1. rewrite H2. clear H2. unfold s1. cbn [Scheduler.fanout set_nodes current_level].
  rewrite <-!app_assoc. cbn [app].
  destruct cs as [|c' cs].
  - apply Forall2_nil_inv_r in Hcs as ->.
    rewrite (proj2 (Z.eqb_eq _ _)) by (rewrite Hf, length_app; f_equal; simpl; lia).
    destruct (run_level _ _ _ _) as [e' [[]|ex]]; done.
  - rewrite (proj2 (Z.eqb_neq _ _)) by (rewrite Hf, length_app; simpl; destruct c'; simpl; lia).
    etrans; [apply (IH (set_nodes (base ++ [l ++ [cl; cr]]) s) (l ++ [cl; cr]))|];
      cbn [nodes set_nodes current_level Scheduler.fanout].
    + done.
    + by destruct l.
    + done.
    + rewrite Hf, length_app. f_equal. simpl. lia.
    + by rewrite <-app_assoc.
Qed.

(** ** The main loop *)

(** The state after level [L] has been run. *)
Record level_done (L : nat) (e : engine I) (t : ktree) : Prop := {
  ld_idle : idle (es e);
  ld_fanout : Scheduler.fanout (es e) = 2%Z;
  ld_level : current_level (es e) = S L;
  ld_nodes : length (nodes (es e)) = S L;
  ld_front : nodes (es e) !! L = Some (frontier t);
  ld_io : io_repr (wio (ew e)) mat;
  ld_ok : kd_ok (runok L) (kheap (ew e)) t;
  ld_complete : complete L t;
  ld_nodup : NoDup (klocs t)
}.

Definition same_root h h' (t : ktree) : Prop :=
  ∀ nd, h !! kroot t = Some nd → ∃ nd', h' !! kroot t = Some nd' ∧ ids nd' ≡ₚ ids nd.

(** What a step leaves alone: the nodes outside the tree; the tree only grows by
    nodes that were not allocated before. *)
Record framed h h' (t t' : ktree) : Prop := {
  fm_dom : dom h ⊆ dom h';
  fm_same : ∀ q, q ∈ dom h → q ∉ klocs t → h' !! q = h !! q;
  fm_new : ∀ q, q ∈ klocs t' → q ∈ klocs t ∨ q ∉ dom h
}.

Lemma framed_refl h t : framed h h t t.
Proof. split; [done..|]. by left. Qed.

Lemma framed_trans h1 h2 h3 t1 t2 t3 : framed h1 h2 t1 t2 → framed h2 h3 t2 t3 → framed h1 h3 t1 t3.
Proof.
  intros [D1 S1 N1] [D2 S2 N2]. split.
  - by transitivity (dom h2).
  - intros q Hq Hn. rewrite S2; [by apply S1|by apply D1|]. intros Hq2. by destruct (N1 q Hq2).
  - intros q Hq. destruct (N2 q Hq) as [Hq2|Hq2]; [by apply N1|]. right. set_solver.
Qed.

Definition sizes_ok : Prop :=
  all_ordered ∧ (Z.of_nat (mrows mat) < 2 ^ 32)%Z ∧ (Z.of_nat (mcols mat) < 2 ^ 32)%Z ∧
  (Z.of_nat md < 2 ^ 63)%Z.

Lemma spawned_children h h' p c : spawned h h' p c → has_children h' p c.
Proof. intros (nd & _ & Hp & _). by eexists. Qed.

Lemma length_flat cs : length (flat cs) = 2 * length cs.
Proof. induction cs as [|c cs IH]; [done|]. simpl in *. lia. Qed.

(** One iteration: spawn level [L], schedule and run level [S L]. *)
Lemma level_step L e t :
  sizes_ok → L < md → level_done L e t →
  ∃ w1 e', spawn_loop junk junk_dim (Z.of_nat md) (frontier t) false (ew e) = (w1, Ok true) ∧
    child_loop par_sort seq_sort (frontier t) (mkEngine w1 (es e)) = (e', Ok tt) ∧
    ∃ t', level_done (S L) e' t' ∧ kroot t' = kroot t ∧ same_root (kheap (ew e)) (kheap (ew e')) t ∧
      framed (kheap (ew e)) (kheap (ew e')) t t'.
Proof.
  intros (Ho & Hn32 & Hc64 & Hmd) HL [Hidle Hfan Hlev Hlen Hfr Hio Hok Hcomp Hnd].
  pose proof (frontier_NoDup t Hnd) as Hndf. pose proof (length_frontier L t Hcomp) as Hlf.
  assert (frontier t ≠ []) as Hfne.
  { intros Hnil. rewrite Hnil in Hlf. simpl in Hlf. pose proof (Nat.pow_nonzero 2 L). lia. }
  destruct (spawn_loop_spec L (frontier t) (ew e) false Ho Hio Hndf HL Hmd) as
    (h1 & cs & Hspawn & Hcs & Hndcs & Hfresh & Hoth).
  { apply Forall_forall. intros p Hp. by eapply kd_ok_leaf. }
  rewrite bool_decide_false in Hspawn by done. cbn [negb orb] in Hspawn.
  pose proof (Forall2_length _ _ _ Hcs) as Hlcs.
  assert (∀ q, q ∈ klocs t → q ∈ dom (kheap (ew e))) as Hdom.
  { intros q Hq. apply elem_of_dom. by eapply kd_ok_elem. }
  destruct (grow_ok L (kheap (ew e)) h1 t cs Ho Hc64 HL Hmd Hnd Hok Hcs) as [Hg Hroot].
  { intros q Hq Hf. apply Hoth; [by apply Hdom|done]. }
  assert (NoDup (klocs (grow t cs))) as Hndg.
  { rewrite klocs_grow by lia. apply NoDup_app. split_and!; [done| |done].
    intros q Hq Hf. rewrite Forall_forall in Hfresh. apply (Hfresh q Hf). by apply Hdom. }
  pose proof (frontier_grow t cs ltac:(lia)) as Hfg.
  set (s2 := set_current_level (S (S L)) (set_nodes (nodes (es e) ++ [flat cs]) (es e))).
  destruct (run_level_spec par_sort seq_sort (S L) (flat cs) (mkWorld h1 (wio (ew e))) s2 mat) as
    (w' & Hrun & Hio' & Ho' & Hheap).
  { done. }
  { unfold s2. cbn [nodes set_nodes set_current_level]. rewrite lookup_app_r by lia.
    by rewrite Hlen, Nat.sub_diag. }
  { intros Hnil. apply (f_equal length) in Hnil. rewrite length_flat in Hnil. simpl in Hnil.
    destruct (frontier t); [done|]. simpl in Hlcs. lia. }
  { done. }
  { done. }
  { rewrite <-Hfg. apply Forall_forall. intros q Hq. destruct (kd_ok_leaf _ _ _ _ Hg Hq) as (nd & Hlk & Hrd).
    exists nd. split; [done|]. apply Hrd. }
  exists (mkWorld h1 (wio (ew e))), (mkEngine w' s2). split_and!; [done| |].
  - rewrite (child_loop_spec (mkWorld h1 (wio (ew e))) (es e) (nodes (es e)) [] (frontier t) cs).
    + rewrite Hlev. exact Hrun.
    + eapply Forall2_impl; [exact Hcs|]. intros. by eapply spawned_children.
    + intros ->. by destruct (frontier t).
    + done.
    + by rewrite Hlev.
    + rewrite Hfan, Hlev, length_flat. simpl length. rewrite <-Hlcs, Hlf. rewrite Nat2Z.inj_succ, Z.pow_succ_r by lia.
      rewrite Nat.add_0_l, Nat2Z.inj_mul, Nat2Z.inj_pow. done.
  - assert (after_run h1 (kheap w') (grow t cs)) as Har.
    { intros q Hq. rewrite Hheap. cbn [kheap]. by rewrite <-Hfg. }
    exists (grow t cs). split_and!.
    + split; cbn [es ew]; try done.
      * unfold s2. cbn [nodes set_nodes set_current_level]. rewrite length_app, Hlen. simpl. lia.
      * unfold s2. cbn [nodes set_nodes set_current_level]. rewrite Hfg, lookup_app_r by lia.
        by rewrite Hlen, Nat.sub_diag.
      * by apply (run_frontier_ok (S L) h1).
      * by apply complete_grow.
    + apply kroot_grow.
    + intros nd Hnd0. destruct (Hroot nd Hnd0) as (nd1 & Hnd1 & Hids1).
      assert (ids nd ≠ []) as Hne.
      { destruct t as [p|p a b]; cbn [kroot] in *.
        - destruct Hok as (nd' & Hp' & Hrun'). rewrite Hnd0 in Hp'. injection Hp' as <-.
          intros Hnil. pose proof (ro_size _ _ Hrun') as Hsz. unfold ids in Hnil. apply map_eq_nil in Hnil.
          rewrite Hnil in Hsz. simpl in Hsz. pose proof (Nat.pow_nonzero 2 (md - L)). lia.
        - destruct Hok as ((nd' & na & nb & Hp' & _ & _ & _ & _ & Hsp) & _). rewrite Hnd0 in Hp'. injection Hp' as <-.
          intros Hnil. pose proof (so_perm _ _ _ Hsp) as Hp2. rewrite Hnil in Hp2.
          apply Permutation_nil_r, app_eq_nil in Hp2 as [Hp2 _]. by apply (so_left_ne _ _ _ Hsp). }
      destruct (after_run_ids (S L) h1 (kheap w') (grow t cs) nd1 Hn32 Hg Har) as (nd2 & Hnd2 & Hids2).
      { by rewrite kroot_grow. }
      { by rewrite Hids1. }
      rewrite kroot_grow in Hnd2. exists nd2. split; [done|]. by rewrite Hids2, Hids1.
    + apply (framed_trans _ h1 _ _ (grow t cs)); split.
      * intros q Hq. destruct (decide (q ∈ frontier t)) as [Hf|Hf].
        { apply list_elem_of_lookup in Hf as [i Hi]. destruct (Forall2_lookup_l _ _ _ _ _ Hcs Hi) as (c & _ & nd & _ & Hp & _).
          by apply elem_of_dom; eexists. }
        apply elem_of_dom. rewrite Hoth by done. by apply elem_of_dom.
      * intros q Hq Hn. apply Hoth; [done|]. intros Hf. by apply Hn, frontier_klocs.
      * intros q Hq. rewrite klocs_grow in Hq by lia. apply elem_of_app in Hq as [Hq|Hq]; [by left|right].
        rewrite Forall_forall in Hfresh. by apply Hfresh.
      * intros q Hq. apply elem_of_dom. cbn [ew]. rewrite Hheap. cbn [kheap]. apply elem_of_dom in Hq as [nd Hq].
        rewrite Hq. by case_decide; eexists.
      * intros q Hq Hn. cbn [ew]. rewrite Hheap. rewrite decide_False; [done|].
        rewrite <-Hfg. intros Hf. by apply Hn, frontier_klocs.
      * intros q Hq. by left.
Qed.

Lemma same_root_trans h1 h2 h3 t t' :
  kroot t' = kroot t → same_root h1 h2 t → same_root h2 h3 t' → same_root h1 h3 t.
Proof.
  intros Hk H1 H2 nd Hnd. destruct (H1 nd Hnd) as (nd2 & Hnd2 & Hp2). rewrite <-Hk in Hnd2.
  destruct (H2 nd2 Hnd2) as (nd3 & Hnd3 & Hp3). exists nd3. rewrite Hk in Hnd3. split; [done|]. by rewrite Hp3.
Qed.

Lemma build_loop_spec fuel L e t :
  sizes_ok → L ≤ md → md - L < fuel → level_done L e t →
  ∃ e' t', build_loop par_sort seq_sort junk junk_dim fuel (Z.of_nat md) e = (e', Ok tt) ∧
    level_done md e' t' ∧ kroot t' = kroot t ∧ same_root (kheap (ew e)) (kheap (ew e')) t ∧
    framed (kheap (ew e)) (kheap (ew e')) t t'.
Proof.
  intros Hs. pose proof Hs as (_ & _ & _ & Hmd). revert L e t.
  induction fuel as [|fuel IH]; intros L e t HL Hf Hld; [lia|]. cbn [build_loop].
  rewrite (mbind_ok _ _ _ _ _ eq_refl : mbind' mget _ _ = _), (ld_level _ _ _ Hld).
  rewrite u64_small by lia. replace (Z.of_nat (S L) - 1)%Z with (Z.of_nat L) by lia.
  rewrite (proj2 (Z.leb_le _ _)) by lia. rewrite (mbind_ok (massert true) _ _ _ _ eq_refl).
  unfold get_nodes. rewrite Nat2Z.id, (ld_front _ _ _ Hld), (mbind_ok (mlift (Ok _)) _ _ _ _ eq_refl).
  destruct (decide (L = md)) as [->|Hne].
  - assert (spawn_loop junk junk_dim (Z.of_nat md) (frontier t) false (ew e) = (ew e, Ok false)) as Hsp.
    { apply (spawn_loop_none md); [done|]. apply Forall_forall. intros p Hp.
      eapply kd_ok_leaf; [apply (ld_ok _ _ _ Hld)|done]. }
    erewrite mbind_ok by (unfold on_world; by rewrite Hsp).
    rewrite Z.eqb_refl. cbn [orb]. exists (mkEngine (ew e) (es e)), t. destruct e.
    split_and!; [done..| |apply framed_refl]. intros nd Hnd. by exists nd.
  - destruct (level_step L e t Hs) as (w1 & e1 & Hsp & Hch & t1 & Hld1 & Hk1 & Hr1 & Hfr1); [lia|done|].
    erewrite mbind_ok by (unfold on_world; by rewrite Hsp).
    rewrite (proj2 (Z.eqb_neq _ _)) by lia. cbn [orb negb]. rewrite (mbind_ok _ _ _ _ _ Hch).
    destruct (IH (S L) e1 t1) as (e' & t' & Hrun & Hld' & Hk' & Hr' & Hfr'); [lia|lia|done|].
    exists e', t'. split_and!; [done|done|congruence| |by eapply framed_trans]. by apply (same_root_trans _ (kheap (ew e1)) _ _ t1).
Qed.

(** A root as the programs set it up: no samples yet, split dimension given. *)
Record fresh_root nd : Prop := {
  fr_depth : depth nd = 0%Z;
  fr_left : left nd = None;
  fr_right : right nd = None;
  fr_ioer : ioer_set nd = true;
  fr_split : (0 ≤ split_dim nd < Z.of_nat (mcols mat))%Z;
  fr_req : req_indxs nd = [split_dim nd];
  fr_idx : ivec (data_index nd) = []
}.

Definition all_samples : list Z := map Z.of_nat (seq 0 (mrows mat)).

Lemma filled_root_ids c :
  (Z.of_nat (mrows mat) < 2 ^ 32)%Z → map iv_index (filled mat c []) = all_samples.
Proof.
  intros Hn. apply list_eq. intros i. unfold all_samples. cbn [filled].
  change (map iv_index) with (fmap (M := list) iv_index).
  rewrite list_lookup_fmap, list_lookup_imap, list_lookup_fmap.
  destruct (decide (i < mrows mat)) as [Hi|Hi].
  - rewrite lookup_mcol, lookup_seq_lt by done. cbn. rewrite u32_small by lia. done.
  - rewrite (lookup_ge_None_2 (mcol mat c)) by (rewrite length_mcol; lia).
    by rewrite (lookup_ge_None_2 (seq 0 _)) by (rewrite length_seq; lia).
Qed.

Lemma fresh_root_ready nd :
  all_ordered → (Z.of_nat (mrows mat) < 2 ^ 32)%Z → 2 ^ md ≤ mrows mat → fresh_root nd → ready 0 nd.
Proof.
  intros Ho Hn Hsz [Hd Hl Hr Hi Hs Hq Hx].
  assert (0 < mrows mat) as Hpos by (pose proof (Nat.pow_nonzero 2 md); lia).
  split; try done.
  - split; [done|exists (split_dim nd); split; [done|lia]|by rewrite Hx|done|exact Ho].
  - rewrite Hx. apply (Forall_fmap iv_index in_range). change (fmap iv_index) with (map iv_index).
    rewrite filled_root_ids by done. apply Forall_forall. intros z Hz.
    apply list_elem_of_fmap in Hz as (k & -> & Hk%elem_of_seq). unfold in_range. lia.
  - by rewrite Hx, filled_length, Nat.sub_0_r.
Qed.

(** The samples held by the leaves, from left to right. *)
Fixpoint leaf_ids h (t : ktree) : list Z :=
  match t with
  | Leaf p => match h !! p with Some nd => ids nd | None => [] end
  | Node _ a b => leaf_ids h a ++ leaf_ids h b
  end.

Lemma leaf_ids_root P h t nd : kd_ok P h t → h !! kroot t = Some nd → leaf_ids h t ≡ₚ ids nd.
Proof.
  revert nd. induction t as [p|p a IHa b IHb]; intros nd Hok Hnd; cbn [leaf_ids kroot] in *.
  - by rewrite Hnd.
  - destruct Hok as ((nd' & na & nb & Hp & _ & _ & Ha & Hb & Hsp) & Hoka & Hokb).
    rewrite Hnd in Hp. injection Hp as <-. rewrite (IHa _ Hoka Ha), (IHb _ Hokb Hb). apply Hsp.
Qed.

Lemma build_spec fuel e r nd :
  sizes_ok → 2 ^ md ≤ mrows mat → md < fuel →
  idle (es e) → Scheduler.fanout (es e) = 2%Z → current_level (es e) = 0 → nodes (es e) = [] →
  io_repr (wio (ew e)) mat → kheap (ew e) !! r = Some nd → fresh_root nd →
  ∃ e' t, build par_sort seq_sort junk junk_dim fuel (Z.of_nat md) (Some r) e = (e', Ok tt) ∧
    level_done md e' t ∧ kroot t = r ∧ leaf_ids (kheap (ew e')) t ≡ₚ all_samples ∧
    framed (kheap (ew e)) (kheap (ew e')) (Leaf r) t.
Proof.
  intros Hs Hsz Hf Hidle Hfan Hlev Hns Hio Hr Hfr. pose proof Hs as (Ho & Hn & Hc & Hmd).
  pose proof (fresh_root_ready nd Ho Hn Hsz Hfr) as Hrd. destruct e as [w s]. cbn [ew es] in *.
  unfold build. rewrite bool_decide_true by done. rewrite (mbind_ok (massert true) _ _ _ _ eq_refl).
  set (s1 := set_current_level 1 (set_nodes [[r]] s)).
  destruct (run_level_spec par_sort seq_sort 0 [r] w s1 mat) as (w' & Hrun & Hio' & _ & Hheap); try done.
  { apply NoDup_singleton. }
  { apply Forall_singleton. exists nd. split; [done|apply Hrd]. }
  assert (schedule par_sort seq_sort r (mkEngine w s) = (mkEngine w' s1, Ok tt)) as Hsch.
  { rewrite (schedule_push par_sort seq_sort w s [] [] r) by (rewrite ?Hlev; done).
    rewrite Hfan, Hlev. exact Hrun. }
  rewrite (mbind_ok _ _ _ _ _ Hsch). destruct (ready_run 0 nd Hn Hrd) as [Hro Hids].
  assert (kheap w' !! r = Some (tres nd)) as Hr'.
  { rewrite Hheap, decide_True by left. by rewrite Hr. }
  destruct (build_loop_spec fuel 0 (mkEngine w' s1) (Leaf r)) as (e' & t & Hb & Hld & Hk & Hsame & Hfm); try done; [lia|lia| |].
  { split; cbn [ew es frontier klocs]; try done; [by exists (tres nd)|apply NoDup_singleton]. }
  exists e', t. split_and!; [done..| |].
  2: { apply (framed_trans _ (kheap w') _ _ (Leaf r)); [|exact Hfm]. split; cbn [ew klocs]; [| |by left].
       - intros q [nq Hq]%elem_of_dom. apply elem_of_dom. rewrite Hheap, Hq. by case_decide; eexists.
       - intros q Hq Hn0. rewrite Hheap. by rewrite decide_False. }
  destruct (Hsame (tres nd) Hr') as (nd' & Hnd' & Hp).
  rewrite (leaf_ids_root _ _ t nd' (ld_ok _ _ _ Hld)) by (by rewrite Hk).
  rewrite Hp, Hids, (fr_idx _ Hfr). by rewrite filled_root_ids.
Qed.
End build_specs.

(** ** The constructor's scheduler *)

Lemma ctor_sched p tid nid prog :
  BinaryTreeProgram_ctor p tid nid = Ok prog →
  idle (prog_sched prog) ∧ Scheduler.fanout (prog_sched prog) = 2%Z ∧
  current_level (prog_sched prog) = 0 ∧ nodes (prog_sched prog) = [] ∧
  prog_max_depth prog = max_depth p.
Proof.
  unfold BinaryTreeProgram_ctor, nworkers.
  destruct (Z.eqb_spec (Types.fanout p) 2) as [Hf|]; [|done]. destruct (ntree p =? 0)%Z; [done|]. cbn [rbind].
  intros [= <-]. cbn [prog_sched prog_max_depth Scheduler_ctor Scheduler.fanout current_level nodes].
  split; [|done]. unfold idle, Scheduler_ctor. cbn [queues]. rewrite length_replicate.
  pose proof (s32_range (nthread p / ntree p)) as Hr.
  split_and!; [done|lia|lia].
Qed.

(** ** Properties *)

(** C2. [BinaryTreeProgram::build] with [kdnode]s terminates and builds a
    complete kd-tree.  Take a program the constructor made, an I/O object that
    holds an [n] by [m] matrix without NaNs, [n] and [m] below [2^32] (row and
    column numbers pass through the 32-bit [sample_id_t]), [2^max_depth <= n],
    and a root set up with a split dimension.  Then [build] returns without error; the nodes
    reachable from the root form a complete binary tree of depth [max_depth];
    the leaves together hold every sample exactly once, each leaf at least one;
    and at every inner node the samples of the left child have a value at most
    the comparator in the split dimension and those of the right child a value
    at least it.  All level queues are empty again at the end.  The fuel bounds
    the [while (true)] loop, which runs at most [max_depth + 1] times.  The tasks
    of a level run one after the other here; [workers_interleave] shows that
    workers running them at the same time give the same heap for I/O objects that
    can be shared, such as [MemoryIO], and [sync_get_col_races] that [SyncIO] needs
    a single worker. *)
Theorem kd_build_correct {I} `{MatrixIO I} par_sort seq_sort junk junk_dim mat md p tid nid prog
    (w : world I) r nd :
  BinaryTreeProgram_ctor p tid nid = Ok prog → max_depth p = Z.of_nat md →
  sizes_ok mat md → 2 ^ md ≤ mrows mat →
  io_repr (wio w) mat → kheap w !! r = Some nd → fresh_root mat nd →
  ∃ e' t, build par_sort seq_sort junk junk_dim (S md) (prog_max_depth prog) (Some r)
            (mkEngine w (prog_sched prog)) = (e', Ok tt) ∧
    kroot t = r ∧ complete md t ∧ NoDup (klocs t) ∧
    kd_ok mat (λ n, ids n ≠ [] ∧ left n = None ∧ right n = None) (kheap (ew e')) t ∧
    leaf_ids (kheap (ew e')) t ≡ₚ all_samples mat ∧
    idle (es e') ∧ io_repr (wio (ew e')) mat.
Proof.
  intros Hc Hm Hs Hsz Hio Hr Hfr.
  destruct (ctor_sched p tid nid prog Hc) as (Hi & Hf & Hl & Hn & Hmd).
  rewrite Hmd, Hm.
  destruct (build_spec par_sort seq_sort junk junk_dim mat md (S md) (mkEngine w (prog_sched prog)) r nd)
    as (e' & t & Hrun & [] & Hk & Hids & _); try done; [lia|].
  exists e', t. split_and!; try done.
  eapply kd_ok_impl; [|done]. intros n Hro. split_and!; [|apply Hro..].
  intros Hnil. pose proof (ro_size _ _ _ _ Hro) as Hsz'. unfold ids in Hnil. apply map_eq_nil in Hnil.
  rewrite Hnil in Hsz'. simpl in Hsz'. pose proof (Nat.pow_nonzero 2 (md - md)). lia.
Qed.

(** *** Witnesses *)

Definition ex_params : Params := mkParams 2 2 "m.bin" MEM 1 2 ROW 2 1 BIN.
Definition ex_root : kdnode := set_index 1 (set_split_dim 1 (set_ioer true (kdnode_ctor fzero 0))).

Lemma kd_build_correct_witness :
  ∃ prog e' t, BinaryTreeProgram_ctor ex_params 0 0 = Ok prog ∧
    build isort_std_sort isort_std_sort fzero 0 2 1 (Some 1%positive)
      (mkEngine (mkWorld {[1%positive := ex_root]} ex_mem) (prog_sched prog)) = (e', Ok tt) ∧
    complete 1 t ∧ leaf_ids (kheap (ew e')) t ≡ₚ [0%Z; 1%Z].
Proof.
  destruct (BinaryTreeProgram_ctor ex_params 0 0) as [prog|] eqn:E; [|done].
  destruct (kd_build_correct isort_std_sort isort_std_sort fzero 0 ex_mat 1 ex_params 0 0 prog
    (mkWorld {[1%positive := ex_root]} ex_mem) 1%positive ex_root) as (e' & t & Hrun & _ & Hc & _ & _ & Hids & _).
  - exact E.
  - reflexivity.
  - split_and!; try (simpl; lia). intros [|[|r]] [|[|c]] ? ?; simpl in *; try lia; reflexivity.
  - simpl; lia.
  - exact ex_mem_repr.
  - reflexivity.
  - split; try reflexivity. simpl; lia.
  - exists prog, e', t. split_and!; [done| |exact Hc|exact Hids].
    injection E as <-. exact Hrun.
Defined.
