(* ===== verification/KdTree.v ===== *)
(** * Queries: [structures/Query], [kdTreeProgram] of [examples/kdtree.cpp] and
      [ComputeEngine.hpp]

    The trees of a forest are built over one shared heap of nodes and, for
    in-memory data, one shared I/O object (the [MemoryIO] singleton): that is
    the [world].  A query walks down to the closest leaf and then works through
    the whole tree with an explicit stack and a set of completed nodes. *)
From S2P Require Import Prelude DataT Types NNVector TreeHeap BinaryTree KNN Stream IO.
From S2P Require Import Containers Nodes Scheduler Build.
From stdpp Require Import options.

(** ** [ProximityQuery] *)

Record ProximityQuery := mkPQ {
  qk : Z;
  qsample : option (list data_t);
  q_ntree : Z;
  result : list NNVector
}.

(** [ProximityQuery(k, ntree)] leaves the sample pointer indeterminate. *)
Definition ProximityQuery_ctor2 (ind : option (list data_t)) (k ntree : Z) : ProximityQuery :=
  mkPQ k ind ntree (replicate (Z.to_nat ntree) (NNVector_ctor (u32 k))).
Definition ProximityQuery_ctor (qs : list data_t) (k ntree : Z) : ProximityQuery :=
  let q := ProximityQuery_ctor2 None k ntree in mkPQ (qk q) (Some qs) (q_ntree q) (result q).

Definition set_qsample (qs : option (list data_t)) (q : ProximityQuery) : ProximityQuery :=
  mkPQ (qk q) qs (q_ntree q) (result q).
Definition set_result (r : list NNVector) (q : ProximityQuery) : ProximityQuery :=
  mkPQ (qk q) (qsample q) (q_ntree q) r.
Definition getNNs (q : ProximityQuery) : list NNVector := result q.

(** [eval(id, dist, tree_id)] *)
Definition pq_eval (id : Z) (dist : data_t) (tree_id : Z) : M ProximityQuery unit := λ q,
  match result q !! Z.to_nat tree_id with
  | None => (q, Throw Segfault)
  | Some nn =>
      let '(nn', r) := eval_id id dist nn in
      (set_result (<[Z.to_nat tree_id := nn']> (result q)) q, r)
  end.

(** [operator[]] *)
Definition pq_at (idx : Z) (q : ProximityQuery) : res data_t :=
  match qsample q with
  | None => Throw Segfault
  | Some v => DenseVector.at_ v (Z.to_nat idx)
  end.

(** The destructor deletes every [NNVector]. *)
Fixpoint pq_dtor (rs : list NNVector) : res unit :=
  match rs with
  | [] => Ok tt
  | nn :: rs => match NNVector_dtor nn with (_, Ok _) => pq_dtor rs | (_, Throw e) => Throw e end
  end.

(** ** [kdTreeProgram] *)

Record kdTreeProgram := mkKP { kprog : BinaryTreeProgram; completed : gset loc }.

(** What a query works on: the shared world and the query object. *)
Record qst (I : Type) := mkQS { qw : world I; qq : ProximityQuery }.
Arguments mkQS {I}.
Arguments qw {I}.
Arguments qq {I}.

Section kdtree.
Context {I : Type} `{MatrixIO I}.
Abbreviation W := (M (world I)).
Abbreviation Q := (M (qst I)).

Definition q_world {A} (m : W A) : Q A := λ s,
  let '(w', r) := m (qw s) in (mkQS w' (qq s), r).
Definition q_query {A} (m : M ProximityQuery A) : Q A := λ s,
  let '(q', r) := m (qq s) in (mkQS (qw s) q', r).

(** [kdnode::distance] *)
Definition distance (n : kdnode) (s1 : list data_t) (idx : Z) : W data_t :=
  deref_ioer n;;;
  let! member := with_io (io_get_row (Z.to_nat idx)) in
  mlift (euclidean (DenseVector.raw_data s1) member (DenseVector.size s1)).

(** The first loop of [find_neighbors]; [visited] is the stack. *)
Fixpoint descend_loop (fuel : nat) (node : option loc) (visited : list loc) : Q (list loc) :=
  match fuel with
  | O => mthrow OutOfFuel
  | S fuel =>
      match node with
      | None => mthrow Segfault
      | Some p =>
          let visited := Stack.push p visited in
          let! n := q_world (wload (Some p)) in
          let! s := mget in
          let! x := mlift (pq_at (split_dim n) (qq s)) in
          let next := if fgt x (comparator n) then right n else left n in
          match next with
          | None => mret visited
          | Some _ => descend_loop fuel next visited
          end
      end
  end.

(** The loop over the samples of a leaf. *)
Fixpoint scan_leaf (n : kdnode) (tree_id : Z) (ivs : list IndexVal) : Q unit :=
  match ivs with
  | [] => mret tt
  | iv :: ivs =>
      let! s := mget in
      let! qs := mlift (match qsample (qq s) with Some v => Ok v | None => Throw Segfault end) in
      let! dist := q_world (distance n qs (iv_index iv)) in
      q_query (pq_eval (iv_index iv) dist tree_id);;;
      scan_leaf n tree_id ivs
  end.

(** Pushes a child that is not completed; the comparator of the child is read
    for the log output. *)
Definition push_child (c : option loc) (completed : gset loc) (visited : list loc) : Q (list loc) :=
  match c with
  | Some l =>
      if decide (l ∈ completed) then mret visited
      else q_world (wload (Some l));;; mret (Stack.push l visited)
  | None => mthrow Segfault
  end.

(** The second loop of [find_neighbors]; returns the set of completed nodes. *)
Fixpoint search_loop (fuel : nat) (tree_id : Z) (visited : list loc) (completed : gset loc)
  : Q (gset loc) :=
  match fuel with
  | O => mthrow OutOfFuel
  | S fuel =>
      if Stack.empty visited then mret completed else
      let! top := mlift (Stack.pop visited) in
      let visited := top.1 in
      let node := top.2 in
      let! n := q_world (wload (Some node)) in
      if negb (has_child n) then
        scan_leaf n tree_id (ivec (data_index n));;;
        search_loop fuel tree_id visited ({[node]} ∪ completed)
      else
        let! visited := push_child (left n) completed visited in
        let! visited := push_child (right n) completed visited in
        search_loop fuel tree_id visited ({[node]} ∪ completed)
  end.

(** [kdTreeProgram::find_neighbors] *)
Definition find_neighbors (kp : kdTreeProgram) : Q kdTreeProgram :=
  let! s := mget in
  let fuel := S (base.size (kheap (qw s))) in
  let! visited := descend_loop fuel (prog_root (kprog kp)) [] in
  let! c := search_loop fuel (prog_tree_id (kprog kp)) visited ∅ in
  mret (mkKP (kprog kp) c).

(** [ProximityQuery::run] *)
Definition pq_run (kp : kdTreeProgram) : Q kdTreeProgram :=
  let! s := mget in
  match qsample (qq s) with
  | None => mthrow Segfault
  | Some v => massert (negb (DenseVector.empty v));;; find_neighbors kp
  end.
End kdtree.

(** ** Roots

    [BinaryTreeProgram::set_root] hands its node to [BinaryTree::insert], which
    works on the same nodes; [tree_view] is the program's tree as [BinaryTree]
    sees it. *)

Definition to_tnode (n : kdnode) : tnode kdnode := mkT n (parent n) (left n) (right n).
Definition of_tnode (t : tnode kdnode) : kdnode :=
  let n := payload t in
  mkKd (data_index n) (req_indxs n) (comparator n) (depth n) (ioer_set n) (nv_parent n)
    (TreeHeap.parent t) (TreeHeap.left t) (TreeHeap.right t) (split_dim n).

Definition tree_view (p : BinaryTreeProgram) (h : gmap loc kdnode) : tree_st kdnode :=
  mkTree (prog_root p) (prog_depth p) (to_tnode <$> h).

Section roots.
Context {I : Type} `{MatrixIO I} (junk : data_t) (junk_dim : Z).
Abbreviation W := (M (world I)).

Definition prog_set_tree (root : option loc) (d : Z) (p : BinaryTreeProgram) : BinaryTreeProgram :=
  mkProg (prog_tree_id p) (numa_id p) (exmem_fn p) (prog_nsamples p) (prog_nfeatures p)
    (prog_max_depth p) d root (prog_sched p).

Definition prog_set_root (node : option loc) (p : BinaryTreeProgram) : W BinaryTreeProgram :=
  massert (bool_decide (node ≠ None));;;
  wupd (set_ioer true) node;;;
  λ w, let '(s, r) := BinaryTree.set_root comparator node (tree_view p (kheap w)) in
       (mkWorld (of_tnode <$> theap s) (wio w),
        match r with
        | Ok _ => Ok (prog_set_tree (root s) (TreeHeap.depth s) p)
        | Throw e => Throw e
        end).

(** The loop of the driver that gives every tree its root; the split dimension
    goes round the features. *)
Fixpoint init_roots (split : cunsigned) (forest : list kdTreeProgram) : W (list kdTreeProgram) :=
  match forest with
  | [] => mret []
  | kp :: forest =>
      let! r := wnew (kdnode_ctor junk junk_dim) in
      wupd (set_split_dim (cget split)) (Some r);;;
      wupd (set_index (cget split)) (Some r);;;
      let! prog := prog_set_root (Some r) (kprog kp) in
      let! rest := init_roots (inc split).1 forest in
      mret (mkKP prog (completed kp) :: rest)
  end.
End roots.

(** ** [ComputeEngine] *)

Record ComputeEngine := mkCE { forest : list kdTreeProgram; params : Params }.

Definition add_tree (t : kdTreeProgram) (e : ComputeEngine) : ComputeEngine :=
  mkCE (forest e ++ [t]) (params e).
Definition set_params (p : Params) (e : ComputeEngine) : ComputeEngine := mkCE (forest e) p.
Definition get_tree (id : Z) (e : ComputeEngine) : res kdTreeProgram :=
  match forest e !! Z.to_nat id with Some t => Ok t | None => Throw Segfault end.
Definition engine_ntree (e : ComputeEngine) : nat := length (forest e).
Definition predict : res unit := Throw not_implemented_exception.

(** The constructor for [params.iotype == MEM]: every tree program configures
    the shared [MemoryIO] object again. *)
Fixpoint create_trees (files : string → option (list Z)) (junk : data_t) (ji : Z) (p : Params)
    (n : nat) (tree_id : Z) : M MemoryIO.t (list kdTreeProgram) :=
  match n with
  | O => mret []
  | S n =>
      configure_mem files junk ji p;;;
      let! prog := mlift (BinaryTreeProgram_ctor p tree_id 0) in
      let! rest := create_trees files junk ji p n (tree_id + 1) in
      mret (mkKP prog ∅ :: rest)
  end.
Definition ComputeEngine_ctor (files : string → option (list Z)) (junk : data_t) (ji : Z) (p : Params)
  : M MemoryIO.t ComputeEngine :=
  let! f := create_trees files junk ji p (Z.to_nat (ntree p)) 0 in mret (mkCE f p).

Section engine.
Context {I : Type} `{MatrixIO I} (par_sort seq_sort : StdSort) (junk : data_t) (junk_dim : Z).
Abbreviation W := (M (world I)).

Definition prog_set_sched (s : Scheduler) (p : BinaryTreeProgram) : BinaryTreeProgram :=
  mkProg (prog_tree_id p) (numa_id p) (exmem_fn p) (prog_nsamples p) (prog_nfeatures p)
    (prog_max_depth p) (prog_depth p) (prog_root p) s.

(** [forest[i]->build()] *)
Definition prog_build (fuel : nat) (kp : kdTreeProgram) : W kdTreeProgram := λ w,
  let '(e, r) := build par_sort seq_sort junk junk_dim fuel (prog_max_depth (kprog kp))
                   (prog_root (kprog kp)) (mkEngine w (prog_sched (kprog kp))) in
  (ew e, match r with
         | Ok _ => Ok (mkKP (prog_set_sched (es e) (kprog kp)) (completed kp))
         | Throw ex => Throw ex
         end).

Fixpoint build_all (fuel : nat) (ts : list kdTreeProgram) : W (list kdTreeProgram) :=
  match ts with
  | [] => mret []
  | t :: ts =>
      let! t' := prog_build fuel t in
      let! ts' := build_all fuel ts in
      mret (t' :: ts')
  end.

(** [train]; the trees are built one after the other. *)
Definition train (fuel : nat) (e : ComputeEngine) : W ComputeEngine :=
  massert (bool_decide (Z.of_nat (length (forest e)) = ntree (params e)));;;
  let! ts := build_all fuel (forest e) in
  mret (mkCE ts (params e)).

Fixpoint query_all (ts : list kdTreeProgram) : M (qst I) (list kdTreeProgram) :=
  match ts with
  | [] => mret []
  | t :: ts =>
      let! t' := pq_run t in
      let! ts' := query_all ts in
      mret (t' :: ts')
  end.

Definition query (e : ComputeEngine) : M (qst I) ComputeEngine :=
  let! ts := query_all (forest e) in mret (mkCE ts (params e)).
End engine.

(** ** One tree *)

Section query_specs.
Context {I : Type} `{MatrixIO I} (mat : matrix) (qs : list data_t) (tid : Z).
Implicit Types (s : qst I) (h : gmap loc kdnode) (t : ktree) (C : gset loc).

(** The distance of the query to sample [i]. *)
Definition dist_to (i : Z) : data_t :=
  match euclidean qs (mrow mat (Z.to_nat i)) (mcols mat) with Ok d => d | Throw _ => fzero end.
Definition dist_list (l : list Z) : list IndexVal := map (λ i, mkIV i (dist_to i)) l.

Lemma euclidean_loop_take acc a b n :
  euclidean_loop acc a b n = euclidean_loop acc a (take n b) n.
Proof.
  revert acc a b. induction n as [|n IH]; intros acc a b; [done|].
  destruct a as [|x a], b as [|y b]; simpl; first [done|apply IH].
Qed.

Lemma length_mrow r : length (mrow mat r) = mcols mat.
Proof. unfold mrow. by rewrite length_map, length_seq. Qed.

Lemma dist_to_ok i :
  length qs = mcols mat → euclidean qs (mrow mat (Z.to_nat i)) (mcols mat) = Ok (dist_to i).
Proof.
  intros Hq. unfold dist_to. destruct (euclidean_loop_total fzero qs (mrow mat (Z.to_nat i)) (mcols mat)) as [d Hd];
    [lia|by rewrite length_mrow|]. unfold euclidean. by rewrite Hd.
Qed.

Lemma distance_spec (w : world I) n i :
  io_repr (wio w) mat → ioer_set n = true → length qs = mcols mat → in_range mat i →
  ∃ io', distance n qs i w = (mkWorld (kheap w) io', Ok (dist_to i)) ∧ io_repr io' mat.
Proof.
  intros Hio Hi Hq Hr. unfold distance, deref_ioer. rewrite Hi, (mbind_ok (mret tt) _ _ _ _ eq_refl).
  destruct (io_get_row_ok (wio w) mat (Z.to_nat i) Hio) as (io' & b & Hrun & Hb & Hio' & _);
    [unfold in_range in Hr; lia|].
  exists io'. split; [|done]. erewrite mbind_ok by (unfold with_io; by rewrite Hrun).
  unfold mlift, DenseVector.raw_data, DenseVector.size, euclidean. rewrite euclidean_loop_take, Hq, Hb.
  by rewrite <-dist_to_ok.
Qed.

(** A state in which the tree [tid] can be queried. *)
Record query_ready s : Prop := {
  qr_io : io_repr (wio (qw s)) mat;
  qr_sample : qsample (qq s) = Some qs;
  qr_result : ∃ nn l, result (qq s) !! Z.to_nat tid = Some nn ∧ nn_rep nn (take (Z.to_nat (nk nn)) l)
}.

(** [s'] is [s] after the list of tree [tid] has been fed with [ds]. *)
Definition fed s (ds : list IndexVal) s' : Prop :=
  ∃ io' nn nn', result (qq s) !! Z.to_nat tid = Some nn ∧ eval_all ds nn = (nn', Ok tt) ∧
    s' = mkQS (mkWorld (kheap (qw s)) io') (set_result (<[Z.to_nat tid := nn']> (result (qq s))) (qq s)) ∧
    query_ready s'.

Lemma fed_heap s ds s' : fed s ds s' → kheap (qw s') = kheap (qw s).
Proof. by intros (? & ? & ? & _ & _ & -> & _). Qed.
Lemma fed_ready s ds s' : fed s ds s' → query_ready s'.
Proof. by intros (? & ? & ? & _ & _ & _ & ?). Qed.
Lemma fed_nil s : query_ready s → fed s [] s.
Proof.
  intros Hr. pose proof Hr as [? ? (nn & l & Hn & _)]. exists (wio (qw s)), nn, nn. split_and!; try done.
  rewrite list_insert_id by done. by destruct s as [[] []].
Qed.

Lemma eval_all_app d1 d2 n n1 n2 :
  eval_all d1 n = (n1, Ok tt) → eval_all d2 n1 = (n2, Ok tt) → eval_all (d1 ++ d2) n = (n2, Ok tt).
Proof.
  revert n. induction d1 as [|d d1 IH]; intros n H1 H2; simpl in *; [by injection H1 as ->|].
  apply mbind_ok_inv in H1 as ([] & n' & Hd & H1). rewrite (mbind_ok _ _ _ _ _ Hd). by apply IH.
Qed.

Lemma fed_app s d1 s1 d2 s2 : fed s d1 s1 → fed s1 d2 s2 → fed s (d1 ++ d2) s2.
Proof.
  intros (io1 & n1 & n1' & Hn1 & He1 & -> & _) (io2 & n2 & n2' & Hn2 & He2 & -> & Hr).
  cbn [qq set_result result qw kheap] in *.
  rewrite list_lookup_insert_eq in Hn2 by (by eapply lookup_lt_Some). injection Hn2 as <-.
  exists io2, n1, n2'. split_and!; [done|by eapply eval_all_app| |done].
  by rewrite list_insert_insert_eq.
Qed.

Lemma scan_leaf_spec n ivs s :
  length qs = mcols mat → ioer_set n = true → query_ready s →
  Forall (λ iv, in_range mat (iv_index iv)) ivs →
  ∃ s', scan_leaf n tid ivs s = (s', Ok tt) ∧ fed s (dist_list (map iv_index ivs)) s'.
Proof.
  intros Hq Hi Hr Hall. revert s Hr. induction Hall as [|iv ivs Hiv _ IH]; intros s Hr.
  { exists s. split; [done|by apply fed_nil]. }
  cbn [scan_leaf]. rewrite (mbind_ok _ _ _ _ _ eq_refl : mbind' mget _ _ = _).
  pose proof Hr as [Hio Hqs (nn & l & Hnn & Hrep)]. rewrite Hqs, (mbind_ok (mlift (Ok _)) _ _ _ _ eq_refl).
  destruct (distance_spec (qw s) n (iv_index iv) Hio Hi Hq Hiv) as (io' & Hd & Hio').
  erewrite mbind_ok by (unfold q_world; by rewrite Hd).
  destruct (eval_all_spec nn [mkIV (iv_index iv) (dist_to (iv_index iv))] l Hrep) as (nn' & He & Hk & Hrep').
  assert (eval_id (iv_index iv) (dist_to (iv_index iv)) nn = (nn', Ok tt)) as He1.
  { cbn [eval_all] in He. unfold mbind' in He. unfold eval_id. by destruct (eval _ nn) as [? [[]|]]. }
  set (s1 := mkQS (mkWorld (kheap (qw s)) io')
    (set_result (<[Z.to_nat tid := nn']> (result (qq s))) (qq s))).
  assert (fed s [mkIV (iv_index iv) (dist_to (iv_index iv))] s1) as Hfed.
  { exists io', nn, nn'. split_and!; [done..|]. split; [done|done|]. exists nn', (ins_all l [mkIV (iv_index iv) (dist_to (iv_index iv))]).
    cbn. rewrite list_lookup_insert_eq by (by eapply lookup_lt_Some). by rewrite Hk. }
  erewrite (mbind_ok _ _ _ s1 tt) by (unfold q_query, pq_eval; cbn [qq qw]; by rewrite Hnn, He1).
  destruct (IH s1 (fed_ready _ _ _ Hfed)) as (s' & Hrun & Hfed').
  exists s'. split; [done|]. by apply (fed_app s [_] s1).
Qed.

(** Leaves of a finished tree. *)
Definition leaf_done (n : kdnode) : Prop :=
  left n = None ∧ right n = None ∧ ioer_set n = true ∧ Forall (in_range mat) (ids n).

(** The order in which an unvisited subtree is worked through. *)
Fixpoint visit_order h t : list Z :=
  match t with
  | Leaf p => match h !! p with Some nd => ids nd | None => [] end
  | Node _ a b => visit_order h b ++ visit_order h a
  end.

Lemma visit_order_perm h t : visit_order h t ≡ₚ leaf_ids h t.
Proof. induction t as [p|p a IHa b IHb]; simpl; [done|]. rewrite IHa, IHb. apply Permutation_app_comm. Qed.

Lemma q_world_load s p nd : kheap (qw s) !! p = Some nd → q_world (wload (Some p)) s = (s, Ok nd).
Proof. intros Hp. unfold q_world. rewrite (wload_ok _ _ _ Hp). by destruct s. Qed.

Lemma push_child_new s p nd C vis :
  kheap (qw s) !! p = Some nd → p ∉ C → push_child (Some p) C vis s = (s, Ok (p :: vis)).
Proof. intros Hp Hn. unfold push_child. rewrite decide_False by done. by rewrite (mbind_ok _ _ _ _ _ (q_world_load _ _ _ Hp)). Qed.
Lemma push_child_old s p C vis : p ∈ C → push_child (Some p) C vis s = (s, Ok vis).
Proof. intros Hp. unfold push_child. by rewrite decide_True. Qed.

Abbreviation locset t := (list_to_set (klocs t) : gset loc).

Lemma search_step_leaf s p nd :
  length qs = mcols mat → kheap (qw s) !! p = Some nd → leaf_done nd → query_ready s →
  ∃ s', fed s (dist_list (ids nd)) s' ∧ ∀ C rest fuel,
    search_loop (S fuel) tid (p :: rest) C s = search_loop fuel tid rest ({[p]} ∪ C) s'.
Proof.
  intros Hq Hp (Hl & Hr & Hi & Hall) Hrd. cbn [search_loop Stack.empty Stack.pop].
  destruct (scan_leaf_spec nd (ivec (data_index nd)) s Hq Hi Hrd) as (s' & Hrun & Hfed).
  { apply (Forall_fmap iv_index (in_range mat)). exact Hall. }
  exists s'. split; [exact Hfed|]. intros C rest fuel.
  rewrite (mbind_ok (mlift (Ok _)) _ _ _ _ eq_refl). cbn [fst snd].
  rewrite (mbind_ok _ _ _ _ _ (q_world_load _ _ _ Hp)). unfold has_child. rewrite Hl, Hr. cbn [negb].
  by rewrite (mbind_ok _ _ _ _ _ Hrun).
Qed.

Lemma search_step_inner s p nd l r C vis1 vis2 rest fuel :
  kheap (qw s) !! p = Some nd → left nd = Some l → right nd = Some r →
  push_child (Some l) C rest s = (s, Ok vis1) → push_child (Some r) C vis1 s = (s, Ok vis2) →
  search_loop (S fuel) tid (p :: rest) C s = search_loop fuel tid vis2 ({[p]} ∪ C) s.
Proof.
  intros Hp Hl Hr H1 H2. cbn [search_loop Stack.empty Stack.pop].
  rewrite (mbind_ok (mlift (Ok _)) _ _ _ _ eq_refl). cbn [fst snd].
  rewrite (mbind_ok _ _ _ _ _ (q_world_load _ _ _ Hp)). unfold has_child. rewrite Hl, Hr. cbn [negb].
  by rewrite (mbind_ok _ _ _ _ _ H1), (mbind_ok _ _ _ _ _ H2).
Qed.

(** A subtree none of whose nodes is completed is worked through entirely. *)
Lemma search_subtree t s C :
  length qs = mcols mat → NoDup (klocs t) → kd_ok mat leaf_done (kheap (qw s)) t →
  C ## locset t → query_ready s →
  ∃ s', fed s (dist_list (visit_order (kheap (qw s)) t)) s' ∧
    ∀ fuel rest, search_loop (length (klocs t) + fuel) tid (kroot t :: rest) C s
      = search_loop fuel tid rest (locset t ∪ C) s'.
Proof.
  intros Hq. revert s C. induction t as [p|p a IHa b IHb]; intros s C Hnd Hok HC Hrd.
  - destruct Hok as (nd & Hp & Hld). cbn [visit_order kroot klocs length]. rewrite Hp.
    destruct (search_step_leaf s p nd Hq Hp Hld Hrd) as (s' & Hfed & Hstep).
    exists s'. split; [done|]. intros fuel rest. cbn [Nat.add]. rewrite Hstep. f_equal. set_solver.
  - destruct Hok as ((nd & na & nb & Hp & Hl & Hr & Ha & Hb & _) & Hoka & Hokb).
    cbn [klocs] in Hnd, HC. apply NoDup_cons in Hnd as [Hpn (Hnda & Hdisj & Hndb)%NoDup_app].
    pose proof (kroot_klocs a) as Hka. pose proof (kroot_klocs b) as Hkb.
    destruct (IHb s ({[p]} ∪ C)) as (s1 & Hf1 & Hrun1); [done|done|set_solver|done|].
    destruct (IHa s1 (locset b ∪ ({[p]} ∪ C))) as (s2 & Hf2 & Hrun2);
      [done|by rewrite (fed_heap _ _ _ Hf1)|set_solver|by eapply fed_ready|].
    exists s2. split.
    { cbn [visit_order]. unfold dist_list. rewrite map_app. eapply fed_app; [exact Hf1|].
      by rewrite <-(fed_heap _ _ _ Hf1). }
    intros fuel rest. cbn [klocs kroot length]. rewrite length_app.
    replace (S (length (klocs a) + length (klocs b)) + fuel)
      with (S (length (klocs b) + (length (klocs a) + fuel))) by lia.
    rewrite (search_step_inner s p nd (kroot a) (kroot b) C (kroot a :: rest) (kroot b :: kroot a :: rest))
      by (done || (eapply push_child_new; [eassumption|set_solver])).
    rewrite Hrun1, Hrun2. f_equal. set_solver.
Qed.

(** The way down: which child the query takes. *)
Definition goes_right h (p : loc) : bool :=
  match h !! p with Some nd => fgt (qs !!! Z.to_nat (split_dim nd)) (comparator nd) | None => false end.

Fixpoint path_stack h t : list loc :=
  match t with
  | Leaf p => [p]
  | Node p a b => (if goes_right h p then path_stack h b else path_stack h a) ++ [p]
  end.
Fixpoint path_order h t : list Z :=
  match t with
  | Leaf p => match h !! p with Some nd => ids nd | None => [] end
  | Node p a b =>
      if goes_right h p then path_order h b ++ visit_order h a else path_order h a ++ visit_order h b
  end.

Lemma path_order_perm h t : path_order h t ≡ₚ leaf_ids h t.
Proof.
  induction t as [p|p a IHa b IHb]; simpl; [done|]. destruct (goes_right h p).
  - rewrite IHb, visit_order_perm. apply Permutation_app_comm.
  - by rewrite IHa, visit_order_perm.
Qed.

Lemma search_path t s C :
  length qs = mcols mat → NoDup (klocs t) → kd_ok mat leaf_done (kheap (qw s)) t →
  C ## locset t → query_ready s →
  ∃ s', fed s (dist_list (path_order (kheap (qw s)) t)) s' ∧
    ∀ fuel rest, search_loop (length (klocs t) + fuel) tid (path_stack (kheap (qw s)) t ++ rest) C s
      = search_loop fuel tid rest (locset t ∪ C) s'.
Proof.
  intros Hq. revert s C. induction t as [p|p a IHa b IHb]; intros s C Hnd Hok HC Hrd.
  - exact (search_subtree (Leaf p) s C Hq Hnd Hok HC Hrd).
  - destruct Hok as ((nd & na & nb & Hp & Hl & Hr & Ha & Hb & _) & Hoka & Hokb).
    cbn [klocs] in Hnd, HC. apply NoDup_cons in Hnd as [Hpn (Hnda & Hdisj & Hndb)%NoDup_app].
    pose proof (kroot_klocs a) as Hka. pose proof (kroot_klocs b) as Hkb.
    cbn [path_order path_stack klocs length].
    destruct (goes_right (kheap (qw s)) p).
    + destruct (IHb s C) as (s1 & Hf1 & Hrun1); [done|done|set_solver|done|].
      pose proof (fed_heap _ _ _ Hf1) as Hh.
      destruct (search_subtree a s1 ({[p]} ∪ (locset b ∪ C))) as (s2 & Hf2 & Hrun2);
        [done|done|by rewrite Hh|set_solver|by eapply fed_ready|].
      exists s2. split.
      { unfold dist_list. rewrite map_app. eapply fed_app; [exact Hf1|]. by rewrite <-Hh. }
      intros fuel rest. rewrite length_app.
      replace (S (length (klocs a) + length (klocs b)) + fuel)
        with (length (klocs b) + S (length (klocs a) + fuel)) by lia.
      rewrite <-app_assoc, Hrun1. cbn [app].
      rewrite (search_step_inner s1 p nd (kroot a) (kroot b) _ (kroot a :: rest) (kroot a :: rest)).
      * rewrite Hrun2. f_equal. set_solver.
      * by rewrite Hh.
      * done.
      * done.
      * eapply push_child_new; [by rewrite Hh|set_solver].
      * apply push_child_old. set_solver.
    + destruct (IHa s C) as (s1 & Hf1 & Hrun1); [done|done|set_solver|done|].
      pose proof (fed_heap _ _ _ Hf1) as Hh.
      destruct (search_subtree b s1 ({[p]} ∪ (locset a ∪ C))) as (s2 & Hf2 & Hrun2);
        [done|done|by rewrite Hh|set_solver|by eapply fed_ready|].
      exists s2. split.
      { unfold dist_list. rewrite map_app. eapply fed_app; [exact Hf1|]. by rewrite <-Hh. }
      intros fuel rest. rewrite length_app.
      replace (S (length (klocs a) + length (klocs b)) + fuel)
        with (length (klocs a) + S (length (klocs b) + fuel)) by lia.
      rewrite <-app_assoc, Hrun1. cbn [app].
      rewrite (search_step_inner s1 p nd (kroot a) (kroot b) _ rest (kroot b :: rest)).
      * rewrite Hrun2. f_equal. set_solver.
      * by rewrite Hh.
      * done.
      * done.
      * apply push_child_old. set_solver.
      * eapply push_child_new; [by rewrite Hh|set_solver].
Qed.

Lemma descend_spec t s fuel vis :
  length qs = mcols mat → kd_ok mat leaf_done (kheap (qw s)) t →
  (∀ p nd, p ∈ klocs t → kheap (qw s) !! p = Some nd → (0 ≤ split_dim nd < Z.of_nat (mcols mat))%Z) →
  qsample (qq s) = Some qs → length (klocs t) < fuel →
  descend_loop fuel (Some (kroot t)) vis s = (s, Ok (path_stack (kheap (qw s)) t ++ vis)).
Proof.
  intros Hq Hok Hsd Hqs. revert fuel vis. induction t as [p|p a IHa b IHb]; intros fuel vis Hf;
    (destruct fuel as [|fuel]; [simpl in Hf; lia|]); cbn [descend_loop kroot].
  - destruct Hok as (nd & Hp & Hl & Hr & _). rewrite (mbind_ok _ _ _ _ _ (q_world_load _ _ _ Hp)).
    rewrite (mbind_ok _ _ _ _ _ eq_refl : mbind' mget _ _ = _).
    unfold pq_at, DenseVector.at_. rewrite Hqs.
    destruct (lookup_lt_is_Some_2 qs (Z.to_nat (split_dim nd))) as [x Hx].
    { specialize (Hsd p nd ltac:(simpl; left) Hp). lia. }
    rewrite Hx, (mbind_ok (mlift (Ok _)) _ _ _ _ eq_refl), Hl, Hr. by destruct (fgt _ _).
  - destruct Hok as ((nd & na & nb & Hp & Hl & Hr & Ha & Hb & _) & Hoka & Hokb).
    rewrite (mbind_ok _ _ _ _ _ (q_world_load _ _ _ Hp)).
    rewrite (mbind_ok _ _ _ _ _ eq_refl : mbind' mget _ _ = _).
    unfold pq_at, DenseVector.at_. rewrite Hqs.
    destruct (lookup_lt_is_Some_2 qs (Z.to_nat (split_dim nd))) as [x Hx].
    { specialize (Hsd p nd ltac:(simpl; left) Hp). lia. }
    rewrite Hx, (mbind_ok (mlift (Ok _)) _ _ _ _ eq_refl), Hl, Hr.
    cbn [path_stack klocs length] in *. unfold goes_right. rewrite Hp, (list_lookup_total_correct _ _ _ Hx).
    rewrite length_app in Hf. rewrite <-app_assoc. cbn [app]. destruct (fgt x (comparator nd)).
    + apply IHb; [done| |lia]. intros q n Hin. apply Hsd. set_solver.
    + apply IHa; [done| |lia]. intros q n Hin. apply Hsd. set_solver.
Qed.

Lemma kd_ok_size P h t : NoDup (klocs t) → kd_ok mat P h t → length (klocs t) ≤ base.size h.
Proof.
  intros Hnd Hok. rewrite <-size_dom, <-(size_list_to_set (C:=gset loc)) by done.
  apply subseteq_size. intros p Hp%elem_of_list_to_set. apply elem_of_dom. by eapply kd_ok_elem.
Qed.

(** [find_neighbors] completes every node and feeds every sample once. *)
Lemma find_neighbors_spec kp t s :
  prog_tree_id (kprog kp) = tid → prog_root (kprog kp) = Some (kroot t) →
  length qs = mcols mat → NoDup (klocs t) → kd_ok mat leaf_done (kheap (qw s)) t →
  (∀ p nd, p ∈ klocs t → kheap (qw s) !! p = Some nd → (0 ≤ split_dim nd < Z.of_nat (mcols mat))%Z) →
  query_ready s →
  ∃ s' order, find_neighbors kp s = (s', Ok (mkKP (kprog kp) (locset t))) ∧
    fed s (dist_list order) s' ∧ order ≡ₚ leaf_ids (kheap (qw s)) t.
Proof.
  intros Htid Hroot Hq Hnd Hok Hsd Hrd. unfold find_neighbors.
  rewrite (mbind_ok _ _ _ _ _ eq_refl : mbind' mget _ _ = _), Hroot, Htid.
  pose proof (kd_ok_size _ _ _ Hnd Hok) as Hsz.
  rewrite (mbind_ok _ _ _ _ _ (descend_spec t s (S (base.size (kheap (qw s)))) [] Hq Hok Hsd (qr_sample _ Hrd) ltac:(lia))).
  destruct (search_path t s ∅ Hq Hnd Hok) as (s' & Hf & Hrun); [set_solver|done|].
  exists s', (path_order (kheap (qw s)) t). split_and!; [|done|apply path_order_perm].
  replace (S (base.size (kheap (qw s)))) with
    (length (klocs t) + S (base.size (kheap (qw s)) - length (klocs t))) by lia.
  erewrite mbind_ok by (rewrite Hrun; reflexivity). unfold mret. do 4 f_equal. set_solver.
Qed.
End query_specs.

(** ** Properties *)

(** C3. [kdTreeProgram::find_neighbors] searches the whole tree: for a tree in the
    heap whose inner nodes have two children, whose leaves hold row numbers of the
    matrix and whose split dimensions are columns of it, and for a query of the
    matrix's width that has a result list for the tree ([query_ready]), it
    terminates within the fuel given by the heap, marks exactly the nodes of
    the tree as completed, leaves the nodes unchanged, and calls [eval] once for
    every sample of every leaf, with the sample's distance to the query. *)
Theorem kd_query_complete {I} `{MatrixIO I} mat qs tid kp t (s : qst I) :
  prog_tree_id (kprog kp) = tid → prog_root (kprog kp) = Some (kroot t) →
  length qs = mcols mat → NoDup (klocs t) → kd_ok mat (leaf_done mat) (kheap (qw s)) t →
  (∀ p nd, p ∈ klocs t → kheap (qw s) !! p = Some nd → (0 ≤ split_dim nd < Z.of_nat (mcols mat))%Z) →
  query_ready mat qs tid s →
  ∃ s' nn nn' order, find_neighbors kp s = (s', Ok (mkKP (kprog kp) (list_to_set (klocs t)))) ∧
    kheap (qw s') = kheap (qw s) ∧
    result (qq s) !! Z.to_nat tid = Some nn ∧ result (qq s') !! Z.to_nat tid = Some nn' ∧
    order ≡ₚ leaf_ids (kheap (qw s)) t ∧
    eval_all (map (λ i, mkIV i (dist_to mat qs i)) order) nn = (nn', Ok tt).
Proof.
  intros Hid Hr Hq Hnd Hok Hsd Hrd.
  destruct (find_neighbors_spec mat qs tid kp t s Hid Hr Hq Hnd Hok Hsd Hrd) as (s' & order & Hrun & Hfed & Hp).
  pose proof (fed_heap _ _ _ _ _ _ Hfed) as Hh. destruct Hfed as (io' & nn & nn' & H1 & H2 & -> & _).
  eexists _, nn, nn', order. split_and!; try done. cbn.
  by rewrite list_lookup_insert_eq by (by eapply lookup_lt_Some).
Qed.

(** *** Witness *)

Definition ex_leaf (i : Z) : kdnode :=
  mkKd (mkIVec [mkIV i fzero] false) [0%Z] fzero 1 true None None None None 0.
Definition ex_inner : kdnode :=
  mkKd (mkIVec [mkIV 0 (of_int 0); mkIV 1 (of_int 2)] false) [0%Z] (of_int 2) 0 true None None
    (Some 2%positive) (Some 3%positive) 0.
Definition ex_heap : gmap loc kdnode :=
  {[1%positive := ex_inner; 2%positive := ex_leaf 0; 3%positive := ex_leaf 1]}.
Definition ex_tree : ktree := Node 1%positive (Leaf 2%positive) (Leaf 3%positive).
Definition ex_kp : kdTreeProgram :=
  mkKP (mkProg 0 0 "m.bin" 2 2 1 0 (Some 1%positive) (Scheduler_ctor 2 1 0 1)) ∅.
Definition ex_query : qst MemoryIO.t :=
  mkQS (mkWorld ex_heap ex_mem) (ProximityQuery_ctor [of_int 7; of_int 7] 1 1).

Lemma ex_tree_ok : kd_ok ex_mat (leaf_done ex_mat) ex_heap ex_tree.
Proof.
  split; [|split].
  - exists ex_inner, (ex_leaf 0), (ex_leaf 1). split_and!; try reflexivity.
    split; try done; try (simpl; lia).
    + apply Forall_singleton. by vm_compute.
    + apply Forall_singleton. by vm_compute.
  - exists (ex_leaf 0). split; [reflexivity|]. split_and!; try reflexivity.
    apply Forall_singleton. unfold in_range. simpl. lia.
  - exists (ex_leaf 1). split; [reflexivity|]. split_and!; try reflexivity.
    apply Forall_singleton. unfold in_range. simpl. lia.
Qed.

Lemma ex_query_ready : query_ready ex_mat [of_int 7; of_int 7] 0 ex_query.
Proof.
  split; [exact ex_mem_repr|reflexivity|]. exists (NNVector_ctor 1), []. split; [reflexivity|].
  rewrite take_nil. apply nn_rep_ctor. lia.
Qed.

Lemma kd_query_complete_witness :
  ∃ s', find_neighbors ex_kp ex_query
    = (s', Ok (mkKP (kprog ex_kp) {[1%positive; 2%positive; 3%positive]})).
Proof.
  destruct (kd_query_complete ex_mat [of_int 7; of_int 7] 0 ex_kp ex_tree ex_query) as (s' & nn & nn' & order & Hrun & _).
  - reflexivity.
  - reflexivity.
  - reflexivity.
  - apply (bool_decide_unpack _). vm_compute. exact I.
  - exact ex_tree_ok.
  - intros p nd Hp Hnd. simpl in Hp. rewrite !elem_of_cons in Hp.
    destruct Hp as [->|[->|[->|Hp]]]; [..|by apply elem_of_nil in Hp]; vm_compute in Hnd; injection Hnd as <-; simpl; lia.
  - exact ex_query_ready.
  - exists s'. rewrite Hrun. f_equal.
Defined.
