(* ===== verification/Forest.v ===== *)
(** * The whole program: create, initialise, train, query

    The specifications of the parts put together: a [ComputeEngine] over an
    in-memory matrix, whose trees get their roots from the driver, are trained
    and then queried, answers with the exact [k] nearest neighbours. *)
From S2P Require Import Prelude DataT Types NNVector TreeHeap BinaryTree KNN Stream IO.
From S2P Require Import Containers Nodes Scheduler Build KdTree.
From stdpp Require Import options.

(** ** Trees in a changing heap *)

Lemma kd_ok_ext mat (P : kdnode → Prop) h h' t :
  (∀ q, q ∈ klocs t → h' !! q = h !! q) → kd_ok mat P h t → kd_ok mat P h' t.
Proof.
  induction t as [p|p a IHa b IHb]; intros Hq; simpl.
  - intros (nd & Hp & ?). exists nd. rewrite Hq by (simpl; left). done.
  - intros ((nd & na & nb & Hp & Hl & Hr & Ha & Hb & Hs) & Hoka & Hokb).
    pose proof (kroot_klocs a). pose proof (kroot_klocs b).
    split_and!; [|apply IHa; [|done]|apply IHb; [|done]].
    + exists nd, na, nb. rewrite !Hq by (simpl; set_solver). done.
    + intros q Hin. apply Hq. simpl. set_solver.
    + intros q Hin. apply Hq. simpl. set_solver.
Qed.

Lemma leaf_ids_ext h h' t : (∀ q, q ∈ klocs t → h' !! q = h !! q) → leaf_ids h' t = leaf_ids h t.
Proof.
  induction t as [p|p a IHa b IHb]; intros Hq; simpl; [by rewrite Hq by (simpl; left)|].
  f_equal; [apply IHa|apply IHb]; intros q Hin; apply Hq; simpl; set_solver.
Qed.

Lemma kd_ok_split_dim mat md L h t p nd :
  kd_ok mat (runok mat md L) h t → p ∈ klocs t → h !! p = Some nd →
  (0 ≤ split_dim nd < Z.of_nat (mcols mat))%Z.
Proof.
  induction t as [q|q a IHa b IHb]; simpl.
  - intros (nd' & Hq & Hr) ->%list_elem_of_singleton Hp. rewrite Hp in Hq. injection Hq as <-. apply Hr.
  - intros ((nd' & na & nb & Hq & _ & _ & _ & _ & Hs) & Ha & Hb). rewrite elem_of_cons, elem_of_app.
    intros [->|[Hin|Hin]] Hp; [|by apply IHa|by apply IHb]. rewrite Hp in Hq. injection Hq as <-. apply Hs.
Qed.

Section forest.
Context {I : Type} `{MatrixIO I} (par_sort seq_sort : StdSort) (junk : data_t) (junk_dim : Z).
Context (mat : matrix) (md : nat).
Implicit Types (h : gmap loc kdnode) (w : world I) (kp : kdTreeProgram) (t : ktree).

(** ** Training *)

(** A program that has a root and has not been trained. *)
Record untrained (i : Z) kp : Prop := {
  ut_id : prog_tree_id (kprog kp) = i;
  ut_depth : prog_max_depth (kprog kp) = Z.of_nat md;
  ut_idle : idle (prog_sched (kprog kp));
  ut_fanout : Scheduler.fanout (prog_sched (kprog kp)) = 2%Z;
  ut_level : current_level (prog_sched (kprog kp)) = 0;
  ut_nodes : nodes (prog_sched (kprog kp)) = []
}.

Definition rooted h kp (r : loc) : Prop :=
  prog_root (kprog kp) = Some r ∧ ∃ nd, h !! r = Some nd ∧ fresh_root mat nd.

(** A trained program and its tree. *)
Record trained (i : Z) h kp t : Prop := {
  td_id : prog_tree_id (kprog kp) = i;
  td_root : prog_root (kprog kp) = Some (kroot t);
  td_complete : complete md t;
  td_nodup : NoDup (klocs t);
  td_ok : kd_ok mat (leaf_done mat) h t;
  td_split : ∀ p nd, p ∈ klocs t → h !! p = Some nd → (0 ≤ split_dim nd < Z.of_nat (mcols mat))%Z;
  td_ids : leaf_ids h t ≡ₚ all_samples mat
}.

Lemma trained_ext i h h' kp t :
  (∀ q, q ∈ klocs t → h' !! q = h !! q) → trained i h kp t → trained i h' kp t.
Proof.
  intros Hq [H1 H2 H3 H4 H5 H6 H7]. split; try done.
  - by apply kd_ok_ext with h.
  - intros p nd Hp. rewrite Hq by done. by apply H6.
  - by rewrite (leaf_ids_ext h h').
Qed.

Lemma prog_build_spec i kp r w :
  sizes_ok mat md → 2 ^ md ≤ mrows mat → io_repr (wio w) mat →
  untrained i kp → rooted (kheap w) kp r →
  ∃ w' kp' t, prog_build par_sort seq_sort junk junk_dim (S md) kp w = (w', Ok kp') ∧
    io_repr (wio w') mat ∧ trained i (kheap w') kp' t ∧ framed (kheap w) (kheap w') (Leaf r) t.
Proof.
  intros Hs Hsz Hio [] [Hroot (nd & Hr & Hfr)]. unfold prog_build. rewrite Hroot, ut_depth0.
  destruct (build_spec par_sort seq_sort junk junk_dim mat md (S md) (mkEngine w (prog_sched (kprog kp))) r nd)
    as (e' & t & Hrun & Hld & Hk & Hids & Hfm); try done; [lia|].
  rewrite Hrun. do 2 eexists. exists t. split_and!; [reflexivity|apply Hld| |exact Hfm].
  pose proof Hld as []. split; try done.
  - cbn. by rewrite Hk.
  - eapply kd_ok_impl; [|done]. intros n [Hd Hl Hrt Hi _ _ Hv _ _]. split_and!; try done.
    apply Forall_fmap. eapply Forall_impl; [exact Hv|]. by intros iv [? _].
  - intros p n. by eapply kd_ok_split_dim.
Qed.

Lemma build_all_spec ts rs w i :
  sizes_ok mat md → 2 ^ md ≤ mrows mat → io_repr (wio w) mat →
  (∀ j kp, ts !! j = Some kp → untrained (i + Z.of_nat j) kp) →
  Forall2 (rooted (kheap w)) ts rs → NoDup rs →
  ∃ w' ts' tt, build_all par_sort seq_sort junk junk_dim (S md) ts w = (w', Ok ts') ∧
    io_repr (wio w') mat ∧ length ts' = length ts ∧ length tt = length ts ∧
    (∀ j kp t, ts' !! j = Some kp → tt !! j = Some t → trained (i + Z.of_nat j) (kheap w') kp t) ∧
    (∀ q, q ∈ dom (kheap w) → q ∉ rs → kheap w' !! q = kheap w !! q).
Proof.
  intros Hs Hsz. revert rs w i. induction ts as [|kp ts IH]; intros rs w i Hio Hut Hrt Hnd.
  { exists w, [], []. by split_and!. }
  apply Forall2_cons_inv_l in Hrt as (r & rs' & Hr & Hrt & ->). apply NoDup_cons in Hnd as [Hrn Hnd].
  destruct (prog_build_spec i kp r w Hs Hsz Hio) as (w1 & kp' & t & Hrun & Hio1 & Htr & [Hdom Hsame Hnew]);
    [specialize (Hut 0 kp eq_refl); by rewrite Z.add_0_r in Hut|done|].
  assert (∀ q, q ∈ rs' → q ∈ dom (kheap w) ∧ q ≠ r) as Hrs.
  { intros q Hq. split; [|by intros ->]. apply list_elem_of_lookup in Hq as [j Hj].
    destruct (Forall2_lookup_r _ _ _ _ _ Hrt Hj) as (kq & _ & _ & nd & Hqd & _). by apply elem_of_dom; eexists. }
  destruct (IH rs' w1 (i + 1)%Z Hio1) as (w2 & ts2 & tt2 & Hrun2 & Hio2 & Hl2 & Hlt2 & Htr2 & Hfr2); [..|done|].
  { intros j kq Hj. specialize (Hut (S j) kq Hj). replace (i + 1 + Z.of_nat j)%Z with (i + Z.of_nat (S j))%Z by lia. done. }
  { eapply Forall2_impl; [apply Forall2_same_length_lookup_2; [by eapply Forall2_length|]|].
    - intros j kq q Hkq Hq. exact (conj (Forall2_lookup_lr _ _ _ _ _ _ Hrt Hkq Hq)
        (Hrs q (list_elem_of_lookup_2 _ _ _ Hq))).
    - intros kq q [(H1 & nd & H2 & H3) [H4 H5]]. split; [done|]. exists nd. split; [|done].
      rewrite Hsame; [done|done|]. by intros ->%list_elem_of_singleton. }
  exists w2, (kp' :: ts2), (t :: tt2). split_and!; try (by simpl; lia).
  - cbn [build_all]. by rewrite (mbind_ok _ _ _ _ _ Hrun), (mbind_ok _ _ _ _ _ Hrun2).
  - done.
  - intros [|j] kq tq Hk Ht; simpl in Hk, Ht.
    + injection Hk as <-. injection Ht as <-. rewrite Z.add_0_r. eapply trained_ext; [|exact Htr].
      intros q Hq. apply Hfr2.
      * apply elem_of_dom. eapply kd_ok_elem; [apply Htr|done].
      * intros Hin. destruct (Hrs q Hin) as [Hd Hne]. destruct (Hnew q Hq) as [?%list_elem_of_singleton|?]; done.
    + replace (i + Z.of_nat (S j))%Z with (i + 1 + Z.of_nat j)%Z by lia. by apply Htr2.
  - intros q Hq Hn. rewrite Hfr2; [|by apply Hdom|set_solver]. apply Hsame; [done|]. set_solver.
Qed.

(** ** Roots *)

Lemma of_to_tnode n : of_tnode (to_tnode n) = n.
Proof. by destruct n. Qed.
Lemma view_roundtrip h : of_tnode <$> (to_tnode <$> h) = h.
Proof.
  apply map_eq. intros q. rewrite !lookup_fmap. destruct (h !! q) as [n|]; [|done]. cbn. by rewrite of_to_tnode.
Qed.

(** Setting the root of an empty tree. *)
Lemma prog_set_root_spec w p r nd :
  prog_root p = None → kheap w !! r = Some nd →
  prog_set_root (Some r) p w
    = (mkWorld (<[r := of_tnode (mkT (set_ioer true nd) None None None)]> (kheap w)) (wio w),
       Ok (prog_set_tree (Some r) (prog_depth p) p)).
Proof.
  intros Hroot Hr. unfold prog_set_root. rewrite bool_decide_true by done.
  rewrite (mbind_ok (massert true) _ _ _ _ eq_refl). erewrite mbind_ok by (by apply wupd_ok). cbn [kheap wio].
  set (h1 := <[r := set_ioer true nd]> (kheap w)).
  assert (BinaryTree.set_root comparator (Some r) (tree_view p h1)
    = (mkTree (Some r) (prog_depth p) (<[r := mkT (set_ioer true nd) None None None]> (to_tnode <$> h1)), Ok tt)) as ->.
  { unfold BinaryTree.set_root, BinaryTree.insert. rewrite bool_decide_true by done.
    rewrite (mbind_ok (massert true) _ _ _ _ eq_refl), (mbind_ok _ _ _ _ _ eq_refl : mbind' mget _ _ = _).
    cbn [tree_view root theap find_parent]. rewrite Hroot. cbn [find_parent].
    rewrite (mbind_ok (mret None) _ _ _ _ eq_refl).
    rewrite (mbind_ok _ _ _ _ _ eq_refl : mbind' (set_root_m _) _ _ = _).
    rewrite (link_root_spec _ r (to_tnode (set_ioer true nd))); [done|].
    cbn. unfold h1. by rewrite lookup_fmap, lookup_insert_eq. }
  cbn [theap root TreeHeap.depth]. rewrite fmap_insert, view_roundtrip. unfold h1. by rewrite insert_insert_eq.
Qed.

Lemma init_roots_spec ts w c i :
  cunsigned_wf c → cmax c = Z.of_nat (mcols mat) →
  (∀ j kp, ts !! j = Some kp → untrained (i + Z.of_nat j) kp ∧ prog_root (kprog kp) = None) →
  ∃ w' ts' rs, init_roots junk junk_dim c ts w = (w', Ok ts') ∧ wio w' = wio w ∧
    length ts' = length ts ∧
    (∀ j kp, ts' !! j = Some kp → untrained (i + Z.of_nat j) kp) ∧
    Forall2 (rooted (kheap w')) ts' rs ∧ NoDup rs ∧ Forall (λ r, r ∉ dom (kheap w)) rs ∧
    (∀ q, q ∈ dom (kheap w) → kheap w' !! q = kheap w !! q).
Proof.
  revert w c i. induction ts as [|kp ts IH]; intros w c i Hc Hm Hts.
  { exists w, [], []. split_and!; try done; constructor. }
  cbn [init_roots]. rewrite (mbind_ok _ _ _ _ _ (wnew_ok _ _)).
  pose proof (is_fresh (dom (kheap w))) as Hfr. set (r := fresh (dom (kheap w))) in *. clearbody r.
  do 2 (erewrite mbind_ok by (apply wupd_ok; cbn [kheap]; apply lookup_insert_eq); cbn [kheap wio]; rewrite insert_insert_eq).
  destruct (Hts 0 kp eq_refl) as [Hut Hnr]. rewrite Z.add_0_r in Hut.
  erewrite mbind_ok by (apply prog_set_root_spec; [done|cbn [kheap]; apply lookup_insert_eq]).
  cbn [kheap wio]. rewrite insert_insert_eq.
  set (nd := of_tnode _). set (w1 := mkWorld (<[r := nd]> (kheap w)) (wio w)).
  destruct (IH w1 (inc c).1 (i + 1)%Z) as (w' & ts' & rs & Hrun & Hwio & Hlen & Hut' & Hrt & Hnd & Hfresh & Hsame).
  { rewrite inc_spec by done. destruct Hc as [Hc1 Hc2]. cbn. split; cbn [cval cmax]; [|done].
    apply Z.mod_pos_bound. lia. }
  { by rewrite inc_spec. }
  { intros j kq Hj. specialize (Hts (S j) kq Hj).
    by replace (i + 1 + Z.of_nat j)%Z with (i + Z.of_nat (S j))%Z by lia. }
  assert (dom (kheap w1) = {[r]} ∪ dom (kheap w)) as Hd1 by (unfold w1; cbn [kheap]; apply dom_insert_L).
  rewrite Hd1 in *.
  exists w'. eexists. exists (r :: rs). split_and!.
  - rewrite (mbind_ok _ _ _ _ _ Hrun). reflexivity.
  - done.
  - simpl. lia.
  - intros [|j] kq Hj; simpl in Hj.
    + injection Hj as <-. rewrite Z.add_0_r. by destruct Hut.
    + specialize (Hut' j kq Hj). by replace (i + Z.of_nat (S j))%Z with (i + 1 + Z.of_nat j)%Z by lia.
  - constructor; [|done]. split; [done|]. exists nd. rewrite Hsame by set_solver.
    unfold w1. cbn [kheap]. split; [apply lookup_insert_eq|]. destruct Hc as [Hc1 Hc2].
    split; try done; [rewrite <-Hm; exact Hc1|cbn; unfold cget; by rewrite u32_small by lia].
  - apply NoDup_cons. split; [|done]. intros Hin. rewrite Forall_forall in Hfresh.
    apply (Hfresh r Hin). set_solver.
  - constructor; [done|]. eapply Forall_impl; [exact Hfresh|]. set_solver.
  - intros q Hq. rewrite Hsame by set_solver. unfold w1. cbn [kheap].
    rewrite lookup_insert_ne; [done|]. by intros ->.
Qed.

(** ** Querying *)

(** The list of a tree after a query. *)
Definition answered (qs : list data_t) (k : Z) (nn : NNVector) : Prop :=
  ∃ order, order ≡ₚ all_samples mat ∧
    eval_all (dist_list mat qs order) (NNVector_ctor k) = (nn, Ok tt).

Lemma query_all_spec qs k ts tt w q (i : nat) :
  length qs = mcols mat → 0 < mcols mat → (0 ≤ k < 2 ^ 32)%Z →
  io_repr (wio w) mat → qsample q = Some qs → length ts = length tt →
  (∀ j kp t, ts !! j = Some kp → tt !! j = Some t → trained (Z.of_nat (i + j)) (kheap w) kp t) →
  (∀ j, j < length ts → result q !! (i + j) = Some (NNVector_ctor k)) →
  ∃ w' q' ts', query_all ts (mkQS w q) = (mkQS w' q', Ok ts') ∧
    kheap w' = kheap w ∧ io_repr (wio w') mat ∧ length (result q') = length (result q) ∧
    (∀ j nn, j < length ts → result q' !! (i + j) = Some nn → answered qs k nn) ∧
    (∀ j, j < i → result q' !! j = result q !! j).
Proof.
  intros Hlq Hm Hk. revert tt w q i. induction ts as [|kp ts IH]; intros tt w q i Hio Hqs Hlen Htr Hres.
  { exists w, q, []. split_and!; try done. intros j nn Hj. simpl in Hj. lia. }
  destruct tt as [|t tt]; [done|]. cbn [query_all].
  pose proof (Htr 0 kp t eq_refl eq_refl) as Ht. rewrite Nat.add_0_r in Ht.
  pose proof (Hres 0 ltac:(simpl; lia)) as Hr0. rewrite Nat.add_0_r in Hr0.
  assert (query_ready mat qs (Z.of_nat i) (mkQS w q)) as Hrd.
  { split; [done|done|]. exists (NNVector_ctor k), []. cbn [qq]. rewrite Nat2Z.id. split; [done|].
    rewrite take_nil. by apply nn_rep_ctor. }
  destruct (find_neighbors_spec mat qs (Z.of_nat i) kp t (mkQS w q)) as (s1 & order & Hrun & Hfed & Hord);
    [apply Ht|apply Ht|done|apply Ht|apply Ht|apply Ht|done|].
  destruct Hfed as (io1 & nn & nn' & Hnn & Hev & -> & Hrd1). cbn [qq qw kheap] in *. rewrite Nat2Z.id in *.
  rewrite Hr0 in Hnn. injection Hnn as <-.
  assert (pq_run kp (mkQS w q) = (mkQS (mkWorld (kheap w) io1) (set_result (<[i:=nn']> (result q)) q),
    Ok (mkKP (kprog kp) (list_to_set (klocs t))))) as Hpq.
  { unfold pq_run. rewrite (mbind_ok _ _ _ _ _ eq_refl : mbind' mget _ _ = _). cbn [qq]. rewrite Hqs.
    destruct qs as [|x qs']; [simpl in Hlq; lia|]. cbn [DenseVector.empty negb].
    rewrite (mbind_ok (massert true) _ _ _ _ eq_refl). exact Hrun. }
  rewrite (mbind_ok _ _ _ _ _ Hpq).
  destruct (IH tt (mkWorld (kheap w) io1) (set_result (<[i:=nn']> (result q)) q) (S i)) as
    (w' & q' & ts' & Hrun' & Hh & Hio' & Hl' & Hans & Hold).
  - apply Hrd1.
  - done.
  - by injection Hlen.
  - intros j kq tq H1 H2. replace (S i + j) with (i + S j) by lia. by apply Htr.
  - intros j Hj. cbn [set_result result]. rewrite list_lookup_insert_ne by lia.
    replace (S i + j) with (i + S j) by lia. apply Hres. simpl. lia.
  - exists w', q'. eexists. cbn [set_result result kheap] in *. split_and!.
    + by rewrite (mbind_ok _ _ _ _ _ Hrun').
    + done.
    + done.
    + by rewrite Hl', length_insert.
    + intros [|j] n Hj Hn.
      * rewrite Nat.add_0_r, Hold, list_lookup_insert_eq in Hn by (lia || by eapply lookup_lt_Some).
        injection Hn as <-. exists order. split; [|done]. rewrite Hord. apply Ht.
      * apply (Hans j); [simpl in Hj; lia|]. by replace (S i + j) with (i + S j) by lia.
    + intros j Hj. rewrite Hold by lia. by rewrite list_lookup_insert_ne by lia.
Qed.
End forest.

(** ** Construction *)

Section construction.
Context (files : string → option (list Z)) (junk : data_t) (ji : Z) (p : Params).
Context (mat : matrix) (l : list data_t) (md : nat).

(** Parameters that describe a matrix stored in a file. *)
Record params_ok : Prop := {
  po_fn : fn p ≠ "";
  po_ext : get_file_ext (fn p) ≠ "fvecs";
  po_file : files (fn p) = Some (bytes_of l);
  po_rows : nsamples p = Z.of_nat (mrows mat);
  po_cols : nfeatures p = Z.of_nat (mcols mat);
  po_len : length l = mrows mat * mcols mat;
  po_valid : Forall valid_float l;
  po_holds : holds (orientation p) l mat;
  po_fanout : Types.fanout p = 2%Z;
  po_depth : max_depth p = Z.of_nat md;
  po_ntree : (0 < ntree p)%Z;
  po_nonempty : 0 < mrows mat
}.

Definition loaded : MemoryIO.t :=
  MemoryIO.mk (mkIO (fn p) (Some l) (orientation p) (mrows mat, mcols mat)) true.

Lemma loaded_repr : params_ok → io_repr loaded mat.
Proof. intros []. split; [done|]. by exists l. Qed.

Lemma configure_first : params_ok → configure_mem files junk ji p MemoryIO.MemoryIO_ctor = (loaded, Ok tt).
Proof.
  intros []. unfold configure_mem.
  do 3 rewrite (mbind_ok _ _ _ _ _ eq_refl : mbind' (mmodify _) _ _ = _). cbn.
  rewrite po_rows0, po_cols0, !Nat2Z.id. by apply from_file_spec.
Qed.

(** The later programs find the object configured. *)
Lemma configure_again : params_ok → configure_mem files junk ji p loaded = (loaded, Ok tt).
Proof.
  intros []. unfold configure_mem, loaded.
  assert (orientation p ≠ INVALID) as Ho by (destruct po_holds0 as [[-> | ->] _]; done).
  rewrite (mbind_ok _ _ _ _ _ eq_refl : mbind' (mmodify _) _ _ = _).
  unfold MemoryIO.set_fn. cbn [MemoryIO.base fn_]. rewrite decide_False by done.
  rewrite (mbind_ok _ _ _ _ _ eq_refl : mbind' (mmodify _) _ _ = _).
  unfold MemoryIO.set_orientation. cbn [MemoryIO.base orient]. rewrite decide_False by done.
  rewrite (mbind_ok _ _ _ _ _ eq_refl : mbind' (mmodify _) _ _ = _).
  unfold MemoryIO.set_shape. cbn [MemoryIO.base dim]. rewrite decide_False by (intros [=]; lia). done.
Qed.

Lemma ctor_untrained i :
  params_ok → ∃ prog, BinaryTreeProgram_ctor p i 0 = Ok prog ∧
    untrained md i (mkKP prog ∅) ∧ prog_root prog = None.
Proof.
  intros []. destruct (BinaryTreeProgram_ctor p i 0) as [prog|e] eqn:E.
  - destruct (ctor_sched p i 0 prog E) as (H1 & H2 & H3 & H4 & H5). exists prog.
    unfold BinaryTreeProgram_ctor, nworkers in E. rewrite po_fanout0 in E. cbn [Z.eqb Pos.eqb] in E.
    rewrite (proj2 (Z.eqb_neq _ _)) in E by lia. injection E as <-. split_and!; [done| |done].
    split; cbn [kprog]; try done.
  - unfold BinaryTreeProgram_ctor, nworkers in E. rewrite po_fanout0 in E. cbn [Z.eqb Pos.eqb] in E.
    by rewrite (proj2 (Z.eqb_neq _ _)) in E by lia.
Qed.

Lemma create_trees_spec n i io :
  params_ok → configure_mem files junk ji p io = (loaded, Ok tt) → 0 < n →
  ∃ ts, create_trees files junk ji p n i io = (loaded, Ok ts) ∧ length ts = n ∧
    (∀ j kp, ts !! j = Some kp → untrained md (i + Z.of_nat j) kp ∧ prog_root (kprog kp) = None).
Proof.
  intros Hp. revert i io. induction n as [|n IH]; intros i io Hio Hn; [lia|]. cbn [create_trees].
  rewrite (mbind_ok _ _ _ _ _ Hio). destruct (ctor_untrained i Hp) as (prog & -> & Hut & Hroot).
  rewrite (mbind_ok (mlift (Ok _)) _ _ _ _ eq_refl).
  destruct (decide (n = 0)) as [->|Hn0].
  - exists [mkKP prog ∅]. split_and!; [done|done|]. intros [|j] kp Hj; [|done]. injection Hj as <-.
    by rewrite Z.add_0_r.
  - destruct (IH (i + 1)%Z loaded (configure_again Hp) ltac:(lia)) as (ts & Hrun & Hlen & Hts).
    exists (mkKP prog ∅ :: ts). rewrite (mbind_ok _ _ _ _ _ Hrun). split_and!; [done|simpl; lia|].
    intros [|j] kp Hj; simpl in Hj.
    + injection Hj as <-. by rewrite Z.add_0_r.
    + replace (i + Z.of_nat (S j))%Z with (i + 1 + Z.of_nat j)%Z by lia. by apply Hts.
Qed.
End construction.

(** ** The reference answer *)

Lemma row_of_cells l mat r :
  holds ROW l mat → length l = mrows mat * mcols mat → r < mrows mat →
  take (mcols mat) (drop (r * mcols mat) l) = mrow mat r.
Proof.
  intros [_ Hc] Hl Hr. apply list_eq. intros c. unfold mrow.
  change (map (λ c, mentry mat r c)) with (fmap (M := list) (λ c, mentry mat r c)). rewrite list_lookup_fmap.
  destruct (decide (c < mcols mat)) as [Hcc|Hcc].
  - rewrite lookup_take_lt, lookup_drop, lookup_seq_lt by done. cbn. by apply (Hc r c).
  - rewrite lookup_take_ge by lia. by rewrite (lookup_ge_None_2 (seq 0 _)) by (rewrite length_seq; lia).
Qed.

Lemma dists_rows l mat qs n i :
  holds ROW l mat → length l = mrows mat * mcols mat → length qs = mcols mat →
  (Z.of_nat (mrows mat) < 2 ^ 32)%Z → i + n ≤ mrows mat →
  dists (mkBF l (mrows mat) (mcols mat)) qs n i = Ok (dist_list mat qs (map Z.of_nat (seq i n))).
Proof.
  intros Hh Hl Hq Hn. revert i. induction n as [|n IH]; intros i Hi; [done|]. cbn [dists bnfeatures bdata].
  unfold euclidean. rewrite euclidean_loop_take, (row_of_cells l mat i) by (done || lia).
  fold (euclidean qs (mrow mat i) (mcols mat)). pose proof (dist_to_ok mat qs (Z.of_nat i) Hq) as Hd.
  rewrite Nat2Z.id in Hd. rewrite Hd. cbn [rbind]. rewrite IH by lia. cbn [rbind].
  rewrite u32_small by lia. done.
Qed.

Lemma dist_list_perm mat qs a b : a ≡ₚ b → dist_list mat qs a ≡ₚ dist_list mat qs b.
Proof. apply Permutation_map. Qed.

(** An answered list is [==] to the brute-force answer. *)
Lemma answered_exact `{StdSort} ind mat rows qs k nn :
  holds ROW rows mat → length rows = mrows mat * mcols mat →
  Forall (λ x, is_finite x = true) rows → Forall (λ x, is_finite x = true) qs →
  length qs = mcols mat → (0 ≤ k < 2 ^ 32)%Z → Z.to_nat k < mrows mat → (Z.of_nat (mrows mat) < 2 ^ 32)%Z →
  answered mat qs k nn →
  ∃ v nn', getNN ind (mkBF rows (mrows mat) (mcols mat)) qs k = Ok v ∧ eq_IndexVector v nn = (nn', Ok true).
Proof.
  intros Hh Hl Hfr Hfq Hq Hk Hkn Hn (order & Hord & Hev).
  destruct (getNN_eval_agree ind (mkBF rows (mrows mat) (mcols mat)) qs k
    (dist_list mat qs (map Z.of_nat (seq 0 (mrows mat)))) (dist_list mat qs order)) as (v & s & s' & H1 & H2 & H3).
  - split_and!; cbn [bnsamples bnfeatures bdata]; [lia|lia|done|done].
  - done.
  - done.
  - by apply dists_rows.
  - by apply dist_list_perm.
  - rewrite Hev in H2. injection H2 as <-. by exists v, s'.
Qed.

(** ** Properties *)

(** C1. The program computes exact nearest neighbours.  For a file that holds an
    [n] by [m] matrix of finite values, row- or column-wise, parameters that
    describe it, a first split dimension below [m] and [2^max_depth <= n]:
    creating the [ComputeEngine], giving every tree its root, training, and
    running a [ProximityQuery] for [k < n] neighbours all succeed, and the
    answer of every tree of the forest is [==] to the answer of
    [BruteForcekNN::getNN] on the same matrix: what the driver asserts. *)
Theorem kd_forest_exact `{StdSort} par_sort seq_sort files junk ji junk_dim ind p mat l rows md split qs k :
  params_ok files p mat l md → sizes_ok mat md → 2 ^ md ≤ mrows mat → (Z.of_nat (mcols mat) < 2 ^ 32)%Z →
  (0 ≤ split < nfeatures p)%Z →
  holds ROW rows mat → length rows = mrows mat * mcols mat →
  Forall (λ x, is_finite x = true) rows → Forall (λ x, is_finite x = true) qs →
  length qs = mcols mat → (0 ≤ k < 2 ^ 15)%Z → Z.to_nat k < mrows mat →
  ∃ io e0 c w1 ts w2 e2 s e3 v,
    ComputeEngine_ctor files junk ji p MemoryIO.MemoryIO_ctor = (io, Ok e0) ∧
    cunsigned_ctor2 split (nfeatures p) = Ok c ∧
    init_roots junk junk_dim c (forest e0) (mkWorld ∅ io) = (w1, Ok ts) ∧
    train par_sort seq_sort junk junk_dim (S md) (mkCE ts (params e0)) w1 = (w2, Ok e2) ∧
    query e2 (mkQS w2 (ProximityQuery_ctor qs k (ntree p))) = (s, Ok e3) ∧
    getNN ind (mkBF rows (mrows mat) (mcols mat)) qs k = Ok v ∧
    length (getNNs (qq s)) = Z.to_nat (ntree p) ∧
    Forall (λ nn, ∃ nn', eq_IndexVector v nn = (nn', Ok true)) (getNNs (qq s)).
Proof.
  intros Hp Hs Hsz Hm32 Hsp Hh Hl Hfr Hfq Hq Hk Hkn. pose proof Hs as (_ & Hn & _).
  destruct (create_trees_spec files junk ji p mat l md (Z.to_nat (ntree p)) 0 MemoryIO.MemoryIO_ctor Hp)
    as (ts0 & Hc & Hl0 & Hu0); [by eapply configure_first|pose proof (po_ntree _ _ _ _ _ Hp); lia|].
  assert (ComputeEngine_ctor files junk ji p MemoryIO.MemoryIO_ctor = (loaded p mat l, Ok (mkCE ts0 p))) as Hce.
  { unfold ComputeEngine_ctor. by rewrite (mbind_ok _ _ _ _ _ Hc). }
  rewrite (po_cols _ _ _ _ _ Hp) in *.
  destruct (init_roots_spec junk junk_dim mat md ts0 (mkWorld ∅ (loaded p mat l)) (mkCU split (Z.of_nat (mcols mat))) 0)
    as (w1 & ts & rs & Hir & Hwio & Hl1 & Hu1 & Hrt & Hnd & _); [by split|done|done|].
  destruct (build_all_spec par_sort seq_sort junk junk_dim mat md ts rs w1 0)
    as (w2 & ts2 & tt & Hb & Hio2 & Hl2 & Hlt & Htr & _); try done.
  { rewrite Hwio. by eapply loaded_repr. }
  destruct (query_all_spec mat md qs k ts2 tt w2 (ProximityQuery_ctor qs k (ntree p)) 0)
    as (w3 & q' & ts3 & Hqa & _ & _ & Hlr & Hans & _); try done; try lia.
  { intros j Hj. cbn [ProximityQuery_ctor ProximityQuery_ctor2 result Nat.add]. rewrite u32_small by lia.
    apply lookup_replicate_2. lia. }
  cbn [ProximityQuery_ctor ProximityQuery_ctor2 result] in Hlr. rewrite length_replicate in Hlr.
  assert (Forall (answered mat qs k) (result q')) as Hall.
  { apply Forall_lookup. intros j nn Hj. apply (Hans j); [|done]. apply lookup_lt_Some in Hj. lia. }
  destruct (result q') as [|nn0 rest] eqn:Er; [pose proof (po_ntree _ _ _ _ _ Hp); simpl in Hlr; lia|].
  assert (∀ nn, answered mat qs k nn → ∃ v nn', getNN ind (mkBF rows (mrows mat) (mcols mat)) qs k = Ok v ∧
    eq_IndexVector v nn = (nn', Ok true)) as Hex.
  { intros nn. apply answered_exact; try done. lia. }
  destruct (Hex nn0) as (v & _ & Hv & _); [by apply Forall_cons in Hall as [? _]|].
  exists (loaded p mat l), (mkCE ts0 p), (mkCU split (Z.of_nat (mcols mat))), w1, ts, w2, (mkCE ts2 p), (mkQS w3 q'), (mkCE ts3 p), v. split_and!.
  - exact Hce.
  - unfold cunsigned_ctor2. rewrite (proj2 (Z.eqb_neq _ 0)) by lia. by rewrite (proj2 (Z.leb_gt _ _)) by lia.
  - exact Hir.
  - unfold train. cbn [forest params]. rewrite bool_decide_true
      by (rewrite Hl1, Hl0; pose proof (po_ntree _ _ _ _ _ Hp); lia).
    rewrite (mbind_ok (massert true) _ _ _ _ eq_refl). by rewrite (mbind_ok _ _ _ _ _ Hb).
  - unfold query. cbn [forest params]. by rewrite (mbind_ok _ _ _ _ _ Hqa).
  - done.
  - unfold getNNs. cbn [qq]. by rewrite Er.
  - unfold getNNs. cbn [qq]. rewrite Er. eapply Forall_impl; [exact Hall|]. intros nn Hnn.
    destruct (Hex nn Hnn) as (v' & nn' & Hv' & He). rewrite Hv in Hv'. injection Hv' as <-. by exists nn'.
Qed.

(** *** Witness *)

Lemma ex_params_ok :
  params_ok (λ _, Some (bytes_of ex_cells)) ex_params ex_mat ex_cells 1.
Proof.
  split; try done; try (simpl; lia).
  - repeat (apply Forall_cons_2; [split; reflexivity|]); apply Forall_nil_2.
  - split; [by left|]. all_cells.
Qed.

Lemma ex_sizes_ok : sizes_ok ex_mat 1.
Proof. split_and!; try (simpl; lia). intros [|[|r]] [|[|c]] ? ?; simpl in *; try lia; reflexivity. Qed.

Lemma kd_forest_exact_witness :
  ∃ io e0 c w1 ts w2 e2 s e3 v,
    ComputeEngine_ctor (λ _, Some (bytes_of ex_cells)) fzero 0 ex_params MemoryIO.MemoryIO_ctor = (io, Ok e0) ∧
    cunsigned_ctor2 1 2 = Ok c ∧
    init_roots fzero 0 c (forest e0) (mkWorld ∅ io) = (w1, Ok ts) ∧
    train isort_std_sort isort_std_sort fzero 0 2 (mkCE ts (params e0)) w1 = (w2, Ok e2) ∧
    query e2 (mkQS w2 (ProximityQuery_ctor [of_int 7; of_int 7] 1 1)) = (s, Ok e3) ∧
    getNN fzero (mkBF ex_cells 2 2) [of_int 7; of_int 7] 1 = Ok v ∧
    length (getNNs (qq s)) = 1 ∧
    Forall (λ nn, ∃ nn', eq_IndexVector v nn = (nn', Ok true)) (getNNs (qq s)).
Proof.
  apply (kd_forest_exact isort_std_sort isort_std_sort (λ _, Some (bytes_of ex_cells)) fzero 0 0 fzero
    ex_params ex_mat ex_cells ex_cells 1 1 [of_int 7; of_int 7] 1).
  - exact ex_params_ok.
  - exact ex_sizes_ok.
  - simpl; lia.
  - simpl; lia.
  - simpl; lia.
  - split; [by left|]. all_cells.
  - reflexivity.
  - repeat (apply Forall_cons_2; [reflexivity|]); apply Forall_nil_2.
  - repeat (apply Forall_cons_2; [reflexivity|]); apply Forall_nil_2.
  - reflexivity.
  - lia.
  - simpl; lia.
Defined.
