(* ===== verification/Barrier.v ===== *)
(** * Threads: [ThreadState.hpp], [WorkerThread.cpp] and the barrier of
      [Scheduler.cpp]

    One scheduler thread and a fixed number of workers run concurrently.  Every
    access to shared state (a lock, a state field, the atomic counter of pending
    threads, a queue, a condition variable) is one step; any thread that is not
    blocked may take the next one, and a thread that sleeps on a condition
    variable may also wake up spuriously, as POSIX allows. *)
From S2P Require Import Prelude.
From stdpp Require Import options.

(** ** [ThreadState] *)

Inductive ThreadState_t := TEST | BUILD | QUERY | WAIT | EXIT.

#[export] Instance ThreadState_eq_dec : EqDecision ThreadState_t.
Proof. solve_decision. Defined.

Definition str_to (s : ThreadState_t) : string :=
  match s with
  | TEST => "TEST" | BUILD => "BUILD" | QUERY => "QUERY" | WAIT => "WAIT" | EXIT => "EXIT"
  end.

(** ** Workers *)

(** Where a worker is: in [callback] ([CTop], [CExit]), in [run] ([Run], [Work]),
    in [wait] ([LockWait] to [Unlock]), or finished. *)
Inductive wpc :=
  | CTop | CExit | Run | Work
  | LockWait | SetWait | Dec | Test | Loop | Sleep | Relock | Unlock
  | Exited | Failed.

Inductive holder := ByWorker | ByScheduler.

Record worker := mkW {
  pc : wpc;
  state : ThreadState_t;
  state_lock : option holder;
  in_run : bool;
  queue : list loc
}.

#[export] Instance wpc_eq_dec : EqDecision wpc.
Proof. solve_decision. Defined.
#[export] Instance holder_eq_dec : EqDecision holder.
Proof. solve_decision. Defined.

(** [WorkerThread(node_id, thd_id)] followed by [init]. *)
Definition WorkerThread_ctor : worker := mkW CTop WAIT None false [].

Definition set_pc (p : wpc) (w : worker) : worker := mkW p (state w) (state_lock w) (in_run w) (queue w).
Definition set_state (s : ThreadState_t) (w : worker) : worker := mkW (pc w) s (state_lock w) (in_run w) (queue w).
Definition set_lock (l : option holder) (w : worker) : worker := mkW (pc w) (state w) l (in_run w) (queue w).
Definition set_in_run (b : bool) (w : worker) : worker := mkW (pc w) (state w) (state_lock w) b (queue w).
Definition set_queue (q : list loc) (w : worker) : worker := mkW (pc w) (state w) (state_lock w) (in_run w) q.

(** What a step of a worker does besides changing the worker. *)
Record effect := mkEff { new_ppt : Z; signals_parent : bool; runs : list loc }.

(** One step of a worker; [None] when it is blocked. *)
Definition wnext (ppt : Z) (w : worker) : option (worker * effect) :=
  let quiet w' := Some (w', mkEff ppt false []) in
  match pc w with
  | CTop => quiet (match state w with WAIT => set_pc LockWait (set_in_run false w) | _ => set_pc CExit w end)
  | CExit => quiet (match state w with EXIT => set_pc Exited w | _ => set_pc Run w end)
  | Run =>
      match state w with
      | TEST => quiet (set_pc LockWait (set_in_run true w))
      | BUILD => quiet (set_pc Work w)
      | QUERY | WAIT | EXIT => quiet (set_pc Failed w)
      end
  | Work =>
      match queue w with
      | [] => quiet (set_pc LockWait (set_in_run true w))
      | x :: q => Some (set_queue q w, mkEff ppt false [x])
      end
  | LockWait =>
      match state_lock w with
      | None => quiet (set_pc SetWait (set_lock (Some ByWorker) w))
      | Some ByWorker => quiet (set_pc Failed w)
      | Some ByScheduler => None
      end
  | SetWait => quiet (set_pc Dec (set_state WAIT w))
  | Dec => Some (set_pc Test w, mkEff (u32 (ppt - 1)) false [])
  | Test => Some (set_pc Loop w, mkEff ppt (ppt =? 0)%Z [])
  | Loop =>
      quiet (match state w with WAIT => set_pc Sleep (set_lock None w) | _ => set_pc Unlock w end)
  | Sleep => None
  | Relock =>
      match state_lock w with
      | None => quiet (set_pc Loop (set_lock (Some ByWorker) w))
      | Some _ => None
      end
  | Unlock => quiet (set_pc (if in_run w then CTop else CExit) (set_lock None w))
  | Exited | Failed => None
  end.

(** A signal on the worker's condition variable. *)
Definition signalled (w : worker) : worker := match pc w with Sleep => set_pc Relock w | _ => w end.

(** ** The scheduler *)

(** [wake] of thread [i] ([WakeLock] to [WakeSignal]) and [wait4completion]
    ([SLock] to [SUnlock]; [SPark] is after the test of the counter and before
    [pthread_cond_wait]); [Idle] is any point outside of both. *)
Inductive spc :=
  | Idle
  | WakeLock (i : nat) (s : ThreadState_t)
  | WakeSet (i : nat) (s : ThreadState_t)
  | WakeInc (i : nat) (s : ThreadState_t)
  | WakeUnlock (i : nat) (s : ThreadState_t)
  | WakeSignal (i : nat) (s : ThreadState_t)
  | SLock | SCheck | SPark | SSleep | SUnlock
  | Destroyed.

#[export] Instance spc_eq_dec : EqDecision spc.
Proof. solve_decision. Defined.

Record sys := mkSys {
  workers : list worker;
  pending_threads : Z;
  sched : spc;
  dealt : list loc;
  executed : list loc
}.

(** The constructor starts [nthread] workers and waits for them. *)
Definition sys_init (nthread : nat) : sys :=
  mkSys (replicate nthread WorkerThread_ctor) (u32 (Z.of_nat nthread)) SLock [] [].

(** The end of [wake] for thread [i] of [n]: the next thread, [wait4completion],
    or the end of [destroy_threads]. *)
Definition after_wake (n i : nat) (s : ThreadState_t) : spc :=
  if S i <? n then WakeLock (S i) s else match s with EXIT => Destroyed | _ => SLock end.

Definition set_workers (ws : list worker) (st : sys) : sys :=
  mkSys ws (pending_threads st) (sched st) (dealt st) (executed st).
Definition set_sched (s : spc) (st : sys) : sys :=
  mkSys (workers st) (pending_threads st) s (dealt st) (executed st).
Definition set_ppt (n : Z) (st : sys) : sys :=
  mkSys (workers st) n (sched st) (dealt st) (executed st).

(** One step of the scheduler; [None] when it is blocked or idle. *)
Definition snext (st : sys) : option sys :=
  let on i f := match workers st !! i with
                | Some w => f w
                | None => None
                end in
  let put i w p := Some (set_sched p (set_workers (<[i := w]> (workers st)) st)) in
  match sched st with
  | Idle | SSleep | Destroyed => None
  | WakeLock i s =>
      on i (λ w, match state_lock w with
                 | None => put i (set_lock (Some ByScheduler) w) (WakeSet i s)
                 | Some _ => None
                 end)
  | WakeSet i s => on i (λ w, put i (set_state s w) (WakeInc i s))
  | WakeInc i s => Some (set_sched (WakeUnlock i s) (set_ppt (u32 (pending_threads st + 1)) st))
  | WakeUnlock i s => on i (λ w, put i (set_lock None w) (WakeSignal i s))
  | WakeSignal i s => on i (λ w, put i (signalled w) (after_wake (length (workers st)) i s))
  | SLock => Some (set_sched SCheck st)
  | SCheck => Some (set_sched (if (pending_threads st =? 0)%Z then SUnlock else SPark) st)
  | SPark => Some (set_sched SSleep st)
  | SUnlock => Some (set_sched Idle st)
  end.

(** A step of worker [i] in the system. *)
Definition wstep (i : nat) (st : sys) : option sys :=
  match workers st !! i with
  | None => None
  | Some w =>
      match wnext (pending_threads st) w with
      | None => None
      | Some (w', e) =>
          Some (mkSys (<[i := w']> (workers st)) (new_ppt e)
                  (if signals_parent e && match sched st with SSleep => true | _ => false end then SCheck else sched st)
                  (dealt st) (executed st ++ runs e))
      end
  end.

(** [run_level] after dealing [qs] out, and [destroy_threads]. *)
Definition deal_out (qs : list (list loc)) (st : sys) : sys :=
  mkSys (zip_with (λ w q, set_queue (queue w ++ q) w) (workers st) qs) (pending_threads st)
    (WakeLock 0 BUILD) (dealt st ++ concat qs) (executed st).

Inductive step : sys → sys → Prop :=
  | step_worker i st st' : wstep i st = Some st' → step st st'
  | step_sched st st' : snext st = Some st' → step st st'
  | step_run_level st qs : sched st = Idle → length qs = length (workers st) → step st (deal_out qs st)
  | step_destroy st : sched st = Idle → step st (set_sched (WakeLock 0 EXIT) st).

Inductive spurious : sys → sys → Prop :=
  | spurious_worker i w st :
      workers st !! i = Some w → pc w = Sleep →
      spurious st (set_workers (<[i := set_pc Relock w]> (workers st)) st)
  | spurious_sched st : sched st = SSleep → spurious st (set_sched SCheck st).

Inductive reachable (n : nat) : sys → Prop :=
  | reach_init : reachable n (sys_init n)
  | reach_step st st' : reachable n st → step st st' → reachable n st'
  | reach_spurious st st' : reachable n st → spurious st st' → reachable n st'.

(** ** The invariant *)

(** The workers the counter counts: those that have not yet decremented it since
    they were woken. *)
Definition pending (w : worker) : bool :=
  match pc w with
  | CTop | CExit | Run | Work | LockWait | SetWait | Dec | Exited | Failed => true
  | Test | Loop | Sleep | Relock | Unlock => match state w with WAIT => false | _ => true end
  end.

Definition woken_state (s : ThreadState_t) : Prop := s = BUILD ∨ s = EXIT.

Definition owns_lock (p : wpc) : bool :=
  match p with SetWait | Dec | Test | Loop | Unlock => true | _ => false end.

(** What a worker's own fields satisfy at each point of its code. *)
Definition worker_ok (w : worker) : Prop :=
  match pc w with
  | CTop => (state w = WAIT ∧ queue w = []) ∨ woken_state (state w)
  | CExit | Unlock => woken_state (state w)
  | Run | Work => state w = BUILD
  | LockWait | SetWait => queue w = []
  | Dec => queue w = [] ∧ state w = WAIT
  | Test => state w = WAIT
  | Loop | Sleep | Relock => state w = WAIT ∨ woken_state (state w)
  | Exited => state w = EXIT
  | Failed => False
  end.

(** Thread [i] seen from the scheduler: it has not been woken for the level in
    progress; its tasks may be waiting; its lock is held; its signal is due. *)
Definition unwoken (s : spc) (i : nat) : bool :=
  match s with
  | Idle | SUnlock => true
  | WakeLock j _ | WakeSet j _ => j <=? i
  | WakeInc j _ | WakeUnlock j _ | WakeSignal j _ => j <? i
  | _ => false
  end.
Definition to_wake (s : spc) (i : nat) : bool :=
  match s with
  | WakeLock j _ | WakeSet j _ => j <=? i
  | WakeInc j _ | WakeUnlock j _ | WakeSignal j _ => j <? i
  | _ => false
  end.
Definition locked_by_sched (s : spc) (i : nat) : bool :=
  match s with WakeSet j _ | WakeInc j _ | WakeUnlock j _ => j =? i | _ => false end.
Definition signal_due (s : spc) (i : nat) : bool :=
  match s with WakeInc j _ | WakeUnlock j _ | WakeSignal j _ => j =? i | _ => false end.

(** The increment of the counter for thread [i] is still to come. *)
Definition owes (s : spc) (i : nat) : bool :=
  match s with WakeInc j _ => j =? i | _ => false end.

(** The threads are being told to end. *)
Definition exiting (s : spc) : bool :=
  match s with
  | WakeLock _ EXIT | WakeSet _ EXIT | WakeInc _ EXIT | WakeUnlock _ EXIT | WakeSignal _ EXIT => true
  | Destroyed => true
  | _ => false
  end.

(** Who holds the lock of a worker. *)
Definition lock_of (by_worker by_sched : bool) : option holder :=
  if by_worker then Some ByWorker else if by_sched then Some ByScheduler else None.

Record seen_ok (s : spc) (i : nat) (w : worker) : Prop := {
  so_worker : worker_ok w;
  so_lock : state_lock w = lock_of (owns_lock (pc w)) (locked_by_sched s i);
  so_excl : locked_by_sched s i = true → pc w = Sleep ∨ pc w = Relock;
  so_unwoken : unwoken s i = true → pending w = false;
  so_queue : pending w = false → to_wake s i = false → queue w = [];
  so_sleep : pc w = Sleep → signal_due s i = false → state w = WAIT;
  so_owed : owes s i = true → pending w = true;
  so_exit : state w = EXIT → exiting s = true
}.

Definition npending (ws : list worker) : nat :=
  sum_list (map (λ w, if pending w then 1 else 0) ws).

(** The increment of the counter that [wake] still owes. *)
Definition owed (s : spc) : Z := match s with WakeInc _ _ => 1 | _ => 0 end.

Definition sched_ok (n : nat) (s : spc) : Prop :=
  match s with
  | WakeLock i t | WakeSet i t | WakeInc i t | WakeUnlock i t | WakeSignal i t => i < n ∧ woken_state t
  | _ => True
  end.

Record inv (n : nat) (st : sys) : Prop := {
  inv_len : length (workers st) = n;
  inv_workers : ∀ i w, workers st !! i = Some w → seen_ok (sched st) i w;
  inv_count : (pending_threads st + owed (sched st) = Z.of_nat (npending (workers st)))%Z;
  inv_nonneg : (0 ≤ pending_threads st)%Z;
  inv_tasks : executed st ++ concat (queue <$> workers st) ≡ₚ dealt st;
  inv_sched : sched_ok n (sched st)
}.

Lemma npending_insert ws i w w' :
  ws !! i = Some w →
  npending (<[i := w']> ws) + (if pending w then 1 else 0) = npending ws + (if pending w' then 1 else 0).
Proof.
  revert i. induction ws as [|v ws IH]; intros [|i] Hi; simpl in Hi; try done.
  - injection Hi as ->. unfold npending. simpl. lia.
  - specialize (IH i Hi). unfold npending in *. simpl. lia.
Qed.

Lemma npending_le ws : npending ws ≤ length ws.
Proof. induction ws as [|w ws IH]; [done|]. unfold npending in *. simpl. destruct (pending w); lia. Qed.

Lemma npending_none ws : npending ws = 0 ↔ ∀ i w, ws !! i = Some w → pending w = false.
Proof.
  induction ws as [|v ws IH]; [done|]. unfold npending in *. simpl. split.
  - intros H0 [|i] w Hi; simpl in Hi.
    + injection Hi as ->. destruct (pending w); [lia|done].
    + apply (proj1 IH) with i; [lia|done].
  - intros Hall. rewrite (proj2 IH); [|by intros i w Hi; apply (Hall (S i))].
    by rewrite (Hall 0 v eq_refl).
Qed.

Lemma queues_insert ws i w w' :
  ws !! i = Some w → concat (queue <$> <[i := w']> ws) ++ queue w ≡ₚ concat (queue <$> ws) ++ queue w'.
Proof.
  revert i. induction ws as [|v ws IH]; intros [|i] Hi; simpl in Hi; try done.
  - injection Hi as ->. simpl. rewrite (Permutation_app_comm (queue w' ++ _)), (Permutation_app_comm (queue w')).
    by rewrite app_assoc.
  - simpl. rewrite <-!app_assoc. by rewrite (IH i Hi).
Qed.

Ltac worker_cases w :=
  let p := fresh "p" in let st := fresh "st" in let l := fresh "l" in
  let r := fresh "r" in let q := fresh "q" in
  destruct w as [p st l r q]; destruct p; cbn in *.

(** A step of a worker keeps its part of the invariant; the counter follows
    [pending], and an executed task comes from the queue. *)
Lemma wnext_ok s i ppt w w' e :
  seen_ok s i w → (pc w = Dec → 0 < ppt)%Z → (ppt < 2 ^ 32)%Z → wnext ppt w = Some (w', e) →
  seen_ok s i w' ∧
  (new_ppt e + (if pending w then 1 else 0) = ppt + (if pending w' then 1 else 0))%Z ∧
  (0 ≤ ppt → 0 ≤ new_ppt e)%Z ∧ runs e ++ queue w' = queue w.
Proof.
  intros [Hw Hlk Hex Hun Hq Hsl How Hxt] Hp Hp32 Hn. unfold worker_ok, woken_state in *.
  assert (owes s i = true → locked_by_sched s i = true) as Hol by (by destruct s).
  destruct (locked_by_sched s i) eqn:E1.
  { destruct (Hex eq_refl) as [Hpc|Hpc]; unfold wnext in Hn; rewrite Hpc in Hn; [done|].
    rewrite Hpc in Hlk. cbn in Hlk. by rewrite Hlk in Hn. }
  clear Hex. assert (owes s i = false) as E5 by (destruct (owes s i); [by specialize (Hol eq_refl)|done]).
  clear Hol How. worker_cases w; unfold pending in *; cbn in *;
    destruct (unwoken s i) eqn:E2, (to_wake s i) eqn:E3, (signal_due s i) eqn:E4.
  all: cbn in *; try discriminate; try (specialize (Hun eq_refl); discriminate).
  all: destruct st; cbn in *; try (exfalso; clear - Hw; intuition congruence).
  all: repeat match goal with
         | H : _ ∨ _ |- _ => destruct H
         | H : _ ∧ _ |- _ => destruct H
         end; subst; cbn in *; try discriminate.
  all: try (destruct q); try (destruct r); try discriminate; injection Hn as <- <-; cbn.
  all: split; [constructor; unfold worker_ok, woken_state, pending; cbn; rewrite ?E1, ?E2, ?E3, ?E4, ?E5; cbn;
               auto; try done; try (intros; congruence)|].
  all: try (split_and!; [lia|lia|done]).
  all: specialize (Hp eq_refl); rewrite u32_small by lia; split_and!; [lia|lia|done].
Qed.

Lemma npending_pos ws i w : ws !! i = Some w → pending w = true → 1 ≤ npending ws.
Proof.
  intros Hi Hp. destruct (npending ws) eqn:E; [|lia]. rewrite npending_none in E.
  by rewrite (E i w Hi) in Hp.
Qed.

Lemma npending_two ws i j a b :
  ws !! i = Some a → ws !! j = Some b → i ≠ j → pending a = true → pending b = true → 2 ≤ npending ws.
Proof.
  intros Ha Hb Hij Hpa Hpb. set (a' := mkW Test WAIT None false []).
  pose proof (npending_insert ws i a a' Ha) as Hins. rewrite Hpa in Hins. cbn in Hins.
  assert (1 ≤ npending (<[i:=a']> ws)); [|lia].
  apply (npending_pos _ j b); [|done]. by rewrite list_lookup_insert_ne.
Qed.

(** The scheduler may be signalled: nothing is said about it while it checks. *)
Lemma seen_ok_signal i w : seen_ok SSleep i w → seen_ok SCheck i w.
Proof. intros []. by split. Qed.

Lemma inv_wstep n i st st' :
  (Z.of_nat n < 2 ^ 32)%Z → inv n st → wstep i st = Some st' → inv n st'.
Proof.
  intros Hn32 [Hlen Hw Hc Hnn Ht Hs] Hstep. unfold wstep in Hstep.
  destruct (workers st !! i) as [w|] eqn:Hi; [|done].
  destruct (wnext (pending_threads st) w) as [[w' e]|] eqn:Hnx; [|done]. injection Hstep as <-.
  pose proof (npending_le (workers st)) as Hle.
  assert (0 ≤ owed (sched st) ≤ 1)%Z as Hod by (unfold owed; destruct (sched st); lia).
  destruct (wnext_ok (sched st) i (pending_threads st) w w' e) as (Hok & Hcnt & Hnn' & Hq); [by apply Hw| |lia|done|].
  { intros Hpc. assert (pending w = true) as Hpw by (unfold pending; by rewrite Hpc).
    pose proof (npending_pos _ _ _ Hi Hpw) as H1. unfold owed in Hc. destruct (sched st) eqn:Es; try lia.
    destruct (decide (i = i0)) as [<-|Hne].
    - destruct (so_excl _ _ _ (Hw i w Hi)) as [H2|H2]; [cbn; by rewrite Nat.eqb_refl|congruence..].
    - destruct Hs as [Hlt _]. destruct (lookup_lt_is_Some_2 (workers st) i0) as [b Hb]; [lia|].
      pose proof (npending_two _ i i0 w b Hi Hb Hne Hpw) as H2. pose proof (so_owed _ _ _ (Hw i0 b Hb)) as H3.
      cbn in H3. rewrite Nat.eqb_refl in H3. specialize (H2 (H3 eq_refl)). lia. }
  set (s' := if signals_parent e && _ then SCheck else sched st).
  assert (∀ j v, seen_ok (sched st) j v → seen_ok s' j v) as Hss.
  { intros j v Hv. unfold s'. destruct (signals_parent e); [|done].
    destruct (sched st); try done. by apply seen_ok_signal. }
  assert (owed s' = owed (sched st) ∧ sched_ok n s') as [Hos Hsok].
  { unfold s'. destruct (signals_parent e); [|done]. by destruct (sched st). }
  pose proof (npending_insert _ _ _ w' Hi) as Hins.
  split; cbn [workers pending_threads sched dealt executed].
  - by rewrite length_insert.
  - intros j v Hj. apply Hss. destruct (decide (i = j)) as [<-|Hne].
    + rewrite list_lookup_insert_eq in Hj by (by eapply lookup_lt_Some). by injection Hj as <-.
    + rewrite list_lookup_insert_ne in Hj by done. by apply Hw.
  - rewrite Hos. destruct (pending w), (pending w'); lia.
  - by apply Hnn'.
  - pose proof (queues_insert _ _ _ w' Hi) as Hqi. rewrite <-Hq in Hqi.
    rewrite <-Ht, <-app_assoc. apply Permutation_app_head.
    apply (Permutation_app_inv_r (queue w')). rewrite <-app_assoc, <-Hqi. rewrite app_assoc, (Permutation_app_comm (runs e)).
    by rewrite <-app_assoc.
  - done.
Qed.

(** What a thread that is not concerned by a step of the scheduler sees. *)
Lemma seen_ok_mono s s' i w :
  locked_by_sched s' i = locked_by_sched s i →
  (unwoken s' i = true → unwoken s i = true) → (to_wake s i = true → to_wake s' i = true) →
  (signal_due s i = true → signal_due s' i = true) → (owes s' i = true → owes s i = true) →
  (exiting s = true → exiting s' = true) → seen_ok s i w → seen_ok s' i w.
Proof.
  intros H1 H2 H3 H4 H5 H6 []. split; rewrite ?H1; auto.
  - intros Hp Hto. apply so_queue0; [done|]. destruct (to_wake s i); [by rewrite H3 in Hto|done].
  - intros Hp Hto. apply so_sleep0; [done|]. destruct (signal_due s i); [by rewrite H4 in Hto|done].
Qed.

(** A thread that is not pending and does not own its lock is asleep. *)
Lemma parked_pc w : worker_ok w → pending w = false → owns_lock (pc w) = false → pc w = Sleep ∨ pc w = Relock.
Proof. unfold worker_ok, pending. destruct w as [[] st l r q]; cbn; auto; try done. Qed.

Lemma inv_update n i w w' st s' ppt' :
  inv n st → workers st !! i = Some w → queue w' = queue w →
  seen_ok s' i w' →
  (∀ j v, j ≠ i → workers st !! j = Some v → seen_ok (sched st) j v → seen_ok s' j v) →
  (ppt' + owed s' + (if pending w then 1 else 0)
    = pending_threads st + owed (sched st) + (if pending w' then 1 else 0))%Z →
  (0 ≤ ppt')%Z → sched_ok n s' →
  inv n (set_ppt ppt' (set_sched s' (set_workers (<[i := w']> (workers st)) st))).
Proof.
  intros [Hlen Hw Hc Hnn Ht Hs] Hi Hq Hok Hoth Hcnt Hpos Hs'.
  pose proof (npending_insert _ _ _ w' Hi) as Hins. split; cbn [workers pending_threads sched dealt executed set_ppt set_sched set_workers].
  - by rewrite length_insert.
  - intros j v Hj. destruct (decide (i = j)) as [<-|Hne].
    + rewrite list_lookup_insert_eq in Hj by (by eapply lookup_lt_Some). by injection Hj as <-.
    + rewrite list_lookup_insert_ne in Hj by done. apply Hoth; auto.
  - revert Hins Hcnt. destruct (pending w), (pending w'); intros; lia.
  - done.
  - rewrite <-Ht. apply Permutation_app_head. apply (Permutation_app_inv_r (queue w)).
    by rewrite (queues_insert _ _ _ w' Hi), Hq.
  - done.
Qed.

Ltac flags :=
  cbn [unwoken to_wake locked_by_sched signal_due owes];
  rewrite ?Nat.eqb_refl;
  repeat match goal with
    | |- context [?a <=? ?b] => destruct (Nat.leb_spec a b)
    | |- context [?a <? ?b] => destruct (Nat.ltb_spec a b)
    | |- context [?a =? ?b] => destruct (Nat.eqb_spec a b)
    end; try done; try lia.

Lemma inv_wake_lock n i s w st :
  inv n st → sched st = WakeLock i s → workers st !! i = Some w → state_lock w = None →
  inv n (set_sched (WakeSet i s) (set_workers (<[i := set_lock (Some ByScheduler) w]> (workers st)) st)).
Proof.
  intros Hinv Es Hi Hl. pose proof Hinv as [Hlen Hw Hc Hnn Ht Hs].
  pose proof (Hw i w Hi) as [Hok Hlk Hex Hun Hq Hsl Ho Hxt]. rewrite Es in *.
  assert (pending w = false) as Hp by (apply Hun; flags).
  assert (owns_lock (pc w) = false) as How by (rewrite Hl in Hlk; by destruct (owns_lock (pc w))).
  pose proof (parked_pc w Hok Hp How) as Hpc.
  apply (inv_update n i w _ st (WakeSet i s) (pending_threads st)); try done.
  - split; [done| |done|done| | | |done].
    + cbn [pc set_lock state_lock]. rewrite How. flags.
    + intros _. flags.
    + intros Hp' _. by apply Hsl.
    + done.
  - intros j v Hj _. apply seen_ok_mono; rewrite ?Es; flags.
  - cbn. rewrite Es. change (pending (set_lock _ w)) with (pending w). cbn. lia.
Qed.

Lemma inv_wake_set n i s w st :
  inv n st → sched st = WakeSet i s → workers st !! i = Some w →
  inv n (set_sched (WakeInc i s) (set_workers (<[i := set_state s w]> (workers st)) st)).
Proof.
  intros Hinv Es Hi. pose proof Hinv as [Hlen Hw Hc Hnn Ht Hs].
  pose proof (Hw i w Hi) as [Hok Hlk Hex Hun Hq Hsl Ho Hxt]. rewrite Es in *.
  assert (pending w = false) as Hp by (apply Hun; flags).
  destruct Hs as [Hin Hws].
  assert (pc w = Sleep ∨ pc w = Relock) as Hpc by (apply Hex; flags).
  assert (pending (set_state s w) = true) as Hp'.
  { unfold pending. cbn. destruct Hws as [-> | ->], Hpc as [-> | ->]; done. }
  apply (inv_update n i w _ st (WakeInc i s) (pending_threads st)); try done.
  - split.
    + unfold worker_ok. cbn. destruct Hpc as [-> | ->]; by right.
    + done.
    + done.
    + flags.
    + by rewrite Hp'.
    + intros _. flags.
    + done.
    + cbn. by intros ->.
  - intros j v Hj _. apply seen_ok_mono; rewrite ?Es; flags.
  - cbn [owed]. rewrite Es, Hp, Hp'. cbn. lia.
Qed.

Lemma inv_wake_inc n i s st :
  (Z.of_nat n < 2 ^ 32)%Z → inv n st → sched st = WakeInc i s →
  inv n (set_sched (WakeUnlock i s) (set_ppt (u32 (pending_threads st + 1)) st)).
Proof.
  intros Hn [Hlen Hw Hc Hnn Ht Hs] Es. pose proof (npending_le (workers st)). rewrite Es in *. cbn in Hc.
  rewrite u32_small by lia. split; cbn [workers pending_threads sched dealt executed set_ppt set_sched owed]; try done; try lia.
  intros j v Hj. apply seen_ok_mono with (WakeInc i s); [flags..|by apply Hw].
Qed.

Lemma inv_wake_unlock n i s w st :
  inv n st → sched st = WakeUnlock i s → workers st !! i = Some w →
  inv n (set_sched (WakeSignal i s) (set_workers (<[i := set_lock None w]> (workers st)) st)).
Proof.
  intros Hinv Es Hi. pose proof Hinv as [Hlen Hw Hc Hnn Ht Hs].
  pose proof (Hw i w Hi) as [Hok Hlk Hex Hun Hq Hsl Ho Hxt]. rewrite Es in *.
  assert (pc w = Sleep ∨ pc w = Relock) as Hpc by (apply Hex; flags).
  apply (inv_update n i w _ st (WakeSignal i s) (pending_threads st)); try done.
  - split; [done| |done|done|done| |done|done].
    + cbn. by destruct Hpc as [-> | ->].
    + intros _. flags.
  - intros j v Hj _. apply seen_ok_mono; rewrite ?Es; flags.
  - rewrite Es. change (pending (set_lock _ w)) with (pending w). cbn. lia.
Qed.

Lemma signalled_fields w :
  state (signalled w) = state w ∧ state_lock (signalled w) = state_lock w ∧ queue (signalled w) = queue w ∧
  pending (signalled w) = pending w ∧ pc (signalled w) ≠ Sleep ∧
  owns_lock (pc (signalled w)) = owns_lock (pc w) ∧ (worker_ok w → worker_ok (signalled w)).
Proof. destruct w as [[] st l r q]; by split_and!. Qed.

Lemma inv_wake_signal n i s w st :
  inv n st → sched st = WakeSignal i s → workers st !! i = Some w →
  inv n (set_sched (after_wake (length (workers st)) i s)
           (set_workers (<[i := signalled w]> (workers st)) st)).
Proof.
  intros Hinv Es Hi. pose proof Hinv as [Hlen Hw Hc Hnn Ht Hs].
  pose proof (Hw i w Hi) as [Hok Hlk Hex Hun Hq Hsl Ho Hxt]. rewrite Es in *. destruct Hs as [Hin Hws].
  destruct (signalled_fields w) as (F1 & F2 & F3 & F4 & F5 & F6 & F7).
  set (s' := after_wake (length (workers st)) i s).
  assert (∀ j, j < n → locked_by_sched s' j = false ∧ signal_due s' j = false ∧ owes s' j = false ∧
    unwoken s' j = (i <? j) ∧ to_wake s' j = (i <? j)) as Hflags.
  { intros j Hj. unfold s', after_wake. rewrite Hlen. destruct (Nat.ltb_spec (S i) n).
    - by split_and!.
    - assert ((i <? j) = false) as -> by (apply Nat.ltb_ge; lia). by destruct Hws as [-> | ->]. }
  assert (state w = EXIT → s = EXIT) as Hexit by (intros Hx; specialize (Hxt Hx); by destruct s).
  apply (inv_update n i w _ st s' (pending_threads st)); try done.
  - destruct (Hflags i Hin) as (G1 & G2 & G3 & G4 & G5). rewrite Nat.ltb_irrefl in G4, G5.
    split; rewrite ?G1, ?G2, ?G3, ?G4, ?G5, ?F1, ?F2, ?F3, ?F4, ?F6; auto; try done.
    + intros Hp _. apply Hq; [done|]. apply Nat.ltb_irrefl.
    + intros Hx. unfold s', after_wake. rewrite (Hexit Hx). by destruct (S i <? _).
  - intros j v Hj Hjv. pose proof (lookup_lt_Some _ _ _ Hjv) as Hjn. rewrite Hlen in Hjn.
    destruct (Hflags j Hjn) as (G1 & G2 & G3 & G4 & G5).
    apply seen_ok_mono; rewrite ?Es, ?G1, ?G2, ?G3, ?G4, ?G5; try done.
    + cbn. destruct (Nat.eqb_spec i j); [by subst|done].
    + intros Hx. unfold s', after_wake. destruct s; try done. by destruct (S i <? _).
  - rewrite Es, F4. assert (owed s' = 0%Z) as ->; [|cbn; lia].
    unfold s', after_wake. destruct (S i <? _); [done|]. by destruct Hws as [-> | ->].
  - unfold s', after_wake. rewrite Hlen. destruct (Nat.ltb_spec (S i) n); [done|].
    by destruct Hws as [-> | ->].
Qed.

Lemma inv_resched n st s' :
  inv n st → owed s' = owed (sched st) → sched_ok n s' →
  (∀ i w, workers st !! i = Some w → seen_ok (sched st) i w → seen_ok s' i w) →
  inv n (set_sched s' st).
Proof. intros [Hlen Hw Hc Hnn Ht Hs] Ho Hs' Hall. split; cbn; rewrite ?Ho; auto. Qed.

Lemma inv_snext n st st' :
  (Z.of_nat n < 2 ^ 32)%Z → inv n st → snext st = Some st' → inv n st'.
Proof.
  intros Hn Hinv Hx. unfold snext in Hx.
  destruct (sched st) as [|i s|i s|i s|i s|i s| | | | | |] eqn:Es; try done.
  - destruct (workers st !! i) as [w|] eqn:Hi; [|done]. destruct (state_lock w) eqn:El; [done|].
    injection Hx as <-. by apply inv_wake_lock.
  - destruct (workers st !! i) as [w|] eqn:Hi; [|done]. injection Hx as <-. by apply inv_wake_set.
  - injection Hx as <-. by apply inv_wake_inc.
  - destruct (workers st !! i) as [w|] eqn:Hi; [|done]. injection Hx as <-. by apply inv_wake_unlock.
  - destruct (workers st !! i) as [w|] eqn:Hi; [|done]. injection Hx as <-. by apply inv_wake_signal.
  - injection Hx as <-. apply inv_resched; rewrite ?Es; try done. intros i w _. by apply seen_ok_mono.
  - injection Hx as <-. pose proof (inv_count _ _ Hinv) as Hc. rewrite Es in Hc. cbn in Hc.
    destruct (Z.eqb_spec (pending_threads st) 0) as [Hz|Hz].
    + apply inv_resched; rewrite ?Es; try done. intros i w Hi Hok.
      assert (npending (workers st) = 0) as H0 by lia. rewrite npending_none in H0.
      destruct Hok. split; try done. intros _. by eapply H0.
    + apply inv_resched; rewrite ?Es; try done. intros i w _. by apply seen_ok_mono.
  - injection Hx as <-. apply inv_resched; rewrite ?Es; try done. intros i w _. by apply seen_ok_mono.
  - injection Hx as <-. apply inv_resched; rewrite ?Es; try done. intros i w _. by apply seen_ok_mono.
Qed.

(** Appending tasks does not matter to a thread that is not pending. *)
Lemma seen_ok_queue s i w q :
  to_wake s i = true → pending w = false → seen_ok s i w → seen_ok s i (set_queue q w).
Proof.
  intros Ht Hp []. split; try done.
  - clear - Hp so_worker0. unfold worker_ok, pending in *. by destruct w as [[] st l r q0].
  - intros _. by rewrite Ht.
Qed.

Lemma zip_queues ws qs :
  length qs = length ws →
  concat (queue <$> zip_with (λ w q, set_queue (queue w ++ q) w) ws qs) ≡ₚ concat (queue <$> ws) ++ concat qs.
Proof.
  revert qs. induction ws as [|w ws IH]; intros [|q qs] Hl; try done. injection Hl as Hl.
  cbn. rewrite (IH _ Hl), <-!app_assoc. apply Permutation_app_head. rewrite !app_assoc.
  by rewrite (Permutation_app_comm q).
Qed.

Lemma inv_deal_out n st qs :
  0 < n → inv n st → sched st = Idle → length qs = length (workers st) → inv n (deal_out qs st).
Proof.
  intros Hn [Hlen Hw Hc Hnn Ht Hs] Es Hl. rewrite Es in *. split; cbn [deal_out workers pending_threads sched dealt executed].
  - rewrite length_zip_with. lia.
  - intros i w Hi. rewrite lookup_zip_with in Hi. destruct (workers st !! i) as [v|] eqn:Hv; [|done].
    cbn in Hi. destruct (qs !! i) as [q|] eqn:Hq; [|done]. injection Hi as <-.
    pose proof (Hw i v Hv) as Hok. apply seen_ok_queue; [done|by apply Hok|].
    apply seen_ok_mono with Idle; try done.
  - etrans; [exact Hc|]. f_equal. clear - Hl. revert qs Hl. unfold npending.
    induction (workers st) as [|w ws IH]; intros [|q qs] Hl; try done. injection Hl as Hl. cbn. by rewrite (IH _ Hl).
  - done.
  - by rewrite zip_queues, app_assoc, Ht.
  - split; [done|by left].
Qed.

Lemma inv_spurious n st st' : inv n st → spurious st st' → inv n st'.
Proof.
  intros Hinv Hsp. pose proof Hinv as [Hlen Hw Hc Hnn Ht Hs]. destruct Hsp as [i w st Hi Hpc|st Es].
  - pose proof (Hw i w Hi) as Hok. destruct (signalled_fields w) as (F1 & F2 & F3 & F4 & F5 & F6 & F7).
    assert (signalled w = set_pc Relock w) as Hsig by (unfold signalled; by rewrite Hpc).
    rewrite Hsig in *.
    apply (inv_update n i w _ st (sched st) (pending_threads st)); try done.
    + destruct Hok as [G1 G2 G3 G4 G5 G6 G7 G8].
      split; rewrite ?F2, ?F4, ?F6; auto.
    + rewrite F4. lia.
  - apply inv_resched; rewrite ?Es; try done. intros i w _. by apply seen_ok_mono.
Qed.

Lemma inv_init n : (Z.of_nat n < 2 ^ 32)%Z → inv n (sys_init n).
Proof.
  intros Hn. split; cbn [sys_init workers pending_threads sched dealt executed owed sched_ok]; try done.
  - by rewrite length_replicate.
  - intros i w [-> Hi]%lookup_replicate. split; try done. by left.
  - rewrite u32_small by lia. rewrite Z.add_0_r. f_equal. clear. induction n as [|n IH]; [done|].
    unfold npending in *. cbn. by rewrite IH at 1.
  - unfold u32. apply Z.mod_pos_bound. lia.
  - clear. induction n as [|n IH]; [done|]. exact IH.
Qed.

Lemma reachable_inv n st : 0 < n → (Z.of_nat n < 2 ^ 32)%Z → reachable n st → inv n st.
Proof.
  intros Hn Hn32. induction 1 as [|st st' _ IH Hs|st st' _ IH Hs].
  - by apply inv_init.
  - destruct Hs as [i st st' Hs|st st' Hs|st qs Es Hl|st Es].
    + by eapply inv_wstep.
    + by eapply inv_snext.
    + by apply inv_deal_out.
    + apply inv_resched; rewrite ?Es; try done; [split; [done|by right]|]. intros i w _.
      apply seen_ok_mono; done.
  - by eapply inv_spurious.
Qed.

(** ** Progress *)

Lemma wstep_enabled st i w : workers st !! i = Some w → is_Some (wnext (pending_threads st) w) → is_Some (wstep i st).
Proof. intros Hi [[w' e] Hx]. unfold wstep. rewrite Hi, Hx. by eexists. Qed.

(** A worker whose lock the scheduler does not hold is blocked only when it is
    asleep or has ended. *)
Lemma wnext_blocked s i ppt w :
  seen_ok s i w → locked_by_sched s i = false → wnext ppt w = None → pc w = Sleep ∨ pc w = Exited.
Proof.
  intros [Hw Hlk _ _ _ _ _ _] Hl Hn. rewrite Hl in Hlk. unfold wnext in Hn.
  destruct w as [[] st l r q]; cbn in *; subst; try done; auto; try (by destruct st); by destruct q.
Qed.



(** When the scheduler wants a worker's lock, the lock is free or the worker can
    go on. *)
Lemma wstep_or_free st i w :
  seen_ok (sched st) i w → locked_by_sched (sched st) i = false → workers st !! i = Some w →
  is_Some (wstep i st) ∨ state_lock w = None.
Proof.
  intros Hok Hl Hi. destruct (wnext (pending_threads st) w) eqn:Hx.
  - left. apply (wstep_enabled st i w); [done|]. rewrite Hx. by eexists.
  - right. pose proof (wnext_blocked _ _ _ _ Hok Hl Hx) as Hpc. rewrite (so_lock _ _ _ Hok), Hl.
    by destruct Hpc as [-> | ->].
Qed.

Lemma list_find_pending ws : npending ws ≠ 0 → ∃ i w, ws !! i = Some w ∧ pending w = true.
Proof.
  induction ws as [|w ws IH]; [done|]. unfold npending in *. cbn. intros Hne.
  destruct (pending w) eqn:Ep; [by exists 0, w|]. destruct IH as (i & v & Hi & Hp); [lia|]. by exists (S i), v.
Qed.

(** While the scheduler sleeps and a thread is pending, that thread can go on. *)
Lemma pending_enabled n st :
  inv n st → sched st = SSleep → pending_threads st ≠ 0%Z → ∃ i st', wstep i st = Some st'.
Proof.
  intros [Hlen Hw Hc Hnn Ht Hs] Es Hz. rewrite Es in *. cbn in Hc.
  destruct (list_find_pending (workers st)) as (i & w & Hi & Hp); [lia|].
  pose proof (Hw i w Hi) as Hok. exists i.
  destruct (wnext (pending_threads st) w) as [[w' e]|] eqn:Hx.
  { destruct (wstep_enabled st i w Hi) as [st' Hst]; [rewrite Hx; by eexists|by exists st']. }
  destruct (wnext_blocked _ _ _ _ Hok eq_refl Hx) as [Hpc|Hpc].
  - pose proof (so_sleep _ _ _ Hok Hpc eq_refl) as Hst. unfold pending in Hp. by rewrite Hpc, Hst in Hp.
  - pose proof (so_worker _ _ _ Hok) as Hwk. unfold worker_ok in Hwk. rewrite Hpc in Hwk.
    by apply (so_exit _ _ _ Hok) in Hwk.
Qed.

(** *** Replaying an interleaving *)

Inductive actor := AWorker (i : nat) | AScheduler.

Fixpoint replay (acts : list actor) (st : sys) : option sys :=
  match acts with
  | [] => Some st
  | a :: acts =>
      match (match a with AWorker i => wstep i st | AScheduler => snext st end) with
      | Some st' => replay acts st'
      | None => None
      end
  end.

Lemma replay_reachable n acts st st' : reachable n st → replay acts st = Some st' → reachable n st'.
Proof.
  revert st. induction acts as [|a acts IH]; intros st Hr Hx; cbn in Hx; [by injection Hx as <-|].
  destruct a as [i|].
  - destruct (wstep i st) as [st1|] eqn:E; [|done]. apply (IH st1); [|done].
    by eapply reach_step; [|eapply step_worker].
  - destruct (snext st) as [st1|] eqn:E; [|done]. apply (IH st1); [|done].
    by eapply reach_step; [|eapply step_sched].
Qed.

(** ** Properties *)


(** C5. The barrier can make progress in every reachable state but one kind: when
    no thread can take a step, either the threads have been told to end, or the
    scheduler sleeps in [wait4completion] although no thread is pending. *)
Theorem barrier_progress n st :
  0 < n → (Z.of_nat n < 2 ^ 32)%Z → reachable n st →
  (∃ st', step st st') ∨ sched st = Destroyed ∨ (sched st = SSleep ∧ pending_threads st = 0%Z).
Proof.
  intros Hn Hn32 Hr. pose proof (reachable_inv n st Hn Hn32 Hr) as Hinv.
  pose proof Hinv as [Hlen Hw Hc Hnn Ht Hs].
  destruct (sched st) as [|i s|i s|i s|i s|i s| | | | | |] eqn:Es;
    try (left; eexists; apply step_sched; unfold snext; rewrite Es; reflexivity);
    try (destruct Hs as [Hi _]; destruct (lookup_lt_is_Some_2 (workers st) i) as [w Hwi]; [lia|]);
    try (left; eexists; apply step_sched; unfold snext; rewrite Es, Hwi; reflexivity).
  - left. eexists. by apply step_destroy.
  - left. destruct (wstep_or_free st i w) as [[st' Hst]|Hl]; [rewrite Es; by apply Hw|by rewrite Es|done|..].
    + exists st'. by eapply step_worker.
    + eexists. apply step_sched. unfold snext. rewrite Es, Hwi, Hl. reflexivity.
  - destruct (decide (pending_threads st = 0%Z)) as [Hz|Hz]; [by right; right|left].
    destruct (pending_enabled n st Hinv Es Hz) as (i & st' & Hst).
    exists st'. by eapply step_worker.
  - by right; left.
Qed.

(** C32. A wake-up can be lost: [WorkerThread::wait] signals the scheduler without
    holding the scheduler's mutex, so that with a single worker, already during
    construction, the signal can fall between the scheduler's test of the
    counter and its [pthread_cond_wait].  Then no thread is pending and no
    thread can ever take a step again, short of a spurious wake-up. *)
Theorem barrier_lost_wakeup :
  ∃ st, reachable 1 st ∧ sched st = SSleep ∧ pending_threads st = 0%Z ∧ ∀ st', ¬ step st st'.
Proof.
  exists (mkSys [mkW Sleep WAIT None false []] 0 SSleep [] []). split_and!; [|done|done|].
  - apply (replay_reachable 1 ([AScheduler; AScheduler] ++ replicate 6 (AWorker 0) ++ [AScheduler]) (sys_init 1));
      [constructor|by vm_compute].
  - intros st' Hst. inversion Hst as [i ? ? Hw|? ? Hs|? ? Es|? Es]; subst; try done.
    by destruct i as [|[|i]].
Qed.

(** *** Witnesses *)

Definition ex_acts : list actor :=
  replicate 6 (AWorker 0) ++ [AScheduler; AScheduler; AScheduler].

Definition ex_idle : sys := mkSys [mkW Sleep WAIT None false []] 0 Idle [] [].

Lemma ex_reach : reachable 1 ex_idle.
Proof. apply (replay_reachable 1 ex_acts (sys_init 1)); [constructor|by vm_compute]. Qed.


Lemma barrier_progress_witness : ∃ st, reachable 1 st ∧ sched st = Idle ∧ ∃ st', step st st'.
Proof.
  exists ex_idle. split; [exact ex_reach|]. split; [reflexivity|].
  destruct (barrier_progress 1 ex_idle) as [H|[H|[H _]]]; [lia|lia|exact ex_reach|exact H|discriminate H..].
Defined.
