(* ===== verification/FileMapper.v ===== *)
(** * SAFS striping: [SAFS/libsafs/file_mapper], [file_partition.h],
      [safs_header.h] and the mapping options of [RAID_config.h]

    An SAFS file is striped over several native files.  A mapper sends a page of
    the file to a native file and a page in it; a partition restricts a mapper
    to the native files of one I/O thread.  Offsets are page numbers; they are
    far below [2^58], so that no product in the code overflows, and are plain
    integers here. *)
From S2P Require Import Prelude.
From stdpp Require Import options.
Open Scope Z_scope.

(** ** Data *)

Record part_file_info := mkPart { part_name : string; disk_id : Z; node_id : Z }.

Inductive mapping := RAID0 | RAID5 | HASH.

Record block_identifier := mkBid { bid_idx : Z; bid_off : Z }.

Record file_mapper := mkMapper {
  mkind : mapping;
  mname : string;
  mfiles : list part_file_info;
  STRIPE_BLOCK_SIZE : Z
}.

Definition FILE_CONST_A : Z := 31.
Definition FILE_CONST_P : Z := 191.

Definition get_num_files (m : file_mapper) : Z := Z.of_nat (length (mfiles m)).

(** The constructors assert a positive block size; that of [hash_mapper] also
    divides by the number of files.  The generated [file_id] is left out. *)
Definition new_mapper (k : mapping) (name : string) (files : list part_file_info) (block_size : Z)
  : res file_mapper :=
  if 0 <? block_size then
    match k, files with
    | HASH, [] => Throw (runtime_error "division by zero")
    | _, _ => Ok (mkMapper k name files block_size)
    end
  else Throw AssertFailed.

(** [get_file_name], [get_file_node_id], [get_disk_id] *)
Definition get_file (idx : Z) (m : file_mapper) : res part_file_info :=
  match mfiles m !! Z.to_nat idx with Some f => Ok f | None => Throw Segfault end.
Definition get_file_name (idx : Z) (m : file_mapper) : res string :=
  let? f := get_file idx m in Ok (part_name f).
Definition get_file_node_id (idx : Z) (m : file_mapper) : res Z :=
  let? f := get_file idx m in Ok (node_id f).
Definition get_disk_id (idx : Z) (m : file_mapper) : res Z :=
  let? f := get_file idx m in Ok (disk_id f).

(** ** Mappings

    [S] is the stripe block size, [n] the number of native files and [r] the
    static [rand_start] of the class. *)

Definition map_RAID0 (S n r off : Z) : block_identifier :=
  let idx_in_block := off `rem` S in
  let block_idx := off ÷ S in
  mkBid ((block_idx + r) `rem` n) (block_idx ÷ n * S + idx_in_block).
Definition map2file_RAID0 (S n r off : Z) : Z := ((off ÷ S) + r) `rem` n.

Definition map_RAID5 (S n r off : Z) : block_identifier :=
  let idx_in_block := off `rem` S in
  let block_idx := off ÷ S in
  let idx := block_idx `rem` n in
  let o := block_idx ÷ n * S + idx_in_block in
  let shift := (block_idx ÷ n) `rem` n in
  mkBid ((idx + shift + r) `rem` n) o.
Definition map2file_RAID5 (S n r off : Z) : Z :=
  let block_idx := off ÷ S in
  let shift := (block_idx ÷ n) `rem` n in
  (block_idx `rem` n + shift + r) `rem` n.

Definition cycle_size_in_bucket (n idx : Z) : Z :=
  if idx <? FILE_CONST_P `rem` n then FILE_CONST_P ÷ n + 1 else FILE_CONST_P ÷ n.
Definition map_hash (S n off : Z) : block_identifier :=
  let idx_in_block := off `rem` S in
  let block_idx := off ÷ S in
  let p_idx := (FILE_CONST_A * block_idx) `rem` FILE_CONST_P in
  let idx := p_idx `rem` n in
  let cycle_idx := block_idx ÷ FILE_CONST_P in
  let cycle_len_in_bucket := cycle_size_in_bucket n idx in
  mkBid idx ((cycle_idx * cycle_len_in_bucket + p_idx ÷ n) * S + idx_in_block).
Definition map2file_hash (S n off : Z) : Z :=
  let block_idx := off ÷ S in
  let p_idx := (FILE_CONST_A * block_idx) `rem` FILE_CONST_P in
  p_idx `rem` n.

(** The virtual [map] and [map2file]; the division by the number of files traps
    when there are none. *)
Definition map_off (r : Z) (m : file_mapper) (off : Z) : res block_identifier :=
  let n := get_num_files m in
  if n =? 0 then Throw (runtime_error "division by zero") else
  Ok (match mkind m with
      | RAID0 => map_RAID0 (STRIPE_BLOCK_SIZE m) n r off
      | RAID5 => map_RAID5 (STRIPE_BLOCK_SIZE m) n r off
      | HASH => map_hash (STRIPE_BLOCK_SIZE m) n off
      end).
Definition map2file (r : Z) (m : file_mapper) (off : Z) : res Z :=
  let n := get_num_files m in
  if n =? 0 then Throw (runtime_error "division by zero") else
  Ok (match mkind m with
      | RAID0 => map2file_RAID0 (STRIPE_BLOCK_SIZE m) n r off
      | RAID5 => map2file_RAID5 (STRIPE_BLOCK_SIZE m) n r off
      | HASH => map2file_hash (STRIPE_BLOCK_SIZE m) n off
      end).

(** [get_size_per_disk]: looks at the last blocks of the file, [2 n] of them for
    the RAIDs and a whole cycle for the hash. *)
Fixpoint size_loop (r : Z) (m : file_mapper) (sz : Z) (cnt : nat) (i : Z) (ret : list Z) : res (list Z) :=
  match cnt with
  | O => Ok ret
  | Datatypes.S cnt =>
      if sz <? i * STRIPE_BLOCK_SIZE m then Ok ret else
      let off := (sz ÷ STRIPE_BLOCK_SIZE m - i) * STRIPE_BLOCK_SIZE m + STRIPE_BLOCK_SIZE m - 1 in
      let? bid := map_off r m off in
      match ret !! Z.to_nat (bid_idx bid) with
      | None => Throw Segfault
      | Some s =>
          size_loop r m sz cnt (i + 1) (<[Z.to_nat (bid_idx bid) := Z.max (bid_off bid + 1) s]> ret)
      end
  end.
Definition get_size_per_disk (r : Z) (m : file_mapper) (sz : Z) : res (list Z) :=
  let ret := replicate (length (mfiles m)) 0 in
  match mkind m with
  | HASH => size_loop r m sz (Z.to_nat FILE_CONST_P) 0 ret
  | _ => size_loop r m sz (2 * length ret)%nat 0 ret
  end.

(** ** [logical_file_partition] *)

Record logical_file_partition := mkLP {
  lp_mapper : option file_mapper;
  indices : list Z;
  file_map : list Z
}.

Fixpoint fill_file_map (i : Z) (idxs : list Z) (fm : list Z) : res (list Z) :=
  match idxs with
  | [] => Ok fm
  | x :: idxs =>
      if Z.of_nat (length fm) <=? x then Throw Segfault
      else fill_file_map (i + 1) idxs (<[Z.to_nat x := i]> fm)
  end.

Definition logical_file_partition_ctor (idxs : list Z) (m : file_mapper) : res logical_file_partition :=
  let? fm := fill_file_map 0 idxs (replicate (length (mfiles m)) (-1)) in
  Ok (mkLP (Some m) idxs fm).
Definition logical_file_partition_inactive (idxs : list Z) : logical_file_partition := mkLP None idxs [].

Definition is_active (p : logical_file_partition) : bool :=
  match lp_mapper p with Some _ => true | None => false end.
Definition get_mapper (p : logical_file_partition) : res file_mapper :=
  match lp_mapper p with Some m => Ok m | None => Throw AssertFailed end.
Definition lp_lookup (p : logical_file_partition) (idx : Z) : res Z :=
  match file_map p !! Z.to_nat idx with
  | Some i => if 0 <=? i then Ok i else Throw AssertFailed
  | None => Throw Segfault
  end.
Definition lp_get_file_name (idx : Z) (p : logical_file_partition) : res string :=
  let? m := get_mapper p in
  match indices p !! Z.to_nat idx with Some i => get_file_name i m | None => Throw Segfault end.
Definition lp_get_disk_id (idx : Z) (p : logical_file_partition) : res Z :=
  let? m := get_mapper p in
  match indices p !! Z.to_nat idx with Some i => get_disk_id i m | None => Throw Segfault end.

Definition lp_map (r : Z) (p : logical_file_partition) (pg_off : Z) : res block_identifier :=
  let? m := get_mapper p in
  let? bid := map_off r m pg_off in
  let? i := lp_lookup p (bid_idx bid) in
  Ok (mkBid i (bid_off bid)).
Definition lp_map2file (r : Z) (p : logical_file_partition) (pg_off : Z) : res Z :=
  let? m := get_mapper p in
  let? idx := map2file r m pg_off in
  lp_lookup p idx.

(** ** [safs_header] *)

Definition MAGIC_NUMBER : Z := 0x123456789FFFFFE.
Definition CURR_VERSION : Z := 1.

Record safs_header := mkHeader {
  magic_number : Z;
  version_number : Z;
  h_block_size : Z;
  h_mapping_option : Z;
  h_writable : Z;
  num_bytes : Z
}.
Definition safs_header_ctor : safs_header := mkHeader MAGIC_NUMBER CURR_VERSION 0 0 0 0.
Definition safs_header_ctor4 (block_size mapping_option : Z) (writable : bool) (file_size : Z) : safs_header :=
  mkHeader MAGIC_NUMBER CURR_VERSION (u32 block_size) (u32 mapping_option) (if writable then 1 else 0)
    (u64 file_size).
(** The getters return [int]. *)
Definition get_block_size (h : safs_header) : Z := s32 (h_block_size h).
Definition get_mapping_option (h : safs_header) : Z := s32 (h_mapping_option h).
Definition is_writable (h : safs_header) : bool := negb (h_writable h =? 0).
Definition is_safs_file (h : safs_header) : bool := magic_number h =? MAGIC_NUMBER.
Definition is_right_version (h : safs_header) : bool := version_number h =? CURR_VERSION.
Definition is_valid (h : safs_header) : bool := negb (h_block_size h =? 0).
Definition header_resize (n : Z) (h : safs_header) : safs_header :=
  mkHeader (magic_number h) (version_number h) (h_block_size h) (h_mapping_option h) (h_writable h) n.

(** The option codes of the [enum]; any other value is rejected. *)
Definition mapping_of (opt : Z) : option mapping :=
  if opt =? 0 then Some RAID0 else if opt =? 1 then Some RAID5 else if opt =? 2 then Some HASH else None.

(** A switch over the mapping option; [None] is the null pointer. *)
Definition make_mapper (opt : Z) (name : string) (files : list part_file_info) (block_size : Z)
  : res (option file_mapper) :=
  match mapping_of opt with
  | Some k => let? m := new_mapper k name files block_size in Ok (Some m)
  | None => Ok None
  end.

(** [file_mapper::create] *)
Definition file_mapper_create (h : safs_header) (files : list part_file_info) (name : string)
  : res (option file_mapper) :=
  if is_valid h then make_mapper (get_mapping_option h) name files (get_block_size h) else Ok None.

(** ** Block-level view *)

(** A page is in block [off / S]; the mappers differ only in where they put a
    block: in which file and at which row. *)
Definition block_file (k : mapping) (n r b : Z) : Z :=
  match k with
  | RAID0 => (b + r) mod n
  | RAID5 => (b mod n + (b / n) mod n + r) mod n
  | HASH => ((FILE_CONST_A * b) mod FILE_CONST_P) mod n
  end.
Definition block_row (k : mapping) (n b : Z) : Z :=
  match k with
  | RAID0 | RAID5 => b / n
  | HASH =>
      let p := (FILE_CONST_A * b) mod FILE_CONST_P in
      b / FILE_CONST_P * cycle_size_in_bucket n (p mod n) + p / n
  end.

(** C's division and remainder are those of [Z] on natural numbers. *)
Lemma map_off_blocks r m off :
  0 < get_num_files m → 0 < STRIPE_BLOCK_SIZE m → 0 ≤ r → 0 ≤ off →
  map_off r m off
    = Ok (let S := STRIPE_BLOCK_SIZE m in let n := get_num_files m in
          mkBid (block_file (mkind m) n r (off / S)) (block_row (mkind m) n (off / S) * S + off mod S)).
Proof.
  intros Hn HS Hr Hoff. unfold map_off. rewrite (proj2 (Z.eqb_neq _ _)) by lia. cbn zeta.
  pose proof (Z.div_pos off _ Hoff HS) as Hb.
  pose proof (Z.mod_pos_bound (off / STRIPE_BLOCK_SIZE m) _ Hn). pose proof (Z.div_pos _ _ Hb Hn) as Hq.
  pose proof (Z.mod_pos_bound (off / STRIPE_BLOCK_SIZE m / get_num_files m) _ Hn).
  pose proof (Z.mod_pos_bound (FILE_CONST_A * (off / STRIPE_BLOCK_SIZE m)) FILE_CONST_P eq_refl).
  assert (0 ≤ FILE_CONST_A * (off / STRIPE_BLOCK_SIZE m)) by (unfold FILE_CONST_A; lia).
  do 2 f_equal. destruct (mkind m); unfold map_RAID0, map_RAID5, map_hash, cycle_size_in_bucket; cbn zeta.
  all: rewrite (Z.quot_div_nonneg off), (Z.rem_mod_nonneg off) by lia.
  all: rewrite ?(Z.quot_div_nonneg (off / STRIPE_BLOCK_SIZE m)), ?(Z.rem_mod_nonneg (off / STRIPE_BLOCK_SIZE m)) by done.
  - by rewrite Z.rem_mod_nonneg by lia.
  - rewrite (Z.rem_mod_nonneg (off / STRIPE_BLOCK_SIZE m / get_num_files m)) by lia. by rewrite Z.rem_mod_nonneg by lia.
  - rewrite (Z.rem_mod_nonneg (FILE_CONST_A * _)) by done.
    rewrite !(Z.rem_mod_nonneg ((FILE_CONST_A * _) mod _)), (Z.quot_div_nonneg ((FILE_CONST_A * _) mod _)) by lia.
    done.
Qed.

Lemma map2file_agrees r m off bid : map_off r m off = Ok bid → map2file r m off = Ok (bid_idx bid).
Proof. unfold map_off, map2file. case_match; [done|]. intros [= <-]. by destruct (mkind m). Qed.

Section blocks.
Context (n r : Z) (Hn : 0 < n).

Lemma block_file_range k b : 0 ≤ block_file k n r b < n.
Proof using Hn. destruct k; apply Z.mod_pos_bound; lia. Qed.

Lemma mod_shift_inj a b c : (a + c) mod n = (b + c) mod n → a mod n = b mod n.
Proof using Hn.
  intros Hm. replace a with (a + c - c) by lia. replace b with (b + c - c) by lia.
  by rewrite (Zminus_mod (a + c)), (Zminus_mod (b + c)), Hm.
Qed.

(** The share of a cycle that falls to one file. *)
Lemma cycle_share p : 0 ≤ p < FILE_CONST_P → 0 ≤ p / n < cycle_size_in_bucket n (p mod n).
Proof using Hn.
  intros Hp. split; [apply Z.div_pos; lia|]. unfold cycle_size_in_bucket.
  rewrite Z.quot_div_nonneg, Z.rem_mod_nonneg by (unfold FILE_CONST_P; lia).
  pose proof (Z.div_mod p n ltac:(lia)) as H1. pose proof (Z.div_mod FILE_CONST_P n ltac:(lia)) as H2.
  pose proof (Z.mod_pos_bound p n ltac:(lia)). pose proof (Z.mod_pos_bound FILE_CONST_P n ltac:(lia)).
  destruct (Z.ltb_spec (p mod n) (FILE_CONST_P mod n)); nia.
Qed.

(** 37 is the inverse of 31 modulo 191. *)
Lemma hash_inj b c :
  (FILE_CONST_A * b) mod FILE_CONST_P = (FILE_CONST_A * c) mod FILE_CONST_P → b mod FILE_CONST_P = c mod FILE_CONST_P.
Proof.
  unfold FILE_CONST_A, FILE_CONST_P. intros Hm.
  assert (∀ x, x mod 191 = (37 * ((31 * x) mod 191)) mod 191) as Hinv.
  { intros x. rewrite Zmult_mod_idemp_r. replace (37 * (31 * x)) with (x + (6 * x) * 191) by lia.
    by rewrite Z.mod_add by lia. }
  by rewrite (Hinv b), (Hinv c), Hm.
Qed.

Lemma split_unique S q1 q2 x1 x2 :
  0 < S → 0 ≤ x1 < S → 0 ≤ x2 < S → q1 * S + x1 = q2 * S + x2 → q1 = q2 ∧ x1 = x2.
Proof. intros. assert (q1 = q2) by nia. subst. lia. Qed.

Lemma block_inj k b c :
  0 ≤ b → 0 ≤ c → block_file k n r b = block_file k n r c → block_row k n b = block_row k n c → b = c.
Proof using Hn.
  intros Hb Hc Hf Hr.
  assert (∀ d e, d / n = e / n → d mod n = e mod n → d = e) as Hdm.
  { intros d e H1 H2. rewrite (Z.div_mod d n), (Z.div_mod e n) by lia. by rewrite H1, H2. }
  destruct k; cbn [block_file block_row] in *.
  - apply Hdm; [done|]. by apply mod_shift_inj in Hf.
  - apply Hdm; [done|]. rewrite Hr in Hf. rewrite <-!Z.add_assoc in Hf. apply mod_shift_inj in Hf.
    by rewrite !Zmod_mod in Hf.
  - set (p := (FILE_CONST_A * b) mod FILE_CONST_P) in *. set (q := (FILE_CONST_A * c) mod FILE_CONST_P) in *.
    assert (0 ≤ p < FILE_CONST_P) as Hp by (apply Z.mod_pos_bound; done).
    assert (0 ≤ q < FILE_CONST_P) as Hq by (apply Z.mod_pos_bound; done).
    pose proof (cycle_share p Hp) as H1. pose proof (cycle_share q Hq) as H2. rewrite <-Hf in *.
    destruct (split_unique (cycle_size_in_bucket n (p mod n)) (b / FILE_CONST_P) (c / FILE_CONST_P) (p / n) (q / n))
      as [H3 H4]; [lia|done|done|done|].
    assert (p = q) as Hpq by (by apply Hdm). apply hash_inj in Hpq.
    rewrite (Z.div_mod b FILE_CONST_P), (Z.div_mod c FILE_CONST_P) by done. by rewrite H3, Hpq.
Qed.

Lemma block_row_nonneg k b : 0 ≤ b → 0 ≤ block_row k n b.
Proof using Hn.
  intros Hb. destruct k; cbn; [by apply Z.div_pos..|].
  set (p := (FILE_CONST_A * b) mod FILE_CONST_P).
  assert (0 ≤ p < FILE_CONST_P) as Hp by (apply Z.mod_pos_bound; done).
  pose proof (cycle_share p Hp). assert (0 ≤ b / FILE_CONST_P) by (by apply Z.div_pos). nia.
Qed.

(** The last block of a period that is congruent to [b]. *)
Lemma last_congruent P b B :
  0 < P → 0 ≤ b ≤ B → let i := (B - b) mod P in
  0 ≤ i < P ∧ i ≤ B ∧ b ≤ B - i ∧ (B - i) mod P = b mod P.
Proof.
  intros HP Hb. cbn. pose proof (Z.mod_pos_bound (B - b) P HP). pose proof (Z.mod_le (B - b) P).
  split_and!; try lia. rewrite Zminus_mod_idemp_r. f_equal. lia.
Qed.

(** Every block up to [B] is in the file of one of the last blocks, in a row
    that is not greater. *)
Definition lookback (k : mapping) : Z := match k with HASH => FILE_CONST_P | _ => 2 * n end.

Lemma RAID5_cover b B :
  0 ≤ b ≤ B → b / n < B / n →
  ∃ i, 0 ≤ i < 2 * n ∧ i ≤ B ∧ block_file RAID5 n r (B - i) = block_file RAID5 n r b ∧
    block_row RAID5 n b ≤ block_row RAID5 n (B - i).
Proof using Hn.
  intros Hb Hq. pose proof (Z.div_mod B n ltac:(lia)) as HB. pose proof (Z.mod_pos_bound B n Hn).
  set (Q := B / n) in *. set (x := (b mod n + (b / n) mod n - (Q - 1) mod n) mod n).
  assert (0 ≤ x < n) as Hx by (by apply Z.mod_pos_bound).
  assert (0 ≤ b / n) as Hbn by (apply Z.div_pos; lia).
  assert (B - (n + B mod n - x) = (Q - 1) * n + x) as Hb' by lia.
  assert (((Q - 1) * n + x) / n = Q - 1) as Hdiv by (rewrite Z.div_add_l, Z.div_small by lia; lia).
  assert (((Q - 1) * n + x) mod n = x) as Hmod.
  { rewrite Z.add_comm, Z.mod_add by lia. by apply Z.mod_small. }
  exists (n + B mod n - x). cbn [block_file block_row]. rewrite Hb', Hdiv, Hmod.
  split_and!; [lia|lia|nia| |lia].
  unfold x. rewrite <-Z.add_assoc, Zplus_mod_idemp_l. f_equal. lia.
Qed.

Lemma block_cover k b B :
  0 ≤ b ≤ B → ∃ i, 0 ≤ i < lookback k ∧ i ≤ B ∧ block_file k n r (B - i) = block_file k n r b ∧
    block_row k n b ≤ block_row k n (B - i).
Proof using Hn.
  intros Hb. destruct k; cbn [lookback].
  - destruct (last_congruent n b B Hn Hb) as (H1 & H2 & H3 & H4). exists ((B - b) mod n).
    split_and!; [lia|lia|lia| |].
    + cbn. by rewrite <-Zplus_mod_idemp_l, H4, Zplus_mod_idemp_l.
    + cbn. by apply Z.div_le_mono.
  - destruct (decide (b / n = B / n)) as [He|He].
    + pose proof (Z.div_mod B n ltac:(lia)). pose proof (Z.div_mod b n ltac:(lia)).
      pose proof (Z.mod_pos_bound B n Hn). pose proof (Z.mod_pos_bound b n Hn).
      exists (B - b). replace (B - (B - b)) with b by lia. split_and!; [lia|nia|lia|done|done].
    + apply RAID5_cover; [done|]. pose proof (Z.div_le_mono b B n Hn). lia.
  - destruct (last_congruent FILE_CONST_P b B ltac:(done) Hb) as (H1 & H2 & H3 & H4).
    exists ((B - b) mod FILE_CONST_P). set (i := (B - b) mod FILE_CONST_P) in *.
    assert ((FILE_CONST_A * (B - i)) mod FILE_CONST_P = (FILE_CONST_A * b) mod FILE_CONST_P) as Hp.
    { by rewrite <-Zmult_mod_idemp_r, H4, Zmult_mod_idemp_r. }
    split_and!; [lia|lia|lia|cbn; by rewrite Hp|]. cbn [block_row]. rewrite Hp.
    set (p := (FILE_CONST_A * b) mod FILE_CONST_P).
    assert (0 ≤ p < FILE_CONST_P) as Hpr by (apply Z.mod_pos_bound; done).
    pose proof (cycle_share p Hpr). pose proof (Z.div_le_mono b (B - i) FILE_CONST_P ltac:(done) H3). nia.
Qed.
End blocks.

(** ** Sizes *)

Definition mapper_wf (m : file_mapper) : Prop := 0 < STRIPE_BLOCK_SIZE m ∧ mfiles m ≠ [].

Lemma mapper_wf_files m : mapper_wf m → 0 < get_num_files m.
Proof. intros [_ Hf]. unfold get_num_files. destruct (mfiles m); [done|simpl; lia]. Qed.

(** The end of the last page of block [b]. *)
Definition block_end (m : file_mapper) (b : Z) : Z :=
  block_row (mkind m) (get_num_files m) b * STRIPE_BLOCK_SIZE m + STRIPE_BLOCK_SIZE m.

Lemma last_page m b :
  0 < STRIPE_BLOCK_SIZE m →
  (b * STRIPE_BLOCK_SIZE m + STRIPE_BLOCK_SIZE m - 1) / STRIPE_BLOCK_SIZE m = b ∧
  (b * STRIPE_BLOCK_SIZE m + STRIPE_BLOCK_SIZE m - 1) mod STRIPE_BLOCK_SIZE m = STRIPE_BLOCK_SIZE m - 1.
Proof.
  intros HS. set (S := STRIPE_BLOCK_SIZE m) in *. replace (b * S + S - 1) with (b * S + (S - 1)) by lia. split.
  - rewrite Z.div_add_l, Z.div_small by lia. lia.
  - rewrite Z.add_comm, Z.mod_add by lia. apply Z.mod_small. lia.
Qed.

(** The loop only raises entries, and covers every block it looks at. *)
Lemma size_loop_spec r m sz cnt i ret :
  mapper_wf m → 0 ≤ r → 0 ≤ sz → length ret = length (mfiles m) →
  ∃ ret', size_loop r m sz cnt i ret = Ok ret' ∧ length ret' = length ret ∧
    (∀ d s, ret !! d = Some s → ∃ s', ret' !! d = Some s' ∧ s ≤ s') ∧
    (∀ j, i ≤ j < i + Z.of_nat cnt → (∀ j', i ≤ j' ≤ j → j' * STRIPE_BLOCK_SIZE m ≤ sz) →
       ∃ s', ret' !! Z.to_nat (block_file (mkind m) (get_num_files m) r (sz / STRIPE_BLOCK_SIZE m - j)) = Some s' ∧
         block_end m (sz / STRIPE_BLOCK_SIZE m - j) ≤ s').
Proof.
  intros Hwf Hr Hsz. pose proof (mapper_wf_files m Hwf) as Hn. destruct Hwf as [HS _].
  revert i ret. induction cnt as [|cnt IH]; intros i ret Hl; cbn [size_loop].
  { exists ret. split_and!; [done|done| |lia]. intros d s Hd. exists s. split; [done|lia]. }
  destruct (Z.ltb_spec sz (i * STRIPE_BLOCK_SIZE m)) as [Hlt|Hge].
  { exists ret. split_and!; [done|done|intros d s Hd; exists s; split; [done|lia]|].
    intros j Hj Hall. specialize (Hall i ltac:(lia)). lia. }
  rewrite Z.quot_div_nonneg by lia.
  assert (i ≤ sz / STRIPE_BLOCK_SIZE m) as Hi by (apply Z.div_le_lower_bound; lia).
  rewrite map_off_blocks by (done || nia). cbn zeta. cbn [rbind bid_idx bid_off].
  destruct (last_page m (sz / STRIPE_BLOCK_SIZE m - i) HS) as [-> ->].
  set (b := sz / STRIPE_BLOCK_SIZE m - i). set (d := block_file (mkind m) (get_num_files m) r b).
  assert (0 ≤ d < get_num_files m) as Hd by (by apply block_file_range).
  destruct (lookup_lt_is_Some_2 ret (Z.to_nat d)) as [s Hs]; [unfold get_num_files in Hd; lia|]. rewrite Hs.
  set (e := block_row (mkind m) (get_num_files m) b * STRIPE_BLOCK_SIZE m + (STRIPE_BLOCK_SIZE m - 1) + 1).
  destruct (IH (i + 1) (<[Z.to_nat d := Z.max e s]> ret)) as (ret' & Hrun & Hlen & Hup & Hcov);
    [by rewrite length_insert|].
  assert (∃ s', ret' !! Z.to_nat d = Some s' ∧ Z.max e s ≤ s') as (sd & Hsd & Hmax).
  { apply Hup. apply list_lookup_insert_eq. by eapply lookup_lt_Some. }
  exists ret'. split_and!; [done|by rewrite Hlen, length_insert| |].
  - intros d' s' Hd'. destruct (decide (Z.to_nat d = d')) as [<-|Hne].
    + rewrite Hs in Hd'. injection Hd' as <-. exists sd. split; [done|lia].
    + apply Hup. by rewrite list_lookup_insert_ne.
  - intros j Hj Hall. destruct (decide (j = i)) as [->|Hne].
    + exists sd. fold b d. split; [done|]. unfold block_end. unfold e in Hmax. lia.
    + apply Hcov; [lia|]. intros j' Hj'. apply Hall. lia.
Qed.

Lemma get_size_per_disk_loop r m sz :
  get_size_per_disk r m sz
    = size_loop r m sz (Z.to_nat (lookback (get_num_files m) (mkind m))) 0 (replicate (length (mfiles m)) 0).
Proof.
  unfold get_size_per_disk, lookback, get_num_files. rewrite length_replicate.
  destruct (mkind m); try done; f_equal; lia.
Qed.

Lemma size_per_disk_spec r m sz :
  mapper_wf m → 0 ≤ r → 0 ≤ sz →
  ∃ ret, get_size_per_disk r m sz = Ok ret ∧ length ret = length (mfiles m) ∧
    ∀ off bid, 0 ≤ off < sz → map_off r m off = Ok bid →
      ∃ s, ret !! Z.to_nat (bid_idx bid) = Some s ∧ bid_off bid < s.
Proof.
  intros Hwf Hr Hsz. pose proof (mapper_wf_files m Hwf) as Hn. pose proof Hwf as [HS _].
  rewrite get_size_per_disk_loop. set (S := STRIPE_BLOCK_SIZE m) in *.
  destruct (size_loop_spec r m sz (Z.to_nat (lookback (get_num_files m) (mkind m))) 0 (replicate (length (mfiles m)) 0) Hwf Hr Hsz)
    as (ret & Hrun & Hlen & _ & Hcov); [apply length_replicate|].
  exists ret. split_and!; [done|by rewrite Hlen, length_replicate|]. intros off bid Hoff.
  rewrite map_off_blocks by lia. cbn zeta. fold S. intros [= <-]. cbn [bid_idx bid_off].
  assert (0 ≤ off / S ≤ sz / S) as Hb by (split; [by apply Z.div_pos; lia|apply Z.div_le_mono; lia]).
  destruct (block_cover (get_num_files m) r Hn (mkind m) _ _ Hb) as (i & Hi & HiB & Hf & Hrow).
  pose proof (Z.mul_div_le sz S HS). pose proof (Z.mod_pos_bound off S HS).
  destruct (Hcov i) as (s & Hs & Hend); [lia|intros j' Hj'; fold S; nia|].
  fold S in Hs, Hend. rewrite Hf in Hs. exists s. split; [done|]. unfold block_end in Hend. fold S in Hend. nia.
Qed.

(** [map] depends on the files only through their number. *)
Lemma map_off_ext r m m' off :
  mkind m = mkind m' → STRIPE_BLOCK_SIZE m = STRIPE_BLOCK_SIZE m' → length (mfiles m) = length (mfiles m') →
  map_off r m off = map_off r m' off.
Proof. intros H1 H2 H3. unfold map_off, get_num_files. by rewrite H1, H2, H3. Qed.

(** ** Partitions *)

Lemma fill_file_map_spec i idxs fm :
  0 ≤ i → NoDup idxs → Forall (λ x, 0 ≤ x < Z.of_nat (length fm)) idxs →
  ∃ fm', fill_file_map i idxs fm = Ok fm' ∧ length fm' = length fm ∧
    (∀ j x, idxs !! j = Some x → fm' !! Z.to_nat x = Some (i + Z.of_nat j)) ∧
    (∀ x, 0 ≤ x → x ∉ idxs → fm' !! Z.to_nat x = fm !! Z.to_nat x).
Proof.
  intros Hi Hnd. revert i fm Hi. induction Hnd as [|x idxs Hx Hnd IH]; intros i fm Hi Hall.
  { exists fm. by split_and!. }
  apply Forall_cons in Hall as [Hxr Hall]. cbn [fill_file_map]. rewrite (proj2 (Z.leb_gt _ _)) by lia.
  destruct (IH (i + 1) (<[Z.to_nat x := i]> fm)) as (fm' & Hrun & Hlen & Hin & Hout); [lia|by rewrite length_insert|].
  exists fm'. split_and!; [done|by rewrite Hlen, length_insert| |].
  - intros [|j] y Hj; simpl in Hj.
    + injection Hj as <-. rewrite Hout by (done || lia). rewrite list_lookup_insert_eq by lia. f_equal. lia.
    + rewrite (Hin j y Hj). f_equal. lia.
  - intros y Hy Hn. apply not_elem_of_cons in Hn as [Hne Hn]. rewrite Hout by done.
    apply list_lookup_insert_ne. lia.
Qed.

(** ** Properties *)

(** C25. Striping loses nothing and mixes nothing up: for every mapping, block
    size and number of files, [map] sends each page of a file to a page of one
    of the native files, [map2file] names the same native file, and no other
    page of the file is sent to the same place. *)
Theorem mapper_no_overlap r m off :
  mapper_wf m → 0 ≤ r → 0 ≤ off →
  ∃ bid, map_off r m off = Ok bid ∧ map2file r m off = Ok (bid_idx bid) ∧
    0 ≤ bid_idx bid < get_num_files m ∧ 0 ≤ bid_off bid ∧
    ∀ off', 0 ≤ off' → map_off r m off' = Ok bid → off' = off.
Proof.
  intros Hwf Hr Hoff. pose proof (mapper_wf_files m Hwf) as Hn. destruct Hwf as [HS _].
  assert (∀ o, 0 ≤ o → 0 ≤ o / STRIPE_BLOCK_SIZE m) as Hblk by (intros; by apply Z.div_pos).
  pose proof (Z.mod_pos_bound off (STRIPE_BLOCK_SIZE m) HS) as Hm.
  rewrite map_off_blocks by lia. eexists. split; [reflexivity|]. cbn [bid_idx bid_off].
  split_and!.
  - by rewrite (map2file_agrees _ _ _ _ (map_off_blocks r m off Hn HS Hr Hoff)).
  - by apply block_file_range.
  - by apply block_file_range.
  - pose proof (block_row_nonneg (get_num_files m) Hn (mkind m) _ (Hblk off Hoff)). nia.
  - intros off' Hoff'. rewrite map_off_blocks by lia. cbn zeta. intros [= Hf Hrow].
    pose proof (Z.mod_pos_bound off' (STRIPE_BLOCK_SIZE m) HS) as Hm'.
    destruct (split_unique (STRIPE_BLOCK_SIZE m) _ _ _ _ HS Hm' Hm Hrow) as [Hr1 Hr2].
    apply (block_inj _ r Hn) in Hf; [|auto..|done].
    rewrite (Z.div_mod off' (STRIPE_BLOCK_SIZE m)), (Z.div_mod off (STRIPE_BLOCK_SIZE m)) by lia. by rewrite Hf, Hr2.
Qed.

(** C26. The sizes computed by [get_size_per_disk] are large enough: for a file of
    [sz] pages every page is mapped below the size given for its native file,
    for the RAIDs, which look at the last [2 n] blocks, and for the hash, which
    looks at a whole cycle of 191. *)
Theorem mapper_sizes_sufficient r m sz :
  mapper_wf m → 0 ≤ r → 0 ≤ sz →
  ∃ ret, get_size_per_disk r m sz = Ok ret ∧ length ret = length (mfiles m) ∧
    ∀ off bid, 0 ≤ off < sz → map_off r m off = Ok bid →
      ∃ s, ret !! Z.to_nat (bid_idx bid) = Some s ∧ bid_off bid < s.
Proof. apply size_per_disk_spec. Qed.

(** A [logical_file_partition] made from distinct native-file numbers
    translates exactly the pages of these files: such a page is mapped to the
    position of its native file in the partition, with the offset unchanged,
    and [map2file] agrees; a page of any other native file fails the
    assertion. *)
Theorem partition_map_correct r m idxs off :
  mapper_wf m → 0 ≤ r → 0 ≤ off → NoDup idxs → Forall (λ x, 0 ≤ x < get_num_files m) idxs →
  ∃ p bid, logical_file_partition_ctor idxs m = Ok p ∧ map_off r m off = Ok bid ∧
    ((∃ i, idxs !! i = Some (bid_idx bid) ∧
        lp_map r p off = Ok (mkBid (Z.of_nat i) (bid_off bid)) ∧ lp_map2file r p off = Ok (Z.of_nat i)) ∨
     (bid_idx bid ∉ idxs ∧ lp_map r p off = Throw AssertFailed ∧ lp_map2file r p off = Throw AssertFailed)).
Proof.
  intros Hwf Hr0 Hoff Hnd Hall. pose proof (mapper_wf_files m Hwf) as Hn. unfold logical_file_partition_ctor.
  destruct (fill_file_map_spec 0 idxs (replicate (length (mfiles m)) (-1))) as (fm & Hrun & Hlen & Hin & Hout);
    [lia|done|by rewrite length_replicate|].
  rewrite Hrun. cbn [rbind].
  set (bid := mkBid (block_file (mkind m) (get_num_files m) r (off / STRIPE_BLOCK_SIZE m))
    (block_row (mkind m) (get_num_files m) (off / STRIPE_BLOCK_SIZE m) * STRIPE_BLOCK_SIZE m + off mod STRIPE_BLOCK_SIZE m)).
  assert (map_off r m off = Ok bid) as Hmap by (apply map_off_blocks; [done|apply Hwf|done|done]).
  assert (map2file r m off = Ok (bid_idx bid)) as Hm2
    by (by apply map2file_agrees).
  assert (0 ≤ bid_idx bid < get_num_files m) as Hr by (by apply block_file_range).
  eexists _, bid. split_and!; [reflexivity|done|]. unfold lp_map, lp_map2file, get_mapper, lp_lookup.
  cbn [lp_mapper rbind file_map]. rewrite Hmap, Hm2. cbn [rbind].
  destruct (decide (bid_idx bid ∈ idxs)) as [Hin'|Hn']; [left|right].
  - apply list_elem_of_lookup in Hin' as [i Hi]. exists i. rewrite (Hin i _ Hi). rewrite Z.add_0_l.
    rewrite (proj2 (Z.leb_le 0 (Z.of_nat i))) by lia. by split_and!.
  - rewrite (Hout (bid_idx bid) ltac:(lia) Hn'), lookup_replicate_2 by (unfold get_num_files in Hr; lia). by split_and!.
Qed.

(** *** Witnesses *)

Definition ex_files : list part_file_info := [mkPart "/a" 0 0; mkPart "/b" 1 0; mkPart "/c" 2 1].
Definition ex_mapper (k : mapping) : file_mapper := mkMapper k "f" ex_files 4.

Lemma mapper_no_overlap_witness :
  ∃ bid, map_off 0 (ex_mapper RAID5) 30 = Ok bid ∧ map2file 0 (ex_mapper RAID5) 30 = Ok (bid_idx bid).
Proof.
  destruct (mapper_no_overlap 0 (ex_mapper RAID5) 30) as (bid & H1 & H2 & _); [split; [simpl; lia|done]|lia|lia|].
  exists bid. split; [exact H1|exact H2].
Defined.

Lemma mapper_sizes_sufficient_witness :
  ∃ ret, get_size_per_disk 0 (ex_mapper HASH) 30 = Ok ret ∧ length ret = 3%nat.
Proof.
  destruct (mapper_sizes_sufficient 0 (ex_mapper HASH) 30) as (ret & H1 & H2 & _); [split; [simpl; lia|done]|lia|lia|].
  exists ret. split; [exact H1|exact H2].
Defined.

Lemma partition_map_correct_witness :
  ∃ p bid, logical_file_partition_ctor [2; 0] (ex_mapper RAID0) = Ok p ∧
    map_off 0 (ex_mapper RAID0) 9 = Ok bid ∧ lp_map2file 0 p 9 = Ok 0.
Proof.
  destruct (partition_map_correct 0 (ex_mapper RAID0) [2; 0] 9) as (p & bid & H1 & H2 & H3).
  - split; [simpl; lia|done].
  - lia.
  - lia.
  - apply (bool_decide_unpack _). vm_compute. exact I.
  - repeat (apply Forall_cons_2; [unfold get_num_files; simpl; lia|]). apply Forall_nil_2.
  - exists p, bid. split; [exact H1|]. split; [exact H2|]. injection H1 as <-. reflexivity.
Defined.
