(* ===== verification/NativeFs.v ===== *)
(** * The native file system: [SAFS/libsafs/native_file.h] and [native_file.cpp],
      with the string helpers of [common.h]/[common.cpp] they use

    SAFS keeps the parts of its files in the directories of a native file
    system.  A file system is a finite map from paths to nodes, a path the list
    of its components; the POSIX calls the code makes are functions on it.  The
    working directory is the root; there are no links, and [..] is a component
    like any other.  A call fails for the reasons that depend on the tree (a
    missing or non-empty directory, a file in the place of a directory); lack of
    space and of permission do not occur. *)
From Stdlib Require Import Ascii.
From Stdlib Require String.
From S2P Require Import Prelude.
From stdpp Require Import options.
Open Scope Z_scope.

(** ** Strings *)

Fixpoint split_on (d : ascii) (s : string) : list string :=
  match s with
  | EmptyString => [""]
  | String c s =>
      if decide (c = d) then "" :: split_on d s
      else match split_on d s with
           | x :: l => String c x :: l
           | [] => []
           end
  end.

(** [split_string]: what [getline] returns on a string stream; a last empty
    piece is not returned. *)
Definition split_string (s : string) (d : ascii) : list string :=
  let l := split_on d s in
  match last l with Some "" => removelast l | _ => l end.

(** [itoa] of a natural number and [atoi]. *)
Definition digit (n : Z) : ascii := ascii_of_nat (48 + Z.to_nat n).
Fixpoint itoa_loop (fuel : nat) (n : Z) (acc : string) : string :=
  match fuel with
  | O => acc
  | S fuel =>
      let acc := String (digit (n mod 10)) acc in
      if n <? 10 then acc else itoa_loop fuel (n / 10) acc
  end.
Definition itoa (n : Z) : string := itoa_loop (S (Z.to_nat n)) n "".

Definition isspace (c : ascii) : bool := let n := nat_of_ascii c in (n =? 32)%nat || ((9 <=? n) && (n <=? 13))%nat.
Definition isdigit (c : ascii) : bool := let n := nat_of_ascii c in ((48 <=? n) && (n <=? 57))%nat.
Fixpoint atoi_digits (s : string) (acc : Z) : Z :=
  match s with
  | String c s => if isdigit c then atoi_digits s (10 * acc + (Z.of_nat (nat_of_ascii c) - 48)) else acc
  | EmptyString => acc
  end.
Fixpoint atoi (s : string) : Z :=
  match s with
  | EmptyString => 0
  | String c s' =>
      if isspace c then atoi s'
      else if decide (c = "-"%char) then - atoi_digits s' 0
      else if decide (c = "+"%char) then atoi_digits s' 0
      else atoi_digits s 0
  end.

(** ** Paths and nodes *)

Abbreviation path := (list string).

Inductive node := Dir | File (bytes : list Z).

Abbreviation nfs := (gmap (list string) node).

(** Empty components and [.] are skipped. *)
Definition path_of (name : string) : path :=
  filter (λ x, x ≠ "" ∧ x ≠ ".") (split_on "/" name).

Definition stat (fs : nfs) (p : path) : option node :=
  match p with [] => Some Dir | _ => fs !! p end.

(** The node a name denotes; the empty name denotes none. *)
Definition namei (fs : nfs) (name : string) : option node :=
  if decide (name = "") then None else stat fs (path_of name).

Definition is_Dir (n : option node) : bool := match n with Some Dir => true | _ => false end.

Definition parent (p : path) : path := removelast p.

(** The children of [p], in the order of the stream. *)
Definition readdir (fs : nfs) (p : path) : list string :=
  omap (λ e : path * node,
          match last e.1 with
          | Some x => if decide (e.1 = p ++ [x]) then Some x else None
          | None => None
          end) (map_to_list fs).

Inductive errno := EEXIST | ENOENT | ENOTDIR | EISDIR | ENOTEMPTY | EINVAL.

Definition sys_mkdir (name : string) (fs : nfs) : nfs * option errno :=
  let p := path_of name in
  match namei fs name with
  | Some _ => (fs, Some EEXIST)
  | None =>
      if decide (name = "") then (fs, Some ENOENT) else
      match stat fs (parent p) with
      | Some Dir => (<[p := Dir]> fs, None)
      | Some (File _) => (fs, Some ENOTDIR)
      | None => (fs, Some ENOENT)
      end
  end.

Definition sys_rmdir (name : string) (fs : nfs) : nfs * option errno :=
  let p := path_of name in
  match fs !! p with
  | Some Dir => match readdir fs p with [] => (delete p fs, None) | _ => (fs, Some ENOTEMPTY) end
  | Some (File _) => (fs, Some ENOTDIR)
  | None => (fs, Some ENOENT)
  end.

Definition sys_unlink (name : string) (fs : nfs) : nfs * option errno :=
  let p := path_of name in
  match namei fs name with
  | Some (File _) => (delete p fs, None)
  | Some Dir => (fs, Some EISDIR)
  | None => (fs, Some ENOENT)
  end.

Definition set_length (n : nat) (bs : list Z) : list Z := take n bs ++ replicate (n - length bs) 0.

Definition sys_truncate (name : string) (size : Z) (fs : nfs) : nfs * option errno :=
  let p := path_of name in
  match namei fs name with
  | Some (File bs) => (<[p := File (set_length (Z.to_nat size) bs)]> fs, None)
  | Some Dir => (fs, Some EISDIR)
  | None => (fs, Some ENOENT)
  end.

(** [open] with [O_CREAT], and [fopen] with mode ["w"] when [trunc]. *)
Definition sys_creat (trunc : bool) (name : string) (fs : nfs) : nfs * option errno :=
  let p := path_of name in
  match namei fs name with
  | Some (File bs) => (if trunc then <[p := File []]> fs else fs, None)
  | Some Dir => (fs, Some EISDIR)
  | None =>
      if decide (name = "") then (fs, Some ENOENT) else
      match stat fs (parent p) with
      | Some Dir => (<[p := File []]> fs, None)
      | Some (File _) => (fs, Some ENOTDIR)
      | None => (fs, Some ENOENT)
      end
  end.

(** [posix_fallocate(fd, 0, size)] only makes a file longer. *)
Definition sys_fallocate (name : string) (size : Z) (fs : nfs) : nfs :=
  let p := path_of name in
  match namei fs name with
  | Some (File bs) => <[p := File (set_length (Nat.max (length bs) (Z.to_nat size)) bs)]> fs
  | _ => fs
  end.

(** Writing [data] at [pos] of an open file; a gap is filled with zeros. *)
Definition write_at (pos : nat) (data bs : list Z) : list Z :=
  set_length pos bs ++ data ++ drop (pos + length data) bs.
Definition sys_write (name : string) (pos : nat) (data : list Z) (fs : nfs) : nfs :=
  let p := path_of name in
  match namei fs name with
  | Some (File bs) => <[p := File (write_at pos data bs)]> fs
  | _ => fs
  end.

(** [rename] moves a whole tree. *)
Definition strip (p q : path) : option path :=
  if decide (take (length p) q = p) then Some (drop (length p) q) else None.
Definition move (p p' : path) (fs : nfs) : nfs :=
  list_to_map ((λ e : path * node,
    match strip p e.1 with Some r => (p' ++ r, e.2) | None => e end) <$> map_to_list fs).
Definition sys_rename (old new : string) (fs : nfs) : nfs * option errno :=
  let p := path_of old in
  let p' := path_of new in
  match namei fs old, namei fs new, stat fs (parent p') with
  | None, _, _ | _, _, None => (fs, Some ENOENT)
  | _, _, Some (File _) => (fs, Some ENOTDIR)
  | Some (File _), Some Dir, _ => (fs, Some EISDIR)
  | Some Dir, Some (File _), _ => (fs, Some ENOTDIR)
  | Some _, np', _ =>
      if decide (p = p') then (fs, None)
      else match strip p p' with
           | Some _ => (fs, Some EINVAL)
           | None =>
               match np', readdir fs p' with
               | Some Dir, _ :: _ => (fs, Some ENOTEMPTY)
               | _, _ => (move p p' (delete p' fs), None)
               end
           end
  end.

(** [dirname] *)
Fixpoint strip_slashes (rs : list ascii) : list ascii :=
  match rs with c :: rs' => if decide (c = "/"%char) then strip_slashes rs' else rs | [] => [] end.
Fixpoint strip_base (rs : list ascii) : list ascii :=
  match rs with c :: rs' => if decide (c = "/"%char) then rs else strip_base rs' | [] => [] end.
Definition dirname (name : string) : string :=
  let cs := String.list_ascii_of_string name in
  match strip_base (strip_slashes (reverse cs)) with
  | [] => match cs with c :: _ => if decide (c = "/"%char) then "/" else "." | [] => "." end
  | rs => match strip_slashes rs with
          | [] => "/"
          | rs' => String.string_of_list_ascii (reverse rs')
          end
  end.

(** ** [native_file]

    A [native_file] or [native_dir] is its name. *)

Definition resize (name : string) (new_size : Z) : M nfs bool := λ fs,
  match sys_truncate name new_size fs with (fs, None) => (fs, Ok true) | (fs, Some _) => (fs, Ok false) end.

(** The size of a directory is whatever the native file system reports;
    [get_size] is only used on files. *)
Definition get_size (name : string) (fs : nfs) : Z :=
  match namei fs name with
  | Some (File bs) => Z.of_nat (length bs)
  | Some Dir => 4096
  | None => -1
  end.

Definition file_exist (name : string) (fs : nfs) : bool :=
  match namei fs name with Some _ => true | None => false end.
Definition is_dir (name : string) (fs : nfs) : bool := is_Dir (namei fs name).
Definition get_dir_name (name : string) : string := dirname name.

(** The new name is returned with the result. *)
Definition file_rename (name new_name : string) : M nfs (bool * string) := λ fs,
  match sys_rename name new_name fs with
  | (fs, None) => (fs, Ok (true, new_name))
  | (fs, Some _) => (fs, Ok (false, name))
  end.

Definition create_file (name : string) (size : Z) : M nfs bool := λ fs,
  match sys_creat false name fs with
  | (fs, Some _) => (fs, Ok false)
  | (fs, None) => (if 0 <? size then sys_fallocate name size fs else fs, Ok true)
  end.

Definition delete_file (name : string) : M nfs bool := λ fs,
  match sys_unlink name fs with (fs, None) => (fs, Ok true) | (fs, Some _) => (fs, Ok false) end.

(** ** [native_dir] *)

(** The files read and the return value; the count includes [.] and [..]. *)
Definition read_all_files (name : string) (fs : nfs) : list string * Z :=
  if is_dir name fs then
    let l := readdir fs (path_of name) in (l, Z.of_nat (length l) + 2)
  else ([], -1).

Fixpoint mkdir_loop (strs : list string) (curr_dir : string) (fs : nfs) : nfs * res bool :=
  match strs with
  | [] => (fs, Ok true)
  | x :: strs =>
      let curr_dir := curr_dir +:+ x +:+ "/" in
      match sys_mkdir curr_dir fs with
      | (fs, None) | (fs, Some EEXIST) => mkdir_loop strs curr_dir fs
      | (fs, Some _) => (fs, Ok false)
      end
  end.
Definition create_dir (name : string) (recursive : bool) : M nfs bool := λ fs,
  if recursive then mkdir_loop (split_string name "/") "" fs
  else match sys_mkdir name fs with (fs, None) => (fs, Ok true) | (fs, Some _) => (fs, Ok false) end.

Definition rm (name : string) : M nfs bool := λ fs,
  match sys_rmdir name fs with (fs, None) => (fs, Ok true) | (fs, Some _) => (fs, Ok false) end.

(** The loop of [delete_dir] over the files of a directory; [del] is the
    recursive call. *)
Fixpoint delete_children (del : string → M nfs bool) (name : string) (files : list string) : M nfs bool :=
  match files with
  | [] => mret true
  | x :: files =>
      let child := name +:+ "/" +:+ x in
      let! fs := mget in
      let! ret := (if is_dir child fs then del child else delete_file child) in
      if ret then delete_children del name files else mret false
  end.

(** [delete_dir]; the recursion descends at most [fuel] levels. *)
Fixpoint delete_dir (fuel : nat) (name : string) (recursive : bool) : M nfs bool :=
  match fuel with
  | O => mthrow OutOfFuel
  | S fuel =>
      if recursive then
        let! fs := mget in
        let! ok := delete_children (λ child, delete_dir fuel child true) name (read_all_files name fs).1 in
        if ok then rm name else mret false
      else rm name
  end.

(** ** Lemmas on strings *)

Lemma split_on_ne d s : split_on d s ≠ [].
Proof. induction s as [|c s IH]; cbn; [done|]. case_decide; [done|]. by destruct (split_on d s). Qed.

Lemma split_on_join d a b : split_on d (a +:+ String d b) = split_on d a ++ split_on d b.
Proof.
  induction a as [|c a IH].
  - change ("" +:+ String d b) with (String d b). cbn [split_on]. by rewrite decide_True.
  - change (String c a +:+ String d b) with (String c (a +:+ String d b)). cbn [split_on].
    case_decide; rewrite IH; [done|]. pose proof (split_on_ne d a). by destruct (split_on d a).
Qed.

Lemma path_of_join a b : path_of (a +:+ "/" +:+ b) = path_of a ++ path_of b.
Proof. unfold path_of. by rewrite (split_on_join "/" a b : split_on _ (a +:+ "/" +:+ b) = _), filter_app. Qed.

(** A name that is one component. *)
Definition plain (x : string) : Prop := split_on "/" x = [x] ∧ x ≠ "" ∧ x ≠ ".".
#[global] Instance plain_dec x : Decision (plain x).
Proof. unfold plain. apply _. Defined.

Lemma path_of_plain x : plain x → path_of x = [x].
Proof. intros (Hs & H1 & H2). unfold path_of. rewrite Hs. by rewrite filter_cons_True. Qed.

Lemma path_of_in dir x : plain x → path_of (dir +:+ "/" +:+ x) = path_of dir ++ [x].
Proof. intros Hx. by rewrite path_of_join, (path_of_plain x Hx). Qed.

(** Digits *)
Lemma digit_code n : 0 ≤ n < 10 → nat_of_ascii (digit n) = (48 + Z.to_nat n)%nat.
Proof. intros Hn. apply nat_ascii_embedding. lia. Qed.

Lemma digit_not n : 0 ≤ n < 10 →
  isdigit (digit n) = true ∧ isspace (digit n) = false ∧ digit n ≠ "-"%char ∧ digit n ≠ "+"%char ∧ digit n ≠ "/"%char ∧
  digit n ≠ "h"%char ∧ digit n ≠ "."%char.
Proof.
  intros Hn. assert (n = 0 ∨ n = 1 ∨ n = 2 ∨ n = 3 ∨ n = 4 ∨ n = 5 ∨ n = 6 ∨ n = 7 ∨ n = 8 ∨ n = 9) as H by lia.
  by repeat destruct H as [->|H]; [..|subst n].
Qed.

(** A non-empty string of digits. *)
Fixpoint all_digits (s : string) : bool :=
  match s with EmptyString => true | String c s => isdigit c && all_digits s end.

Fixpoint digits_value (s : string) (acc : Z) : Z :=
  match s with EmptyString => acc | String c s => digits_value s (10 * acc + (Z.of_nat (nat_of_ascii c) - 48)) end.

Lemma atoi_digits_all s acc : all_digits s = true → atoi_digits s acc = digits_value s acc.
Proof.
  revert acc. induction s as [|c s IH]; intros acc; cbn; [done|]. intros [-> Hs]%andb_true_iff. by apply IH.
Qed.

Lemma itoa_loop_spec fuel n acc :
  0 ≤ n < Z.of_nat fuel → all_digits acc = true →
  ∃ c s, itoa_loop fuel n acc = String c s ∧ isdigit c = true ∧ all_digits s = true ∧
    digits_value (itoa_loop fuel n acc) 0 = digits_value acc n.
Proof.
  revert n acc. induction fuel as [|fuel IH]; intros n acc Hn Hacc; [lia|]. cbn [itoa_loop].
  pose proof (Z.mod_pos_bound n 10 ltac:(lia)) as Hm. destruct (digit_not (n mod 10) Hm) as (Hd & _).
  destruct (Z.ltb_spec n 10).
  - rewrite Z.mod_small in * by lia. exists (digit n), acc. split_and!; [done|done|done|].
    cbn [digits_value]. rewrite digit_code by lia. f_equal. lia.
  - destruct (IH (n / 10) (String (digit (n mod 10)) acc)) as (c & s & H1 & H2 & H3 & H4).
    + pose proof (Z.div_mod n 10 ltac:(lia)). lia.
    + cbn [all_digits]. by rewrite Hd, Hacc.
    + exists c, s. split_and!; [done..|]. rewrite H4. cbn [digits_value]. rewrite digit_code by lia. f_equal.
      pose proof (Z.div_mod n 10 ltac:(lia)). lia.
Qed.

Lemma itoa_spec n : 0 ≤ n →
  ∃ c s, itoa n = String c s ∧ isdigit c = true ∧ all_digits s = true ∧ digits_value (itoa n) 0 = n.
Proof.
  intros Hn. destruct (itoa_loop_spec (S (Z.to_nat n)) n "") as (c & s & H1 & H2 & H3 & H4); [lia|done|].
  exists c, s. by split_and!.
Qed.

Lemma isdigit_cases c : isdigit c = true → ∃ n, 0 ≤ n < 10 ∧ c = digit n.
Proof.
  unfold isdigit. intros [H1%Nat.leb_le H2%Nat.leb_le]%andb_true_iff.
  exists (Z.of_nat (nat_of_ascii c) - 48). split; [lia|]. unfold digit.
  rewrite <-(ascii_nat_embedding c) at 1. f_equal. lia.
Qed.

Lemma atoi_itoa n : 0 ≤ n → atoi (itoa n) = n.
Proof.
  intros Hn. destruct (itoa_spec n Hn) as (c & s & H1 & H2 & H3 & H4). rewrite <-H4 at 2. rewrite H1.
  destruct (isdigit_cases c H2) as (k & Hk & ->). destruct (digit_not k Hk) as (_ & Hs & Hm & Hp & _).
  cbn [atoi]. rewrite Hs, !decide_False by done. apply atoi_digits_all. cbn. by rewrite H2, H3.
Qed.

Lemma split_on_digits s : all_digits s = true → split_on "/" s = [s].
Proof.
  induction s as [|c s IH]; cbn [all_digits split_on]; [done|]. intros [H1 H2]%andb_true_iff.
  destruct (isdigit_cases c H1) as (k & Hk & ->). destruct (digit_not k Hk) as (_ & _ & _ & _ & Hd & _).
  by rewrite decide_False, (IH H2) by done.
Qed.

Lemma itoa_plain n : 0 ≤ n → plain (itoa n) ∧ itoa n ≠ "header".
Proof.
  intros Hn. destruct (itoa_spec n Hn) as (c & s & H1 & H2 & H3 & _). rewrite H1.
  destruct (isdigit_cases c H2) as (k & Hk & Hc). destruct (digit_not k Hk) as (_ & _ & _ & _ & _ & Hh & Hd).
  split; [|intros [= ? ?]; congruence]. split; [|split; [done|intros [= ? ?]; congruence]].
  apply split_on_digits. cbn. by rewrite H2, H3.
Qed.

Lemma itoa_inj a b : 0 ≤ a → 0 ≤ b → itoa a = itoa b → a = b.
Proof. intros Ha Hb He. by rewrite <-(atoi_itoa a Ha), <-(atoi_itoa b Hb), He. Qed.

(** ** Lemmas on the tree *)

(** Every entry is in a directory. *)
Definition fs_wf (fs : nfs) : Prop := ∀ p x, is_Some (fs !! (p ++ [x])) → stat fs p = Some Dir.

Lemma stat_snoc fs p x : stat fs (p ++ [x]) = fs !! (p ++ [x]).
Proof. by destruct p. Qed.

Lemma parent_snoc p x : parent (p ++ [x]) = p.
Proof. apply removelast_last. Qed.

Lemma stat_insert_ne fs p q n : p ≠ q → q ≠ [] → stat (<[p := n]> fs) q = stat fs q.
Proof. intros Hne Hq. destruct q; [done|]. cbn. by rewrite lookup_insert_ne. Qed.

Lemma wf_prefix fs p q : fs_wf fs → q ≠ [] → is_Some (stat fs (p ++ q)) → stat fs p = Some Dir.
Proof.
  intros Hwf. induction q as [|x q IH] using rev_ind; intros Hq Hs; [done|].
  rewrite (assoc_L (++)), stat_snoc in Hs. apply Hwf in Hs.
  destruct (decide (q = [])) as [->|Hne]; [by rewrite app_nil_r in Hs|]. apply IH; [done|by eexists].
Qed.

Lemma elem_of_readdir fs p x : x ∈ readdir fs p ↔ is_Some (fs !! (p ++ [x])).
Proof.
  unfold readdir. rewrite list_elem_of_omap. split.
  - intros ([q n] & Hin & Hx). apply elem_of_map_to_list in Hin. cbn in Hx.
    destruct (last q) as [y|]; [|done]. case_decide as Hq; [|done]. injection Hx as ->. subst q. by exists n.
  - intros [n Hn]. exists (p ++ [x], n). split; [by apply elem_of_map_to_list|]. cbn.
    by rewrite last_snoc, decide_True.
Qed.

Lemma NoDup_readdir fs p : NoDup (readdir fs p).
Proof.
  unfold readdir. pose proof (NoDup_fst_map_to_list fs) as Hnd. revert Hnd.
  induction (map_to_list fs) as [|[q n] l IH]; intros Hnd; cbn; [constructor|].
  cbn in Hnd. apply NoDup_cons in Hnd as [Hq Hnd]. specialize (IH Hnd).
  destruct (last q) as [x|]; [|done]. case_decide as Hqx; [|done]. constructor; [|done].
  intros ([q' n'] & Hin & Hx)%list_elem_of_omap. cbn in Hx.
  destruct (last q') as [y|]; [|done]. case_decide as Hq'; [|done]. injection Hx as ->.
  apply Hq. apply list_elem_of_fmap. exists (q', n'). split; [by subst|done].
Qed.

(** A directory whose only child is [x]. *)
Lemma readdir_one fs p x :
  (∀ y, is_Some (fs !! (p ++ [y])) ↔ y = x) → readdir fs p = [x].
Proof.
  intros Hx. pose proof (NoDup_readdir fs p) as Hnd.
  assert (∀ y, y ∈ readdir fs p ↔ y = x) as Hel by (intros; by rewrite elem_of_readdir).
  apply Permutation_singleton_r. apply NoDup_Permutation; [done|apply NoDup_singleton|].
  intros y. by rewrite Hel, list_elem_of_singleton.
Qed.

(** Adding an entry to a directory, and replacing a file, keep a tree. *)
Lemma wf_insert fs p n :
  fs_wf fs → stat fs (parent p) = Some Dir → (fs !! p = Some Dir → n = Dir) → fs_wf (<[p := n]> fs).
Proof.
  intros Hwf Hp Hn q x Hs. destruct (decide (p = q ++ [x])) as [->|Hne].
  - rewrite parent_snoc in Hp. destruct q as [|y q]; [done|]. cbn in *. rewrite lookup_insert_ne; [done|].
    intros He. apply (f_equal length) in He. rewrite length_cons, length_app in He. simpl in He. lia.
  - rewrite lookup_insert_ne in Hs by done. pose proof (Hwf q x Hs) as Hq. destruct q as [|y q]; [done|]. cbn in *.
    destruct (decide (p = y :: q)) as [->|Hne']; [|by rewrite lookup_insert_ne].
    rewrite lookup_insert_eq. f_equal. by apply Hn.
Qed.

Lemma stat_prefix_insert fs p q x n : stat (<[p ++ q ++ [x] := n]> fs) p = stat fs p.
Proof.
  destruct p as [|y p]; [done|]. cbn. apply lookup_insert_ne. intros He. apply (f_equal length) in He.
  rewrite length_cons, length_app, length_app in He. simpl in He. lia.
Qed.

Lemma wf_delete fs p : fs_wf fs → readdir fs p = [] → fs_wf (delete p fs).
Proof.
  intros Hwf Hnil q x [n Hn]. apply lookup_delete_Some in Hn as [Hne Hn].
  pose proof (Hwf q x (mk_is_Some _ _ Hn)) as Hq. destruct q as [|y q]; [done|]. cbn in *.
  apply lookup_delete_Some. split; [|done]. intros ->.
  assert (x ∈ readdir fs (y :: q)) as Hx by (apply elem_of_readdir; by eexists). rewrite Hnil in Hx. by apply not_elem_of_nil in Hx.
Qed.

(** *** [mkdir] along a path *)

Lemma split_on_piece d s x : x ∈ split_on d s → split_on d x = [x].
Proof.
  revert x. induction s as [|c s IH]; intros x; cbn [split_on].
  - rewrite list_elem_of_singleton. by intros ->.
  - case_decide as Hc.
    + intros [->|Hx]%elem_of_cons; [done|by apply IH].
    + pose proof (split_on_ne d s) as Hne. destruct (split_on d s) as [|y l]; [done|].
      intros [->|Hx]%elem_of_cons; [|apply IH; by right]. cbn [split_on]. rewrite decide_False by done.
      by rewrite (IH y) by left.
Qed.

Lemma path_of_piece s x : x ∈ split_on "/" s → path_of x = filter (λ x, x ≠ "" ∧ x ≠ ".") [x].
Proof. intros Hx. unfold path_of. by rewrite (split_on_piece _ _ _ Hx). Qed.

Lemma join_cons x l : mjoin (path_of <$> (x :: l)) = path_of x ++ mjoin (path_of <$> l).
Proof. done. Qed.

Lemma path_of_all_plain s : Forall plain (path_of s).
Proof.
  apply Forall_forall. intros x [[H1 H2] Hx]%list_elem_of_filter. split; [by eapply split_on_piece|done].
Qed.

Lemma path_of_pieces l s : (∀ x, x ∈ l → x ∈ split_on "/" s) → mjoin (path_of <$> l) = filter (λ x, x ≠ "" ∧ x ≠ ".") l.
Proof.
  induction l as [|x l IH]; intros Hl; [done|]. rewrite join_cons.
  rewrite IH by (intros; apply Hl; by right). rewrite (path_of_piece s x) by (apply Hl; left).
  by rewrite <-filter_app.
Qed.

Lemma path_of_split s : mjoin (path_of <$> split_string s "/") = path_of s.
Proof.
  unfold split_string, path_of at 2. destruct (last (split_on "/" s)) as [x|] eqn:Hl; [|by apply (path_of_pieces _ s)].
  destruct (decide (x = "")) as [->|Hx].
  - apply last_Some in Hl as [l Hl]. rewrite Hl. rewrite removelast_last, filter_app.
    rewrite (path_of_pieces l s); [|intros y Hy; rewrite Hl; apply elem_of_app; by left].
    rewrite (filter_cons_False _ "") by (by intros []). by rewrite app_nil_r.
  - destruct x; [done|]. by apply (path_of_pieces _ s).
Qed.

Definition slashed (s : string) : Prop := s = "" ∨ ∃ c, s = c +:+ "/".

Lemma string_app_assoc (a b c : string) : (a +:+ b) +:+ c = a +:+ b +:+ c.
Proof.
  induction a as [|x a IH]; [done|].
  change (String x ((a +:+ b) +:+ c) = String x (a +:+ b +:+ c)). by rewrite IH.
Qed.

Lemma path_of_slash a : path_of (a +:+ "/") = path_of a.
Proof. change "/" with ("/" +:+ "") at 1. rewrite path_of_join. by rewrite app_nil_r. Qed.

Lemma path_of_next curr x :
  slashed curr → path_of (curr +:+ x +:+ "/") = path_of curr ++ path_of x ∧ slashed (curr +:+ x +:+ "/").
Proof.
  intros Hc. split; [|right; exists (curr +:+ x); by rewrite string_app_assoc].
  rewrite <-string_app_assoc, path_of_slash. destruct Hc as [->|[c ->]]; [done|].
  by rewrite string_app_assoc, path_of_join, path_of_slash.
Qed.

Lemma wf_prefix' fs p q : fs_wf fs → is_Some (stat fs (p ++ q)) → is_Some (stat fs p).
Proof.
  intros Hwf Hs. destruct (decide (q = [])) as [->|Hne]; [by rewrite app_nil_r in Hs|].
  exists Dir. by apply (wf_prefix fs p q).
Qed.

Lemma namei_ne fs name : name ≠ "" → namei fs name = stat fs (path_of name).
Proof. intros Hn. unfold namei. by rewrite decide_False. Qed.

Lemma path_of_ne name p x : path_of name = p ++ [x] → name ≠ "".
Proof. intros Hp ->. cbn in Hp. by destruct p. Qed.

Lemma namei_snoc fs name p x : path_of name = p ++ [x] → namei fs name = fs !! (p ++ [x]).
Proof. intros Hp. rewrite namei_ne by (by eapply path_of_ne). by rewrite Hp, stat_snoc. Qed.

Lemma slash_ne a b : a +:+ b +:+ "/" ≠ "".
Proof. by destruct a, b. Qed.

Lemma sys_mkdir_exists name fs : name ≠ "" → is_Some (stat fs (path_of name)) → sys_mkdir name fs = (fs, Some EEXIST).
Proof. intros Hne [n Hn]. unfold sys_mkdir. by rewrite namei_ne, Hn. Qed.

Lemma mkdir_loop_exists strs curr fs :
  fs_wf fs → slashed curr → is_Some (stat fs (path_of curr ++ mjoin (path_of <$> strs))) →
  mkdir_loop strs curr fs = (fs, Ok true).
Proof.
  intros Hwf. revert curr. induction strs as [|x strs IH]; intros curr Hc Hs; [done|]. cbn [mkdir_loop].
  rewrite join_cons, (assoc_L (++)) in Hs.
  destruct (path_of_next curr x Hc) as [Hp Hc']. rewrite sys_mkdir_exists; [|apply slash_ne|].
  - apply IH; [done|]. by rewrite Hp.
  - rewrite Hp. by apply (wf_prefix' _ _ _ Hwf Hs).
Qed.

Lemma mkdir_loop_spec strs curr fs p f :
  fs_wf fs → slashed curr → path_of curr ++ mjoin (path_of <$> strs) = p ++ [f] →
  stat fs p = Some Dir → fs !! (p ++ [f]) = None →
  path_of curr ≠ p ++ [f] →
  mkdir_loop strs curr fs = (<[p ++ [f] := Dir]> fs, Ok true).
Proof.
  intros Hwf Hc He Hp Hf. revert curr Hc He. induction strs as [|x strs IH]; intros curr Hc He Hne.
  { by rewrite app_nil_r in He. }
  cbn [mkdir_loop]. rewrite join_cons, (assoc_L (++)) in He. destruct (path_of_next curr x Hc) as [Hpn Hc'].
  destruct (decide (path_of curr ++ path_of x = p ++ [f])) as [Heq|Hneq].
  - unfold sys_mkdir. rewrite namei_ne by apply slash_ne. rewrite Hpn, Heq, stat_snoc, Hf, parent_snoc, Hp.
    rewrite decide_False by apply slash_ne. apply mkdir_loop_exists; [|done|].
    + apply wf_insert; [done|by rewrite parent_snoc|done].
    + rewrite Hpn, He, stat_snoc, lookup_insert_eq. by eexists.
  - rewrite sys_mkdir_exists; [apply IH; [done|by rewrite Hpn|by rewrite Hpn]|apply slash_ne|]. rewrite Hpn.
    destruct (mjoin (path_of <$> strs)) as [|y l _] using rev_ind; [by rewrite app_nil_r in He|].
    rewrite (assoc_L (++)) in He. apply app_inj_tail in He as [He _].
    apply (wf_prefix' fs _ l Hwf). rewrite He, Hp. by eexists.
Qed.

Lemma create_dir_spec name fs p f :
  fs_wf fs → path_of name = p ++ [f] → stat fs p = Some Dir → fs !! (p ++ [f]) = None →
  create_dir name true fs = (<[p ++ [f] := Dir]> fs, Ok true).
Proof.
  intros Hwf Hn Hp Hf. unfold create_dir. apply mkdir_loop_spec; [done|by left|by rewrite path_of_split|done|done|].
  intros He. cbn in He. by destruct p.
Qed.

(** *** Files in a directory *)

Lemma create_file_spec name size fs p x :
  path_of name = p ++ [x] → stat fs p = Some Dir → fs !! (p ++ [x]) = None →
  create_file name size fs = (<[p ++ [x] := File (replicate (Z.to_nat size) 0)]> fs, Ok true).
Proof.
  intros Hn Hp Hx. unfold create_file, sys_creat. rewrite (namei_snoc _ _ _ _ Hn), Hx, Hn, parent_snoc, Hp.
  rewrite decide_False by (by eapply path_of_ne). destruct (Z.ltb_spec 0 size).
  - unfold sys_fallocate. rewrite (namei_snoc _ _ _ _ Hn), lookup_insert_eq, Hn, insert_insert_eq.
    unfold set_length. cbn [length]. by rewrite Nat.max_0_l, Nat.sub_0_r, firstn_nil.
  - by replace (Z.to_nat size) with 0%nat by lia.
Qed.

Lemma sys_creat_spec trunc name fs p x :
  path_of name = p ++ [x] → stat fs p = Some Dir → fs !! (p ++ [x]) = None →
  sys_creat trunc name fs = (<[p ++ [x] := File []]> fs, None).
Proof.
  intros Hn Hp Hx. unfold sys_creat. rewrite (namei_snoc _ _ _ _ Hn), Hx, Hn, parent_snoc, Hp.
  by rewrite decide_False by (by eapply path_of_ne).
Qed.

Lemma sys_write_spec name pos data fs p x bs :
  path_of name = p ++ [x] → fs !! (p ++ [x]) = Some (File bs) →
  sys_write name pos data fs = <[p ++ [x] := File (write_at pos data bs)]> fs.
Proof. intros Hn Hx. unfold sys_write. by rewrite (namei_snoc _ _ _ _ Hn), Hx, Hn. Qed.

(** *** Deleting a tree

    [prune p fs] is the file system without [p] and what is below it. *)
Definition prune (p : path) (fs : nfs) : nfs := filter (λ e, ¬ p `prefix_of` e.1) fs.

Lemma lookup_prune p fs q : prune p fs !! q = if decide (p `prefix_of` q) then None else fs !! q.
Proof.
  unfold prune. case_decide as Hq.
  - apply map_lookup_filter_None. right. intros n _ Hn. by apply Hn.
  - destruct (fs !! q) as [n|] eqn:Hn.
    + by apply map_lookup_filter_Some.
    + apply map_lookup_filter_None. by left.
Qed.

Lemma wf_prune p fs : fs_wf fs → fs_wf (prune p fs).
Proof.
  intros Hwf q x [n Hn]. rewrite lookup_prune in Hn. case_decide as Hp; [done|].
  pose proof (Hwf q x (mk_is_Some _ _ Hn)) as Hq. destruct q as [|y q]; [done|]. cbn in *.
  rewrite lookup_prune, decide_False; [done|]. intros Hp'. apply Hp. by apply (prefix_app_r _ (y :: q) [x]).
Qed.

(** The names in the tree can be looked up. *)
Definition plain_fs (fs : nfs) : Prop := ∀ p, is_Some (fs !! p) → Forall plain p.
(** Nothing is more than [n] levels below [p]. *)
Definition depth_le (fs : nfs) (p : path) (n : nat) : Prop := ∀ r, is_Some (fs !! (p ++ r)) → (length r ≤ n)%nat.

Lemma delete_file_spec name fs p x bs :
  path_of name = p ++ [x] → fs !! (p ++ [x]) = Some (File bs) → delete_file name fs = (delete (p ++ [x]) fs, Ok true).
Proof. intros Hn Hx. unfold delete_file, sys_unlink. by rewrite (namei_snoc _ _ _ _ Hn), Hx, Hn. Qed.

(** A file has nothing below it. *)
Lemma prune_file fs p x bs : fs_wf fs → fs !! (p ++ [x]) = Some (File bs) → prune (p ++ [x]) fs = delete (p ++ [x]) fs.
Proof.
  intros Hwf Hp. apply map_eq. intros q. rewrite lookup_prune. case_decide as Hq.
  - destruct Hq as [r ->]. symmetry. destruct r as [|y r]; [rewrite app_nil_r; apply lookup_delete_eq|].
    rewrite lookup_delete_ne by (intros He; apply (f_equal length) in He; rewrite !length_app in He; simpl in He; lia).
    apply eq_None_not_Some. intros Hs. assert (stat fs (p ++ [x]) = Some Dir) as Hd.
    { apply (wf_prefix fs _ (y :: r) Hwf); [done|]. by destruct p. }
    by rewrite stat_snoc, Hp in Hd.
  - symmetry. apply lookup_delete_ne. intros <-. by apply Hq.
Qed.

Definition prune_all (p : path) (l : list string) (fs : nfs) : nfs := foldl (λ m y, prune (p ++ [y]) m) fs l.

Lemma lookup_prune_all p l fs q :
  prune_all p l fs !! q = if decide (Exists (λ y, p ++ [y] `prefix_of` q) l) then None else fs !! q.
Proof.
  revert fs. induction l as [|y l IH]; intros fs; [by rewrite decide_False by (by intros ?%Exists_nil)|].
  change (prune_all p (y :: l) fs) with (prune_all p l (prune (p ++ [y]) fs)). rewrite IH, lookup_prune.
  repeat case_decide; rewrite Exists_cons in *; tauto.
Qed.

(** Sibling trees do not meet. *)
Lemma sibling_apart (p : path) y y' r : p ++ [y] `prefix_of` p ++ y' :: r → y = y'.
Proof. intros [k Hk]. rewrite <-(assoc_L (++)) in Hk. apply app_inv_head in Hk. by injection Hk. Qed.

Lemma prune_siblings fs p y :
  fs_wf fs → plain_fs fs → fs_wf (prune (p ++ [y]) fs) ∧ plain_fs (prune (p ++ [y]) fs) ∧
  (∀ q n, depth_le fs q n → depth_le (prune (p ++ [y]) fs) q n) ∧
  (∀ y', y' ≠ y → prune (p ++ [y]) fs !! (p ++ [y']) = fs !! (p ++ [y'])).
Proof.
  intros Hwf Hpl. assert (∀ q, is_Some (prune (p ++ [y]) fs !! q) → is_Some (fs !! q)) as Hsub.
  { intros q. rewrite lookup_prune. case_decide; [by intros []|done]. }
  split_and!; [by apply wf_prune|intros q Hq; by apply Hpl, Hsub|intros q n Hd r Hr; by apply Hd, Hsub|].
  intros y' Hne. rewrite lookup_prune, decide_False; [done|]. intros He%sibling_apart. congruence.
Qed.

Lemma delete_children_spec del name p fuel l fs :
  (∀ fs child q x, fs_wf fs → plain_fs fs → path_of child = q ++ [x] → fs !! (q ++ [x]) = Some Dir →
     depth_le fs (q ++ [x]) fuel → del child fs = (prune (q ++ [x]) fs, Ok true)) →
  path_of name = p → fs_wf fs → plain_fs fs → depth_le fs p (S fuel) → NoDup l →
  (∀ y, y ∈ l → is_Some (fs !! (p ++ [y]))) →
  delete_children del name l fs = (prune_all p l fs, Ok true).
Proof.
  intros Hdel Hp. revert fs. induction l as [|y l IH]; intros fs Hwf Hpl Hd Hnd Hl; [done|].
  apply NoDup_cons in Hnd as [Hy Hnd]. destruct (Hl y ltac:(left)) as [n Hn]. cbn [delete_children]. cbn zeta.
  assert (plain y) as Hplain.
  { pose proof (Hpl _ (mk_is_Some _ _ Hn)) as HF. apply Forall_app in HF as [_ HF]. by inversion HF. }
  assert (path_of (name +:+ "/" +:+ y) = p ++ [y]) as Hc by (rewrite path_of_in by done; by rewrite Hp).
  rewrite (mbind_ok _ _ _ _ _ eq_refl : mbind' mget _ _ = _). unfold is_dir. rewrite (namei_snoc _ _ _ _ Hc), Hn.
  rewrite (mbind_ok _ _ _ (prune (p ++ [y]) fs) true).
  - destruct (prune_siblings fs p y Hwf Hpl) as (H1 & H2 & H3 & H4). apply IH; [done|done|by apply H3|done|].
    intros y' Hy'. rewrite H4 by (intros ->; done). apply Hl. by right.
  - destruct n as [|bs]; cbn [is_Dir].
    + apply Hdel; [done..|]. intros r Hr. rewrite <-(assoc_L (++)) in Hr. apply Hd in Hr. simpl in Hr. lia.
    + by rewrite (delete_file_spec _ _ p y bs Hc Hn), (prune_file _ _ _ bs).
Qed.

Lemma delete_dir_step p x fs :
  fs_wf fs → fs !! (p ++ [x]) = Some Dir → let P := p ++ [x] in
  let fs' := prune_all P (readdir fs P) fs in
  fs' !! P = Some Dir ∧ readdir fs' P = [] ∧ delete P fs' = prune P fs.
Proof.
  intros Hwf Hd P fs'. assert (∀ y, y ∈ readdir fs P ↔ is_Some (fs !! (P ++ [y]))) as Hl by (intros; apply elem_of_readdir).
  assert (fs' !! P = Some Dir) as HP.
  { unfold fs'. rewrite lookup_prune_all, decide_False; [done|]. intros (y & _ & [r Hr])%Exists_exists.
    apply (f_equal length) in Hr. rewrite !length_app in Hr. simpl in Hr. lia. }
  assert (∀ y r, fs' !! (P ++ y :: r) = None) as Hnone.
  { intros y r. unfold fs'. rewrite lookup_prune_all. case_decide as He; [done|]. apply eq_None_not_Some. intros Hs.
    apply He, Exists_exists. exists y. split; [|exists r; by rewrite <-(assoc_L (++))].
    apply Hl. rewrite <-stat_snoc. apply (wf_prefix' fs _ r Hwf). rewrite <-(assoc_L (++)). cbn [app].
    unfold P in *. by destruct p. }
  split_and!; [done| |].
  - destruct (readdir fs' P) as [|y l] eqn:Hr; [done|]. assert (y ∈ readdir fs' P) as Hy by (rewrite Hr; left).
    apply elem_of_readdir in Hy. rewrite Hnone in Hy. by destruct Hy.
  - apply map_eq. intros q. rewrite lookup_prune. case_decide as Hq.
    + destruct Hq as [[|y r] ->]; [rewrite app_nil_r; apply lookup_delete_eq|].
      rewrite lookup_delete_ne; [apply Hnone|]. intros He. apply (f_equal length) in He. rewrite length_app in He. simpl in He. lia.
    + rewrite lookup_delete_ne by (intros <-; by apply Hq). unfold fs'. rewrite lookup_prune_all, decide_False; [done|].
      intros (y & _ & Hy)%Exists_exists. apply Hq. etrans; [|exact Hy]. by apply prefix_app_r.
Qed.

(** [delete_dir] with enough levels removes exactly the tree. *)
Lemma delete_dir_spec fuel name fs p x :
  fs_wf fs → plain_fs fs → path_of name = p ++ [x] → fs !! (p ++ [x]) = Some Dir → depth_le fs (p ++ [x]) fuel →
  delete_dir (S fuel) name true fs = (prune (p ++ [x]) fs, Ok true).
Proof.
  revert name fs p x. induction fuel as [|fuel IH]; intros name fs p x Hwf Hpl Hn Hd Hdepth;
    cbn [delete_dir]; rewrite (mbind_ok _ _ _ _ _ eq_refl : mbind' mget _ _ = _);
    unfold read_all_files, is_dir; rewrite (namei_snoc _ _ _ _ Hn), Hd; cbn [is_Dir fst]; rewrite Hn;
    destruct (delete_dir_step p x fs Hwf Hd) as (H1 & H2 & H3).
  all: rewrite (mbind_ok _ _ _ (prune_all (p ++ [x]) (readdir fs (p ++ [x])) fs) true);
    [unfold rm, sys_rmdir; by rewrite Hn, H1, H2, H3|].
  - destruct (readdir fs (p ++ [x])) as [|y l] eqn:Hr; [done|].
    assert (y ∈ readdir fs (p ++ [x])) as Hy by (rewrite Hr; left). apply elem_of_readdir, Hdepth in Hy. simpl in Hy. lia.
  - apply (delete_children_spec _ _ _ fuel); [|done|done|done|done|apply NoDup_readdir|].
    + intros fs1 child q z W1 W2 W3 W4 W5. by apply IH.
    + intros y. by rewrite elem_of_readdir.
Qed.
