(* ===== verification/SafsFile.v ===== *)
(** * SAFS files: [SAFS/libsafs/safs_file], [safs_header.h], [RAID_config]

    An SAFS file [f] is a directory [f] under every root directory of the RAID;
    each holds one part, a native file named after the number of the part, and
    the first part's directory also the file [header].  The native file system
    is the state; a [safs_file] object caches the name of its header file. *)
From Stdlib Require Import Ascii.
From Stdlib Require String.
From S2P Require Import Prelude FileMapper NativeFs.
From stdpp Require Import options.
Open Scope Z_scope.

Definition PAGE_SIZE : Z := 4096.

(** ** The header on disk: [fread] and [fwrite] of a [safs_header] *)

Fixpoint le_bytes (n : nat) (z : Z) : list Z :=
  match n with O => [] | S n => z mod 256 :: le_bytes n (z / 256) end.
Fixpoint le_value (bs : list Z) : Z :=
  match bs with [] => 0 | b :: bs => b + 256 * le_value bs end.

Definition sizeof_header : nat := 32.
Definition header_bytes (h : safs_header) : list Z :=
  le_bytes 8 (magic_number h) ++ le_bytes 4 (version_number h) ++ le_bytes 4 (h_block_size h) ++
  le_bytes 4 (h_mapping_option h) ++ le_bytes 4 (h_writable h) ++ le_bytes 8 (num_bytes h).
Definition field (off len : nat) (bs : list Z) : Z := le_value (take len (drop off bs)).
Definition header_of_bytes (bs : list Z) : option safs_header :=
  if decide (sizeof_header ≤ length bs)%nat then
    Some (mkHeader (s64 (field 0 8 bs)) (s32 (field 8 4 bs)) (field 12 4 bs) (field 16 4 bs) (field 20 4 bs)
            (field 24 8 bs))
  else None.

(** ** [RAID_config] *)

Record RAID_config := mkRAID {
  RAID_mapping_option : Z;
  RAID_block_size : Z;
  root_paths : list part_file_info
}.
Definition get_num_disks (c : RAID_config) : Z := Z.of_nat (length (root_paths c)).
Definition get_disk (idx : Z) (c : RAID_config) : res part_file_info :=
  match root_paths c !! Z.to_nat idx with Some d => Ok d | None => Throw Segfault end.

Definition get_node_ids (c : RAID_config) : gset Z := list_to_set (node_id <$> root_paths c).

Definition create_root_mapper (c : RAID_config) : res (option file_mapper) :=
  make_mapper (RAID_mapping_option c) "root" (root_paths c) (RAID_block_size c).

(** [getline] on the configuration file; every line but the last ends in a
    newline. *)
Definition newline : ascii := ascii_of_nat 10.
Fixpoint lines_of (s : string) : list string :=
  match s with
  | EmptyString => []
  | String c s =>
      if decide (c = newline) then String c "" :: lines_of s
      else match lines_of s with
           | [] => [String c ""]
           | l :: ls => String c l :: ls
           end
  end.
(** [line[line_length - 1] = 0] *)
Fixpoint chop (s : string) : string :=
  match s with String _ EmptyString | EmptyString => "" | String c s => String c (chop s) end.
(** A C string ends at the first zero byte. *)
Fixpoint c_str (s : string) : string :=
  match s with
  | EmptyString => ""
  | String c s => if decide (c = ascii_of_nat 0) then "" else String c (c_str s)
  end.
Fixpoint remove_spaces (s : string) : string :=
  match s with
  | EmptyString => ""
  | String c s => if isspace c then remove_spaces s else String c (remove_spaces s)
  end.
Definition starts_with (c : ascii) (s : string) : bool :=
  match s with String d _ => bool_decide (d = c) | EmptyString => false end.

(** One line: a node id before the first colon, or 0; then the path. *)
Definition parse_line (line : string) : Z * string :=
  match split_on ":" line with
  | id :: ((_ :: _) as rest) => (atoi (remove_spaces id), remove_spaces (String.concat ":" rest))
  | _ => (0, remove_spaces line)
  end.

Fixpoint retrieve_loop (fs : nfs) (lines : list string) (disk_id : Z) (data_files : list part_file_info)
  : list part_file_info :=
  match lines with
  | [] => data_files
  | l :: lines =>
      let line := c_str (chop l) in
      if starts_with "#" line then retrieve_loop fs lines disk_id data_files
      else
        let '(node_id, path_name) := parse_line line in
        if negb (starts_with "/" path_name) then []
        else if negb (file_exist path_name fs) then []
        else if negb (NativeFs.is_dir path_name fs) then []
        else retrieve_loop fs lines (disk_id + 1) (data_files ++ [mkPart path_name disk_id node_id])
  end.

Definition text_of (bs : list Z) : string := String.string_of_list_ascii ((λ b, ascii_of_nat (Z.to_nat b)) <$> bs).
Definition retrieve_data_files (fs : nfs) (file_file : string) : list part_file_info :=
  match namei fs file_file with
  | Some (File bs) => retrieve_loop fs (lines_of (text_of bs)) 0 []
  | _ => []
  end.

Definition RAID_create (fs : nfs) (conf_file : string) (mapping_option block_size : Z) : option RAID_config :=
  if file_exist conf_file fs && negb (NativeFs.is_dir conf_file fs) then
    match retrieve_data_files fs conf_file with
    | [] => None
    | l => Some (mkRAID mapping_option block_size l)
    end
  else if file_exist conf_file fs && NativeFs.is_dir conf_file fs then
    Some (mkRAID mapping_option block_size [mkPart conf_file 0 0])
  else None.

(** ** [safs_file] *)

Record safs_file := mkSF {
  native_dirs : list part_file_info;
  header_file : string;
  sf_name : string;
  sys_mapping_option : Z;
  sys_block_size : Z
}.

Definition safs_file_ctor (conf : RAID_config) (file_name : string) : safs_file :=
  mkSF ((λ d, mkPart (part_name d +:+ "/" +:+ file_name) (disk_id d) (node_id d)) <$> root_paths conf)
    "" file_name (RAID_mapping_option conf) (RAID_block_size conf).

Abbreviation SM := (M (nfs * safs_file)).
Definition on_fs {A} (m : M nfs A) : SM A := λ '(fs, f), let '(fs', r) := m fs in ((fs', f), r).

Definition erase_header_file (files : list string) : list string := filter (λ x, x ≠ "header") files.

(** The files of a directory of the SAFS file, without the header. *)
Definition part_files (dir : string) (fs : nfs) : list string :=
  let files := (read_all_files dir fs).1 in
  if decide (1 < length files)%nat then erase_header_file files else files.

Fixpoint exist_loop (fs : nfs) (dirs : list part_file_info) (part_ids : gset Z) : option (gset Z) :=
  match dirs with
  | [] => Some part_ids
  | d :: dirs =>
      if negb (file_exist (part_name d) fs) then None
      else match part_files (part_name d) fs with
           | [x] => exist_loop fs dirs ({[atoi x]} ∪ part_ids)
           | _ => None
           end
  end.
Definition exist (fs : nfs) (f : safs_file) : bool :=
  match exist_loop fs (native_dirs f) ∅ with
  | Some part_ids => negb (bool_decide (size part_ids < length (native_dirs f))%nat)
  | None => false
  end.

Fixpoint get_data_files_loop (fs : nfs) (dirs : list part_file_info) : res (list string) :=
  match dirs with
  | [] => Ok []
  | d :: dirs =>
      match part_files (part_name d) fs with
      | [x] => let? l := get_data_files_loop fs dirs in Ok ((part_name d +:+ "/" +:+ x) :: l)
      | _ => Throw AssertFailed
      end
  end.
Definition get_data_files (fs : nfs) (f : safs_file) : res (list string) := get_data_files_loop fs (native_dirs f).

Definition get_size (fs : nfs) (f : safs_file) : res Z :=
  if exist fs f then
    let? l := get_data_files fs f in
    Ok (s64 (foldl (λ ret x, u64 (ret + NativeFs.get_size x fs)) 0 l))
  else Ok (-1).

Fixpoint find_header (fs : nfs) (dirs : list part_file_info) : option string :=
  match dirs with
  | [] => None
  | d :: dirs =>
      let dir_str := part_name d in
      if file_exist dir_str fs && file_exist (dir_str +:+ "/header") fs then Some (dir_str +:+ "/header")
      else find_header fs dirs
  end.
Definition set_header_file (s : string) (f : safs_file) : safs_file :=
  mkSF (native_dirs f) s (sf_name f) (sys_mapping_option f) (sys_block_size f).
Definition get_header_file : SM string := λ '(fs, f),
  if negb (bool_decide (header_file f = "")) then ((fs, f), Ok (header_file f))
  else match find_header fs (native_dirs f) with
       | Some h => ((fs, set_header_file h f), Ok h)
       | None => ((fs, f), Ok (header_file f))
       end.

(** [fopen] of a directory for reading succeeds and the read fails. *)
Definition read_header (fs : nfs) (h : string) : safs_header :=
  match namei fs h with
  | Some (File bs) => default safs_header_ctor (header_of_bytes bs)
  | _ => safs_header_ctor
  end.
Definition get_header : SM safs_header :=
  let! h := get_header_file in
  let! st := mget in
  if negb (file_exist h st.1) then mret safs_header_ctor else mret (read_header st.1 h).

(** [div_ceil] and the statics [rand_start], which are never assigned. *)
Definition div_ceil (v1 v2 : Z) : res Z :=
  if v1 =? 0 then Ok 0 else if 0 <? v2 then Ok (1 + (v1 - 1) / v2) else Throw AssertFailed.
Definition rand_start : Z := 0.

Definition get_size_per_disk (file_size : Z) : SM (list Z) :=
  let! header := get_header in
  let! st := mget in
  let f := st.2 in
  let header := if is_valid header then header
                else safs_header_ctor4 (sys_block_size f) (sys_mapping_option f) false file_size in
  let! map := mlift (file_mapper_create header (native_dirs f) (sf_name f)) in
  match map with
  | None => mthrow AssertFailed
  | Some m =>
      let! pages := mlift (div_ceil file_size PAGE_SIZE) in
      let! ret := mlift (FileMapper.get_size_per_disk rand_start m pages) in
      mret ((λ n, n * PAGE_SIZE) <$> ret)
  end.

(** *** Groups of files *)

Inductive safs_file_group :=
  | naive_file_group (num_files num_disks : nat)
  | rotate_file_group (num_files num_disks : nat)
  | rand_rotate_file_group (base_permutes rand_rotates : list (list nat)) (num_files : nat).

(** [shuffle1] and [shuffle2] are what [random_shuffle] returns if it is called. *)
Definition group_create (conf : RAID_config) (type : Z) (shuffle1 shuffle2 : list nat) : option safs_file_group :=
  if type =? 0 then Some (naive_file_group 0 (length (root_paths conf)))
  else if type =? 1 then Some (rotate_file_group 0 (length (root_paths conf)))
  else if type =? 2 then Some (rand_rotate_file_group [shuffle1] [shuffle2] 0)
  else None.

Definition add_file (shuffle1 shuffle2 : list nat) (g : safs_file_group) : res (safs_file_group * list nat) :=
  match g with
  | naive_file_group n d => Ok (naive_file_group (n + 1) d, seq 0 d)
  | rotate_file_group n d => Ok (rotate_file_group (n + 1) d, (λ i, (n + i) mod d)%nat <$> seq 0 d)
  | rand_rotate_file_group bases rots n =>
      match bases with
      | [] => Throw Segfault
      | b0 :: _ =>
          let d := length b0 in
          if (d =? 0)%nat then Throw (runtime_error "division by zero") else
          let base_idx := (n / d)%nat in
          let '(bases, rots) :=
            if (length bases <=? base_idx)%nat then (bases ++ [shuffle1], rots ++ [shuffle2]) else (bases, rots) in
          if negb (base_idx <? length bases)%nat then Throw AssertFailed else
          match bases !! base_idx, rots !! base_idx with
          | Some base, Some rot =>
              match rot !! (n mod d)%nat with
              | Some rotate =>
                  match mapM (λ i, base !! ((rotate + i) mod d)%nat) (seq 0 d) with
                  | Some ret => Ok (rand_rotate_file_group bases rots (n + 1), ret)
                  | None => Throw Segfault
                  end
              | None => Throw Segfault
              end
          | _, _ => Throw Segfault
          end
      end
  end.

(** *** [create_file] *)

(** [fopen(.., "w")], [fwrite] and [fclose] of the header. *)
Definition write_header (header : safs_header) (hf : string) : M nfs bool := λ fs,
  match sys_creat true hf fs with
  | (fs, Some _) => (fs, Ok false)
  | (fs, None) => (sys_write hf 0 (header_bytes header) fs, Ok true)
  end.

(** The loop over the parts, [i] the number of the first of [idxs]. *)
Fixpoint create_loop (header : safs_header) (sizes : list Z) (i : nat) (idxs : list nat) : SM bool :=
  match idxs with
  | [] => mret true
  | k :: idxs =>
      let! st := mget in
      match native_dirs st.2 !! k with
      | None => mthrow Segfault
      | Some d =>
          let dir := part_name d in
          let! ret := on_fs (create_dir dir true) in
          if negb ret then mret false else
          let! ret := (if decide (i = 0%nat) then
                         (λ st, ((st.1, set_header_file (dir +:+ "/header") st.2), Ok tt));;;
                         on_fs (write_header header (dir +:+ "/header"))
                       else mret true) in
          if negb ret then mret false else
          match sizes !! i with
          | None => mthrow Segfault
          | Some sz =>
              let! ret := on_fs (NativeFs.create_file (dir +:+ "/" +:+ itoa (Z.of_nat i)) sz) in
              if negb ret then mret false else create_loop header sizes (S i) idxs
          end
      end
  end.

(** [dir_idxs] is the shuffled order or the one the group gives.  The loop runs
    over [native_dirs.size()] indices and reads them from [dir_idxs]. *)
Definition create_file (dir_idxs : list nat) (file_size block_size mapping_option : Z) : SM bool :=
  let header := safs_header_ctor4 block_size mapping_option true file_size in
  let! sizes_per_disk := get_size_per_disk file_size in
  let! st := mget in
  if decide (length dir_idxs < length (native_dirs st.2))%nat then mthrow Segfault else
  let! ret := create_loop header sizes_per_disk 0 (take (length (native_dirs st.2)) dir_idxs) in
  if ret then
    let! st := mget in
    massert (negb (bool_decide (header_file st.2 = "")));;;
    mret true
  else mret false.

(** *** The other operations *)

Fixpoint resize_loop (files : list string) (sizes : list Z) (i : nat) : SM bool :=
  match files with
  | [] => mret true
  | x :: files =>
      match sizes !! i with
      | None => mthrow Segfault
      | Some sz =>
          let! ret := on_fs (NativeFs.resize x sz) in
          if ret then resize_loop files sizes (S i) else mret false
      end
  end.

Definition update_header (h : string) (new_size : Z) : SM bool := λ '(fs, f),
  match namei fs h with
  | Some (File bs) =>
      match header_of_bytes bs with
      | None => ((fs, f), Ok false)
      | Some header =>
          let new_header := safs_header_ctor4 (get_block_size header) (get_mapping_option header)
                              (is_writable header) new_size in
          ((sys_write h 0 (header_bytes new_header) fs, f), Ok true)
      end
  | _ => ((fs, f), Ok false)
  end.

Definition resize (new_size : Z) : SM bool :=
  let! st := mget in
  if negb (exist st.1 st.2) then mret false else
  let! orig_size := mlift (get_size st.1 st.2) in
  massert (0 <=? orig_size);;;
  let! ok := (if orig_size <? new_size then
                let! data_files := mlift (get_data_files st.1 st.2) in
                let! sizes_per_disk := get_size_per_disk new_size in
                resize_loop data_files sizes_per_disk 0
              else mret true) in
  if negb ok then mret false else
  let! h := get_header_file in
  let! st := mget in
  if negb (file_exist h st.1) then mret false else update_header h new_size.

Fixpoint rename_loop (dirs : list part_file_info) (new_name : string) : SM bool :=
  match dirs with
  | [] => mret true
  | d :: dirs =>
      let! r := on_fs (file_rename (part_name d) (get_dir_name (part_name d) +:+ "/" +:+ new_name)) in
      if r.1 then rename_loop dirs new_name else mret false
  end.
Definition rename (new_name : string) : SM bool :=
  let! st := mget in
  if negb (exist st.1 st.2) then mret false else
  let! ok := rename_loop (native_dirs st.2) new_name in
  if negb ok then mret false else
  let f := st.2 in
  let dirs := (λ d, mkPart (get_dir_name (part_name d) +:+ "/" +:+ new_name) (disk_id d) (node_id d)) <$> native_dirs f in
  (λ st, ((st.1, mkSF dirs (header_file f) new_name (sys_mapping_option f) (sys_block_size f)), Ok true)).

Fixpoint delete_loop (fuel : nat) (dirs : list part_file_info) : SM bool :=
  match dirs with
  | [] => mret true
  | d :: dirs =>
      let! ret := on_fs (delete_dir fuel (part_name d) true) in
      if ret then delete_loop fuel dirs else mret false
  end.
Definition delete_file (fuel : nat) : SM bool :=
  let! st := mget in delete_loop fuel (native_dirs st.2).

(** [fwrite] of zero bytes writes no item, which is taken for a failure. *)
Definition set_user_metadata (data : list Z) : SM bool :=
  let! h := get_header_file in
  let! st := mget in
  massert (file_exist h st.1);;;
  match namei st.1 h with
  | Some (File _) =>
      if decide (data = []) then mret false
      else on_fs (λ fs, (sys_write h (Z.to_nat PAGE_SIZE) data fs, Ok true))
  | _ => mret false
  end.

Definition get_user_metadata : SM (list Z) :=
  let! h := get_header_file in
  let! st := mget in
  massert (file_exist h st.1);;;
  let file_size := NativeFs.get_size h st.1 in
  massert (PAGE_SIZE <=? file_size);;;
  if file_size =? PAGE_SIZE then mret [] else
  match namei st.1 h with
  | Some (File bs) => mret (drop (Z.to_nat PAGE_SIZE) bs)
  | _ => mret []
  end.

(** ** [RAID_config::create_file_mapper(file_name)] *)

(** [std::map<int, part_file_info>]: sorted by key; [insert] keeps an old entry. *)
Fixpoint map_insert (k : Z) (v : part_file_info) (l : list (Z * part_file_info)) : list (Z * part_file_info) :=
  match l with
  | [] => [(k, v)]
  | (k', v') :: l' => if k <? k' then (k, v) :: l else if k =? k' then l else (k', v') :: map_insert k v l'
  end.

Fixpoint file_map_loop (fs : nfs) (file_name : string) (roots : list part_file_info) (file_map : list (Z * part_file_info))
  : option (list (Z * part_file_info)) :=
  match roots with
  | [] => Some file_map
  | r :: roots =>
      let dir_name := part_name r +:+ "/" +:+ file_name in
      if negb (file_exist dir_name fs) then None
      else if negb (NativeFs.is_dir dir_name fs) then None
      else match part_files dir_name fs with
           | [x] =>
               let info := mkPart (dir_name +:+ "/" +:+ x) (disk_id r) (node_id r) in
               file_map_loop fs file_name roots (map_insert (atoi x) info file_map)
           | _ => None
           end
  end.

Definition create_file_mapper (fs : nfs) (conf : RAID_config) (file_name : string) : res (option file_mapper) :=
  match file_map_loop fs file_name (root_paths conf) [] with
  | None => Ok None
  | Some file_map =>
      if decide (length file_map < length (root_paths conf))%nat then Ok None else
      let files := file_map.*2 in
      let? header := (get_header (fs, safs_file_ctor conf file_name)).2 in
      let '(block_size, mapping_option) :=
        if is_valid header then (get_block_size header, get_mapping_option header)
        else (RAID_block_size conf, RAID_mapping_option conf) in
      make_mapper mapping_option file_name files block_size
  end.

(** ** Queries over the whole RAID *)

Definition get_all_safs_files (fs : nfs) (conf : RAID_config) : gset string :=
  let all_files : gset string :=
    list_to_set (mjoin ((λ d, (read_all_files (part_name d) fs).1) <$> root_paths conf)) in
  filter (λ x, exist fs (safs_file_ctor conf x) = true) all_files.

(** The system configuration is there once SAFS is initialised. *)
Definition exist_safs_file (fs : nfs) (sys_conf : option RAID_config) (name : string) : bool :=
  match sys_conf with Some c => exist fs (safs_file_ctor c name) | None => false end.
Definition get_safs_size (fs : nfs) (sys_conf : option RAID_config) (name : string) : res Z :=
  match sys_conf with Some c => get_size fs (safs_file_ctor c name) | None => Ok (-1) end.

(** ** The header round trip *)

Lemma le_value_bytes n z : le_value (le_bytes n z) = z mod 256 ^ Z.of_nat n.
Proof.
  revert z. induction n as [|n IH]; intros z; cbn [le_bytes le_value]; [by rewrite Z.mod_1_r|].
  rewrite IH, Nat2Z.inj_succ, Z.pow_succ_r by lia.
  by rewrite Z.rem_mul_r by lia.
Qed.


Lemma length_header_bytes h : length (header_bytes h) = sizeof_header.
Proof. done. Qed.

Definition header_wf (h : safs_header) : Prop :=
  0 ≤ magic_number h < 2 ^ 63 ∧ 0 ≤ version_number h < 2 ^ 31 ∧ 0 ≤ h_block_size h < 2 ^ 32 ∧
  0 ≤ h_mapping_option h < 2 ^ 32 ∧ 0 ≤ h_writable h < 2 ^ 32 ∧ 0 ≤ num_bytes h < 2 ^ 64.

Lemma header_fields h rest :
  let bs := header_bytes h ++ rest in
  field 0 8 bs = le_value (le_bytes 8 (magic_number h)) ∧ field 8 4 bs = le_value (le_bytes 4 (version_number h)) ∧
  field 12 4 bs = le_value (le_bytes 4 (h_block_size h)) ∧ field 16 4 bs = le_value (le_bytes 4 (h_mapping_option h)) ∧
  field 20 4 bs = le_value (le_bytes 4 (h_writable h)) ∧ field 24 8 bs = le_value (le_bytes 8 (num_bytes h)).
Proof. by split_and!. Qed.

Lemma header_of_header_bytes h rest : header_wf h → header_of_bytes (header_bytes h ++ rest) = Some h.
Proof.
  intros (H1 & H2 & H3 & H4 & H5 & H6). unfold header_of_bytes.
  rewrite decide_True by (rewrite length_app, length_header_bytes; lia).
  destruct (header_fields h rest) as (-> & -> & -> & -> & -> & ->).
  rewrite !le_value_bytes, !(Z.mod_small _ (256 ^ _)) by (cbn; lia).
  rewrite s64_small, s32_small by lia. by destruct h.
Qed.

(** Only the first 32 bytes matter. *)
Lemma header_of_bytes_prefix bs bs' :
  (sizeof_header ≤ length bs)%nat → (sizeof_header ≤ length bs')%nat → take sizeof_header bs = take sizeof_header bs' →
  header_of_bytes bs = header_of_bytes bs'.
Proof.
  intros H1 H2 Ht. unfold header_of_bytes. rewrite !decide_True by done.
  assert (∀ o l, (o + l ≤ sizeof_header)%nat → field o l bs = field o l bs') as Hf.
  { intros o l Hol. unfold field. f_equal.
    assert (∀ c : list Z, take l (drop o c) = take l (drop o (take sizeof_header c))) as Hc.
    { intros c. rewrite skipn_firstn_comm, take_take, Nat.min_l by lia. done. }
    by rewrite (Hc bs), (Hc bs'), Ht. }
  unfold sizeof_header in Hf. rewrite !Hf by lia. done.
Qed.

Lemma ctor4_wf b o w n : header_wf (safs_header_ctor4 b o w n).
Proof.
  unfold safs_header_ctor4, header_wf; cbn [magic_number version_number h_block_size h_mapping_option h_writable num_bytes].
  pose proof (u32_range b). pose proof (u32_range o). pose proof (u64_range n).
  unfold MAGIC_NUMBER, CURR_VERSION. destruct w; lia.
Qed.

(** ** What [create_file] builds

    [ds] are the names of the directories in the order of the parts; below the
    directory of part [j] there is one native file, and in the first one the
    header too. *)

Definition entry (hdr sizes : list Z) (j : nat) (r : path) : option node :=
  match r with
  | [] => Some Dir
  | [x] =>
      if decide (x = itoa (Z.of_nat j)) then (λ s, File (replicate (Z.to_nat s) 0)) <$> sizes !! j
      else if decide (j = 0%nat ∧ x = "header") then Some (File hdr) else None
  | _ => None
  end.

Record made (ds : list string) (hdr sizes : list Z) (k : nat) (fs fs' : nfs) : Prop := {
  made_wf : fs_wf fs';
  made_in j s r : (j < k)%nat → ds !! j = Some s → fs' !! (path_of s ++ r) = entry hdr sizes j r;
  made_out q : (∀ j s, (j < k)%nat → ds !! j = Some s → ¬ path_of s `prefix_of` q) → fs' !! q = fs !! q
}.

Lemma app_self_ne {A} (p : list A) x r : p ≠ p ++ x :: r.
Proof. intros He. apply (f_equal length) in He. rewrite length_app in He. simpl in He. lia. Qed.

Section layout.
Context (fs : nfs) (ds : list string) (h : safs_header) (sizes : list Z).
Context (Hwf : fs_wf fs) (Hnd : NoDup (path_of <$> ds)).
Context (Hfree : ∀ j s, ds !! j = Some s →
  ∃ p x, path_of s = p ++ [x] ∧ stat fs p = Some Dir ∧ fs !! (p ++ [x]) = None).
Let hdr := header_bytes h.

Lemma below_none j s r : ds !! j = Some s → fs !! (path_of s ++ r) = None.
Proof using Hwf Hfree.
  intros Hj. destruct (Hfree j s Hj) as (p & x & Hp & _ & Hx). apply eq_None_not_Some. intros Hs.
  assert (is_Some (stat fs (path_of s))) as Hs'.
  { apply (wf_prefix' fs _ r Hwf). rewrite Hp in *. rewrite <-(assoc_L (++)) in *. by destruct p. }
  rewrite Hp, stat_snoc, Hx in Hs'. by destruct Hs'.
Qed.

Lemma dirs_apart j j' s s' :
  ds !! j = Some s → ds !! j' = Some s' → j ≠ j' → ¬ path_of s `prefix_of` path_of s'.
Proof using Hwf Hnd Hfree.
  intros Hj Hj' Hne [r Hr]. destruct r as [|y r _] using rev_ind.
  - apply Hne. rewrite app_nil_r in Hr. apply (NoDup_lookup (path_of <$> ds) j j' (path_of s) Hnd); rewrite list_lookup_fmap.
    + by rewrite Hj.
    + by rewrite Hj', <-Hr.
  - destruct (Hfree j' s' Hj') as (p & x & Hp & Hd & _). rewrite Hp, (assoc_L (++)) in Hr.
    apply app_inj_tail in Hr as [-> _].
    destruct (Hfree j s Hj) as (p & z & Hp' & _ & Hx).
    assert (is_Some (stat fs (path_of s))) as Hs by (apply (wf_prefix' fs _ r Hwf); by eexists).
    rewrite Hp', stat_snoc, Hx in Hs. by destruct Hs.
Qed.

Lemma dirs_apart_below j j' s s' r r' :
  ds !! j = Some s → ds !! j' = Some s' → j ≠ j' → path_of s ++ r ≠ path_of s' ++ r'.
Proof using Hwf Hnd Hfree.
  intros Hj Hj' Hne He.
  destruct (prefix_weak_total (path_of s) (path_of s') (path_of s ++ r)) as [H|H].
  - by apply prefix_app_r.
  - rewrite He. by apply prefix_app_r.
  - by apply (dirs_apart j j' s s').
  - by apply (dirs_apart j' j s' s).
Qed.

Lemma made_0 : made ds hdr sizes 0 fs fs.
Proof using Hwf. split; [done|lia|done]. Qed.

(** The place of part [k] is still free, and in a directory. *)
Lemma made_free k fs' s :
  made ds hdr sizes k fs fs' → ds !! k = Some s →
  ∃ p x, path_of s = p ++ [x] ∧ stat fs' p = Some Dir ∧ (∀ r, fs' !! (path_of s ++ r) = None).
Proof using Hwf Hnd Hfree.
  intros Hm Hk. destruct (Hfree k s Hk) as (p & x & Hp & Hd & _). exists p, x. split_and!; [done| |].
  - destruct (decide (p = [])) as [->|Hne]; [done|]. rewrite <-Hd.
    assert (fs' !! p = fs !! p) as He; [|by destruct p].
    apply (made_out _ _ _ _ _ _ Hm). intros j s' Hj Hj' Hpre.
    apply (dirs_apart j k s' s Hj' Hk); [lia|]. rewrite Hp. by apply prefix_app_r.
  - intros r. rewrite (made_out _ _ _ _ _ _ Hm); [by apply (below_none k)|]. intros j s' Hj Hj' [r' Hr'].
    apply (dirs_apart_below k j s s' r r' Hk Hj' ltac:(lia) Hr').
Qed.

Definition put_part (s : string) (k : nat) (sz : Z) (fs : nfs) : nfs :=
  let fs := <[path_of s := Dir]> fs in
  let fs := if decide (k = 0%nat) then <[path_of s ++ ["header"] := File hdr]> fs else fs in
  <[path_of s ++ [itoa (Z.of_nat k)] := File (replicate (Z.to_nat sz) 0)]> fs.

Lemma lookup_put_part_ne s k sz fs' q :
  (∀ r, q ≠ path_of s ++ r) → put_part s k sz fs' !! q = fs' !! q.
Proof.
  intros Hq. unfold put_part. rewrite lookup_insert_ne by done. pose proof (Hq []) as H0. rewrite app_nil_r in H0.
  case_decide; rewrite ?lookup_insert_ne; done.
Qed.

Lemma lookup_put_part s k sz fs' r :
  sizes !! k = Some sz → (∀ r, fs' !! (path_of s ++ r) = None) →
  put_part s k sz fs' !! (path_of s ++ r) = entry hdr sizes k r.
Proof.
  intros Hsz Hnone. unfold put_part, entry. rewrite Hsz. cbn [fmap option_fmap option_map].
  destruct r as [|x [|y r]].
  - rewrite app_nil_r, lookup_insert_ne by (intros He; by apply eq_sym, app_self_ne in He).
    case_decide; [rewrite lookup_insert_ne by (intros He; by apply eq_sym, app_self_ne in He)|];
      apply lookup_insert_eq.
  - assert (∀ m : nfs, <[path_of s := Dir]> m !! (path_of s ++ [x]) = m !! (path_of s ++ [x])) as Hd.
    { intros m. apply lookup_insert_ne,  app_self_ne. }
    destruct (decide (x = itoa (Z.of_nat k))) as [->|Hx]; [apply lookup_insert_eq|].
    rewrite lookup_insert_ne by (intros He%app_inv_head; congruence). destruct (decide (k = 0%nat)) as [Hk|Hk].
    + destruct (decide (x = "header")) as [->|Hh]; [rewrite decide_True by done; apply lookup_insert_eq|].
      rewrite decide_False by (by intros []). rewrite lookup_insert_ne by (intros He%app_inv_head; congruence).
      rewrite Hd. apply Hnone.
    + rewrite decide_False by (by intros []). rewrite Hd. apply Hnone.
  - rewrite lookup_insert_ne by (intros [=]%app_inv_head).
    assert (path_of s ≠ path_of s ++ x :: y :: r) as Hne.
    { apply app_self_ne. }
    case_decide; rewrite ?(lookup_insert_ne _ (path_of s ++ ["header"])) by (intros [=]%app_inv_head);
      rewrite lookup_insert_ne by done; apply Hnone.
Qed.

Lemma put_part_wf s k sz fs' p x :
  fs_wf fs' → path_of s = p ++ [x] → stat fs' p = Some Dir → (∀ r, fs' !! (path_of s ++ r) = None) →
  fs_wf (put_part s k sz fs').
Proof.
  intros Hw Hp Hd Hnone. pose proof (Hnone []) as H0. rewrite app_nil_r in H0. unfold put_part.
  assert (∀ y n (m : nfs), stat m (path_of s) = Some Dir → stat (<[path_of s ++ [y] := n]> m) (path_of s) = Some Dir) as Hst.
  { intros y n m Hm. rewrite <-Hm. apply (stat_prefix_insert m (path_of s) []). }
  assert (∀ y n (m : nfs), fs_wf m → stat m (path_of s) = Some Dir → m !! (path_of s ++ [y]) = None →
            fs_wf (<[path_of s ++ [y] := n]> m)) as Hins.
  { intros y n m Hm Hs Hy. apply wf_insert; [done|by rewrite parent_snoc|by rewrite Hy]. }
  assert (fs_wf (<[path_of s := Dir]> fs')) as Hw1 by (apply wf_insert; [done|by rewrite Hp, parent_snoc|done]).
  assert (stat (<[path_of s := Dir]> fs') (path_of s) = Some Dir) as Hs1 by (rewrite Hp at 2; rewrite stat_snoc, <-Hp; apply lookup_insert_eq).
  assert (∀ y, <[path_of s := Dir]> fs' !! (path_of s ++ [y]) = None) as Hn1.
  { intros y. rewrite lookup_insert_ne; [apply Hnone|apply app_self_ne]. }
  case_decide as Hk; [|by apply Hins]. apply Hins; [by apply Hins|by apply Hst|].
  rewrite lookup_insert_ne; [done|]. intros [= He]%app_inv_head. by apply (itoa_plain (Z.of_nat k) ltac:(lia)).
Qed.

Lemma write_header_spec s fs' :
  stat fs' (path_of s) = Some Dir → fs' !! (path_of s ++ ["header"]) = None →
  write_header h (s +:+ "/header") fs' = (<[path_of s ++ ["header"] := File hdr]> fs', Ok true).
Proof.
  intros Hd Hn. assert (path_of (s +:+ "/header") = path_of s ++ ["header"]) as Hp by (by apply (path_of_in s "header")).
  unfold write_header. rewrite (sys_creat_spec _ _ _ _ _ Hp Hd Hn).
  rewrite (sys_write_spec _ _ _ _ _ _ [] Hp) by apply lookup_insert_eq.
  rewrite insert_insert_eq. unfold write_at, set_length. cbn [take length]. by rewrite drop_nil, app_nil_r.
Qed.

(** The body of the loop for one part. *)
Lemma part_step k c idxs fs' f' d sz :
  native_dirs f' !! c = Some d → sizes !! k = Some sz →
  (∃ p x, path_of (part_name d) = p ++ [x] ∧ stat fs' p = Some Dir) → fs_wf fs' →
  (∀ r, fs' !! (path_of (part_name d) ++ r) = None) →
  create_loop h sizes k (c :: idxs) (fs', f')
    = create_loop h sizes (S k) idxs
        (put_part (part_name d) k sz fs',
         if decide (k = 0%nat) then set_header_file (part_name d +:+ "/header") f' else f').
Proof.
  intros Hc Hsz (p & x & Hp & Hd) Hw Hnone. set (s := part_name d) in *.
  pose proof (Hnone []) as H0. rewrite app_nil_r in H0. cbn [create_loop].
  rewrite (mbind_ok _ _ _ _ _ eq_refl : mbind' mget _ _ = _). cbn [snd]. rewrite Hc. fold s. cbn zeta.
  rewrite (mbind_ok (on_fs (create_dir s true)) _ _ (<[path_of s := Dir]> fs', f') true).
  2:{ unfold on_fs. by rewrite (create_dir_spec s fs' p x Hw Hp Hd), <-Hp by (by rewrite <-Hp). }
  cbn [negb].
  assert (stat (<[path_of s := Dir]> fs') (path_of s) = Some Dir) as Hs1 by (rewrite Hp at 2; rewrite stat_snoc, <-Hp; apply lookup_insert_eq).
  assert (∀ y, <[path_of s := Dir]> fs' !! (path_of s ++ [y]) = None) as Hn1.
  { intros y. rewrite lookup_insert_ne; [apply Hnone|apply app_self_ne]. }
  set (fs2 := if decide (k = 0%nat) then <[path_of s ++ ["header"] := File hdr]> (<[path_of s := Dir]> fs')
              else <[path_of s := Dir]> fs').
  rewrite (mbind_ok _ _ _ (fs2, if decide (k = 0%nat) then set_header_file (s +:+ "/header") f' else f') true).
  2:{ unfold fs2. destruct (decide (k = 0%nat)); [|done].
      erewrite mbind_ok by reflexivity. unfold on_fs. cbn [fst snd]. by rewrite write_header_spec. }
  cbn [negb]. rewrite Hsz.
  destruct (itoa_plain (Z.of_nat k) ltac:(lia)) as [Hpl Hnh].
  rewrite (mbind_ok _ _ _ (put_part s k sz fs', if decide (k = 0%nat) then set_header_file (s +:+ "/header") f' else f') true); [done|].
  unfold on_fs. rewrite (create_file_spec _ _ _ (path_of s) (itoa (Z.of_nat k))); [done|by apply path_of_in| |].
  - unfold fs2. case_decide; [|done]. by rewrite (stat_prefix_insert _ (path_of s) [] _ _ : stat (<[path_of s ++ [_] := _]> _) _ = _).
  - unfold fs2. case_decide; [|done]. rewrite lookup_insert_ne; [done|]. intros He%app_inv_head. congruence.
Qed.

Lemma made_S k fs' s sz :
  made ds hdr sizes k fs fs' → ds !! k = Some s → sizes !! k = Some sz →
  made ds hdr sizes (S k) fs (put_part s k sz fs').
Proof using Hwf Hnd Hfree.
  intros Hm Hk Hsz. destruct (made_free k fs' s Hm Hk) as (p & x & Hp & Hd & Hnone). split.
  - by apply (put_part_wf _ _ _ _ p x (made_wf _ _ _ _ _ _ Hm)).
  - intros j s' r Hj Hj'. destruct (decide (j = k)) as [->|Hne].
    + assert (s' = s) as -> by congruence. by apply lookup_put_part.
    + rewrite lookup_put_part_ne by (intros r'; by apply (dirs_apart_below j k s' s)).
      apply (made_in _ _ _ _ _ _ Hm); [lia|done].
  - intros q Hq. rewrite lookup_put_part_ne.
    + apply (made_out _ _ _ _ _ _ Hm). intros j s' Hj. apply Hq. lia.
    + intros r ->. apply (Hq k s); [lia|done|by apply prefix_app_r].
Qed.

Lemma create_loop_spec k idxs fs' f' :
  made ds hdr sizes k fs fs' → (k + length idxs ≤ length sizes)%nat →
  (∀ i c, idxs !! i = Some c → ∃ d, native_dirs f' !! c = Some d ∧ ds !! (k + i)%nat = Some (part_name d)) →
  ∃ fs'' hf, create_loop h sizes k idxs (fs', f') = ((fs'', set_header_file hf f'), Ok true) ∧
    made ds hdr sizes (k + length idxs) fs fs'' ∧
    (idxs ≠ [] → k = 0%nat → ∃ s, hf = s +:+ "/header") ∧ (k ≠ 0%nat → hf = header_file f').
Proof using Hwf Hnd Hfree.
  revert k fs' f'. induction idxs as [|c idxs IH]; intros k fs' f' Hm Hlen Hidx.
  { exists fs', (header_file f'). rewrite Nat.add_0_r. split_and!; [by destruct f'|done|done|done]. }
  destruct (Hidx 0%nat c eq_refl) as (d & Hd & Hs). rewrite Nat.add_0_r in Hs. cbn [length] in Hlen.
  destruct (lookup_lt_is_Some_2 sizes k) as [sz Hsz]; [lia|].
  destruct (made_free k fs' _ Hm Hs) as (p & x & Hp & Hst & Hnone).
  rewrite (part_step k c idxs fs' f' d sz Hd Hsz (ex_intro _ p (ex_intro _ x (conj Hp Hst))) (made_wf _ _ _ _ _ _ Hm) Hnone).
  set (f1 := if decide (k = 0%nat) then set_header_file (part_name d +:+ "/header") f' else f').
  assert (native_dirs f1 = native_dirs f') as Hnd1 by (unfold f1; by case_decide).
  assert (∀ x, set_header_file x f1 = set_header_file x f') as Hset by (intros; unfold f1; by case_decide).
  destruct (IH (S k) (put_part (part_name d) k sz fs') f1) as (fs'' & hf & Hrun & Hm' & _ & Hhf).
  - by apply made_S.
  - lia.
  - intros i c' Hi. rewrite Hnd1. destruct (Hidx (S i) c' Hi) as (d' & H1 & H2). exists d'. split; [done|].
    by replace (S k + i)%nat with (k + S i)%nat by lia.
  - exists fs'', hf. specialize (Hhf ltac:(lia)). split_and!.
    + rewrite Hrun. by rewrite Hset.
    + by replace (k + length (c :: idxs))%nat with (S k + length idxs)%nat by (simpl; lia).
    + intros _ ->. rewrite Hhf. by eexists.
    + intros Hk. rewrite Hhf. unfold f1. by rewrite decide_False.
Qed.
End layout.

(** ** Reading the layout back *)

Section read_back.
Context (fs fs' : nfs) (ds : list string) (h : safs_header) (sizes : list Z).
Context (Hm : made ds (header_bytes h) sizes (length ds) fs fs').
Context (Hlen : length sizes = length ds) (Hpath : ∀ j s, ds !! j = Some s → ∃ p x, path_of s = p ++ [x]).

Lemma made_entry j s r : ds !! j = Some s → fs' !! (path_of s ++ r) = entry (header_bytes h) sizes j r.
Proof using Hm. intros Hj. apply (made_in _ _ _ _ _ _ Hm); [by eapply lookup_lt_Some|done]. Qed.

Lemma namei_dir j s : ds !! j = Some s → namei fs' s = Some Dir.
Proof using Hm Hpath.
  intros Hj. destruct (Hpath j s Hj) as (p & x & Hp). rewrite (namei_snoc _ _ _ _ Hp), <-Hp.
  rewrite <-(app_nil_r (path_of s)). by rewrite (made_entry j).
Qed.

Lemma namei_below j s x : ds !! j = Some s → plain x →
  namei fs' (s +:+ "/" +:+ x) = entry (header_bytes h) sizes j [x].
Proof using Hm. intros Hj Hx. rewrite (namei_snoc _ _ (path_of s) x) by (by apply path_of_in). by apply made_entry. Qed.

Lemma children_made j s y : ds !! j = Some s →
  y ∈ readdir fs' (path_of s) ↔ y = itoa (Z.of_nat j) ∨ (j = 0%nat ∧ y = "header").
Proof using Hm Hlen.
  intros Hj. rewrite elem_of_readdir, (made_entry j) by done. unfold entry.
  destruct (lookup_lt_is_Some_2 sizes j) as [sz ->]; [rewrite Hlen; by eapply lookup_lt_Some|]. cbn [fmap option_fmap option_map].
  case_decide; [naive_solver|]. case_decide; [naive_solver|]. split; [by intros []|naive_solver].
Qed.

Lemma part_files_made j s : ds !! j = Some s → part_files s fs' = [itoa (Z.of_nat j)].
Proof using Hm Hlen Hpath.
  intros Hj. unfold part_files, read_all_files, NativeFs.is_dir. rewrite (namei_dir j s Hj). cbn [is_Dir fst].
  pose proof (NoDup_readdir fs' (path_of s)) as Hnd. pose proof (λ y, children_made j s y Hj) as Hel.
  destruct (itoa_plain (Z.of_nat j) ltac:(lia)) as [_ Hh]. destruct (decide (j = 0%nat)) as [->|Hne].
  - assert (readdir fs' (path_of s) ≡ₚ [itoa 0; "header"]) as Hperm.
    { apply NoDup_Permutation; [done|by apply (bool_decide_unpack _); vm_compute|]. intros y. rewrite Hel, !elem_of_cons, elem_of_nil. naive_solver. }
    rewrite decide_True by (rewrite Hperm; simpl; lia). apply Permutation_singleton_r. unfold erase_header_file.
    by rewrite Hperm.
  - assert (readdir fs' (path_of s) = [itoa (Z.of_nat j)]) as ->; [|done].
    apply Permutation_singleton_r, NoDup_Permutation; [done|apply NoDup_singleton|].
    intros y. rewrite Hel, list_elem_of_singleton. naive_solver.
Qed.

(** Only the directory of the first part has a header. *)
Lemma find_header_made dirs s0 :
  ds !! 0%nat = Some s0 → Forall (λ d, ∃ j, ds !! j = Some (part_name d)) dirs →
  (∃ d, d ∈ dirs ∧ part_name d = s0) → find_header fs' dirs = Some (s0 +:+ "/header").
Proof using Hm Hlen Hpath.
  intros H0. induction 1 as [|d dirs [j Hj] _ IH]; intros (d0 & Hin & Hd0); [by apply not_elem_of_nil in Hin|].
  cbn [find_header]. unfold file_exist. rewrite (namei_dir j _ Hj).
  rewrite (namei_below j _ "header" Hj ltac:(done) : namei fs' (part_name d +:+ "/header") = _).
  unfold entry. destruct (itoa_plain (Z.of_nat j) ltac:(lia)) as [_ Hh]. rewrite decide_False by done.
  destruct (decide (j = 0%nat)) as [->|Hne].
  - rewrite decide_True by done. assert (part_name d = s0) as -> by congruence. done.
  - rewrite decide_False by (by intros []). cbn [andb]. apply IH. exists d0. split; [|done].
    apply elem_of_cons in Hin as [->|Hin]; [|done].
    exfalso. rewrite <-Hd0 in H0. pose proof (made_entry 0 _ ["header"] H0) as H1. pose proof (made_entry j _ ["header"] Hj) as H2.
    rewrite H1 in H2. unfold entry in H2. rewrite (decide_False (P:="header" = itoa (Z.of_nat j))) in H2 by done.
    by rewrite (decide_False (P:=j = 0%nat ∧ _)) in H2 by (by intros []).
Qed.
End read_back.

Lemma exist_loop_spec fs dirs js acc :
  Forall2 (λ d j, file_exist (part_name d) fs = true ∧ part_files (part_name d) fs = [itoa j] ∧ 0 ≤ j) dirs js →
  exist_loop fs dirs acc = Some (list_to_set js ∪ acc).
Proof.
  intros HF. revert acc. induction HF as [|d j dirs js (H1 & H2 & H3) _ IH]; intros acc; cbn [exist_loop].
  - f_equal. set_solver.
  - rewrite H1, H2. cbn [negb]. rewrite atoi_itoa, IH by done. f_equal. set_solver.
Qed.

Definition key_lt (a b : Z * part_file_info) : Prop := a.1 < b.1.

Lemma map_insert_spec k v l :
  StronglySorted key_lt l → k ∉ l.*1 → StronglySorted key_lt (map_insert k v l) ∧ map_insert k v l ≡ₚ (k, v) :: l.
Proof.
  induction 1 as [|[k' v'] l Hs IH Hall]; intros Hk; cbn [map_insert].
  { split; [repeat constructor|done]. }
  cbn in Hk. apply not_elem_of_cons in Hk as [Hne Hk]. destruct (Z.ltb_spec k k').
  - split; [|done]. constructor; [by constructor|]. constructor; [done|].
    eapply Forall_impl; [exact Hall|]. intros [k2 v2]. unfold key_lt. cbn. lia.
  - destruct (Z.eqb_spec k k'); [done|]. destruct (IH Hk) as [H1 H2]. split.
    + constructor; [done|]. rewrite H2. constructor; [unfold key_lt; cbn; lia|done].
    + rewrite H2. apply Permutation_swap.
Qed.

Definition part_info (name : string) (r : part_file_info) (j : Z) : Z * part_file_info :=
  (j, mkPart ((part_name r +:+ "/" +:+ name) +:+ "/" +:+ itoa j) (disk_id r) (node_id r)).

Lemma file_map_loop_spec fs name roots js acc :
  Forall2 (λ r j, let d := part_name r +:+ "/" +:+ name in
                  file_exist d fs = true ∧ NativeFs.is_dir d fs = true ∧ part_files d fs = [itoa j] ∧ 0 ≤ j) roots js →
  StronglySorted key_lt acc → NoDup (acc.*1 ++ js) →
  ∃ l, file_map_loop fs name roots acc = Some l ∧ StronglySorted key_lt l ∧
    l ≡ₚ acc ++ zip_with (part_info name) roots js.
Proof.
  intros HF. revert acc. induction HF as [|r j roots js (H1 & H2 & H3 & H4) _ IH]; intros acc Hs Hnd; cbn [file_map_loop].
  { exists acc. rewrite app_nil_r. by split_and!. }
  cbn zeta in H1, H2, H3. cbn zeta. rewrite H1, H2, H3. cbn [negb]. rewrite atoi_itoa by done.
  destruct (map_insert_spec j (part_info name r j).2 acc Hs) as [Hs' Hp].
  { apply NoDup_app_split in Hnd. apply Hnd. }
  destruct (IH _ Hs') as (l & Hl & Hls & Hlp).
  { rewrite Hp. cbn. by rewrite Permutation_middle. }
  exists l. split_and!; [done|done|]. rewrite Hlp, Hp. cbn [zip_with]. by rewrite <-Permutation_middle.
Qed.

(** ** Creating a file *)

(** The roots are distinct directories without an entry for [name]. *)
Record ready (fs : nfs) (conf : RAID_config) (name : string) : Prop := {
  ready_wf : fs_wf fs;
  ready_name : plain name;
  ready_roots i r : root_paths conf !! i = Some r →
    stat fs (path_of (part_name r)) = Some Dir ∧ fs !! (path_of (part_name r) ++ [name]) = None;
  ready_nodup : NoDup ((λ r, path_of (part_name r)) <$> root_paths conf);
  ready_some : root_paths conf ≠ []
}.

#[global] Instance part_file_info_inhabited : Inhabited part_file_info := populate (mkPart "" 0 0).

Lemma ctor4_valid b o w n k :
  0 < b < 2 ^ 31 → mapping_of o = Some k →
  let h := safs_header_ctor4 b o w n in
  is_valid h = true ∧ get_block_size h = b ∧ get_mapping_option h = o.
Proof.
  intros Hb Ho. assert (0 ≤ o < 2 ^ 31) as Hor.
  { unfold mapping_of in Ho. destruct (Z.eqb_spec o 0), (Z.eqb_spec o 1), (Z.eqb_spec o 2); try lia; done. }
  unfold safs_header_ctor4, is_valid, get_block_size, get_mapping_option. cbn [h_block_size h_mapping_option].
  rewrite !u32_small, !s32_small by lia. split_and!; [|done|done]. by rewrite (proj2 (Z.eqb_neq _ _)) by lia.
Qed.

Lemma make_mapper_ok o k name files b :
  0 < b → mapping_of o = Some k → files ≠ [] → make_mapper o name files b = Ok (Some (mkMapper k name files b)).
Proof.
  intros Hb Ho Hf. unfold make_mapper, new_mapper. rewrite Ho, (proj2 (Z.ltb_lt _ _)) by lia.
  by destruct k, files.
Qed.

Definition npages (sz : Z) : Z := if sz =? 0 then 0 else 1 + (sz - 1) / PAGE_SIZE.

Lemma npages_bound sz off : 0 ≤ sz → 0 ≤ off → off * PAGE_SIZE < sz → 0 ≤ npages sz ∧ off < npages sz.
Proof.
  intros Hsz Hoff Hlt. unfold npages, PAGE_SIZE in *. rewrite (proj2 (Z.eqb_neq _ _)) by lia.
  assert (off ≤ (sz - 1) / 4096) by (apply Z.div_le_lower_bound; lia). lia.
Qed.

(** The inverse of a permutation. *)
Lemma permutation_inverse (idxs : list nat) n :
  idxs ≡ₚ seq 0 n → ∃ js, Forall2 (λ i j, idxs !! j = Some i) (seq 0 n) js ∧ NoDup js ∧ js ≡ₚ seq 0 n.
Proof.
  intros Hp. assert (∀ i, i ∈ seq 0 n → ∃ j, idxs !! j = Some i) as Hex.
  { intros i Hi. rewrite <-Hp in Hi. by apply list_elem_of_lookup in Hi. }
  assert (∃ js, Forall2 (λ i j, idxs !! j = Some i) (seq 0 n) js) as [js Hjs].
  { clear Hp. revert Hex. generalize (seq 0 n). induction l as [|i l IH]; intros Hex; [by exists []|].
    destruct (Hex i) as [j Hj]; [left|]. destruct IH as [js Hjs]; [intros; apply Hex; by right|].
    exists (j :: js). by constructor. }
  assert (NoDup js) as Hnd.
  { apply NoDup_alt. intros a b j Ha Hb.
    destruct (Forall2_lookup_r _ _ _ _ _ Hjs Ha) as (i & Hi & Hij). destruct (Forall2_lookup_r _ _ _ _ _ Hjs Hb) as (i' & Hi' & Hij').
    assert (i = i') as <- by congruence. exact (NoDup_lookup _ _ _ _ (NoDup_seq 0 n) Hi Hi'). }
  exists js. split_and!; [done|done|]. apply submseteq_length_Permutation.
  - apply NoDup_submseteq; [done|]. intros j Hj. apply list_elem_of_lookup in Hj as [a Ha].
    destruct (Forall2_lookup_r _ _ _ _ _ Hjs Ha) as (i & _ & Hij). apply lookup_lt_Some in Hij.
    rewrite Hp, length_seq in Hij. apply elem_of_seq. lia.
  - by rewrite <-(Forall2_length _ _ _ Hjs).
Qed.

#[global] Instance key_lt_antisymm : AntiSymm (=) key_lt.
Proof. intros a b H1 H2. unfold key_lt in *. lia. Qed.

Lemma sorted_parts (F : nat → part_file_info) i n : StronglySorted key_lt ((λ j, (Z.of_nat j, F j)) <$> seq i n).
Proof.
  revert i. induction n as [|n IH]; intros i; cbn; constructor; [apply IH|].
  apply Forall_fmap, Forall_forall. intros j Hj%elem_of_seq. unfold key_lt. cbn. lia.
Qed.

Section creating.
Context (fs : nfs) (conf : RAID_config) (name : string) (idxs : list nat) (sz : Z) (k : mapping).
Context (Hready : ready fs conf name) (Hperm : idxs ≡ₚ seq 0 (length (root_paths conf))) (Hsz : 0 ≤ sz).
Context (Hb : 0 < RAID_block_size conf < 2 ^ 31) (Hk : mapping_of (RAID_mapping_option conf) = Some k).
Let f := safs_file_ctor conf name.
Let dirs := native_dirs f.
Let n := length (root_paths conf).
Let m0 := mkMapper k name dirs (RAID_block_size conf).

Lemma dirs_lookup i d : dirs !! i = Some d →
  ∃ r, root_paths conf !! i = Some r ∧ d = mkPart (part_name r +:+ "/" +:+ name) (disk_id r) (node_id r).
Proof. unfold dirs. cbn. rewrite list_lookup_fmap, fmap_Some. done. Qed.

Lemma dir_free i d : dirs !! i = Some d →
  ∃ p x, path_of (part_name d) = p ++ [x] ∧ stat fs p = Some Dir ∧ fs !! (p ++ [x]) = None.
Proof using All.
  intros Hi. destruct (dirs_lookup i d Hi) as (r & Hr & ->). destruct (ready_roots _ _ _ Hready i r Hr) as [H1 H2].
  exists (path_of (part_name r)), name. split_and!; [apply path_of_in, (ready_name _ _ _ Hready)|done|done].
Qed.

Lemma length_dirs : length dirs = n.
Proof. apply length_fmap. Qed.

Lemma dirs_ne : dirs ≠ [].
Proof using All. pose proof (ready_some _ _ _ Hready). unfold dirs. cbn. by destruct (root_paths conf). Qed.

Lemma find_header_none ds : (∀ d, d ∈ ds → d ∈ dirs) → find_header fs ds = None.
Proof using All.
  induction ds as [|d ds IH]; intros Hin; [done|]. cbn [find_header].
  destruct (proj1 (list_elem_of_lookup dirs d) (Hin d ltac:(left))) as [i Hi].
  destruct (dir_free i d Hi) as (p & x & Hp & _ & Hx). unfold file_exist at 1.
  rewrite (namei_snoc _ _ _ _ Hp), Hx. cbn [andb]. apply IH. intros d' Hd'. apply Hin. by right.
Qed.

Lemma sizes_spec : ∃ ret,
  get_size_per_disk sz (fs, f) = ((fs, f), Ok ((λ s, s * PAGE_SIZE) <$> ret)) ∧ length ret = n ∧
  ∀ off bid, 0 ≤ off < npages sz → map_off rand_start m0 off = Ok bid →
    ∃ s, ret !! Z.to_nat (bid_idx bid) = Some s ∧ bid_off bid < s.
Proof using All.
  assert (mapper_wf m0) as Hwf by (split; [cbn; lia|apply dirs_ne]).
  destruct (size_per_disk_spec rand_start m0 (npages sz) Hwf) as (ret & H1 & H2 & H3);
    [done|unfold npages, PAGE_SIZE; destruct (Z.eqb_spec sz 0); [lia|]; pose proof (Z.div_pos (sz - 1) 4096); lia|].
  exists ret. split_and!; [|by rewrite H2; apply length_dirs|done]. unfold get_size_per_disk.
  assert (get_header (fs, f) = ((fs, f), Ok safs_header_ctor)) as Hh.
  { unfold get_header, get_header_file. unfold mbind' at 1. cbn [header_file f safs_file_ctor]. 
    rewrite bool_decide_true by done. cbn [negb]. by rewrite find_header_none. }
  rewrite (mbind_ok _ _ _ _ _ Hh), (mbind_ok _ _ _ _ _ eq_refl : mbind' mget _ _ = _). cbn [snd]. cbn zeta.
  change (is_valid safs_header_ctor) with false. cbn match.
  destruct (ctor4_valid _ _ false sz k Hb Hk) as (V1 & V2 & V3).
  change (sys_block_size f) with (RAID_block_size conf). change (sys_mapping_option f) with (RAID_mapping_option conf).
  unfold file_mapper_create. rewrite V1, V2, V3, (make_mapper_ok _ k) by (done || lia || apply dirs_ne).
  rewrite (mbind_ok (mlift (Ok (Some m0))) _ _ _ _ eq_refl).
  unfold div_ceil. change (0 <? PAGE_SIZE) with true. cbn match.
  rewrite (mbind_ok (mlift (if sz =? 0 then Ok 0 else Ok (1 + (sz - 1) / PAGE_SIZE))) _ _ (fs, f) (npages sz))
    by (unfold npages, mlift; by destruct (sz =? 0)).
  by rewrite (mbind_ok (mlift (FileMapper.get_size_per_disk rand_start m0 (npages sz))) _ _ (fs, f) ret) by (unfold mlift; by rewrite H1).
Qed.

(** The directories in the order of the parts. *)
Let ds := (λ c, part_name (dirs !!! c)) <$> idxs.

Lemma idxs_lookup j c : idxs !! j = Some c → ∃ d, dirs !! c = Some d ∧ ds !! j = Some (part_name d).
Proof using All.
  intros Hj. assert (c ∈ idxs) as Hc by (by eapply list_elem_of_lookup_2).
  rewrite Hperm in Hc. apply elem_of_seq in Hc. fold n in Hc. destruct (lookup_lt_is_Some_2 dirs c) as [d Hd]; [rewrite length_dirs; lia|].
  exists d. split; [done|]. unfold ds. rewrite list_lookup_fmap, Hj. cbn. by rewrite (list_lookup_total_correct _ _ _ Hd).
Qed.

Lemma ds_lookup j s : ds !! j = Some s → ∃ c d, idxs !! j = Some c ∧ dirs !! c = Some d ∧ s = part_name d.
Proof using All.
  intros Hj. unfold ds in Hj. rewrite list_lookup_fmap in Hj. destruct (idxs !! j) as [c|] eqn:Hc; [|done].
  destruct (idxs_lookup j c Hc) as (d & Hd & _). exists c, d. split_and!; [done|done|].
  cbn in Hj. injection Hj as <-. by rewrite (list_lookup_total_correct _ _ _ Hd).
Qed.

Lemma NoDup_idxs : NoDup idxs.
Proof using All. rewrite Hperm. apply NoDup_seq. Qed.

Lemma length_idxs : length idxs = n.
Proof using All. rewrite Hperm. apply length_seq. Qed.

Lemma ds_free j s : ds !! j = Some s →
  ∃ p x, path_of s = p ++ [x] ∧ stat fs p = Some Dir ∧ fs !! (p ++ [x]) = None.
Proof using All. intros Hj. destruct (ds_lookup j s Hj) as (c & d & _ & Hd & ->). by apply (dir_free c). Qed.

Lemma ds_NoDup : NoDup (path_of <$> ds).
Proof using All.
  apply NoDup_alt. intros j j' p Hj Hj'. rewrite list_lookup_fmap in Hj, Hj'.
  destruct (ds !! j) as [s|] eqn:Hs; [|done]. destruct (ds !! j') as [s'|] eqn:Hs'; [|done].
  cbn in Hj, Hj'. destruct (ds_lookup j s Hs) as (c & d & Hc & Hd & ->). destruct (ds_lookup j' s' Hs') as (c' & d' & Hc' & Hd' & ->).
  destruct (dirs_lookup c d Hd) as (r & Hr & ->). destruct (dirs_lookup c' d' Hd') as (r' & Hr' & ->).
  cbn [part_name] in Hj, Hj'. rewrite path_of_in in Hj, Hj' by apply Hready.
  assert (path_of (part_name r) = path_of (part_name r')) as He by (apply (app_inj_tail _ _ name name); congruence).
  assert (c = c') as <-.
  { apply (NoDup_lookup _ c c' (path_of (part_name r)) (ready_nodup _ _ _ Hready)); rewrite list_lookup_fmap.
    - by rewrite Hr.
    - by rewrite Hr', He. }
  exact (NoDup_lookup idxs j j' c NoDup_idxs Hc Hc').
Qed.

Lemma create_file_run (b o : Z) : ∃ ret fs' hf,
  create_file idxs sz b o (fs, f) = ((fs', set_header_file hf f), Ok true) ∧
  made ds (header_bytes (safs_header_ctor4 b o true sz)) ((λ s, s * PAGE_SIZE) <$> ret) n fs fs' ∧ length ret = n ∧
  ∀ off bid, 0 ≤ off < npages sz → map_off rand_start m0 off = Ok bid →
    ∃ s, ret !! Z.to_nat (bid_idx bid) = Some s ∧ bid_off bid < s.
Proof using All.
  destruct sizes_spec as (ret & Hrun & Hlen & Hcov). exists ret. set (h := safs_header_ctor4 b o true sz).
  destruct (create_loop_spec fs ds h ((λ s, s * PAGE_SIZE) <$> ret) (ready_wf _ _ _ Hready) ds_NoDup ds_free 0 idxs fs f)
    as (fs' & hf & Hloop & Hm & Hhf & _).
  - apply made_0, Hready.
  - rewrite length_fmap, Hlen, length_idxs. done.
  - intros i c Hi. by apply idxs_lookup.
  - exists fs', hf. rewrite length_idxs in Hm. split_and!; [|done|done|done]. unfold create_file. fold h.
    rewrite (mbind_ok _ _ _ _ _ Hrun), (mbind_ok _ _ _ _ _ eq_refl : mbind' mget _ _ = _). cbn [snd].
    change (native_dirs f) with dirs. rewrite length_dirs, <-length_idxs, decide_False, firstn_all by lia.
    rewrite (mbind_ok _ _ _ _ _ Hloop), (mbind_ok _ _ _ _ _ eq_refl : mbind' mget _ _ = _). cbn [snd header_file set_header_file].
    destruct Hhf as [s Hs]; [|done|].
    + intros He. apply dirs_ne, length_zero_iff_nil. by rewrite length_dirs, <-length_idxs, He.
    + rewrite bool_decide_false; [done|]. rewrite Hs. by destruct s.
Qed.

Lemma ds_elem s : s ∈ ds ↔ s ∈ part_name <$> dirs.
Proof using All.
  rewrite list_elem_of_fmap. split.
  - intros [j Hj]%list_elem_of_lookup. destruct (ds_lookup j s Hj) as (c & d & _ & Hd & ->).
    exists d. split; [done|by eapply list_elem_of_lookup_2].
  - intros (d & -> & [i Hi]%list_elem_of_lookup).
    assert (i ∈ seq 0 n) as Hin by (apply elem_of_seq; apply lookup_lt_Some in Hi; rewrite length_dirs in Hi; lia).
    unfold n in Hin. rewrite <-Hperm in Hin. apply list_elem_of_lookup in Hin as [j Hj].
    destruct (idxs_lookup j i Hj) as (d' & Hd' & Hs). assert (d' = d) as -> by congruence.
    by eapply list_elem_of_lookup_2.
Qed.

(** The part that the root [i] holds. *)
Definition part_of (j : nat) : part_file_info :=
  let r := root_paths conf !!! (idxs !!! j) in (part_info name r (Z.of_nat j)).2.

Section after.
Context (b o : Z) (sizes : list Z) (fs' : nfs).
Let h := safs_header_ctor4 b o true sz.
Context (Hm : made ds (header_bytes h) sizes n fs fs') (Hlen : length sizes = n).

Lemma length_ds : length ds = n.
Proof using All. unfold ds. by rewrite length_fmap, length_idxs. Qed.

Lemma Hm' : made ds (header_bytes h) sizes (length ds) fs fs'.
Proof using All. by rewrite length_ds. Qed.

Lemma Hpath j s : ds !! j = Some s → ∃ p x, path_of s = p ++ [x].
Proof using All. intros Hj. destruct (ds_free j s Hj) as (p & x & Hp & _). by exists p, x. Qed.

(** What [exist] and [create_file_mapper] see in the directory of root [i]. *)
Lemma dir_view i j : idxs !! j = Some i →
  ∃ r d, root_paths conf !! i = Some r ∧ dirs !! i = Some d ∧ part_name d = part_name r +:+ "/" +:+ name ∧
    ds !! j = Some (part_name d) ∧ file_exist (part_name d) fs' = true ∧ NativeFs.is_dir (part_name d) fs' = true ∧
    part_files (part_name d) fs' = [itoa (Z.of_nat j)].
Proof using All.
  intros Hj. destruct (idxs_lookup j i Hj) as (d & Hd & Hs). destruct (dirs_lookup i d Hd) as (r & Hr & Hdr).
  pose proof (namei_dir _ _ _ _ _ Hm' Hpath j _ Hs) as Hnm.
  exists r, d. unfold file_exist, NativeFs.is_dir. rewrite Hnm. split_and!; [done|done|by rewrite Hdr|done|done|done|].
  apply (part_files_made _ _ _ _ _ Hm'); [by rewrite length_ds|apply Hpath|done].
Qed.

Lemma exist_after : exist fs' f = true.
Proof using All.
  destruct (permutation_inverse idxs n Hperm) as (js & Hjs & Hnd & Hp).
  assert (length js = n) as Hl by (by rewrite Hp, length_seq).
  unfold exist. change (native_dirs f) with dirs. rewrite (exist_loop_spec fs' dirs (Z.of_nat <$> js)).
  - rewrite union_empty_r_L. rewrite size_list_to_set by (by apply NoDup_fmap_2; [intros ? ? ?; lia|]).
    rewrite bool_decide_false; [done|]. rewrite length_fmap, length_dirs. lia.
  - apply Forall2_fmap_r, Forall2_same_length_lookup. split; [by rewrite length_dirs|].
    intros i d j Hd Hj. destruct (Forall2_lookup_r _ _ _ _ _ Hjs Hj) as (i' & Hi' & Hij).
    apply lookup_seq in Hi' as [Hi' _]. cbn in Hi'. subst i'. destruct (dir_view _ _ Hij) as (r & d' & _ & Hd' & _ & _ & H1 & _ & H2).
    assert (d' = d) as -> by congruence. split_and!; [done|done|lia].
Qed.

(** The header is in the directory of the first part. *)
Lemma header_found : ∃ s0, ds !! 0%nat = Some s0 ∧ find_header fs' dirs = Some (s0 +:+ "/header") ∧
  namei fs' (s0 +:+ "/header") = Some (File (header_bytes h)).
Proof using All.
  destruct (lookup_lt_is_Some_2 ds 0) as [s0 Hs0].
  { rewrite length_ds, <-length_dirs. pose proof dirs_ne. destruct dirs; [done|simpl; lia]. }
  exists s0. split; [done|]. split.
  { apply (find_header_made _ _ _ _ _ Hm' ltac:(by rewrite length_ds) Hpath); [done| |].
    - apply Forall_lookup. intros i d Hd. destruct (permutation_inverse idxs n Hperm) as (js & Hjs & _ & _).
      assert (seq 0 n !! i = Some i) as Hi by (apply lookup_seq; split; [done|rewrite <-length_dirs; by eapply lookup_lt_Some]).
      destruct (Forall2_lookup_l _ _ _ _ _ Hjs Hi) as (j & _ & Hj). destruct (dir_view _ _ Hj) as (r & d' & _ & Hd' & _ & Hds & _).
      exists j. by assert (d' = d) as -> by congruence.
    - destruct (ds_lookup 0 s0 Hs0) as (c & d & _ & Hd & ->). exists d. split; [by eapply list_elem_of_lookup_2|done]. }
  rewrite (namei_below _ _ _ _ _ Hm' 0 s0 "header" Hs0 ltac:(done) : namei fs' (s0 +:+ "/header") = _).
  cbn [entry]. rewrite decide_False by done. by rewrite decide_True.
Qed.

Lemma header_read s0 : find_header fs' dirs = Some (s0 +:+ "/header") → namei fs' (s0 +:+ "/header") = Some (File (header_bytes h)) →
  get_header (fs', f) = ((fs', set_header_file (s0 +:+ "/header") f), Ok h).
Proof using All.
  intros Hf Hnm. unfold get_header, get_header_file, mbind'. cbn [header_file f safs_file_ctor]. rewrite bool_decide_true by done. cbn [negb].
  change (native_dirs _) with dirs. rewrite Hf. cbn [mget fst snd]. unfold file_exist, read_header. rewrite Hnm. cbn [negb mret snd].
  rewrite <-(app_nil_r (header_bytes h)), header_of_header_bytes by apply ctor4_wf. done.
Qed.

Lemma header_after : (get_header (fs', f)).2 = Ok h.
Proof using All. destruct header_found as (s0 & _ & Hf & Hnm). by rewrite (header_read s0 Hf Hnm). Qed.

Lemma file_map_after :
  file_map_loop fs' name (root_paths conf) [] = Some ((λ j, (Z.of_nat j, part_of j)) <$> seq 0 n).
Proof using All.
  destruct (permutation_inverse idxs n Hperm) as (js & Hjs & Hnd & Hp).
  assert (length js = n) as Hl by (by rewrite Hp, length_seq).
  assert (∀ i r j, root_paths conf !! i = Some r → js !! i = Some j → idxs !! j = Some i) as Hij.
  { intros i r j Hr Hj. destruct (Forall2_lookup_r _ _ _ _ _ Hjs Hj) as (i' & Hi' & Hij).
    apply lookup_seq in Hi' as [Hi' _]. cbn in Hi'. by subst i'. }
  destruct (file_map_loop_spec fs' name (root_paths conf) (Z.of_nat <$> js) []) as (l & Hrun & Hs & Hlp).
  - apply Forall2_fmap_r, Forall2_same_length_lookup. split; [done|]. intros i r j Hr Hj.
    destruct (dir_view i j (Hij _ _ _ Hr Hj)) as (r' & d & Hr' & _ & Hd & _ & H1 & H2 & H3).
    assert (r' = r) as -> by congruence. rewrite Hd in *. split_and!; [done|done|done|lia].
  - constructor.
  - cbn. by apply NoDup_fmap_2; [intros ? ? ?; lia|].
  - rewrite Hrun. f_equal. apply (StronglySorted_unique key_lt); [done|apply sorted_parts|]. rewrite Hlp, <-Hp. cbn [app].
    assert (zip_with (part_info name) (root_paths conf) (Z.of_nat <$> js) = (λ j, (Z.of_nat j, part_of j)) <$> js) as ->; [|done].
    apply list_eq. intros i. rewrite lookup_zip_with, !list_lookup_fmap.
    destruct (js !! i) as [j|] eqn:Hj; cbn.
    + destruct (lookup_lt_is_Some_2 (root_paths conf) i) as [r Hr]; [fold n; rewrite <-Hl; by eapply lookup_lt_Some|].
      rewrite Hr. cbn. unfold part_of. rewrite (list_lookup_total_correct _ _ _ (Hij _ _ _ Hr Hj)).
      by rewrite (list_lookup_total_correct _ _ _ Hr).
    + by destruct (root_paths conf !! i).
Qed.

Lemma part_of_file j s : (j < n)%nat → sizes !! j = Some s →
  namei fs' (part_name (part_of j)) = Some (File (replicate (Z.to_nat s) 0)).
Proof using All.
  intros Hj Hs. destruct (lookup_lt_is_Some_2 idxs j) as [i Hi]; [by rewrite length_idxs|].
  destruct (dir_view i j Hi) as (r & d & Hr & _ & Hd & Hds & _). unfold part_of.
  rewrite (list_lookup_total_correct _ _ _ Hi), (list_lookup_total_correct _ _ _ Hr). cbn [part_info snd part_name].
  rewrite <-Hd. destruct (itoa_plain (Z.of_nat j) ltac:(lia)) as [Hpl _].
  rewrite (namei_below _ _ _ _ _ Hm' j _ _ Hds Hpl). cbn [entry]. by rewrite decide_True, Hs.
Qed.

Lemma mapper_after k' :
  0 < b < 2 ^ 31 → mapping_of o = Some k' →
  create_file_mapper fs' conf name = Ok (Some (mkMapper k' name (part_of <$> seq 0 n) b)).
Proof using All.
  intros Hbb Ho. unfold create_file_mapper. rewrite file_map_after. rewrite length_fmap, length_seq, decide_False by (fold n; lia).
  fold f. rewrite header_after. cbn [rbind]. destruct (ctor4_valid b o true sz k' Hbb Ho) as (V1 & V2 & V3). unfold h.
  rewrite V1, V2, V3. rewrite <-list_fmap_compose. apply make_mapper_ok; [lia|done|].
  pose proof (ready_some _ _ _ Hready) as Hne. unfold n. by destruct (root_paths conf).
Qed.
End after.
End creating.

Lemma dirs_NoDup fs conf name : ready fs conf name → NoDup (part_name <$> native_dirs (safs_file_ctor conf name)).
Proof.
  intros Hr. apply (NoDup_fmap_1 path_of). cbn. rewrite <-!list_fmap_compose.
  assert ((λ r, path_of (part_name r) ++ [name]) <$> root_paths conf
          = (path_of ∘ part_name ∘ λ d, mkPart (part_name d +:+ "/" +:+ name) (disk_id d) (node_id d)) <$> root_paths conf) as <-.
  { apply list_fmap_ext. intros i r _. cbn. symmetry. apply path_of_in, Hr. }
  rewrite (list_fmap_compose (λ r, path_of (part_name r)) (λ p, p ++ [name])). apply NoDup_fmap_2; [|apply Hr].
  intros a b He. by apply app_inj_tail in He as [-> _].
Qed.

(** ** Deleting it again *)

Section deleting.
Context (fs fs' : nfs) (ds : list string) (h : safs_header) (sizes : list Z).
Context (Hwf : fs_wf fs) (Hpl : plain_fs fs) (Hnd : NoDup (path_of <$> ds)).
Context (Hfree : ∀ j s, ds !! j = Some s →
  ∃ p x, path_of s = p ++ [x] ∧ stat fs p = Some Dir ∧ fs !! (p ++ [x]) = None).
Context (Hm : made ds (header_bytes h) sizes (length ds) fs fs').

Lemma made_cases q :
  (∃ j s r, ds !! j = Some s ∧ q = path_of s ++ r ∧ fs' !! q = entry (header_bytes h) sizes j r) ∨
  (Forall (λ s, ¬ path_of s `prefix_of` q) ds ∧ fs' !! q = fs !! q).
Proof using Hm.
  destruct (decide (Exists (λ s, path_of s `prefix_of` q) ds)) as [He|He]; [left|right].
  - apply Exists_exists in He as (s & Hs & [r ->]). apply list_elem_of_lookup in Hs as [j Hj].
    exists j, s, r. split_and!; [done|done|]. apply (made_in _ _ _ _ _ _ Hm); [by eapply lookup_lt_Some|done].
  - assert (Forall (λ s, ¬ path_of s `prefix_of` q) ds) as HF by (by apply not_Exists_Forall in He; [|apply _]).
    split; [done|]. apply (made_out _ _ _ _ _ _ Hm). intros j s _ Hj. by apply (Forall_lookup_1 _ _ _ _ HF Hj).
Qed.

Lemma made_plain : plain_fs fs'.
Proof using Hm Hpl.
  intros q Hq. destruct (made_cases q) as [(j & s & r & Hj & -> & He)|[_ He]]; rewrite He in Hq; [|by apply Hpl].
  apply Forall_app. split; [apply path_of_all_plain|]. destruct r as [|x [|y r]]; [constructor| |by destruct Hq].
  cbn [entry] in Hq. constructor; [|constructor]. case_decide as Hx; [subst x; by apply itoa_plain; lia|].
  case_decide as Hh; [|by destruct Hq]. destruct Hh as [_ ->]. by apply (bool_decide_unpack _).
Qed.

Lemma made_depth j s : ds !! j = Some s → depth_le fs' (path_of s) 1.
Proof using Hm.
  intros Hj r Hr. rewrite (made_in _ _ _ _ _ _ Hm j s r) in Hr by (by eapply lookup_lt_Some || done).
  destruct r as [|x [|y r]]; simpl; [lia|lia|by destruct Hr].
Qed.

Definition prune_dirs (dirs : list part_file_info) (m : nfs) : nfs :=
  foldl (λ m d, prune (path_of (part_name d)) m) m dirs.

Lemma lookup_prune_dirs dirs m q :
  prune_dirs dirs m !! q = if decide (Exists (λ d, path_of (part_name d) `prefix_of` q) dirs) then None else m !! q.
Proof.
  revert m. induction dirs as [|d dirs IH]; intros m; [by rewrite decide_False by (by intros ?%Exists_nil)|].
  change (prune_dirs (d :: dirs) m) with (prune_dirs dirs (prune (path_of (part_name d)) m)). rewrite IH, lookup_prune.
  repeat case_decide; rewrite Exists_cons in *; tauto.
Qed.

(** The directories still to be deleted are in place. *)
Lemma delete_loop_spec dirs m f' :
  fs_wf m → plain_fs m → NoDup (part_name <$> dirs) → Forall (λ d, part_name d ∈ ds) dirs →
  (∀ d, d ∈ dirs → m !! path_of (part_name d) = Some Dir ∧ depth_le m (path_of (part_name d)) 1) →
  delete_loop 2 dirs (m, f') = ((prune_dirs dirs m, f'), Ok true).
Proof using Hwf Hnd Hfree.
  revert m. induction dirs as [|d dirs IH]; intros m Hmw Hmp Hnd' Hin Hd; [done|]. cbn in Hnd'.
  apply NoDup_cons in Hnd' as [Hdn Hnd']. apply Forall_cons in Hin as [Hdin Hin].
  destruct (Hd d ltac:(left)) as [Hdir Hdep]. apply list_elem_of_lookup in Hdin as [j Hj].
  destruct (Hfree j _ Hj) as (p & x & Hp & _). cbn [delete_loop].
  rewrite (mbind_ok _ _ _ (prune (path_of (part_name d)) m, f') true).
  2:{ unfold on_fs. rewrite (delete_dir_spec 1 _ m p x); rewrite <-?Hp; done. }
  apply IH; [by apply wf_prune| |done|done|].
  - intros q Hq. apply Hmp. rewrite lookup_prune in Hq. case_decide; [by destruct Hq|done].
  - intros d' Hd'. destruct (Hd d' ltac:(by right)) as [H1 H2]. split.
    + rewrite lookup_prune, decide_False; [done|]. rewrite Forall_forall in Hin.
      destruct (proj1 (list_elem_of_lookup ds _) (Hin d' Hd')) as [j' Hj'].
      apply (dirs_apart fs ds Hwf Hnd Hfree j j'); [done|done|]. intros <-. apply Hdn.
      rewrite Hj in Hj'. injection Hj' as He. rewrite He. by apply list_elem_of_fmap_2.
    + intros r Hr. apply H2. rewrite lookup_prune in Hr. case_decide; [by destruct Hr|done].
Qed.

Lemma prune_made dirs : (∀ s, s ∈ ds → ∃ d, d ∈ dirs ∧ part_name d = s) → Forall (λ d, part_name d ∈ ds) dirs →
  prune_dirs dirs fs' = fs.
Proof using Hwf Hfree Hm.
  intros Hall Hin. apply map_eq. intros q. rewrite lookup_prune_dirs. case_decide as He.
  - apply Exists_exists in He as (d & Hd & [r ->]). rewrite Forall_forall in Hin.
    destruct (proj1 (list_elem_of_lookup ds _) (Hin d Hd)) as [j Hj]. symmetry. by apply (below_none fs ds Hwf Hfree j).
  - destruct (made_cases q) as [(j & s & r & Hj & -> & _)|[_ Hq]]; [|done]. exfalso. apply He, Exists_exists.
    destruct (Hall s ltac:(by eapply list_elem_of_lookup_2)) as (d & Hd & <-). exists d. split; [done|by apply prefix_app_r].
Qed.
End deleting.

(** ** Orders of the disks *)

Definition group_wf (d : nat) (g : safs_file_group) : Prop :=
  match g with
  | naive_file_group _ d' | rotate_file_group _ d' => d' = d
  | rand_rotate_file_group bases rots n =>
      bases ≠ [] ∧ length rots = length bases ∧ (n ≤ d * length bases)%nat ∧
      Forall (λ l, l ≡ₚ seq 0 d) bases ∧ Forall (λ l, l ≡ₚ seq 0 d) rots
  end.

Lemma rotate_perm d c : (0 < d)%nat → (λ i, (c + i) mod d)%nat <$> seq 0 d ≡ₚ seq 0 d.
Proof.
  intros Hd. apply submseteq_length_Permutation; [|by rewrite length_fmap]. apply NoDup_submseteq.
  - apply NoDup_fmap_2_strong; [|apply NoDup_seq]. intros i j Hi%elem_of_seq Hj%elem_of_seq He.
    pose proof (Nat.div_mod_eq (c + i) d). pose proof (Nat.div_mod_eq (c + j) d).
    destruct (Nat.lt_trichotomy ((c + i) / d) ((c + j) / d)) as [Hq|[Hq|Hq]]; [|rewrite Hq in *; lia|].
    + pose proof (Nat.mul_le_mono_l _ _ d Hq). lia.
    + pose proof (Nat.mul_le_mono_l _ _ d Hq). lia.
  - intros x (i & -> & _)%list_elem_of_fmap. apply elem_of_seq. pose proof (Nat.mod_upper_bound (c + i) d). lia.
Qed.

(** Reading a permutation through another one. *)
Lemma mapM_perm (base : list nat) (g : nat → nat) d :
  base ≡ₚ seq 0 d → g <$> seq 0 d ≡ₚ seq 0 d →
  ∃ ret, mapM (λ i, base !! g i) (seq 0 d) = Some ret ∧ ret ≡ₚ seq 0 d.
Proof.
  intros Hb Hg. assert (length base = d) as Hl by (by rewrite Hb, length_seq).
  exists ((λ i, base !!! i) <$> (g <$> seq 0 d)). split.
  - apply mapM_Some, Forall2_same_length_lookup. split; [by rewrite !length_fmap|]. intros a i x Ha Hx.
    rewrite !list_lookup_fmap, Ha in Hx. cbn in Hx. injection Hx as <-.
    apply list_lookup_lookup_total_lt. rewrite Hl. assert (g i ∈ g <$> seq 0 d) as Hin by (apply list_elem_of_fmap_2; by eapply list_elem_of_lookup_2).
    rewrite Hg in Hin. apply elem_of_seq in Hin. lia.
  - rewrite Hg. assert ((λ i, base !!! i) <$> seq 0 d = base) as ->; [|done]. rewrite <-Hl.
    apply list_eq. intros i. rewrite list_lookup_fmap. destruct (decide (i < length base)%nat) as [Hi|Hi].
    + rewrite lookup_seq_lt by done. cbn. by rewrite list_lookup_lookup_total_lt.
    + rewrite lookup_seq_ge, lookup_ge_None_2 by lia. done.
Qed.

(** ** The configuration file *)

Fixpoint all_chars (P : ascii → bool) (s : string) : bool :=
  match s with EmptyString => true | String c s => P c && all_chars P s end.
Definition good_char (c : ascii) : bool := negb (isspace c) && negb (bool_decide (c = ascii_of_nat 0)).

(** The line for a directory: its node, a colon and its path. *)
Definition conf_line (d : Z * string) : string := itoa d.1 +:+ ":" +:+ d.2.
Fixpoint print_conf (ds : list (Z * string)) : string :=
  match ds with [] => "" | d :: ds => conf_line d +:+ String newline (print_conf ds) end.
Definition bytes_of_text (s : string) : list Z := (λ c, Z.of_nat (nat_of_ascii c)) <$> String.list_ascii_of_string s.

Lemma string_cons_app c a b : String c a +:+ b = String c (a +:+ b).
Proof. done. Qed.

Lemma text_of_bytes s : text_of (bytes_of_text s) = s.
Proof.
  unfold text_of, bytes_of_text. induction s as [|c s IH]; [done|]. cbn [String.list_ascii_of_string fmap list_fmap String.string_of_list_ascii].
  rewrite IH, Nat2Z.id, ascii_nat_embedding. done.
Qed.

Lemma good_not c : good_char c = true → isspace c = false ∧ c ≠ newline ∧ c ≠ ascii_of_nat 0.
Proof.
  unfold good_char. intros [H1 H2]%andb_true_iff. apply negb_true_iff in H1, H2. apply bool_decide_eq_false in H2.
  split_and!; [done| |done]. intros ->. by vm_compute in H1.
Qed.

Section good.
Context (l : string) (Hl : all_chars good_char l = true).

Lemma lines_of_good s : lines_of (l +:+ String newline s) = (l +:+ String newline "") :: lines_of s.
Proof using Hl.
  revert Hl. induction l as [|c l' IH]; intros Hg.
  - change ("" +:+ String newline s) with (String newline s). cbn [lines_of]. by rewrite decide_True.
  - cbn [all_chars] in Hg. apply andb_true_iff in Hg as [Hc Hg]. destruct (good_not c Hc) as (_ & Hn & _).
    rewrite !string_cons_app. cbn [lines_of]. by rewrite decide_False, IH by done.
Qed.

Lemma chop_good c : chop (l +:+ String c "") = l.
Proof using.
  clear Hl. induction l as [|d l' IH]; [done|]. rewrite string_cons_app. cbn [chop].
  destruct (l' +:+ String c "") eqn:He; [by destruct l'|]. by rewrite IH.
Qed.

Lemma c_str_good : c_str l = l.
Proof using Hl.
  revert Hl. induction l as [|c l' IH]; intros Hg; [done|]. cbn [all_chars] in Hg. apply andb_true_iff in Hg as [Hc Hg].
  destruct (good_not c Hc) as (_ & _ & H0). cbn [c_str]. by rewrite decide_False, IH.
Qed.

Lemma remove_spaces_good : remove_spaces l = l.
Proof using Hl.
  revert Hl. induction l as [|c l' IH]; intros Hg; [done|]. cbn [all_chars] in Hg. apply andb_true_iff in Hg as [Hc Hg].
  destruct (good_not c Hc) as (Hs & _). cbn [remove_spaces]. by rewrite Hs, IH.
Qed.
End good.

Lemma all_chars_app P a b : all_chars P (a +:+ b) = all_chars P a && all_chars P b.
Proof. induction a as [|c a IH]; [done|]. rewrite string_cons_app. cbn [all_chars]. by rewrite IH, andb_assoc. Qed.

Lemma digits_good s : all_digits s = true → all_chars good_char s = true ∧ split_on ":" s = [s].
Proof.
  induction s as [|c s IH]; [done|]. cbn [all_digits all_chars split_on]. intros [Hc Hs]%andb_true_iff.
  destruct (isdigit_cases c Hc) as (n & Hn & ->). destruct (IH Hs) as [H1 H2].
  assert (n = 0 ∨ n = 1 ∨ n = 2 ∨ n = 3 ∨ n = 4 ∨ n = 5 ∨ n = 6 ∨ n = 7 ∨ n = 8 ∨ n = 9) as Hcases by lia.
  split; [rewrite H1|rewrite H2]; clear -Hcases; by repeat destruct Hcases as [->|Hcases]; [..|subst n].
Qed.

Lemma concat_split d s : String.concat (String d "") (split_on d s) = s.
Proof.
  induction s as [|c s IH]; [done|]. cbn [split_on]. pose proof (split_on_ne d s) as Hne.
  case_decide as Hc; destruct (split_on d s) as [|x l] eqn:Hs; try done.
  - subst c. change (String d (String.concat (String d "") (x :: l)) = String d s). by rewrite IH.
  - destruct l as [|y l]; cbn [String.concat] in *; [by rewrite IH|]. rewrite string_cons_app. by rewrite IH.
Qed.

Lemma itoa_digits n : 0 ≤ n → all_digits (itoa n) = true.
Proof. intros Hn. destruct (itoa_spec n Hn) as (c & s & -> & Hc & Hs & _). cbn. by rewrite Hc, Hs. Qed.

Definition conf_entry_ok (fs : nfs) (d : Z * string) : Prop :=
  0 ≤ d.1 ∧ all_chars good_char d.2 = true ∧ starts_with "/" d.2 = true ∧ NativeFs.is_dir d.2 fs = true.

Lemma conf_line_good fs d : conf_entry_ok fs d → all_chars good_char (conf_line d) = true ∧ starts_with "#" (conf_line d) = false ∧
  parse_line (conf_line d) = d.
Proof.
  intros (H1 & H2 & _). unfold conf_line. pose proof (itoa_digits d.1 H1) as Hd. destruct (digits_good _ Hd) as [Hg Hs]. split_and!.
  - rewrite !all_chars_app, Hg, H2. done.
  - destruct (itoa_spec d.1 H1) as (c & s & -> & Hc & _). rewrite string_cons_app. cbn [starts_with]. apply bool_decide_eq_false.
    intros ->. by vm_compute in Hc.
  - unfold parse_line. rewrite (split_on_join ":" (itoa d.1) d.2 : split_on _ (itoa d.1 +:+ ":" +:+ d.2) = _), Hs. cbn [app].
    pose proof (split_on_ne ":" d.2) as Hne. destruct (split_on ":" d.2) as [|x l] eqn:He; [done|].
    rewrite <-He, (concat_split ":" d.2), !remove_spaces_good, atoi_itoa by done. by destruct d.
Qed.

Lemma retrieve_loop_spec fs ds i acc :
  Forall (conf_entry_ok fs) ds →
  retrieve_loop fs (lines_of (print_conf ds)) (Z.of_nat i) acc = acc ++ imap (λ j d, mkPart d.2 (Z.of_nat (i + j)) d.1) ds.
Proof.
  intros HF. revert i acc. induction HF as [|d ds Hd _ IH]; intros i acc; [by rewrite app_nil_r|].
  destruct (conf_line_good fs d Hd) as (Hg & Hs & Hp). cbn [print_conf]. rewrite lines_of_good by done. cbn [retrieve_loop].
  rewrite chop_good, c_str_good, Hs, Hp by done. destruct d as [id pth]. destruct Hd as (_ & _ & H3 & H4). cbn [fst snd] in *.
  rewrite H3. unfold file_exist. unfold NativeFs.is_dir, is_Dir in H4. unfold NativeFs.is_dir, is_Dir.
  destruct (namei fs pth) as [[|]|]; [|done|done]. cbn [negb].
  replace (Z.of_nat i + 1) with (Z.of_nat (S i)) by lia. rewrite IH, <-(assoc_L (++)). cbn [app imap fst snd].
  rewrite Nat.add_0_r. f_equal. f_equal. apply imap_ext. intros j x _. cbn. f_equal. lia.
Qed.

(** ** Properties *)

(** C6. [create_file] with the system's block size and mapping lays out a file
    that can be used: it succeeds, whatever the order of the directories, and
    then [exist] holds, the header read back is the one written, and the mapper
    that [create_file_mapper] makes sends every page of the file to a native
    file that exists and is long enough to hold it. *)
Theorem safs_create_correct fs conf name idxs sz k :
  ready fs conf name → idxs ≡ₚ seq 0 (length (root_paths conf)) → 0 ≤ sz →
  0 < RAID_block_size conf < 2 ^ 31 → mapping_of (RAID_mapping_option conf) = Some k →
  let f := safs_file_ctor conf name in
  let b := RAID_block_size conf in
  let o := RAID_mapping_option conf in
  ∃ fs' f' m,
    create_file idxs sz b o (fs, f) = ((fs', f'), Ok true) ∧ exist fs' f = true ∧
    (get_header (fs', f)).2 = Ok (safs_header_ctor4 b o true sz) ∧
    create_file_mapper fs' conf name = Ok (Some m) ∧ mkind m = k ∧ STRIPE_BLOCK_SIZE m = b ∧
    ∀ off, 0 ≤ off → off * PAGE_SIZE < sz →
      ∃ bid file bs, map_off rand_start m off = Ok bid ∧ mfiles m !! Z.to_nat (bid_idx bid) = Some file ∧
        namei fs' (part_name file) = Some (File bs) ∧ (bid_off bid + 1) * PAGE_SIZE ≤ Z.of_nat (length bs).
Proof.
  intros Hr Hp Hsz Hb Hk f b o.
  destruct (create_file_run fs conf name idxs sz k Hr Hp Hsz Hb Hk b o) as (ret & fs' & hf & Hrun & Hm & Hlen & Hcov).
  set (sizes := (λ s, s * PAGE_SIZE) <$> ret) in *. assert (length sizes = length (root_paths conf)) as Hls by (by unfold sizes; rewrite length_fmap).
  eexists fs', _, (mkMapper k name (part_of conf name idxs <$> seq 0 (length (root_paths conf))) b). split_and!; [exact Hrun| | | |reflexivity|reflexivity|].
  - by apply (exist_after fs conf name idxs sz k Hr Hp Hsz Hb Hk b o sizes).
  - by apply (header_after fs conf name idxs sz k Hr Hp Hsz Hb Hk b o sizes).
  - by apply (mapper_after fs conf name idxs sz k Hr Hp Hsz Hb Hk b o sizes).
  - intros off Hoff Hlt. destruct (npages_bound sz off Hsz Hoff Hlt) as [_ Hpg].
    set (m := mkMapper k name (part_of conf name idxs <$> seq 0 (length (root_paths conf))) b).
    assert (get_num_files m = Z.of_nat (length (root_paths conf))) as Hn by (unfold get_num_files; cbn; by rewrite length_fmap, length_seq).
    assert (0 < get_num_files m) as Hn0 by (rewrite Hn; pose proof (ready_some _ _ _ Hr); destruct (root_paths conf); [done|simpl; lia]).
    pose proof (map_off_blocks rand_start m off Hn0 ltac:(cbn; lia) ltac:(done) Hoff) as Hmap.
    set (bid := mkBid _ _) in Hmap.
    assert (0 ≤ bid_idx bid < get_num_files m) as Hid by (by apply block_file_range).
    destruct (Hcov off bid) as (s & Hs & Hoffs); [lia| |].
    { rewrite <-Hmap. apply map_off_ext; [done|done|]. cbn. by rewrite !length_fmap, length_seq. }
    assert (Z.to_nat (bid_idx bid) < length (root_paths conf))%nat as Hlt' by lia.
    exists bid, (part_of conf name idxs (Z.to_nat (bid_idx bid))), (replicate (Z.to_nat (s * PAGE_SIZE)) 0). split_and!.
    + done.
    + cbn [mfiles m]. by rewrite list_lookup_fmap, lookup_seq_lt by done.
    + apply (part_of_file fs conf name idxs sz k Hr Hp Hsz Hb Hk b o sizes fs' Hm Hls _ (s * PAGE_SIZE)); [done|].
      unfold sizes. by rewrite list_lookup_fmap, Hs.
    + rewrite length_replicate. unfold PAGE_SIZE. lia.
Qed.

(** C34. [delete_file] undoes [create_file]: for every block size and mapping
    option, deleting a file just created leaves the native file system exactly
    as it was; two levels of recursion in [delete_dir] are enough. *)
Theorem safs_create_delete fs conf name idxs sz b o k :
  ready fs conf name → plain_fs fs → idxs ≡ₚ seq 0 (length (root_paths conf)) → 0 ≤ sz →
  0 < RAID_block_size conf < 2 ^ 31 → mapping_of (RAID_mapping_option conf) = Some k →
  ∃ fs' f',
    create_file idxs sz b o (fs, safs_file_ctor conf name) = ((fs', f'), Ok true) ∧
    delete_file 2 (fs', f') = ((fs, f'), Ok true).
Proof.
  intros Hr Hpl Hp Hsz Hb Hk.
  destruct (create_file_run fs conf name idxs sz k Hr Hp Hsz Hb Hk b o) as (ret & fs' & hf & Hrun & Hm & Hlen & _).
  eexists fs', _. split; [exact Hrun|]. set (f := safs_file_ctor conf name) in *.
  set (ds := (λ c, part_name (native_dirs f !!! c)) <$> idxs) in *.
  pose proof (ds_NoDup fs conf name idxs sz k Hr Hp Hsz Hb Hk : NoDup (path_of <$> ds)) as Hnd.
  pose proof (ds_free fs conf name idxs sz k Hr Hp Hsz Hb Hk : ∀ j s, ds !! j = Some s → _) as Hfree.
  assert (length ds = length (root_paths conf)) as Hl by (unfold ds; by rewrite length_fmap, Hp, length_seq).
  rewrite <-Hl in Hm. pose proof (ready_wf _ _ _ Hr) as Hwf.
  assert (∀ s, s ∈ ds ↔ s ∈ part_name <$> native_dirs f) as Hds by apply (ds_elem fs conf name idxs sz k Hr Hp Hsz Hb Hk).
  assert (NoDup (part_name <$> native_dirs f)) as Hnd' by apply (dirs_NoDup fs conf name Hr).
  assert (Forall (λ d, part_name d ∈ ds) (native_dirs f)) as Hin.
  { apply Forall_forall. intros d Hd. apply Hds. by apply list_elem_of_fmap_2. }
  unfold delete_file. rewrite (mbind_ok _ _ _ _ _ eq_refl : mbind' mget _ _ = _). cbn [snd native_dirs set_header_file].
  rewrite (delete_loop_spec fs ds Hwf Hnd Hfree); [| | |done|done|].
  - do 2 f_equal. apply (prune_made fs fs' ds _ _ Hwf Hfree Hm); [|done].
    intros s Hs. apply Hds, list_elem_of_fmap in Hs as (d & -> & Hd). by exists d.
  - apply Hm.
  - by apply (made_plain fs fs' ds _ _ Hpl Hm).
  - intros d Hd. rewrite Forall_forall in Hin. destruct (proj1 (list_elem_of_lookup ds _) (Hin d Hd)) as [j Hj]. split.
    + rewrite <-(app_nil_r (path_of _)). rewrite (made_in _ _ _ _ _ _ Hm j) by (by eapply lookup_lt_Some || done). done.
    + by apply (made_depth fs fs' ds _ _ Hm j).
Qed.

(** User metadata is stored behind the header page and read back; what was
    stored there before and is not overwritten stays behind it, and the header
    is not touched.  Before any metadata was set, when the header file is
    shorter than a page, [get_user_metadata] fails its assertion. *)
Theorem safs_metadata_roundtrip fs f bs data :
  header_file f ≠ "" → namei fs (header_file f) = Some (File bs) → data ≠ [] →
  (Z.of_nat (length bs) < PAGE_SIZE → (get_user_metadata (fs, f)).2 = Throw AssertFailed) ∧
  ∃ fs', set_user_metadata data (fs, f) = ((fs', f), Ok true) ∧
    get_user_metadata (fs', f) = ((fs', f), Ok (data ++ drop (Z.to_nat PAGE_SIZE + length data) bs)) ∧
    ((sizeof_header ≤ length bs)%nat → read_header fs' (header_file f) = read_header fs (header_file f)).
Proof.
  intros Hh Hbs Hdata.
  assert (∀ m : nfs, get_header_file (m, f) = ((m, f), Ok (header_file f))) as Hhf.
  { intros m. unfold get_header_file. by rewrite bool_decide_false. }
  set (hf := header_file f) in *.
  assert (∃ p x, path_of hf = p ++ [x]) as (p & x & Hp).
  { rewrite namei_ne in Hbs by done. destruct (path_of hf) as [|y l _] using rev_ind; [done|]. by exists l, y. }
  pose proof Hbs as Hbs'. rewrite (namei_snoc _ _ _ _ Hp) in Hbs'. set (PS := Z.to_nat PAGE_SIZE) in *.
  set (bs' := write_at PS data bs).
  assert (length (set_length PS bs) = PS) as Hsl.
  { unfold set_length. rewrite length_app, length_take, length_replicate. clearbody PS. lia. }
  assert ((PS < length bs')%nat) as Hl.
  { unfold bs', write_at. rewrite length_app, Hsl, length_app.
    assert (0 < length data)%nat by (destruct data; [done|simpl; lia]). clearbody PS. lia. }
  assert (namei (<[p ++ [x] := File bs']> fs) hf = Some (File bs')) as Hnew by (rewrite (namei_snoc _ _ _ _ Hp); apply lookup_insert_eq).
  split.
  { intros Hlt. unfold get_user_metadata. rewrite (mbind_ok _ _ _ _ _ (Hhf fs)), (mbind_ok _ _ _ _ _ eq_refl : mbind' mget _ _ = _).
    cbn [fst]. unfold file_exist, NativeFs.get_size. rewrite Hbs. rewrite (mbind_ok (massert true) _ _ _ _ eq_refl). cbn zeta.
    by rewrite (proj2 (Z.leb_gt _ _)) by lia. }
  exists (<[p ++ [x] := File bs']> fs). split_and!.
  - unfold set_user_metadata. rewrite (mbind_ok _ _ _ _ _ (Hhf fs)), (mbind_ok _ _ _ _ _ eq_refl : mbind' mget _ _ = _).
    cbn [fst]. unfold file_exist. rewrite Hbs. rewrite (mbind_ok (massert true) _ _ _ _ eq_refl), decide_False by done.
    unfold on_fs. by rewrite (sys_write_spec _ _ _ _ _ _ bs Hp Hbs').
  - unfold get_user_metadata. rewrite (mbind_ok _ _ _ _ _ (Hhf _)), (mbind_ok _ _ _ _ _ eq_refl : mbind' mget _ _ = _).
    cbn [fst]. unfold file_exist, NativeFs.get_size. rewrite Hnew. rewrite (mbind_ok (massert true) _ _ _ _ eq_refl). cbn zeta.
    rewrite (proj2 (Z.leb_le _ _)) by (unfold PS in Hl; lia). rewrite (mbind_ok (massert true) _ _ _ _ eq_refl).
    rewrite (proj2 (Z.eqb_neq _ _)) by (unfold PS in Hl; lia). unfold mret, bs', write_at.
    by rewrite drop_app_length' by done.
  - intros Hlb. unfold read_header. rewrite Hnew, Hbs. f_equal. apply header_of_bytes_prefix;
      [unfold PS, PAGE_SIZE, sizeof_header in *; lia|done|].
    unfold bs', write_at, set_length. rewrite take_app_le' by (rewrite length_app, length_take; unfold PS, PAGE_SIZE, sizeof_header in *; lia).
    rewrite take_app_le' by (rewrite length_take; unfold PS, PAGE_SIZE, sizeof_header in *; lia).
    by rewrite take_take, Nat.min_l by (unfold PS, PAGE_SIZE, sizeof_header; lia).
Qed.

(** Every group gives each new file a permutation of the disks, whatever the
    group has handed out before and however the disks are shuffled, and never
    fails; so [create_file] puts one part on every disk. *)
Theorem group_add_file_permutes d g s1 s2 :
  (0 < d)%nat → group_wf d g → s1 ≡ₚ seq 0 d → s2 ≡ₚ seq 0 d →
  ∃ g' ret, add_file s1 s2 g = Ok (g', ret) ∧ group_wf d g' ∧ ret ≡ₚ seq 0 d.
Proof.
  intros Hd Hg H1 H2. destruct g as [n d'|n d'|bases rots n]; cbn [group_wf add_file] in *.
  - subst d'. by eexists _, _.
  - subst d'. eexists _, _. split_and!; [done|done|by apply rotate_perm].
  - destruct Hg as (Hne & Hlen & Hn & Hb & Hr). destruct bases as [|b0 bases']; [done|].
    assert (length b0 = d) as -> by (apply Forall_cons in Hb as [Hb0 _]; by rewrite Hb0, length_seq).
    set (bases := b0 :: bases') in *. clearbody bases. rewrite (proj2 (Nat.eqb_neq _ _)) by lia.
    assert (∃ bases2 rots2, (if (length bases <=? n / d)%nat then (bases ++ [s1], rots ++ [s2]) else (bases, rots)) = (bases2, rots2) ∧
      length rots2 = length bases2 ∧ (n / d < length bases2)%nat ∧ Forall (λ l, l ≡ₚ seq 0 d) bases2 ∧ Forall (λ l, l ≡ₚ seq 0 d) rots2)
      as (bases2 & rots2 & -> & Hlen2 & Hlt & Hb2 & Hr2).
    { assert (n / d ≤ length bases)%nat by (apply Nat.Div0.div_le_upper_bound; lia).
      destruct (Nat.leb_spec (length bases) (n / d)); eexists _, _; (split; [reflexivity|]).
      - rewrite !length_app, !Forall_app, !Forall_singleton. cbn [length]. split_and!; [lia|lia|done..].
      - by split_and!. }
    rewrite (proj2 (Nat.ltb_lt _ _) Hlt). cbn [negb].
    destruct (lookup_lt_is_Some_2 bases2 _ Hlt) as [base Hbase]. destruct (lookup_lt_is_Some_2 rots2 (n / d)) as [rot Hrot]; [lia|].
    rewrite Hbase, Hrot. pose proof (Forall_lookup_1 _ _ _ _ Hb2 Hbase) as Hpb. pose proof (Forall_lookup_1 _ _ _ _ Hr2 Hrot) as Hpr.
    cbn in Hpb, Hpr. destruct (lookup_lt_is_Some_2 rot (n mod d)) as [c Hc].
    { rewrite Hpr, length_seq. apply Nat.mod_upper_bound. lia. }
    rewrite Hc. destruct (mapM_perm base (λ i, (c + i) mod d)%nat d Hpb (rotate_perm d c Hd)) as (ret & -> & Hret).
    eexists _, _. split; [reflexivity|]. split; [|done]. cbn [group_wf].
    pose proof (Nat.mul_succ_div_gt n d ltac:(lia)). pose proof (Nat.mul_le_mono_l _ _ d Hlt).
    split_and!; [by destruct bases2|done|lia|done|done].
Qed.

(** A configuration file with a line [node:path] for every directory is read
    back as exactly these directories, in order and numbered from 0, whatever
    the paths contain besides white space. *)
Theorem raid_conf_roundtrip fs conf_file ds mapping_option block_size :
  namei fs conf_file = Some (File (bytes_of_text (print_conf ds))) → Forall (conf_entry_ok fs) ds → ds ≠ [] →
  RAID_create fs conf_file mapping_option block_size
    = Some (mkRAID mapping_option block_size (imap (λ j d, mkPart d.2 (Z.of_nat j) d.1) ds)).
Proof.
  intros Hf Hds Hne. unfold RAID_create, file_exist, NativeFs.is_dir, retrieve_data_files. rewrite Hf. cbn [is_Dir negb andb].
  rewrite text_of_bytes, (retrieve_loop_spec fs ds 0 [] Hds : retrieve_loop fs _ 0 [] = _). by destruct ds.
Qed.

(** *** Examples *)

Definition ex_fs : nfs := <[["d0"] := Dir]> (<[["d1"] := Dir]> ∅).
Definition ex_conf (block : Z) : RAID_config := mkRAID 0 block [mkPart "/d0" 0 0; mkPart "/d1" 1 0].

(** [create_file] does not use its [block_size]: the sizes are computed from
    the header read before it is written, hence from the system's block size,
    while the header that is then stored has the block size asked for.  With a
    system block of one page and a file of five pages in blocks of four, page 3
    is mapped behind the end of its native file. *)
Theorem safs_create_ignores_block_size :
  let r := create_file [0; 1]%nat (5 * PAGE_SIZE) 4 0 (ex_fs, safs_file_ctor (ex_conf 1) "f") in
  r.2 = Ok true ∧
  ∃ m file bs, create_file_mapper r.1.1 (ex_conf 1) "f" = Ok (Some m) ∧
    map_off rand_start m 3 = Ok (mkBid 0 3) ∧ mfiles m !! 0%nat = Some file ∧
    namei r.1.1 (part_name file) = Some (File bs) ∧ Z.of_nat (length bs) = 3 * PAGE_SIZE.
Proof.
  cbn zeta. split; [by vm_compute|].
  exists (mkMapper RAID0 "f" [mkPart "/d0/f/0" 0 0; mkPart "/d1/f/1" 1 0] 4), (mkPart "/d0/f/0" 0 0), (replicate 12288 0).
  split_and!; by vm_compute.
Qed.

(** [resize] assigns the sizes of the parts to the wrong files when the
    directories are not in the order of the parts: it takes the data files in
    the order of the disks and the sizes in that of the parts.  A file created
    over the disks in the order 1, 0 and extended from one to five pages has
    page 4 mapped behind the end of its native file, though [resize] reports
    success.  ([SafsResize.v] has the general statement.) *)
Example safs_resize_misplaces :
  let r := create_file [1; 0]%nat PAGE_SIZE 2 0 (ex_fs, safs_file_ctor (ex_conf 2) "f") in
  let r' := resize (5 * PAGE_SIZE) r.1 in
  r.2 = Ok true ∧ r'.2 = Ok true ∧
  ∃ m file bs, create_file_mapper r'.1.1 (ex_conf 2) "f" = Ok (Some m) ∧
    map_off rand_start m 4 = Ok (mkBid 0 2) ∧ mfiles m !! 0%nat = Some file ∧
    namei r'.1.1 (part_name file) = Some (File bs) ∧ Z.of_nat (length bs) = 2 * PAGE_SIZE.
Proof.
  cbn zeta. split; [by vm_compute|]. split; [by vm_compute|].
  exists (mkMapper RAID0 "f" [mkPart "/d1/f/0" 1 0; mkPart "/d0/f/1" 0 0] 2), (mkPart "/d1/f/0" 1 0), (replicate 8192 0).
  split_and!; by vm_compute.
Qed.

(** A last line without a newline loses its last character; the directory is
    then not found, and no configuration is made. *)
Example raid_conf_last_line :
  let fs := <[["conf"] := File (bytes_of_text (conf_line (0, "/d0")))]> ex_fs in RAID_create fs "/conf" 0 1 = None.
Proof. by vm_compute. Qed.

(** *** Witnesses *)

Lemma ex_fs_wf : fs_wf ex_fs.
Proof.
  apply wf_insert; [|done|done]. apply wf_insert; [|done|done]. intros p x [n Hn]. by rewrite lookup_empty in Hn.
Qed.

Lemma ex_ready b : ready ex_fs (ex_conf b) "f".
Proof.
  split.
  - apply ex_fs_wf.
  - by apply (bool_decide_unpack _).
  - intros [|[|i]] r Hr; cbn in Hr; [injection Hr as <-|injection Hr as <-|done]; by split; vm_compute.
  - apply (bool_decide_unpack _). by vm_compute.
  - done.
Qed.

Lemma ex_plain : plain_fs ex_fs.
Proof.
  intros p [n Hn]. unfold ex_fs in Hn.
  apply lookup_insert_Some in Hn as [[<- _]|[_ Hn]]; [by apply (bool_decide_unpack _)|].
  apply lookup_insert_Some in Hn as [[<- _]|[_ Hn]]; [by apply (bool_decide_unpack _)|]. by rewrite lookup_empty in Hn.
Qed.

Lemma safs_create_correct_witness :
  ∃ fs' f', create_file [1; 0]%nat 20000 1 0 (ex_fs, safs_file_ctor (ex_conf 1) "f") = ((fs', f'), Ok true) ∧
    exist fs' (safs_file_ctor (ex_conf 1) "f") = true.
Proof.
  destruct (safs_create_correct ex_fs (ex_conf 1) "f" [1; 0]%nat 20000 RAID0) as (fs' & f' & m & H1 & H2 & _).
  - apply ex_ready.
  - apply Permutation_swap.
  - lia.
  - split; reflexivity.
  - reflexivity.
  - exists fs', f'. split; [exact H1|exact H2].
Defined.

Lemma safs_create_delete_witness :
  ∃ fs' f', create_file [1; 0]%nat 20000 4 0 (ex_fs, safs_file_ctor (ex_conf 1) "f") = ((fs', f'), Ok true) ∧
    delete_file 2 (fs', f') = ((ex_fs, f'), Ok true).
Proof.
  apply (safs_create_delete ex_fs (ex_conf 1) "f" [1; 0]%nat 20000 4 0 RAID0).
  - apply ex_ready.
  - apply ex_plain.
  - apply Permutation_swap.
  - lia.
  - split; reflexivity.
  - reflexivity.
Defined.

Definition ex_meta_fs : nfs := <[["header"] := File (header_bytes safs_header_ctor)]> ∅.
Definition ex_meta_file : safs_file := mkSF [] "/header" "f" 0 1.

Lemma safs_metadata_roundtrip_witness :
  ∃ fs', set_user_metadata [7; 8] (ex_meta_fs, ex_meta_file) = ((fs', ex_meta_file), Ok true) ∧
    get_user_metadata (fs', ex_meta_file) = ((fs', ex_meta_file), Ok [7; 8]).
Proof.
  destruct (safs_metadata_roundtrip ex_meta_fs ex_meta_file (header_bytes safs_header_ctor) [7; 8]) as (_ & fs' & H1 & H2 & _).
  - done.
  - by vm_compute.
  - done.
  - exists fs'. split; [exact H1|]. rewrite drop_ge in H2 by (vm_compute; lia). exact H2.
Defined.

Lemma group_add_file_permutes_witness :
  ∃ g' ret, add_file [2; 0; 1]%nat [0; 1; 2]%nat (rand_rotate_file_group [[1; 2; 0]%nat] [[2; 0; 1]%nat] 3) = Ok (g', ret) ∧
    ret ≡ₚ seq 0 3.
Proof.
  destruct (group_add_file_permutes 3 (rand_rotate_file_group [[1; 2; 0]%nat] [[2; 0; 1]%nat] 3) [2; 0; 1]%nat [0; 1; 2]%nat)
    as (g' & ret & H1 & _ & H2).
  - lia.
  - split_and!; [done|done|simpl; lia| |]; constructor; try constructor; by apply (bool_decide_unpack _); vm_compute.
  - by apply (bool_decide_unpack _); vm_compute.
  - done.
  - exists g', ret. split; [exact H1|exact H2].
Defined.

Definition ex_raid_fs : nfs := <[["conf"] := File (bytes_of_text (print_conf [(0, "/d0"); (1, "/d1")]))]> ex_fs.

Lemma raid_conf_roundtrip_witness :
  RAID_create ex_raid_fs "/conf" 1 4 = Some (mkRAID 1 4 [mkPart "/d0" 0 0; mkPart "/d1" 1 1]).
Proof.
  apply (raid_conf_roundtrip ex_raid_fs "/conf" [(0, "/d0"); (1, "/d1")]).
  - by vm_compute.
  - constructor; [|constructor; [|constructor]]; split_and!; by vm_compute.
  - done.
Defined.

(** After [rename] the object still has the name of the old header file, so the
    header of the renamed file is not found. *)
Example safs_rename_stale_header :
  let r := create_file [0; 1]%nat PAGE_SIZE 2 0 (ex_fs, safs_file_ctor (ex_conf 2) "f") in
  let r' := rename "g" r.1 in
  r'.2 = Ok true ∧ exist r'.1.1 r'.1.2 = true ∧ header_file r'.1.2 = "/d0/f/header" ∧
  (get_header r'.1).2 = Ok safs_header_ctor.
Proof. by vm_compute. Qed.
