(* ===== verification/SafsResize.v ===== *)
(** * Extending a SAFS file: [safs_file::resize] of [SAFS/libsafs/safs_file.cpp]

    The operation itself is in [SafsFile.v]; this file works out what it does to
    a file that [create_file] has made, for every order of the directories. *)
From Stdlib Require Import Ascii.
From S2P Require Import Prelude FileMapper NativeFs SafsFile.
From stdpp Require Import options.
Open Scope Z_scope.

(** ** Changing one file of the layout *)

Section update.
Context (fs fs' : nfs) (ds : list string) (hdr sizes : list Z) (n : nat).
Context (Hwf : fs_wf fs) (Hnd : NoDup (path_of <$> ds)).
Context (Hfree : ∀ j s, ds !! j = Some s →
  ∃ p x, path_of s = p ++ [x] ∧ stat fs p = Some Dir ∧ fs !! (p ++ [x]) = None).
Context (Hm : made ds hdr sizes n fs fs').

Lemma made_put hdr' sizes' j s x bs bs' :
  (j < n)%nat → ds !! j = Some s → fs' !! (path_of s ++ [x]) = Some (File bs) →
  (∀ j' r, entry hdr' sizes' j' r = if decide (j' = j ∧ r = [x]) then Some (File bs') else entry hdr sizes j' r) →
  made ds hdr' sizes' n fs (<[path_of s ++ [x] := File bs']> fs').
Proof using Hwf Hnd Hfree Hm.
  intros Hj Hs Hx He. split.
  - apply wf_insert; [apply Hm| |by rewrite Hx]. rewrite parent_snoc. by eapply (made_wf _ _ _ _ _ _ Hm).
  - intros j' s' r Hj' Hs'. rewrite He. destruct (decide (j' = j)) as [->|Hne].
    + assert (s' = s) as -> by congruence. destruct (decide (r = [x])) as [->|Hr].
      * rewrite decide_True by done. apply lookup_insert_eq.
      * rewrite decide_False by (by intros []). rewrite lookup_insert_ne by (intros ?%app_inv_head; congruence).
        by apply (made_in _ _ _ _ _ _ Hm).
    + rewrite decide_False by (by intros []).
      rewrite lookup_insert_ne by (by apply (dirs_apart_below fs ds Hwf Hnd Hfree j j')). by apply (made_in _ _ _ _ _ _ Hm).
  - intros q Hq. rewrite lookup_insert_ne; [by apply (made_out _ _ _ _ _ _ Hm)|].
    intros <-. apply (Hq j s Hj Hs). by apply prefix_app_r.
Qed.

(** A part gets another length. *)
Lemma made_resize j s z z' :
  (j < n)%nat → ds !! j = Some s → sizes !! j = Some z →
  NativeFs.resize (s +:+ "/" +:+ itoa (Z.of_nat j)) z' fs'
    = (<[path_of s ++ [itoa (Z.of_nat j)] := File (replicate (Z.to_nat z') 0)]> fs', Ok true) ∧
  made ds hdr (<[j := z']> sizes) n fs (<[path_of s ++ [itoa (Z.of_nat j)] := File (replicate (Z.to_nat z') 0)]> fs').
Proof using Hwf Hnd Hfree Hm.
  intros Hj Hs Hz. destruct (itoa_plain (Z.of_nat j) ltac:(lia)) as [Hpl _].
  assert (fs' !! (path_of s ++ [itoa (Z.of_nat j)]) = Some (File (replicate (Z.to_nat z) 0))) as Hx.
  { rewrite (made_in _ _ _ _ _ _ Hm j) by done. cbn [entry]. by rewrite decide_True, Hz by done. }
  pose proof (path_of_in s _ Hpl) as Hp. split.
  - unfold NativeFs.resize, sys_truncate. rewrite (namei_snoc _ _ _ _ Hp), Hx, Hp. unfold set_length.
    rewrite take_replicate, length_replicate, <-replicate_add. do 5 f_equal. lia.
  - eapply made_put; [done|done|exact Hx|]. intros j' r. destruct r as [|y [|y' r]]; cbn [entry].
    + by rewrite decide_False by (by intros []).
    + destruct (decide (j' = j)) as [->|Hne].
      * destruct (decide (y = itoa (Z.of_nat j))) as [->|Hy].
        -- rewrite decide_True by done. by rewrite list_lookup_insert_eq by (by eapply lookup_lt_Some).
        -- by rewrite (decide_False (P := j = j ∧ _)) by (intros [_ [=]]; done).
      * rewrite list_lookup_insert_ne by done. by rewrite (decide_False (P := j' = j ∧ _)) by (by intros []).
    + by rewrite decide_False by (by intros []).
Qed.

(** The header is overwritten with one of the same length. *)
Lemma made_header hdr' s :
  (0 < n)%nat → ds !! 0%nat = Some s → length hdr' = length hdr →
  sys_write (s +:+ "/header") 0 hdr' fs' = <[path_of s ++ ["header"] := File hdr']> fs' ∧
  made ds hdr' sizes n fs (<[path_of s ++ ["header"] := File hdr']> fs').
Proof using Hwf Hnd Hfree Hm.
  intros Hn Hs Hl. assert (path_of (s +:+ "/header") = path_of s ++ ["header"]) as Hp by (by apply (path_of_in s "header")).
  assert (fs' !! (path_of s ++ ["header"]) = Some (File hdr)) as Hx.
  { rewrite (made_in _ _ _ _ _ _ Hm 0%nat) by done. cbn [entry]. by rewrite decide_False, decide_True by done. }
  split.
  - rewrite (sys_write_spec _ _ _ _ _ _ _ Hp Hx). unfold write_at, set_length. rewrite take_0. cbn [Nat.sub replicate].
    rewrite app_nil_l, drop_ge, app_nil_r by lia. done.
  - eapply made_put; [done|done|exact Hx|]. intros j' r. destruct r as [|y [|y' r]]; cbn [entry].
    + by rewrite decide_False by (by intros []).
    + destruct (itoa_plain (Z.of_nat j') ltac:(lia)) as [_ Hh]. destruct (decide (y = itoa (Z.of_nat j'))) as [->|Hy].
      * rewrite decide_False; [done|]. intros [_ [=]]. congruence.
      * destruct (decide (j' = 0%nat ∧ y = "header")) as [[-> ->]|Hny]; [by rewrite decide_True|].
        rewrite decide_False; [done|]. intros [-> [= ->]]. by apply Hny.
    + by rewrite decide_False by (by intros []).
Qed.
End update.

(** ** The loop of [resize] *)

(** The [a]-th native file, that of part [js !! a], gets the [a]-th size. *)
Lemma resize_loop_spec fs ds hdr (f : safs_file) new :
  fs_wf fs → NoDup (path_of <$> ds) →
  (∀ j s, ds !! j = Some s → ∃ p x, path_of s = p ++ [x] ∧ stat fs p = Some Dir ∧ fs !! (p ++ [x]) = None) →
  ∀ js i sizes fs', made ds hdr sizes (length ds) fs fs' → length sizes = length ds → NoDup js →
  Forall (λ j, (j < length ds)%nat) js → (i + length js ≤ length new)%nat →
  ∃ fs'' sizes', resize_loop ((λ j, (ds !!! j) +:+ "/" +:+ itoa (Z.of_nat j)) <$> js) new i (fs', f) = ((fs'', f), Ok true) ∧
    made ds hdr sizes' (length ds) fs fs'' ∧ length sizes' = length ds ∧
    (∀ a j, js !! a = Some j → sizes' !! j = new !! (i + a)%nat) ∧ ∀ j, j ∉ js → sizes' !! j = sizes !! j.
Proof.
  intros Hwf Hnd Hfree. induction js as [|j js IH]; intros i sizes fs' Hm Hl Hjs Hin Hi; cbn [fmap list_fmap resize_loop].
  { exists fs', sizes. by split_and!. }
  apply NoDup_cons in Hjs as [Hj Hjs]. apply Forall_cons in Hin as [Hjl Hin]. cbn [length] in Hi.
  destruct (lookup_lt_is_Some_2 new i) as [z Hz]; [lia|]. destruct (lookup_lt_is_Some_2 ds j Hjl) as [s Hs].
  destruct (lookup_lt_is_Some_2 sizes j) as [z0 Hz0]; [lia|]. rewrite Hz, (list_lookup_total_correct _ _ _ Hs).
  destruct (made_resize fs fs' ds hdr sizes (length ds) Hwf Hnd Hfree Hm j s z0 z Hjl Hs Hz0) as [Hr Hm1].
  assert (on_fs (NativeFs.resize (s +:+ "/" +:+ itoa (Z.of_nat j)) z) (fs', f) = ((_, f), Ok true)) as Hon
    by (unfold on_fs; rewrite Hr; reflexivity).
  rewrite (mbind_ok _ _ _ _ _ Hon).
  destruct (IH (S i) (<[j := z]> sizes) _ Hm1) as (fs'' & sizes' & Hrun & Hm' & Hl' & Hnew & Hold); [by rewrite length_insert|done|done|lia|].
  exists fs'', sizes'. split_and!; [exact Hrun|done|done| |].
  - intros [|a] j' Ha; cbn in Ha.
    + injection Ha as <-. rewrite Hold by done. rewrite list_lookup_insert_eq by lia. by rewrite Nat.add_0_r.
    + rewrite (Hnew a j' Ha). f_equal. lia.
  - intros j' Hj'. rewrite Hold by set_solver. apply list_lookup_insert_ne. set_solver.
Qed.

Lemma get_data_files_spec fs dirs js :
  Forall2 (λ d j, part_files (part_name d) fs = [itoa (Z.of_nat j)]) dirs js →
  get_data_files_loop fs dirs = Ok (zip_with (λ d j, part_name d +:+ "/" +:+ itoa (Z.of_nat j)) dirs js).
Proof. induction 1 as [|d j dirs js Hd _ IH]; cbn [get_data_files_loop zip_with]; [done|]. by rewrite Hd, IH. Qed.

(** ** [resize] of a created file *)

Section resizing.
Context (fs : nfs) (conf : RAID_config) (name : string) (idxs : list nat) (sz : Z) (k : mapping).
Context (Hready : ready fs conf name) (Hperm : idxs ≡ₚ seq 0 (length (root_paths conf))) (Hsz : 0 ≤ sz).
Context (Hb : 0 < RAID_block_size conf < 2 ^ 31) (Hk : mapping_of (RAID_mapping_option conf) = Some k).
#[local] Set Default Proof Using "All".
Let f := safs_file_ctor conf name.
Let dirs := native_dirs f.
Let n := length (root_paths conf).
Let b := RAID_block_size conf.
Let o := RAID_mapping_option conf.
Let m0 := mkMapper k name dirs b.
Let ds := (λ c, part_name (dirs !!! c)) <$> idxs.

Context (fs' : nfs) (sizes : list Z).
Context (Hm : made ds (header_bytes (safs_header_ctor4 b o true sz)) sizes n fs fs') (Hlen : length sizes = n).

Let Hds : length ds = n := length_ds fs conf name idxs sz k Hready Hperm Hsz Hb Hk b o sizes fs' Hm Hlen.

Lemma resize_sizes s0 new_size : 0 ≤ new_size → find_header fs' dirs = Some (s0 +:+ "/header") →
  namei fs' (s0 +:+ "/header") = Some (File (header_bytes (safs_header_ctor4 b o true sz))) → ∃ ret,
  get_size_per_disk new_size (fs', f) = ((fs', set_header_file (s0 +:+ "/header") f), Ok ((λ s, s * PAGE_SIZE) <$> ret)) ∧
  FileMapper.get_size_per_disk rand_start m0 (npages new_size) = Ok ret ∧ length ret = n ∧
  ∀ off bid, 0 ≤ off < npages new_size → map_off rand_start m0 off = Ok bid →
    ∃ s, ret !! Z.to_nat (bid_idx bid) = Some s ∧ bid_off bid < s.
Proof.
  intros Hnew Hf Hnm. pose proof (dirs_ne fs conf name idxs sz k Hready Hperm Hsz Hb Hk : dirs ≠ []) as Hne.
  assert (mapper_wf m0) as Hwf by (split; [cbn; unfold b; lia|exact Hne]).
  destruct (size_per_disk_spec rand_start m0 (npages new_size) Hwf) as (ret & H1 & H2 & H3);
    [done|unfold npages, PAGE_SIZE; destruct (Z.eqb_spec new_size 0); [lia|]; pose proof (Z.div_pos (new_size - 1) 4096); lia|].
  exists ret. split_and!; [|done|by rewrite H2; apply (length_dirs conf name)|done]. unfold get_size_per_disk.
  pose proof (header_read fs conf name idxs sz k Hready Hperm Hsz Hb Hk b o sizes fs' Hm Hlen s0 Hf Hnm) as Hh.
  rewrite (mbind_ok _ _ _ _ _ Hh), (mbind_ok _ _ _ _ _ eq_refl : mbind' mget _ _ = _). cbn [snd]. cbn zeta.
  destruct (ctor4_valid b o true sz k Hb Hk) as (V1 & V2 & V3). rewrite V1. cbn match.
  unfold file_mapper_create. rewrite V1, V2, V3, (make_mapper_ok _ k) by (done || (unfold b; lia)).
  rewrite (mbind_ok (mlift (Ok (Some m0))) _ _ _ _ eq_refl).
  unfold div_ceil. change (0 <? PAGE_SIZE) with true. cbn match.
  rewrite (mbind_ok (mlift (if new_size =? 0 then Ok 0 else Ok (1 + (new_size - 1) / PAGE_SIZE))) _ _ (fs', set_header_file (s0 +:+ "/header") f) (npages new_size))
    by (unfold npages, mlift; by destruct (new_size =? 0)).
  by rewrite (mbind_ok (mlift (FileMapper.get_size_per_disk rand_start m0 (npages new_size))) _ _ (fs', set_header_file (s0 +:+ "/header") f) ret)
    by (unfold mlift; by rewrite H1).
Qed.

(** The data files in the order of the directories; [js] numbers their parts. *)
Lemma data_files_after js : Forall2 (λ i j, idxs !! j = Some i) (seq 0 n) js →
  get_data_files fs' f = Ok ((λ j, (ds !!! j) +:+ "/" +:+ itoa (Z.of_nat j)) <$> js).
Proof.
  intros Hjs. assert (length js = n) as Hl by (by rewrite <-(Forall2_length _ _ _ Hjs), length_seq).
  assert (∀ i d j, dirs !! i = Some d → js !! i = Some j → ds !! j = Some (part_name d) ∧ part_files (part_name d) fs' = [itoa (Z.of_nat j)]) as Hij.
  { intros i d j Hd Hj. destruct (Forall2_lookup_r _ _ _ _ _ Hjs Hj) as (i' & Hi' & Hij). apply lookup_seq in Hi' as [Hi' _]. cbn in Hi'. subst i'.
    destruct (dir_view fs conf name idxs sz k Hready Hperm Hsz Hb Hk b o sizes fs' Hm Hlen i j Hij) as (r & d' & _ & Hd' & _ & Hs & _ & _ & Hp).
    fold f dirs in Hd'. assert (d' = d) as -> by congruence. done. }
  unfold get_data_files. fold dirs. rewrite (get_data_files_spec fs' dirs js).
  - f_equal. apply list_eq. intros i. rewrite lookup_zip_with, list_lookup_fmap.
    destruct (js !! i) as [j|] eqn:Hj; cbn [fmap option_fmap option_map mbind option_bind]; [|by destruct (dirs !! i)].
    destruct (lookup_lt_is_Some_2 dirs i) as [d Hd]; [unfold dirs, f; rewrite (length_dirs conf name); fold n; rewrite <-Hl; by eapply lookup_lt_Some|].
    rewrite Hd. cbn. destruct (Hij i d j Hd Hj) as [Hs _]. by rewrite (list_lookup_total_correct _ _ _ Hs).
  - apply Forall2_same_length_lookup. split; [unfold dirs, f; rewrite (length_dirs conf name); by fold n|]. intros i d j Hd Hj. by apply (Hij i d j Hd Hj).
Qed.

(** Extending the file changes the sizes of the parts and the header, and nothing
    else: the directory at index [c] is given the [c]-th size. *)
Lemma resize_run new_size total :
  get_size fs' f = Ok total → 0 ≤ total < new_size →
  ∃ fs'' hf ret, resize new_size (fs', f) = ((fs'', set_header_file hf f), Ok true) ∧
    FileMapper.get_size_per_disk rand_start m0 (npages new_size) = Ok ret ∧ length ret = n ∧
    made ds (header_bytes (safs_header_ctor4 b o true new_size)) ((λ c, (ret !!! c) * PAGE_SIZE) <$> idxs) n fs fs'' ∧
    ∀ off bid, 0 ≤ off < npages new_size → map_off rand_start m0 off = Ok bid →
      ∃ s, ret !! Z.to_nat (bid_idx bid) = Some s ∧ bid_off bid < s.
Proof.
  intros Htot Hnew. pose proof (ready_wf _ _ _ Hready) as Hwf.
  pose proof (ds_NoDup fs conf name idxs sz k Hready Hperm Hsz Hb Hk : NoDup (path_of <$> ds)) as Hnd.
  pose proof (ds_free fs conf name idxs sz k Hready Hperm Hsz Hb Hk : ∀ j s, ds !! j = Some s → _) as Hfree.
  destruct (header_found fs conf name idxs sz k Hready Hperm Hsz Hb Hk b o sizes fs' Hm Hlen) as (s0 & Hs0 & Hf & Hnm).
  destruct (resize_sizes s0 new_size ltac:(lia) Hf Hnm) as (ret & Hrun & Hret & Hlr & Hcov).
  destruct (permutation_inverse idxs n Hperm) as (js & Hjs & Hjnd & Hjp).
  assert (length js = n) as Hlj by (by rewrite Hjp, length_seq).
  pose proof (exist_after fs conf name idxs sz k Hready Hperm Hsz Hb Hk b o sizes fs' Hm Hlen) as Hex. fold f in Hex.
  set (hf := s0 +:+ "/header") in *. set (f1 := set_header_file hf f).
  destruct (resize_loop_spec fs ds (header_bytes (safs_header_ctor4 b o true sz)) f1 ((λ s, s * PAGE_SIZE) <$> ret) Hwf Hnd Hfree js 0 sizes fs')
    as (fs1 & sizes1 & Hloop & Hm1 & Hl1 & Hsz1 & _).
  { by rewrite Hds. }
  { by rewrite Hds. }
  { done. }
  { apply Forall_forall. intros j Hj. rewrite Hjp in Hj. apply elem_of_seq in Hj. lia. }
  { rewrite length_fmap. lia. }
  assert (sizes1 = (λ c, (ret !!! c) * PAGE_SIZE) <$> idxs) as Hs1.
  { apply list_eq. intros j. rewrite list_lookup_fmap. destruct (idxs !! j) as [c|] eqn:Hc; cbn.
    - assert (c ∈ idxs) as Hin by (by eapply list_elem_of_lookup_2). rewrite Hperm in Hin. apply elem_of_seq in Hin. fold n in Hin.
      destruct (Forall2_lookup_l _ _ _ c c Hjs) as (j' & Hj' & Hcj); [apply lookup_seq; lia|].
      assert (NoDup idxs) as Hni by (rewrite Hperm; apply NoDup_seq). assert (j' = j) as -> by (exact (NoDup_lookup idxs j' j c Hni Hcj Hc)).
      rewrite (Hsz1 c j Hj'), Nat.add_0_l, list_lookup_fmap. destruct (lookup_lt_is_Some_2 ret c) as [z Hz]; [lia|].
      by rewrite (list_lookup_total_correct _ _ _ Hz), Hz.
    - apply lookup_ge_None in Hc. apply lookup_ge_None. rewrite Hl1, Hds. rewrite Hperm, length_seq in Hc. exact Hc. }
  subst sizes1. rewrite Hds in Hm1.
  assert (0 < n)%nat as Hn0 by (apply lookup_lt_Some in Hs0; fold dirs in Hs0; change (length _) with (length ds) in Hs0; lia).
  destruct (made_header fs fs1 ds _ _ n Hwf Hnd Hfree Hm1 (header_bytes (safs_header_ctor4 b o true new_size)) s0 Hn0 Hs0) as [Hw Hm2];
    [by rewrite !length_header_bytes|].
  assert (namei fs1 hf = Some (File (header_bytes (safs_header_ctor4 b o true sz)))) as Hnm1.
  { assert (path_of hf = path_of s0 ++ ["header"]) as Hp by (by apply (path_of_in s0 "header")). rewrite (namei_snoc _ _ _ _ Hp).
    rewrite (made_in _ _ _ _ _ _ Hm1 0%nat) by done. cbn [entry]. by rewrite decide_False, decide_True by done. }
  eexists _, hf, ret. split; [|by split_and!]. unfold resize.
  rewrite (mbind_ok _ _ _ _ _ eq_refl : mbind' mget _ _ = _). cbn [fst snd]. rewrite Hex. cbn [negb]. rewrite Htot, (mbind_ok (mlift (Ok total)) _ _ _ _ eq_refl).
  rewrite (proj2 (Z.leb_le _ _)) by lia. rewrite (mbind_ok (massert true) _ _ _ _ eq_refl). rewrite (proj2 (Z.ltb_lt _ _)) by lia.
  rewrite (data_files_after js Hjs).
  assert ((let! data_files := mlift (Ok ((λ j, (ds !!! j) +:+ "/" +:+ itoa (Z.of_nat j)) <$> js)) in
           let! sizes_per_disk := get_size_per_disk new_size in resize_loop data_files sizes_per_disk 0) (fs', f) = ((fs1, f1), Ok true)) as Hmid.
  { rewrite (mbind_ok (mlift (Ok _)) _ _ _ _ eq_refl), (mbind_ok _ _ _ _ _ Hrun). exact Hloop. }
  rewrite (mbind_ok _ _ _ _ _ Hmid). cbn [negb].
  assert (get_header_file (fs1, f1) = ((fs1, f1), Ok hf)) as Hghf.
  { unfold get_header_file, f1. cbn [header_file set_header_file]. rewrite bool_decide_false; [done|]. unfold hf. by destruct s0. }
  rewrite (mbind_ok _ _ _ _ _ Hghf), (mbind_ok _ _ _ _ _ eq_refl : mbind' mget _ _ = _). cbn [fst]. unfold file_exist. rewrite Hnm1. cbn [negb].
  unfold update_header. rewrite Hnm1. rewrite <-(app_nil_r (header_bytes (safs_header_ctor4 b o true sz))), header_of_header_bytes by apply ctor4_wf.
  destruct (ctor4_valid b o true sz k Hb Hk) as (_ & V2 & V3). rewrite V2, V3. change (is_writable (safs_header_ctor4 b o true sz)) with true. fold hf in Hw. by rewrite Hw.
Qed.
End resizing.

(** The sizes depend on the mapping, the block size and the number of files only. *)
Lemma get_size_per_disk_ext r m m' sz :
  mkind m = mkind m' → STRIPE_BLOCK_SIZE m = STRIPE_BLOCK_SIZE m' → length (mfiles m) = length (mfiles m') →
  FileMapper.get_size_per_disk r m sz = FileMapper.get_size_per_disk r m' sz.
Proof.
  intros H1 H2 H3. assert (∀ cnt i ret, size_loop r m sz cnt i ret = size_loop r m' sz cnt i ret) as Hl.
  { induction cnt as [|cnt IH]; intros i ret; [done|]. cbn [size_loop]. rewrite H2, (map_off_ext r m m') by done.
    destruct (_ <? _); [done|]. destruct (map_off _ _ _) as [bid|]; [|done]. cbn [rbind]. destruct (ret !! _); [|done]. apply IH. }
  unfold FileMapper.get_size_per_disk. rewrite H1, H3. destruct (mkind m'); apply Hl.
Qed.

(** ** Properties *)

(** C37. [resize] extends a file, but gives the sizes to the directories and not to
    the parts.  Take a file [create_file] made with the system's block size and
    mapping, over the directories in any order [idxs] (part [j] is in the directory
    [idxs !! j]), and a size above the one [get_size] reports.  Then [resize],
    through a new handle, succeeds and the header read back has the new size; the
    native file in directory [c] is as long as part number [c] of the new layout
    has to be, whichever part it holds.  So if no part is larger than the part
    with the number of its directory, for example when the directories are in the
    order of the parts, every page of the extended file is mapped into a native
    file that is long enough; in other orders a part can be too short
    ([safs_resize_misplaces]), although [resize] reports success. *)
Theorem safs_resize_by_directory fs conf name idxs sz k new_size :
  ready fs conf name → idxs ≡ₚ seq 0 (length (root_paths conf)) → 0 ≤ sz →
  0 < RAID_block_size conf < 2 ^ 31 → mapping_of (RAID_mapping_option conf) = Some k →
  let f := safs_file_ctor conf name in
  let b := RAID_block_size conf in
  let o := RAID_mapping_option conf in
  ∃ fs1 f1 total,
    create_file idxs sz b o (fs, f) = ((fs1, f1), Ok true) ∧ get_size fs1 f = Ok total ∧
    (0 ≤ total < new_size →
     ∃ fs2 f2 m sizes,
       resize new_size (fs1, f) = ((fs2, f2), Ok true) ∧
       (get_header (fs2, f)).2 = Ok (safs_header_ctor4 b o true new_size) ∧
       create_file_mapper fs2 conf name = Ok (Some m) ∧ mkind m = k ∧ STRIPE_BLOCK_SIZE m = b ∧
       FileMapper.get_size_per_disk rand_start m (npages new_size) = Ok sizes ∧
       (∀ j c, idxs !! j = Some c → ∃ file bs s, mfiles m !! j = Some file ∧ sizes !! c = Some s ∧
          namei fs2 (part_name file) = Some (File bs) ∧ length bs = Z.to_nat (s * PAGE_SIZE)) ∧
       ((∀ j c, idxs !! j = Some c → sizes !!! j ≤ sizes !!! c) →
        ∀ off, 0 ≤ off → off * PAGE_SIZE < new_size →
          ∃ bid file bs, map_off rand_start m off = Ok bid ∧ mfiles m !! Z.to_nat (bid_idx bid) = Some file ∧
            namei fs2 (part_name file) = Some (File bs) ∧ (bid_off bid + 1) * PAGE_SIZE ≤ Z.of_nat (length bs))).
Proof.
  intros Hr Hp Hsz Hb Hk f b o. set (n := length (root_paths conf)).
  destruct (create_file_run fs conf name idxs sz k Hr Hp Hsz Hb Hk b o) as (ret0 & fs1 & hf & Hrun & Hm & Hlen & _).
  set (sizes0 := (λ s, s * PAGE_SIZE) <$> ret0) in *. assert (length sizes0 = n) as Hl0 by (by unfold sizes0; rewrite length_fmap).
  destruct (permutation_inverse idxs n Hp) as (js & Hjs & _ & _).
  pose proof (data_files_after fs conf name idxs sz k Hr Hp Hsz Hb Hk fs1 sizes0 Hm Hl0 js Hjs) as Hdf.
  pose proof (exist_after fs conf name idxs sz k Hr Hp Hsz Hb Hk b o sizes0 fs1 Hm Hl0) as Hex.
  assert (∃ total, get_size fs1 f = Ok total) as [total Htot].
  { unfold get_size. fold f in Hex, Hdf. rewrite Hex, Hdf. by eexists. }
  eexists fs1, _, total. split_and!; [exact Hrun|exact Htot|]. intros Hnew.
  destruct (resize_run fs conf name idxs sz k Hr Hp Hsz Hb Hk fs1 sizes0 Hm Hl0 new_size total Htot Hnew)
    as (fs2 & hf2 & ret & Hres & Hret & Hlr & Hm2 & Hcov).
  set (sizes := (λ c, (ret !!! c) * PAGE_SIZE) <$> idxs) in *.
  assert (length sizes = n) as Hls by (unfold sizes; rewrite length_fmap, Hp; apply length_seq).
  assert (0 ≤ new_size) as Hn' by lia. set (m := mkMapper k name (part_of conf name idxs <$> seq 0 n) b).
  assert (∀ j c, idxs !! j = Some c → ∃ s, ret !! c = Some s ∧ mfiles m !! j = Some (part_of conf name idxs j) ∧
    namei fs2 (part_name (part_of conf name idxs j)) = Some (File (replicate (Z.to_nat (s * PAGE_SIZE)) 0))) as Hfiles.
  { intros j c Hc. assert (c ∈ idxs) as Hin by (by eapply list_elem_of_lookup_2). rewrite Hp in Hin. apply elem_of_seq in Hin.
    assert (j < n)%nat as Hj by (apply lookup_lt_Some in Hc; rewrite Hp, length_seq in Hc; exact Hc).
    destruct (lookup_lt_is_Some_2 ret c) as [s Hs]; [unfold n in *; lia|]. exists s. split_and!; [done|cbn [mfiles m]; by rewrite list_lookup_fmap, lookup_seq_lt|].
    apply (part_of_file fs conf name idxs new_size k Hr Hp Hn' Hb Hk b o sizes fs2 Hm2 Hls); [exact Hj|].
    unfold sizes. rewrite list_lookup_fmap, Hc. cbn. by rewrite (list_lookup_total_correct _ _ _ Hs). }
  eexists fs2, _, m, ret. split_and!; [exact Hres| | |reflexivity|reflexivity| | |].
  - by apply (header_after fs conf name idxs new_size k Hr Hp Hn' Hb Hk b o sizes).
  - by apply (mapper_after fs conf name idxs new_size k Hr Hp Hn' Hb Hk b o sizes).
  - rewrite <-Hret. apply get_size_per_disk_ext; [done|done|]. cbn. by rewrite !length_fmap, length_seq.
  - intros j c Hc. destruct (Hfiles j c Hc) as (s & Hs & Hf & Hnm). eexists _, _, s. split_and!; [exact Hf|exact Hs|exact Hnm|by rewrite length_replicate].
  - intros Hle off Hoff Hlt. destruct (npages_bound new_size off Hn' Hoff Hlt) as [_ Hpg].
    assert (get_num_files m = Z.of_nat n) as Hn by (unfold get_num_files; cbn; by rewrite length_fmap, length_seq).
    assert (0 < get_num_files m) as Hn0 by (rewrite Hn; pose proof (ready_some _ _ _ Hr); unfold n; destruct (root_paths conf); [done|simpl; lia]).
    pose proof (map_off_blocks rand_start m off Hn0 ltac:(cbn; unfold b; lia) ltac:(done) Hoff) as Hmap. set (bid := mkBid _ _) in Hmap.
    assert (0 ≤ bid_idx bid < get_num_files m) as Hid by (by apply block_file_range).
    destruct (Hcov off bid) as (s & Hs & Hoffs); [lia| |].
    { rewrite <-Hmap. apply map_off_ext; [done|done|]. cbn. by rewrite !length_fmap, length_seq. }
    destruct (lookup_lt_is_Some_2 idxs (Z.to_nat (bid_idx bid))) as [c Hc]; [rewrite Hp, length_seq; fold n; lia|].
    destruct (Hfiles _ c Hc) as (s' & Hs' & Hf & Hnm). eexists bid, _, _. split_and!; [done|exact Hf|exact Hnm|].
    rewrite length_replicate. pose proof (Hle _ c Hc) as Hss. rewrite (list_lookup_total_correct _ _ _ Hs), (list_lookup_total_correct _ _ _ Hs') in Hss.
    unfold PAGE_SIZE. lia.
Qed.

(** *** Witnesses *)

(** In the order of the parts one page grows to five, and each of them has its place. *)
Lemma safs_resize_by_directory_witness :
  ∃ fs1 f1 fs2 f2, create_file [0; 1]%nat PAGE_SIZE 2 0 (ex_fs, safs_file_ctor (ex_conf 2) "f") = ((fs1, f1), Ok true) ∧
    resize (5 * PAGE_SIZE) (fs1, safs_file_ctor (ex_conf 2) "f") = ((fs2, f2), Ok true) ∧
    ∃ m bid file bs, create_file_mapper fs2 (ex_conf 2) "f" = Ok (Some m) ∧ map_off rand_start m 4 = Ok bid ∧
      mfiles m !! Z.to_nat (bid_idx bid) = Some file ∧ namei fs2 (part_name file) = Some (File bs) ∧
      (bid_off bid + 1) * PAGE_SIZE ≤ Z.of_nat (length bs).
Proof.
  destruct (safs_resize_by_directory ex_fs (ex_conf 2) "f" [0; 1]%nat PAGE_SIZE RAID0 (5 * PAGE_SIZE)) as (fs1 & f1 & total & H1 & H2 & H3);
    [apply ex_ready|reflexivity|done|done|done|].
  assert (0 ≤ total < 5 * PAGE_SIZE) as Ht.
  { assert (get_size (create_file [0; 1]%nat PAGE_SIZE 2 0 (ex_fs, safs_file_ctor (ex_conf 2) "f")).1.1 (safs_file_ctor (ex_conf 2) "f") = Ok 8192) as H4 by (vm_compute; reflexivity).
    change (create_file [0; 1]%nat PAGE_SIZE 2 0) with (create_file [0; 1]%nat PAGE_SIZE (RAID_block_size (ex_conf 2)) (RAID_mapping_option (ex_conf 2))) in H4.
    rewrite H1 in H4. cbn [fst] in H4. rewrite H2 in H4. injection H4 as ->. vm_compute. split; [discriminate|reflexivity]. }
  destruct (H3 Ht) as (fs2 & f2 & m & sizes & R1 & _ & R3 & _ & _ & _ & _ & R8).
  exists fs1, f1, fs2, f2. split; [exact H1|]. split; [exact R1|]. exists m.
  assert (∀ j c, [0; 1]%nat !! j = Some c → sizes !!! j ≤ sizes !!! c) as Hle.
  { clear. intros [|[|j]] c Hc; cbn in Hc; [injection Hc as <-; lia|injection Hc as <-; lia|discriminate Hc]. }
  assert (4 * PAGE_SIZE < 5 * PAGE_SIZE) as H4 by reflexivity.
  destruct (R8 Hle 4 ltac:(lia) H4) as (bid & file & bs & Q1 & Q2 & Q3 & Q4).
  exists bid, file, bs. split; [exact R3|]. split; [exact Q1|]. split; [exact Q2|]. split; [exact Q3|exact Q4].
Defined.
