(* ===== verification/Fifo.v ===== *)
(** * SAFS queues and arrays: [SAFS/libsafs/container.h]

    [fifo_queue] is a ring over a buffer of [2^k] entries addressed with a mask;
    [start] and [end] only grow.  It is refined to a list of bounded length.
    [thread_safe_FIFO_queue] and [blocking_FIFO_queue] add growth up to a
    maximal size; their operations are atomic here (the lock is held for the
    whole body), and [pthread_cond_wait] is a result of its own.  The entries a
    [fetch] stores are returned as a list.  [long] indices do not overflow. *)
From S2P Require Import Prelude.
From stdpp Require Import options.
Open Scope Z_scope.

Definition INT_MAX : Z := 2 ^ 31 - 1.

(** ** [fifo_queue] *)

Record fifo_queue (T : Type) := mkFifo {
  size_mask : Z;
  buf : list T;
  allocated : bool;
  start : Z;
  end_ : Z;
  resizable : bool;
  q_node_id : Z
}.
Arguments mkFifo {T}.
Arguments size_mask {T}.
Arguments buf {T}.
Arguments allocated {T}.
Arguments start {T}.
Arguments end_ {T}.
Arguments resizable {T}.
Arguments q_node_id {T}.

Section fifo.
Context {T : Type}.
(** [T()] *)
Context (T0 : T).
Implicit Types (q : fifo_queue T) (x : T).

Definition loc_in_queue (q : fifo_queue T) (idx : Z) : Z := Z.land idx (size_mask q).
Definition set_start (s : Z) (q : fifo_queue T) : fifo_queue T :=
  mkFifo (size_mask q) (buf q) (allocated q) s (end_ q) (resizable q) (q_node_id q).
Definition set_end (b : list T) (e : Z) (q : fifo_queue T) : fifo_queue T :=
  mkFifo (size_mask q) b (allocated q) (start q) e (resizable q) (q_node_id q).

(** [buf[i]] *)
Definition buf_at (i : Z) (q : fifo_queue T) : res T :=
  match buf q !! Z.to_nat i with Some x => Ok x | None => Throw Segfault end.
Definition buf_store (i : Z) (x : T) (b : list T) : res (list T) :=
  if Z.of_nat (length b) <=? i then Throw Segfault else Ok (<[Z.to_nat i := x]> b).

(** The queue over given entries. *)
Definition fifo_over (entries : list T) : fifo_queue T :=
  mkFifo INT_MAX entries false 0 (Z.of_nat (length entries)) false (-1).

(** [1 << (int) ceil(log2(size))]; the logarithm has no value below 1. *)
Definition round_size (size : Z) : res Z :=
  if size <? 1 then Throw (runtime_error "log2") else Ok (Z.shiftl 1 (Z.log2_up size)).
Definition fifo_new (node_id size : Z) (resizable : bool) : res (fifo_queue T) :=
  let? size := round_size size in
  Ok (mkFifo (size - 1) (replicate (Z.to_nat size) T0) true 0 0 resizable node_id).

Definition get_num_entries (q : fifo_queue T) : Z := s32 (end_ q - start q).
Definition get_size (q : fifo_queue T) : res Z := if allocated q then Ok (size_mask q + 1) else Throw AssertFailed.
Definition get_num_remaining (q : fifo_queue T) : res Z := let? n := get_size q in Ok (n - get_num_entries q).
Definition is_full (q : fifo_queue T) : res bool := let? n := get_size q in Ok (n <=? end_ q - start q).
Definition is_empty (q : fifo_queue T) : bool := end_ q <=? start q.

Definition front (q : fifo_queue T) : res T :=
  if is_empty q then Throw AssertFailed else buf_at (loc_in_queue q (start q)) q.
Definition back (q : fifo_queue T) : res T :=
  if is_empty q then Throw AssertFailed else buf_at (loc_in_queue q (end_ q - 1)) q.

Definition pop_front : M (fifo_queue T) T :=
  let! q := mget in
  massert (start q <? end_ q);;;
  let! ret := mlift (buf_at (loc_in_queue q (start q)) q) in
  mput (set_start (start q + 1) q);;;
  mret ret.

Definition push_back (v : T) : M (fifo_queue T) unit :=
  let! q := mget in
  let! n := mlift (get_size q) in
  massert (end_ q - start q <? n);;;
  let! b := mlift (buf_store (loc_in_queue q (end_ q)) v (buf q)) in
  mput (set_end b (end_ q + 1) q).

(** At most [num] entries. *)
Fixpoint fetch (num : nat) : M (fifo_queue T) (list T) :=
  match num with
  | O => mret []
  | S num =>
      let! q := mget in
      if is_empty q then mret [] else
      let! x := mlift (buf_at (loc_in_queue q (start q)) q) in
      mput (set_start (start q + 1) q);;;
      let! l := fetch num in
      mret (x :: l)
  end.

(** [add(entries, num)] *)
Fixpoint add (entries : list T) : M (fifo_queue T) Z :=
  let! q := mget in
  let! full := mlift (is_full q) in
  if full then mret 0 else
  match entries with
  | [] => mret 0
  | v :: entries =>
      let! b := mlift (buf_store (loc_in_queue q (end_ q)) v (buf q)) in
      mput (set_end b (end_ q + 1) q);;;
      let! n := add entries in
      mret (1 + n)
  end.

(** [add(queue)]: [fetch] stores directly into the buffer, first up to its end
    and then from its beginning.  The state is this queue and the other one. *)
Definition on_other {A} (m : M (fifo_queue T) A) : M (fifo_queue T * fifo_queue T) A :=
  λ '(q, o), let '(o', r) := m o in ((q, o'), r).
Fixpoint store_from (i : Z) (l : list T) (b : list T) : res (list T) :=
  match l with
  | [] => Ok b
  | x :: l => let? b := buf_store i x b in store_from (i + 1) l b
  end.
Definition fetch_into (idx length : Z) : M (fifo_queue T * fifo_queue T) Z :=
  let! l := on_other (fetch (Z.to_nat length)) in
  let! st := mget in
  let q := st.1 in
  let! b := mlift (store_from idx l (buf q)) in
  let num := Z.of_nat (List.length l) in
  mput (set_end b (end_ q + num) q, st.2);;;
  mret num.
Definition add_queue : M (fifo_queue T * fifo_queue T) Z :=
  let! st := mget in
  let q := st.1 in
  let idx := s32 (loc_in_queue q (end_ q)) in
  let! size := mlift (get_size q) in
  let! rem := mlift (get_num_remaining q) in
  let length := Z.min (size - idx) rem in
  let! num := fetch_into idx length in
  let! st := mget in
  let! rem := mlift (get_num_remaining st.1) in
  if (num <? length) || (rem =? 0) then mret num else
  massert (loc_in_queue st.1 (end_ st.1) =? 0);;;
  let! num2 := fetch_into 0 rem in
  mret (num + num2).

Fixpoint copy_loop (q : fifo_queue T) (n : nat) (i : Z) (tmp : list T) : res (list T) :=
  match n with
  | O => Ok tmp
  | S n =>
      let? x := buf_at (loc_in_queue q (start q + i)) q in
      let? tmp := buf_store i x tmp in
      copy_loop q n (i + 1) tmp
  end.
Definition expand_queue (new_size : Z) : M (fifo_queue T) bool :=
  let! new_size := mlift (round_size new_size) in
  let! q := mget in
  massert (resizable q);;;
  let! size := mlift (get_size q) in
  massert (size <? new_size);;;
  massert (allocated q);;;
  let num := get_num_entries q in
  let! tmp := mlift (copy_loop q (Z.to_nat num) 0 (replicate (Z.to_nat new_size) T0)) in
  mput (mkFifo (new_size - 1) tmp (allocated q) 0 num (resizable q) (q_node_id q));;;
  mret true.

(** *** [const_iterator]: its index. *)
Definition get_begin (q : fifo_queue T) : Z := start q.
Definition it_deref (q : fifo_queue T) (idx : Z) : res T := buf_at (loc_in_queue q idx) q.
Definition it_next (idx : Z) : Z := idx + 1.
Definition it_add (q : fifo_queue T) (idx num : Z) : res Z :=
  if negb (0 <=? num) then Throw AssertFailed
  else if idx + num <=? end_ q then Ok (idx + num) else Throw AssertFailed.
Definition get_end (q : fifo_queue T) : res Z :=
  if negb (start q <=? end_ q) then Throw AssertFailed else it_add q (start q) (s32 (end_ q - start q)).
End fifo.

(** ** [thread_safe_FIFO_queue] *)

Record ts_queue (T : Type) := mkTS { ts_base : fifo_queue T; ts_max_size : Z; ts_name : string }.
Arguments mkTS {T}.
Arguments ts_base {T}.
Arguments ts_max_size {T}.
Arguments ts_name {T}.

Section thread_safe.
Context {T : Type} (T0 : T).

Definition ts_new (name : string) (node_id size : Z) : res (ts_queue T) :=
  let? q := fifo_new T0 node_id size false in Ok (mkTS q size name).
Definition ts_new_max (name : string) (node_id init_size max_size : Z) : res (ts_queue T) :=
  let? q := fifo_new T0 node_id init_size (init_size <? max_size) in Ok (mkTS q max_size name).

Definition ts_lift {A} (m : M (fifo_queue T) A) : M (ts_queue T) A := λ t,
  let '(q, r) := m (ts_base t) in (mkTS q (ts_max_size t) (ts_name t), r).

Definition ts_fetch (num : nat) : M (ts_queue T) (list T) := ts_lift (fetch num).

(** The loop that doubles [new_size]; an [int] has doubled past its range
    within 32 rounds. *)
Fixpoint grow (fuel : nat) (new_size min_required_size max_size : Z) : res Z :=
  match fuel with
  | O => Throw OutOfFuel
  | S fuel =>
      if (new_size <? min_required_size) && (new_size <? max_size)
      then grow fuel (s32 (new_size * 2)) min_required_size max_size
      else Ok new_size
  end.

Definition ts_add (entries : list T) : M (ts_queue T) Z :=
  let num := Z.of_nat (length entries) in
  let! ret := ts_lift (add entries) in
  let! t := mget in
  let! orig_size := mlift (get_size (ts_base t)) in
  if (ret <? num) && (orig_size <? ts_max_size t) then
    let! new_size := mlift (grow 33 orig_size (orig_size + num - ret) (ts_max_size t)) in
    ts_lift (expand_queue T0 new_size);;;
    let! ret2 := ts_lift (add (drop (Z.to_nat ret) entries)) in
    massert (ret + ret2 =? num);;;
    mret (ret + ret2)
  else mret ret.

(** [add(queue)] returns 0 in every case. *)
Definition ts_add_lift {A} (m : M (fifo_queue T * fifo_queue T) A) : M (ts_queue T * fifo_queue T) A := λ '(t, o),
  let '((q, o'), r) := m (ts_base t, o) in ((mkTS q (ts_max_size t) (ts_name t), o'), r).
Definition ts_fst {A} (m : M (ts_queue T) A) : M (ts_queue T * fifo_queue T) A := λ '(t, o),
  let '(t', r) := m t in ((t', o), r).
Definition ts_add_queue : M (ts_queue T * fifo_queue T) Z :=
  let! ret := ts_add_lift add_queue in
  let! st := mget in
  let! orig_size := mlift (get_size (ts_base st.1)) in
  if negb (is_empty st.2) && (orig_size <? ts_max_size st.1) then
    let! new_size := mlift (grow 33 orig_size (orig_size + get_num_entries st.2) (ts_max_size st.1)) in
    ts_fst (ts_lift (expand_queue T0 new_size));;;
    let! ret2 := ts_add_lift add_queue in
    let! st := mget in
    massert (is_empty st.2);;;
    mret 0
  else mret 0.

Definition addByForce (entries : list T) : M (ts_queue T) unit :=
  let! n := ts_add entries in massert (n =? Z.of_nat (length entries)).
Definition ts_pop_front : M (ts_queue T) T :=
  let! l := ts_fetch 1 in
  match l with [x] => mret x | _ => mthrow AssertFailed end.
(** Busy-waits while the queue is full: another thread has to make room. *)
Fixpoint ts_push_back (fuel : nat) (entry : T) : M (ts_queue T) unit :=
  match fuel with
  | O => mthrow OutOfFuel
  | S fuel => let! n := ts_add [entry] in if n =? 0 then ts_push_back fuel entry else mret tt
  end.
End thread_safe.

(** ** [blocking_FIFO_queue] *)

Record bl_queue (T : Type) := mkBL {
  bl_base : fifo_queue T;
  num_empty : Z;
  num_full : Z;
  bl_max_size : Z;
  interrupted : bool;
  bl_name : string
}.
Arguments mkBL {T}.
Arguments bl_base {T}.
Arguments num_empty {T}.
Arguments num_full {T}.
Arguments bl_max_size {T}.
Arguments interrupted {T}.
Arguments bl_name {T}.

(** A call runs until it returns or until it waits on the condition; [woken]
    tells whether it broadcast to the other threads. *)
Inductive outcome (A : Type) := Returned (a : A) | Blocked.
Arguments Returned {A} a.
Arguments Blocked {A}.

Section blocking.
Context {T : Type} (T0 : T).

Definition bl_new (node_id : Z) (name : string) (init_size max_size : Z) : res (bl_queue T) :=
  let? q := fifo_new T0 node_id init_size (init_size <? max_size) in
  if init_size <=? max_size then Ok (mkBL q 0 0 max_size false name) else Throw AssertFailed.

Definition set_base (q : fifo_queue T) (b : bl_queue T) : bl_queue T :=
  mkBL q (num_empty b) (num_full b) (bl_max_size b) (interrupted b) (bl_name b).
Definition count_full (b : bl_queue T) : bl_queue T :=
  mkBL (bl_base b) (num_empty b) (num_full b + 1) (bl_max_size b) (interrupted b) (bl_name b).
Definition bl_lift {A} (m : M (fifo_queue T * fifo_queue T) A) : M (bl_queue T * fifo_queue T) A := λ '(b, o),
  let '((q, o'), r) := m (bl_base b, o) in ((set_base q b, o'), r).
Definition bl_expand (new_size : Z) : M (bl_queue T * fifo_queue T) bool := λ '(b, o),
  let '(q, r) := expand_queue T0 new_size (bl_base b) in ((set_base q b, o), r).

(** One round of [add_partial] with the mutex held: grow if needed, and add.
    The broadcast, when this queue was empty, is returned with the count. *)
Definition add_round : M (bl_queue T * fifo_queue T) (Z * bool) :=
  let! st := mget in
  let b := st.1 in
  let q := bl_base b in
  let num := get_num_entries st.2 in
  let empty := is_empty q in
  let! size := mlift (get_size q) in
  (if (size - get_num_entries q <? num) && (size <? bl_max_size b) then
     let new_size := Z.min (Z.max (size * 2) (get_num_entries q + num)) (bl_max_size b) in
     bl_expand new_size
   else mret true);;;
  let! ret := bl_lift add_queue in
  mret (ret, empty).

Fixpoint add_partial (fuel : nat) (min_added num_added : Z) (woken : bool)
  : M (bl_queue T * fifo_queue T) (outcome Z * bool) :=
  match fuel with
  | O => mthrow OutOfFuel
  | S fuel =>
      let! st := mget in
      if is_empty st.2 then mret (Returned num_added, woken) else
      let! r := add_round in
      let num_added := num_added + r.1 in
      let woken := woken || r.2 in
      if num_added <? min_added then
        let! st := mget in
        let! full := mlift (is_full (bl_base st.1)) in
        if full && negb (is_empty st.2) then
          mput (count_full st.1, st.2);;;
          mret (Blocked, woken)
        else add_partial fuel min_added num_added woken
      else mret (Returned num_added, woken)
  end.

Definition bl_add_queue (fuel : nat) : M (bl_queue T * fifo_queue T) (outcome Z * bool) :=
  add_partial fuel INT_MAX 0 false.
Definition non_blocking_add_queue (fuel : nat) : M (bl_queue T * fifo_queue T) (outcome Z * bool) :=
  add_partial fuel 0 0 false.
(** [add(entries, num)]: through a queue over the entries. *)
Definition on_entries {A} (entries : list T) (m : M (bl_queue T * fifo_queue T) A) : M (bl_queue T) A := λ b,
  let '((b', _), r) := m (b, fifo_over entries) in (b', r).
Definition bl_add (fuel : nat) (entries : list T) : M (bl_queue T) (outcome Z * bool) :=
  on_entries entries (bl_add_queue fuel).
Definition non_blocking_add (fuel : nat) (entries : list T) : M (bl_queue T) (outcome Z * bool) :=
  on_entries entries (non_blocking_add_queue fuel).

(** [fetch(entries, num, blocking, interruptible)]; a broadcast follows when the
    queue was full. *)
Definition bl_fetch (num : nat) (blocking interruptible : bool) : M (bl_queue T) (outcome (list T) * bool) :=
  let! b := mget in
  let wait := blocking && is_empty (bl_base b) in
  let b1 := mkBL (bl_base b) (num_empty b + 1) (num_full b) (bl_max_size b) (interrupted b) (bl_name b) in
  if wait && negb (interruptible && interrupted b) then
    mput b1;;;
    mret (Blocked, false)
  else
    let b2 := if wait then mkBL (bl_base b1) (num_empty b1) (num_full b1) (bl_max_size b1) false (bl_name b1) else b in
    let! full := mlift (is_full (bl_base b2)) in
    let '(q, r) := fetch num (bl_base b2) in
    mput (set_base q b2);;;
    let! l := mlift r in
    mret (Returned l, full).

(** [wakeup]: whether the condition is signalled. *)
Definition wakeup : M (bl_queue T) bool :=
  let! b := mget in
  if is_empty (bl_base b) then
    mput (mkBL (bl_base b) (num_empty b) (num_full b) (bl_max_size b) true (bl_name b));;;
    mret true
  else mret false.
End blocking.

(** ** [stack_array] and [embedded_array]

    The storage in use: the built-in array, an allocated one, or, in an object
    under construction, an uninitialised pointer. *)
Inductive storage (T : Type) := Inline | Heap (l : list T) | Wild.
Arguments Inline {T}.
Arguments Heap {T} l.
Arguments Wild {T}.

Record embedded_array (T : Type) := mkEA { ea_buf : list T; real_buf : storage T; capacity : Z }.
Arguments mkEA {T}.
Arguments ea_buf {T}.
Arguments real_buf {T}.
Arguments capacity {T}.

Section arrays.
Context {T : Type} (T0 : T) (size : Z).

Definition stack_array_new (cap : Z) : embedded_array T :=
  let b := replicate (Z.to_nat size) T0 in
  if cap <=? size then mkEA b Inline size else mkEA b (Heap (replicate (Z.to_nat cap) T0)) cap.

Definition embedded_array_new : embedded_array T := mkEA (replicate (Z.to_nat size) T0) Inline size.

Definition data (a : embedded_array T) : res (list T) :=
  match real_buf a with Inline => Ok (ea_buf a) | Heap l => Ok l | Wild => Throw Segfault end.
Definition ea_get (idx : Z) (a : embedded_array T) : res T :=
  if negb (idx <? capacity a) then Throw AssertFailed else
  let? l := data a in
  if idx <? 0 then Throw Segfault else
  match l !! Z.to_nat idx with Some x => Ok x | None => Throw Segfault end.
Definition ea_set (idx : Z) (x : T) (a : embedded_array T) : res (embedded_array T) :=
  if negb (idx <? capacity a) then Throw AssertFailed else
  let? l := data a in
  if (idx <? 0) || (Z.of_nat (length l) <=? idx) then Throw Segfault else
  let l := <[Z.to_nat idx := x]> l in
  Ok (match real_buf a with Inline => mkEA l Inline (capacity a) | _ => mkEA (ea_buf a) (Heap l) (capacity a) end).

(** [memcpy] of the old contents over the new, default-constructed array. *)
Definition ea_resize (new_size : Z) (a : embedded_array T) : res (embedded_array T) :=
  if new_size <=? capacity a then Ok a else
  let tmp := replicate (Z.to_nat new_size) T0 in
  match real_buf a with
  | Inline => Ok (mkEA (ea_buf a) (Heap (ea_buf a ++ drop (length (ea_buf a)) tmp)) new_size)
  | Heap l =>
      let n := Z.to_nat (capacity a) in
      Ok (mkEA (ea_buf a) (Heap (take n l ++ drop n tmp)) new_size)
  | Wild => Throw Segfault
  end.

Definition ea_clear (a : embedded_array T) : res (embedded_array T) :=
  match real_buf a with
  | Inline => Ok a
  | Heap _ => Ok (mkEA (ea_buf a) Inline size)
  | Wild => Throw Segfault
  end.

(** [assign] moves the contents; the source is left with default entries. *)
Definition ea_assign (arr a : embedded_array T) : res (embedded_array T * embedded_array T) :=
  let? a := ea_clear a in
  match real_buf arr with
  | Inline =>
      let n := Z.to_nat (capacity a) in
      if (length (ea_buf a) <? n)%nat || (length (ea_buf arr) <? n)%nat then Throw Segfault else
      Ok (mkEA (take n (ea_buf arr) ++ drop n (ea_buf a)) Inline size,
          mkEA (replicate n T0 ++ drop n (ea_buf arr)) Inline (capacity arr))
  | Heap l => Ok (mkEA (ea_buf a) (Heap l) (capacity arr), mkEA (ea_buf arr) Inline size)
  | Wild => Throw Segfault
  end.
(** The copy constructor: [assign] on an object whose pointer and capacity have
    no value yet. *)
Definition ea_copy (arr : embedded_array T) (garbage : Z) : res (embedded_array T * embedded_array T) :=
  ea_assign arr (mkEA (replicate (Z.to_nat size) T0) Wild garbage).
End arrays.

(** ** The ring as a list *)

Section refinement.
Context {T : Type} (T0 : T).
Implicit Types (q o : fifo_queue T) (l m : list T) (x : T).

(** The entries that can be read, in order. *)
Record readable (q : fifo_queue T) (l : list T) : Prop := {
  rd_start : 0 ≤ start q;
  rd_end : end_ q = start q + Z.of_nat (length l);
  rd_entry i x : l !! i = Some x → buf q !! Z.to_nat (loc_in_queue q (start q + Z.of_nat i)) = Some x
}.

(** A queue of [2^k] entries that can also be written. *)
Record fifo_rep (k : Z) (q : fifo_queue T) (l : list T) : Prop := {
  rep_k : 0 ≤ k ≤ 30;
  rep_mask : size_mask q = 2 ^ k - 1;
  rep_buf : Z.of_nat (length (buf q)) = 2 ^ k;
  rep_alloc : allocated q = true;
  rep_len : Z.of_nat (length l) ≤ 2 ^ k;
  rep_read : readable q l
}.

Lemma loc_mod k q i : 0 ≤ k → size_mask q = 2 ^ k - 1 → loc_in_queue q i = i mod 2 ^ k.
Proof.
  intros Hk Hm. unfold loc_in_queue. rewrite Hm. replace (2 ^ k - 1) with (Z.ones k) by (rewrite Z.ones_equiv; lia).
  by apply Z.land_ones.
Qed.

Lemma pow_bounds k : 0 ≤ k ≤ 30 → 1 ≤ 2 ^ k ≤ 2 ^ 30.
Proof. intros Hk. pose proof (Z.pow_pos_nonneg 2 k). pose proof (Z.pow_le_mono_r 2 k 30). lia. Qed.

(** Positions of the ring less than a turn apart are different. *)
Lemma ring_apart N a b : 0 < N → a < b < a + N → a mod N ≠ b mod N.
Proof.
  intros HN Hab He. pose proof (Z.div_mod a N ltac:(lia)). pose proof (Z.div_mod b N ltac:(lia)).
  rewrite He in *. destruct (Z.lt_ge_cases (a / N) (b / N)) as [Hq|Hq].
  - pose proof (Z.mul_le_mono_nonneg_l (a / N + 1) (b / N) N). lia.
  - pose proof (Z.mul_le_mono_nonneg_l (b / N) (a / N) N). lia.
Qed.

Lemma readable_empty q l : readable q l → is_empty q = bool_decide (l = []).
Proof.
  intros [H1 H2 _]. unfold is_empty. rewrite H2. destruct l; cbn [length].
  - rewrite bool_decide_true by done. apply Z.leb_le. lia.
  - rewrite bool_decide_false by done. apply Z.leb_gt. lia.
Qed.

Lemma readable_pop q x l :
  readable q (x :: l) → buf_at (loc_in_queue q (start q)) q = Ok x ∧ readable (set_start (start q + 1) q) l.
Proof.
  intros [H1 H2 H3]. split.
  - unfold buf_at. specialize (H3 0%nat x eq_refl). rewrite Z.add_0_r in H3. by rewrite H3.
  - split; cbn [start end_ set_start].
    + lia.
    + rewrite H2. cbn [length]. lia.
    + intros i y Hi. specialize (H3 (S i) y Hi).
      by replace (start q + 1 + Z.of_nat i) with (start q + Z.of_nat (S i)) by lia.
Qed.

Lemma fetch_spec n q l :
  readable q l → ∃ s, fetch n q = (set_start s q, Ok (take n l)) ∧ readable (set_start s q) (drop n l).
Proof.
  revert q l. induction n as [|n IH]; intros q l Hr.
  { exists (start q). by destruct q. }
  cbn [fetch]. rewrite (mbind_ok _ _ _ _ _ eq_refl : mbind' mget _ _ = _), (readable_empty q l Hr).
  destruct l as [|x l]; [exists (start q); by destruct q|]. rewrite bool_decide_false by done.
  destruct (readable_pop q x l Hr) as [Hx Hr']. destruct (IH _ _ Hr') as (s & Hrun & Hs). exists s.
  rewrite Hx, (mbind_ok (mlift (Ok x)) _ _ _ _ eq_refl), (mbind_ok (mput _) _ _ _ _ eq_refl), (mbind_ok _ _ _ _ _ Hrun).
  by split.
Qed.

Lemma get_num_entries_rep q l : readable q l → Z.of_nat (length l) < 2 ^ 31 → get_num_entries q = Z.of_nat (length l).
Proof. intros [_ H2 _] Hl. unfold get_num_entries. rewrite H2. rewrite s32_small; lia. Qed.

Lemma rep_sizes k q l : fifo_rep k q l →
  get_size q = Ok (2 ^ k) ∧ get_num_entries q = Z.of_nat (length l) ∧
  get_num_remaining q = Ok (2 ^ k - Z.of_nat (length l)) ∧ is_full q = Ok (2 ^ k <=? Z.of_nat (length l)).
Proof.
  intros H. pose proof (pow_bounds k (rep_k _ _ _ H)). pose proof (rep_len _ _ _ H).
  assert (get_size q = Ok (2 ^ k)) as Hs by (unfold get_size; rewrite (rep_alloc _ _ _ H), (rep_mask _ _ _ H); f_equal; lia).
  assert (get_num_entries q = Z.of_nat (length l)) as He by (apply get_num_entries_rep; [apply H|lia]).
  unfold get_num_remaining, is_full. rewrite Hs, He. cbn [rbind]. split_and!; [done..|].
  rewrite (rd_end _ _ (rep_read _ _ _ H)). do 2 f_equal. lia.
Qed.

Lemma rep_push k q l x :
  fifo_rep k q l → Z.of_nat (length l) < 2 ^ k →
  ∃ b, buf_store (loc_in_queue q (end_ q)) x (buf q) = Ok b ∧ fifo_rep k (set_end b (end_ q + 1) q) (l ++ [x]).
Proof.
  intros H Hl. pose proof (pow_bounds k (rep_k _ _ _ H)) as Hk. destruct (rep_read _ _ _ H) as [R1 R2 R3].
  pose proof (loc_mod k q (end_ q) ltac:(apply H) (rep_mask _ _ _ H)) as Hloc.
  pose proof (Z.mod_pos_bound (end_ q) (2 ^ k) ltac:(lia)) as Hm. pose proof (rep_buf _ _ _ H) as Hb.
  unfold buf_store. rewrite Hloc, (proj2 (Z.leb_gt _ _)) by lia. eexists. split; [reflexivity|].
  split; cbn [size_mask buf allocated set_end].
  - apply H.
  - apply H.
  - by rewrite length_insert.
  - apply H.
  - rewrite length_app. cbn [length]. lia.
  - split; cbn [start end_ set_end buf]; [done|rewrite length_app; cbn [length]; lia|].
    intros i y Hi. unfold loc_in_queue. cbn [size_mask set_end]. fold (loc_in_queue q (start q + Z.of_nat i)).
    rewrite (loc_mod k q) by (apply H).
    apply lookup_snoc_Some in Hi as [[Hil Hi]|[-> <-]].
    + rewrite list_lookup_insert_ne.
      * rewrite <-(loc_mod k q) by (apply H). by apply R3.
      * pose proof (Z.mod_pos_bound (start q + Z.of_nat i) (2 ^ k) ltac:(lia)).
        pose proof (ring_apart (2 ^ k) (start q + Z.of_nat i) (end_ q)). lia.
    + rewrite <-R2, list_lookup_insert_eq; [done|]. lia.
Qed.

Lemma rep_fetch k q l n :
  fifo_rep k q l → ∃ s, fetch n q = (set_start s q, Ok (take n l)) ∧ fifo_rep k (set_start s q) (drop n l).
Proof.
  intros H. destruct (fetch_spec n q l (rep_read _ _ _ H)) as (s & Hrun & Hr). exists s. split; [done|].
  destruct H as [H1 H2 H3 H4 H5 H6]. split; cbn [size_mask buf allocated set_start]; try done. rewrite length_drop. lia.
Qed.

Lemma rep_add k q l vs :
  fifo_rep k q l → ∃ q', add vs q = (q', Ok (Z.min (Z.of_nat (length vs)) (2 ^ k - Z.of_nat (length l)))) ∧
    fifo_rep k q' (l ++ take (Z.to_nat (2 ^ k - Z.of_nat (length l))) vs) ∧ resizable q' = resizable q.
Proof.
  revert q l. induction vs as [|v vs IH]; intros q l H; pose proof (rep_len _ _ _ H) as Hlen;
    destruct (rep_sizes k q l H) as (_ & _ & _ & Hf); cbn [add];
    rewrite (mbind_ok _ _ _ _ _ eq_refl : mbind' mget _ _ = _), Hf, (mbind_ok (mlift (Ok _)) _ _ _ _ eq_refl).
  - exists q. rewrite take_nil, app_nil_r. cbn [length]. rewrite Z.min_l by lia. by destruct (2 ^ k <=? _).
  - destruct (Z.leb_spec (2 ^ k) (Z.of_nat (length l))).
    { exists q. replace (2 ^ k - Z.of_nat (length l)) with 0 by lia. rewrite take_0, app_nil_r, Z.min_r by lia. done. }
    destruct (rep_push k q l v H) as (b & Hb & H'); [done|]. rewrite Hb, (mbind_ok (mlift (Ok b)) _ _ _ _ eq_refl).
    rewrite (mbind_ok (mput _) _ _ _ _ eq_refl). destruct (IH _ _ H') as (q' & Hrun & Hrep & Hres).
    rewrite (mbind_ok _ _ _ _ _ Hrun). exists q'. rewrite length_app in *. cbn [length] in *. split_and!; [| |done].
    + unfold mret. do 2 f_equal. lia.
    + replace (Z.to_nat (2 ^ k - Z.of_nat (length l))) with (S (Z.to_nat (2 ^ k - Z.of_nat (length l + 1)))) by lia.
      cbn [firstn]. by rewrite <-(assoc_L (++)) in Hrep.
Qed.

(** *** Growing *)

Lemma round_size_spec n : 1 ≤ n ≤ 2 ^ 30 →
  round_size n = Ok (2 ^ Z.log2_up n) ∧ 0 ≤ Z.log2_up n ≤ 30 ∧ n ≤ 2 ^ Z.log2_up n.
Proof.
  intros Hn. unfold round_size. rewrite (proj2 (Z.ltb_ge _ _)), Z.shiftl_1_l by lia. split_and!; [done| | |].
  - apply Z.log2_up_nonneg.
  - apply Z.log2_up_le_pow2; lia.
  - destruct (decide (n = 1)) as [->|]; [done|]. apply Z.log2_up_spec. lia.
Qed.

Lemma fifo_new_spec node n r : 1 ≤ n ≤ 2 ^ 30 →
  ∃ q, fifo_new T0 node n r = Ok q ∧ fifo_rep (Z.log2_up n) q [] ∧ resizable q = r.
Proof.
  intros Hn. destruct (round_size_spec n Hn) as (Hr & Hk & _). pose proof (pow_bounds _ Hk). unfold fifo_new. rewrite Hr. cbn [rbind].
  eexists. split; [reflexivity|]. split; [|done]. split; cbn [size_mask buf allocated length]; [done|done| |done|lia|].
  - rewrite length_replicate. lia.
  - by split; cbn.
Qed.

Lemma copy_loop_spec q l n i tmp :
  readable q l → (i + n ≤ length l)%nat → (i + n ≤ length tmp)%nat →
  ∃ tmp', copy_loop q n (Z.of_nat i) tmp = Ok tmp' ∧ length tmp' = length tmp ∧
    (∀ j, (j < i)%nat → tmp' !! j = tmp !! j) ∧ (∀ j, (i ≤ j < i + n)%nat → tmp' !! j = l !! j).
Proof.
  intros Hr. revert i tmp. induction n as [|n IH]; intros i tmp Hl Ht; cbn [copy_loop].
  { exists tmp. split_and!; [done|done|done|lia]. }
  destruct (lookup_lt_is_Some_2 l i) as [x Hx]; [lia|]. unfold buf_at at 1. rewrite (rd_entry _ _ Hr i x Hx). cbn [rbind].
  unfold buf_store. rewrite (proj2 (Z.leb_gt _ _)), Nat2Z.id by lia. cbn [rbind].
  replace (Z.of_nat i + 1) with (Z.of_nat (S i)) by lia.
  destruct (IH (S i) (<[i := x]> tmp)) as (tmp' & Hrun & Hlen & Hlo & Hhi); [lia|rewrite length_insert; lia|].
  exists tmp'. rewrite length_insert in Hlen. split_and!; [done|done| |].
  - intros j Hj. rewrite Hlo by lia. apply list_lookup_insert_ne. lia.
  - intros j Hj. destruct (decide (j = i)) as [->|Hne]; [|apply Hhi; lia].
    rewrite Hlo, list_lookup_insert_eq by lia. done.
Qed.

Lemma rep_expand k q l n :
  fifo_rep k q l → 1 ≤ n ≤ 2 ^ 30 → resizable q = true → 2 ^ k < 2 ^ Z.log2_up n →
  ∃ q', expand_queue T0 n q = (q', Ok true) ∧ fifo_rep (Z.log2_up n) q' l ∧ resizable q' = true.
Proof.
  intros H Hn Hres Hlt. destruct (round_size_spec n Hn) as (Hr & Hk' & _). set (k' := Z.log2_up n) in *.
  pose proof (pow_bounds _ Hk') as Hb'. pose proof (rep_len _ _ _ H) as Hlen.
  destruct (rep_sizes k q l H) as (Hs & He & _ & _).
  destruct (copy_loop_spec q l (length l) 0 (replicate (Z.to_nat (2 ^ k')) T0)) as (tmp & Hrun & Htl & _ & Htm);
    [apply H|lia|rewrite length_replicate; lia|]. rewrite length_replicate in Htl.
  eexists. split.
  - unfold expand_queue. rewrite Hr, (mbind_ok (mlift (Ok _)) _ _ _ _ eq_refl), (mbind_ok _ _ _ _ _ eq_refl : mbind' mget _ _ = _).
    rewrite Hres, (mbind_ok (massert true) _ _ _ _ eq_refl), Hs, (mbind_ok (mlift (Ok _)) _ _ _ _ eq_refl).
    rewrite (proj2 (Z.ltb_lt _ _) Hlt), (mbind_ok (massert true) _ _ _ _ eq_refl), (rep_alloc _ _ _ H), (mbind_ok (massert true) _ _ _ _ eq_refl).
    cbn zeta. rewrite He, Nat2Z.id, (Hrun : copy_loop q _ 0 _ = _), (mbind_ok (mlift (Ok tmp)) _ _ _ _ eq_refl).
    reflexivity.
  - split; [|done]. split; cbn [size_mask buf allocated]; [done|done|lia|done|lia|]. split; cbn [start end_]; [lia|lia|].
    intros i x Hi. unfold buf. rewrite (loc_mod k') by (done || lia). cbn [start].
    pose proof (lookup_lt_Some _ _ _ Hi). rewrite Z.mod_small, Z.add_0_l, Nat2Z.id by lia. by rewrite Htm by lia.
Qed.

Lemma expand_refused k q l n :
  fifo_rep k q l → 1 ≤ n ≤ 2 ^ 30 → resizable q = false ∨ 2 ^ Z.log2_up n ≤ 2 ^ k →
  expand_queue T0 n q = (q, Throw AssertFailed).
Proof.
  intros H Hn Hno. destruct (round_size_spec n Hn) as (Hr & _ & _). destruct (rep_sizes k q l H) as (Hs & _).
  unfold expand_queue. rewrite Hr, (mbind_ok (mlift (Ok _)) _ _ _ _ eq_refl), (mbind_ok _ _ _ _ _ eq_refl : mbind' mget _ _ = _).
  destruct (resizable q) eqn:Hres; [|done]. destruct Hno as [Hno|Hno]; [done|].
  rewrite (mbind_ok (massert true) _ _ _ _ eq_refl), Hs, (mbind_ok (mlift (Ok _)) _ _ _ _ eq_refl).
  by rewrite (proj2 (Z.ltb_ge _ _) Hno).
Qed.

(** *** Moving entries from another queue *)

Lemma rep_store k q l m :
  fifo_rep k q l → Z.of_nat (length l) + Z.of_nat (length m) ≤ 2 ^ k →
  end_ q mod 2 ^ k + Z.of_nat (length m) ≤ 2 ^ k →
  ∃ b, store_from (end_ q mod 2 ^ k) m (buf q) = Ok b ∧
    fifo_rep k (set_end b (end_ q + Z.of_nat (length m)) q) (l ++ m).
Proof.
  revert q l. induction m as [|x m IH]; intros q l H Hl Hm.
  { exists (buf q). rewrite app_nil_r, Z.add_0_r. split; [done|]. by destruct q. }
  cbn [length] in *. pose proof (pow_bounds k (rep_k _ _ _ H)) as Hk. cbn [store_from].
  destruct (rep_push k q l x H) as (b & Hb & H'); [lia|]. rewrite (loc_mod k q) in Hb by (apply H). rewrite Hb. cbn [rbind].
  destruct m as [|y m].
  { exists b. split; [done|]. by replace (end_ q + Z.of_nat 1) with (end_ q + 1) by lia. }
  cbn [length] in *. assert ((end_ q + 1) mod 2 ^ k = end_ q mod 2 ^ k + 1) as Hnext.
  { rewrite <-Z.add_mod_idemp_l by lia. apply Z.mod_small. pose proof (Z.mod_pos_bound (end_ q) (2 ^ k)). lia. }
  destruct (IH _ _ H') as (b' & Hrun & Hrep); cbn [end_ set_end buf]; [rewrite length_app; cbn [length]; lia|rewrite Hnext; lia|].
  cbn [end_ set_end buf] in Hrun, Hrep. rewrite Hnext in Hrun. exists b'. split; [done|].
  rewrite <-(assoc_L (++)) in Hrep.
  by replace (end_ q + Z.of_nat (S (S (length m)))) with (end_ q + 1 + Z.of_nat (S (length m))) by lia.
Qed.

Lemma fetch_into_spec k q l o m n :
  fifo_rep k q l → readable o m → 0 ≤ n → Z.of_nat (length l) + n ≤ 2 ^ k → end_ q mod 2 ^ k + n ≤ 2 ^ k →
  ∃ q' s, fetch_into (end_ q mod 2 ^ k) n (q, o) = ((q', set_start s o), Ok (Z.min n (Z.of_nat (length m)))) ∧
    fifo_rep k q' (l ++ take (Z.to_nat n) m) ∧ readable (set_start s o) (drop (Z.to_nat n) m) ∧
    end_ q' = end_ q + Z.min n (Z.of_nat (length m)) ∧ resizable q' = resizable q.
Proof.
  intros H Ho Hn Hl Hm. destruct (fetch_spec (Z.to_nat n) o m Ho) as (s & Hf & Ho').
  assert (Z.of_nat (length (take (Z.to_nat n) m)) = Z.min n (Z.of_nat (length m))) as Hlen by (rewrite length_take; lia).
  destruct (rep_store k q l (take (Z.to_nat n) m) H) as (b & Hb & Hrep); [lia|lia|]. rewrite Hlen in Hrep.
  eexists _, s. split; [|split_and!; [exact Hrep|done|done|done]].
  unfold fetch_into. rewrite (mbind_ok (on_other _) _ _ (q, set_start s o) (take (Z.to_nat n) m)) by (unfold on_other; by rewrite Hf).
  rewrite (mbind_ok _ _ _ _ _ eq_refl : mbind' mget _ _ = _). cbn [fst snd]. cbn zeta.
  rewrite Hb, (mbind_ok (mlift (Ok b)) _ _ _ _ eq_refl), Hlen. reflexivity.
Qed.

Lemma add_queue_spec k q l o m :
  fifo_rep k q l → readable o m → let R := 2 ^ k - Z.of_nat (length l) in
  ∃ q' s, add_queue (q, o) = ((q', set_start s o), Ok (Z.min R (Z.of_nat (length m)))) ∧
    fifo_rep k q' (l ++ take (Z.to_nat R) m) ∧ readable (set_start s o) (drop (Z.to_nat R) m) ∧ resizable q' = resizable q.
Proof.
  intros H Ho R. pose proof (pow_bounds k (rep_k _ _ _ H)) as Hk. pose proof (rep_len _ _ _ H) as Hlen.
  destruct (rep_sizes k q l H) as (Hs & _ & Hrem & _). pose proof (Z.mod_pos_bound (end_ q) (2 ^ k) ltac:(lia)) as Hm.
  pose proof (λ i, loc_mod k q i ltac:(apply H) (rep_mask _ _ _ H)) as Hloc.
  unfold add_queue. rewrite (mbind_ok _ _ _ _ _ eq_refl : mbind' mget _ _ = _). cbn [fst]. cbn zeta.
  rewrite Hloc, s32_small, Hs, (mbind_ok (mlift (Ok _)) _ _ _ _ eq_refl), Hrem, (mbind_ok (mlift (Ok _)) _ _ _ _ eq_refl) by lia.
  fold R. set (idx := end_ q mod 2 ^ k) in *. set (len := Z.min (2 ^ k - idx) R).
  assert (0 ≤ len ≤ R ∧ len ≤ 2 ^ k - idx ∧ (len = R ∨ len = 2 ^ k - idx)) as Hlr by lia. clearbody len.
  assert (R = 2 ^ k - Z.of_nat (length l)) as HR by done. clearbody R.
  destruct (fetch_into_spec k q l o m len H Ho) as (q1 & s1 & Hf & H1 & Ho1 & He1 & Hr1); [lia|lia|fold idx; lia|].
  fold idx in Hf. rewrite (mbind_ok _ _ _ _ _ Hf), (mbind_ok _ _ _ _ _ eq_refl : mbind' mget _ _ = _). cbn [fst].
  destruct (rep_sizes k q1 _ H1) as (_ & _ & Hrem1 & _). rewrite Hrem1, (mbind_ok (mlift (Ok _)) _ _ _ _ eq_refl).
  rewrite length_app, length_take. destruct (decide (R ≤ len ∨ Z.of_nat (length m) < len)) as [Hdone|Hmore].
  - assert ((Z.min len (Z.of_nat (length m)) <? len) ||
            (2 ^ k - Z.of_nat (length l + Z.to_nat len `min` length m) =? 0) = true) as ->.
    { apply orb_true_iff. destruct (Z.lt_ge_cases (Z.of_nat (length m)) len); [left; apply Z.ltb_lt; lia|].
      right. apply Z.eqb_eq. lia. }
    exists q1, s1. split_and!; [unfold mret; do 2 f_equal; lia| | |done].
    + destruct (decide (len = R)) as [->|Hne]; [done|]. rewrite take_ge by lia. by rewrite take_ge in H1 by lia.
    + destruct (decide (len = R)) as [->|Hne]; [done|]. rewrite drop_ge by lia. by rewrite drop_ge in Ho1 by lia.
  - assert (len < R ∧ len ≤ Z.of_nat (length m) ∧ len = 2 ^ k - idx) as (Hl1 & Hl2 & Hl3) by lia.
    assert ((Z.min len (Z.of_nat (length m)) <? len) ||
            (2 ^ k - Z.of_nat (length l + Z.to_nat len `min` length m) =? 0) = false) as ->.
    { apply orb_false_iff. split; [apply Z.ltb_ge; lia|apply Z.eqb_neq; lia]. }
    assert (end_ q1 mod 2 ^ k = 0) as He0.
    { rewrite He1, Z.min_l, Hl3 by lia. unfold idx. pose proof (Z.div_mod (end_ q) (2 ^ k) ltac:(lia)).
      replace (end_ q + (2 ^ k - end_ q mod 2 ^ k)) with ((end_ q / 2 ^ k + 1) * 2 ^ k) by lia. by apply Z.mod_mul; lia. }
    rewrite (loc_mod k q1) by apply H1. rewrite He0, (mbind_ok (massert true) _ _ _ _ eq_refl).
    set (rem := 2 ^ k - Z.of_nat (length l + Z.to_nat len `min` length m)).
    assert (rem = R - len) as Hrr by lia.
    destruct (fetch_into_spec k q1 _ (set_start s1 o) _ rem H1 Ho1) as (q2 & s2 & Hf2 & H2 & Ho2 & _ & Hr2);
      [lia|rewrite length_app, length_take; lia|lia|].
    rewrite He0 in Hf2. rewrite (mbind_ok _ _ _ _ _ Hf2). exists q2, s2. rewrite length_drop.
    rewrite <-(assoc_L (++)), take_take_drop in H2. rewrite drop_drop in Ho2.
    replace (Z.to_nat len + Z.to_nat rem)%nat with (Z.to_nat R) in H2, Ho2 by lia.
    split_and!; [unfold mret; do 2 f_equal; lia|done|done|congruence].
Qed.
End refinement.

(** ** Operations against the list *)

Section simulation.
Context {T : Type} (T0 : T).

Inductive op := Push (x : T) | Pop | Front | Back | Fetch (n : nat) | Add (vs : list T) | Expand (n : Z) | Entries.
Inductive output := ONone | OVal (x : T) | OList (l : list T) | ONum (n : Z).

Definition run_op (o : op) : M (fifo_queue T) output :=
  match o with
  | Push x => push_back x;;; mret ONone
  | Pop => let! x := pop_front in mret (OVal x)
  | Front => let! q := mget in let! x := mlift (front q) in mret (OVal x)
  | Back => let! q := mget in let! x := mlift (back q) in mret (OVal x)
  | Fetch n => let! l := fetch n in mret (OList l)
  | Add vs => let! n := add vs in mret (ONum n)
  | Expand n => expand_queue T0 n;;; mret ONone
  | Entries => let! q := mget in mret (ONum (get_num_entries q))
  end.

(** The specification: a list with a capacity [2^k]. *)
Definition spec_op (resz : bool) (o : op) : M (Z * list T) output := λ '(k, l),
  let n := Z.of_nat (length l) in
  match o with
  | Push x => if n <? 2 ^ k then ((k, l ++ [x]), Ok ONone) else ((k, l), Throw AssertFailed)
  | Pop => match l with x :: l' => ((k, l'), Ok (OVal x)) | [] => ((k, l), Throw AssertFailed) end
  | Front => ((k, l), match head l with Some x => Ok (OVal x) | None => Throw AssertFailed end)
  | Back => ((k, l), match last l with Some x => Ok (OVal x) | None => Throw AssertFailed end)
  | Fetch m => ((k, drop m l), Ok (OList (take m l)))
  | Add vs => ((k, l ++ take (Z.to_nat (2 ^ k - n)) vs), Ok (ONum (Z.min (Z.of_nat (length vs)) (2 ^ k - n))))
  | Expand m => if resz && (2 ^ k <? 2 ^ Z.log2_up m) then ((Z.log2_up m, l), Ok ONone) else ((k, l), Throw AssertFailed)
  | Entries => ((k, l), Ok (ONum n))
  end.

(** A queue is not expanded beyond [2^30] entries. *)
Definition op_ok (o : op) : Prop := match o with Expand n => 1 ≤ n ≤ 2 ^ 30 | _ => True end.

Fixpoint run_all {St} (step : op → M St output) (ops : list op) (s : St) : St * list (res output) :=
  match ops with
  | [] => (s, [])
  | o :: ops => let '(s, r) := step o s in let '(s, rs) := run_all step ops s in (s, r :: rs)
  end.

Lemma front_spec k (q : fifo_queue T) l : fifo_rep k q l →
  front q = match head l with Some x => Ok x | None => Throw AssertFailed end ∧
  back q = match last l with Some x => Ok x | None => Throw AssertFailed end.
Proof.
  intros H. pose proof (rep_read _ _ _ H) as Hr. unfold front, back. rewrite (readable_empty q l Hr).
  destruct l as [|x l _] using rev_ind; [done|]. rewrite bool_decide_false by (by destruct l). split.
  - destruct (l ++ [x]) as [|y l'] eqn:He; [by destruct l|]. by apply (readable_pop q y l').
  - rewrite last_snoc. unfold buf_at. pose proof (rd_end _ _ Hr) as He. rewrite length_app in He. cbn [length] in He.
    replace (end_ q - 1) with (start q + Z.of_nat (length l)) by lia.
    by rewrite (rd_entry _ _ Hr (length l) x) by (rewrite lookup_app_r, Nat.sub_diag by done; done).
Qed.

Lemma op_simulated o k (q : fifo_queue T) l :
  fifo_rep k q l → op_ok o →
  let r := run_op o q in let r' := spec_op (resizable q) o (k, l) in
  r.2 = r'.2 ∧ fifo_rep r'.1.1 r.1 r'.1.2 ∧ resizable r.1 = resizable q.
Proof.
  intros H Hok. pose proof (rep_sizes k q l H) as (Hs & He & _ & _). destruct (front_spec k q l H) as [Hfr Hbk].
  pose proof (rd_end _ _ (rep_read _ _ _ H)) as Hend. destruct o as [x| | | |n|vs|n|]; cbn [run_op spec_op]; cbn zeta.
  - unfold push_back. rewrite mbind_assoc, (mbind_ok _ _ _ _ _ eq_refl : mbind' mget _ _ = _), Hs.
    rewrite mbind_assoc, (mbind_ok (mlift (Ok _)) _ _ _ _ eq_refl).
    replace (end_ q - start q) with (Z.of_nat (length l)) by lia. destruct (Z.ltb_spec (Z.of_nat (length l)) (2 ^ k)); [|done].
    rewrite mbind_assoc, (mbind_ok (massert true) _ _ _ _ eq_refl). destruct (rep_push k q l x H) as (b & Hb & H'); [done|].
    rewrite Hb. done.
  - unfold pop_front. rewrite mbind_assoc, (mbind_ok _ _ _ _ _ eq_refl : mbind' mget _ _ = _), mbind_assoc.
    destruct l as [|x l]; cbn [length] in *.
    { by rewrite (proj2 (Z.ltb_ge (start q) (end_ q))) by lia. }
    rewrite (proj2 (Z.ltb_lt (start q) (end_ q))), (mbind_ok (massert true) _ _ _ _ eq_refl) by lia.
    destruct (readable_pop q x l (rep_read _ _ _ H)) as [Hx Hr]. rewrite Hx. split; [done|]. split; [|done].
    destruct H as [H1 H2 H3 H4 H5 _]. cbn [length] in H5. split; cbn [size_mask buf allocated set_start]; try done. cbn [fst snd]. lia.
  - rewrite (mbind_ok _ _ _ _ _ eq_refl : mbind' mget _ _ = _), Hfr. by destruct (head l).
  - rewrite (mbind_ok _ _ _ _ _ eq_refl : mbind' mget _ _ = _), Hbk. by destruct (last l).
  - destruct (rep_fetch k q l n H) as (s & Hf & H'). rewrite (mbind_ok _ _ _ _ _ Hf). done.
  - destruct (rep_add k q l vs H) as (q' & Ha & H' & Hr'). rewrite (mbind_ok _ _ _ _ _ Ha). done.
  - destruct (resizable q && (2 ^ k <? 2 ^ Z.log2_up n)) eqn:Hc.
    + apply andb_true_iff in Hc as [Hc1 Hc2%Z.ltb_lt]. destruct (rep_expand T0 k q l n H Hok Hc1 Hc2) as (q' & Hx & H' & Hr').
      rewrite (mbind_ok _ _ _ _ _ Hx). cbn [fst snd mret]. split_and!; [done|done|congruence].
    + rewrite (mbind_throw _ _ _ q AssertFailed); [done|]. apply (expand_refused T0 k q l n H Hok).
      apply andb_false_iff in Hc as [->|Hc%Z.ltb_ge]; [by left|by right].
  - rewrite (mbind_ok _ _ _ _ _ eq_refl : mbind' mget _ _ = _), He. done.
Qed.

Lemma ops_simulated ops k (q : fifo_queue T) l :
  fifo_rep k q l → Forall op_ok ops →
  let r := run_all run_op ops q in let r' := run_all (spec_op (resizable q)) ops (k, l) in
  r.2 = r'.2 ∧ fifo_rep r'.1.1 r.1 r'.1.2.
Proof.
  revert k q l. induction ops as [|o ops IH]; intros k q l H Hok; [done|]. apply Forall_cons in Hok as [Ho Hok].
  destruct (op_simulated o k q l H Ho) as (H1 & H2 & H3). cbn [run_all].
  destruct (run_op o q) as [q1 r1]. destruct (spec_op (resizable q) o (k, l)) as [[k1 l1] r1']. cbn [fst snd] in *.
  specialize (IH k1 q1 l1 H2 Hok). rewrite H3 in IH. destruct (run_all run_op ops q1). destruct (run_all (spec_op _) ops _).
  cbn [fst snd] in *. destruct IH as [IH1 IH2]. split; [by f_equal|done].
Qed.
End simulation.

(** ** Growing queues *)

Section growing.
Context {T : Type} (T0 : T).
Implicit Types (l m vs : list T).

(** The loop stops at the first power of two that is large enough or not below
    the maximum. *)
Lemma grow_spec fuel k req mx :
  0 ≤ k ≤ 30 → mx ≤ 2 ^ 30 → 30 - k < Z.of_nat fuel →
  ∃ j, k ≤ j ≤ 30 ∧ grow fuel (2 ^ k) req mx = Ok (2 ^ j) ∧ (req ≤ 2 ^ j ∨ mx ≤ 2 ^ j) ∧
    (∀ i, k ≤ i < j → 2 ^ i < req ∧ 2 ^ i < mx).
Proof.
  revert k. induction fuel as [|fuel IH]; intros k Hk Hmx Hf; [lia|]. cbn [grow].
  destruct (Z.ltb_spec (2 ^ k) req), (Z.ltb_spec (2 ^ k) mx); cbn [andb].
  2-4: exists k; split_and!; [lia|lia|done|lia|lia].
  assert (k ≠ 30) as Hne by (intros ->; lia). pose proof (pow_bounds (k + 1) ltac:(lia)) as Hb.
  assert (2 ^ k * 2 = 2 ^ (k + 1)) as Hp by (rewrite Z.pow_add_r by lia; lia).
  rewrite Hp, s32_small by lia. destruct (IH (k + 1)) as (j & Hj & Hrun & Hst & Hmin); [lia|done|lia|].
  exists j. split_and!; [lia|lia|done|done|]. intros i Hi. destruct (decide (i = k)) as [->|]; [done|]. apply Hmin. lia.
Qed.

Record ts_rep (k : Z) (t : ts_queue T) (l : list T) : Prop := {
  ts_fifo : fifo_rep k (ts_base t) l;
  ts_max : ts_max_size t ≤ 2 ^ 30;
  ts_resz : 2 ^ k < ts_max_size t → resizable (ts_base t) = true
}.

Lemma ts_new_max_spec name node init mx : 1 ≤ init ≤ 2 ^ 30 → mx ≤ 2 ^ 30 →
  ∃ t, ts_new_max T0 name node init mx = Ok t ∧ ts_rep (Z.log2_up init) t [] ∧ ts_max_size t = mx.
Proof.
  intros Hi Hm. destruct (fifo_new_spec T0 node init (init <? mx) Hi) as (q & Hq & H & Hr). unfold ts_new_max. rewrite Hq.
  eexists. split; [reflexivity|]. split; [|done]. split; cbn [ts_base ts_max_size]; [done|done|]. rewrite Hr. intros Hlt.
  apply Z.ltb_lt. destruct (round_size_spec init Hi) as (_ & _ & ?). lia.
Qed.

Lemma ts_lift_run {A} (m : M (fifo_queue T) A) t q r :
  m (ts_base t) = (q, r) → ts_lift m t = (mkTS q (ts_max_size t) (ts_name t), r).
Proof. intros Hm. unfold ts_lift. by rewrite Hm. Qed.

(** [add] when the first attempt takes everything, or nothing more can be done. *)
Lemma ts_add_plain k t l vs :
  ts_rep k t l → Z.of_nat (length l) + Z.of_nat (length vs) ≤ 2 ^ k ∨ ts_max_size t ≤ 2 ^ k →
  ∃ t', ts_add T0 vs t = (t', Ok (Z.min (Z.of_nat (length vs)) (2 ^ k - Z.of_nat (length l)))) ∧
    ts_rep k t' (l ++ take (Z.to_nat (2 ^ k - Z.of_nat (length l))) vs).
Proof.
  intros [H Hm Hz] Hc. destruct (rep_add k (ts_base t) l vs H) as (q & Ha & H' & Hr).
  exists (mkTS q (ts_max_size t) (ts_name t)). unfold ts_add. rewrite (mbind_ok _ _ _ _ _ (ts_lift_run _ _ _ _ Ha)).
  rewrite (mbind_ok _ _ _ _ _ eq_refl : mbind' mget _ _ = _). cbn [ts_base ts_max_size].
  destruct (rep_sizes _ _ _ H') as (Hs & _). rewrite Hs, (mbind_ok (mlift (Ok _)) _ _ _ _ eq_refl). split.
  - destruct Hc as [Hc|Hc].
    + rewrite (proj2 (Z.ltb_ge _ (Z.of_nat (length vs)))) by lia. done.
    + rewrite (proj2 (Z.ltb_ge (2 ^ k) _)), andb_false_r by lia. done.
  - split; cbn [ts_base ts_max_size]; [done|done|]. rewrite Hr. done.
Qed.

(** When it has to grow. *)
Lemma ts_add_grow k t l vs :
  ts_rep k t l → 2 ^ k < ts_max_size t → 2 ^ k < Z.of_nat (length l) + Z.of_nat (length vs) →
  let total := Z.of_nat (length l) + Z.of_nat (length vs) in
  ∃ j t1, k ≤ j ≤ 30 ∧ (total ≤ 2 ^ j ∨ ts_max_size t ≤ 2 ^ j) ∧ (∀ i, k ≤ i < j → 2 ^ i < total ∧ 2 ^ i < ts_max_size t) ∧
    ts_add T0 vs t = (t1, if total <=? 2 ^ j then Ok (Z.of_nat (length vs)) else Throw AssertFailed) ∧
    (total ≤ 2 ^ j → ts_rep j t1 (l ++ vs)).
Proof.
  intros [H Hm Hz] Hmx Hbig total. pose proof (rep_len _ _ _ H) as Hlen. pose proof (rep_k _ _ _ H) as Hk.
  set (R := Z.to_nat (2 ^ k - Z.of_nat (length l))).
  destruct (rep_add k (ts_base t) l vs H) as (q & Ha & H' & Hr). rewrite Z.min_r in Ha by lia. fold R in H'.
  destruct (grow_spec 33 k total (ts_max_size t) Hk Hm ltac:(lia)) as (j & Hj & Hg & Hst & Hmin).
  assert (k < j) as Hkj.
  { destruct (decide (j = k)) as [->|]; [|lia]. destruct Hst; unfold total in *; lia. }
  pose proof (pow_bounds j ltac:(lia)) as Hb. pose proof (Z.pow_lt_mono_r 2 k j ltac:(lia) ltac:(lia) Hkj) as Hlt.
  assert (Z.log2_up (2 ^ j) = j) as Hlog by (apply Z.log2_up_pow2; lia).
  destruct (rep_expand T0 k q _ (2 ^ j) H') as (q2 & Hx & H2 & Hr2); [lia|rewrite Hr; by apply Hz|by rewrite Hlog|]. rewrite Hlog in H2.
  destruct (rep_add j q2 _ (drop R vs) H2) as (q3 & Ha3 & H3 & Hr3).
  rewrite length_drop, length_app, length_take in Ha3. rewrite length_app, length_take in H3.
  exists j, (mkTS q3 (ts_max_size t) (ts_name t)). split_and!; [lia|lia|done|done| |].
  - unfold ts_add. rewrite (mbind_ok _ _ _ _ _ (ts_lift_run _ _ _ _ Ha)), (mbind_ok _ _ _ _ _ eq_refl : mbind' mget _ _ = _).
    cbn [ts_base ts_max_size]. destruct (rep_sizes _ _ _ H') as (Hs & _). rewrite Hs, (mbind_ok (mlift (Ok _)) _ _ _ _ eq_refl).
    rewrite (proj2 (Z.ltb_lt (2 ^ k - _) _)), (proj2 (Z.ltb_lt (2 ^ k) _)) by lia. cbn [andb].
    replace (2 ^ k + Z.of_nat (length vs) - (2 ^ k - Z.of_nat (length l))) with total by (unfold total; lia).
    rewrite Hg, (mbind_ok (mlift (Ok _)) _ _ _ _ eq_refl).
    rewrite (mbind_ok _ _ _ _ _ (ts_lift_run (expand_queue T0 (2 ^ j)) (mkTS q (ts_max_size t) (ts_name t)) _ _ Hx)).
    cbn [ts_max_size ts_name]. fold R.
    rewrite (mbind_ok _ _ _ _ _ (ts_lift_run (add (drop R vs)) (mkTS q2 (ts_max_size t) (ts_name t)) _ _ Ha3)). cbn [ts_max_size ts_name].
    destruct (Z.leb_spec total (2 ^ j)); unfold total in *.
    + rewrite (proj2 (Z.eqb_eq _ _)), (mbind_ok (massert true) _ _ _ _ eq_refl) by lia. unfold mret. do 2 f_equal. lia.
    + by rewrite (proj2 (Z.eqb_neq _ _)) by lia.
  - intros Hfit. unfold total in *. rewrite <-(assoc_L (++)) in H3. rewrite (take_ge (drop R vs)) in H3 by (rewrite length_drop; lia).
    rewrite take_drop in H3. split; cbn [ts_base ts_max_size]; [done|done|]. intros _. congruence.
Qed.

(** *** The blocking queue *)

Record bl_rep (k : Z) (b : bl_queue T) (l : list T) : Prop := {
  bl_fifo : fifo_rep k (bl_base b) l;
  bl_max : bl_max_size b ≤ 2 ^ 30;
  bl_resz : 2 ^ k < bl_max_size b → resizable (bl_base b) = true
}.

Lemma fifo_over_readable (vs : list T) : Z.of_nat (length vs) ≤ 2 ^ 31 → readable (fifo_over vs) vs.
Proof.
  intros Hl. split; cbn [start end_ fifo_over]; [done|done|]. intros i x Hi.
  rewrite (loc_mod 31) by done. pose proof (lookup_lt_Some _ _ _ Hi). rewrite Z.add_0_l, Z.mod_small, Nat2Z.id by lia. done.
Qed.

(** Growing before a round: afterwards everything fits, or the queue has
    reached its maximum. *)
Lemma expand_for_round k b l o m :
  bl_rep k b l → readable o m → Z.of_nat (length m) ≤ 2 ^ 30 →
  ∃ k' b', k ≤ k' ∧
    (if (2 ^ k - Z.of_nat (length l) <? Z.of_nat (length m)) && (2 ^ k <? bl_max_size b) then
       bl_expand T0 (Z.min (Z.max (2 ^ k * 2) (Z.of_nat (length l) + Z.of_nat (length m))) (bl_max_size b)) (b, o)
     else ((b, o), Ok true)) = ((b', o), Ok true) ∧
    bl_rep k' b' l ∧ bl_max_size b' = bl_max_size b ∧
    (Z.of_nat (length l) + Z.of_nat (length m) ≤ 2 ^ k' ∨ bl_max_size b ≤ 2 ^ k').
Proof.
  intros [H Hm Hz] Ho Hlm. pose proof (pow_bounds k (rep_k _ _ _ H)) as Hk. pose proof (rep_len _ _ _ H) as Hlen.
  destruct (Z.ltb_spec (2 ^ k - Z.of_nat (length l)) (Z.of_nat (length m))) as [Hbig|Hfit]; cbn [andb].
  2:{ exists k, b. split_and!; [lia|done|done|done|left; lia]. }
  destruct (Z.ltb_spec (2 ^ k) (bl_max_size b)) as [Hgr|Hno].
  2:{ exists k, b. split_and!; [lia|done|done|done|right; lia]. }
  set (n := Z.min _ _). assert (2 ^ k < n ≤ 2 ^ 30) as Hn by lia. destruct (round_size_spec n ltac:(lia)) as (_ & Hj & Hnj).
  destruct (rep_expand T0 k (bl_base b) l n H ltac:(lia) (Hz Hgr) ltac:(lia)) as (q & Hx & H' & Hr).
  exists (Z.log2_up n), (set_base q b). split_and!.
  - apply (Z.pow_le_mono_r_iff 2); lia.
  - unfold bl_expand. by rewrite Hx.
  - by split.
  - done.
  - destruct (Z.le_gt_cases (Z.of_nat (length l) + Z.of_nat (length m)) (2 ^ Z.log2_up n)); [by left|right; lia].
Qed.

Lemma add_round_spec k b l o m :
  bl_rep k b l → readable o m → Z.of_nat (length m) ≤ 2 ^ 30 →
  ∃ k' b' s, let R := 2 ^ k' - Z.of_nat (length l) in k ≤ k' ∧
    add_round T0 (b, o) = ((b', set_start s o), Ok (Z.min R (Z.of_nat (length m)), bool_decide (l = []))) ∧
    bl_rep k' b' (l ++ take (Z.to_nat R) m) ∧ readable (set_start s o) (drop (Z.to_nat R) m) ∧
    bl_max_size b' = bl_max_size b ∧ (Z.of_nat (length m) ≤ R ∨ bl_max_size b ≤ 2 ^ k').
Proof.
  intros Hb Ho Hlm. destruct (rep_sizes _ _ _ (bl_fifo _ _ _ Hb)) as (Hs & He & _).
  pose proof (readable_empty _ _ (rep_read _ _ _ (bl_fifo _ _ _ Hb))) as Hemp.
  destruct (expand_for_round k b l o m Hb Ho Hlm) as (k' & b1 & Hkk & Hx & [H1 Hm1 Hz1] & Hmx & Hfit).
  destruct (add_queue_spec k' (bl_base b1) l o m H1 Ho) as (q' & s & Ha & H2 & Ho2 & Hr2).
  exists k', (set_base q' b1), s. cbn zeta. split_and!; [done| | |done|done|destruct Hfit; [left|right]; lia].
  - unfold add_round. rewrite (mbind_ok _ _ _ _ _ eq_refl : mbind' mget _ _ = _). cbn [fst snd]. cbn zeta.
    rewrite Hs, (mbind_ok (mlift (Ok _)) _ _ _ _ eq_refl), He, (get_num_entries_rep o m Ho), Hemp by lia.
    rewrite (mbind_ok _ _ _ (b1, o) true) by (rewrite <-Hx; by destruct (_ && _)).
    rewrite (mbind_ok _ _ _ (set_base q' b1, set_start s o) (Z.min (2 ^ k' - Z.of_nat (length l)) (Z.of_nat (length m))));
      [done|]. unfold bl_lift. by rewrite Ha.
  - split; cbn [bl_base set_base bl_max_size]; [done|done|]. rewrite Hr2. done.
Qed.
End growing.

(** ** Properties *)

(** C27. A ring queue behaves as a list of bounded length: for every queue made by
    the constructor and every sequence of operations, the results, failed
    assertions included, are those of the list, and at the end the ring holds
    the entries of the list in order, within its capacity. *)
Theorem fifo_refines_list {T} (T0 : T) node size resz ops :
  1 ≤ size ≤ 2 ^ 30 → Forall op_ok ops →
  ∃ q, fifo_new T0 node size resz = Ok q ∧
    let r := run_all (run_op T0) ops q in
    let r' := run_all (spec_op resz) ops (Z.log2_up size, []) in
    r.2 = r'.2 ∧ fifo_rep r'.1.1 r.1 r'.1.2.
Proof.
  intros Hs Hok. destruct (fifo_new_spec T0 node size resz Hs) as (q & Hq & H & <-). exists q. split; [done|].
  by apply ops_simulated.
Qed.

(** [thread_safe_FIFO_queue::add] never loses or reorders an entry.  It adds
    everything when this fits, growing the buffer if it may; a queue that has
    reached its maximal size takes what fits and returns the count; and entries
    that do not even fit in the largest buffer fail the assertion. *)
Theorem ts_add_correct {T} (T0 : T) k t l vs :
  ts_rep k t l →
  let total := Z.of_nat (length l) + Z.of_nat (length vs) in
  (total ≤ 2 ^ k ∨ 2 ^ k < ts_max_size t ∧ total ≤ 2 ^ Z.log2_up (ts_max_size t) →
     ∃ t' k', ts_add T0 vs t = (t', Ok (Z.of_nat (length vs))) ∧ ts_rep k' t' (l ++ vs)) ∧
  (2 ^ k < total → ts_max_size t ≤ 2 ^ k → ∃ t',
     ts_add T0 vs t = (t', Ok (2 ^ k - Z.of_nat (length l))) ∧
     ts_rep k t' (l ++ take (Z.to_nat (2 ^ k - Z.of_nat (length l))) vs)) ∧
  (2 ^ k < ts_max_size t → 2 ^ Z.log2_up (ts_max_size t) < total → (ts_add T0 vs t).2 = Throw AssertFailed).
Proof.
  intros H total. pose proof (rep_k _ _ _ (ts_fifo _ _ _ H)) as Hk0. pose proof (pow_bounds k Hk0) as Hk.
  assert (∀ j, 0 ≤ j → ts_max_size t ≤ 2 ^ j → 2 ^ Z.log2_up (ts_max_size t) ≤ 2 ^ j) as Hup.
  { intros j Hj Hle. apply Z.pow_le_mono_r; [lia|]. destruct (Z.le_gt_cases (ts_max_size t) 0).
    - by rewrite Z.log2_up_nonpos by lia.
    - by apply Z.log2_up_le_pow2. }
  split_and!.
  - intros Hfit. destruct (Z.le_gt_cases total (2 ^ k)) as [Hle|Hgt].
    + destruct (ts_add_plain T0 k t l vs H ltac:(left; done)) as (t' & Ha & Ht'). exists t', k.
      rewrite Z.min_l in Ha by (unfold total in *; lia). by rewrite take_ge in Ht' by (unfold total in *; lia).
    + destruct Hfit as [|[Hmx Hfit]]; [lia|].
      destruct (ts_add_grow T0 k t l vs H Hmx Hgt) as (j & t1 & Hj & Hst & _ & Ha & Ht1). exists t1, j.
      assert (total ≤ 2 ^ j) as Hle by (destruct Hst as [?|Hst]; [done|]; specialize (Hup j ltac:(lia) Hst); lia).
      rewrite Ha. fold total. rewrite (proj2 (Z.leb_le _ _) Hle). split; [done|by apply Ht1].
  - intros Hgt Hmx. destruct (ts_add_plain T0 k t l vs H ltac:(right; done)) as (t' & Ha & Ht'). exists t'.
    by rewrite Z.min_r in Ha by (unfold total in *; lia).
  - intros Hmx Hno. assert (ts_max_size t ≤ 2 ^ Z.log2_up (ts_max_size t)) as Hcap.
    { destruct (decide (ts_max_size t = 1)) as [->|]; [done|]. apply Z.log2_up_spec. lia. }
    destruct (ts_add_grow T0 k t l vs H Hmx ltac:(unfold total in *; lia)) as (j & t1 & Hj & _ & Hmin & Ha & _).
    rewrite Ha. cbn [snd]. fold total. rewrite (proj2 (Z.leb_gt _ _)); [done|].
    destruct (Z.le_gt_cases j (Z.log2_up (ts_max_size t))) as [Hle|Hgt].
    + pose proof (Z.pow_le_mono_r 2 j (Z.log2_up (ts_max_size t)) ltac:(lia) Hle). lia.
    + exfalso. destruct (decide (k ≤ Z.log2_up (ts_max_size t))) as [Hkl|Hkl].
      * destruct (Hmin (Z.log2_up (ts_max_size t)) ltac:(lia)). lia.
      * pose proof (Z.pow_lt_mono_r 2 (Z.log2_up (ts_max_size t)) k ltac:(lia) ltac:(lia) ltac:(lia)). lia.
Qed.

(** C33. [blocking_FIFO_queue::add] of a queue moves its entries in order and
    loses none: after two rounds at most it has either moved all of them and
    returns their number, or it waits with the queue full and at its maximal
    size, and the entries not yet moved are still in the source. *)
Theorem bl_add_conserves {T} (T0 : T) k b l o m :
  bl_rep k b l → readable o m → Z.of_nat (length m) ≤ 2 ^ 30 →
  ∃ b' o' k' r woken n,
    bl_add_queue T0 2 (b, o) = ((b', o'), Ok (r, woken)) ∧ (n ≤ length m)%nat ∧
    bl_rep k' b' (l ++ take n m) ∧ readable o' (drop n m) ∧
    (r = Returned (Z.of_nat (length m)) ∧ n = length m ∨
     r = Blocked ∧ Z.of_nat (length l + n) = 2 ^ k' ∧ bl_max_size b' ≤ 2 ^ k').
Proof.
  intros Hb Ho Hlm. pose proof (readable_empty o m Ho) as Hem. unfold bl_add_queue. cbn [add_partial].
  rewrite (mbind_ok _ _ _ _ _ eq_refl : mbind' mget _ _ = _). cbn [snd]. rewrite Hem.
  destruct m as [|x m].
  { eexists b, o, k, _, _, 0%nat. rewrite bool_decide_true by done. split_and!; [reflexivity|done|by rewrite app_nil_r|done|by left]. }
  rewrite bool_decide_false by done. set (m' := x :: m) in *. clearbody m'.
  destruct (add_round_spec T0 k b l o m' Hb Ho Hlm) as (k' & b1 & s & Hkk & Hrun & Hb1 & Ho1 & Hmx & Hfit). cbn zeta in *.
  set (R := 2 ^ k' - Z.of_nat (length l)) in *. pose proof (rep_k _ _ _ (bl_fifo _ _ _ Hb1)) as Hk'.
  pose proof (pow_bounds k' Hk') as Hpb. pose proof (rep_len _ _ _ (bl_fifo _ _ _ Hb)) as Hlen.
  pose proof (Z.pow_le_mono_r 2 k k' ltac:(lia) Hkk) as Hpk.
  rewrite (mbind_ok _ _ _ _ _ Hrun). cbn [fst snd]. rewrite (proj2 (Z.ltb_lt _ INT_MAX)) by (unfold INT_MAX; lia).
  rewrite (mbind_ok _ _ _ _ _ eq_refl : mbind' mget _ _ = _). cbn [fst snd].
  destruct (rep_sizes _ _ _ (bl_fifo _ _ _ Hb1)) as (_ & _ & _ & Hf). rewrite Hf, (mbind_ok (mlift (Ok _)) _ _ _ _ eq_refl).
  rewrite (readable_empty _ _ Ho1), length_app, length_take. destruct (Z.le_gt_cases (Z.of_nat (length m')) R) as [Hall|Hpart].
  - rewrite (bool_decide_true (drop _ _ = [])), andb_false_r by (apply drop_ge; lia).
    rewrite (mbind_ok _ _ _ _ _ eq_refl : mbind' mget _ _ = _). cbn [snd]. rewrite (readable_empty _ _ Ho1).
    rewrite bool_decide_true by (apply drop_ge; lia).
    eexists b1, _, k', _, _, (length m'). rewrite take_ge in Hb1 by lia. rewrite drop_ge in Ho1 by lia. rewrite take_ge, drop_ge by lia.
    split_and!; [reflexivity|done|done|done|left]. split; [f_equal; lia|done].
  - rewrite (bool_decide_false (drop _ _ = [])) by (intros He; apply (f_equal length) in He; rewrite length_drop in He; cbn in He; lia).
    rewrite (proj2 (Z.leb_le _ _)) by lia. cbn [andb negb].
    eexists (count_full b1), _, k', _, _, (Z.to_nat R). split_and!; [reflexivity|lia|by destruct Hb1; split|done|right].
    split_and!; [done|lia|]. cbn [bl_max_size count_full]. destruct Hfit; lia.
Qed.

(** *** Arrays *)

(** The storage has [capacity] entries. *)
Definition ea_wf {T} (size : Z) (a : embedded_array T) : Prop :=
  0 ≤ size ∧ Z.of_nat (length (ea_buf a)) = size ∧
  match real_buf a with
  | Inline => capacity a = size
  | Heap l => capacity a = Z.of_nat (length l)
  | Wild => False
  end.

(** [resize] keeps the entries and the invariant; it never shrinks. *)
Lemma ea_resize_keeps {T} (T0 : T) size n (a : embedded_array T) :
  ea_wf size a → ∃ a', ea_resize T0 n a = Ok a' ∧ ea_wf size a' ∧ capacity a' = Z.max n (capacity a) ∧
    ∀ idx, 0 ≤ idx < capacity a → ea_get idx a' = ea_get idx a.
Proof.
  intros (H0 & Hb & Hr). unfold ea_resize. destruct (Z.leb_spec n (capacity a)).
  { exists a. split_and!; [done|done|lia|done]. }
  destruct (real_buf a) as [|l|] eqn:Hrb; [| |done].
  - eexists. split; [reflexivity|]. split_and!; cbn [ea_buf real_buf capacity].
    + split_and!; [done|done|]. cbn. rewrite length_app, length_drop, length_replicate. lia.
    + lia.
    + intros idx Hi. unfold ea_get, data. cbn [real_buf capacity ea_buf]. rewrite Hrb.
      rewrite (proj2 (Z.ltb_lt _ _)), (proj2 (Z.ltb_lt idx (capacity a))) by lia. cbn [negb rbind].
      by rewrite (lookup_app_l (ea_buf a)) by lia.
  - eexists. split; [reflexivity|]. split_and!; cbn [ea_buf real_buf capacity].
    + split_and!; [done|done|]. cbn. rewrite length_app, length_take, length_drop, length_replicate. lia.
    + lia.
    + intros idx Hi. unfold ea_get, data. cbn [real_buf capacity ea_buf]. rewrite Hrb.
      rewrite (proj2 (Z.ltb_lt _ _)), (proj2 (Z.ltb_lt idx (capacity a))) by lia. cbn [negb rbind].
      by rewrite take_ge, lookup_app_l by lia.
Qed.

(** The copy constructor frees a pointer that was never set. *)
Lemma ea_copy_fails {T} (T0 : T) size (arr : embedded_array T) garbage : ea_copy T0 size arr garbage = Throw Segfault.
Proof. done. Qed.

(** *** Witnesses *)

Lemma fifo_refines_list_witness :
  ∃ q, fifo_new 0 1 2 true = Ok q ∧
    (run_all (run_op 0) [Push 1; Push 2; Push 3; Expand 3; Add [4; 5; 6]; Pop; Back; Fetch 5] q).2
      = [Ok ONone; Ok ONone; Throw AssertFailed; Ok ONone; Ok (ONum 2); Ok (OVal 1); Ok (OVal 5); Ok (OList [2; 4; 5])].
Proof.
  destruct (fifo_refines_list 0 1 2 true [Push 1; Push 2; Push 3; Expand 3; Add [4; 5; 6]; Pop; Back; Fetch 5])
    as (q & Hq & Hr & _).
  - lia.
  - repeat (apply Forall_cons_2; [simpl; (exact I || lia)|]). apply Forall_nil_2.
  - exists q. split; [exact Hq|]. rewrite Hr. by vm_compute.
Defined.

Definition ex_ts : ts_queue Z := mkTS (mkFifo 1 [0; 0] true 0 0 true 0) 8 "q".

Lemma ex_fifo_rep r : fifo_rep 1 (mkFifo 1 [0; 0] true 0 0 r 0) [].
Proof. split; cbn; [lia|done|done|done|lia|]. by split; cbn. Qed.

Lemma ts_add_correct_witness :
  ∃ t' k', ts_add 0 [1; 2; 3; 4; 5] ex_ts = (t', Ok 5) ∧ ts_rep k' t' [1; 2; 3; 4; 5].
Proof.
  destruct (ts_add_correct 0 1 ex_ts [] [1; 2; 3; 4; 5]) as (H1 & _ & _).
  - split; [apply ex_fifo_rep|cbn; lia|done].
  - apply H1. right. split; [cbn; lia|by vm_compute].
Defined.

Definition ex_bl : bl_queue Z := mkBL (mkFifo 1 [0; 0] true 0 0 false 0) 0 0 2 false "q".

Lemma bl_add_conserves_witness :
  ∃ b' o' r woken, bl_add_queue 0 2 (ex_bl, fifo_over [7; 8; 9]) = ((b', o'), Ok (r, woken)).
Proof.
  destruct (bl_add_conserves 0 1 ex_bl [] (fifo_over [7; 8; 9]) [7; 8; 9]) as (b' & o' & k' & r & woken & n & H1 & _).
  - split; [apply ex_fifo_rep|cbn; lia|cbn; lia].
  - apply fifo_over_readable. cbn. lia.
  - cbn. lia.
  - exists b', o', r, woken. exact H1.
Defined.
