(* ===== verification/PageArray.v ===== *)
(** * SAFS byte arrays over cached pages: [SAFS/libsafs/cache.h] and [cache.cpp]

    The data of a request lies in pages that are not contiguous.  A
    [page_byte_array] gives access to it by copying ([memcpy]), by a random
    access iterator ([const_iterator]) and by a sequential one
    ([seq_const_iterator], with the loop macro [PAGE_FOREACH]).

    A pointer is the list of the bytes readable from it; reading past them is a
    [Segfault].  An element of type [T] is the list of its [sizeof(T)] bytes.
    [off_t] is signed 64 bits wide, [size_t] unsigned; the conversions that the
    comparisons and divisions of the two make are written out. *)
From S2P Require Import Prelude.
From stdpp Require Import options.
Open Scope Z_scope.

Definition PAGE_SIZE : Z := 4096.
Definition MIN_BLOCK_SIZE : Z := 512.

Definition ROUND (off base : Z) : Z := Z.land off (Z.lnot (base - 1)).
Definition ROUND_PAGE (off : Z) : Z := Z.land off (Z.lnot (PAGE_SIZE - 1)).
Definition ROUNDUP_PAGE (off : Z) : Z := Z.land (off + PAGE_SIZE - 1) (Z.lnot (PAGE_SIZE - 1)).

(** ** Memory *)

Definition slice (m : list Z) (off n : Z) : list Z := take (Z.to_nat n) (drop (Z.to_nat off) m).

Definition mem_read (m : list Z) (off n : Z) : res (list Z) :=
  if (0 <=? off) && (0 <=? n) && (off + n <=? Z.of_nat (length m)) then Ok (slice m off n)
  else Throw Segfault.

Definition mem_write (buf : list Z) (at_ : Z) (bs : list Z) : res (list Z) :=
  if (0 <=? at_) && (at_ + Z.of_nat (length bs) <=? Z.of_nat (length buf)) then
    Ok (take (Z.to_nat at_) buf ++ bs ++ drop (Z.to_nat at_ + length bs) buf)
  else Throw Segfault.

(** ** [page_byte_array] *)

(** The virtual methods of the class; [get_page] takes an [int]. *)
Record page_byte_array := mkArr {
  get_offset : Z;
  get_offset_in_first_page : Z;
  get_size : Z;
  get_page : Z → res (list Z)
}.

Definition page_at (a : page_byte_array) (pg_idx : Z) : res (list Z) := get_page a (s32 pg_idx).

(** The loop over the whole pages in the middle of the range. *)
Fixpoint copy_pages (fuel : nat) (a : page_byte_array) (pg_idx last_pg_idx copied : Z) (buf : list Z)
  : res (Z * Z * list Z) :=
  match fuel with
  | O => Throw OutOfFuel
  | S f =>
      if pg_idx <? last_pg_idx then
        let? pg := page_at a pg_idx in
        let? bs := mem_read pg 0 PAGE_SIZE in
        let? buf' := mem_write buf copied bs in
        copy_pages f a (pg_idx + 1) last_pg_idx (copied + PAGE_SIZE) buf'
      else Ok (pg_idx, copied, buf)
  end.

Definition memcpy (a : page_byte_array) (rel_off : Z) (buf : list Z) (size : Z) : res (list Z) :=
  if size =? 0 then Ok buf else
  let off := get_offset_in_first_page a + rel_off in
  let end_ := s64 (off + size) in
  if negb (u64 end_ <=? u64 (get_size a + get_offset_in_first_page a)) then Throw AssertFailed else
  let page_begin := ROUND off PAGE_SIZE in
  if PAGE_SIZE <? end_ - page_begin then
    let pg_idx := off `quot` PAGE_SIZE in
    let last_pg_idx := end_ `quot` PAGE_SIZE in
    let off_in_pg := off `rem` PAGE_SIZE in
    let part1_size := PAGE_SIZE - off_in_pg in
    let? pg := page_at a pg_idx in
    let? bs := mem_read pg off_in_pg part1_size in
    let? buf := mem_write buf 0 bs in
    let? r := copy_pages (S (Z.to_nat (last_pg_idx - (pg_idx + 1)))) a (pg_idx + 1) last_pg_idx
                part1_size buf in
    let '(pg_idx, copied, buf) := r in
    let part2_size := u64 (size - copied) in
    if 0 <? part2_size then
      let? pg := page_at a pg_idx in
      let? bs := mem_read pg 0 part2_size in
      mem_write buf copied bs
    else Ok buf
  else
    let? pg := page_at a (off `quot` PAGE_SIZE) in
    let? bs := mem_read pg (off `rem` PAGE_SIZE) size in
    mem_write buf 0 bs.

(** [get<T>] and [get_off_in_bytes<T>]; [sz] is [sizeof(T)]. *)
Definition get (a : page_byte_array) (sz idx : Z) : res (list Z) :=
  memcpy a (s64 (sz * idx)) (replicate (Z.to_nat sz) 0) sz.
Definition get_off_in_bytes (a : page_byte_array) (sz idx : Z) : res (list Z) :=
  memcpy a idx (replicate (Z.to_nat sz) 0) sz.

(** ** [const_iterator<T>] *)

Record const_iterator := mkCI { ci_off : Z; ci_end : Z }.

(** The assertion on alignment shared by the constructors of the iterators. *)
Definition aligned (sz off end_ : Z) : bool :=
  ((PAGE_SIZE - off `rem` PAGE_SIZE) mod sz =? 0) || (end_ <? PAGE_SIZE).

Definition new_const_iterator (a : page_byte_array) (sz byte_off byte_end : Z) : res const_iterator :=
  let off := get_offset_in_first_page a + byte_off in
  let end_ := get_offset_in_first_page a + byte_end in
  if negb (u64 byte_end <=? get_size a) then Throw AssertFailed else
  if negb (aligned sz off end_) then Throw AssertFailed else
  if negb (u64 (byte_end - byte_off) mod sz =? 0) then Throw AssertFailed else
  Ok (mkCI off end_).

Definition ci_deref (a : page_byte_array) (sz : Z) (it : const_iterator) : res (list Z) :=
  let pg_idx := ci_off it `quot` PAGE_SIZE in
  let off_in_pg := ci_off it `rem` PAGE_SIZE in
  let? data := page_at a pg_idx in
  mem_read data off_in_pg sz.

(** The dividend is signed and the divisor a [size_t]: the division is that of
    unsigned numbers, converted back to the signed [difference_type]. *)
Definition ci_minus (sz : Z) (it it' : const_iterator) : Z := s64 (u64 (ci_off it - ci_off it') / sz).

Definition ci_advance (sz num : Z) (it : const_iterator) : res const_iterator :=
  let off := s64 (ci_off it + u64 (num * sz)) in
  if off <=? ci_end it then Ok (mkCI off (ci_end it)) else Throw AssertFailed.

Definition ci_incr (sz : Z) (it : const_iterator) : const_iterator :=
  mkCI (s64 (ci_off it + sz)) (ci_end it).

Definition ci_eqb (it it' : const_iterator) : bool := ci_off it =? ci_off it'.

Definition ci_has_next (sz : Z) (it : const_iterator) : bool := sz <=? u64 (ci_end it - ci_off it).

Definition begin (a : page_byte_array) (sz byte_off : Z) : res const_iterator :=
  new_const_iterator a sz byte_off (s64 (get_size a)).
Definition end_it (a : page_byte_array) (sz : Z) : res const_iterator :=
  new_const_iterator a sz (s64 (get_size a)) (s64 (get_size a)).
Definition get_iterator (a : page_byte_array) (sz byte_off byte_end : Z)
  : res (const_iterator * const_iterator) :=
  let? b := new_const_iterator a sz byte_off byte_end in
  let? e := new_const_iterator a sz byte_end byte_end in
  Ok (b, e).

(** [for (; it != e; ++it) use( *it)] and [for (; it.has_next(); ++it) use( *it)]:
    the elements used. *)
Fixpoint ci_until (fuel : nat) (a : page_byte_array) (sz : Z) (it e : const_iterator) : res (list (list Z)) :=
  match fuel with
  | O => Throw OutOfFuel
  | S f =>
      if ci_eqb it e then Ok [] else
      let? x := ci_deref a sz it in
      let? xs := ci_until f a sz (ci_incr sz it) e in Ok (x :: xs)
  end.
Fixpoint ci_drain (fuel : nat) (a : page_byte_array) (sz : Z) (it : const_iterator) : res (list (list Z)) :=
  match fuel with
  | O => Throw OutOfFuel
  | S f =>
      if ci_has_next sz it then
        let? x := ci_deref a sz it in
        let? xs := ci_drain f a sz (ci_incr sz it) in Ok (x :: xs)
      else Ok []
  end.

(** The writable [iterator]: its constructor ends in [assert(0)]. *)
Definition new_iterator (a : page_byte_array) (sz byte_off byte_end : Z) : res const_iterator :=
  let? _ := new_const_iterator a sz byte_off byte_end in Throw AssertFailed.

(** ** [seq_const_page_iterator<T>] *)

(** A page, and the byte offsets of [data] and [data_end] in it. *)
Record page_iter := mkPI { pi_page : list Z; pi_data : Z; pi_end : Z }.

Definition null_page_iter : page_iter := mkPI [] 0 0.

Definition pi_num_entries (sz : Z) (p : page_iter) : Z := s32 ((pi_end p - pi_data p) `quot` sz).
Definition pi_has_next (p : page_iter) : bool := pi_data p <? pi_end p.
Definition pi_curr (sz : Z) (p : page_iter) : res (list Z) := mem_read (pi_page p) (pi_data p) sz.
Definition pi_next (sz : Z) (p : page_iter) : res (list Z * page_iter) :=
  let? x := mem_read (pi_page p) (pi_data p) sz in
  Ok (x, mkPI (pi_page p) (pi_data p + sz) (pi_end p)).

(** ** [seq_const_iterator<T>] *)

Record seq_iter := mkSI { si_page : page_iter; si_start : Z; si_off : Z; si_end : Z }.

(** The iterator over the rest of the page that [off] is in. *)
Definition page_rest (a : page_byte_array) (off end_ : Z) : res page_iter :=
  let pg_end := if PAGE_SIZE <=? end_ - ROUND_PAGE off then PAGE_SIZE else end_ - ROUND_PAGE off in
  let? pg := page_at a (off `quot` PAGE_SIZE) in
  Ok (mkPI pg (off `rem` PAGE_SIZE) pg_end).

Definition new_seq_iter (a : page_byte_array) (sz byte_off byte_end : Z) : res seq_iter :=
  if negb (u64 byte_end <=? get_size a) then Throw AssertFailed else
  if negb (byte_off <=? byte_end) then Throw AssertFailed else
  let off := get_offset_in_first_page a + byte_off in
  let end_ := get_offset_in_first_page a + byte_end in
  let? p := if byte_off =? byte_end then Ok null_page_iter else page_rest a off end_ in
  if negb (aligned sz off end_) then Throw AssertFailed else
  if negb (u64 (byte_end - byte_off) mod sz =? 0) then Throw AssertFailed else
  Ok (mkSI p off off end_).

Definition si_has_next (a : page_byte_array) (it : seq_iter) : res (bool * seq_iter) :=
  if pi_has_next (si_page it) then Ok (true, it) else
  let off := ROUNDUP_PAGE (si_off it + 1) in
  if off <? si_end it then
    let? pg := page_at a (off `quot` PAGE_SIZE) in
    Ok (true, mkSI (mkPI pg 0 (Z.min PAGE_SIZE (si_end it - off))) (si_start it) off (si_end it))
  else Ok (false, mkSI (si_page it) (si_start it) off (si_end it)).

(** [(end - off) / sizeof(T)], again an unsigned division, returned as [int]. *)
Definition get_num_tot_entries (sz : Z) (it : seq_iter) : Z := s32 (u64 (si_end it - si_off it) / sz).
Definition get_num_entries_in_page (sz : Z) (it : seq_iter) : Z := pi_num_entries sz (si_page it).

Definition si_next (sz : Z) (it : seq_iter) : res (list Z * seq_iter) :=
  let? r := pi_next sz (si_page it) in
  Ok (r.1, mkSI r.2 (si_start it) (si_off it) (si_end it)).

Definition si_move_to (a : page_byte_array) (sz idx : Z) (it : seq_iter) : res (bool * seq_iter) :=
  let off := s64 (si_start it + u64 (idx * sz)) in
  if si_end it <=? off then Ok (false, mkSI (si_page it) (si_start it) off (si_end it)) else
  let? p := page_rest a off (si_end it) in
  Ok (true, mkSI p (si_start it) off (si_end it)).

(** [curr] is [const] but advances the iterator to the page of the element. *)
Definition si_curr (a : page_byte_array) (sz : Z) (it : seq_iter) : res (list Z * seq_iter) :=
  let? r := si_has_next a it in
  if r.1 then let? x := pi_curr sz (si_page r.2) in Ok (x, r.2) else Throw AssertFailed.

(** [while (it.has_next()) use(it.next())]: the elements used. *)
Fixpoint si_drain (fuel : nat) (a : page_byte_array) (sz : Z) (it : seq_iter) : res (list (list Z)) :=
  match fuel with
  | O => Throw OutOfFuel
  | S f =>
      let? r := si_has_next a it in
      if r.1 then
        let? x := si_next sz r.2 in
        let? xs := si_drain f a sz x.2 in Ok (x.1 :: xs)
      else Ok []
  end.

(** [PAGE_FOREACH(T, v, it) use(page_foreach_idx, v); PAGE_FOREACH_END]: the
    inner loop compares its counter with the number of entries that remain,
    which decreases as it runs.  [page_foreach_idx] is an [int]; the [Z] here agrees
    with it for fewer than [2^31] elements. *)
Fixpoint foreach_inner (fuel : nat) (sz i idx : Z) (it : seq_iter) : res (list (Z * list Z) * Z * seq_iter) :=
  match fuel with
  | O => Throw OutOfFuel
  | S f =>
      if i <? get_num_entries_in_page sz it then
        let? x := si_next sz it in
        let? r := foreach_inner f sz (i + 1) (idx + 1) x.2 in
        Ok ((idx, x.1) :: r.1.1, r.1.2, r.2)
      else Ok ([], idx, it)
  end.
Fixpoint page_foreach (fuel : nat) (a : page_byte_array) (sz idx : Z) (it : seq_iter)
  : res (list (Z * list Z)) :=
  match fuel with
  | O => Throw OutOfFuel
  | S f =>
      let? r := si_has_next a it in
      if r.1 then
        let? r := foreach_inner (S (Z.to_nat PAGE_SIZE)) sz 0 idx r.2 in
        let? xs := page_foreach f a sz r.1.2 r.2 in Ok (r.1.1 ++ xs)
      else Ok []
  end.

(** ** The arrays of the program *)

(** A pointer into a contiguous buffer. *)
Definition ptr_add (buf : list Z) (off : Z) : res (list Z) :=
  if (0 <=? off) && (off <=? Z.of_nat (length buf)) then Ok (drop (Z.to_nat off) buf) else Throw Segfault.

(** [in_mem_byte_array]: a contiguous buffer that starts at the page of the
    request.  [pg_idx * PAGE_SIZE] is an [int] product. *)
Definition in_mem_byte_array (off size : Z) (pages : list Z) : page_byte_array :=
  mkArr off (off `rem` PAGE_SIZE) size (λ pg_idx, ptr_add pages (s32 (pg_idx * PAGE_SIZE))).

(** [direct_byte_array]: a contiguous buffer that starts at the disk block of
    the request, not at its page. *)
Definition direct_byte_array (req_off size : Z) (buf : list Z) : page_byte_array :=
  mkArr req_off (req_off - ROUND req_off MIN_BLOCK_SIZE) size
    (λ pg_idx, ptr_add buf (s32 (pg_idx * PAGE_SIZE))).

(** [original_req_byte_array]: the cached pages of a request. *)
Definition num_covered_pages (off size : Z) : Z := (ROUNDUP_PAGE (off + size) - ROUND_PAGE off) `quot` PAGE_SIZE.
Definition original_req_byte_array (off size : Z) (pages : list (list Z)) : page_byte_array :=
  mkArr off (off `rem` PAGE_SIZE) size
    (λ pg_idx, if pg_idx <? 0 then Throw Segfault else
               match pages !! Z.to_nat pg_idx with Some p => Ok p | None => Throw Segfault end).

(** [simple_page_byte_array]: one cached page. *)
Definition simple_page_byte_array (off size : Z) (p : list Z) : page_byte_array :=
  mkArr off (off `rem` PAGE_SIZE) size (λ idx, if idx =? 0 then Ok p else Throw AssertFailed).

(** [sub_page_byte_array]: the part of an array from [off] on. *)
Definition sub_page_byte_array (orig : page_byte_array) (off : Z) : res page_byte_array :=
  if u64 off <=? get_size orig then
    Ok (mkArr (off + get_offset orig)
          ((off + get_offset_in_first_page orig) `rem` PAGE_SIZE)
          (u64 (get_size orig - off))
          (λ idx, get_page orig (s32 ((off + get_offset_in_first_page orig) `quot` PAGE_SIZE + idx))))
  else Throw AssertFailed.

(** ** What an array promises

    [ArrayHolds a bytes]: the pages of [a] hold [bytes], after the bytes [pre] of
    the first page that precede the request.  The last page may be short; a page
    pointer may give access to more than its page. *)
Class ArrayHolds (a : page_byte_array) (bytes : list Z) : Prop := {
  holds_size : get_size a = Z.of_nat (length bytes);
  holds_ofs : 0 ≤ get_offset_in_first_page a;
  holds_bound : get_offset_in_first_page a + Z.of_nat (length bytes) ≤ 2 ^ 43;
  holds_pages : ∃ pre,
    Z.of_nat (length pre) = get_offset_in_first_page a ∧
    ∀ i, 0 ≤ i → i * PAGE_SIZE < Z.of_nat (length (pre ++ bytes)) →
      ∃ pg, get_page a i = Ok pg ∧ slice (pre ++ bytes) (i * PAGE_SIZE) PAGE_SIZE `prefix_of` pg
}.

(** The [n] elements of [sz] bytes from [off] on. *)
Fixpoint elems (bytes : list Z) (sz : Z) (n : nat) (off : Z) : list (list Z) :=
  match n with O => [] | S n' => slice bytes off sz :: elems bytes sz n' (off + sz) end.

(** A list with its positions, counted from [idx]. *)
Fixpoint number {A} (idx : Z) (l : list A) : list (Z * A) :=
  match l with [] => [] | x :: l' => (idx, x) :: number (idx + 1) l' end.

(** ** Slices *)

Lemma length_slice m o n : 0 ≤ o → 0 ≤ n → o + n ≤ Z.of_nat (length m) → Z.of_nat (length (slice m o n)) = n.
Proof. intros. unfold slice. rewrite length_take, length_drop. lia. Qed.

Lemma slice_app m o n n' : 0 ≤ o → 0 ≤ n → 0 ≤ n' → slice m o (n + n') = slice m o n ++ slice m (o + n) n'.
Proof.
  intros. unfold slice. rewrite (Z2Nat.inj_add n n'), (Z2Nat.inj_add o n), <-drop_drop by lia.
  symmetry. apply take_take_drop.
Qed.

Lemma slice_0 m o : slice m o 0 = [].
Proof. done. Qed.

Lemma slice_slice m o n o' n' :
  0 ≤ o → 0 ≤ o' → 0 ≤ n' → o' + n' ≤ n → slice (slice m o n) o' n' = slice m (o + o') n'.
Proof.
  intros. unfold slice. rewrite (Z2Nat.inj_add o o'), <-drop_drop by lia.
  rewrite skipn_firstn_comm, take_take. f_equal. lia.
Qed.

Lemma slice_prefix p m o n :
  p `prefix_of` m → 0 ≤ o → 0 ≤ n → o + n ≤ Z.of_nat (length p) → slice m o n = slice p o n.
Proof.
  intros [k ->] ???. unfold slice. rewrite drop_app_le by lia. rewrite take_app_le; [done|].
  rewrite length_drop. lia.
Qed.

Lemma slice_shift pre m o n :
  0 ≤ o → slice (pre ++ m) (Z.of_nat (length pre) + o) n = slice m o n.
Proof.
  intros. unfold slice. rewrite Z2Nat.inj_add, Nat2Z.id by lia. rewrite <-drop_drop, drop_app_length. done.
Qed.

Lemma elems_shift pre m sz n o :
  0 ≤ sz → 0 ≤ o → elems (pre ++ m) sz n (Z.of_nat (length pre) + o) = elems m sz n o.
Proof.
  intros Hsz. revert o. induction n as [|n IH]; intros o Ho; [done|]. simpl.
  rewrite slice_shift by done. f_equal. rewrite <-(IH (o + sz)) by lia. f_equal. lia.
Qed.

Lemma elems_app m sz j n o : elems m sz (j + n) o = elems m sz j o ++ elems m sz n (o + Z.of_nat j * sz).
Proof.
  revert o. induction j as [|j IH]; intros o; simpl; [f_equal; lia|].
  rewrite IH. do 3 f_equal. lia.
Qed.

Lemma length_elems m sz n o : length (elems m sz n o) = n.
Proof. revert o. induction n as [|n IH]; intros o; simpl; [done|]. by rewrite IH. Qed.

Lemma number_app {A} idx (l l' : list A) : number idx (l ++ l') = number idx l ++ number (idx + Z.of_nat (length l)) l'.
Proof.
  revert idx. induction l as [|x l IH]; intros idx; simpl; [f_equal; lia|].
  rewrite IH. do 3 f_equal. lia.
Qed.

Lemma mem_write_spec pre old bs post :
  length old = length bs →
  mem_write (pre ++ old ++ post) (Z.of_nat (length pre)) bs = Ok (pre ++ bs ++ post).
Proof.
  intros E. unfold mem_write. rewrite !length_app, Nat2Z.id.
  rewrite (proj2 (Z.leb_le _ _)) by lia. rewrite (proj2 (Z.leb_le _ _)) by lia. simpl.
  rewrite take_app_length. rewrite <-drop_drop, drop_app_length, <-E, drop_app_length. done.
Qed.

Lemma mem_write_front old bs post :
  length old = length bs → mem_write (old ++ post) 0 bs = Ok (bs ++ post).
Proof. apply (mem_write_spec []). Qed.

(** ** Machine integers and pages *)

Lemma round_pow2 k off : 0 ≤ k → Z.land off (Z.lnot (2 ^ k - 1)) = off - off mod 2 ^ k.
Proof.
  intros Hk. replace (2 ^ k - 1) with (Z.ones k) by (rewrite Z.ones_equiv; lia).
  rewrite <-Z.ldiff_land, Z.ldiff_ones_r by done. rewrite Z.shiftl_mul_pow2, Z.shiftr_div_pow2 by done.
  pose proof (Z.div_mod off (2 ^ k)). lia.
Qed.

Lemma round_page off : ROUND_PAGE off = off - off mod PAGE_SIZE.
Proof. apply (round_pow2 12). lia. Qed.
Lemma round_base off : ROUND off PAGE_SIZE = off - off mod PAGE_SIZE.
Proof. apply (round_pow2 12). lia. Qed.
Lemma roundup_page off : ROUNDUP_PAGE off = (off + PAGE_SIZE - 1) - (off + PAGE_SIZE - 1) mod PAGE_SIZE.
Proof. apply (round_pow2 12). lia. Qed.

Lemma page_split off : 0 ≤ off →
  off = (off / PAGE_SIZE) * PAGE_SIZE + off mod PAGE_SIZE ∧ 0 ≤ off mod PAGE_SIZE < PAGE_SIZE ∧ 0 ≤ off / PAGE_SIZE ∧
  off `quot` PAGE_SIZE = off / PAGE_SIZE ∧ off `rem` PAGE_SIZE = off mod PAGE_SIZE.
Proof.
  intros. unfold PAGE_SIZE. rewrite Z.quot_div_nonneg, Z.rem_mod_nonneg by lia.
  pose proof (Z.div_mod off 4096). pose proof (Z.mod_pos_bound off 4096). pose proof (Z.div_pos off 4096). lia.
Qed.

(** ** Reading from the pages of an array *)

Section array.
Context (a : page_byte_array) (bytes pre : list Z).
Let mem := pre ++ bytes.
Let ofs := get_offset_in_first_page a.
Context (Hpre : Z.of_nat (length pre) = ofs).
Context (Hbound : Z.of_nat (length mem) ≤ 2 ^ 43).
Context (Hpages : ∀ i, 0 ≤ i → i * PAGE_SIZE < Z.of_nat (length mem) →
  ∃ pg, get_page a i = Ok pg ∧ slice mem (i * PAGE_SIZE) PAGE_SIZE `prefix_of` pg).

Lemma page_read k : 0 ≤ k → k * PAGE_SIZE < Z.of_nat (length mem) →
  ∃ pg, page_at a k = Ok pg ∧
    ∀ d n, 0 ≤ d → 0 ≤ n → d + n ≤ PAGE_SIZE → k * PAGE_SIZE + d + n ≤ Z.of_nat (length mem) →
      mem_read pg d n = Ok (slice mem (k * PAGE_SIZE + d) n).
Proof using Hbound Hpages.
  intros Hk Hlt. destruct (Hpages k Hk Hlt) as (pg & Hpg & Hp). exists pg. split.
  { unfold page_at. rewrite s32_small; [done|]. unfold PAGE_SIZE in *. lia. }
  intros d n Hd Hn Hdn Hlen. unfold mem_read.
  assert (Hl : d + n ≤ Z.of_nat (length (slice mem (k * PAGE_SIZE) PAGE_SIZE))).
  { unfold slice. rewrite length_take, length_drop. unfold PAGE_SIZE in *. lia. }
  pose proof (prefix_length _ _ Hp) as Hl2.
  rewrite !(proj2 (Z.leb_le _ _)) by lia. simpl. f_equal.
  rewrite (slice_prefix _ _ _ _ Hp) by lia. apply slice_slice; unfold PAGE_SIZE in *; lia.
Qed.

Lemma copy_pages_spec last fuel p copied done_ old rest :
  0 ≤ p ≤ last → last * PAGE_SIZE ≤ Z.of_nat (length mem) → last - p < Z.of_nat fuel →
  copied = Z.of_nat (length done_) →
  Z.of_nat (length old) = (last - p) * PAGE_SIZE →
  copy_pages fuel a p last copied (done_ ++ old ++ rest) =
    Ok (last, copied + (last - p) * PAGE_SIZE,
        done_ ++ slice mem (p * PAGE_SIZE) ((last - p) * PAGE_SIZE) ++ rest).
Proof using Hbound Hpages.
  revert p copied done_ old. induction fuel as [|fuel IH]; intros p copied dn old Hp Hlast Hf -> Hold; [lia|].
  simpl. destruct (Z.ltb_spec p last) as [Hlt|Hge].
  2:{ assert (p = last) as -> by lia. rewrite Z.sub_diag in *. destruct old; [|simpl in *; lia].
      rewrite Z.mul_0_l, slice_0, Z.add_0_r. done. }
  destruct (page_read p) as (pg & -> & Hrd); [lia|unfold PAGE_SIZE in *; lia|]. simpl.
  rewrite Hrd by (unfold PAGE_SIZE in *; lia). simpl. rewrite Z.add_0_r.
  set (w := Z.to_nat PAGE_SIZE). assert (Hw : (w ≤ length old)%nat) by (unfold w, PAGE_SIZE in *; lia).
  assert (HL : Z.of_nat (length (slice mem (p * PAGE_SIZE) PAGE_SIZE)) = PAGE_SIZE)
    by (apply length_slice; unfold PAGE_SIZE in *; lia).
  rewrite <-(take_drop w old), <-(assoc_L (++)).
  rewrite mem_write_spec by (rewrite length_take; unfold w in *; lia). simpl.
  rewrite (assoc_L (++) dn).
  rewrite IH; [|lia|done|lia|rewrite length_app; lia|rewrite length_drop; unfold w, PAGE_SIZE in *; lia].
  replace ((last - p) * PAGE_SIZE) with (PAGE_SIZE + (last - (p + 1)) * PAGE_SIZE) by lia.
  rewrite slice_app by (unfold PAGE_SIZE in *; lia). rewrite <-!(assoc_L (++)).
  replace (p * PAGE_SIZE + PAGE_SIZE) with ((p + 1) * PAGE_SIZE) by lia.
  rewrite Z.add_assoc. done.
Qed.

Context (Hsize : get_size a = Z.of_nat (length bytes)).

Lemma mem_length : Z.of_nat (length mem) = ofs + get_size a.
Proof using Hpre Hsize. unfold mem. rewrite length_app. lia. Qed.

Lemma memcpy_in_page rel_off old rest size :
  0 ≤ rel_off → 0 < size → rel_off + size ≤ get_size a → Z.of_nat (length old) = size →
  (ofs + rel_off) mod PAGE_SIZE + size ≤ PAGE_SIZE →
  (let? pg := page_at a ((ofs + rel_off) `quot` PAGE_SIZE) in
   let? bs := mem_read pg ((ofs + rel_off) `rem` PAGE_SIZE) size in mem_write (old ++ rest) 0 bs) =
  Ok (slice mem (ofs + rel_off) size ++ rest).
Proof using Hbound Hpages Hpre Hsize.
  intros Hrel Hs Hle Hold Hfit. pose proof mem_length as Hm.
  destruct (page_split (ofs + rel_off)) as (E & Hr & Hq & -> & ->); [lia|].
  destruct (page_read ((ofs + rel_off) / PAGE_SIZE)) as (pg & -> & Hrd); [lia|lia|]. simpl.
  rewrite Hrd by lia. simpl. rewrite <-E.
  apply mem_write_front. pose proof (length_slice mem (ofs + rel_off) size). lia.
Qed.

Lemma memcpy_across rel_off old rest size last :
  0 ≤ rel_off → 0 < size → rel_off + size ≤ get_size a → Z.of_nat (length old) = size →
  PAGE_SIZE < (ofs + rel_off) mod PAGE_SIZE + size →
  last = (ofs + rel_off + size) / PAGE_SIZE →
  let q := (ofs + rel_off) / PAGE_SIZE in
  let r := (ofs + rel_off) mod PAGE_SIZE in
  ∃ buf, (let? pg := page_at a q in
    let? bs := mem_read pg r (PAGE_SIZE - r) in
    let? buf := mem_write (old ++ rest) 0 bs in
    copy_pages (S (Z.to_nat (last - (q + 1)))) a (q + 1) last (PAGE_SIZE - r) buf) =
    Ok (last, last * PAGE_SIZE - (ofs + rel_off), buf) ∧
    let n := last * PAGE_SIZE - (ofs + rel_off) in
    buf = slice mem (ofs + rel_off) n ++ drop (Z.to_nat n) old ++ rest.
Proof using Hbound Hpages Hpre Hsize.
  intros Hrel Hs Hle Hold Hfit Hl q r. pose proof mem_length as Hm.
  destruct (page_split (ofs + rel_off)) as (E & Hr & Hq & _ & _); [lia|]. fold q r in E, Hr, Hq, Hfit.
  destruct (page_split (ofs + rel_off + size)) as (E' & Hr' & Hq' & _ & _); [lia|].
  rewrite <-Hl in E', Hq'.
  assert (Hlast : q + 1 ≤ last) by (unfold PAGE_SIZE in *; lia).
  destruct (page_read q) as (pg & -> & Hrd); [lia|lia|]. cbn [rbind].
  rewrite Hrd by lia. cbn [rbind]. rewrite <-E.
  set (p1 := PAGE_SIZE - r). set (w := Z.to_nat p1).
  assert (HL : Z.of_nat (length (slice mem (ofs + rel_off) p1)) = p1) by (apply length_slice; lia).
  replace (old ++ rest) with (take w old ++ drop w old ++ rest) by (rewrite (assoc_L (++)), take_drop; done).
  rewrite mem_write_front by (rewrite length_take; lia). cbn [rbind].
  set (n2 := (last - (q + 1)) * PAGE_SIZE). set (w2 := Z.to_nat n2).
  assert (Hn2 : p1 + n2 = last * PAGE_SIZE - (ofs + rel_off)) by (unfold p1, n2; lia).
  assert (0 ≤ n2) by (unfold n2, PAGE_SIZE in *; lia).
  replace (drop w old ++ rest) with (take w2 (drop w old) ++ drop w2 (drop w old) ++ rest)
    by (rewrite (assoc_L (++)), take_drop; done).
  rewrite (copy_pages_spec last); [|lia|unfold PAGE_SIZE in *; lia|lia|lia|].
  2:{ rewrite length_take, length_drop. unfold w, w2, p1 in *. lia. }
  fold n2. rewrite Hn2. eexists. split; [done|]. simpl. rewrite <-Hn2, slice_app by lia.
  rewrite <-(assoc_L (++)), drop_drop. f_equal. f_equal; [f_equal; lia|]. f_equal. f_equal.
  unfold w, w2. rewrite Z2Nat.inj_add by lia. lia.
Qed.

Lemma memcpy_ok rel_off old rest size :
  0 ≤ rel_off → 0 ≤ size → rel_off + size ≤ get_size a → Z.of_nat (length old) = size →
  memcpy a rel_off (old ++ rest) size = Ok (slice mem (ofs + rel_off) size ++ rest).
Proof using Hbound Hpages Hpre Hsize.
  intros Hrel Hs Hle Hold. unfold memcpy. fold ofs. pose proof mem_length as Hm.
  destruct (Z.eqb_spec size 0) as [->|Hnz].
  { destruct old; [|simpl in *; lia]. rewrite slice_0. done. }
  rewrite s64_small, !u64_small, (proj2 (Z.leb_le _ _)) by lia. cbn [negb]. rewrite round_base.
  destruct (page_split (ofs + rel_off)) as (E & Hr & Hq & Eq & Er); [lia|].
  destruct (Z.ltb_spec PAGE_SIZE (ofs + rel_off + size - (ofs + rel_off - (ofs + rel_off) mod PAGE_SIZE))) as [Hx|Hx].
  2:{ apply memcpy_in_page; lia. }
  destruct (page_split (ofs + rel_off + size)) as (E' & Hr' & Hq' & Eq' & Er'); [lia|].
  destruct (memcpy_across rel_off old rest size ((ofs + rel_off + size) `quot` PAGE_SIZE)) as (buf & Hc & Hb);
    [lia..|].
  rewrite Eq, Er. set (q := (ofs + rel_off) / PAGE_SIZE) in *. set (r := (ofs + rel_off) mod PAGE_SIZE) in *.
  set (last := (ofs + rel_off + size) `quot` PAGE_SIZE) in *.
  destruct (page_at a q) as [pg|] eqn:P1; [|done]. cbn [rbind] in Hc |- *.
  destruct (mem_read pg r (PAGE_SIZE - r)) as [bs|] eqn:P2; [|done]. cbn [rbind] in Hc |- *.
  destruct (mem_write (old ++ rest) 0 bs) as [buf1|] eqn:P3; [|done]. cbn [rbind] in Hc |- *.
  rewrite Hc. cbn [rbind]. clear P1 P2 P3 Hc. simpl in Hb.
  set (n := last * PAGE_SIZE - (ofs + rel_off)) in *. rewrite <-Eq' in *.
  assert (Hn : 0 ≤ n ≤ size) by (unfold n, PAGE_SIZE in *; lia).
  rewrite u64_small by lia. subst buf. destruct (Z.ltb_spec 0 (size - n)) as [H2|H2].
  2:{ assert (n = size) as -> by lia. rewrite drop_ge by lia. done. }
  destruct (page_read last) as (pg2 & -> & Hrd); [lia|lia|]. cbn [rbind]. rewrite Hrd by lia. cbn [rbind].
  assert (HL : Z.of_nat (length (slice mem (ofs + rel_off) n)) = n) by (apply length_slice; lia).
  rewrite <-HL at 3. rewrite mem_write_spec.
  - rewrite Z.add_0_r. f_equal. rewrite (assoc_L (++)).
    replace (slice mem (ofs + rel_off) size) with (slice mem (ofs + rel_off) (n + (size - n))) by (f_equal; lia).
    rewrite slice_app by lia. do 3 f_equal. lia.
  - rewrite length_drop. pose proof (length_slice mem (last * PAGE_SIZE + 0) (size - n)). lia.
Qed.
(** ** Iterators *)

Context (sz E : Z) (Hsz : 0 < sz) (HE : E ≤ Z.of_nat (length mem)).

(** [n] elements remain from the position [cur] on and none crosses a page. *)
Definition remains (n : nat) (cur : Z) : Prop :=
  0 ≤ cur ∧ E = cur + Z.of_nat n * sz ∧ ((sz | PAGE_SIZE) ∧ (sz | cur) ∨ E < PAGE_SIZE).

Lemma remains_next n cur : remains (S n) cur → remains n (cur + sz).
Proof using All.
  intros (H0 & H1 & H2). split; [lia|]. split; [lia|]. destruct H2 as [[H2 H3]|H2]; [left|right; done].
  split; [done|]. apply Z.divide_add_r; [done|apply Z.divide_refl].
Qed.

Lemma remains_fits n cur : remains (S n) cur → cur mod PAGE_SIZE + sz ≤ PAGE_SIZE.
Proof using All.
  intros (H0 & H1 & [[[p Hp] [c Hc]]|H2]).
  - destruct (page_split cur) as (E1 & Hr & _); [done|]. set (q := cur / PAGE_SIZE) in *.
    assert (Em : cur mod PAGE_SIZE = (c - q * p) * sz).
    { rewrite Z.mul_sub_distr_r, <-Z.mul_assoc, <-Hp. lia. }
    rewrite Em in Hr |- *. rewrite Hp in Hr |- *. assert (c - q * p < p) by nia. nia.
  - rewrite Z.mod_small; nia.
Qed.

Lemma ci_deref_ok n cur : remains (S n) cur → ci_deref a sz (mkCI cur E) = Ok (slice mem cur sz).
Proof using All.
  intros Hr. pose proof (remains_fits _ _ Hr). destruct Hr as (H0 & H1 & _). unfold ci_deref. simpl.
  destruct (page_split cur) as (E1 & Hr & Hq & -> & ->); [done|].
  destruct (page_read (cur / PAGE_SIZE)) as (pg & -> & Hrd); [lia|nia|]. cbn [rbind].
  rewrite Hrd by nia. rewrite <-E1. done.
Qed.

Lemma ci_incr_ok n cur : remains (S n) cur → ci_incr sz (mkCI cur E) = mkCI (cur + sz) E.
Proof using All. intros (H0 & H1 & _). unfold ci_incr. simpl. rewrite s64_small by nia. done. Qed.

Lemma ci_drain_ok n fuel cur : remains n cur → (n < fuel)%nat →
  ci_drain fuel a sz (mkCI cur E) = Ok (elems mem sz n cur).
Proof using All.
  revert fuel cur. induction n as [|n IH]; intros [|fuel] cur Hr Hf; [lia| |lia|]; simpl; unfold ci_has_next; simpl.
  - destruct Hr as (? & ? & _). rewrite u64_small, (proj2 (Z.leb_gt _ _)) by lia. done.
  - pose proof Hr as (? & ? & _). rewrite u64_small, (proj2 (Z.leb_le _ _)) by nia.
    rewrite (ci_deref_ok n) by done. simpl. rewrite (ci_incr_ok n) by done.
    rewrite IH; [done|by apply remains_next|lia].
Qed.

Lemma ci_until_ok n fuel cur : remains n cur → (n < fuel)%nat →
  ci_until fuel a sz (mkCI cur E) (mkCI E E) = Ok (elems mem sz n cur).
Proof using All.
  revert fuel cur. induction n as [|n IH]; intros [|fuel] cur Hr Hf; [lia| |lia|]; simpl; unfold ci_eqb; simpl.
  - destruct Hr as (? & ? & _). rewrite (proj2 (Z.eqb_eq _ _)) by lia. done.
  - pose proof Hr as (? & ? & _). rewrite (proj2 (Z.eqb_neq _ _)) by nia.
    rewrite (ci_deref_ok n) by done. simpl. rewrite (ci_incr_ok n) by done.
    rewrite IH; [done|by apply remains_next|lia].
Qed.

(** The sequential iterator is in page [k], [m] entries of the page remain. *)
Record seq_inv (it : seq_iter) (m n : nat) (cur : Z) : Prop := {
  sv_end : si_end it = E;
  sv_remains : remains n cur;
  sv_le : (m ≤ n)%nat;
  sv_off : 0 ≤ si_off it;
  sv_cur : cur = (si_off it / PAGE_SIZE) * PAGE_SIZE + pi_data (si_page it);
  sv_data : 0 ≤ pi_data (si_page it);
  sv_pend : pi_end (si_page it) = pi_data (si_page it) + Z.of_nat m * sz;
  sv_min : pi_end (si_page it) = Z.min PAGE_SIZE (E - (si_off it / PAGE_SIZE) * PAGE_SIZE);
  sv_read : ∀ d, 0 ≤ d → d + sz ≤ pi_end (si_page it) →
    mem_read (pi_page (si_page it)) d sz = Ok (slice mem ((si_off it / PAGE_SIZE) * PAGE_SIZE + d) sz)
}.

Lemma si_next_ok it m n cur : seq_inv it (S m) (S n) cur →
  ∃ it', si_next sz it = Ok (slice mem cur sz, it') ∧ seq_inv it' m n (cur + sz).
Proof using All.
  intros []. unfold si_next, pi_next. rewrite sv_read0 by lia. simpl. eexists. split; [by rewrite sv_cur0|].
  constructor; simpl; try done; try lia. by apply remains_next.
Qed.

(** How an iterator over the rest of a page starts. *)
Lemma seq_inv_start it n cur : remains (S n) cur →
  si_end it = E → 0 ≤ si_off it → cur = (si_off it / PAGE_SIZE) * PAGE_SIZE + pi_data (si_page it) →
  pi_data (si_page it) = cur mod PAGE_SIZE →
  page_at a (cur / PAGE_SIZE) = Ok (pi_page (si_page it)) →
  pi_end (si_page it) = Z.min PAGE_SIZE (E - (cur - cur mod PAGE_SIZE)) →
  ∃ m, (0 < m)%nat ∧ seq_inv it m (S n) cur.
Proof using All.
  intros Hr Hend Hoff Hcur Hdata Hpg Hpe. pose proof (remains_fits _ _ Hr) as Hfit.
  pose proof Hr as (H0 & H1 & H2). destruct (page_split cur) as (E1 & Hb & Hq & _ & _); [done|].
  assert (Ek : si_off it / PAGE_SIZE = cur / PAGE_SIZE) by nia.
  assert (Hm : (sz | pi_end (si_page it) - pi_data (si_page it))).
  { rewrite Hpe, Hdata. destruct (Z.min_spec PAGE_SIZE (E - (cur - cur mod PAGE_SIZE))) as [[? ->]|[? ->]].
    - destruct H2 as [[Hp Hc]|H2]; [|unfold PAGE_SIZE in *; lia].
      apply Z.divide_sub_r; [done|]. rewrite Z.mod_eq by (unfold PAGE_SIZE; lia).
      apply Z.divide_sub_r; [done|]. by apply Z.divide_mul_l.
    - exists (Z.of_nat (S n)). lia. }
  destruct Hm as [m Hm]. assert (0 < m) by nia. exists (Z.to_nat m). split; [lia|].
  rewrite <-Ek in *. constructor; try done; try lia.
  { apply Nat2Z.inj_le. rewrite Z2Nat.id by lia. nia. }
  intros d Hd Hle. rewrite Ek in *.
  destruct (page_read (cur / PAGE_SIZE)) as (pg & Hpg' & Hrd); [lia|nia|].
  rewrite Hpg in Hpg'. injection Hpg' as <-. apply Hrd; lia.
Qed.

Lemma si_has_next_ok it m n cur : seq_inv it m n cur →
  (n = O ∧ ∃ it', si_has_next a it = Ok (false, it')) ∨
  (∃ it' m', (0 < m' ≤ n)%nat ∧ si_has_next a it = Ok (true, it') ∧ seq_inv it' m' n cur).
Proof using All.
  intros Hi. pose proof Hi as []. destruct sv_remains0 as (H0 & H1 & H2). unfold si_has_next, pi_has_next.
  destruct (Z.ltb_spec (pi_data (si_page it)) (pi_end (si_page it))) as [Hlt|Hge].
  { right. exists it, m. split; [nia|]. done. }
  assert (m = 0)%nat as -> by nia. rewrite roundup_page.
  set (k := si_off it / PAGE_SIZE) in *.
  assert (Eoff : si_off it + 1 + PAGE_SIZE - 1 - (si_off it + 1 + PAGE_SIZE - 1) mod PAGE_SIZE = (k + 1) * PAGE_SIZE).
  { rewrite Z.mod_eq by (unfold PAGE_SIZE; lia).
    replace (si_off it + 1 + PAGE_SIZE - 1) with (si_off it + 1 * PAGE_SIZE) by lia.
    rewrite Z.div_add by (unfold PAGE_SIZE; lia). unfold k. lia. }
  rewrite Eoff, sv_end0.
  destruct (Z.ltb_spec ((k + 1) * PAGE_SIZE) E) as [Hn|Hn].
  2:{ left. split; [|eauto]. assert (Z.of_nat n * sz = 0) by lia. nia. }
  right. assert (cur = (k + 1) * PAGE_SIZE) as Ecur by lia.
  assert (0 ≤ k) by (apply Z.div_pos; unfold PAGE_SIZE; lia).
  rewrite Z.quot_mul by (unfold PAGE_SIZE; lia).
  destruct (page_read (k + 1)) as (pg & Hpg & Hrd); [lia|lia|]. rewrite Hpg. cbn [rbind].
  assert (Ediv : (k + 1) * PAGE_SIZE / PAGE_SIZE = k + 1) by (apply Z.div_mul; unfold PAGE_SIZE; lia).
  assert (Emod : (k + 1) * PAGE_SIZE mod PAGE_SIZE = 0) by (apply Z.mod_mul; unfold PAGE_SIZE; lia).
  destruct n as [|n]; [lia|].
  destruct (seq_inv_start
    (mkSI (mkPI pg 0 (Z.min PAGE_SIZE (E - (k + 1) * PAGE_SIZE))) (si_start it) ((k + 1) * PAGE_SIZE) E) n cur)
    as (m & Hm & Hinv); simpl; rewrite ?Ecur, ?Ediv, ?Emod, ?Z.sub_0_r; try done; try (unfold PAGE_SIZE; lia).
  { rewrite <-Ecur. by repeat split. }
  rewrite Ecur in Hinv. do 2 eexists. split; [|split; [done|exact Hinv]].
  split; [done|]. exact (sv_le _ _ _ _ Hinv).
Qed.

Lemma si_drain_ok n : ∀ fuel it m cur, seq_inv it m n cur → (n < fuel)%nat →
  si_drain fuel a sz it = Ok (elems mem sz n cur).
Proof using All.
  induction n as [|n IH]; intros [|fuel] it m cur Hi Hf; try lia; simpl;
    destruct (si_has_next_ok _ _ _ _ Hi) as [(? & it' & ->)|(it' & [|m'] & Hm & -> & Hi')]; try lia; simpl; [done|].
  destruct (si_next_ok _ _ _ _ Hi') as (it2 & -> & Hi2). simpl. rewrite (IH _ _ m' (cur + sz)); [done|done|lia].
Qed.

Lemma num_entries_ok it m n cur : seq_inv it m n cur → get_num_entries_in_page sz it = Z.of_nat m.
Proof using All.
  intros []. unfold get_num_entries_in_page, pi_num_entries.
  replace (pi_end (si_page it) - pi_data (si_page it)) with (Z.of_nat m * sz) by lia.
  rewrite Z.quot_mul by lia. apply s32_small. unfold PAGE_SIZE in *. nia.
Qed.

Lemma foreach_inner_ok m : ∀ fuel i idx it n cur, seq_inv it m n cur → 0 ≤ i → (m < fuel)%nat →
  ∃ j it', (j ≤ m)%nat ∧ (i < Z.of_nat m → (0 < j)%nat) ∧
    foreach_inner fuel sz i idx it = Ok (number idx (elems mem sz j cur), idx + Z.of_nat j, it') ∧
    seq_inv it' (m - j) (n - j) (cur + Z.of_nat j * sz).
Proof using All.
  induction m as [|m IH]; intros [|fuel] i idx it n cur Hi H0 Hf; try lia; simpl;
    rewrite (num_entries_ok _ _ _ _ Hi).
  - rewrite (proj2 (Z.ltb_ge _ _)) by lia. exists 0%nat, it. rewrite !Nat.sub_0_r, !Z.add_0_r. split; [lia|]. split; [lia|done].
  - destruct (Z.ltb_spec i (Z.of_nat (S m))) as [Hlt|Hge].
    2:{ exists 0%nat, it. rewrite !Nat.sub_0_r, !Z.add_0_r. split; [lia|]. split; [lia|done]. }
    destruct n as [|n]; [pose proof (sv_le _ _ _ _ Hi); lia|].
    destruct (si_next_ok _ _ _ _ Hi) as (it1 & -> & Hi1). simpl.
    destruct (IH fuel (i + 1) (idx + 1) it1 n (cur + sz) Hi1) as (j & it2 & Hj & _ & -> & Hi2); [lia|lia|]. simpl.
    exists (S j), it2. split; [lia|]. split; [lia|].
    replace (idx + Z.of_nat (S j)) with (idx + 1 + Z.of_nat j) by lia. split; [done|].
    replace (cur + Z.of_nat (S j) * sz) with (cur + sz + Z.of_nat j * sz) by lia. done.
Qed.

Lemma page_foreach_ok n : ∀ fuel idx it m cur, seq_inv it m n cur → (n < fuel)%nat →
  page_foreach fuel a sz idx it = Ok (number idx (elems mem sz n cur)).
Proof using All.
  induction n as [n IH] using lt_wf_ind; intros [|fuel] idx it m cur Hi Hf; [lia|].
  cbn [page_foreach]. destruct (si_has_next_ok _ _ _ _ Hi) as [(-> & it' & ->)|(it' & m' & Hm & -> & Hi')]; [done|].
  cbn [rbind fst snd].
  assert (Hb : (m' < S (Z.to_nat PAGE_SIZE))%nat).
  { destruct Hi'. unfold PAGE_SIZE in *. nia. }
  destruct (foreach_inner_ok m' _ 0 idx it' n cur Hi' ltac:(lia) Hb) as (j & it2 & Hj & Hp & -> & Hi2).
  cbn [rbind fst snd]. rewrite (IH (n - j)%nat ltac:(lia) fuel _ it2 _ _ Hi2) by lia. cbn [rbind].
  rewrite <-(length_elems mem sz j cur) at 2. rewrite <-number_app, <-elems_app. do 3 f_equal. lia.
Qed.

(** [move_to] and the constructor start an iterator on the rest of a page. *)
Lemma page_rest_ok n cur start : remains (S n) cur →
  ∃ p m, page_rest a cur E = Ok p ∧ (0 < m)%nat ∧ seq_inv (mkSI p start cur E) m (S n) cur.
Proof using All.
  intros Hr. pose proof Hr as (H0 & H1 & _). unfold page_rest. rewrite round_page.
  destruct (page_split cur) as (E1 & Hb & Hq & -> & ->); [done|].
  destruct (page_read (cur / PAGE_SIZE)) as (pg & Hpg & _); [lia|nia|]. rewrite Hpg. simpl.
  match goal with |- ∃ p m, Ok ?q = _ ∧ _ => exists q end.
  destruct (seq_inv_start (mkSI (mkPI pg (cur mod PAGE_SIZE)
    (if PAGE_SIZE <=? E - (cur - cur mod PAGE_SIZE) then PAGE_SIZE else E - (cur - cur mod PAGE_SIZE))) start cur E) n cur Hr)
    as (m & Hm & Hi); simpl; try done; [|by exists m].
  destruct (Z.leb_spec PAGE_SIZE (E - (cur - cur mod PAGE_SIZE))); lia.
Qed.

Lemma si_move_to_ok it n idx : si_end it = E → remains n (si_start it) → 0 ≤ idx → idx * sz < 2 ^ 62 →
  (Z.of_nat n ≤ idx ∧ ∃ it', si_move_to a sz idx it = Ok (false, it')) ∨
  (idx < Z.of_nat n ∧ ∃ it' m, si_move_to a sz idx it = Ok (true, it') ∧
     seq_inv it' m (n - Z.to_nat idx) (si_start it + idx * sz)).
Proof using All.
  intros He (H0 & H1 & H2) Hidx Hb. unfold si_move_to. rewrite u64_small, s64_small, He by nia.
  destruct (Z.leb_spec E (si_start it + idx * sz)) as [Hl|Hl]; [left; split; [nia|eauto]|right].
  assert (Hlt : idx < Z.of_nat n) by nia. split; [done|].
  destruct (n - Z.to_nat idx)%nat as [|n'] eqn:En; [lia|].
  destruct (page_rest_ok n' (si_start it + idx * sz) (si_start it)) as (p & m & -> & _ & Hi).
  { split; [nia|]. split.
    { assert (Z.of_nat n = idx + Z.of_nat (S n')) as Enn by lia. rewrite H1, Enn. lia. }
    destruct H2 as [[Hp Hs]|]; [left|by right]. split; [done|].
    apply Z.divide_add_r; [done|]. by apply Z.divide_mul_r, Z.divide_refl. }
  simpl. eauto.
Qed.
End array.

(** ** Correctness of the accesses *)

(** The ranges on which the iterators are used: whole elements, none of which
    crosses a page. *)
Record good_range (a : page_byte_array) (bytes : list Z) (sz b : Z) (n : nat) : Prop := {
  gr_sz : 0 < sz;
  gr_b : 0 ≤ b;
  gr_end : b + Z.of_nat n * sz ≤ Z.of_nat (length bytes);
  gr_align : (sz | PAGE_SIZE) ∧ (sz | get_offset_in_first_page a + b) ∨
             get_offset_in_first_page a + b + Z.of_nat n * sz < PAGE_SIZE
}.

Lemma aligned_ok a bytes sz b n : 0 ≤ get_offset_in_first_page a → good_range a bytes sz b n →
  aligned sz (get_offset_in_first_page a + b) (get_offset_in_first_page a + (b + Z.of_nat n * sz)) = true.
Proof.
  intros H0 []. unfold aligned. destruct gr_align0 as [[Hp Hs]|Hlt].
  - destruct (page_split (get_offset_in_first_page a + b)) as (E & _ & _ & _ & ->); [lia|].
    apply orb_true_iff. left. apply Z.eqb_eq, Z.mod_divide; [lia|].
    apply Z.divide_sub_r; [done|]. rewrite Z.mod_eq by (unfold PAGE_SIZE; lia).
    apply Z.divide_sub_r; [done|]. by apply Z.divide_mul_l.
  - rewrite (proj2 (Z.ltb_lt _ _)) by lia. apply orb_true_r.
Qed.

Section holds.
Context (a : page_byte_array) (bytes : list Z) {Ha : ArrayHolds a bytes}.

Lemma holds_mem : ∃ pre, Z.of_nat (length pre) = get_offset_in_first_page a ∧
  Z.of_nat (length (pre ++ bytes)) ≤ 2 ^ 43 ∧
  ∀ i, 0 ≤ i → i * PAGE_SIZE < Z.of_nat (length (pre ++ bytes)) →
    ∃ pg, get_page a i = Ok pg ∧ slice (pre ++ bytes) (i * PAGE_SIZE) PAGE_SIZE `prefix_of` pg.
Proof using Ha.
  destruct (holds_pages (a := a) (bytes := bytes)) as (pre & E & Hp). exists pre. split; [done|]. split; [|done].
  rewrite length_app. pose proof (holds_bound (a := a) (bytes := bytes)). lia.
Qed.

Lemma range_remains sz b n : good_range a bytes sz b n →
  remains sz (get_offset_in_first_page a + (b + Z.of_nat n * sz)) n (get_offset_in_first_page a + b).
Proof using Ha.
  intros []. pose proof (holds_ofs (a := a) (bytes := bytes)). split; [lia|]. split; [lia|].
  destruct gr_align0 as [?|?]; [by left|right; lia].
Qed.

Lemma new_const_iterator_ok sz b n : good_range a bytes sz b n →
  let o := get_offset_in_first_page a in
  new_const_iterator a sz b (b + Z.of_nat n * sz) = Ok (mkCI (o + b) (o + (b + Z.of_nat n * sz))).
Proof using Ha.
  intros Hg o. pose proof Hg as []. pose proof (holds_bound (a := a) (bytes := bytes)).
  pose proof (holds_ofs (a := a) (bytes := bytes)). unfold new_const_iterator.
  rewrite u64_small, (holds_size (a := a) (bytes := bytes)), (proj2 (Z.leb_le _ _)) by lia. simpl.
  rewrite (aligned_ok a bytes) by done. simpl.
  replace (b + Z.of_nat n * sz - b) with (Z.of_nat n * sz) by lia.
  rewrite u64_small, Z.mod_mul by lia. done.
Qed.

Lemma new_seq_iter_ok sz b n : good_range a bytes sz b n →
  let o := get_offset_in_first_page a in
  ∃ it, new_seq_iter a sz b (b + Z.of_nat n * sz) = Ok it ∧ si_start it = o + b ∧
    si_end it = o + (b + Z.of_nat n * sz) ∧
    si_off it = o + b ∧
    (n = O → si_page it = null_page_iter) ∧
    (n ≠ O → page_rest a (o + b) (o + (b + Z.of_nat n * sz)) = Ok (si_page it)).
Proof using Ha.
  intros Hg o. pose proof Hg as []. pose proof (holds_bound (a := a) (bytes := bytes)).
  pose proof (holds_ofs (a := a) (bytes := bytes)). destruct holds_mem as (pre & Hpre & Hb & Hp).
  unfold new_seq_iter. rewrite u64_small, (holds_size (a := a) (bytes := bytes)), !(proj2 (Z.leb_le _ _)) by lia.
  cbn [negb]. fold o.
  assert (Hps : n ≠ O → ∃ p, page_rest a (o + b) (o + (b + Z.of_nat n * sz)) = Ok p).
  { intros Hn. destruct n as [|n]; [done|].
    destruct (page_rest_ok a bytes pre Hpre Hb Hp (holds_size (a := a) (bytes := bytes)) sz
      (o + (b + Z.of_nat (S n) * sz)) gr_sz0) with (n := n) (cur := o + b) (start := 0) as (p & m & -> & _);
      [rewrite length_app; lia|by apply range_remains|eauto]. }
  assert (Hrest : ∃ p, (if b =? b + Z.of_nat n * sz then Ok null_page_iter
     else page_rest a (o + b) (o + (b + Z.of_nat n * sz))) = Ok p ∧ (n = O → p = null_page_iter) ∧
     (n ≠ O → page_rest a (o + b) (o + (b + Z.of_nat n * sz)) = Ok p)).
  { destruct (decide (n = O)) as [->|Hn].
    - rewrite (proj2 (Z.eqb_eq _ _)) by lia. exists null_page_iter. by repeat split.
    - rewrite (proj2 (Z.eqb_neq _ _)) by nia. destruct (Hps Hn) as (p & ->). exists p. split; [done|]. done. }
  destruct Hrest as (p & -> & Hp1 & Hp2). cbn [rbind]. rewrite (aligned_ok a bytes) by done.
  replace (b + Z.of_nat n * sz - b) with (Z.of_nat n * sz) by lia.
  rewrite u64_small, Z.mod_mul by lia. cbn [negb Z.eqb]. eexists. split; [done|]. by repeat split.
Qed.
End holds.

(** C12. [memcpy] copies exactly the bytes [rel_off, rel_off + size) of the array to
    the front of the buffer, however many pages they span and whether or not
    they end at a page boundary, and leaves the rest of the buffer as it is; a
    range past the end of the array fails the assertion before anything is
    copied. *)
Theorem memcpy_correct a bytes (Ha : ArrayHolds a bytes) rel_off size buf :
  0 ≤ rel_off < 2 ^ 61 → 0 ≤ size < 2 ^ 61 → size ≤ Z.of_nat (length buf) →
  memcpy a rel_off buf size =
    if (size =? 0) || (rel_off + size <=? Z.of_nat (length bytes))
    then Ok (slice bytes rel_off size ++ drop (Z.to_nat size) buf)
    else Throw AssertFailed.
Proof.
  intros Hr Hs Hl. pose proof (holds_bound (a := a) (bytes := bytes)). pose proof (holds_ofs (a := a) (bytes := bytes)).
  pose proof (holds_size (a := a) (bytes := bytes)) as Hsz.
  destruct (Z.eqb_spec size 0) as [->|Hn]; [by rewrite slice_0|]. simpl.
  destruct (Z.leb_spec (rel_off + size) (Z.of_nat (length bytes))) as [Hle|Hgt].
  - destruct (holds_mem a bytes) as (pre & Hpre & Hb & Hp).
    rewrite <-(take_drop (Z.to_nat size) buf) at 1.
    rewrite (memcpy_ok a bytes pre Hpre Hb Hp Hsz) by (rewrite ?length_take; lia).
    by rewrite <-Hpre, slice_shift by lia.
  - unfold memcpy. rewrite (proj2 (Z.eqb_neq _ _)), s64_small, !u64_small, (proj2 (Z.leb_gt _ _)) by lia. done.
Qed.

Lemma si_empty a sz si fuel : si_page si = null_page_iter → si_end si = si_off si →
  si_drain (S fuel) a sz si = Ok [] ∧ page_foreach (S fuel) a sz 0 si = Ok [].
Proof.
  intros Hp He. cbn [si_drain page_foreach]. unfold si_has_next, pi_has_next. rewrite Hp, roundup_page.
  cbn [null_page_iter pi_data pi_end]. rewrite Z.ltb_irrefl. pose proof (Z.mod_pos_bound (si_off si + 1 + PAGE_SIZE - 1) PAGE_SIZE).
  rewrite (proj2 (Z.ltb_ge _ _)) by (unfold PAGE_SIZE in *; lia). by cbn [rbind fst].
Qed.

Lemma si_run a bytes (Ha : ArrayHolds a bytes) sz b n : good_range a bytes sz b n →
  ∃ si, new_seq_iter a sz b (b + Z.of_nat n * sz) = Ok si ∧
    si_drain (S n) a sz si = Ok (elems bytes sz n b) ∧
    page_foreach (S n) a sz 0 si = Ok (number 0 (elems bytes sz n b)).
Proof.
  intros Hg. pose proof Hg as []. pose proof (holds_bound (a := a) (bytes := bytes)).
  destruct (holds_mem a bytes) as (pre & Hpre & Hb & Hp).
  destruct (new_seq_iter_ok a bytes sz b n Hg) as (si & -> & Hst & He & Ho & Hz & Hnz). exists si. split; [done|].
  destruct n as [|n].
  { apply si_empty; [by apply Hz|]. lia. }
  assert (HE : get_offset_in_first_page a + (b + Z.of_nat (S n) * sz) ≤ Z.of_nat (length (pre ++ bytes)))
    by (rewrite length_app; lia).
  destruct (page_rest_ok a bytes pre Hpre Hb Hp (holds_size (a := a) (bytes := bytes)) sz _ gr_sz0 HE n
    (get_offset_in_first_page a + b) (si_start si)) as (p & m & Hpr & Hm & Hi); [by apply (range_remains a bytes)|].
  rewrite Hnz in Hpr by done. injection Hpr as <-.
  replace (mkSI (si_page si) (si_start si) (get_offset_in_first_page a + b) _) with si in Hi
    by (destruct si; simpl in *; congruence).
  rewrite <-(elems_shift pre bytes sz (S n) b), Hpre by lia. split.
  - eapply si_drain_ok; [exact Hpre|exact Hb|exact Hp|apply Ha|exact gr_sz0|exact HE|exact Hi|lia].
  - eapply page_foreach_ok; [exact Hpre|exact Hb|exact Hp|apply Ha|exact gr_sz0|exact HE|exact Hi|lia].
Qed.

(** C13. On a range of whole elements none of which crosses a page, the constructors
    of both iterators succeed and the four ways to traverse it agree with the
    contents of the array: the loops on [has_next] and on [!= end] of the random
    access iterator, the loop on the sequential iterator, and [PAGE_FOREACH],
    whose inner loop stops half way through each page but whose outer loop
    resumes there, each use every element once, in order (the index that
    [PAGE_FOREACH] passes along is an [int], exact below [2^31] elements). *)
Theorem iterators_agree a bytes (Ha : ArrayHolds a bytes) sz b n :
  good_range a bytes sz b n →
  let e := b + Z.of_nat n * sz in
  ∃ it be si,
    new_const_iterator a sz b e = Ok it ∧ get_iterator a sz b e = Ok be ∧ new_seq_iter a sz b e = Ok si ∧
    ci_drain (S n) a sz it = Ok (elems bytes sz n b) ∧
    ci_until (S n) a sz be.1 be.2 = Ok (elems bytes sz n b) ∧
    si_drain (S n) a sz si = Ok (elems bytes sz n b) ∧
    page_foreach (S n) a sz 0 si = Ok (number 0 (elems bytes sz n b)).
Proof.
  intros Hg e. pose proof Hg as []. destruct (holds_mem a bytes) as (pre & Hpre & Hb & Hp).
  destruct (si_run a bytes Ha sz b n Hg) as (si & Hsi & Hd & Hf). unfold get_iterator, e.
  rewrite (new_const_iterator_ok a bytes sz b n Hg). cbn [rbind].
  pose proof (new_const_iterator_ok a bytes sz (b + Z.of_nat n * sz) 0) as He.
  rewrite Z.mul_0_l, Z.add_0_r in He. rewrite He.
  2:{ split; try lia. destruct gr_align0 as [[? ?]|?]; [left|right; lia]. split; [done|].
      rewrite Z.add_assoc. apply Z.divide_add_r; [done|]. by apply Z.divide_mul_r, Z.divide_refl. }
  do 3 eexists. do 3 (split; [done|]). cbn [rbind fst snd].
  assert (HE : get_offset_in_first_page a + (b + Z.of_nat n * sz) ≤ Z.of_nat (length (pre ++ bytes)))
    by (rewrite length_app; lia).
  pose proof (range_remains a bytes sz b n Hg) as Hr.
  assert (Es : elems (pre ++ bytes) sz n (get_offset_in_first_page a + b) = elems bytes sz n b).
  { rewrite <-Hpre. apply elems_shift; lia. }
  split; [|split; [|done]]; rewrite <-Es.
  - eapply ci_drain_ok; [exact Hpre|exact Hb|exact Hp|apply Ha|exact gr_sz0|exact HE|exact Hr|lia].
  - eapply ci_until_ok; [exact Hpre|exact Hb|exact Hp|apply Ha|exact gr_sz0|exact HE|exact Hr|lia].
Qed.

(** [move_to(idx)] returns whether there is an element [idx], and after a
    successful one the loop on the iterator uses the elements from [idx] on,
    from whatever position the iterator was moved. *)
Theorem move_to_correct a bytes (Ha : ArrayHolds a bytes) sz b n si p off idx :
  good_range a bytes sz b n → new_seq_iter a sz b (b + Z.of_nat n * sz) = Ok si →
  0 ≤ idx → idx * sz < 2 ^ 62 →
  ∃ found it',
    si_move_to a sz idx (mkSI p (si_start si) off (si_end si)) = Ok (found, it') ∧
    found = (idx <? Z.of_nat n) ∧
    (found = true →
     si_drain (S n) a sz it' = Ok (elems bytes sz (n - Z.to_nat idx) (b + idx * sz))).
Proof.
  intros Hg Hsi Hidx Hb62. pose proof Hg as []. pose proof (holds_bound (a := a) (bytes := bytes)).
  destruct (holds_mem a bytes) as (pre & Hpre & Hb & Hp).
  destruct (new_seq_iter_ok a bytes sz b n Hg) as (si' & Hsi' & Hst & He & _).
  rewrite Hsi in Hsi'. injection Hsi' as <-.
  assert (HE : si_end si ≤ Z.of_nat (length (pre ++ bytes))) by (rewrite length_app; lia).
  pose proof (range_remains a bytes sz b n Hg) as Hr. rewrite <-He, <-Hst in Hr.
  destruct (si_move_to_ok a bytes pre Hpre Hb Hp (holds_size (a := a) (bytes := bytes)) sz (si_end si) gr_sz0 HE
    (mkSI p (si_start si) off (si_end si)) n idx eq_refl Hr Hidx Hb62) as [(Hn & it' & ->)|(Hn & it' & m & -> & Hi)].
  - exists false, it'. rewrite (proj2 (Z.ltb_ge _ _)) by lia. done.
  - exists true, it'. rewrite (proj2 (Z.ltb_lt _ _)) by lia. split; [done|]. split; [done|]. intros _.
    rewrite <-(elems_shift pre bytes), Hpre by nia. rewrite Z.add_assoc, <-Hst.
    eapply si_drain_ok; [exact Hpre|exact Hb|exact Hp|apply Ha|exact gr_sz0|exact HE|exact Hi|lia].
Qed.

(** ** The arrays hold what was requested *)

Lemma ptr_add_ok buf m i : m `prefix_of` buf → 0 ≤ i → i * PAGE_SIZE < Z.of_nat (length m) →
  Z.of_nat (length m) ≤ 2 ^ 31 →
  ∃ pg, ptr_add buf (s32 (i * PAGE_SIZE)) = Ok pg ∧ slice m (i * PAGE_SIZE) PAGE_SIZE `prefix_of` pg.
Proof.
  intros Hp Hi Hlt Hb. pose proof (prefix_length _ _ Hp). unfold ptr_add.
  rewrite s32_small by (unfold PAGE_SIZE in *; lia).
  rewrite !(proj2 (Z.leb_le _ _)) by (unfold PAGE_SIZE in *; lia). simpl. eexists. split; [done|].
  destruct Hp as [k ->]. rewrite drop_app_le by lia. apply prefix_app_r. apply prefix_take.
Qed.

Lemma contig_holds a pre bytes buf :
  get_size a = Z.of_nat (length bytes) → get_offset_in_first_page a = Z.of_nat (length pre) →
  (∀ i, get_page a i = ptr_add buf (s32 (i * PAGE_SIZE))) → pre ++ bytes `prefix_of` buf →
  Z.of_nat (length (pre ++ bytes)) ≤ 2 ^ 31 → ArrayHolds a bytes.
Proof.
  intros Hs Ho Hg Hp Hb. rewrite length_app in Hb. split; [done|lia|lia|]. exists pre. split; [done|].
  intros i Hi Hlt. rewrite Hg. apply ptr_add_ok; [done..|rewrite length_app; lia].
Qed.

Lemma slice_split file off base size : 0 ≤ base ≤ off → 0 ≤ size →
  slice file base (off - base + size) = slice file base (off - base) ++ slice file off size.
Proof. intros. rewrite slice_app by lia. do 2 f_equal. lia. Qed.

Lemma take_take_prefix (m : list Z) n k : (n ≤ k)%nat → take n m `prefix_of` take k m.
Proof. intros. replace (take n m) with (take n (take k m)) by (rewrite take_take; f_equal; lia). apply prefix_take. Qed.

(** The first bytes of a request, between the start of its first page or block
    and its offset. *)
Lemma request_contig a file off base size rest :
  0 ≤ base ≤ off → 0 ≤ size → off + size ≤ Z.of_nat (length file) → off - base + size ≤ 2 ^ 31 →
  get_size a = size → get_offset_in_first_page a = off - base →
  (∀ i, get_page a i = ptr_add (slice file base (off - base + size) ++ rest) (s32 (i * PAGE_SIZE))) →
  ArrayHolds a (slice file off size).
Proof.
  intros Hb Hs Hl Hsm Es Eo Hg.
  pose proof (length_slice file base (off - base)). pose proof (length_slice file off size).
  eapply (contig_holds _ (slice file base (off - base))); [lia|lia|exact Hg| |].
  - rewrite <-slice_split by done. by apply prefix_app_r.
  - rewrite length_app. lia.
Qed.

(** The cached pages of a file, from the page of [off] on. *)
Definition cached_pages (file : list Z) (off size : Z) : list (list Z) :=
  (λ i, slice file ((off / PAGE_SIZE + Z.of_nat i) * PAGE_SIZE) PAGE_SIZE) <$>
    seq 0 (Z.to_nat (num_covered_pages off size)).

Lemma covered_bound off size i : 0 ≤ off → 0 ≤ size → 0 ≤ i → i * PAGE_SIZE < off mod PAGE_SIZE + size →
  i < num_covered_pages off size.
Proof.
  intros Ho Hs Hi Hlt. unfold num_covered_pages. rewrite roundup_page, round_page.
  destruct (page_split off Ho) as (E & Hr & Hq & _).
  pose proof (page_split (off + size + PAGE_SIZE - 1)) as [E' [Hr' _]]; [unfold PAGE_SIZE; lia|].
  set (u := (off + size + PAGE_SIZE - 1) / PAGE_SIZE) in *. set (q := off / PAGE_SIZE) in *.
  replace (off + size + PAGE_SIZE - 1 - (off + size + PAGE_SIZE - 1) mod PAGE_SIZE - (off - off mod PAGE_SIZE))
    with ((u - q) * PAGE_SIZE) by lia.
  rewrite Z.quot_mul by (unfold PAGE_SIZE; lia). unfold PAGE_SIZE in *. lia.
Qed.

Lemma request_pages a file off size :
  0 ≤ off → 0 ≤ size → off + size ≤ Z.of_nat (length file) → off mod PAGE_SIZE + size ≤ 2 ^ 31 →
  get_size a = size → get_offset_in_first_page a = off mod PAGE_SIZE →
  (∀ i, 0 ≤ i → i * PAGE_SIZE < off mod PAGE_SIZE + size →
     get_page a i = Ok (slice file ((off / PAGE_SIZE + i) * PAGE_SIZE) PAGE_SIZE)) →
  ArrayHolds a (slice file off size).
Proof.
  intros Ho Hs Hl Hb Es Eo Hg. destruct (page_split off Ho) as (E & Hr & Hq & _).
  set (base := off / PAGE_SIZE * PAGE_SIZE) in *. assert (Hr' : off mod PAGE_SIZE = off - base) by lia.
  pose proof (length_slice file base (off - base)). pose proof (length_slice file off size).
  assert (0 ≤ base) by (unfold base, PAGE_SIZE in *; lia).
  split; [lia|lia|lia|]. exists (slice file base (off - base)). split; [lia|]. intros i Hi Hlt.
  rewrite <-slice_split in Hlt |- * by lia. rewrite length_slice in Hlt by lia. rewrite Hg by lia.
  eexists. split; [done|]. replace ((off / PAGE_SIZE + i) * PAGE_SIZE) with (base + i * PAGE_SIZE) by lia.
  assert (HP : 0 < PAGE_SIZE) by (unfold PAGE_SIZE; lia).
  unfold slice at 1. unfold slice at 1. rewrite skipn_firstn_comm, take_take.
  unfold slice. rewrite (Z2Nat.inj_add base), <-drop_drop by nia. apply take_take_prefix. lia.
Qed.

Lemma original_req_holds file off size :
  0 ≤ off → 0 ≤ size → off + size ≤ Z.of_nat (length file) → off mod PAGE_SIZE + size ≤ 2 ^ 31 →
  ArrayHolds (original_req_byte_array off size (cached_pages file off size)) (slice file off size).
Proof.
  intros Ho Hs Hl Hb. destruct (page_split off Ho) as (_ & _ & _ & _ & Er).
  apply request_pages; simpl; [lia..|]. intros i Hi Hlt. rewrite (proj2 (Z.ltb_ge _ _)) by done.
  pose proof (covered_bound off size i Ho Hs Hi Hlt).
  unfold cached_pages. rewrite list_lookup_fmap, lookup_seq_lt by lia. simpl. rewrite Z2Nat.id by lia. done.
Qed.

(** The four arrays the program builds for a request give access to exactly the
    bytes [off, off + size) of the file: the one over the cached pages of the
    request, the one over a buffer read from the start of its page, the one over
    a buffer read from the start of its disk block, and the one over a single
    page.  The requests span less than 2 GB from the start of the first page. *)
Theorem request_arrays_hold file off size rest :
  0 ≤ off → 0 ≤ size → off + size ≤ Z.of_nat (length file) → off mod PAGE_SIZE + size ≤ 2 ^ 31 →
  let data := slice file off size in
  ArrayHolds (original_req_byte_array off size (cached_pages file off size)) data ∧
  ArrayHolds (in_mem_byte_array off size
                (slice file (ROUND_PAGE off) (off mod PAGE_SIZE + size) ++ rest)) data ∧
  ArrayHolds (direct_byte_array off size
                (slice file (ROUND off MIN_BLOCK_SIZE) (off mod MIN_BLOCK_SIZE + size) ++ rest)) data ∧
  (off mod PAGE_SIZE + size ≤ PAGE_SIZE →
   ArrayHolds (simple_page_byte_array off size (slice file (ROUND_PAGE off) PAGE_SIZE)) data).
Proof.
  intros Ho Hs Hl Hb data. destruct (page_split off Ho) as (E & Hr & Hq & _ & Er).
  assert (Hblk : ROUND off MIN_BLOCK_SIZE = off - off mod MIN_BLOCK_SIZE) by (apply (round_pow2 9); lia).
  assert (Hm : 0 ≤ off mod MIN_BLOCK_SIZE ≤ off mod PAGE_SIZE).
  { unfold MIN_BLOCK_SIZE, PAGE_SIZE in *. pose proof (Z.mod_pos_bound off 512).
    assert (off mod 4096 = off mod 512 + 512 * ((off / 512) mod 8)) by (rewrite <-(Z.rem_mul_r off 512 8) by lia; done).
    pose proof (Z.mod_pos_bound (off / 512) 8). lia. }
  assert (Hbase : 0 ≤ off - off mod PAGE_SIZE) by (unfold PAGE_SIZE in *; lia).
  split; [|split; [|split]].
  - by apply original_req_holds.
  - eapply (request_contig _ file off (ROUND_PAGE off)); rewrite ?round_page; simpl; [lia..|].
    intros i. by replace (off - (off - off mod PAGE_SIZE)) with (off mod PAGE_SIZE) by lia.
  - eapply (request_contig _ file off (ROUND off MIN_BLOCK_SIZE)); rewrite ?Hblk; simpl; [lia..|].
    intros i. by replace (off - (off - off mod MIN_BLOCK_SIZE)) with (off mod MIN_BLOCK_SIZE) by lia.
  - intros Hfit. apply request_pages; simpl; [lia..|]. intros i Hi Hlt.
    assert (i = 0) as -> by (unfold PAGE_SIZE in *; lia). simpl. rewrite round_page. do 2 f_equal. lia.
Qed.

(** The array over a part of another array holds the rest of its bytes and is
    located [off] bytes further in the file; an offset past the end fails the
    assertion. *)
Theorem sub_array_holds a bytes (Ha : ArrayHolds a bytes) off :
  0 ≤ off < 2 ^ 63 →
  if off <=? Z.of_nat (length bytes) then
    ∃ s, sub_page_byte_array a off = Ok s ∧ get_offset s = off + get_offset a ∧
      ArrayHolds s (drop (Z.to_nat off) bytes)
  else sub_page_byte_array a off = Throw AssertFailed.
Proof.
  intros Hoff. pose proof (holds_bound (a := a) (bytes := bytes)). pose proof (holds_ofs (a := a) (bytes := bytes)).
  unfold sub_page_byte_array. rewrite (u64_small off), (holds_size (a := a) (bytes := bytes)) by lia.
  destruct (Z.leb_spec off (Z.of_nat (length bytes))) as [Hle|]; [|done].
  eexists. split; [done|]. split; [done|]. destruct (holds_mem a bytes) as (pre & Hpre & Hb & Hp).
  set (pos := off + get_offset_in_first_page a) in *.
  destruct (page_split pos) as (E & Hr & Hq & Eq & Er); [lia|]. set (q := pos / PAGE_SIZE) in *.
  assert (HP : 0 < PAGE_SIZE) by (unfold PAGE_SIZE; lia). rewrite length_app in Hb.
  assert (Hmem : slice (pre ++ bytes) (q * PAGE_SIZE) (pos mod PAGE_SIZE) ++ drop (Z.to_nat off) bytes =
                 drop (Z.to_nat (q * PAGE_SIZE)) (pre ++ bytes)).
  { unfold slice. rewrite <-(take_drop (Z.to_nat (pos mod PAGE_SIZE)) (drop (Z.to_nat (q * PAGE_SIZE)) (pre ++ bytes))) at 2.
    f_equal. rewrite drop_drop, <-Z2Nat.inj_add, <-E by nia. unfold pos. rewrite <-Hpre, Z.add_comm.
    rewrite Z2Nat.inj_add, Nat2Z.id by lia. by rewrite <-drop_drop, drop_app_length. }
  split; simpl; rewrite ?u64_small, ?length_drop by lia; [lia|lia|lia|].
  exists (slice (pre ++ bytes) (q * PAGE_SIZE) (pos mod PAGE_SIZE)). split.
  { rewrite length_slice by (rewrite ?length_app; nia). done. }
  rewrite Hmem, length_drop, length_app. intros i Hi Hlt. rewrite Eq.
  rewrite s32_small by (unfold PAGE_SIZE in *; lia).
  destruct (Hp (q + i)) as (pg & -> & Hpg); [lia|rewrite length_app; nia|]. exists pg. split; [done|].
  revert Hpg. unfold slice. rewrite drop_drop, <-Z2Nat.inj_add by nia. rewrite Z.mul_add_distr_r. done.
Qed.

(** ** Witnesses: a request for the bytes [100, 9100) of a file of 10000 bytes, the
    pages of which are in the cache *)

Definition ex_file : list Z := (λ i, Z.of_nat i mod 256) <$> seq 0 10000.
Definition ex_data : list Z := slice ex_file 100 9000.
Definition ex_arr : page_byte_array := original_req_byte_array 100 9000 (cached_pages ex_file 100 9000).

Lemma ex_length : Z.of_nat (length ex_file) = 10000.
Proof. unfold ex_file. rewrite length_fmap, length_seq. done. Qed.

Lemma ex_holds : ArrayHolds ex_arr ex_data.
Proof. apply original_req_holds; [lia|lia|rewrite ex_length; lia|]. change (100 mod PAGE_SIZE) with 100. lia. Qed.

Lemma ex_data_length : Z.of_nat (length ex_data) = 9000.
Proof. apply length_slice; rewrite ?ex_length; lia. Qed.

Lemma ex_range : good_range ex_arr ex_data 4 12 2000.
Proof.
  split; rewrite ?ex_data_length; try lia. left. unfold PAGE_SIZE. simpl. split; [by exists 1024|].
  by exists 28.
Qed.

Lemma memcpy_correct_witness :
  memcpy ex_arr 3950 (replicate 4000 0) 3000 = Ok (slice ex_data 3950 3000 ++ replicate 1000 0) ∧
  memcpy ex_arr 8000 (replicate 4000 0) 3000 = Throw AssertFailed.
Proof.
  split.
  - rewrite (memcpy_correct ex_arr ex_data ex_holds) by (rewrite ?length_replicate; lia).
    rewrite ex_data_length. done.
  - rewrite (memcpy_correct ex_arr ex_data ex_holds) by (rewrite ?length_replicate; lia).
    rewrite ex_data_length. done.
Defined.

Lemma iterators_agree_witness :
  ∃ si, new_seq_iter ex_arr 4 12 8012 = Ok si ∧
    page_foreach 2001 ex_arr 4 0 si = Ok (number 0 (elems ex_data 4 2000 12)).
Proof.
  destruct (iterators_agree ex_arr ex_data ex_holds 4 12 2000 ex_range) as (_ & _ & si & _ & _ & Hs & _ & _ & _ & Hf).
  by exists si.
Defined.

Lemma move_to_correct_witness :
  ∃ si it', new_seq_iter ex_arr 4 12 8012 = Ok si ∧ si_move_to ex_arr 4 1500 si = Ok (true, it') ∧
    si_drain 2001 ex_arr 4 it' = Ok (elems ex_data 4 500 6012).
Proof.
  destruct (new_seq_iter_ok ex_arr ex_data (Ha := ex_holds) 4 12 2000 ex_range) as ([p st off e] & Hsi & _).
  destruct (move_to_correct ex_arr ex_data ex_holds 4 12 2000 _ p off 1500 ex_range Hsi ltac:(lia) ltac:(lia))
    as (found & it' & Hm & -> & Hd).
  exists (mkSI p st off e), it'. split; [done|]. split; [done|]. by apply Hd.
Defined.

Lemma request_arrays_hold_witness :
  ArrayHolds (in_mem_byte_array 100 9000 (slice ex_file 0 9100 ++ [])) ex_data ∧
  ArrayHolds (direct_byte_array 100 9000 (slice ex_file 0 9100 ++ [])) ex_data.
Proof.
  destruct (request_arrays_hold ex_file 100 9000 [] ltac:(lia) ltac:(lia) ltac:(rewrite ex_length; lia)
    ltac:(change (100 mod PAGE_SIZE) with 100; lia)) as (_ & H1 & H2 & _). split; [exact H1|exact H2].
Defined.

Lemma sub_array_holds_witness :
  ∃ s, sub_page_byte_array ex_arr 5000 = Ok s ∧ get_offset s = 5100 ∧ ArrayHolds s (drop 5000 ex_data).
Proof.
  pose proof (sub_array_holds ex_arr ex_data ex_holds 5000 ltac:(lia)) as H. rewrite ex_data_length in H. exact H.
Defined.

(** ** Where the accesses fail *)

(** The alignment assertion looks at the first page only: with elements of 3
    bytes it accepts a range whose element after the second page crosses the
    page, and both iterators read past that page. *)
Example iterators_straddle :
  let a := original_req_byte_array 1 8193 (cached_pages ex_file 1 8193) in
  (∃ si, new_seq_iter a 3 0 8193 = Ok si ∧ si_drain 3000 a 3 si = Throw Segfault) ∧
  (∃ it, new_const_iterator a 3 0 8193 = Ok it ∧ ci_drain 3000 a 3 it = Throw Segfault).
Proof. split; eexists; (split; [vm_compute; reflexivity|vm_compute; reflexivity]). Qed.

(** The difference of two iterators is right only when it is not negative. *)
Example ci_minus_negative : ci_minus 4 (mkCI 8 8) (mkCI 0 8) = 2 ∧ ci_minus 4 (mkCI 0 8) (mkCI 8 8) = 2 ^ 62 - 2.
Proof. done. Qed.

(** The number of remaining elements does not change while the iterator is in one
    page and is negative after the loop. *)
Example num_tot_entries_wrong :
  match new_seq_iter ex_arr 4 0 8 with
  | Ok it0 =>
      get_num_tot_entries 4 it0 = 2 ∧
      match si_next 4 it0 with
      | Ok (_, it1) =>
          get_num_tot_entries 4 it1 = 2 ∧
          match si_next 4 it1 with
          | Ok (_, it2) =>
              match si_has_next ex_arr it2 with
              | Ok (more, it3) => more = false ∧ get_num_tot_entries 4 it3 = -997
              | Throw _ => False
              end
          | Throw _ => False
          end
      | Throw _ => False
      end
  | Throw _ => False
  end.
Proof. vm_compute. done. Qed.

(** [pg_idx * PAGE_SIZE] overflows at 2 GB. *)
Example in_mem_page_overflow off size pages :
  get_page (in_mem_byte_array off size pages) (2 ^ 19) = Throw Segfault.
Proof. done. Qed.
