(* ===== verification/PageCell.v ===== *)
(** * The pages of the SAFS page cache and its eviction: [SAFS/libsafs/cache.h]
      ([page], [thread_safe_page]) and the page sets ([page_cell]) and eviction
      policies of [associative_cache.h] and [associative_cache.cpp]

    A [page_cell] is an array of [CELL_SIZE] page descriptors, some of which have
    no data; [maps] lists the positions of those that have.  A pointer to a
    descriptor is its position in the array, so an operation on a page is an
    update of the cell.  The functions of this file run with the lock of the cell
    held: no reference is taken on a page of the cell while they run, and that
    other threads may drop one meanwhile is not modelled. *)
From S2P Require Import Prelude.
From stdpp Require Import options sorting.
Open Scope Z_scope.

Definition CELL_SIZE : nat := 16.
Definition CELL_MIN_NUM_PAGES : Z := 8.
Definition MAX_NUM_WRITEBACK : Z := 4.
Definition LOG_PAGE_SIZE : Z := 12.

(** [unsigned char], [char] (signed) and [short] *)
Definition u8 (z : Z) : Z := z mod 2 ^ 8.
Definition s8 (z : Z) : Z := (z + 2 ^ 7) mod 2 ^ 8 - 2 ^ 7.
Definition s16 (z : Z) : Z := (z + 2 ^ 15) mod 2 ^ 16 - 2 ^ 15.

(** ** Pages *)

Definition DATA_READY_BIT : Z := 0.
Definition IO_PENDING_BIT : Z := 1.
Definition DIRTY_BIT : Z := 2.
Definition OLD_DIRTY_BIT : Z := 3.
Definition PREPARE_WRITEBACK : Z := 4.
Definition LOCK_BIT : Z := 5.
Definition ACTIVE_BIT : Z := 6.
Definition REFERENCED_BIT : Z := 7.

Record page_id := mkId { id_file : Z; id_off : Z }.
Definition invalid_id : page_id := mkId (-1) (-1).

(** [offset] is in pages; [data] is the address of the page, [None] for [NULL]. *)
Record page := mkPage {
  offset : Z;
  file_id : Z;
  data : option Z;
  refcnt : Z;
  flags : Z;
  hits : Z;
  flush_score : Z;
  node_id : Z
}.

Definition null_page : page := mkPage (-1) (-1) None 0 0 0 0 (-1).

Definition page_of_off (off : Z) : Z := s32 (Z.shiftr off LOG_PAGE_SIZE).

Definition new_page (pg_id : page_id) (d : option Z) (node : Z) : page :=
  mkPage (page_of_off (id_off pg_id)) (id_file pg_id) d 0 0 0 0 node.

Definition set_id (pg_id : page_id) (p : page) : page :=
  mkPage (page_of_off (id_off pg_id)) (id_file pg_id) (data p) (refcnt p) (flags p) (hits p) (flush_score p) (node_id p).

Definition is_valid (p : page) : bool := negb (offset p =? -1).
Definition initialized (p : page) : bool := negb (offset p =? -1).
Definition get_offset (p : page) : Z := Z.shiftl (offset p) LOG_PAGE_SIZE.

Definition with_flags (p : page) (f : Z) : page :=
  mkPage (offset p) (file_id p) (data p) (refcnt p) f (hits p) (flush_score p) (node_id p).
Definition with_hits (p : page) (h : Z) : page :=
  mkPage (offset p) (file_id p) (data p) (refcnt p) (flags p) h (flush_score p) (node_id p).
Definition with_ref (p : page) (r : Z) : page :=
  mkPage (offset p) (file_id p) (data p) r (flags p) (hits p) (flush_score p) (node_id p).
Definition with_score (p : page) (s : Z) : page :=
  mkPage (offset p) (file_id p) (data p) (refcnt p) (flags p) (hits p) s (node_id p).

(** [page_set_flag], [page::set_flag] and [thread_safe_page::set_flags_bit]: the
    new flags; [get_flag] tells what they return of the old ones. *)
Definition page_set_flag (fl : Z) (flag : Z) (v : bool) : Z :=
  if v then s8 (Z.lor fl (Z.shiftl 1 flag)) else s8 (Z.land fl (Z.lnot (Z.shiftl 1 flag))).
Definition get_flag (fl : Z) (flag : Z) : bool := negb (Z.land fl (Z.shiftl 1 flag) =? 0).

Definition set_flag (flag : Z) (v : bool) (p : page) : page := with_flags p (page_set_flag (flags p) flag v).
Definition test_flags (fl : Z) (p : page) : bool := negb (Z.land (flags p) fl =? 0).

Definition data_ready (p : page) : bool := get_flag (flags p) DATA_READY_BIT.
Definition is_io_pending (p : page) : bool := get_flag (flags p) IO_PENDING_BIT.
Definition is_dirty (p : page) : bool := get_flag (flags p) DIRTY_BIT.
Definition is_old_dirty (p : page) : bool := get_flag (flags p) OLD_DIRTY_BIT.
Definition is_prepare_writeback (p : page) : bool := get_flag (flags p) PREPARE_WRITEBACK.
Definition set_data_ready : bool → page → page := set_flag DATA_READY_BIT.
Definition set_io_pending : bool → page → page := set_flag IO_PENDING_BIT.
Definition set_dirty : bool → page → page := set_flag DIRTY_BIT.
Definition set_old_dirty : bool → page → page := set_flag OLD_DIRTY_BIT.
Definition set_prepare_writeback : bool → page → page := set_flag PREPARE_WRITEBACK.

Definition reset_hits (p : page) : page := with_hits p 0.
Definition set_hits (h : Z) (p : page) : res page :=
  if h <=? 255 then Ok (with_hits p (u8 h)) else Throw AssertFailed.
Definition hit (p : page) : page := with_hits p (u8 (hits p + 1)).
Definition inc_ref (p : page) : page := with_ref p (s16 (refcnt p + 1)).
Definition dec_ref (p : page) : page := with_ref p (s16 (refcnt p - 1)).
Definition set_flush_score (s : Z) (p : page) : page := with_score p (s8 s).

(** ** [page_cell] *)

Record page_cell := mkCell { idx : Z; num_pages : Z; maps : list Z; buf : list page }.

Definition new_cell : page_cell := mkCell 0 0 (replicate CELL_SIZE 0) (replicate CELL_SIZE null_page).

Definition has_data (p : page) : bool := match data p with Some _ => true | None => false end.
Arguments has_data : simpl never.

(** The positions of the descriptors with data, in order. *)
Definition used (b : list page) : list nat := filter (λ i, has_data (default null_page (b !! i))) (seq 0 (length b)).

Definition get_num_used_pages (c : page_cell) : Z := Z.of_nat (length (used (buf c))).

(** Copies the positions over the beginning of [maps]; there are at most
    [CELL_SIZE] of them. *)
Definition rebuild_map (c : page_cell) : res page_cell :=
  let u := used (buf c) in
  let m := (Z.of_nat <$> u) ++ drop (length u) (maps c) in
  if Z.of_nat (length u) =? num_pages c then Ok (mkCell (idx c) (num_pages c) m (buf c)) else Throw AssertFailed.

Definition set_pages (pages : list Z) (node : Z) (c : page_cell) : res page_cell :=
  if (length pages <=? CELL_SIZE)%nat then
    let new := (λ d, new_page invalid_id (Some d) node) <$> pages in
    let n := length pages in
    Ok (mkCell 0 (u8 (Z.of_nat n)) ((Z.of_nat <$> seq 0 n) ++ drop n (maps c)) (new ++ drop n (buf c)))
  else Throw AssertFailed.

(** Puts pages in the descriptors without data, in order; also returns the pages
    left over. *)
Fixpoint fill_gaps (new : list page) (b : list page) : list page * list page :=
  match b, new with
  | [], _ => ([], new)
  | _, [] => (b, [])
  | p :: b', q :: new' =>
      if has_data p then let r := fill_gaps new b' in (p :: r.1, r.2)
      else let r := fill_gaps new' b' in (q :: r.1, r.2)
  end.

Definition add_pages (pages : list Z) (node : Z) (c : page_cell) : res page_cell :=
  if negb (num_pages c =? get_num_used_pages c) then Throw AssertFailed else
  if negb (Z.of_nat (length pages) + num_pages c <=? Z.of_nat CELL_SIZE) then Throw AssertFailed else
  let new := (λ d, new_page invalid_id (Some d) node) <$> pages in
  rebuild_map (mkCell (idx c) (u8 (num_pages c + Z.of_nat (length pages))) (maps c) (fill_gaps new (buf c)).1).

Definition inject_pages (pages : list page) (c : page_cell) : res page_cell :=
  let r := fill_gaps pages (buf c) in
  let num_copied := Z.of_nat (length pages) - Z.of_nat (length r.2) in
  if negb (num_copied =? Z.of_nat (length pages)) then Throw AssertFailed else
  rebuild_map (mkCell (idx c) (u8 (num_pages c + num_copied)) (maps c) r.1).

(** Takes up to [n] pages out of the descriptors.  A referenced page is waited
    for: alone, the loop does not end. *)
Fixpoint take_pages (n : nat) (b : list page) : res (list page * list page) :=
  match b, n with
  | [], _ => Ok ([], [])
  | _, O => Ok ([], b)
  | p :: b', S n' =>
      if has_data p then
        if 0 <? refcnt p then Throw OutOfFuel else
        let? r := take_pages n' b' in Ok (p :: r.1, null_page :: r.2)
      else let? r := take_pages n b' in Ok (r.1, p :: r.2)
  end.

Definition steal_pages (npages : nat) (c : page_cell) : res (list page * page_cell) :=
  let? r := take_pages npages (buf c) in
  let n := u8 (num_pages c - Z.of_nat (length r.1)) in
  if 0 <? n then let? c' := rebuild_map (mkCell (idx c) n (maps c) r.2) in Ok (r.1, c')
  else Ok (r.1, mkCell (idx c) n (replicate CELL_SIZE 0) r.2).

(** The page at a position, and an update of it. *)
Definition page_at (c : page_cell) (i : Z) : res page :=
  match buf c !! Z.to_nat i with Some p => Ok p | None => Throw Segfault end.
Definition upd_page (i : Z) (f : page → page) (c : page_cell) : page_cell :=
  mkCell (idx c) (num_pages c) (maps c) (alter f (Z.to_nat i) (buf c)).

(** [steal_page(pg, rebuild)]: the caller resets the descriptor. *)
Definition steal_page (pg : Z) (rebuild : bool) (c : page_cell) : res page_cell :=
  let? p := page_at c pg in
  if negb (refcnt p =? 0) then Throw AssertFailed else
  let c' := mkCell (idx c) (u8 (num_pages c - 1)) (maps c) (buf c) in
  if rebuild then rebuild_map c' else Ok c'.

(** [get_page(i)]: the position of the [i]th page with data. *)
Definition get_page (c : page_cell) (i : Z) : res Z :=
  match maps c !! Z.to_nat i with
  | Some real_idx =>
      let? p := page_at c real_idx in if has_data p then Ok real_idx else Throw AssertFailed
  | None => Throw Segfault
  end.

(** [get_empty_page]; the first loop does not end on an empty cell. *)
Fixpoint wrap_idx (fuel : nat) (i n : Z) : res Z :=
  match fuel with
  | O => Throw OutOfFuel
  | S f => if n <=? i then wrap_idx f (u8 (i - n)) n else Ok i
  end.
Definition get_empty_page (c : page_cell) : res (Z * page_cell) :=
  let? i := wrap_idx 257 (idx c) (num_pages c) in
  let? ret := get_page c i in
  Ok (ret, mkCell (u8 (i + 1)) (num_pages c) (maps c) (buf c)).

Definition get_idx (page : Z) (c : page_cell) : res Z :=
  if (0 <=? page) && (page <? num_pages c) then Ok page else Throw AssertFailed.

Definition contain (pg : Z) (c : page_cell) : bool := (0 <=? pg) && (pg <? num_pages c).

(** [for (i = 0; i < num_pages; i++) f(get_page(i))] *)
Fixpoint for_pages (n : nat) (i : Z) (f : Z → page_cell → res page_cell) (c : page_cell) : res page_cell :=
  match n with
  | O => Ok c
  | S n' => let? pg := get_page c i in let? c' := f pg c in for_pages n' (i + 1) f c'
  end.

Definition scale_down_hits (c : page_cell) : res page_cell :=
  for_pages (Z.to_nat (num_pages c)) 0
    (λ pg c, let? p := page_at c pg in
             let? p' := set_hits (hits p `quot` 2) p in Ok (upd_page pg (λ _, p') c)) c.

(** [sanity_check]; [min] is the configured minimal number of pages. *)
Fixpoint check_maps (c : page_cell) (prev : Z) (m : list Z) : bool :=
  match m with
  | [] => true
  | i :: m' => (if 0 <=? prev then prev <? i else true) &&
      match buf c !! Z.to_nat i with Some p => has_data p | None => false end && check_maps c i m'
  end.
Definition sanity_check (min : Z) (c : page_cell) : bool :=
  (min <=? num_pages c) && (get_num_used_pages c =? num_pages c) &&
  check_maps c (-1) (take (Z.to_nat (num_pages c)) (maps c)).

(** ** Eviction policies *)

(** [gclock_eviction_policy::evict_page]: the page and the new [clock_head].  The
    counters stay below twice the number of pages. *)
Fixpoint gclock_loop (fuel : nat) (clock_head num_referenced num_dirty : Z) (avoid_dirty : bool) (c : page_cell)
  : res (option Z * Z * page_cell) :=
  match fuel with
  | O => Throw OutOfFuel
  | S f =>
      if num_pages c =? 0 then Throw (runtime_error "division by zero") else
      let? pg := get_page c (clock_head mod num_pages c) in
      let? p := page_at c pg in
      let reset := num_pages c <=? num_dirty + num_referenced in
      let num_dirty := if reset then 0 else num_dirty in
      let num_referenced := if reset then 0 else num_referenced in
      let avoid_dirty := if reset then false else avoid_dirty in
      let clock_head := u32 (clock_head + 1) in
      if negb (refcnt p =? 0) then
        if num_pages c <=? num_referenced + 1 then Ok (None, clock_head, c)
        else gclock_loop f clock_head (num_referenced + 1) num_dirty avoid_dirty c
      else if avoid_dirty && is_dirty p then
        gclock_loop f clock_head num_referenced (num_dirty + 1) avoid_dirty c
      else if hits p =? 0 then Ok (Some pg, clock_head, c)
      else
        let? p' := set_hits (hits p - 1) p in
        gclock_loop f clock_head num_referenced num_dirty avoid_dirty (upd_page pg (λ _, p') c)
  end.

(** Each turn of the loop counts a page or takes a hit away. *)
Definition total_hits (c : page_cell) : nat := sum_list (Z.to_nat ∘ hits <$> buf c).
Definition gclock_fuel (c : page_cell) : nat := 4 * Z.to_nat (num_pages c) + total_hits c + 1.

Definition gclock_evict_page (clock_head : Z) (c : page_cell) : res (option Z * Z * page_cell) :=
  let? r := gclock_loop (gclock_fuel c) clock_head 0 0 true c in
  match r with
  | (Some pg, h, c') => Ok (Some pg, h, upd_page pg (set_data_ready false) c')
  | (None, h, c') => Ok (None, h, c')
  end.

(** [clock_eviction_policy::evict_page]: the hand stays on the page it evicts. *)
Fixpoint clock_loop (fuel : nat) (clock_head num_referenced num_dirty : Z) (avoid_dirty : bool) (c : page_cell)
  : res (option Z * Z * page_cell) :=
  match fuel with
  | O => Throw OutOfFuel
  | S f =>
      if num_pages c =? 0 then Throw (runtime_error "division by zero") else
      let? pg := get_page c (clock_head mod num_pages c) in
      let? p := page_at c pg in
      let reset := num_pages c <=? num_dirty + num_referenced in
      let num_dirty := if reset then 0 else num_dirty in
      let num_referenced := if reset then 0 else num_referenced in
      let avoid_dirty := if reset then false else avoid_dirty in
      if negb (refcnt p =? 0) then
        if num_pages c <=? num_referenced + 1 then Ok (None, clock_head, c)
        else clock_loop f (u32 (clock_head + 1)) (num_referenced + 1) num_dirty avoid_dirty c
      else if avoid_dirty && is_dirty p then
        clock_loop f (u32 (clock_head + 1)) num_referenced (num_dirty + 1) avoid_dirty c
      else if hits p =? 0 then Ok (Some pg, clock_head, c)
      else clock_loop f (u32 (clock_head + 1)) num_referenced num_dirty avoid_dirty (upd_page pg reset_hits c)
  end.
Definition clock_evict_page (clock_head : Z) (c : page_cell) : res (option Z * Z * page_cell) :=
  let? r := clock_loop (gclock_fuel c) clock_head 0 0 true c in
  match r with
  | (Some pg, h, c') => Ok (Some pg, h, upd_page pg (λ p, reset_hits (set_data_ready false p)) c')
  | (None, h, c') => Ok (None, h, c')
  end.

(** [LFU_eviction_policy::evict_page].  The outer loop repeats until a reference
    is dropped; alone, a pass without a candidate does not end. *)
Fixpoint lfu_scan (n : nat) (i min_hits : Z) (ret : option Z) (c : page_cell) : res (Z * option Z) :=
  match n with
  | O => Ok (min_hits, ret)
  | S n' =>
      let? pg := get_page c i in
      let? p := page_at c pg in
      if negb (refcnt p =? 0) then lfu_scan n' (i + 1) min_hits ret c else
      let '(min_hits, ret) := if hits p <? min_hits then (hits p, Some pg) else (min_hits, ret) in
      if min_hits =? 0 then Ok (min_hits, ret) else lfu_scan n' (i + 1) min_hits ret c
  end.
Definition lfu_evict_page (c : page_cell) : res (Z * page_cell) :=
  let? r := lfu_scan (Z.to_nat (num_pages c)) 0 2147483647 None c in
  match r.2 with
  | Some pg => Ok (pg, upd_page pg (λ p, reset_hits (set_data_ready false p)) c)
  | None => Throw OutOfFuel
  end.

(** [FIFO_eviction_policy::evict_page] *)
Fixpoint fifo_loop (fuel : nat) (c : page_cell) : res (Z * page_cell) :=
  match fuel with
  | O => Throw OutOfFuel
  | S f =>
      let? r := get_empty_page c in
      let? p := page_at r.2 r.1 in
      if refcnt p =? 0 then Ok r else fifo_loop f r.2
  end.
Definition fifo_evict_page (c : page_cell) : res (Z * page_cell) :=
  let? r := fifo_loop (S (Z.to_nat (num_pages c))) c in
  Ok (r.1, upd_page r.1 (set_data_ready false) r.2).

(** [LRU_eviction_policy]: [pos_vec] lists positions, the most recently used
    last. *)
Definition lru_evict_page (pos_vec : list Z) (c : page_cell) : res (Z * list Z * page_cell) :=
  let? r := if Z.of_nat (length pos_vec) <? num_pages c then Ok (Z.of_nat (length pos_vec), pos_vec)
            else match pos_vec with pos :: rest => Ok (pos, rest) | [] => Throw Segfault end in
  let? pg := get_page c r.1 in
  let? p := page_at c pg in
  if negb (refcnt p =? 0) then Throw OutOfFuel else
  Ok (pg, r.2 ++ [r.1], upd_page pg (set_data_ready false) c).

Fixpoint erase_pos (pos : Z) (l : list Z) : list Z :=
  match l with [] => [] | x :: l' => if x =? pos then l' else x :: erase_pos pos l' end.
Definition lru_access_page (pg : Z) (pos_vec : list Z) (c : page_cell) : res (list Z) :=
  let? pos := get_idx pg c in Ok (erase_pos pos pos_vec ++ [pos]).

(** ** Flush scores and prediction of [gclock_eviction_policy] *)

Definition score_of (n head i : Z) (p : page) : Z := hits p * n + (i - head + n) mod n.

(** The valid pages, by position, with their scores.  [std::sort] is modelled by
    insertion; no two scores are equal. *)
Fixpoint collect_scores (k : nat) (i head : Z) (c : page_cell) : res (list (Z * Z) * page_cell) :=
  match k with
  | O => Ok ([], c)
  | S k' =>
      let? pg := get_page c i in
      let? p := page_at c pg in
      if is_valid p then
        let score := score_of (num_pages c) head i p in
        let? r := collect_scores k' (i + 1) head (upd_page pg (set_flush_score score) c) in
        Ok ((pg, score) :: r.1, r.2)
      else collect_scores k' (i + 1) head c
  end.
Definition sort_scores (l : list (Z * Z)) : list (Z * Z) := foldr (ins_by (λ x y, x.2 <? y.2)) [] l.
Fixpoint number_scores (i : Z) (l : list (Z * Z)) (c : page_cell) : page_cell :=
  match l with
  | [] => c
  | (pg, _) :: l' => number_scores (i + 1) l' (upd_page pg (set_flush_score i) c)
  end.
Definition assign_flush_scores (clock_head : Z) (c : page_cell) : res page_cell :=
  if num_pages c =? 0 then Throw (runtime_error "division by zero") else
  let? r := collect_scores (Z.to_nat (num_pages c)) 0 (clock_head mod num_pages c) c in
  Ok (number_scores 0 (sort_scores r.1) r.2).

(** [predict_evicted_pages]: [pages] is the map from offsets to pages, [hs] the
    copied hits; [inl] when the function returns. *)
Definition pred_state : Type := gmap Z Z * list Z * Z.
Fixpoint predict_pass (k : nat) (i clock_head want set_flags clear_flags : Z) (c : page_cell) (s : pred_state)
  : res (gmap Z Z + pred_state) :=
  match k with
  | O => Ok (inr s)
  | S k' =>
      let '(pages, hs, likely) := s in
      let ix := u32 (i + clock_head) mod num_pages c in
      match hs !! Z.to_nat ix with
      | None => Throw Segfault
      | Some h =>
          if h <? 0 then predict_pass k' (i + 1) clock_head want set_flags clear_flags c s else
          if h =? 0 then
            let hs := <[Z.to_nat ix := -1]> hs in
            let? pg := get_page c ix in
            let? p := page_at c pg in
            let sel := test_flags set_flags p && negb (test_flags clear_flags p) in
            let pages' := if sel then
                            match pages !! get_offset p with Some _ => pages | None => <[get_offset p := pg]> pages end
                          else pages in
            if sel && (Z.of_nat (size pages') =? want) then Ok (inl pages') else
            if MAX_NUM_WRITEBACK <=? likely + 1 then Ok (inl pages') else
            predict_pass k' (i + 1) clock_head want set_flags clear_flags c (pages', hs, likely + 1)
          else
            let hs := <[Z.to_nat ix := h - 1]> hs in
            if MAX_NUM_WRITEBACK <=? likely then Ok (inl pages) else
            predict_pass k' (i + 1) clock_head want set_flags clear_flags c (pages, hs, likely)
      end
  end.
Fixpoint predict_loop (fuel : nat) (clock_head want set_flags clear_flags : Z) (c : page_cell) (s : pred_state)
  : res (gmap Z Z) :=
  match fuel with
  | O => Throw OutOfFuel
  | S f =>
      let? r := predict_pass (Z.to_nat (num_pages c)) 0 clock_head want set_flags clear_flags c s in
      match r with inl pages => Ok pages | inr s' => predict_loop f clock_head want set_flags clear_flags c s' end
  end.
Fixpoint copy_hits (k : nat) (i : Z) (c : page_cell) : res (list Z) :=
  match k with
  | O => Ok []
  | S k' => let? pg := get_page c i in let? p := page_at c pg in
            let? r := copy_hits k' (i + 1) c in Ok (hits p :: r)
  end.
Definition predict_evicted_pages (clock_head want set_flags clear_flags : Z) (pages : gmap Z Z) (c : page_cell)
  : res (gmap Z Z * page_cell) :=
  let? hs := copy_hits (Z.to_nat (num_pages c)) 0 c in
  let? c' := assign_flush_scores clock_head c in
  let? r := predict_loop 257 clock_head want set_flags clear_flags c' (pages, hs, 0) in
  Ok (r, c').

(** ** Cell invariant *)

Definition page_ok (p : page) : Prop := 0 ≤ hits p ≤ 255.

Record cell_wf (c : page_cell) : Prop := {
  wf_maps : length (maps c) = CELL_SIZE;
  wf_buf : length (buf c) = CELL_SIZE;
  wf_num : num_pages c = Z.of_nat (length (used (buf c)));
  wf_map : take (length (used (buf c))) (maps c) = Z.of_nat <$> used (buf c);
  wf_pages : Forall page_ok (buf c)
}.

(** The array without gaps that [get_page] exposes. *)
Definition view (c : page_cell) : list page := (λ i, default null_page (buf c !! i)) <$> used (buf c).

Lemma used_NoDup b : NoDup (used b).
Proof. apply NoDup_filter, NoDup_seq. Qed.

Lemma used_lookup b i u : used b !! i = Some u → ∃ p, b !! u = Some p ∧ has_data p = true.
Proof.
  intros H. apply list_elem_of_lookup_2 in H. unfold used in H. apply list_elem_of_filter in H as [Hd Hin].
  apply elem_of_seq in Hin. destruct (b !! u) as [p|] eqn:E; [|by apply lookup_ge_None in E; lia].
  exists p. split; [done|]. simpl in Hd. by apply Is_true_true.
Qed.

Lemma elem_of_used b u p : b !! u = Some p → has_data p = true → u ∈ used b.
Proof.
  intros E H. unfold used. apply list_elem_of_filter. rewrite E. simpl. rewrite H. split; [done|].
  apply lookup_lt_Some in E. apply elem_of_seq. lia.
Qed.

Lemma used_length_le b : (length (used b) ≤ length b)%nat.
Proof. unfold used. etrans; [apply length_filter|]. by rewrite length_seq. Qed.

Lemma length_view c : length (view c) = length (used (buf c)).
Proof. apply length_fmap. Qed.

Lemma view_get c (Hwf : cell_wf c) i : 0 ≤ i < num_pages c →
  ∃ u p, used (buf c) !! Z.to_nat i = Some u ∧ view c !! Z.to_nat i = Some p ∧ buf c !! u = Some p ∧
    get_page c i = Ok (Z.of_nat u) ∧ page_at c (Z.of_nat u) = Ok p ∧ has_data p = true.
Proof.
  intros Hi. destruct Hwf. rewrite wf_num0 in Hi.
  destruct (used (buf c) !! Z.to_nat i) as [u|] eqn:Eu; [|apply lookup_ge_None in Eu; lia].
  destruct (used_lookup _ _ _ Eu) as (p & Hp & Hd). exists u, p. split; [done|].
  split; [unfold view; by rewrite list_lookup_fmap, Eu; simpl; rewrite Hp|]. split; [done|].
  assert (Hpa : page_at c (Z.of_nat u) = Ok p) by (unfold page_at; by rewrite Nat2Z.id, Hp).
  split; [|done]. unfold get_page.
  assert (Em : maps c !! Z.to_nat i = Some (Z.of_nat u)).
  { assert (El : take (length (used (buf c))) (maps c) !! Z.to_nat i = Some (Z.of_nat u))
      by (by rewrite wf_map0, list_lookup_fmap, Eu).
    rewrite lookup_take_lt in El by lia. done. }
  rewrite Em, Hpa. simpl. by rewrite Hd.
Qed.

(** An update that keeps the data of the page keeps the structure of the cell. *)
Lemma used_alter b u f : (∀ p, b !! u = Some p → has_data (f p) = has_data p) → used (alter f u b) = used b.
Proof.
  intros Hf. unfold used. rewrite length_alter. apply list_filter_iff. intros i.
  destruct (decide (i = u)) as [->|Hne].
  - rewrite list_lookup_alter_eq. destruct (b !! u) eqn:E; simpl; [by rewrite Hf|done].
  - by rewrite list_lookup_alter_ne by done.
Qed.

Lemma upd_page_wf u f c : cell_wf c → (∀ p, buf c !! Z.to_nat u = Some p → has_data (f p) = has_data p) →
  (∀ p, buf c !! Z.to_nat u = Some p → page_ok p → page_ok (f p)) → cell_wf (upd_page u f c).
Proof.
  intros [] Hf Hok. split; simpl; rewrite ?length_alter, ?used_alter by done; try done.
  apply Forall_lookup_2. intros i p Hp. destruct (decide (i = Z.to_nat u)) as [->|Hne].
  - rewrite list_lookup_alter_eq in Hp. destruct (buf c !! Z.to_nat u) as [q|] eqn:Eq; [|done].
    simpl in Hp. injection Hp as <-. apply Hok; [done|]. by eapply Forall_lookup_1.
  - rewrite list_lookup_alter_ne in Hp by done. by eapply Forall_lookup_1.
Qed.

Lemma view_upd c i u f : used (buf c) !! i = Some u → (∀ p, has_data (f p) = has_data p) →
  view (upd_page (Z.of_nat u) f c) = alter f i (view c).
Proof.
  intros Hu Hf. unfold view. simpl. rewrite Nat2Z.id, used_alter by done. apply list_eq. intros j.
  rewrite list_lookup_fmap. destruct (decide (i = j)) as [<-|Hne].
  - rewrite list_lookup_alter_eq, list_lookup_fmap, Hu. simpl. rewrite list_lookup_alter_eq.
    destruct (used_lookup _ _ _ Hu) as (p & -> & _). done.
  - rewrite list_lookup_alter_ne, list_lookup_fmap by done.
    destruct (used (buf c) !! j) as [v|] eqn:Ev; [|done]. simpl.
    rewrite list_lookup_alter_ne; [done|]. intros <-. apply Hne. eapply NoDup_lookup; eauto using used_NoDup.
Qed.

(** ** The clock *)

(** What the hand of the clock changes: it takes hits from pages that are not
    referenced. *)
Definition ticked (p p' : page) : Prop :=
  p' = with_hits p (hits p') ∧ 0 ≤ hits p' ≤ hits p ∧ (refcnt p ≠ 0 → hits p' = hits p).

Record evolves (c c' : page_cell) : Prop := {
  ev_idx : idx c' = idx c;
  ev_num : num_pages c' = num_pages c;
  ev_maps : maps c' = maps c;
  ev_buf : Forall2 ticked (buf c) (buf c')
}.

Lemma ticked_refl p : page_ok p → ticked p p.
Proof. intros []. split; [by destruct p|]. lia. Qed.

Lemma ticked_trans p q r : ticked p q → ticked q r → ticked p r.
Proof.
  intros (Ep & Hp & Rp) (Eq & Hq & Rq). split; [rewrite Eq, Ep; done|]. split; [lia|].
  intros Hr. rewrite Rq, Rp; [done|done|]. rewrite Ep. done.
Qed.

Lemma evolves_refl c : cell_wf c → evolves c c.
Proof.
  intros Hwf. split; try done. apply Forall2_same_length_lookup_2; [done|].
  intros i p p' H1 H2. simplify_eq. apply ticked_refl. eapply Forall_lookup_1; [apply Hwf|done].
Qed.

Lemma evolves_trans c c' c'' : evolves c c' → evolves c' c'' → evolves c c''.
Proof.
  intros [] []. split; try congruence. eapply Forall2_trans; [|done|done].
  intros; by eapply ticked_trans.
Qed.

Lemma ticked_data p p' : ticked p p' → has_data p' = has_data p.
Proof. intros (-> & _). done. Qed.

Definition dec_hits (p : page) : page := with_hits p (hits p - 1).

Lemma set_hits_ok p : page_ok p → hits p ≠ 0 → set_hits (hits p - 1) p = Ok (dec_hits p).
Proof.
  intros [? ?] ?. unfold set_hits, dec_hits, u8. rewrite (proj2 (Z.leb_le _ _)), Z.mod_small by lia. done.
Qed.

Lemma alter_const {A} (b : list A) u p f : b !! u = Some p → alter (λ _, f p) u b = alter f u b.
Proof. revert u. induction b as [|x b IH]; intros [|u] H; simplify_eq/=; [done|]. f_equal. by apply IH. Qed.

Lemma dec_hits_evolves c u p : cell_wf c → buf c !! u = Some p → hits p ≠ 0 → refcnt p = 0 →
  cell_wf (upd_page (Z.of_nat u) dec_hits c) ∧ evolves c (upd_page (Z.of_nat u) dec_hits c).
Proof.
  intros Hwf Hp Hh Hr. split.
  - apply upd_page_wf; [done|done|]. rewrite Nat2Z.id, Hp. intros q [= <-] [? ?]. split; simpl; lia.
  - split; try done. simpl. rewrite Nat2Z.id. apply Forall2_same_length_lookup_2; [by rewrite length_alter|].
    intros i q q' H1 H2. pose proof (Forall_lookup_1 _ _ _ _ (wf_pages _ Hwf) H1) as Hok.
    destruct (decide (i = u)) as [->|Hne].
    + rewrite list_lookup_alter_eq, H1 in H2. simplify_eq/=. destruct Hok.
      split; [done|]. split; simpl; lia.
    + rewrite list_lookup_alter_ne in H2 by done. simplify_eq. by apply ticked_refl.
Qed.

Lemma total_hits_dec c u p : buf c !! u = Some p → 0 < hits p →
  (total_hits (upd_page (Z.of_nat u) dec_hits c) + 1 = total_hits c)%nat.
Proof.
  unfold total_hits. simpl. rewrite Nat2Z.id. generalize (buf c) as b. intros b. revert u.
  induction b as [|x b IH]; intros [|u] Hu Hh; simplify_eq/=; [lia|].
  specialize (IH u Hu Hh). lia.
Qed.

(** How many more turns the counters of the loop allow. *)
Definition turns (n num_referenced num_dirty : Z) (avoid_dirty : bool) : Z :=
  if avoid_dirty then (n - Z.min n (num_referenced + num_dirty)) + n + 1 else n - num_referenced.

(** The counters after the test at the top of the loop. *)
Lemma reset_counters n nref ndirty avoid : 0 < n → 0 ≤ nref < n → 0 ≤ ndirty → (avoid = false → ndirty = 0) →
  let reset := n <=? ndirty + nref in
  let nr := if reset then 0 else nref in
  let nd := if reset then 0 else ndirty in
  let av := if reset then false else avoid in
  0 ≤ nr < n ∧ 0 ≤ nd ∧ (av = false → nd = 0) ∧
  turns n nr nd av ≤ turns n nref ndirty avoid ∧ (av = true → nr + nd < n).
Proof.
  intros Hn Hr Hd Ha. unfold turns. destruct (Z.leb_spec n (ndirty + nref)); destruct avoid;
    try specialize (Ha eq_refl); repeat split; try done; lia.
Qed.

(** The loop ends: it finds a page that is neither referenced nor has hits left, or
    it has met as many referenced pages as there are pages. *)
Definition evict_post (c : page_cell) (m : res (option Z * Z * page_cell)) : Prop :=
  ∃ r h' c', m = Ok (r, h', c') ∧ cell_wf c' ∧ evolves c c' ∧
    match r with
    | Some pg => ∃ i u p, pg = Z.of_nat u ∧ used (buf c') !! i = Some u ∧ buf c' !! u = Some p ∧
                          refcnt p = 0 ∧ hits p = 0
    | None => ∃ p, p ∈ view c' ∧ refcnt p ≠ 0
    end.

Lemma evict_post_trans c c' m : evolves c c' → evict_post c' m → evict_post c m.
Proof. intros He (r & h' & c'' & -> & Hw & He' & Hr). exists r, h', c''. eauto using evolves_trans. Qed.

Lemma dec_hits_const c u p : buf c !! u = Some p →
  upd_page (Z.of_nat u) (λ _, dec_hits p) c = upd_page (Z.of_nat u) dec_hits c.
Proof. intros Hb. unfold upd_page. f_equal. rewrite Nat2Z.id. by apply alter_const. Qed.

Lemma gclock_loop_ok fuel : ∀ h nref ndirty avoid c,
  cell_wf c → 0 < num_pages c → 0 ≤ nref < num_pages c → 0 ≤ ndirty → (avoid = false → ndirty = 0) →
  turns (num_pages c) nref ndirty avoid + Z.of_nat (total_hits c) < Z.of_nat fuel →
  evict_post c (gclock_loop fuel h nref ndirty avoid c).
Proof.
  induction fuel as [|fuel IH]; intros h nref ndirty avoid c Hwf Hn Href Hdirty Hav Hf.
  { unfold turns in Hf. destruct avoid; lia. }
  cbn [gclock_loop]. rewrite (proj2 (Z.eqb_neq _ _)) by lia.
  destruct (view_get c Hwf (h mod num_pages c)) as (u & p & Hu & Hv & Hb & -> & Hpa & Hd);
    [by apply Z.mod_pos_bound|]. cbn [rbind]. rewrite Hpa. cbn [rbind].
  assert (Hok : page_ok p) by (eapply Forall_lookup_1; [apply Hwf|done]).
  destruct (reset_counters _ _ _ _ Hn Href Hdirty Hav) as (Hnr & Hnd & Hav' & Ht & Hlt).
  set (nd := if num_pages c <=? ndirty + nref then 0 else ndirty) in *.
  set (nr := if num_pages c <=? ndirty + nref then 0 else nref) in *.
  set (av := if num_pages c <=? ndirty + nref then false else avoid) in *.
  destruct (Z.eqb_spec (refcnt p) 0) as [Hr|Hr]; simpl.
  2:{ destruct (Z.leb_spec (num_pages c) (nr + 1)).
      - exists None, (u32 (h + 1)), c. split; [done|]. split; [done|]. split; [by apply evolves_refl|].
        exists p. split; [|done]. by eapply list_elem_of_lookup_2.
      - apply IH; [done|done|lia|done|done|].
        assert (turns (num_pages c) (nr + 1) nd av < turns (num_pages c) nr nd av); [|lia].
        unfold turns. destruct av; [|lia]. specialize (Hlt eq_refl). lia. }
  destruct (av && is_dirty p) eqn:Ed.
  { apply andb_true_iff in Ed as [Eav _]. apply IH; [done|done|done|lia|by rewrite Eav|].
    assert (turns (num_pages c) nr (nd + 1) av < turns (num_pages c) nr nd av); [|lia].
    specialize (Hlt Eav). unfold turns. rewrite Eav. lia. }
  destruct (Z.eqb_spec (hits p) 0) as [Hh|Hh].
  { exists (Some (Z.of_nat u)), (u32 (h + 1)), c. split; [done|]. split; [done|]. split; [by apply evolves_refl|].
    by exists (Z.to_nat (h mod num_pages c)), u, p. }
  rewrite set_hits_ok by done. cbn [rbind]. rewrite dec_hits_const by done.
  destruct (dec_hits_evolves c u p) as [Hwf' Hev]; [done..|].
  pose proof (total_hits_dec c u p Hb) as Hth. destruct Hok.
  eapply evict_post_trans; [done|]. apply IH; [done..|]. simpl in *. lia.
Qed.

(** *** The order of eviction

    The flush score of a page is the number of turns of the clock until the page
    is evicted: every turn lowers the scores of all pages by one. *)

Definition score (n h i : Z) (p : page) : Z := hits p * n + (i - h) mod n.

Lemma score_eq n h i p : 0 < n → score_of n (h mod n) i p = score n h i p.
Proof.
  intros Hn. unfold score_of, score. f_equal.
  pose proof (Z.div_mod h n ltac:(lia)). replace (i - h mod n + n) with (i - h + (h / n + 1) * n) by nia.
  apply Z.mod_add. lia.
Qed.

Lemma dist_step n h i : 0 < n → 0 ≤ i < n →
  (i - (h + 1)) mod n = if decide (i = h mod n) then n - 1 else (i - h) mod n - 1.
Proof.
  intros Hn Hi. pose proof (Z.mod_pos_bound h n Hn). pose proof (Z.div_mod h n ltac:(lia)) as Eh.
  assert (Hd : (i - h) mod n = (i - h mod n) mod n) by (rewrite Zminus_mod_idemp_r; done).
  replace ((i - (h + 1)) mod n) with ((i - h mod n - 1) mod n).
  2:{ replace (i - (h + 1)) with (i - h mod n - 1 + (- (h / n)) * n) by nia. rewrite Z.mod_add by lia. done. }
  rewrite Hd. case_decide as E.
  - rewrite E. replace (h mod n - h mod n - 1) with (n - 1 + (-1) * n) by lia.
    rewrite Z.mod_add, Z.mod_small by lia. done.
  - destruct (Z.lt_ge_cases i (h mod n)).
    + rewrite <-(Z.mod_unique_pos (i - h mod n - 1) n (-1) (i - h mod n - 1 + n)) by lia.
      rewrite <-(Z.mod_unique_pos (i - h mod n) n (-1) (i - h mod n + n)) by lia. lia.
    + rewrite (Z.mod_small (i - h mod n - 1)), (Z.mod_small (i - h mod n)) by lia. done.
Qed.

Lemma score_step n h i p : 0 < n → 0 ≤ i < n →
  score n (h + 1) i (if decide (i = h mod n) then dec_hits p else p) = score n h i p - 1.
Proof.
  intros Hn Hi. unfold score. rewrite dist_step by done. case_decide as E; [|lia]. simpl.
  pose proof (Z.div_mod h n ltac:(lia)). replace (i - h) with (- (h / n) * n) by nia. rewrite Z.mod_mul by lia. lia.
Qed.

(** No page that could be evicted is dirty. *)
Definition clean (c : page_cell) : Prop := ∀ p, p ∈ view c → refcnt p = 0 → is_dirty p = false.

Lemma score_nonneg n h i p : 0 < n → page_ok p → 0 ≤ score n h i p.
Proof. intros Hn []. unfold score. pose proof (Z.mod_pos_bound (i - h) n Hn). nia. Qed.

Lemma view_ok c i p : cell_wf c → view c !! i = Some p → page_ok p ∧ Z.of_nat i < num_pages c.
Proof.
  intros [] H. pose proof (lookup_lt_Some _ _ _ H) as Hl. rewrite length_view in Hl. split; [|lia].
  unfold view in H. rewrite list_lookup_fmap in H. destruct (used (buf c) !! i) as [u|] eqn:Eu; [|done].
  destruct (used_lookup _ _ _ Eu) as (q & Hq & _). simpl in H. rewrite Hq in H. simplify_eq/=.
  by eapply Forall_lookup_1.
Qed.

(** The free pages of [c] and [c'], [t] turns later. *)
Definition turned (n h t : Z) (c c' : page_cell) : Prop :=
  used (buf c') = used (buf c) ∧
  ∀ i p, view c !! i = Some p →
    ∃ p', view c' !! i = Some p' ∧ refcnt p' = refcnt p ∧
      (refcnt p = 0 → t ≤ score n h (Z.of_nat i) p →
       score n (h + t) (Z.of_nat i) p' = score n h (Z.of_nat i) p - t).

Lemma turned_one n h c : 0 < n → cell_wf c → n = num_pages c →
  (∀ p, view c !! Z.to_nat (h mod n) = Some p → refcnt p ≠ 0 ∨ hits p = 0) → turned n h 1 c c.
Proof.
  intros Hn Hwf -> Hhand. split; [done|]. intros i p Hp. exists p. split; [done|]. split; [done|]. intros Hr Ht.
  destruct (view_ok c i p Hwf Hp) as [[? ?] Hi]. pose proof (Z.mod_pos_bound h (num_pages c) Hn).
  rewrite <-score_step by (done || lia). case_decide as E; [|done]. exfalso.
  destruct (Hhand p) as [?|Hh]; [by rewrite <-E, Nat2Z.id|done|].
  unfold score in Ht. rewrite Hh, E in Ht.
  rewrite Zminus_mod_idemp_l, Z.sub_diag, Z.mod_0_l in Ht by lia. lia.
Qed.

Lemma turned_dec n h c u p : 0 < n → cell_wf c → n = num_pages c →
  used (buf c) !! Z.to_nat (h mod n) = Some u → view c !! Z.to_nat (h mod n) = Some p →
  turned n h 1 c (upd_page (Z.of_nat u) dec_hits c).
Proof.
  intros Hn Hwf -> Hu Hv. split; [simpl; by rewrite used_alter|]. intros i q Hq.
  pose proof (Z.mod_pos_bound h (num_pages c) Hn). destruct (view_ok c i q Hwf Hq) as [_ Hi].
  exists (if decide (Z.of_nat i = h mod num_pages c) then dec_hits q else q).
  rewrite (view_upd _ _ _ _ Hu) by done. rewrite score_step by lia.
  case_decide as E; (split; [|done]).
  - replace i with (Z.to_nat (h mod num_pages c)) in * by lia. by rewrite list_lookup_alter_eq, Hq.
  - by rewrite list_lookup_alter_ne by lia.
Qed.

Lemma turned_trans n h t t' c c' c'' : 0 ≤ t → 0 ≤ t' →
  turned n h t c c' → turned n (h + t) t' c' c'' → turned n h (t + t') c c''.
Proof.
  intros H0 H0' [Hu H1] [Hu' H2]. split; [congruence|]. intros i p Hp.
  destruct (H1 i p Hp) as (p1 & Hp1 & Hr1 & E1). destruct (H2 i p1 Hp1) as (p2 & Hp2 & Hr2 & E2).
  exists p2. split; [done|]. split; [congruence|]. intros Hr Ht.
  rewrite Z.add_assoc, E2, E1; [lia|done|lia|congruence|]. rewrite E1; [lia|done|lia].
Qed.

(** Back from the later cell to the earlier one. *)
Lemma turned_inv n h t c c' i p' : turned n h t c c' → view c' !! i = Some p' →
  ∃ p, view c !! i = Some p ∧ refcnt p' = refcnt p ∧
    (refcnt p = 0 → t ≤ score n h (Z.of_nat i) p →
     score n (h + t) (Z.of_nat i) p' = score n h (Z.of_nat i) p - t).
Proof.
  intros [Hu Ht] Hp'. destruct (view c !! i) as [p|] eqn:Ep.
  - destruct (Ht i p Ep) as (q & Hq & Hr & E). simplify_eq. by exists p.
  - apply lookup_ge_None in Ep. apply lookup_lt_Some in Hp'. rewrite length_view in *. rewrite Hu in Hp'. lia.
Qed.

Lemma clean_dec c i u : used (buf c) !! i = Some u → clean c → clean (upd_page (Z.of_nat u) dec_hits c).
Proof.
  intros Hu Hc q Hq Hr. rewrite (view_upd _ _ _ _ Hu) in Hq by done.
  apply list_elem_of_lookup in Hq as [j Hj]. destruct (decide (i = j)) as [<-|Hne].
  - rewrite list_lookup_alter_eq in Hj. destruct (view c !! i) as [p|] eqn:Ep; [|done]. simplify_eq/=.
    apply (Hc p); [by eapply list_elem_of_lookup_2|done].
  - rewrite list_lookup_alter_ne in Hj by done. apply Hc; [by eapply list_elem_of_lookup_2|done].
Qed.

(** The loop stops in the turn after [t] turns: every free page has at least score
    [t], and the page it returns has score [t]. *)
Definition stops (h : Z) (c : page_cell) (r : option Z) (h' : Z) (c' : page_cell) : Prop :=
  ∃ t, 0 ≤ t ∧ h' = h + t + 1 ∧ turned (num_pages c) h (t + 1) c c' ∧
    (∀ i p, view c !! i = Some p → refcnt p = 0 →
       t ≤ score (num_pages c) h (Z.of_nat i) p ∧ (r = None → t < score (num_pages c) h (Z.of_nat i) p)) ∧
    (∀ pg, r = Some pg → ∃ i u p, pg = Z.of_nat u ∧ used (buf c) !! i = Some u ∧ view c !! i = Some p ∧
       refcnt p = 0 ∧ score (num_pages c) h (Z.of_nat i) p = t).

Lemma stops_step h c c1 r h' c' : num_pages c1 = num_pages c → turned (num_pages c) h 1 c c1 →
  (∀ i p, view c !! i = Some p → refcnt p = 0 → 1 ≤ score (num_pages c) h (Z.of_nat i) p) →
  stops (h + 1) c1 r h' c' → stops h c r h' c'.
Proof.
  intros En Ht Hpos (t & H0 & Eh & Ht' & Hmin & Hr). rewrite En in *. exists (t + 1).
  split; [lia|]. split; [lia|]. split.
  { replace (t + 1 + 1) with (1 + (t + 1)) by lia. eapply turned_trans; [lia|lia|done|done]. }
  split.
  - intros i p Hp Hf. destruct (proj2 Ht i p Hp) as (p1 & Hp1 & Hr1 & E1). specialize (Hpos i p Hp Hf).
    specialize (E1 Hf Hpos). destruct (Hmin i p1 Hp1) as [H1 H2]; [congruence|].
    split; [lia|]. intros Hn. specialize (H2 Hn). lia.
  - intros pg Hpg. destruct (Hr pg Hpg) as (i & u & p1 & E & Hu & Hv & Hf & Hs).
    destruct (turned_inv _ _ _ _ _ _ _ Ht Hv) as (p & Hp & Hrp & E1).
    assert (Hf' : refcnt p = 0) by congruence. specialize (E1 Hf' (Hpos i p Hp Hf')).
    exists i, u, p. rewrite (proj1 Ht) in Hu. repeat split; try done. lia.
Qed.

(** The page under the hand is the only one that may have score 0. *)
Lemma score_hand c h i p : cell_wf c → 0 < num_pages c → view c !! i = Some p →
  0 ≤ score (num_pages c) h (Z.of_nat i) p ∧
  (Z.of_nat i ≠ h mod num_pages c ∨ hits p ≠ 0 → 1 ≤ score (num_pages c) h (Z.of_nat i) p) ∧
  (Z.of_nat i = h mod num_pages c → hits p = 0 → score (num_pages c) h (Z.of_nat i) p = 0).
Proof.
  intros Hwf Hn Hp. destruct (view_ok _ _ _ Hwf Hp) as [[? ?] Hi].
  pose proof (Z.mod_pos_bound (Z.of_nat i - h) (num_pages c) Hn).
  split; [by apply score_nonneg|]. unfold score. split.
  - intros [Hne|Hh]; [|nia].
    assert ((Z.of_nat i - h) mod num_pages c ≠ 0); [|nia]. intros E0. apply Hne.
    apply Z.mod_divide in E0 as [k E0]; [|lia]. replace h with (Z.of_nat i + (- k) * num_pages c) by lia.
    rewrite Z.mod_add, Z.mod_small by lia. done.
  - intros E ->. rewrite E, Zminus_mod_idemp_l, Z.sub_diag, Z.mod_0_l by lia. done.
Qed.

Lemma gclock_loop_score fuel : ∀ h nref ndirty avoid c r h' c',
  cell_wf c → 0 < num_pages c → 0 ≤ h → h + Z.of_nat fuel < 2 ^ 32 → clean c →
  gclock_loop fuel h nref ndirty avoid c = Ok (r, h', c') → stops h c r h' c'.
Proof.
  induction fuel as [|fuel IH]; intros h nref ndirty avoid c r h' c' Hwf Hn Hh Hw Hc Hl; [done|].
  cbn [gclock_loop] in Hl. rewrite (proj2 (Z.eqb_neq _ _)) in Hl by lia.
  pose proof (Z.mod_pos_bound h (num_pages c) Hn) as Hb0.
  destruct (view_get c Hwf (h mod num_pages c)) as (u & p & Hu & Hv & Hb & Hg & Hpa & Hd); [done|].
  rewrite Hg in Hl. cbn [rbind] in Hl. rewrite Hpa in Hl. cbn [rbind] in Hl.
  rewrite (u32_small (h + 1)) in Hl by lia. destruct (view_ok _ _ _ Hwf Hv) as [Hok _].
  assert (Hpos : refcnt p ≠ 0 ∨ hits p ≠ 0 → ∀ i q, view c !! i = Some q → refcnt q = 0 →
            1 ≤ score (num_pages c) h (Z.of_nat i) q).
  { intros Hp i q Hq Hf. destruct (score_hand c h i q) as (_ & Hs & _); [done..|]. apply Hs.
    destruct (decide (Z.of_nat i = h mod num_pages c)) as [E|]; [|by left]. right.
    replace (Z.to_nat (h mod num_pages c)) with i in Hv by lia. simplify_eq. by destruct Hp. }
  destruct (Z.eqb_spec (refcnt p) 0) as [Hr|Hr]; simpl in Hl.
  2:{ assert (Ht1 : turned (num_pages c) h 1 c c)
        by (apply turned_one; [done..|]; intros q Hq; simplify_eq; by left).
      match type of Hl with (if ?b then _ else _) = _ => destruct b end.
      - injection Hl as <- <- <-. exists 0. rewrite Z.add_0_r, Z.add_0_l. split; [done|]. split; [done|]. split; [done|].
        split; [|done]. intros i q Hq Hf. specialize (Hpos (or_introl Hr) i q Hq Hf). lia.
      - eapply stops_step; [done|done|by apply Hpos; left|]. eapply IH; [done|done|lia|lia|done|done]. }
  rewrite (Hc p), andb_false_r in Hl by (done || by eapply list_elem_of_lookup_2).
  destruct (Z.eqb_spec (hits p) 0) as [Hz|Hz].
  - injection Hl as <- <- <-. exists 0. rewrite Z.add_0_r, Z.add_0_l. split; [done|]. split; [done|]. split.
    { apply turned_one; [done..|]. intros q Hq. simplify_eq. by right. }
    split; [intros i q Hq Hf; split; [by apply score_hand|done]|]. intros pg [= <-].
    exists (Z.to_nat (h mod num_pages c)), u, p. repeat split; try done. apply score_hand; [done..|lia|done].
  - rewrite set_hits_ok in Hl by done. cbn [rbind] in Hl. rewrite dec_hits_const in Hl by done.
    destruct (dec_hits_evolves c u p) as [Hwf' _]; [done..|].
    eapply (stops_step _ _ (upd_page (Z.of_nat u) dec_hits c)); [done|by eapply turned_dec|by apply Hpos; right|].
    eapply IH; [done|done|lia|lia|by eapply clean_dec|done].
Qed.

Lemma score_inj n h i j p q : 0 < n → 0 ≤ i < n → 0 ≤ j < n → score n h i p = score n h j q → i = j.
Proof.
  intros Hn Hi Hj E. apply (f_equal (λ x, x mod n)) in E. unfold score in E.
  rewrite (Z.add_comm (hits p * n)), (Z.add_comm (hits q * n)), !Z.mod_add, !Z.mod_mod in E by lia.
  apply (f_equal (λ x, (x + h) mod n)) in E. rewrite !Zplus_mod_idemp_l in E.
  replace (i - h + h) with i in E by lia. replace (j - h + h) with j in E by lia.
  by rewrite !Z.mod_small in E.
Qed.

Lemma gclock_loop_total h c : cell_wf c → 0 < num_pages c → evict_post c (gclock_loop (gclock_fuel c) h 0 0 true c).
Proof. intros Hwf Hn. apply gclock_loop_ok; try done; [lia..|]. unfold turns, gclock_fuel. lia. Qed.

Lemma set_data_ready_ok b pg c : cell_wf c → cell_wf (upd_page pg (set_data_ready b) c).
Proof. intros Hwf. apply upd_page_wf; [done|done|]. intros p _ [? ?]. split; simpl; lia. Qed.

Lemma evolves_lookup c c' u p' : evolves c c' → buf c' !! u = Some p' →
  ∃ p, buf c !! u = Some p ∧ ticked p p'.
Proof. intros [] H. by destruct (Forall2_lookup_r _ _ _ _ _ ev_buf0 H) as (p & ? & ?); eauto. Qed.

(** C8. When no page that could be evicted is dirty, the page that the clock evicts
    is the one with the lowest flush score [hits * num_pages + distance from the
    hand], the score by which the flusher orders the pages: no other unreferenced
    page has a lower one, and the scores of all others drop by the same amount,
    so they keep their order in the queue for eviction. *)
Theorem gclock_evicts_lowest_score h c pg h' c' :
  cell_wf c → 0 < num_pages c → 0 ≤ h → h + Z.of_nat (gclock_fuel c) < 2 ^ 32 → clean c →
  gclock_evict_page h c = Ok (Some pg, h', c') →
  let n := num_pages c in
  ∃ i p s, get_page c (Z.of_nat i) = Ok pg ∧ view c !! i = Some p ∧ refcnt p = 0 ∧
    s = score_of n (h mod n) (Z.of_nat i) p ∧ h' = h + s + 1 ∧
    ∀ j q, view c !! j = Some q → refcnt q = 0 → j ≠ i →
      s < score_of n (h mod n) (Z.of_nat j) q ∧
      ∃ q', view c' !! j = Some q' ∧
        score_of n (h' mod n) (Z.of_nat j) q' = score_of n (h mod n) (Z.of_nat j) q - (s + 1).
Proof.
  intros Hwf Hn Hh Hw Hc He n. unfold gclock_evict_page in He.
  destruct (gclock_loop (gclock_fuel c) h 0 0 true c) as [[[r h1] c1]|] eqn:El; [|done].
  cbn [rbind] in He. destruct r as [pg1|]; [|done]. injection He as <- <- <-.
  destruct (gclock_loop_score _ _ _ _ _ _ _ _ _ Hwf Hn Hh Hw Hc El) as (t & Ht & -> & Hturn & Hmin & Hpg).
  destruct (Hpg _ eq_refl) as (i & u & p & -> & Hu & Hv & Hr & Hs).
  destruct (view_ok _ _ _ Hwf Hv) as [_ Hi]. exists i, p, t. unfold n. rewrite !score_eq by done.
  destruct (view_get c Hwf (Z.of_nat i)) as (u' & _ & Hu' & _ & _ & Hg & _); [lia|].
  rewrite Nat2Z.id, Hu in Hu'. injection Hu' as <-. do 3 (split; [done|]). split; [done|]. split; [done|]. intros j q Hq Hrq Hj.
  rewrite !score_eq by done. destruct (Hmin j q Hq Hrq) as [Hle _]. destruct (view_ok _ _ _ Hwf Hq) as [_ Hjn].
  assert (Hlt : t < score (num_pages c) h (Z.of_nat j) q).
  { assert (t ≠ score (num_pages c) h (Z.of_nat j) q); [|lia]. intros E. apply Hj. rewrite E in Hs.
    apply score_inj in Hs; lia. }
  split; [lia|]. destruct (proj2 Hturn j q Hq) as (q' & Hq' & _ & E). exists q'.
  rewrite (view_upd c1 i) by (rewrite ?(proj1 Hturn); done). rewrite list_lookup_alter_ne by done.
  split; [done|]. rewrite score_eq by done. replace (h + t + 1) with (h + (t + 1)) by lia. apply E; [done|lia].
Qed.

(** *** LFU *)

(** The state of the scan after the first [i] pages. *)
Definition lfu_inv (c : page_cell) (i : Z) (min_hits : Z) (ret : option Z) : Prop :=
  (∀ j p, Z.of_nat j < i → view c !! j = Some p → refcnt p = 0 → min_hits ≤ hits p) ∧
  match ret with
  | Some pg => ∃ j p, get_page c (Z.of_nat j) = Ok pg ∧ view c !! j = Some p ∧ refcnt p = 0 ∧ hits p = min_hits
  | None => min_hits = 2147483647
  end.

Lemma lfu_scan_ok c k : ∀ i m ret, cell_wf c → 0 ≤ i → i + Z.of_nat k = num_pages c → lfu_inv c i m ret →
  ∃ m' ret', lfu_scan k i m ret c = Ok (m', ret') ∧ lfu_inv c (num_pages c) m' ret'.
Proof.
  induction k as [|k IH]; intros i m ret Hwf Hi Hk Hinv; cbn [lfu_scan].
  { exists m, ret. split; [done|]. by replace (num_pages c) with i by lia. }
  destruct (view_get c Hwf i) as (u & p & Hu & Hv & Hb & Hg & Hpa & Hd); [lia|]. rewrite Hg. cbn [rbind].
  rewrite Hpa. cbn [rbind]. destruct (view_ok _ _ _ Hwf Hv) as [[Hh0 Hh1] _].
  assert (Hext : ∀ m' ret', m' ≤ m → (refcnt p = 0 → m' ≤ hits p) →
    match ret' with
    | Some pg => ∃ j p, get_page c (Z.of_nat j) = Ok pg ∧ view c !! j = Some p ∧ refcnt p = 0 ∧ hits p = m'
    | None => m' = 2147483647
    end → lfu_inv c (i + 1) m' ret').
  { intros m' ret' Hle Hp Hr. split; [|done]. intros j q Hj Hq Hf. destruct (decide (j = Z.to_nat i)) as [->|Hne].
    - simplify_eq. by apply Hp.
    - pose proof (proj1 Hinv j q ltac:(lia) Hq Hf). lia. }
  destruct (Z.eqb_spec (refcnt p) 0) as [Hr|Hr]; cbn [negb].
  2:{ apply IH; [done|lia|lia|]. apply Hext; [lia|done|apply Hinv]. }
  assert (Hnew : lfu_inv c (i + 1) (if hits p <? m then hits p else m) (if hits p <? m then Some (Z.of_nat u) else ret)).
  { destruct (Z.ltb_spec (hits p) m); apply Hext; try lia; [|apply Hinv].
    exists (Z.to_nat i), p. by rewrite Z2Nat.id by lia. }
  replace (if hits p <? m then (hits p, Some (Z.of_nat u)) else (m, ret))
    with (if hits p <? m then hits p else m, if hits p <? m then Some (Z.of_nat u) else ret) by (by destruct (hits p <? m)).
  set (m' := if hits p <? m then hits p else m) in *. set (ret' := if hits p <? m then Some (Z.of_nat u) else ret) in *.
  destruct (Z.eqb_spec m' 0) as [Hz|Hz]; [|by apply IH; [done|lia|lia|]].
  exists m', ret'. split; [done|]. destruct Hnew as [_ Hret]. split; [|done]. intros j q _ Hq _.
  destruct (view_ok _ _ _ Hwf Hq) as [[? ?] _]. lia.
Qed.

(** The least frequently used policy evicts an unreferenced page with the fewest
    hits, when there is one. *)
Lemma lfu_evicts_fewest_hits c : cell_wf c → (∃ p, p ∈ view c ∧ refcnt p = 0) →
  ∃ pg c' i p, lfu_evict_page c = Ok (pg, c') ∧ get_page c (Z.of_nat i) = Ok pg ∧ view c !! i = Some p ∧ refcnt p = 0 ∧
    cell_wf c' ∧ ∀ q, q ∈ view c → refcnt q = 0 → hits p ≤ hits q.
Proof.
  intros Hwf (f & Hf & Hfr). pose proof (wf_num _ Hwf) as Hn. unfold lfu_evict_page.
  destruct (lfu_scan_ok c (Z.to_nat (num_pages c)) 0 2147483647 None Hwf) as (m & ret & -> & Hmin & Hret);
    [lia|lia|split; [intros; lia|done]|]. cbn [rbind snd].
  assert (Hmin' : ∀ q, q ∈ view c → refcnt q = 0 → m ≤ hits q).
  { intros q Hq Hr. apply list_elem_of_lookup in Hq as [j Hj]. destruct (view_ok _ _ _ Hwf Hj). by eapply Hmin. }
  destruct ret as [pg|].
  - destruct Hret as (j & p & Hg & Hv & Hr & Hh). do 4 eexists. split; [done|]. split; [done|]. split; [done|].
    split; [done|]. split; [|by rewrite Hh]. apply upd_page_wf; [done|done|]. intros q _ _. split; simpl; lia.
  - specialize (Hmin' f Hf Hfr). apply list_elem_of_lookup in Hf as [j Hj]. destruct (view_ok _ _ _ Hwf Hj) as [[? ?] _]. lia.
Qed.

(** ** Adding and taking pages *)

Lemma filter_map {A B} (f : A → B) (P : B → Prop) `{!∀ x, Decision (P x)} (l : list A) :
  filter P (f <$> l) = f <$> filter (P ∘ f) l.
Proof. induction l as [|x l IH]; [done|].
  rewrite fmap_cons, !filter_cons, IH. unfold compose. case_decide; by rewrite ?fmap_cons. Qed.

Lemma filter_all {A} (P : A → Prop) `{!∀ x, Decision (P x)} (l : list A) : Forall P l → filter P l = l.
Proof. induction 1; [done|]. rewrite filter_cons_True by done. by f_equal. Qed.
Lemma filter_none {A} (P : A → Prop) `{!∀ x, Decision (P x)} (l : list A) : Forall (λ x, ¬ P x) l → filter P l = [].
Proof. induction 1; [done|]. by rewrite filter_cons_False by done. Qed.

Lemma view_filter c : view c = filter has_data (buf c).
Proof.
  unfold view, used. generalize (buf c) as b. induction b as [|p b IH]; [done|].
  cbn [length seq]. rewrite <-fmap_S_seq, !filter_cons. cbn [lookup list_lookup default].
  rewrite filter_map. unfold id. destruct (decide (has_data p));
    rewrite ?fmap_cons, <-list_fmap_compose, <-IH; reflexivity.
Qed.

Lemma length_used_filter b : length (used b) = length (filter has_data b).
Proof. pose proof (view_filter (mkCell 0 0 [] b)) as E. simpl in E. by rewrite <-E, length_view. Qed.

Lemma rebuild_map_ok i n m b : length m = CELL_SIZE → length b = CELL_SIZE →
  n = Z.of_nat (length (filter has_data b)) → Forall page_ok b →
  ∃ c, rebuild_map (mkCell i n m b) = Ok c ∧ cell_wf c ∧ buf c = b ∧ num_pages c = n.
Proof.
  intros Hm Hb -> Hok. unfold rebuild_map. simpl. rewrite <-length_used_filter, Z.eqb_refl.
  pose proof (used_length_le b). eexists. split; [done|]. split; [|done].
  split; simpl; try done.
  - rewrite length_app, length_fmap, length_drop. lia.
  - rewrite take_app_length'; [done|]. by rewrite length_fmap.
Qed.

(** The pages that [fill_gaps] places, and those left. *)
Lemma fill_gaps_spec new b : Forall has_data new →
  ∃ put, new = put ++ (fill_gaps new b).2 ∧ length (fill_gaps new b).1 = length b ∧
    filter has_data (fill_gaps new b).1 ≡ₚ filter has_data b ++ put ∧
    ((fill_gaps new b).2 ≠ [] → filter has_data (fill_gaps new b).1 = (fill_gaps new b).1) ∧
    (∀ P : page → Prop, Forall P b → Forall P new → Forall P (fill_gaps new b).1) ∧
    (∀ i p, b !! i = Some p → has_data p = true → (fill_gaps new b).1 !! i = Some p).
Proof.
  revert new. induction b as [|p b IH]; intros new Hnew.
  { exists []. destruct new; by repeat split. }
  destruct new as [|q new].
  { exists []. simpl. rewrite app_nil_r. by repeat split. }
  simpl. destruct (has_data p) eqn:Hp; simpl.
  - destruct (IH (q :: new) Hnew) as (put & E & Hl & Hf & Hr & HP & Hk). exists put.
    rewrite !filter_cons, !decide_True by (by rewrite Hp). split; [done|]. split; [by rewrite Hl|].
    split; [by rewrite Hf|]. split; [intros Hn; f_equal; by apply Hr|].
    split.
    + intros P HPb HPn. inversion_clear HPb. constructor; [done|]. by apply HP.
    + intros [|i] p'; simpl; [done|]. apply Hk.
  - inversion_clear Hnew as [|?? Hq Hn]. destruct (IH new Hn) as (put & E & Hl & Hf & Hr & HP & Hk).
    exists (q :: put). rewrite !filter_cons, decide_True by done.
    rewrite decide_False by (rewrite Hp; intros []). split; [by rewrite E at 1|]. split; [by rewrite Hl|].
    split; [rewrite Hf; by rewrite Permutation_middle|]. split; [intros; f_equal; by apply Hr|]. split.
    + intros P HPb HPn. inversion_clear HPb. inversion_clear HPn. constructor; [done|]. by apply HP.
    + intros [|i] p'; simpl; [intros [= ->] H; congruence|]. apply Hk.
Qed.

Lemma fill_gaps_all c new : cell_wf c → Forall has_data new → Forall page_ok new →
  Z.of_nat (length new) + num_pages c ≤ Z.of_nat CELL_SIZE →
  let b := (fill_gaps new (buf c)).1 in
  (fill_gaps new (buf c)).2 = [] ∧ length b = CELL_SIZE ∧ Forall page_ok b ∧
  filter has_data b ≡ₚ view c ++ new ∧
  Z.of_nat (length (filter has_data b)) = num_pages c + Z.of_nat (length new).
Proof.
  intros Hwf Hd Hok Hle b. destruct (fill_gaps_spec new (buf c) Hd) as (put & E & Hl & Hf & Hr & HP & _).
  pose proof Hwf as []. rewrite view_filter.
  rewrite length_used_filter in wf_num0. pose proof (Permutation_length Hf) as Hlen. rewrite length_app in Hlen.
  assert (Hrest : (fill_gaps new (buf c)).2 = []).
  { destruct (fill_gaps new (buf c)).2 as [|x rest] eqn:Er; [done|]. exfalso.
    rewrite Hr in Hlen by done. apply (f_equal length) in E. rewrite length_app in E. simpl in E. lia. }
  rewrite Hrest, app_nil_r in E. subst put. fold b in Hl, Hf, Hlen |- *.
  split; [done|]. split; [lia|]. split; [by apply HP|]. split; [done|]. lia.
Qed.

Lemma new_pages_ok pages node :
  Forall has_data ((λ d, new_page invalid_id (Some d) node) <$> pages) ∧
  Forall page_ok ((λ d, new_page invalid_id (Some d) node) <$> pages).
Proof. split; apply Forall_fmap, Forall_true; intros d; [done|]. split; simpl; lia. Qed.

Lemma u8_small z : 0 ≤ z < 256 → u8 z = z.
Proof. intros. unfold u8. apply Z.mod_small. lia. Qed.

(** A cell that has room for the pages takes all of them, keeps the pages it
    had and stays well formed; one without room fails the assertion. *)
Theorem add_pages_correct pages node c :
  cell_wf c →
  if Z.of_nat (length pages) + num_pages c <=? Z.of_nat CELL_SIZE then
    ∃ c', add_pages pages node c = Ok c' ∧ cell_wf c' ∧
      num_pages c' = num_pages c + Z.of_nat (length pages) ∧
      view c' ≡ₚ view c ++ ((λ d, new_page invalid_id (Some d) node) <$> pages)
  else add_pages pages node c = Throw AssertFailed.
Proof.
  intros Hwf. pose proof Hwf as []. unfold add_pages, get_num_used_pages. rewrite wf_num0, Z.eqb_refl. simpl.
  destruct (Z.leb_spec (Z.of_nat (length pages) + Z.of_nat (length (used (buf c)))) (Z.of_nat CELL_SIZE)) as [Hle|]; [|done].
  destruct (new_pages_ok pages node) as [Hd Hok].
  destruct (fill_gaps_all c _ Hwf Hd Hok) as (_ & Hlb & Hokb & Hf & Hlen); [rewrite length_fmap; lia|].
  rewrite length_fmap, wf_num0 in Hlen. unfold CELL_SIZE in Hle. cbn [negb]. rewrite u8_small by lia.
  edestruct (rebuild_map_ok (idx c) (Z.of_nat (length (used (buf c))) + Z.of_nat (length pages))) as (c' & -> & Hwf' & Hb' & Hn');
    [exact wf_maps0|exact Hlb|by rewrite Hlen|exact Hokb|].
  exists c'. split; [done|]. split; [done|]. split; [done|]. by rewrite (view_filter c'), Hb'.
Qed.

Lemma inject_pages_ok pages c : cell_wf c → Forall has_data pages → Forall page_ok pages →
  Z.of_nat (length pages) + num_pages c ≤ Z.of_nat CELL_SIZE →
  ∃ c', inject_pages pages c = Ok c' ∧ cell_wf c' ∧ num_pages c' = num_pages c + Z.of_nat (length pages) ∧
    view c' ≡ₚ view c ++ pages.
Proof.
  intros Hwf Hd Hok Hle. pose proof Hwf as []. unfold inject_pages.
  destruct (fill_gaps_all c _ Hwf Hd Hok Hle) as (-> & Hlb & Hokb & Hf & Hlen).
  simpl. rewrite Z.sub_0_r, Z.eqb_refl. cbn [negb]. unfold CELL_SIZE in Hle. rewrite u8_small by lia.
  edestruct (rebuild_map_ok (idx c) (num_pages c + Z.of_nat (length pages))) as (c' & -> & Hwf' & Hb' & Hn');
    [exact wf_maps0|exact Hlb|by rewrite Hlen|exact Hokb|].
  exists c'. split; [done|]. split; [done|]. split; [done|]. by rewrite (view_filter c'), Hb'.
Qed.

Lemma page_ok_null : page_ok null_page.
Proof. split; simpl; lia. Qed.

Lemma take_pages_spec b : ∀ n, Forall (λ p, refcnt p ≤ 0) (filter has_data b) → Forall page_ok b →
  ∃ b', take_pages n b = Ok (take n (filter has_data b), b') ∧ length b' = length b ∧
    filter has_data b' = drop n (filter has_data b) ∧ Forall page_ok b'.
Proof.
  induction b as [|p b IH]; intros n Hr Hok; [exists []; destruct n; done|].
  inversion_clear Hok as [|?? Hp Hb]. destruct n as [|n].
  { exists (p :: b). split; [done|]. split; [done|]. split; [done|]. by constructor. }
  simpl. rewrite filter_cons in *. destruct (decide (has_data p)) as [Hd|Hd].
  - apply Is_true_true in Hd as Hd'. rewrite Hd'. inversion_clear Hr as [|?? Hr1 Hr2].
    rewrite (proj2 (Z.ltb_ge _ _)) by done. destruct (IH n Hr2 Hb) as (b' & -> & Hl & Hf & Hok'). simpl.
    exists (null_page :: b'). simpl. rewrite Hl, filter_cons, decide_False by (intros []).
    split; [done|]. split; [done|]. split; [done|]. constructor; [apply page_ok_null|done].
  - apply Is_true_false in Hd as Hd'. rewrite Hd'. destruct (IH (S n) Hr Hb) as (b' & -> & Hl & Hf & Hok'). simpl.
    exists (p :: b'). simpl. rewrite Hl, filter_cons, decide_False by done.
    split; [done|]. split; [done|]. split; [done|]. by constructor.
Qed.

Lemma used_none b : length (filter has_data b) = 0%nat → used b = [].
Proof. rewrite <-length_used_filter. apply nil_length_inv. Qed.

Lemma steal_pages_ok n c : cell_wf c → Forall (λ p, refcnt p ≤ 0) (view c) →
  ∃ c', steal_pages n c = Ok (take n (view c), c') ∧ cell_wf c' ∧ view c' = drop n (view c).
Proof.
  intros Hwf Hr. pose proof Hwf as []. rewrite view_filter in *. unfold steal_pages.
  destruct (take_pages_spec (buf c) n Hr wf_pages0) as (b' & -> & Hl & Hf & Hok). cbn [rbind fst snd].
  pose proof (used_length_le (buf c)) as Hu. rewrite length_used_filter in *.
  assert (El : num_pages c - Z.of_nat (length (take n (filter has_data (buf c)))) =
               Z.of_nat (length (filter has_data b'))).
  { rewrite Hf, length_take, length_drop. lia. }
  rewrite El, u8_small by (rewrite Hf, length_drop; unfold CELL_SIZE in *; lia).
  destruct (Z.ltb_spec 0 (Z.of_nat (length (filter has_data b')))) as [Hlt|Hge].
  - destruct (rebuild_map_ok (idx c) (Z.of_nat (length (filter has_data b'))) (maps c) b')
      as (c' & -> & Hwf' & Hb' & Hn'); [done|lia|done|done|].
    exists c'. rewrite (view_filter c'), Hb'. split; [done|]. split; [exact Hwf'|done].
  - eexists. split; [done|]. rewrite view_filter. simpl. split; [|done].
    assert (E0 : length (filter has_data b') = 0%nat) by lia.
    split; simpl; try done; try lia; rewrite ?(used_none b' E0); try done. by rewrite E0.
Qed.

(** [set_pages] is used on new cells. *)
Lemma set_pages_ok pages node : (length pages ≤ CELL_SIZE)%nat →
  ∃ c, set_pages pages node new_cell = Ok c ∧ cell_wf c ∧
    view c = (λ d, new_page invalid_id (Some d) node) <$> pages.
Proof.
  intros Hle. unfold set_pages. rewrite (proj2 (Nat.leb_le _ _)) by done. eexists. split; [done|].
  destruct (new_pages_ok pages node) as [Hd Hok].
  set (new := (λ d, new_page invalid_id (Some d) node) <$> pages) in *.
  assert (Hl : length new = length pages) by apply length_fmap.
  set (rest := drop (length pages) (buf new_cell)).
  assert (Hrest : Forall (λ p, ¬ has_data p) rest).
  { unfold rest. apply Forall_drop. apply (Forall_replicate (λ p, ¬ has_data p) CELL_SIZE). intros []. }
  assert (Hf : filter has_data (new ++ rest) = new).
  { rewrite filter_app. rewrite (filter_all _ new), (filter_none _ rest), app_nil_r by done. done. }
  assert (Hu : used (new ++ rest) = seq 0 (length pages)).
  { unfold used. rewrite length_app, seq_app, filter_app.
    rewrite Hl, Nat.add_0_l, filter_all, filter_none, app_nil_r; [done| |].
    - apply Forall_forall. intros i Hi. apply elem_of_seq in Hi. rewrite lookup_app_r by lia.
      destruct (rest !! _) as [p|] eqn:Ep; simpl; [|intros []]. by eapply Forall_lookup_1 in Hrest.
    - apply Forall_forall. intros i Hi. apply elem_of_seq in Hi. rewrite lookup_app_l by lia.
      destruct (new !! i) as [p|] eqn:Ep; [by eapply Forall_lookup_1 in Hd|].
      apply lookup_ge_None in Ep. lia. }
  rewrite view_filter. cbn [buf]. split; [|done]. unfold CELL_SIZE in Hle. split; cbn [maps buf num_pages].
  - rewrite length_app, length_fmap, length_seq, length_drop. simpl. unfold CELL_SIZE. lia.
  - rewrite length_app, Hl. unfold rest. rewrite length_drop. simpl. unfold CELL_SIZE. lia.
  - fold rest. rewrite Hu, length_seq, u8_small by lia. done.
  - fold rest. rewrite Hu, take_app_length'; [done|]. by rewrite length_fmap.
  - apply Forall_app. split; [done|]. unfold rest. apply Forall_drop, Forall_replicate, page_ok_null.
Qed.

(** ** Flags and identifiers *)

Lemma s8_bit z j : 0 ≤ j < 8 → Z.testbit (s8 z) j = Z.testbit z j.
Proof.
  intros Hj. rewrite <-(Z.mod_pow2_bits_low (s8 z) 8) by lia. rewrite <-(Z.mod_pow2_bits_low z 8) by lia.
  f_equal. unfold s8. rewrite Zminus_mod_idemp_l. f_equal. lia.
Qed.

Lemma get_flag_bit fl j : 0 ≤ j → get_flag fl j = Z.testbit fl j.
Proof.
  intros Hj. unfold get_flag. rewrite Z.shiftl_1_l. destruct (Z.testbit fl j) eqn:E.
  - apply negb_true_iff, Z.eqb_neq. intros E0. apply (f_equal (λ z, Z.testbit z j)) in E0.
    rewrite Z.land_spec, E, Z.pow2_bits_true, Z.bits_0 in E0 by done. done.
  - apply negb_false_iff, Z.eqb_eq. apply Z.bits_inj'. intros k Hk. rewrite Z.land_spec, Z.bits_0.
    destruct (decide (j = k)) as [<-|Hne]; [by rewrite E|]. rewrite Z.pow2_bits_false by done. apply andb_false_r.
Qed.

(** Setting a flag sets that flag and no other. *)
Lemma flag_set_get fl i j v : 0 ≤ i < 8 → 0 ≤ j < 8 →
  get_flag (page_set_flag fl i v) j = if decide (i = j) then v else get_flag fl j.
Proof.
  intros Hi Hj. rewrite !get_flag_bit by lia. unfold page_set_flag. rewrite Z.shiftl_1_l.
  destruct v; rewrite s8_bit by done; rewrite ?Z.lor_spec, ?Z.land_spec, ?Z.lnot_spec by lia; case_decide as E.
  - subst. rewrite Z.pow2_bits_true by lia. apply orb_true_r.
  - rewrite Z.pow2_bits_false by done. apply orb_false_r.
  - subst. rewrite Z.pow2_bits_true by lia. apply andb_false_r.
  - rewrite Z.pow2_bits_false by done. apply andb_true_r.
Qed.

(** An identifier fits the page number of 31 bits: files of up to 8 TB. *)
Definition id_ok (id : page_id) : Prop := 0 ≤ id_off id < 2 ^ 43 ∧ (4096 | id_off id).

Lemma page_of_off_ok id : id_ok id → page_of_off (id_off id) = id_off id / 4096 ∧ 0 ≤ id_off id / 4096 < 2 ^ 31.
Proof.
  intros [H _]. assert (0 ≤ id_off id / 4096 < 2 ^ 31) by (split; [apply Z.div_pos|apply Z.div_lt_upper_bound]; lia).
  unfold page_of_off. rewrite Z.shiftr_div_pow2 by done. change (2 ^ LOG_PAGE_SIZE) with 4096.
  split; [by apply s32_small|done].
Qed.

Lemma get_set_offset id p : id_ok id → get_offset (set_id id p) = id_off id.
Proof.
  intros H. destruct (page_of_off_ok id H) as [E _]. unfold get_offset. simpl. rewrite E, Z.shiftl_mul_pow2 by done.
  change (2 ^ LOG_PAGE_SIZE) with 4096. destruct H as [_ [k ->]]. rewrite Z.div_mul by done. done.
Qed.

(** ** Witnesses *)

(** A cell of 12 pages of file 7; [f] gives the references and hits of each. *)
Definition ex_cell (f : nat → Z * Z) : page_cell :=
  mkCell 0 12 ((Z.of_nat <$> seq 0 12) ++ [0; 0; 0; 0])
    (((λ i, mkPage (Z.of_nat i) 7 (Some (Z.of_nat i)) (f i).1 1 (f i).2 0 0) <$> seq 0 12) ++ replicate 4 null_page).

Definition ex_hits : page_cell := ex_cell (λ i, (0, Z.of_nat i mod 5 + 1)).

Lemma ex_hits_wf : cell_wf ex_hits.
Proof.
  split; [done..|]. unfold ex_hits, ex_cell. cbn [buf].
  repeat (apply Forall_cons_2; [split; vm_compute; discriminate|]). apply Forall_nil_2.
Qed.

Lemma gclock_evicts_lowest_score_witness :
  ∃ h' c', gclock_evict_page 3 ex_hits = Ok (Some 5, h', c') ∧ h' = 18 ∧
    ∃ i p, get_page ex_hits (Z.of_nat i) = Ok 5 ∧ view ex_hits !! i = Some p ∧
      score_of 12 3 (Z.of_nat i) p = 14.
Proof.
  destruct (gclock_evict_page 3 ex_hits) as [[[r h'] c']|] eqn:E; [|by vm_compute in E].
  assert (r = Some 5 ∧ h' = 18) as [-> ->] by (vm_compute in E; injection E as <- <- _; done).
  exists 18, c'. split; [exact eq_refl|]. split; [exact eq_refl|].
  assert (Hc : clean ex_hits).
  { intros p Hp _. rewrite view_filter in Hp. apply list_elem_of_filter in Hp as [_ Hp]. revert p Hp.
    apply Forall_forall. by repeat constructor. }
  destruct (gclock_evicts_lowest_score 3 ex_hits 5 18 c' ex_hits_wf ltac:(done) ltac:(done) ltac:(done) Hc E)
    as (i & p & s & Hg & Hv & _ & Hs & Hh & _).
  exists i, p. split; [exact Hg|]. split; [exact Hv|]. change (num_pages ex_hits) with 12 in Hs.
  change (3 mod 12) with 3 in Hs. rewrite <-Hs. lia.
Defined.

Lemma add_pages_correct_witness :
  ∃ c', add_pages [100; 101] 0 ex_hits = Ok c' ∧ num_pages c' = 14.
Proof.
  destruct (add_pages_correct [100; 101] 0 ex_hits ex_hits_wf) as (c' & H & _ & Hn & _). exists c'. exact (conj H Hn).
Defined.

(** One referenced page is enough for the eviction to give up although eleven
    pages are free: the hand counts it again on every round. *)
Example gclock_null_despite_free :
  let c := ex_cell (λ i, if (i =? 0)%nat then (1, 1) else (0, 12)) in
  match gclock_evict_page 0 c with Ok (None, _, _) => True | _ => False end ∧
  length (filter (λ p, refcnt p = 0) (view c)) = 11%nat.
Proof. split; vm_compute; done. Qed.

(** The same for the second-chance clock, with half of the pages referenced. *)
Example clock_null_despite_free :
  let c := ex_cell (λ i, if (i <? 6)%nat then (1, 1) else (0, 1)) in
  match clock_evict_page 0 c with Ok (None, _, _) => True | _ => False end ∧
  length (filter (λ p, refcnt p = 0) (view c)) = 6%nat.
Proof. split; vm_compute; done. Qed.

(** With gaps, a page past the number of pages is not "contained" in its cell, and
    [get_idx] refuses it. *)
Example contain_with_gaps :
  match steal_pages 2 ex_hits with
  | Ok (_, c) => get_page c 9 = Ok 11 ∧ contain 11 c = false ∧ get_idx 11 c = Throw AssertFailed
  | Throw _ => False
  end.
Proof. vm_compute. done. Qed.
