(* ===== verification/HashCell.v ===== *)
(** * The cells of the SAFS page cache: [hash_cell] of [SAFS/libsafs/associative_cache.h]
      and [associative_cache.cpp]

    A cell of the hash table is a set of pages with an eviction policy.  Every
    operation holds the lock of the cell throughout, so it is one step here; the
    policy is the one the code is built with, [gclock].  [hash1_locked] of the
    table is a parameter of [rehash]. *)
From S2P Require Import Prelude PageCell.
From stdpp Require Import options.
Open Scope Z_scope.

Definition CELL_OVERFLOW : Z := 0.
Definition IN_QUEUE : Z := 1.

Record hash_cell := mkHC {
  hash : Z;
  hflags : Z;
  hbuf : page_cell;
  clock_head : Z;
  num_accesses : Z;
  num_evictions : Z
}.

Definition new_hash_cell : hash_cell := mkHC (-1) 0 new_cell 0 0 0.

Definition with_buf (hc : hash_cell) (c : page_cell) : hash_cell :=
  mkHC (hash hc) (hflags hc) c (clock_head hc) (num_accesses hc) (num_evictions hc).

(** [init]: [pages] is what the memory manager returns, [None] when it has no free
    pages; it is not called when [get_pages] is false. *)
Definition init (h : Z) (pages : option (list Z)) (get_pages : bool) (node : Z) (hc : hash_cell) : res hash_cell :=
  if negb (h <? 2 ^ 31 - 1) then Throw AssertFailed else
  let? c := if get_pages then
              match pages with None => Throw (runtime_error "oom") | Some ps => set_pages ps node (hbuf hc) end
            else Ok (hbuf hc) in
  Ok (mkHC h (hflags hc) c (clock_head hc) 0 0).

Definition is_in_queue (hc : hash_cell) : bool := negb (Z.land (hflags hc) (Z.shiftl 1 IN_QUEUE) =? 0).
Definition set_in_queue (v : bool) (hc : hash_cell) : bool * hash_cell :=
  let fl := if v then Z.lor (hflags hc) (Z.shiftl 1 IN_QUEUE) else Z.land (hflags hc) (Z.lnot (Z.shiftl 1 IN_QUEUE)) in
  (is_in_queue hc, mkHC (hash hc) fl (hbuf hc) (clock_head hc) (num_accesses hc) (num_evictions hc)).

Definition is_deficit (hc : hash_cell) : bool := num_pages (hbuf hc) <? CELL_MIN_NUM_PAGES.
Definition is_full (hc : hash_cell) : bool := num_pages (hbuf hc) =? Z.of_nat CELL_SIZE.

(** [get_empty_page] of the cell *)
Definition hc_get_empty_page (hc : hash_cell) : res (option Z * hash_cell) :=
  let? r := gclock_evict_page (clock_head hc) (hbuf hc) in
  let '(pg, h, c) := r in
  Ok (pg, mkHC (hash hc) (hflags hc) c h (num_accesses hc) (num_evictions hc)).

(** The loop that looks for a page. *)
Definition matches (id : page_id) (p : page) : bool := (get_offset p =? id_off id) && (file_id p =? id_file id).
Fixpoint find_page (k : nat) (i : Z) (id : page_id) (c : page_cell) : res (option Z) :=
  match k with
  | O => Ok None
  | S k' =>
      let? pg := get_page c i in
      let? p := page_at c pg in
      if matches id p then Ok (Some pg) else find_page k' (i + 1) id c
  end.

(** [search(pg_id)]: the page, referenced, or [NULL]. *)
Definition lookup (id : page_id) (hc : hash_cell) : res (option Z * hash_cell) :=
  let c := hbuf hc in
  let? r := find_page (Z.to_nat (num_pages c)) 0 id c in
  match r with
  | Some pg => Ok (Some pg, with_buf hc (upd_page pg inc_ref c))
  | None => Ok (None, hc)
  end.

(** What a miss does to the evicted page before it gets its new identifier; it is
    an assertion that no I/O is pending on it. *)
Definition retire (p : page) : res page :=
  let p := set_data_ready false p in
  if is_io_pending p then Throw AssertFailed else
  Ok (if is_dirty p && negb (is_old_dirty p) then set_old_dirty true (set_dirty false p) else p).

Definition PAGE_INVALID_OFFSET : Z := Z.shiftl (-1) LOG_PAGE_SIZE.

Definition old_id_of (p : page) : res page_id :=
  if get_offset p =? -1 then
    if file_id p =? -1 then Ok (mkId (file_id p) PAGE_INVALID_OFFSET) else Throw AssertFailed
  else Ok (mkId (file_id p) (get_offset p)).

(** The end of [search]: the page is referenced and counted as hit. *)
Definition touch (pg : Z) (c : page_cell) : res page_cell :=
  let c := upd_page pg inc_ref c in
  let? p := page_at c pg in
  let? c := if hits p =? 255 then scale_down_hits c else Ok c in
  Ok (upd_page pg hit c).

(** [search(pg_id, old_id)]: the page, the identifier of the page it replaces when
    the page was not in the cell, and the cell. *)
Definition search (id : page_id) (hc : hash_cell) : res (option Z * option page_id * hash_cell) :=
  let hc := mkHC (hash hc) (hflags hc) (hbuf hc) (clock_head hc) (num_accesses hc + 1) (num_evictions hc) in
  let c := hbuf hc in
  let? found := find_page (Z.to_nat (num_pages c)) 0 id c in
  let? r :=
    match found with
    | Some pg => Ok (Some pg, None, hc)
    | None =>
        let hc := mkHC (hash hc) (hflags hc) (hbuf hc) (clock_head hc) (num_accesses hc) (num_evictions hc + 1) in
        let? e := hc_get_empty_page hc in
        match e with
        | (None, hc) => Ok (None, None, hc)
        | (Some pg, hc) =>
            let? p := page_at (hbuf hc) pg in
            let? p := retire p in
            let? old := old_id_of p in
            Ok (Some pg, Some old, with_buf hc (upd_page pg (λ _, set_id id p) (hbuf hc)))
        end
    end in
  match r with
  | (None, old, hc) => Ok (None, old, hc)
  | (Some pg, old, hc) =>
      let? c := touch pg (hbuf hc) in Ok (Some pg, old, with_buf hc c)
  end.

Definition hc_add_pages (pages : list Z) (node : Z) (hc : hash_cell) : res hash_cell :=
  let? c := add_pages pages node (hbuf hc) in Ok (with_buf hc c).

(** [add_pages_to_min]: also the number of pages used. *)
Definition add_pages_to_min (pages : list Z) (node : Z) (hc : hash_cell) : res (Z * hash_cell) :=
  let num_required := CELL_MIN_NUM_PAGES - num_pages (hbuf hc) in
  if 0 <? num_required then
    let num_required := Z.min num_required (Z.of_nat (length pages)) in
    let? hc' := hc_add_pages (take (Z.to_nat num_required) pages) node hc in Ok (num_required, hc')
  else Ok (0, hc).

Definition merge (this other : hash_cell) : res (hash_cell * hash_cell) :=
  if negb (num_pages (hbuf other) + num_pages (hbuf this) <=? Z.of_nat CELL_SIZE) then Throw AssertFailed else
  let? r := PageCell.steal_pages CELL_SIZE (hbuf other) in
  let? c := inject_pages r.1 (hbuf this) in
  Ok (with_buf this c, with_buf other r.2).

(** [steal_pages] of the cell: the addresses of the evicted pages.  The map of the
    cell is rebuilt only after the loop. *)
Fixpoint hc_steal_loop (n : nat) (hc : hash_cell) : res (list Z * hash_cell) :=
  match n with
  | O => Ok ([], hc)
  | S n' =>
      let? e := hc_get_empty_page hc in
      match e with
      | (None, hc) => Ok ([], hc)
      | (Some pg, hc) =>
          let? p := page_at (hbuf hc) pg in
          if is_dirty p then Throw AssertFailed else
          let c := upd_page pg (λ _, null_page) (hbuf hc) in
          let? c := steal_page pg false c in
          let? r := hc_steal_loop n' (with_buf hc c) in
          Ok (default 0 (data p) :: r.1, r.2)
      end
  end.
Definition hc_steal_pages (npages : nat) (hc : hash_cell) : res (list Z * hash_cell) :=
  let? r := hc_steal_loop npages hc in
  let? c := rebuild_map (hbuf r.2) in
  Ok (r.1, with_buf r.2 c).

(** [num_pages(set_flags, clear_flags)], [get_pages] and [is_referenced]. *)
Definition selected (set_flags clear_flags : Z) (p : page) : bool :=
  test_flags set_flags p && negb (test_flags clear_flags p).
Fixpoint count_pages (k : nat) (i set_flags clear_flags : Z) (c : page_cell) : res Z :=
  match k with
  | O => Ok 0
  | S k' =>
      let? pg := get_page c i in
      let? p := page_at c pg in
      let? n := count_pages k' (i + 1) set_flags clear_flags c in
      Ok (if selected set_flags clear_flags p then n + 1 else n)
  end.
Definition hc_num_pages (set_flags clear_flags : Z) (hc : hash_cell) : res Z :=
  count_pages (Z.to_nat (num_pages (hbuf hc))) 0 set_flags clear_flags (hbuf hc).

Fixpoint get_pages_loop (k : nat) (i set_flags clear_flags : Z) (pages : gmap Z Z) (c : page_cell)
  : res (gmap Z Z * page_cell) :=
  match k with
  | O => Ok (pages, c)
  | S k' =>
      let? pg := get_page c i in
      let? p := page_at c pg in
      if selected set_flags clear_flags p then
        let pages' := match pages !! get_offset p with Some _ => pages | None => <[get_offset p := pg]> pages end in
        get_pages_loop k' (i + 1) set_flags clear_flags pages' (upd_page pg inc_ref c)
      else get_pages_loop k' (i + 1) set_flags clear_flags pages c
  end.
Definition hc_get_pages (set_flags clear_flags : Z) (pages : gmap Z Z) (hc : hash_cell) : res (gmap Z Z * hash_cell) :=
  let c := hbuf hc in
  let? r := get_pages_loop (Z.to_nat (num_pages c)) 0 set_flags clear_flags pages c in
  Ok (r.1, with_buf hc r.2).

Definition hc_predict_evicted_pages (want set_flags clear_flags : Z) (pages : gmap Z Z) (hc : hash_cell)
  : res (gmap Z Z * hash_cell) :=
  let? r := predict_evicted_pages (clock_head hc) want set_flags clear_flags pages (hbuf hc) in
  Ok (r.1, with_buf hc (map_fold (λ _ pg c, upd_page pg inc_ref c) r.2 r.1)).

Definition is_referenced (hc : hash_cell) : bool := existsb (λ p, 0 <? refcnt p) (view (hbuf hc)).

(** ** [rehash] *)

Section rehash.
Context (hash1_locked : page_id → Z) (min_cell_size : Z).

Definition id_of (p : page) : page_id := mkId (file_id p) (get_offset p).

(** The pages to move to the expanded cell, in order. *)
Fixpoint choose_exchanges (k : nat) (i this_hash exp_hash : Z) (c : page_cell) : res (list Z * page_cell) :=
  match k with
  | O => Ok ([], c)
  | S k' =>
      let? pg := get_page c i in
      let? p := page_at c pg in
      let hash1 := hash1_locked (id_of p) in
      if negb (hash1 =? exp_hash) then
        let? p' := set_hits 1 p in
        choose_exchanges k' (i + 1) this_hash exp_hash (upd_page pg (λ _, p') c)
      else if negb (this_hash =? hash1) then
        if negb (refcnt p =? 0) then choose_exchanges k' (i + 1) this_hash exp_hash c
        else let? r := choose_exchanges k' (i + 1) this_hash exp_hash c in Ok (pg :: r.1, r.2)
      else choose_exchanges k' (i + 1) this_hash exp_hash c
  end.

Fixpoint take_out (pgs : list Z) (c : page_cell) : res (list page * page_cell) :=
  match pgs with
  | [] => Ok ([], c)
  | pg :: pgs' =>
      let? p := page_at c pg in
      let? c := steal_page pg false c in
      let? r := take_out pgs' (upd_page pg (λ _, null_page) c) in
      Ok (p :: r.1, r.2)
  end.

(** Moves the pages at the given positions from one cell to the other. *)
Definition move_pages (pgs : list Z) (c e : page_cell) : res (page_cell * page_cell) :=
  let? r := take_out pgs c in
  let? c' := rebuild_map r.2 in
  let? e' := inject_pages r.1 e in
  Ok (c', e').

Fixpoint choose_empty (k : nat) (i required : Z) (c : page_cell) : res (list Z) :=
  match k with
  | O => Ok []
  | S k' =>
      if 0 <? required then
        let? pg := get_page c i in
        let? p := page_at c pg in
        if initialized p then choose_empty k' (i + 1) required c
        else let? r := choose_empty k' (i + 1) (required - 1) c in Ok (pg :: r)
      else Ok []
  end.

Definition rehash (this expanded : hash_cell) : res (hash_cell * hash_cell) :=
  let c := hbuf this in
  let? x := choose_exchanges (Z.to_nat (num_pages c)) 0 (hash this) (hash expanded) c in
  let? m := if (0 <? length x.1)%nat then move_pages x.1 x.2 (hbuf expanded) else Ok (x.2, hbuf expanded) in
  let num_required := min_cell_size - num_pages m.2 in
  let? m := if 0 <? num_required then
              let? es := choose_empty (Z.to_nat (num_pages m.1)) 0 num_required m.1 in
              move_pages es m.1 m.2
            else Ok m in
  Ok (with_buf this m.1, with_buf expanded m.2).
End rehash.

(** ** Lemmas on cells *)

Definition same_but_hits (p q : page) : Prop := ∃ h, 0 ≤ h ≤ 255 ∧ q = with_hits p h.

Lemma same_but_hits_refl p : page_ok p → same_but_hits p p.
Proof. intros. exists (hits p). split; [done|]. by destruct p. Qed.

Lemma same_but_hits_trans p q r : same_but_hits p q → same_but_hits q r → same_but_hits p r.
Proof. intros (h & ? & ->) (h' & ? & ->). by exists h'. Qed.

Lemma ticked_same p q : page_ok p → ticked p q → same_but_hits p q.
Proof. intros [? ?] (E & ? & _). exists (hits q). split; [lia|done]. Qed.

(** The cell [c'] has the structure of [c], and all pages but [pg] are the same. *)
Record frames (pg : Z) (c c' : page_cell) : Prop := {
  fr_num : num_pages c' = num_pages c;
  fr_used : used (buf c') = used (buf c);
  fr_others : ∀ j p, Z.of_nat j ≠ pg → buf c !! j = Some p → ∃ q, buf c' !! j = Some q ∧ same_but_hits p q
}.

Lemma frames_trans pg c c' c'' : frames pg c c' → frames pg c' c'' → frames pg c c''.
Proof.
  intros [] []. split; [congruence|congruence|]. intros j p Hj Hp.
  destruct (fr_others0 j p Hj Hp) as (q & Hq & Hs). destruct (fr_others1 j q Hj Hq) as (r & Hr & Hs').
  exists r. eauto using same_but_hits_trans.
Qed.

Lemma frames_refl pg c : cell_wf c → frames pg c c.
Proof.
  intros Hwf. split; [done..|]. intros j p _ Hp. exists p. split; [done|]. apply same_but_hits_refl.
  eapply Forall_lookup_1; [apply Hwf|done].
Qed.

Lemma frames_upd u f c : cell_wf c → (∀ p, buf c !! u = Some p → has_data (f p) = has_data p) → frames (Z.of_nat u) c (upd_page (Z.of_nat u) f c).
Proof.
  intros Hwf Hf. split; [done|simpl; rewrite Nat2Z.id; by rewrite used_alter|]. intros j p Hj Hp. exists p. simpl.
  rewrite list_lookup_alter_ne by lia. split; [done|]. apply same_but_hits_refl.
  eapply Forall_lookup_1; [apply Hwf|done].
Qed.

Lemma upd_lookup u f c p : buf c !! u = Some p → buf (upd_page (Z.of_nat u) f c) !! u = Some (f p).
Proof. intros H. simpl. by rewrite Nat2Z.id, list_lookup_alter_eq, H. Qed.

Lemma page_at_lookup c u p : buf c !! u = Some p → page_at c (Z.of_nat u) = Ok p.
Proof. intros H. unfold page_at. by rewrite Nat2Z.id, H. Qed.

Lemma view_elem c u p : buf c !! u = Some p → has_data p = true → p ∈ view c.
Proof.
  intros Hp Hd. rewrite view_filter. apply list_elem_of_filter. rewrite Hd. split; [done|].
  by eapply list_elem_of_lookup_2.
Qed.

(** *** Looking for a page *)

Lemma find_page_from c k : ∀ i id, cell_wf c → 0 ≤ i → i + Z.of_nat k = num_pages c →
  ∃ r, find_page k i id c = Ok r ∧
    match r with
    | Some pg => ∃ u p, pg = Z.of_nat u ∧ buf c !! u = Some p ∧ has_data p = true ∧ matches id p = true
    | None => ∀ j p, (Z.to_nat i ≤ j)%nat → view c !! j = Some p → matches id p = false
    end.
Proof.
  induction k as [|k IH]; intros i id Hwf Hi Hk; simpl.
  { exists None. split; [done|]. intros j p Hj Hp. apply lookup_lt_Some in Hp. rewrite length_view in Hp.
    rewrite (wf_num _ Hwf) in Hk. lia. }
  destruct (view_get c Hwf i) as (u & p & _ & Hv & Hb & -> & Hpa & Hd); [lia|]. simpl. rewrite Hpa. simpl.
  destruct (matches id p) eqn:Em.
  - exists (Some (Z.of_nat u)). split; [done|]. by exists u, p.
  - destruct (IH (i + 1) id Hwf) as (r & -> & Hr); [lia|lia|]. exists r. split; [done|].
    destruct r as [pg|]; [done|]. intros j q Hj Hq. destruct (decide (j = Z.to_nat i)) as [->|Hne].
    + by simplify_eq.
    + apply (Hr j); [lia|done].
Qed.

Lemma find_page_ok id c : cell_wf c →
  ∃ r, find_page (Z.to_nat (num_pages c)) 0 id c = Ok r ∧
    match r with
    | Some pg => ∃ u p, pg = Z.of_nat u ∧ buf c !! u = Some p ∧ has_data p = true ∧ matches id p = true
    | None => ∀ p, p ∈ view c → matches id p = false
    end.
Proof.
  intros Hwf. destruct (find_page_from c (Z.to_nat (num_pages c)) 0 id Hwf) as (r & -> & Hr);
    [lia|rewrite (wf_num _ Hwf); lia|].
  exists r. split; [done|]. destruct r; [done|]. intros p Hp. apply list_elem_of_lookup in Hp as [j Hj].
  apply (Hr j); [lia|done].
Qed.

Lemma used_fresh b i u : used b !! i = Some u → u ∉ drop (S i) (used b).
Proof.
  intros Hu Hin. apply list_elem_of_lookup in Hin as [m Hm]. rewrite lookup_drop in Hm.
  pose proof (NoDup_lookup _ _ _ _ (used_NoDup b) Hm Hu). lia.
Qed.

(** *** Halving the hits *)

Definition halve (p : page) : page := with_hits p (hits p `quot` 2).

Lemma quot2_bound h : 0 ≤ h ≤ 255 → 0 ≤ h `quot` 2 ≤ 127.
Proof. intros. rewrite Z.quot_div_nonneg by lia. split; [apply Z.div_pos; lia|].
  assert (h / 2 < 128) by (apply Z.div_lt_upper_bound; lia). lia. Qed.

Lemma set_half_ok p : page_ok p → set_hits (hits p `quot` 2) p = Ok (halve p).
Proof.
  intros Hok. pose proof (quot2_bound _ Hok). unfold set_hits, halve, u8.
  rewrite (proj2 (Z.leb_le _ _)), Z.mod_small by lia. done.
Qed.

Lemma scale_loop k : ∀ i c, cell_wf c → 0 ≤ i → i + Z.of_nat k ≤ num_pages c →
  ∃ c', for_pages k i (λ pg c, let? p := page_at c pg in
             let? p' := set_hits (hits p `quot` 2) p in Ok (upd_page pg (λ _, p') c)) c = Ok c' ∧
    cell_wf c' ∧ num_pages c' = num_pages c ∧ used (buf c') = used (buf c) ∧
    ∀ j p, buf c !! j = Some p →
      buf c' !! j = Some (if decide (j ∈ take k (drop (Z.to_nat i) (used (buf c)))) then halve p else p).
Proof.
  induction k as [|k IH]; intros i c Hwf Hi Hk; cbn [for_pages].
  { exists c. split; [done|]. do 3 (split; [done|]). intros j p Hp. rewrite take_0. by rewrite decide_False by set_solver. }
  destruct (view_get c Hwf i) as (u & p & Hu & Hv & Hb & -> & Hpa & Hd); [lia|]. cbn [rbind]. rewrite Hpa. cbn [rbind].
  destruct (view_ok _ _ _ Hwf Hv) as [Hok _]. rewrite set_half_ok by done. cbn [rbind].
  assert (E : upd_page (Z.of_nat u) (λ _, halve p) c = upd_page (Z.of_nat u) halve c)
    by (unfold upd_page; f_equal; rewrite Nat2Z.id; by apply alter_const).
  rewrite E. set (c1 := upd_page (Z.of_nat u) halve c).
  assert (Hwf1 : cell_wf c1).
  { apply upd_page_wf; [done|done|]. intros q _ Hq. pose proof (quot2_bound _ Hq). split; simpl; lia. }
  assert (Hu1 : used (buf c1) = used (buf c)) by (apply used_alter; done).
  destruct (IH (i + 1) c1 Hwf1) as (c' & -> & Hwf' & Hn & Hu' & Hj);
    [lia|change (num_pages c1) with (num_pages c); lia|].
  exists c'. split; [done|]. split; [done|]. split; [done|]. split; [congruence|]. intros j q Hq.
  rewrite (drop_S _ _ _ Hu), firstn_cons. replace (Z.to_nat (i + 1)) with (S (Z.to_nat i)) in Hj by lia.
  assert (Hnin : u ∉ take k (drop (S (Z.to_nat i)) (used (buf c)))).
  { intros Hin. apply (used_fresh _ _ _ Hu). by eapply subseteq_take. }
  destruct (decide (j = u)) as [->|Hne].
  - rewrite Hb in Hq. injection Hq as <-. rewrite (Hj u (halve p)) by (by apply upd_lookup). rewrite Hu1.
    rewrite decide_False by done. by rewrite decide_True by set_solver.
  - rewrite (Hj j q) by (simpl; by rewrite list_lookup_alter_ne by lia). rewrite Hu1. f_equal.
    destruct (decide (j ∈ take k (drop (S (Z.to_nat i)) (used (buf c))))).
    + by rewrite decide_True by set_solver.
    + by rewrite decide_False by set_solver.
Qed.

Lemma scale_down_ok c : cell_wf c →
  ∃ c', scale_down_hits c = Ok c' ∧ cell_wf c' ∧ num_pages c' = num_pages c ∧ used (buf c') = used (buf c) ∧
    ∀ j p, buf c !! j = Some p → buf c' !! j = Some (if has_data p then halve p else p).
Proof.
  intros Hwf. unfold scale_down_hits. pose proof (wf_num _ Hwf) as Hn.
  destruct (scale_loop (Z.to_nat (num_pages c)) 0 c Hwf) as (c' & -> & Hwf' & Hn' & Hu & Hj); [lia|lia|].
  exists c'. do 4 (split; [done|]). intros j p Hp. rewrite (Hj j p Hp), drop_0, take_ge by lia. f_equal.
  destruct (has_data p) eqn:Hd.
  - rewrite decide_True; [done|]. by eapply elem_of_used.
  - rewrite decide_False; [done|]. intros Hin. apply list_elem_of_lookup in Hin as [m Hm].
    destruct (used_lookup _ _ _ Hm) as (q & ? & ?). congruence.
Qed.

(** ** [search] *)

(** No two pages of the cell have the same identifier. *)
Definition unique (c : page_cell) : Prop := ∀ u v p q, buf c !! u = Some p → buf c !! v = Some q →
  has_data p = true → has_data q = true → initialized p = true → id_of p = id_of q → u = v.

(** References fit their counter, and I/O is pending only on referenced pages. *)
Definition ref_ok (p : page) : Prop :=
  0 ≤ refcnt p < 2 ^ 15 - 1 ∧ (is_io_pending p = true → refcnt p ≠ 0).

Lemma inc_ref_ok p : 0 ≤ refcnt p < 2 ^ 15 - 1 → inc_ref p = with_ref p (refcnt p + 1).
Proof. intros. unfold inc_ref, s16. rewrite Z.mod_small by lia. f_equal. lia. Qed.

Lemma matches_id id p : matches id p = true ↔ id_of p = id.
Proof.
  unfold matches, id_of. destruct id as [f o]. simpl. rewrite andb_true_iff, !Z.eqb_eq.
  split; [intros [-> ->]; done|by intros [= -> ->]].
Qed.

Lemma id_same p q : same_but_hits p q → id_of q = id_of p ∧ has_data q = has_data p ∧ initialized q = initialized p.
Proof. by intros (h & _ & ->). Qed.

Lemma touch_page c u p : cell_wf c → buf c !! u = Some p → has_data p = true → 0 ≤ refcnt p < 2 ^ 15 - 1 →
  ∃ c' h, touch (Z.of_nat u) c = Ok c' ∧
    cell_wf c' ∧ frames (Z.of_nat u) c c' ∧ 1 ≤ h ≤ 255 ∧
    buf c' !! u = Some (with_hits (with_ref p (refcnt p + 1)) h).
Proof.
  intros Hwf Hp Hd Href. pose proof (Forall_lookup_1 _ _ _ _ (wf_pages _ Hwf) Hp) as Hok.
  set (c1 := upd_page (Z.of_nat u) inc_ref c).
  assert (Hwf1 : cell_wf c1) by (apply upd_page_wf; [done|done|]; intros q _ [? ?]; split; simpl; lia).
  assert (Hf1 : frames (Z.of_nat u) c c1) by (by apply frames_upd).
  pose proof (upd_lookup u inc_ref c p Hp) as Hp1. rewrite inc_ref_ok in Hp1 by done.
  set (p1 := with_ref p (refcnt p + 1)) in *.
  assert (Hhit : ∀ c2 p2, cell_wf c2 → frames (Z.of_nat u) c1 c2 → buf c2 !! u = Some p2 → 0 ≤ hits p2 < 255 →
    cell_wf (upd_page (Z.of_nat u) hit c2) ∧ frames (Z.of_nat u) c (upd_page (Z.of_nat u) hit c2) ∧
    buf (upd_page (Z.of_nat u) hit c2) !! u = Some (with_hits p2 (hits p2 + 1))).
  { intros c2 p2 Hwf2 Hf2 Hp2 Hb. assert (Eh : hit p2 = with_hits p2 (hits p2 + 1)) by (unfold hit; by rewrite u8_small by lia).
    split.
    - apply upd_page_wf; [done|done|]. rewrite Nat2Z.id, Hp2. intros q [= <-] _. rewrite Eh. split; simpl; lia.
    - split; [|rewrite <-Eh; by apply upd_lookup]. eapply frames_trans; [done|]. eapply frames_trans; [done|].
      by apply frames_upd. }
  unfold touch. fold c1. rewrite (page_at_lookup c1 u p1 Hp1). cbn [rbind]. destruct Hok as [Hh0 Hh1].
  destruct (Z.eqb_spec (hits p1) 255) as [E|E].
  - destruct (scale_down_ok c1 Hwf1) as (c2 & -> & Hwf2 & Hn2 & Hu2 & Hj2). cbn [rbind].
    pose proof (Hj2 u p1 Hp1) as Hp2. change (has_data p1) with (has_data p) in Hp2. rewrite Hd in Hp2.
    destruct (Hhit c2 (halve p1)) as (Hw & Hf & Hb); [done| |done|cbn; simpl in E; rewrite E; done|].
    { split; [done|done|]. intros j q Hj Hq. eexists. split; [by apply Hj2|].
      pose proof (Forall_lookup_1 _ _ _ _ (wf_pages _ Hwf1) Hq) as Hokq. destruct (has_data q).
      - eexists. split; [|done]. pose proof (quot2_bound _ Hokq). lia.
      - by apply same_but_hits_refl. }
    eexists _, (hits (halve p1) + 1). split; [done|]. split; [done|]. split; [done|]. split; [|done].
    cbn. simpl in E. rewrite E. done.
  - destruct (Hhit c1 p1) as (Hw & Hf & Hb); [done|by apply frames_refl|done|simpl in *; lia|].
    eexists _, (hits p1 + 1). split; [done|]. split; [done|]. split; [done|]. split; [simpl in *; lia|done].
Qed.

(** What the evicted page becomes. *)
Lemma retire_ok p : (is_io_pending p = true → refcnt p ≠ 0) → refcnt p = 0 →
  ∃ f, retire p = Ok (with_flags p f) ∧ get_flag f DATA_READY_BIT = false ∧
    get_flag f DIRTY_BIT = is_dirty p && is_old_dirty p ∧ get_flag f OLD_DIRTY_BIT = is_dirty p || is_old_dirty p.
Proof.
  intros Hio Hr. unfold retire, set_data_ready, is_io_pending, is_dirty, is_old_dirty in *.
  cbn [set_flag with_flags flags]. rewrite !flag_set_get by done. cbn [decide].
  repeat (rewrite decide_False by done).
  destruct (get_flag (flags p) IO_PENDING_BIT) eqn:Ei; [by destruct Hio|].
  destruct (get_flag (flags p) DIRTY_BIT) eqn:Ed, (get_flag (flags p) OLD_DIRTY_BIT) eqn:Eo;
    (eexists; split; [reflexivity|]); 
    unfold set_dirty, set_flag; cbn [with_flags flags]; rewrite !flag_set_get by done; rewrite ?Ed, ?Eo; done.
Qed.

Lemma old_id_ok p : old_id_of p = Ok (id_of p).
Proof.
  unfold old_id_of, id_of, get_offset. rewrite Z.shiftl_mul_pow2 by done.
  rewrite (proj2 (Z.eqb_neq _ _)); [done|]. change (2 ^ LOG_PAGE_SIZE) with 4096. lia.
Qed.

Lemma frames_back u c c' j q : cell_wf c → cell_wf c' → frames u c c' → Z.of_nat j ≠ u → buf c' !! j = Some q →
  ∃ p, buf c !! j = Some p ∧ same_but_hits p q.
Proof.
  intros Hwf Hwf' Hf Hj Hq. destruct (buf c !! j) as [p|] eqn:Ep.
  - destruct (fr_others _ _ _ Hf j p Hj Ep) as (q' & Hq' & Hs). simplify_eq. by exists p.
  - apply lookup_ge_None in Ep. apply lookup_lt_Some in Hq. rewrite (wf_buf _ Hwf) in Ep. rewrite (wf_buf _ Hwf') in Hq. lia.
Qed.

(** A page that takes an identifier no other page has keeps the cell unique. *)
Lemma unique_frames u c c' p' : cell_wf c → cell_wf c' → unique c → frames (Z.of_nat u) c c' → buf c' !! u = Some p' →
  (∀ j q, j ≠ u → buf c !! j = Some q → has_data q = true → id_of q ≠ id_of p') → unique c'.
Proof.
  intros Hwf Hwf' Hu Hf Hp' Hne a b p q Ha Hb Hda Hdb Hi E.
  destruct (decide (a = u)) as [->|Hau], (decide (b = u)) as [->|Hbu]; [done|..].
  - destruct (frames_back _ _ _ b q Hwf Hwf' Hf) as (q0 & Hq0 & Hs); [lia|done|].
    destruct (id_same _ _ Hs) as (E1 & E2 & _). rewrite Hp' in Ha. injection Ha as <-.
    exfalso. apply (Hne b q0); congruence.
  - destruct (frames_back _ _ _ a p Hwf Hwf' Hf) as (p0 & Hp0 & Hs); [lia|done|].
    destruct (id_same _ _ Hs) as (E1 & E2 & _). rewrite Hp' in Hb. injection Hb as <-.
    exfalso. apply (Hne a p0); congruence.
  - destruct (frames_back _ _ _ a p Hwf Hwf' Hf) as (p0 & Hp0 & Hs); [lia|done|].
    destruct (frames_back _ _ _ b q Hwf Hwf' Hf) as (q0 & Hq0 & Hs'); [lia|done|].
    destruct (id_same _ _ Hs) as (E1 & E2 & E3). destruct (id_same _ _ Hs') as (E1' & E2' & E3').
    apply (Hu a b p0 q0); congruence.
Qed.

(** The eviction, seen from the cell. *)
Lemma evict_frames h c : cell_wf c → 0 < num_pages c →
  ∃ r h' c', gclock_evict_page h c = Ok (r, h', c') ∧ cell_wf c' ∧
    match r with
    | Some pg => ∃ u p, pg = Z.of_nat u ∧ buf c !! u = Some p ∧ has_data p = true ∧ refcnt p = 0 ∧
        buf c' !! u = Some (set_data_ready false (with_hits p 0)) ∧ frames pg c c'
    | None => num_pages c' = num_pages c ∧ (∀ j p, buf c !! j = Some p → ∃ q, buf c' !! j = Some q ∧ same_but_hits p q) ∧
        ∃ p, p ∈ view c ∧ refcnt p ≠ 0
    end.
Proof.
  intros Hwf Hn. destruct (gclock_loop_total h c Hwf Hn) as (r & h' & c' & Hl & Hwf' & Hev & Hr).
  assert (Hpt : ∀ j p, buf c !! j = Some p → ∃ q, buf c' !! j = Some q ∧ ticked p q).
  { intros j p Hp. destruct (Forall2_lookup_l _ _ _ _ _ (ev_buf _ _ Hev) Hp) as (q & ? & ?). eauto. }
  assert (Hsame : ∀ j p, buf c !! j = Some p → ∃ q, buf c' !! j = Some q ∧ same_but_hits p q).
  { intros j p Hp. destruct (Hpt j p Hp) as (q & Hq & Ht). exists q. split; [done|].
    eapply ticked_same; [|done]. eapply Forall_lookup_1; [apply Hwf|done]. }
  unfold gclock_evict_page. rewrite Hl. cbn [rbind]. destruct r as [pg|]; do 3 eexists; (split; [done|]).
  - split; [by apply set_data_ready_ok|]. destruct Hr as (i & u & p' & -> & Hu & Hp' & Href & Hh).
    destruct (evolves_lookup _ _ _ _ Hev Hp') as (p & Hp & Ht). exists u, p.
    destruct (used_lookup _ _ _ Hu) as (q & Hq & Hd). simplify_eq. rewrite (ticked_data _ _ Ht) in Hd.
    destruct Ht as (Ep & _ & _). rewrite Hh in Ep. split; [done|]. split; [done|]. split; [done|].
    split; [by rewrite Ep in Href|]. split; [rewrite <-Ep; by apply upd_lookup|].
    split; [simpl; apply Hev| |].
    + simpl. rewrite used_alter by done. unfold used.
      rewrite <-(Forall2_length _ _ _ (ev_buf _ _ Hev)). apply list_filter_iff. intros j.
      destruct (buf c !! j) as [x|] eqn:Ex.
      * destruct (Hpt j x Ex) as (y & -> & Ht). simpl. by rewrite (ticked_data _ _ Ht).
      * apply lookup_ge_None in Ex. rewrite (Forall2_length _ _ _ (ev_buf _ _ Hev)) in Ex.
        apply lookup_ge_None in Ex. by rewrite Ex.
    + intros j q Hj Hq'. destruct (Hsame j q Hq') as (y & Hy & Hs). exists y. split; [|done].
      simpl. by rewrite list_lookup_alter_ne by lia.
  - split; [done|]. split; [apply Hev|]. split; [done|]. destruct Hr as (p' & Hin & Hr').
    rewrite view_filter in Hin. apply list_elem_of_filter in Hin as [Hd Hin]. apply list_elem_of_lookup in Hin as [j Hj].
    destruct (evolves_lookup _ _ _ _ Hev Hj) as (p & Hp & Ht). exists p. apply Is_true_true in Hd.
    rewrite (ticked_data _ _ Ht) in Hd. destruct Ht as (Ep & _). rewrite Ep in Hr'. split; [|done]. by eapply view_elem.
Qed.

(** What [search] returns: [NULL] only when the page is not in the cell and some
    page is referenced; else a page with the identifier, referenced once more. *)
Definition search_post (id : page_id) (c : page_cell) (r : option Z) (old : option page_id) (c' : page_cell) : Prop :=
  match r with
  | None => old = None ∧ (∀ p, p ∈ view c → matches id p = false) ∧ ∃ p, p ∈ view c ∧ refcnt p ≠ 0
  | Some pg =>
      ∃ u p p', pg = Z.of_nat u ∧ buf c !! u = Some p ∧ has_data p = true ∧ frames pg c c' ∧
        buf c' !! u = Some p' ∧ id_of p' = id ∧ data p' = data p ∧ refcnt p' = refcnt p + 1 ∧ 1 ≤ hits p' ∧
        ((id_of p = id ∧ old = None ∧ flags p' = flags p) ∨
         ((∀ q, q ∈ view c → matches id q = false) ∧ refcnt p = 0 ∧ old = Some (id_of p) ∧
          data_ready p' = false ∧ is_dirty p' = is_dirty p && is_old_dirty p ∧
          is_old_dirty p' = is_dirty p || is_old_dirty p))
  end.

Lemma ref_ok_view c u p : Forall ref_ok (view c) → buf c !! u = Some p → has_data p = true → ref_ok p.
Proof. intros H Hp Hd. eapply Forall_forall; [exact H|]. by eapply view_elem. Qed.

(** The case of a hit: the page stays where it is. *)
Lemma search_hit id c u p c' h : cell_wf c → cell_wf c' → unique c → buf c !! u = Some p → has_data p = true →
  matches id p = true → initialized p = true → frames (Z.of_nat u) c c' → 1 ≤ h ≤ 255 →
  buf c' !! u = Some (with_hits (with_ref p (refcnt p + 1)) h) →
  unique c' ∧ search_post id c (Some (Z.of_nat u)) None c'.
Proof.
  intros Hwf Hwf' Hu Hp Hd Hm Hi Hf Hh Hp'. apply matches_id in Hm. split.
  - eapply unique_frames; [exact Hwf|exact Hwf'|exact Hu|exact Hf|exact Hp'|].
    intros j q Hj Hq Hdq E. apply Hj. symmetry. apply (Hu u j p q); try done.
  - eexists u, p, _. do 5 (split; [done|]). split; [done|]. split; [done|]. split; [done|]. split; [simpl; lia|]. by left.
Qed.

Lemma initialized_id id p : id_ok id → id_of p = id → initialized p = true.
Proof.
  intros [Ho _] <-. unfold initialized. apply negb_true_iff, Z.eqb_neq. intros E.
  unfold id_of, get_offset in Ho. cbn [id_off] in Ho. rewrite E in Ho.
  change (Z.shiftl (-1) LOG_PAGE_SIZE) with (-4096) in Ho. lia.
Qed.

(** Without a page to evict, only hits have changed. *)
Lemma unique_same c c' : cell_wf c → cell_wf c' → unique c →
  (∀ j p, buf c !! j = Some p → ∃ q, buf c' !! j = Some q ∧ same_but_hits p q) → unique c'.
Proof.
  intros Hwf Hwf' Hu Hsame a b p q Ha Hb Hda Hdb Hi E.
  assert (Hback : ∀ j x, buf c' !! j = Some x → ∃ y, buf c !! j = Some y ∧ same_but_hits y x).
  { intros j x Hx. destruct (buf c !! j) as [y|] eqn:Ey.
    - destruct (Hsame j y Ey) as (x' & Hx' & Hs). rewrite Hx in Hx'. injection Hx' as <-. by exists y.
    - apply lookup_ge_None in Ey. apply lookup_lt_Some in Hx. rewrite (wf_buf _ Hwf) in Ey.
      rewrite (wf_buf _ Hwf') in Hx. lia. }
  destruct (Hback a p Ha) as (p0 & Hp0 & Hs). destruct (Hback b q Hb) as (q0 & Hq0 & Hs').
  destruct (id_same _ _ Hs) as (E1 & E2 & E3). destruct (id_same _ _ Hs') as (E1' & E2' & E3').
  apply (Hu a b p0 q0); congruence.
Qed.

(** The evicted page gets its new identifier. *)
Lemma reuse_page id c c1 u p : cell_wf c1 → frames (Z.of_nat u) c c1 → ref_ok p → refcnt p = 0 → has_data p = true →
  buf c1 !! u = Some (set_data_ready false (with_hits p 0)) →
  ∃ q, retire (set_data_ready false (with_hits p 0)) = Ok q ∧ old_id_of q = Ok (id_of p) ∧
    data q = data p ∧ refcnt q = 0 ∧
    data_ready q = false ∧ is_dirty q = is_dirty p && is_old_dirty p ∧ is_old_dirty q = is_dirty p || is_old_dirty p ∧
    cell_wf (upd_page (Z.of_nat u) (λ _, set_id id q) c1) ∧
    frames (Z.of_nat u) c (upd_page (Z.of_nat u) (λ _, set_id id q) c1) ∧
    buf (upd_page (Z.of_nat u) (λ _, set_id id q) c1) !! u = Some (set_id id q).
Proof.
  intros Hwf1 Hf [_ Hio] Hr Hd Hp1. set (p1 := set_data_ready false (with_hits p 0)) in *.
  assert (Hflag : ∀ b, 0 < b < 8 → get_flag (flags p1) b = get_flag (flags p) b).
  { intros b Hb. unfold p1, set_data_ready, set_flag. cbn [with_flags flags with_hits]. rewrite flag_set_get by (done || lia).
    rewrite decide_False by (unfold DATA_READY_BIT; lia). done. }
  destruct (retire_ok p1) as (f & Hret & Hf0 & Hf2 & Hf3); [|done|].
  { unfold is_io_pending. rewrite Hflag by done. exact Hio. }
  exists (with_flags p1 f). split; [done|]. rewrite old_id_ok. split; [done|]. split; [done|]. split; [done|].
  split; [done|]. unfold is_dirty, is_old_dirty in *. rewrite !Hflag in Hf2, Hf3 by done. split; [done|]. split; [done|].
  split; [|split; [|by apply (upd_lookup u (λ _, set_id id (with_flags p1 f)) c1 p1)]].
  - apply upd_page_wf; [done| |intros x _ _; split; simpl; lia].
    rewrite Nat2Z.id, Hp1. by intros x [= <-].
  - eapply frames_trans; [done|]. apply frames_upd; [done|]. rewrite Hp1. by intros x [= <-].
Qed.

(** C7. [search] finds the page with the identifier or makes room for it: on a cell
    with room it returns a page that has this identifier, holds one more
    reference and at least one hit.  A page that was in the cell is returned
    with its data and flags as they are; otherwise an unreferenced page is
    reused, its old identifier is reported, its data is no longer marked ready
    and, if it was dirty, it is marked old dirty, so that the old contents are
    still written back.  All other pages keep their identifier, data, flags and
    references; the cell stays well formed and holds no identifier twice. *)
Theorem search_correct id hc :
  let c := hbuf hc in
  cell_wf c → unique c → 0 < num_pages c → Forall ref_ok (view c) → id_ok id →
  ∃ r old hc', search id hc = Ok (r, old, hc') ∧
    cell_wf (hbuf hc') ∧ unique (hbuf hc') ∧ num_pages (hbuf hc') = num_pages c ∧
    num_accesses hc' = num_accesses hc + 1 ∧ hash hc' = hash hc ∧
    search_post id c r old (hbuf hc').
Proof.
  intros c Hwf Hu Hn Href Hid. unfold search. cbn [hbuf]. fold c.
  destruct (find_page_ok id c Hwf) as ([pg|] & -> & Hfind); cbn [rbind].
  - destruct Hfind as (u & p & -> & Hp & Hd & Hm). cbn [hbuf]. fold c.
    destruct (touch_page c u p Hwf Hp Hd) as (c' & h & -> & Hwf' & Hf & Hh & Hp');
      [by destruct (ref_ok_view c u p Href Hp Hd)|]. cbn [rbind].
    destruct (search_hit id c u p c' h) as [Hu' Hpost]; try done.
    { apply initialized_id with id; [done|]. by apply matches_id. }
    do 3 eexists. split; [done|]. cbn [hbuf with_buf num_accesses hash]. split; [done|]. split; [done|].
    split; [apply Hf|]. done.
  - unfold hc_get_empty_page. cbn [hbuf HashCell.clock_head]. fold c.
    destruct (evict_frames (clock_head hc) c Hwf Hn) as ([pg|] & h' & c1 & -> & Hwf1 & Hev); cbn [rbind].
    2:{ destruct Hev as (Hnum & Hsame & Hsome). do 3 eexists. split; [done|]. cbn [hbuf with_buf num_accesses hash].
        split; [done|]. split; [exact (unique_same c c1 Hwf Hwf1 Hu Hsame)|done]. }
    destruct Hev as (u & p & -> & Hp & Hd & Hr & Hp1 & Hf1). cbn [hbuf].
    rewrite (page_at_lookup _ _ _ Hp1). cbn [rbind].
    destruct (reuse_page id c c1 u p Hwf1 Hf1 (ref_ok_view c u p Href Hp Hd) Hr Hd Hp1)
      as (q & -> & Hold & Hdq & Hrq & Hfl1 & Hfl2 & Hfl3 & Hwf2 & Hf2 & Hp2). cbn [rbind]. rewrite Hold. cbn [rbind hbuf with_buf].
    set (c2 := upd_page (Z.of_nat u) (λ _, set_id id q) c1) in *.
    destruct (touch_page c2 u (set_id id q) Hwf2 Hp2) as (c' & h & -> & Hwf' & Hf & Hh & Hp');
      [unfold has_data in *; simpl; by rewrite Hdq|simpl; lia|]. cbn [rbind].
    pose proof (frames_trans _ _ _ _ Hf2 Hf) as Hfr.
    assert (Eid : id_of (with_hits (with_ref (set_id id q) (refcnt (set_id id q) + 1)) h) = id).
    { unfold id_of. change (get_offset _) with (get_offset (set_id id q)). rewrite get_set_offset by done. by destruct id. }
    do 3 eexists. split; [done|]. cbn [hbuf with_buf num_accesses hash]. split; [done|]. split.
    { eapply unique_frames; [exact Hwf|exact Hwf'|exact Hu|exact Hfr|exact Hp'|].
      intros j x Hj Hx Hdx E. rewrite Eid in E. apply matches_id in E.
      rewrite Hfind in E; [done|]. by eapply view_elem. }
    split; [apply Hfr|]. split; [done|]. split; [done|].
    eexists u, p, _. split; [done|]. split; [done|]. split; [done|]. split; [exact Hfr|]. split; [exact Hp'|].
    split; [exact Eid|]. split; [done|]. split; [simpl; lia|]. split; [simpl; lia|]. right. done.
Qed.

(** ** Merging and splitting cells *)

(** Merging two cells that fit in one, the second without referenced pages,
    moves all pages of the second to the first: none is lost or duplicated, and
    both cells stay well formed.  Cells that do not fit fail the assertion. *)
Theorem merge_conserves this other :
  cell_wf (hbuf this) → cell_wf (hbuf other) → Forall (λ p, refcnt p ≤ 0) (view (hbuf other)) →
  if num_pages (hbuf other) + num_pages (hbuf this) <=? Z.of_nat CELL_SIZE then
    ∃ this' other', merge this other = Ok (this', other') ∧ cell_wf (hbuf this') ∧ cell_wf (hbuf other') ∧
      view (hbuf this') ≡ₚ view (hbuf this) ++ view (hbuf other) ∧ view (hbuf other') = [] ∧
      hash this' = hash this ∧ hash other' = hash other
  else merge this other = Throw AssertFailed.
Proof.
  intros Hwf Hwf' Hr. unfold merge. destruct (Z.leb_spec (num_pages (hbuf other) + num_pages (hbuf this)) (Z.of_nat CELL_SIZE)) as [Hle|]; [|done].
  cbn [negb]. destruct (steal_pages_ok CELL_SIZE (hbuf other) Hwf' Hr) as (c' & -> & Hwfc & Hv). cbn [rbind fst snd].
  assert (Hl : (length (view (hbuf other)) ≤ CELL_SIZE)%nat).
  { rewrite length_view. rewrite <-(wf_buf _ Hwf'). apply used_length_le. }
  rewrite drop_ge in Hv by done. rewrite take_ge by done.
  destruct (inject_pages_ok (view (hbuf other)) (hbuf this)) as (c & -> & Hwfi & _ & Hvi); [done| | | |].
  - rewrite view_filter. apply Forall_forall. by intros p [? _]%list_elem_of_filter.
  - rewrite view_filter. apply Forall_forall. intros p [_ Hp]%list_elem_of_filter.
    eapply Forall_forall; [apply Hwf'|done].
  - rewrite length_view, <-(wf_num _ Hwf'). done.
  - cbn [rbind]. do 2 eexists. split; [done|]. cbn [hbuf with_buf hash].
    split; [exact Hwfi|]. split; [exact Hwfc|]. split; [exact Hvi|]. split; [exact Hv|done].
Qed.

(** The structure that survives until [rebuild_map]. *)
Record cell_raw (c : page_cell) : Prop := {
  raw_maps : length (maps c) = CELL_SIZE;
  raw_buf : length (buf c) = CELL_SIZE;
  raw_num : num_pages c = Z.of_nat (length (filter has_data (buf c)));
  raw_pages : Forall page_ok (buf c)
}.

Lemma wf_raw c : cell_wf c → cell_raw c.
Proof. intros []. split; try done. by rewrite <-length_used_filter. Qed.

Lemma filter_null (b : list page) u p : b !! u = Some p → has_data p = true →
  filter has_data b ≡ₚ p :: filter has_data (alter (λ _, null_page) u b).
Proof.
  intros Hp Hd. revert u Hp. induction b as [|x b IH]; intros [|u] Hp; simplify_eq/=.
  - rewrite !filter_cons, decide_True by (by rewrite Hd). by rewrite decide_False by (intros []).
  - rewrite !filter_cons. case_decide; [|by apply IH]. rewrite (IH u Hp). apply Permutation_swap.
Qed.

Lemma take_out_ok us : ∀ c, cell_raw c → NoDup us →
  (∀ u, u ∈ us → ∃ p, buf c !! u = Some p ∧ has_data p = true ∧ refcnt p = 0) →
  ∃ ps c', take_out (Z.of_nat <$> us) c = Ok (ps, c') ∧ cell_raw c' ∧
    Forall2 (λ u p, buf c !! u = Some p) us ps ∧ filter has_data (buf c) ≡ₚ ps ++ filter has_data (buf c').
Proof.
  induction us as [|u us IH]; intros c Hraw Hnd Hus; cbn [fmap list_fmap take_out].
  { exists [], c. split; [done|]. split; [done|]. split; [constructor|done]. }
  inversion_clear Hnd as [|?? Hni Hnd']. destruct (Hus u) as (p & Hp & Hd & Hr); [set_solver|].
  rewrite (page_at_lookup _ _ _ Hp). cbn [rbind]. unfold steal_page. rewrite (page_at_lookup _ _ _ Hp). cbn [rbind].
  rewrite Hr. cbn [negb Z.eqb rbind]. pose proof (filter_null _ _ _ Hp Hd) as Hperm. pose proof (Permutation_length Hperm) as Hlen.
  simpl in Hlen. destruct Hraw as [Hm Hb Hn Hok].
  pose proof (used_length_le (buf c)) as Hle. rewrite length_used_filter, Hb in Hle.
  set (c1 := upd_page (Z.of_nat u) (λ _, null_page) (mkCell (idx c) (u8 (num_pages c - 1)) (maps c) (buf c))).
  assert (Hbuf1 : buf c1 = alter (λ _, null_page) u (buf c)) by (simpl; by rewrite Nat2Z.id).
  assert (Hraw1 : cell_raw c1).
  { split; rewrite ?Hbuf1; [done|by rewrite length_alter| |].
    - simpl. unfold CELL_SIZE in Hle. rewrite u8_small by lia. lia.
    - apply Forall_alter; [done|]. intros. apply page_ok_null. }
  assert (Hne : ∀ v, v ∈ us → buf c1 !! v = buf c !! v).
  { intros v Hv. rewrite Hbuf1, list_lookup_alter_ne; [done|]. by intros ->. }
  destruct (IH c1 Hraw1 Hnd') as (ps & c' & -> & Hraw' & Hps & Hperm').
  { intros v Hv. rewrite Hne by done. apply Hus. set_solver. }
  cbn [rbind fst snd]. exists (p :: ps), c'. split; [done|]. split; [done|]. split.
  - constructor; [done|]. apply Forall2_same_length_lookup_2; [by eapply Forall2_length|].
    intros i v q Hv Hq. rewrite <-Hne by (by eapply list_elem_of_lookup_2). by eapply Forall2_lookup_lr in Hps.
  - rewrite Hperm, <-Hbuf1, Hperm'. done.
Qed.

Lemma move_pages_ok us c e : cell_wf c → cell_wf e → NoDup us →
  (∀ u, u ∈ us → ∃ p, buf c !! u = Some p ∧ has_data p = true ∧ refcnt p = 0) →
  num_pages c + num_pages e ≤ Z.of_nat CELL_SIZE →
  ∃ ps c' e', move_pages (Z.of_nat <$> us) c e = Ok (c', e') ∧ cell_wf c' ∧ cell_wf e' ∧
    Forall2 (λ u p, buf c !! u = Some p) us ps ∧ view c ≡ₚ ps ++ view c' ∧ view e' ≡ₚ view e ++ ps ∧
    num_pages c' + num_pages e' = num_pages c + num_pages e.
Proof.
  intros Hwf Hwfe Hnd Hus Hle. unfold move_pages.
  destruct (take_out_ok us c (wf_raw _ Hwf) Hnd Hus) as (ps & [i n m b] & -> & [Hm Hb Hn Hok] & Hps & Hperm).
  cbn [rbind fst snd]. destruct (rebuild_map_ok i n m b) as (c' & -> & Hwf' & Hb' & Hn'); [done..|]. cbn [rbind].
  assert (Hpd : Forall has_data ps ∧ Forall page_ok ps).
  { split; apply Forall_forall; intros p Hp; apply list_elem_of_lookup in Hp as [j Hj];
      destruct (Forall2_lookup_r _ _ _ _ _ Hps Hj) as (u & Hu & Hbu); apply list_elem_of_lookup_2 in Hu.
    - destruct (Hus u Hu) as (q & Hq & Hd & _). rewrite Hbu in Hq. injection Hq as <-. by rewrite Hd.
    - eapply Forall_lookup_1; [apply Hwf|exact Hbu]. }
  pose proof (Permutation_length Hperm) as Hl. rewrite length_app in Hl.
  pose proof (raw_num _ (wf_raw _ Hwf)) as Hnc. simpl in Hn, Hl.
  destruct (inject_pages_ok ps e) as (e' & -> & Hwfe' & Hne & Hve); [done|apply Hpd|apply Hpd|lia|].
  cbn [rbind]. exists ps, c', e'. do 4 (split; [done|]). rewrite !view_filter, Hb'. split; [done|].
  rewrite <-!view_filter. split; [done|]. lia.
Qed.

(** Only hits differ. *)
Notation alike := (frames (-1)).

Lemma alike_lookup c c' j p : alike c c' → buf c !! j = Some p → ∃ q, buf c' !! j = Some q ∧ same_but_hits p q.
Proof. intros Hf Hp. apply (fr_others _ _ _ Hf); [lia|done]. Qed.

Lemma alike_view c c' : alike c c' → Forall2 same_but_hits (view c) (view c').
Proof.
  intros Hf. unfold view. rewrite (fr_used _ _ _ Hf). apply Forall2_fmap_2.
  apply Forall2_same_length_lookup_2; [done|]. intros i u v Hu Hv. rewrite Hu in Hv. injection Hv as <-.
  destruct (used_lookup _ _ _ Hu) as (p & Hp & _). destruct (alike_lookup _ _ _ _ Hf Hp) as (q & Hq & Hs).
  by rewrite Hp, Hq.
Qed.

Lemma set_one_alike c u p : cell_wf c → buf c !! u = Some p → set_hits 1 p = Ok (with_hits p 1) ∧
  cell_wf (upd_page (Z.of_nat u) (λ _, with_hits p 1) c) ∧ alike c (upd_page (Z.of_nat u) (λ _, with_hits p 1) c).
Proof.
  intros Hwf Hp. split; [done|].
  assert (Hd : ∀ q, buf c !! u = Some q → has_data (with_hits p 1) = has_data q) by (rewrite Hp; by intros q [= <-]).
  split.
  - apply upd_page_wf; [done|by rewrite Nat2Z.id|]. intros q _ _. split; simpl; lia.
  - split; [done|simpl; rewrite Nat2Z.id; by apply used_alter|]. intros j q _ Hq. simpl. rewrite Nat2Z.id.
    destruct (decide (j = u)) as [->|Hne].
    + rewrite list_lookup_alter_eq, Hq. simpl. eexists. split; [done|]. rewrite Hp in Hq. injection Hq as <-.
      exists 1. split; [lia|done].
    + rewrite list_lookup_alter_ne by done. exists q. split; [done|]. apply same_but_hits_refl.
      eapply Forall_lookup_1; [apply Hwf|done].
Qed.

(** The pages [rehash] moves. *)
Definition moves (hash1 : page_id → Z) (th eh : Z) (p : page) : bool := (hash1 (id_of p) =? eh) && negb (th =? hash1 (id_of p)) && (refcnt p =? 0).

Lemma moves_same hash1 th eh p q : same_but_hits p q → moves hash1 th eh q = moves hash1 th eh p.
Proof. intros Hs. destruct (id_same _ _ Hs) as (E & _). unfold moves. rewrite E. by destruct Hs as (h & _ & ->). Qed.

Lemma filter_ext_in {A} (P Q : A → Prop) `{!∀ x, Decision (P x), !∀ x, Decision (Q x)} (l : list A) :
  (∀ x, x ∈ l → P x ↔ Q x) → filter P l = filter Q l.
Proof. induction l as [|x l IH]; intros Hl; [done|]. rewrite !filter_cons. rewrite IH by set_solver. pose proof (Hl x). repeat case_decide; set_solver. Qed.

(** The slots from the [i]-th on whose pages are moved. *)
Definition moved_slots (hash1 : page_id → Z) (th eh : Z) (i : nat) (c : page_cell) : list nat :=
  filter (λ u, moves hash1 th eh (default null_page (buf c !! u)) = true) (drop i (used (buf c))).

Lemma moved_slots_alike hash1 th eh i c c' : alike c c' → moved_slots hash1 th eh i c' = moved_slots hash1 th eh i c.
Proof.
  intros Ha. unfold moved_slots. rewrite (fr_used _ _ _ Ha). apply filter_ext_in. intros u Hu%list_elem_of_lookup. destruct Hu as [k Hu].
  rewrite lookup_drop in Hu. destruct (used_lookup _ _ _ Hu) as (p & Hp & _). destruct (alike_lookup _ _ _ _ Ha Hp) as (q & Hq & Hs).
  rewrite Hp, Hq. cbn [default from_option id]. by rewrite (moves_same _ _ _ _ _ Hs).
Qed.

Lemma moved_slots_S hash1 th eh i c u p : used (buf c) !! i = Some u → buf c !! u = Some p →
  moved_slots hash1 th eh i c = if moves hash1 th eh p then u :: moved_slots hash1 th eh (S i) c else moved_slots hash1 th eh (S i) c.
Proof. intros Hu Hb. unfold moved_slots. rewrite (drop_S _ _ _ Hu), filter_cons, Hb. cbn [default from_option id]. by destruct (moves _ _ _ p). Qed.

(** [choose_exchanges] selects them and changes only hits. *)
Lemma choose_exchanges_ok hash1 th eh k : ∀ i c, cell_wf c → 0 ≤ i → i + Z.of_nat k = num_pages c →
  ∃ c1, choose_exchanges hash1 k i th eh c = Ok (Z.of_nat <$> moved_slots hash1 th eh (Z.to_nat i) c, c1) ∧ cell_wf c1 ∧ alike c c1.
Proof.
  induction k as [|k IH]; intros i c Hwf Hi Hk; cbn [choose_exchanges].
  { exists c. split_and!; [|done|by apply frames_refl]. unfold moved_slots. rewrite drop_ge; [done|]. pose proof (wf_num _ Hwf). lia. }
  destruct (view_get c Hwf i) as (u & p & Hu & Hv & Hb & -> & Hpa & Hd); [lia|]. cbn [rbind]. rewrite Hpa. cbn [rbind].
  assert (Hrec : ∀ c0, cell_wf c0 → alike c c0 → ∃ c1,
    choose_exchanges hash1 k (i + 1) th eh c0 = Ok (Z.of_nat <$> moved_slots hash1 th eh (S (Z.to_nat i)) c, c1) ∧ cell_wf c1 ∧ alike c c1).
  { intros c0 Hwf0 Ha. pose proof (fr_num _ _ _ Ha). destruct (IH (i + 1) c0 Hwf0) as (c1 & E & Hw & Ha1); [lia|lia|].
    exists c1. rewrite E, (moved_slots_alike _ _ _ _ _ _ Ha). split_and!; [|done|by eapply frames_trans]. by replace (Z.to_nat (i + 1)) with (S (Z.to_nat i)) by lia. }
  rewrite (moved_slots_S _ _ _ _ _ _ _ Hu Hb). unfold moves.
  destruct (Z.eqb_spec (hash1 (id_of p)) eh) as [Eh|Eh]; cbn [negb andb].
  2:{ destruct (set_one_alike c u p Hwf Hb) as (-> & Hw & Ha). cbn [rbind]. by apply Hrec. }
  destruct (negb (th =? hash1 (id_of p))); cbn [andb]; [|by apply Hrec, frames_refl].
  destruct (Z.eqb_spec (refcnt p) 0) as [Hr|Hr]; cbn [negb]; [|by apply Hrec, frames_refl].
  destruct (Hrec c Hwf (frames_refl _ _ Hwf)) as (c1 & -> & Hw & Ha). cbn [rbind fst snd]. by exists c1.
Qed.

Lemma moved_slots_nodup hash1 th eh i c : NoDup (moved_slots hash1 th eh i c).
Proof. apply NoDup_filter. eapply sublist_NoDup; [apply used_NoDup|apply sublist_drop]. Qed.

(** The pages in them are those of the cell that are moved. *)
Lemma moved_slots_pages hash1 th eh c : (λ u, default null_page (buf c !! u)) <$> moved_slots hash1 th eh 0 c = filter (λ p, moves hash1 th eh p = true) (view c).
Proof. unfold moved_slots, view. change (drop 0 (used (buf c))) with (used (buf c)). induction (used (buf c)) as [|u us IH]; [done|]. cbn [fmap list_fmap]. rewrite !filter_cons. case_decide; cbn [fmap list_fmap]; by rewrite IH. Qed.

Lemma choose_empty_ok k : ∀ i req c, cell_wf c → 0 ≤ i → i + Z.of_nat k = num_pages c →
  ∃ us, choose_empty k i req c = Ok (Z.of_nat <$> us) ∧ NoDup us ∧
    ∀ u, u ∈ us → u ∈ drop (Z.to_nat i) (used (buf c)) ∧
      ∃ q, buf c !! u = Some q ∧ has_data q = true ∧ initialized q = false.
Proof.
  induction k as [|k IH]; intros i req c Hwf Hi Hk; cbn [choose_empty].
  { exists []. split; [done|]. split; [constructor|set_solver]. }
  destruct (0 <? req); [|exists []; split; [done|]; split; [constructor|set_solver]].
  destruct (view_get c Hwf i) as (u & p & Hu & Hv & Hb & -> & Hpa & Hd); [lia|]. cbn [rbind]. rewrite Hpa. cbn [rbind].
  pose proof (drop_S _ _ _ Hu) as Edrop. destruct (initialized p) eqn:Ei.
  - destruct (IH (i + 1) req c Hwf) as (us & -> & Hnd & Hus); [lia|lia|]. exists us. split; [done|]. split; [done|].
    intros v Hvs. destruct (Hus v Hvs) as [Hin Hq]. split; [|done].
    rewrite Edrop. replace (Z.to_nat (i + 1)) with (S (Z.to_nat i)) in Hin by lia. set_solver.
  - destruct (IH (i + 1) (req - 1) c Hwf) as (us & -> & Hnd & Hus); [lia|lia|]. cbn [rbind].
    replace (Z.to_nat (i + 1)) with (S (Z.to_nat i)) in Hus by lia. exists (u :: us). split; [done|]. split.
    + constructor; [|done]. intros Hin. destruct (Hus u Hin) as [Hin' _]. by apply (used_fresh _ _ _ Hu).
    + intros v [->|Hvs]%elem_of_cons; rewrite Edrop.
      * split; [set_solver|]. by exists p.
      * destruct (Hus v Hvs). split; [set_solver|done].
Qed.

(** The first part of [rehash] moves the chosen pages, if there are any. *)
Lemma exchange_ok (us : list nat) c e : cell_wf c → cell_wf e → NoDup us →
  (∀ u, u ∈ us → ∃ p, buf c !! u = Some p ∧ has_data p = true ∧ refcnt p = 0) →
  num_pages c + num_pages e ≤ Z.of_nat CELL_SIZE →
  ∃ ps c' e', (if (0 <? length (Z.of_nat <$> us))%nat then move_pages (Z.of_nat <$> us) c e else Ok (c, e)) = Ok (c', e') ∧
    cell_wf c' ∧ cell_wf e' ∧ Forall2 (λ u p, buf c !! u = Some p) us ps ∧
    view c ≡ₚ ps ++ view c' ∧ view e' ≡ₚ view e ++ ps ∧ num_pages c' + num_pages e' = num_pages c + num_pages e.
Proof.
  intros Hwf Hwfe Hnd Hus Hle. destruct us as [|u us]; [|by apply move_pages_ok].
  exists [], c, e. simpl. rewrite app_nil_r. split; [done|]. split; [done|]. split; [done|]. split; [constructor|done].
Qed.

Lemma Forall2_elem {A B} (P : A → B → Prop) l k y : Forall2 P l k → y ∈ k → ∃ x, x ∈ l ∧ P x y.
Proof.
  intros H Hy. apply list_elem_of_lookup in Hy as [i Hi]. destruct (Forall2_lookup_r _ _ _ _ _ H Hi) as (x & Hx & ?).
  exists x. split; [by eapply list_elem_of_lookup_2|done].
Qed.

(** What is left of the cell's pages when those that are moved are taken out. *)
Lemma moved_slots_ps hash1 th eh c ps : Forall2 (λ u p, buf c !! u = Some p) (moved_slots hash1 th eh 0 c) ps → ps = filter (λ p, moves hash1 th eh p = true) (view c).
Proof.
  rewrite <-moved_slots_pages. generalize (moved_slots hash1 th eh 0 c). induction 1 as [|u p us ps Hu _ IH]; [done|]. cbn [fmap list_fmap]. by rewrite Hu, <-IH.
Qed.

Lemma rest_filter {A} (P : A → Prop) `{!∀ x, Decision (P x)} (l ps rest : list A) : l ≡ₚ ps ++ rest → ps = filter P l → ∀ x, x ∈ rest → ¬ P x.
Proof.
  intros Hl -> x Hx HP. assert (length (filter P l) = length (filter P (filter P l)) + length (filter P rest))%nat as E.
  { rewrite <-length_app, <-filter_app. apply Permutation_length. by rewrite <-Hl. }
  rewrite list_filter_filter_l in E by done. assert (0 < length (filter P rest))%nat; [|lia].
  assert (x ∈ filter P rest) as Hf by by apply list_elem_of_filter. by destruct (filter P rest); [apply elem_of_nil in Hf|cbn; lia].
Qed.

(** Splitting a cell loses and duplicates no page: together the two cells hold
    the pages they held before, of which only the hits may have changed.  A page
    that reaches the expanded cell is hashed to it or was never used, and the pages
    of the first cell that are hashed to the expanded one are those in use.  Both
    cells stay well formed. *)
Theorem rehash_conserves hash1 min this expanded :
  let c := hbuf this in let e := hbuf expanded in
  cell_wf c → cell_wf e → num_pages c + num_pages e ≤ Z.of_nat CELL_SIZE →
  (∀ p, p ∈ view c → initialized p = false → refcnt p = 0) →
  ∃ this' expanded' l, rehash hash1 min this expanded = Ok (this', expanded') ∧
    cell_wf (hbuf this') ∧ cell_wf (hbuf expanded') ∧ hash this' = hash this ∧ hash expanded' = hash expanded ∧
    Forall2 same_but_hits (view c) l ∧ view (hbuf this') ++ view (hbuf expanded') ≡ₚ l ++ view e ∧
    (∀ p, p ∈ view (hbuf expanded') → p ∈ view e ∨ hash1 (id_of p) = hash expanded ∨ initialized p = false) ∧
    (hash this ≠ hash expanded → ∀ p, p ∈ view (hbuf this') → hash1 (id_of p) = hash expanded → refcnt p ≠ 0).
Proof.
  intros c e Hwf Hwfe Hle Hini. unfold rehash. fold c e. pose proof (wf_num _ Hwf) as Hn.
  destruct (choose_exchanges_ok hash1 (hash this) (hash expanded) (Z.to_nat (num_pages c)) 0 c Hwf) as (c1 & -> & Hwf1 & Ha); [lia|lia|].
  cbn [rbind fst snd]. pose proof (fr_num _ _ _ Ha) as Hn1. change (Z.to_nat 0) with 0%nat. rewrite <-(moved_slots_alike _ _ _ _ _ _ Ha).
  set (us := moved_slots _ _ _ _ c1). assert (Hus : ∀ u, u ∈ us → ∃ q, buf c1 !! u = Some q ∧ has_data q = true ∧ refcnt q = 0 ∧ hash1 (id_of q) = hash expanded).
  { intros u [Hm Hu]%list_elem_of_filter. rewrite drop_0 in Hu. apply list_elem_of_lookup in Hu as [k Hu]. destruct (used_lookup _ _ _ Hu) as (q & Hq & Hd). rewrite Hq in Hm.
    cbn [default from_option id] in Hm. unfold moves in Hm. exists q. split_and!; [done|done|lia|lia]. }
  destruct (exchange_ok us c1 e Hwf1 Hwfe (moved_slots_nodup _ _ _ _ _)) as (ps & c2 & e2 & -> & Hwf2 & Hwfe2 & Hps & Hv1 & Hv2 & Hn2);
    [intros u Hu; destruct (Hus u Hu) as (q & ? & ? & ? & ?); eauto|lia|]. cbn [rbind fst snd].
  pose proof (moved_slots_ps _ _ _ _ _ Hps) as Eps.
  assert (Hrest : hash this ≠ hash expanded → ∀ p, p ∈ view c2 → hash1 (id_of p) = hash expanded → refcnt p ≠ 0).
  { intros Hne p Hp Eh Hr. apply (rest_filter _ _ _ _ Hv1 Eps p Hp). unfold moves. rewrite Eh, Hr. lia. }
  assert (Hps1 : ∀ p, p ∈ ps → hash1 (id_of p) = hash expanded).
  { intros p Hp. destruct (Forall2_elem _ _ _ _ Hps Hp) as (u & Hu & Hbu). destruct (Hus u Hu) as (q & Hq & _ & _ & Eh).
    rewrite Hbu in Hq. by injection Hq as <-. }
  pose proof (alike_view _ _ Ha) as Hl. rewrite <-Hn1 in Hle. destruct (0 <? min - num_pages e2).
  2:{ cbn [rbind]. do 3 eexists. split; [done|]. cbn [hbuf with_buf hash]. split_and!; [done|done|done|done|exact Hl|rewrite Hv2, Hv1; solve_Permutation| |done].
      intros p Hp. rewrite Hv2 in Hp. set_solver. }
  pose proof (wf_num _ Hwf2) as Hn2'.
  destruct (choose_empty_ok (Z.to_nat (num_pages c2)) 0 (min - num_pages e2) c2 Hwf2) as (vs & -> & Hndv & Hvs); [lia|lia|].
  cbn [rbind].
  assert (Hfree : ∀ v, v ∈ vs → ∃ p, buf c2 !! v = Some p ∧ has_data p = true ∧ refcnt p = 0).
  { intros v Hv. destruct (Hvs v Hv) as (_ & q & Hq & Hd & Hi). exists q. split; [done|]. split; [done|].
    assert (Hin : q ∈ view c1) by (rewrite Hv1; apply elem_of_app; right; by eapply view_elem).
    destruct (Forall2_elem _ _ _ _ Hl Hin) as (p & Hp & Hs). destruct (id_same _ _ Hs) as (_ & _ & E3).
    rewrite E3 in Hi. specialize (Hini p Hp Hi). by destruct Hs as (h & _ & ->). }
  destruct (move_pages_ok vs c2 e2 Hwf2 Hwfe2 Hndv Hfree) as (qs & c3 & e3 & -> & Hwf3 & Hwfe3 & Hqs & Hv3 & Hv4 & _); [lia|].
  cbn [rbind]. do 3 eexists. split; [done|]. cbn [hbuf with_buf fst snd hash].
  split_and!; [done|done|done|done|exact Hl|rewrite Hv4, Hv2, Hv1, Hv3; solve_Permutation| |].
  - intros p Hp. rewrite Hv4, Hv2, !elem_of_app in Hp. destruct Hp as [[Hp|Hp]|Hp]; [by left|right; left; by apply Hps1|right; right].
    destruct (Forall2_elem _ _ _ _ Hqs Hp) as (v & Hv & Hbv). destruct (Hvs v Hv) as (_ & q & Hq & _ & Hi).
    rewrite Hbv in Hq. by injection Hq as <-.
  - intros Hne p Hp. apply Hrest; [done|]. rewrite Hv3. set_solver.
Qed.

(** ** Linear hashing: the cell of a page in [associative_cache] *)

Definition CONST_A : Z := 27644437.
Definition CONST_P : Z := 68718952447.
Definition universal_hash (v modulo : Z) : Z := (v * CONST_A) `rem` CONST_P `rem` modulo.

(** The fields of the table that determine the cell of a page; [cells_table] has
    [narrays] arrays of [init_ncells] cells. *)
Record table := mkTable { init_ncells : Z; level : Z; split : Z; offset_factor : Z; narrays : Z }.

Definition hash_key (t : table) (id : page_id) : Z :=
  (id_off id `quot` 4096) `quot` offset_factor t + id_file id.
Definition ncells (t : table) (lv : Z) : Z := init_ncells t * Z.shiftl 1 lv.
Definition hash_of (t : table) (id : page_id) : Z := universal_hash (hash_key t id) (s32 (ncells t (level t))).
Definition hash1_of (t : table) (id : page_id) : Z := universal_hash (hash_key t id) (s32 (ncells t (level t + 1))).

Definition get_num_cells (t : table) : Z := Z.shiftl 1 (level t) * init_ncells t + split t.

(** [get_cell]: the array of the cell and its position in it. *)
Definition get_cell (t : table) (global_idx : Z) : res (Z * Z) :=
  let cells_idx := global_idx `quot` init_ncells t in
  if cells_idx <? narrays t then Ok (cells_idx, global_idx `rem` init_ncells t) else Throw AssertFailed.

(** [get_cell_offset], without the retries of the sequence lock. *)
Definition cell_index (t : table) (id : page_id) : Z :=
  let global_idx := hash_of t id in if global_idx <? split t then hash1_of t id else global_idx.
Definition get_cell_offset (t : table) (id : page_id) : res (Z * Z) := get_cell t (cell_index t id).

(** What [expand] does to the table when the cell [split] has been rehashed, and
    when all cells of the level have been. *)
Definition next_split (t : table) : table :=
  mkTable (init_ncells t) (level t) (split t + 1) (offset_factor t) (narrays t).
Definition next_level (t : table) : table :=
  mkTable (init_ncells t) (level t + 1) 0 (offset_factor t) (narrays t).

Record table_ok (t : table) : Prop := {
  tb_init : 0 < init_ncells t;
  tb_level : 0 ≤ level t;
  tb_split : 0 ≤ split t ≤ ncells t (level t);
  tb_int : ncells t (level t + 1) < 2 ^ 31;
  tb_factor : 0 < offset_factor t
}.

Lemma ncells_succ t : 0 ≤ level t → ncells t (level t + 1) = 2 * ncells t (level t).
Proof. intros. unfold ncells. rewrite !Z.shiftl_1_l, Z.pow_add_r by lia. lia. Qed.

Lemma ncells_pos t : table_ok t → 0 < ncells t (level t) ∧ ncells t (level t) < 2 ^ 31.
Proof.
  intros []. rewrite ncells_succ in tb_int0 by done. unfold ncells in *. rewrite Z.shiftl_1_l in *.
  pose proof (Z.pow_pos_nonneg 2 (level t)). nia.
Qed.

Lemma hash_cases t id : table_ok t → 0 ≤ hash_key t id →
  let n := ncells t (level t) in
  0 ≤ hash_of t id < n ∧ (hash1_of t id = hash_of t id ∨ hash1_of t id = hash_of t id + n).
Proof.
  intros Hok Hk n. destruct (ncells_pos t Hok) as [Hp Hb]. destruct Hok. rewrite ncells_succ in tb_int0 by done.
  unfold hash_of, hash1_of, universal_hash. rewrite ncells_succ by done. fold n in tb_int0, Hp, Hb |- *.
  rewrite !s32_small by lia. assert (HA : 0 ≤ hash_key t id * CONST_A) by (unfold CONST_A; lia).
  set (x := (hash_key t id * CONST_A) `rem` CONST_P).
  assert (Hx : 0 ≤ x) by (apply Z.rem_nonneg; [done|done]).
  rewrite !Z.rem_mod_nonneg by lia. pose proof (Z.mod_pos_bound x n Hp). split; [lia|].
  rewrite (Z.mul_comm 2 n), Z.rem_mul_r by lia. pose proof (Z.mod_pos_bound (x / n) 2).
  assert ((x / n) mod 2 = 0 ∨ (x / n) mod 2 = 1) as [->| ->] by lia; [left|right]; lia.
Qed.

(** The cells of the table form a linear hash table.  A page always has a cell
    that exists.  Advancing [split] changes the cell of a page only if it was in
    the cell that has been split, from there to itself or to the new cell; so
    the pages of every other cell are still found.  Once all cells of a level
    are split, going to the next level changes no cell. *)
Theorem linear_hashing_correct t id :
  table_ok t → 0 ≤ hash_key t id →
  let n := ncells t (level t) in
  0 ≤ cell_index t id < get_num_cells t ∧
  (split t < n →
   (cell_index t id ≠ split t → cell_index (next_split t) id = cell_index t id) ∧
   (cell_index t id = split t →
    cell_index (next_split t) id = split t ∨ cell_index (next_split t) id = split t + n)) ∧
  (split t = n → cell_index (next_level t) id = cell_index t id).
Proof.
  intros Hok Hk n. pose proof (hash_cases t id Hok Hk) as [Hh Hh1]. destruct (ncells_pos t Hok) as [Hp Hb].
  fold n in Hh, Hh1, Hp. pose proof Hok as []. unfold get_num_cells.
  assert (En : Z.shiftl 1 (level t) * init_ncells t = n) by (unfold n, ncells; lia). rewrite En.
  unfold cell_index. change (hash_of (next_split t) id) with (hash_of t id).
  change (hash1_of (next_split t) id) with (hash1_of t id).
  change (hash_of (next_level t) id) with (hash1_of t id). simpl.
  split; [destruct (Z.ltb_spec (hash_of t id) (split t)); lia|]. split.
  - intros Hlt. destruct (Z.ltb_spec (hash_of t id) (split t)), (Z.ltb_spec (hash_of t id) (split t + 1)); lia.
  - intros Hs. rewrite (proj2 (Z.ltb_lt (hash_of t id) (split t))) by lia.
    rewrite (proj2 (Z.ltb_ge _ 0)); [done|]. lia.
Qed.

(** ** Witnesses *)

Definition ex_hc : hash_cell := mkHC 0 0 ex_hits 3 0 0.

Lemma ex_offsets u p : buf ex_hits !! u = Some p → has_data p = true → offset p = Z.of_nat u.
Proof.
  do 12 (destruct u as [|u]; [intros [= <-]; done|]).
  do 4 (destruct u as [|u]; [intros [= <-]; done|]). done.
Qed.

Lemma ex_unique : unique ex_hits.
Proof.
  intros u v p q Hp Hq Hdp Hdq _ E. apply (f_equal id_off) in E. simpl in E. unfold get_offset in E.
  rewrite (ex_offsets u p), (ex_offsets v q), !Z.shiftl_mul_pow2 in E by done.
  change (2 ^ LOG_PAGE_SIZE) with 4096 in E. lia.
Qed.

Lemma ex_refs : Forall ref_ok (view ex_hits).
Proof.
  rewrite view_filter. change (filter has_data (buf ex_hits)) with (take 12 (buf ex_hits)). unfold ex_hits, ex_cell. cbn [buf].
  repeat (apply Forall_cons_2; [split; [split; vm_compute; congruence|by intros [=]]|]). apply Forall_nil_2.
Qed.

Lemma search_correct_witness :
  ∃ r old hc', search (mkId 7 40960) ex_hc = Ok (r, old, hc') ∧ search_post (mkId 7 40960) ex_hits r old (hbuf hc').
Proof.
  destruct (search_correct (mkId 7 40960) ex_hc ex_hits_wf ex_unique ltac:(done) ex_refs)
    as (r & old & hc' & E & _ & _ & _ & _ & _ & Hp); [split; [vm_compute; split; congruence|by exists 10]|].
  exists r, old, hc'. exact (conj E Hp).
Defined.

Definition ex_small (h : Z) : hash_cell :=
  mkHC h 0 (match set_pages [100; 101; 102] 0 new_cell with Ok c => c | Throw _ => new_cell end) 0 0 0.

Lemma ex_small_wf h : cell_wf (hbuf (ex_small h)).
Proof.
  unfold ex_small. destruct (set_pages_ok [100; 101; 102] 0) as (c & E & Hwf & _); [vm_compute; lia|].
  cbn [hbuf]. rewrite E. exact Hwf.
Qed.

Lemma merge_conserves_witness :
  ∃ a b, merge ex_hc (ex_small 1) = Ok (a, b) ∧ view (hbuf a) ≡ₚ view ex_hits ++ view (hbuf (ex_small 1)).
Proof.
  assert (Hr : Forall (λ p, refcnt p ≤ 0) (view (hbuf (ex_small 1))))
    by (vm_compute; repeat (apply Forall_cons_2; [discriminate|]); apply Forall_nil_2).
  destruct (merge_conserves ex_hc (ex_small 1) ex_hits_wf (ex_small_wf 1) Hr) as (a & b & E & _ & _ & Hv & _).
  exists a, b. exact (conj E Hv).
Defined.

(** Even pages stay, odd pages are moved. *)
Definition ex_hash1 (id : page_id) : Z := (id_off id / 4096) mod 2.

Lemma rehash_conserves_witness :
  ∃ a b l, rehash ex_hash1 2 ex_hc (ex_small 1) = Ok (a, b) ∧ Forall2 same_but_hits (view ex_hits) l ∧
    view (hbuf a) ++ view (hbuf b) ≡ₚ l ++ view (hbuf (ex_small 1)).
Proof.
  assert (Hi : ∀ p, p ∈ view ex_hits → initialized p = false → refcnt p = 0).
  { intros p Hp _. rewrite view_filter in Hp. apply list_elem_of_filter in Hp as [_ Hp]. revert p Hp.
    apply Forall_forall. by repeat constructor. }
  destruct (rehash_conserves ex_hash1 2 ex_hc (ex_small 1) ex_hits_wf (ex_small_wf 1) ltac:(vm_compute; congruence) Hi)
    as (a & b & l & E & _ & _ & _ & _ & Hl & Hv & _).
  exists a, b, l. exact (conj E (conj Hl Hv)).
Defined.

Lemma linear_hashing_correct_witness :
  let t := mkTable 100 2 57 1 8 in
  0 ≤ cell_index t (mkId 7 40960) < 457.
Proof.
  intros t. apply (linear_hashing_correct t (mkId 7 40960)); [|vm_compute; congruence].
  split; vm_compute; repeat split; congruence.
Defined.

(** ** Where the code departs from its intent *)

(** The loop of [steal_pages] keeps using a map that still lists the pages it has
    taken out: here the hand comes back to one of them and the assertion of
    [get_page] fails. *)
Example steal_pages_stale_map :
  hc_steal_pages 2 (mkHC 0 0 (ex_cell (λ i, (0, if (i =? 3)%nat then 0 else 2))) 0 0 0) = Throw AssertFailed.
Proof. vm_compute. done. Qed.

(** The pages that stay in their cell when it is split lose their hits, although
    only pages in a wrong cell should. *)
Example rehash_resets_hits :
  match rehash ex_hash1 2 ex_hc (ex_small 1) with
  | Ok (a, _) => hits <$> view ex_hits = [1; 2; 3; 4; 5; 1; 2; 3; 4; 5; 1; 2] ∧
                 hits <$> view (hbuf a) = [1; 1; 1; 1; 1; 1] ∧
                 Forall (λ p, ex_hash1 (id_of p) = hash a) (view (hbuf a))
  | Throw _ => False
  end.
Proof. vm_compute. split; [done|]. split; [done|]. repeat constructor. Qed.

(** The pages chosen for writing back are collected by offset alone: of two pages of
    different files at the same offset one is dropped, still referenced. *)
Definition ex_dirty (file d : Z) : page := mkPage 5 file (Some d) 0 5 0 0 0.
Example get_pages_collides :
  let c := mkCell 0 2 [0; 1; 0; 0; 0; 0; 0; 0; 0; 0; 0; 0; 0; 0; 0; 0]
             ([ex_dirty 1 10; ex_dirty 2 20] ++ replicate 14 null_page) in
  match hc_get_pages (Z.shiftl 1 DIRTY_BIT) 0 ∅ (mkHC 0 0 c 0 0 0) with
  | Ok (pages, hc') => map_to_list pages = [(20480, 0)] ∧ refcnt <$> view (hbuf hc') = [1; 1]
  | Throw _ => False
  end.
Proof. vm_compute. done. Qed.
