(* ===== verification/SlabAllocator.v ===== *)
(** * The slab allocator of SAFS: [SAFS/libsafs/slab_allocator.{h,cpp}]

    Objects of one size are carved out of large buffers and kept on a list
    threaded through the objects themselves.  A pointer is an address ([Z], 0 for
    [NULL]); the heap maps the address of an object to the [next] field at its
    beginning, the only part of an object the allocator reads or writes (the
    [memset] of a fresh buffer and the initiators of [obj_allocator] touch the
    rest).  The calls that get memory from the system ([numa_alloc_local],
    [numa_alloc_onnode], [malloc_aligned]) are a parameter: the address returned
    by the k-th one.

    [slab_alloc], [slab_free], [slab_alloc1] and [slab_free1] are the four
    operations run by one thread.  The critical sections they are made of are the
    steps of the concurrent system at the end of the file, in which any number of
    threads run any of the operations in any interleaving.  [MEMCHECK] and
    [USE_IOAT] are off. *)
From stdpp Require Import options gmap.
From S2P Require Import Prelude NativeFs Fifo PageArray.
Open Scope Z_scope.

Definition SLAB_LOCAL_BUF_SIZE : Z := 100.
Definition NULL : Z := 0.
(** [sizeof(linked_obj)] *)
Definition LINK_SIZE : Z := 8.
Definition ROUNDUP (off base : Z) : Z := Z.land (off + base - 1) (Z.lnot (base - 1)).

Notation heap := (gmap Z Z).

(** ** [linked_obj] *)

Definition lo_get_next (o : Z) (h : heap) : res Z :=
  match h !! o with Some n => Ok n | None => Throw Segfault end.
Definition lo_set_next (o n : Z) (h : heap) : res heap :=
  match h !! o with Some _ => Ok (<[o := n]> h) | None => Throw Segfault end.
(** [*o = linked_obj()] in memory that has just been allocated. *)
Definition lo_construct (o : Z) (h : heap) : heap := <[o := NULL]> h.

(** ** [linked_obj_list]; [ll_head] is [head.next]. *)

Record linked_obj_list := mkLL { ll_head : Z; ll_end : Z; ll_size : Z }.
Definition ll_new : linked_obj_list := mkLL NULL NULL 0.

Definition ll_add (obj : Z) (l : linked_obj_list) (h : heap) : res (linked_obj_list * heap) :=
  let? e := (if ll_size l =? 0 then if ll_head l =? NULL then Ok obj else Throw AssertFailed else Ok (ll_end l)) in
  let? h := lo_set_next obj (ll_head l) h in
  Ok (mkLL obj e (s32 (ll_size l + 1)), h).

(** Returns this list, the emptied one and the heap. *)
Definition ll_add_list (list this : linked_obj_list) (h : heap) : res (linked_obj_list * linked_obj_list * heap) :=
  if ll_size list =? 0 then Ok (this, list, h)
  else if ll_size this =? 0 then Ok (mkLL (ll_head list) (ll_end list) (ll_size list), ll_new, h)
  else
    let? h := lo_set_next (ll_end list) (ll_head this) h in
    Ok (mkLL (ll_head list) (ll_end this) (s32 (ll_size this + ll_size list)), ll_new, h).

(** The loop returns [obj], [prev_obj] and [num_pop]. *)
Fixpoint pop_loop (num : nat) (obj prev_obj num_pop : Z) (h : heap) : res (Z * Z * Z) :=
  match num with
  | O => Ok (obj, prev_obj, num_pop)
  | S num =>
      if obj =? NULL then Ok (obj, prev_obj, num_pop) else
      let? next := lo_get_next obj h in
      pop_loop num next obj (num_pop + 1) h
  end.

Definition ll_pop (num : Z) (l : linked_obj_list) (h : heap) : res (Z * linked_obj_list * heap) :=
  let? (obj, prev_obj, num_pop) := pop_loop (Z.to_nat num) (ll_head l) NULL 0 h in
  let? h := (if prev_obj =? NULL then Ok h else lo_set_next prev_obj NULL h) in
  let size := s32 (ll_size l - num_pop) in
  if size <? 0 then Throw AssertFailed else
  Ok (ll_head l, mkLL obj (if size =? 0 then NULL else ll_end l) size, h).

(** ** [slab_allocator] *)

Record slab_conf := mkConf {
  obj_size : Z;
  increase_size : Z;
  max_size : Z;
  s_node_id : Z;
  local_buf_size : Z;
  thread_safe : bool;
  s_init : bool;
  pinned : bool;
  s_name : string
}.

(** The allocator together with what it acts on: the heap, the static total
    [tot_slab_size], the number of buffers the system has handed out so far and
    the buffers of the threads, which [pthread_getspecific] finds. *)
Record slab := mkSlab {
  conf : slab_conf;
  free_objs : linked_obj_list;
  curr_size : Z;
  alloc_bufs : list Z;
  per_thread_queues : ts_queue nat;
  local_bufs : gmap nat (fifo_queue Z);
  tot_slab_size : Z;
  sys_allocs : nat;
  mem : heap
}.

Definition set_list (l : linked_obj_list) (h : heap) (s : slab) : slab :=
  mkSlab (conf s) l (curr_size s) (alloc_bufs s) (per_thread_queues s) (local_bufs s) (tot_slab_size s) (sys_allocs s) h.
Definition set_sizes (c tot : Z) (s : slab) : slab :=
  mkSlab (conf s) (free_objs s) c (alloc_bufs s) (per_thread_queues s) (local_bufs s) tot (sys_allocs s) (mem s).
Definition add_buf (objs : Z) (s : slab) : slab :=
  mkSlab (conf s) (free_objs s) (curr_size s) (alloc_bufs s ++ [objs]) (per_thread_queues s) (local_bufs s)
    (tot_slab_size s) (S (sys_allocs s)) (mem s).
Definition set_queues (q : ts_queue nat) (b : gmap nat (fifo_queue Z)) (s : slab) : slab :=
  mkSlab (conf s) (free_objs s) (curr_size s) (alloc_bufs s) q b (tot_slab_size s) (sys_allocs s) (mem s).

(** [counter] is the value of [alloc_counter] before the construction. *)
Definition slab_new (counter : Z) (name : string) (obj_size increase_size max_size node_id : Z) (init pinned : bool)
    (local_buf_size : Z) (thread_safe : bool) (tot : Z) (h : heap) : res slab :=
  let? q := ts_new 0%nat "per-thread-queue-queue" node_id 1000 in
  if u32 obj_size <? LINK_SIZE then Throw AssertFailed else
  Ok (mkSlab (mkConf obj_size (ROUNDUP increase_size PAGE_SIZE) max_size node_id
                (if thread_safe then local_buf_size else 0) thread_safe init pinned
                (name ++ "-" ++ itoa (counter + 1)))
        ll_new 0 [] q ∅ tot 0 h).

Section operations.
(** The address returned by the k-th call for memory. *)
Context (sys_alloc : nat → Z).

(** The entries of a popped list are stored into [objs], which has room for
    [room] more; storing further is an access out of bounds. *)
Fixpoint collect (room : nat) (o : Z) (h : heap) : res (list Z) :=
  if o =? NULL then Ok [] else
  match room with
  | O => Throw Segfault
  | S room =>
      let? next := lo_get_next o h in
      let? l := collect room next h in
      Ok (o :: l)
  end.

(** The first critical section of [alloc], and the loop that follows it on the
    objects that now belong to the thread. *)
Definition alloc_pop (num : Z) : M slab (list Z) :=
  let! s := mget in
  let! (o, l, h) := mlift (ll_pop num (free_objs s) (mem s)) in
  mput (set_list l h s);;;
  mlift (collect (Z.to_nat num) o h).

(** The second one: is there room for another buffer? *)
Definition alloc_reserve : M slab bool :=
  let! s := mget in
  if curr_size s <? max_size (conf s) then
    mput (set_sizes (s64 (curr_size s + increase_size (conf s))) (u64 (tot_slab_size s + increase_size (conf s))) s);;;
    mret true
  else mret false.

(** [for (int i = 0; i < increase_size / obj_size; i++)]; the product is one of [int]s. *)
Fixpoint fill_loop (n : nat) (i obj_size objs : Z) (tmp : linked_obj_list) (h : heap) : res (linked_obj_list * heap) :=
  match n with
  | O => Ok (tmp, h)
  | S n =>
      let header := objs + s32 (obj_size * i) in
      let? (tmp, h) := ll_add header tmp (lo_construct header h) in
      fill_loop n (s32 (i + 1)) obj_size objs tmp h
  end.
Definition objs_per_buf (c : slab_conf) : Z := increase_size c `quot` obj_size c.

(** A new buffer is carved and then, in the third section, made available. *)
Definition alloc_grow : M slab unit :=
  let! s := mget in
  let objs := sys_alloc (sys_allocs s) in
  massert (negb (objs =? NULL));;;
  massert (objs `rem` PAGE_SIZE =? 0);;;
  let! (tmp, h) := mlift (fill_loop (Z.to_nat (objs_per_buf (conf s))) 0 (obj_size (conf s)) objs ll_new (mem s)) in
  let! (l, _, h) := mlift (ll_add_list tmp (free_objs s) h) in
  mput (set_list l h (add_buf objs s)).

(** [free(objs, nobjs)] *)
Fixpoint free_loop (objs : list Z) (tmp : linked_obj_list) (h : heap) : res (linked_obj_list * heap) :=
  match objs with
  | [] => Ok (tmp, h)
  | o :: objs =>
      let? h := lo_set_next o NULL h in
      let? (tmp, h) := ll_add o tmp h in
      free_loop objs tmp h
  end.
Definition slab_free (objs : list Z) : M slab unit :=
  let! s := mget in
  let! (tmp, h) := mlift (free_loop objs ll_new (mem s)) in
  let! (l, _, h) := mlift (ll_add_list tmp (free_objs s) h) in
  mput (set_list l h s).

(** [alloc(objs, nobjs)]: the objects stored into [objs], as many as the number
    returned.  [got] are the ones stored so far. *)
Fixpoint alloc_loop (fuel : nat) (nobjs : Z) (got : list Z) : M slab (list Z) :=
  match fuel with
  | O => mthrow OutOfFuel
  | S fuel =>
      let! objs := alloc_pop (nobjs - Z.of_nat (length got)) in
      let got := got ++ objs in
      if Z.of_nat (length got) =? nobjs then mret got else
      let! more := alloc_reserve in
      if more then alloc_grow;;; alloc_loop fuel nobjs got
      else slab_free got;;; mret []
  end.
(** The buffers that can still be added, rounded up. *)
Definition growths_left (s : slab) : Z :=
  Z.max 0 ((max_size (conf s) - curr_size s + increase_size (conf s) - 1) / increase_size (conf s)).
Definition slab_alloc (nobjs : Z) : M slab (list Z) := λ s,
  alloc_loop (S (Z.to_nat (growths_left s))) nobjs [] s.

(** *** Single objects, through the buffer of the calling thread *)

Definition get_local_buf (t : nat) : M slab (fifo_queue Z) :=
  let! s := mget in
  match local_bufs s !! t with
  | Some q => mret q
  | None =>
      let! q := mlift (fifo_new NULL (s_node_id (conf s)) (local_buf_size (conf s)) false) in
      let '(qs, r) := ts_add 0%nat [t] (per_thread_queues s) in
      let! _ := mlift r in
      mput (set_queues qs (<[t := q]> (local_bufs s)) s);;;
      mret q
  end.
(** Runs an operation on the thread's buffer. *)
Definition on_local {A} (t : nat) (m : M (fifo_queue Z) A) : M slab A :=
  let! q := get_local_buf t in
  let! s := mget in
  let '(q', r) := m q in
  mput (set_queues (per_thread_queues s) (<[t := q']> (local_bufs s)) s);;;
  mlift r.

(** The object at the front of the thread's buffer, if there is one. *)
Definition local_pop (t : nat) : M slab (option Z) :=
  let! q := get_local_buf t in
  if is_empty q then mret None else let! o := on_local t pop_front in mret (Some o).
Definition local_refill (t : nat) (objs : list Z) : M slab Z :=
  let! n := on_local t (add objs) in
  massert (n =? Z.of_nat (length objs));;;
  on_local t pop_front.
(** What has to leave the buffer before an object can be added to it. *)
Definition local_spill (t : nat) : M slab (option (list Z)) :=
  let! q := get_local_buf t in
  let! full := mlift (is_full q) in
  let! s := mget in
  if full then let! objs := on_local t (fetch (Z.to_nat (local_buf_size (conf s)))) in mret (Some objs)
  else mret None.

(** [alloc()] *)
Definition slab_alloc1 (t : nat) : M slab Z :=
  let! s := mget in
  if local_buf_size (conf s) =? 0 then
    let! objs := slab_alloc 1 in
    mret (match objs with [] => NULL | o :: _ => o end)
  else
    let! o := local_pop t in
    match o with
    | Some o => mret o
    | None =>
        let! objs := slab_alloc (local_buf_size (conf s)) in
        if Z.of_nat (length objs) =? 0 then mret NULL else local_refill t objs
    end.

(** [free(obj)] *)
Definition slab_free1 (t : nat) (obj : Z) : M slab unit :=
  let! s := mget in
  if local_buf_size (conf s) =? 0 then slab_free [obj] else
  let! spilled := local_spill t in
  match spilled with Some objs => slab_free objs | None => mret tt end;;;
  on_local t (push_back obj).

End operations.

Definition contains (addr : Z) (s : slab) : bool :=
  existsb (λ b, (b <=? addr) && (addr <? b + increase_size (conf s))) (alloc_bufs s).
Definition get_max_size (s : slab) : Z := max_size (conf s).
Definition get_curr_size (s : slab) : Z := curr_size s.

(** The destructor (with [USE_NUMA]): the buffers given back to the system and the
    queues destroyed.  At most 128 queues are fetched at a time. *)
Fixpoint drain (fuel : nat) : M (ts_queue nat) (list nat) :=
  match fuel with
  | O => mthrow OutOfFuel
  | S fuel =>
      let! q := mget in
      if is_empty (ts_base q) then mret [] else
      let! l := ts_fetch 128 in
      let! r := drain fuel in
      mret (l ++ r)
  end.
Definition slab_destroy : M slab (list Z * list nat) :=
  let! s := mget in
  let '(qs, r) := drain (S (Z.to_nat (get_num_entries (ts_base (per_thread_queues s))))) (per_thread_queues s) in
  let! queues := mlift r in
  mput (set_queues qs (local_bufs s) s);;;
  mret (alloc_bufs s, queues).

(** ** [obj_allocator]: an object of type [T] follows the link.  [sizeof_T] is its
    size and [addrs] the address of the local array [addrs]. *)
Section obj_allocator.
Context (sys_alloc : nat → Z) (sizeof_T : Z).

Definition obj_allocator_new (counter : Z) (name : string) (node_id : Z) (thread_safe : bool) (increase_size max_size : Z)
    (tot : Z) (h : heap) : res slab :=
  let? s := slab_new counter name (sizeof_T + LINK_SIZE) increase_size max_size node_id true false SLAB_LOCAL_BUF_SIZE thread_safe tot h in
  if max_size <? increase_size then Throw AssertFailed else Ok s.

(** [addrs + sizeof(linked_obj)] is pointer arithmetic on an array of pointers. *)
Definition alloc_objs (addrs num : Z) : M slab (list Z) :=
  let! l := slab_alloc sys_alloc num in
  mret ((λ _, addrs + 8 * LINK_SIZE) <$> l).
Definition alloc_obj (t : nat) : M slab Z :=
  let! addr := slab_alloc1 sys_alloc t in
  mret (if addr =? NULL then NULL else addr + LINK_SIZE).
Definition obj_free (objs : list Z) : M slab unit := slab_free ((λ o, o - LINK_SIZE) <$> objs).
Definition obj_free1 (t : nat) (obj : Z) : M slab unit := slab_free1 t (obj - LINK_SIZE).
End obj_allocator.

(** ** The lists threaded through the objects *)

(** [p] points to a chain of the objects [l]. *)
Fixpoint chain (h : heap) (p : Z) (l : list Z) : Prop :=
  match l with
  | [] => p = NULL
  | x :: l => p = x ∧ x ≠ NULL ∧ ∃ q, h !! x = Some q ∧ chain h q l
  end.

Record list_rep (h : heap) (L : linked_obj_list) (l : list Z) : Prop := {
  lr_chain : chain h (ll_head L) l;
  lr_end : ll_end L = default NULL (last l);
  lr_size : ll_size L = Z.of_nat (length l);
  lr_nodup : NoDup l;
  lr_small : Z.of_nat (length l) < 2 ^ 31
}.

Lemma chain_frame h h' p l : (∀ x, x ∈ l → h' !! x = h !! x) → chain h p l → chain h' p l.
Proof.
  revert p. induction l as [|x l IH]; intros p Hf; [done|]. intros (-> & Hx & q & Hq & Hc). cbn.
  split_and!; [done..|]. exists q. rewrite Hf by set_solver. split; [done|]. apply IH; [|done]. intros; apply Hf; set_solver.
Qed.
Lemma chain_insert h p l x v : x ∉ l → chain h p l → chain (<[x := v]> h) p l.
Proof. intros Hx. apply chain_frame. intros y Hy. apply lookup_insert_ne. intros ->. done. Qed.

Lemma chain_mapped h p l x : chain h p l → x ∈ l → is_Some (h !! x).
Proof.
  revert p. induction l as [|y l IH]; intros p; [by intros _ ?%elem_of_nil|]. intros (-> & _ & q & Hq & Hc) [->|]%elem_of_cons; eauto.
Qed.
Lemma chain_non_null h p l x : chain h p l → x ∈ l → x ≠ NULL.
Proof.
  revert p. induction l as [|y l IH]; intros p; [by intros _ ?%elem_of_nil|]. intros (-> & ? & q & Hq & Hc) [->|]%elem_of_cons; eauto.
Qed.
Lemma chain_null h l : chain h NULL l → l = [].
Proof. destruct l as [|x l]; [done|]. by intros (<- & ? & _). Qed.

(** Linking the last object of a chain to another chain, and cutting it there. *)
Lemma chain_join h p l1 e q l2 :
  NoDup (l1 ++ l2) → last l1 = Some e → chain h p l1 → chain h q l2 → chain (<[e := q]> h) p (l1 ++ l2).
Proof.
  revert p. induction l1 as [|x l1 IH]; intros p Hd He; [done|]. intros (-> & Hx & r & Hr & Hc) H2.
  cbn in Hd. apply NoDup_cons in Hd as [Hn Hd]. cbn. split_and!; [done..|]. destruct l1 as [|y l1].
  - injection He as ->. exists q. rewrite lookup_insert_eq. split; [done|]. by apply chain_insert.
  - assert (e ∈ y :: l1) as Hin by (apply last_Some_elem_of; done). exists r. split.
    + rewrite lookup_insert_ne; [done|]. intros ->. apply Hn. set_solver.
    + by apply IH.
Qed.
Lemma chain_cut h p l1 e l2 :
  NoDup (l1 ++ l2) → last l1 = Some e → chain h p (l1 ++ l2) → chain (<[e := NULL]> h) p l1.
Proof.
  revert p. induction l1 as [|x l1 IH]; intros p Hd He; [done|]. intros (-> & Hx & r & Hr & Hc).
  cbn in Hd. apply NoDup_cons in Hd as [Hn Hd]. cbn. split_and!; [done..|]. destruct l1 as [|y l1].
  - injection He as ->. exists NULL. by rewrite lookup_insert_eq.
  - assert (e ∈ y :: l1) as Hin by (apply last_Some_elem_of; done). exists r. split.
    + rewrite lookup_insert_ne; [done|]. intros ->. apply Hn. set_solver.
    + by apply IH.
Qed.

Lemma pop_loop_spec n h p l prev c :
  chain h p l → ∃ q, pop_loop n p prev c h = Ok (q, default prev (last (take n l)), c + Z.of_nat (length (take n l))) ∧
    chain h q (drop n l).
Proof.
  revert p l prev c. induction n as [|n IH]; intros p l prev c Hc; cbn [pop_loop].
  { exists p. rewrite take_0, Z.add_0_r. done. }
  destruct l as [|x l].
  { rewrite Hc. cbn. exists NULL. by rewrite Z.add_0_r. }
  destruct Hc as (-> & Hx & q & Hq & Hc). rewrite (proj2 (Z.eqb_neq _ _)) by done. unfold lo_get_next. rewrite Hq. cbn [rbind].
  destruct (IH q l x (c + 1) Hc) as (r & Hr & Hcr). exists r. rewrite Hr. split; [|done]. cbn [firstn length]. do 2 f_equal; [|lia].
  f_equal. rewrite last_cons. by destruct (last (take n l)).
Qed.
Lemma collect_spec room h p l : chain h p l → (length l ≤ room)%nat → collect room p h = Ok l.
Proof.
  revert p l. induction room as [|room IH]; intros p l Hc Hl; destruct l as [|x l]; cbn in *; try lia.
  - by rewrite Hc.
  - by rewrite Hc.
  - destruct Hc as (-> & Hx & q & Hq & Hc). rewrite (proj2 (Z.eqb_neq _ _)) by done. unfold lo_get_next. rewrite Hq. cbn [rbind].
    by rewrite (IH q l) by (done || lia).
Qed.

Lemma list_rep_new h : list_rep h ll_new [].
Proof. split; cbn; [done..|constructor|lia]. Qed.

Lemma list_rep_frame h h' L l : (∀ x, x ∈ l → h' !! x = h !! x) → list_rep h L l → list_rep h' L l.
Proof. intros Hf []. split; [|done..]. by eapply chain_frame. Qed.

(** The three operations on represented lists. *)
Lemma ll_add_spec h L l o :
  list_rep h L l → is_Some (h !! o) → o ≠ NULL → o ∉ l → Z.of_nat (length l) + 1 < 2 ^ 31 →
  ∃ L', ll_add o L h = Ok (L', <[o := ll_head L]> h) ∧ list_rep (<[o := ll_head L]> h) L' (o :: l).
Proof.
  intros [Hc He Hs Hd _] [v Hv] Ho Hn Hl. unfold ll_add, lo_set_next. rewrite Hv.
  assert ((if ll_size L =? 0 then if ll_head L =? NULL then Ok o else Throw AssertFailed else Ok (ll_end L)) = Ok (default NULL (last (o :: l)))) as ->.
  { rewrite Hs, He. destruct l as [|x l]; [by rewrite Hc|]. rewrite (proj2 (Z.eqb_neq _ _)) by (cbn; lia). done. }
  cbn [rbind]. eexists. split; [reflexivity|]. split; cbn [ll_head ll_end ll_size].
  - split_and!; [done..|]. exists (ll_head L). rewrite lookup_insert_eq. split; [done|]. by apply chain_insert.
  - done.
  - rewrite Hs, s32_small by lia. cbn [length]. lia.
  - by constructor.
  - cbn [length]. lia.
Qed.

Lemma ll_pop_spec h L l num :
  list_rep h L l → 0 < num → let n := Z.to_nat num in
  ∃ L' h', ll_pop num L h = Ok (ll_head L, L', h') ∧ chain h' (ll_head L) (take n l) ∧ list_rep h' L' (drop n l) ∧
    (∀ x, x ∉ take n l → h' !! x = h !! x) ∧ (∀ x, is_Some (h !! x) → is_Some (h' !! x)).
Proof.
  intros [Hc He Hs Hd Hm] Hnum n. destruct (pop_loop_spec n h _ l NULL 0 Hc) as (q & Hp & Hq).
  pose proof (length_take l n). pose proof (length_drop l n). assert (Hcut := take_drop n l).
  assert (∃ h', (if default NULL (last (take n l)) =? NULL then Ok h else lo_set_next (default NULL (last (take n l))) NULL h) = Ok h' ∧
    chain h' (ll_head L) (take n l) ∧ (∀ x, x ∉ take n l → h' !! x = h !! x) ∧ (∀ x, is_Some (h !! x) → is_Some (h' !! x))) as (h' & Hh & H1 & H2 & H3).
  { destruct (last (take n l)) as [e|] eqn:Hl; cbn [from_option id].
    - assert (e ∈ take n l) as Hin by (by apply last_Some_elem_of). assert (e ∈ l) as Hin' by (by eapply subseteq_take).
      rewrite (proj2 (Z.eqb_neq _ _)) by exact (chain_non_null _ _ _ _ Hc Hin'). destruct (chain_mapped _ _ _ _ Hc Hin') as [v Hv].
      unfold lo_set_next. rewrite Hv. eexists. split; [reflexivity|]. split_and!.
      + apply (chain_cut _ _ _ _ (drop n l)); rewrite ?Hcut; done.
      + intros x Hx. apply lookup_insert_ne. by intros ->.
      + intros x Hx. rewrite lookup_insert_is_Some'. by right.
    - apply last_None in Hl. exists h. rewrite Hl in *. split_and!; [done| |done|done]. destruct l as [|x l]; [done|].
      destruct n eqn:En; [lia|]. done. }
  assert (s32 (ll_size L - (0 + Z.of_nat (length (take n l)))) = Z.of_nat (length (drop n l))) as Hsz.
  { rewrite Hs, s32_small; lia. }
  unfold ll_pop. fold n. rewrite Hp. cbn [rbind]. rewrite Hh. cbn [rbind]. rewrite Hsz, (proj2 (Z.ltb_ge _ _)) by lia.
  eexists _, h'. split; [reflexivity|]. split_and!; [done| |done|done].
  assert (NoDup (take n l ++ drop n l)) as Hd' by (by rewrite Hcut). apply NoDup_app in Hd' as (_ & Hdis & Hd').
  split; cbn [ll_head ll_end ll_size]; [|..|done|done|lia].
  - eapply chain_frame; [|exact Hq]. intros x Hx. apply H2. intros Hx'. by apply (Hdis x).
  - destruct (drop n l) as [|y r] eqn:Ed; [done|]. rewrite (proj2 (Z.eqb_neq _ _)) by (cbn; lia).
    rewrite He. f_equal. rewrite <-Hcut, last_app, <-Ed. destruct (last (drop n l)) eqn:El; [done|]. apply last_None in El. congruence.
Qed.

Lemma ll_add_list_spec h T t L l :
  list_rep h T t → list_rep h L l → NoDup (t ++ l) → Z.of_nat (length t) + Z.of_nat (length l) < 2 ^ 31 →
  ∃ L' T' h', ll_add_list T L h = Ok (L', T', h') ∧ list_rep h' L' (t ++ l) ∧ list_rep h' T' [] ∧
    (∀ x, x ∉ t → h' !! x = h !! x) ∧ (∀ x, is_Some (h !! x) → is_Some (h' !! x)).
Proof.
  intros [Tc Te Ts Td Tm] [Lc Le Ls Ld Lm] Hd Hm. unfold ll_add_list. rewrite Ts, Ls, Te.
  destruct t as [|x t].
  { exists L, T, h. split; [done|]. split_and!; [by split|by split|done|done]. }
  rewrite (proj2 (Z.eqb_neq _ _)) by (cbn; lia). destruct l as [|y l].
  { eexists _, _, h. split; [reflexivity|]. rewrite app_nil_r. split_and!; [by split|apply list_rep_new|done|done]. }
  rewrite (proj2 (Z.eqb_neq _ _)) by (cbn; lia). destruct (last (x :: t)) as [e|] eqn:El; [|by apply last_None in El].
  assert (e ∈ x :: t) as Hin by (by apply last_Some_elem_of). cbn [from_option id]. destruct (chain_mapped _ _ _ _ Tc Hin) as [v Hv].
  unfold lo_set_next. rewrite Hv. cbn [rbind]. eexists _, _, _. split; [reflexivity|]. split_and!.
  - split; cbn [ll_head ll_end ll_size].
    + by apply chain_join.
    + rewrite last_app, Le. destruct (last (y :: l)) eqn:E; [done|]. by apply last_None in E.
    + rewrite s32_small by lia. rewrite length_app. lia.
    + done.
    + rewrite length_app. lia.
  - apply list_rep_new.
  - intros z Hz. apply lookup_insert_ne. by intros ->.
  - intros z Hz. rewrite lookup_insert_is_Some'. by right.
Qed.

(** ** The invariant of the allocator *)

(** The sizes an allocator is used with: the offset of an object in its buffer
    and the number of all objects are [int]s, the sizes are [long]s. *)
Record conf_ok (c : slab_conf) : Prop := {
  co_obj : LINK_SIZE ≤ obj_size c;
  co_inc : 0 < increase_size c < 2 ^ 31;
  co_max : 0 ≤ max_size c;
  co_long : max_size c + increase_size c < 2 ^ 63;
  co_int : max_size c + increase_size c ≤ (2 ^ 31 - 1) * obj_size c;
  co_local : 0 ≤ local_buf_size c ≤ 2 ^ 30
}.

(** The buffers that can ever be asked for. *)
Definition max_bufs (c : slab_conf) : Z := (max_size c + increase_size c - 1) / increase_size c.

(** What is known of the memory the system hands out: page-aligned regions of
    [increase_size] bytes that do not overlap. *)
Record sys_ok (c : slab_conf) (sys_alloc : nat → Z) : Prop := {
  so_addr k : Z.of_nat k < max_bufs c → 0 < sys_alloc k ∧ sys_alloc k `mod` PAGE_SIZE = 0;
  so_apart j k : (j < k)%nat → Z.of_nat k < max_bufs c →
    sys_alloc j + increase_size c ≤ sys_alloc k ∨ sys_alloc k + increase_size c ≤ sys_alloc j
}.

(** The addresses of the objects of a buffer, and of all buffers. *)
Definition slots (c : slab_conf) (b : Z) : list Z := (λ i, b + obj_size c * i) <$> seqZ 0 (objs_per_buf c).
Definition all_slots (c : slab_conf) (bufs : list Z) : list Z := concat (slots c <$> bufs).

Section invariant.
Context (c : slab_conf) (sys_alloc : nat → Z) (Hc : conf_ok c) (Hs : sys_ok c sys_alloc).

(** [fl] are the objects on the list, [out] the ones anywhere else, [fills] the
    buffers that are reserved but not there yet. *)
Record winv (s : slab) (fl out : list Z) (fills : Z) : Prop := {
  wi_conf : conf s = c;
  wi_list : list_rep (mem s) (free_objs s) fl;
  wi_part : fl ++ out ≡ₚ all_slots c (alloc_bufs s);
  wi_bufs : alloc_bufs s = sys_alloc <$> seq 0 (sys_allocs s);
  wi_mapped x : x ∈ all_slots c (alloc_bufs s) → is_Some (mem s !! x);
  wi_fills : 0 ≤ fills;
  wi_curr : curr_size s = increase_size c * (Z.of_nat (sys_allocs s) + fills);
  wi_bound : curr_size s < max_size c + increase_size c
}.

Lemma per_buf : 0 ≤ objs_per_buf c ∧ obj_size c * objs_per_buf c ≤ increase_size c.
Proof using Hc.
  destruct Hc. unfold objs_per_buf, LINK_SIZE in *. rewrite Z.quot_div_nonneg by lia. split; [apply Z.div_pos; lia|apply Z.mul_div_le; lia].
Qed.

Lemma elem_of_slots b x : x ∈ slots c b ↔ ∃ i, x = b + obj_size c * i ∧ 0 ≤ i < objs_per_buf c.
Proof. unfold slots. rewrite list_elem_of_fmap. setoid_rewrite elem_of_seqZ. split; intros (i & -> & Hi); exists i; (split; [done|]); lia. Qed.

Lemma slots_range b x : x ∈ slots c b → b ≤ x < b + increase_size c.
Proof using Hc.
  intros (i & -> & Hi)%elem_of_slots. destruct per_buf, Hc. unfold LINK_SIZE in *.
  pose proof (Z.mul_le_mono_nonneg_l (i + 1) (objs_per_buf c) (obj_size c)). nia.
Qed.

Lemma slots_nodup b : NoDup (slots c b).
Proof using Hc. unfold slots. apply NoDup_fmap_2; [|apply NoDup_seqZ]. destruct Hc. unfold LINK_SIZE in *. intros i j. nia. Qed.

Lemma slots_length b : Z.of_nat (length (slots c b)) = objs_per_buf c.
Proof using Hc. unfold slots. rewrite length_fmap, length_seqZ. pose proof per_buf. lia. Qed.

Lemma elem_of_all_slots bufs x : x ∈ all_slots c bufs ↔ ∃ b, b ∈ bufs ∧ x ∈ slots c b.
Proof.
  clear Hs Hc. unfold all_slots. induction bufs as [|b bufs IH]; cbn.
  - rewrite elem_of_nil. split; [done|]. by intros (? & ?%elem_of_nil & _).
  - rewrite elem_of_app. rewrite IH. set_solver.
Qed.

Lemma all_slots_snoc bufs b : all_slots c (bufs ++ [b]) = all_slots c bufs ++ slots c b.
Proof. unfold all_slots. rewrite fmap_app, concat_app. cbn. by rewrite app_nil_r. Qed.

Lemma all_slots_length bufs : Z.of_nat (length (all_slots c bufs)) = objs_per_buf c * Z.of_nat (length bufs).
Proof using Hc.
  unfold all_slots. induction bufs as [|b bufs IH]; cbn; [lia|]. rewrite length_app, Nat2Z.inj_add, slots_length. rewrite IH. lia.
Qed.

(** Distinct calls give distinct objects. *)
Lemma sys_slots_apart j k x :
  (j < k)%nat → Z.of_nat k < max_bufs c → x ∈ slots c (sys_alloc j) → x ∉ slots c (sys_alloc k).
Proof using Hc Hs. intros Hj Hk Hx%slots_range Hy%slots_range. destruct (so_apart _ _ Hs j k Hj Hk); lia. Qed.

Lemma all_slots_nodup n : Z.of_nat n ≤ max_bufs c → NoDup (all_slots c (sys_alloc <$> seq 0 n)).
Proof using Hc Hs.
  induction n as [|n IH]; intros Hn; [constructor|]. rewrite seq_S, fmap_app, Nat.add_0_l. cbn [fmap list_fmap]. rewrite all_slots_snoc.
  apply NoDup_app. split_and!; [apply IH; lia| |apply slots_nodup]. intros x (b & (j & -> & Hj%elem_of_seq)%list_elem_of_fmap & Hx)%elem_of_all_slots.
  apply (sys_slots_apart j); [lia|lia|done].
Qed.

Lemma winv_allocs s fl out f : winv s fl out f → Z.of_nat (sys_allocs s) + f ≤ max_bufs c.
Proof using Hc.
  intros H. pose proof (wi_curr _ _ _ _ H) as E. pose proof (wi_bound _ _ _ _ H). unfold max_bufs. destruct Hc. apply Z.div_le_lower_bound; lia.
Qed.
Lemma winv_nodup s fl out f : winv s fl out f → NoDup (fl ++ out).
Proof using Hc Hs.
  intros H. rewrite (wi_part _ _ _ _ H), (wi_bufs _ _ _ _ H). apply all_slots_nodup. pose proof (winv_allocs _ _ _ _ H).
  pose proof (wi_fills _ _ _ _ H). lia.
Qed.
Lemma winv_count s fl out f : winv s fl out f → Z.of_nat (length (fl ++ out)) + objs_per_buf c * f < 2 ^ 31.
Proof using Hc.
  intros H. rewrite (Permutation_length (wi_part _ _ _ _ H)), all_slots_length, (wi_bufs _ _ _ _ H), length_fmap, length_seq.
  pose proof (wi_curr _ _ _ _ H) as E. pose proof (wi_bound _ _ _ _ H) as B. pose proof (wi_fills _ _ _ _ H). destruct per_buf, Hc. unfold LINK_SIZE in *. rewrite E in B.
  assert (obj_size c * (objs_per_buf c * (Z.of_nat (sys_allocs s) + f)) < obj_size c * 2 ^ 31); nia.
Qed.
Lemma winv_mapped s fl out f x : winv s fl out f → x ∈ fl ++ out → is_Some (mem s !! x) ∧ x ≠ NULL.
Proof using Hc Hs.
  intros H Hx. rewrite (wi_part _ _ _ _ H) in Hx. split; [by eapply wi_mapped|].
  apply elem_of_all_slots in Hx as (b & Hb & Hx%slots_range). rewrite (wi_bufs _ _ _ _ H) in Hb.
  apply list_elem_of_fmap in Hb as (k & -> & Hk%elem_of_seq). destruct (so_addr _ _ Hs k); [|unfold NULL; lia].
  pose proof (winv_allocs _ _ _ _ H). pose proof (wi_fills _ _ _ _ H). lia.
Qed.

(** Only the list and the chains change. *)
Lemma winv_list s fl out f L h fl' out' :
  winv s fl out f → list_rep h L fl' → fl' ++ out' ≡ₚ fl ++ out → (∀ x, is_Some (mem s !! x) → is_Some (h !! x)) →
  winv (set_list L h s) fl' out' f.
Proof. intros [] HL Hp Hm. split; cbn; try done; [|by eauto]. etransitivity; [exact Hp|done]. Qed.

Lemma winv_out s fl out out' f : out ≡ₚ out' → winv s fl out f → winv s fl out' f.
Proof. intros Hp []. split; try done. rewrite <-Hp. done. Qed.
End invariant.

(** ** The critical sections preserve it *)

Section sections.
Context (c : slab_conf) (sys_alloc : nat → Z) (Hc : conf_ok c) (Hs : sys_ok c sys_alloc).
Notation winv := (winv c sys_alloc).

Lemma alloc_pop_spec s fl out f num :
  winv s fl out f → 0 < num → let n := Z.to_nat num in
  ∃ L h, alloc_pop num s = (set_list L h s, Ok (take n fl)) ∧ winv (set_list L h s) (drop n fl) (take n fl ++ out) f.
Proof using Hc Hs.
  intros H Hn n. destruct (ll_pop_spec _ _ _ num (wi_list _ _ _ _ _ _ H) Hn) as (L & h & Hp & H1 & H2 & H3 & H4). fold n in Hp, H1, H2, H3.
  exists L, h. unfold alloc_pop. rewrite (mbind_ok _ _ _ _ _ eq_refl : mbind' mget _ _ = _), Hp, (mbind_ok (mlift (Ok _)) _ _ _ _ eq_refl).
  rewrite (mbind_ok (mput _) _ _ _ _ eq_refl). unfold mlift. rewrite (collect_spec _ _ _ _ H1) by (rewrite length_take; lia). split; [done|].
  eapply winv_list; [exact H|done| |done]. rewrite (assoc_L (++)), (Permutation_app_comm (drop n fl)), take_drop. done.
Qed.

Lemma alloc_reserve_spec s fl out f :
  winv s fl out f →
  (curr_size s < max_size c ∧ ∃ tot, let s' := set_sizes (curr_size s + increase_size c) tot s in
     alloc_reserve s = (s', Ok true) ∧ winv s' fl out (f + 1)) ∨
  (max_size c ≤ curr_size s ∧ alloc_reserve s = (s, Ok false)).
Proof using Hc.
  intros H. destruct H as [Hf ? ? ? ? ? Hcu ?] eqn:EH. clear EH. unfold alloc_reserve. rewrite (mbind_ok _ _ _ _ _ eq_refl : mbind' mget _ _ = _), Hf.
  destruct (Z.ltb_spec (curr_size s) (max_size c)); [left|by right]. split; [done|]. eexists.
  destruct Hc. assert (s64 (curr_size s + increase_size c) = curr_size s + increase_size c) as -> by (apply s64_small; nia).
  rewrite (mbind_ok (mput _) _ _ _ _ eq_refl). split; [reflexivity|]. split; cbn; try done; nia.
Qed.

(** Carving a buffer, from its [i]-th object. *)
Lemma fill_loop_spec n i b T t h :
  list_rep h T t → 0 < b → 0 ≤ i → obj_size c * (i + Z.of_nat n) < 2 ^ 31 → i + Z.of_nat n < 2 ^ 31 → (∀ x, x ∈ t → x < b + obj_size c * i) →
  Z.of_nat (length t) + Z.of_nat n < 2 ^ 31 →
  let new := (λ k, b + obj_size c * k) <$> seqZ i (Z.of_nat n) in
  ∃ T' h', fill_loop n i (obj_size c) b T h = Ok (T', h') ∧ list_rep h' T' (rev new ++ t) ∧
    (∀ x, x ∉ new → x ∉ t → h' !! x = h !! x) ∧ (∀ x, is_Some (h !! x) ∨ x ∈ new → is_Some (h' !! x)).
Proof using Hc.
  assert (0 < obj_size c) as Ho by (destruct Hc; unfold LINK_SIZE in *; lia).
  revert i T t h. induction n as [|n IH]; intros i T t h HT Hb Hi Hm Hm' Ht Hl; cbn zeta.
  { exists T, h. cbn. split_and!; [done|done|done|]. intros x [?|?%elem_of_nil]; done. }
  set (x0 := b + obj_size c * i). cbn [fill_loop]. rewrite s32_small by nia. fold x0.
  assert (x0 ∉ t) as Hnt by (intros ?%Ht; lia). assert (x0 ≠ NULL) as Hnn by (unfold x0, NULL; nia).
  destruct (ll_add_spec (lo_construct x0 h) T t x0) as (T1 & Ha & HT1); [|unfold lo_construct; by rewrite lookup_insert_eq|done|done|lia|].
  { eapply list_rep_frame; [|exact HT]. intros y Hy. apply lookup_insert_ne. by intros ->. }
  rewrite Ha. cbn [rbind]. rewrite (s32_small (i + 1)) by lia.
  destruct (IH (i + 1) T1 (x0 :: t) _ HT1) as (T2 & h2 & Hf & HT2 & Hfr & Hmp); [lia|lia|nia|lia| |cbn [length]; lia|].
  { intros x [->|Hx%Ht]%elem_of_cons; unfold x0; nia. }
  exists T2, h2. rewrite Hf. rewrite seqZ_cons by lia. replace (Z.succ i) with (i + 1) by lia. replace (Z.pred (Z.of_nat (S n))) with (Z.of_nat n) by lia.
  cbn [fmap list_fmap rev]. fold x0. split; [done|]. split_and!.
  - by rewrite <-(assoc_L (++)).
  - intros x Hx Hx'. apply not_elem_of_cons in Hx as [Hne Hx]. rewrite Hfr; [|done|by apply not_elem_of_cons].
    unfold lo_construct. rewrite !lookup_insert_ne by done. done.
  - intros x Hx. apply Hmp. unfold lo_construct. rewrite !lookup_insert_is_Some', elem_of_cons in *. naive_solver.
Qed.

Lemma alloc_grow_spec s fl out f :
  winv s fl out (f + 1) → 0 ≤ f → let b := sys_alloc (sys_allocs s) in
  ∃ L h, alloc_grow sys_alloc s = (set_list L h (add_buf b s), Ok tt) ∧
    winv (set_list L h (add_buf b s)) (rev (slots c b) ++ fl) out f.
Proof using Hc Hs.
  intros H Hf b. pose proof (winv_allocs _ _ Hc _ _ _ _ H) as Ha. destruct (so_addr _ _ Hs (sys_allocs s) ltac:(lia)) as [Hb Hpg].
  fold b in Hb, Hpg. pose proof (winv_count _ _ Hc _ _ _ _ H) as Hcnt. rewrite length_app in Hcnt. destruct (per_buf c Hc) as [Hp1 Hp2].
  assert (obj_size c * objs_per_buf c < 2 ^ 31) as Hp3 by (destruct Hc; lia).
  destruct (fill_loop_spec (Z.to_nat (objs_per_buf c)) 0 b ll_new [] (mem s)) as (T & h & Hfill & HT & Hfr & Hmp);
    [apply list_rep_new|done|lia|by rewrite Z2Nat.id|destruct Hc; unfold LINK_SIZE in *; nia|by intros ? ?%elem_of_nil|cbn; nia|].
  rewrite Z2Nat.id in HT, Hfr, Hmp by done. fold (slots c b) in HT, Hfr, Hmp. rewrite app_nil_r in HT.
  assert (NoDup (slots c b ++ (fl ++ out))) as Hnd.
  { rewrite (wi_part _ _ _ _ _ _ H), (wi_bufs _ _ _ _ _ _ H), Permutation_app_comm, <-all_slots_snoc.
    pose proof (all_slots_nodup c sys_alloc Hc Hs (S (sys_allocs s))) as Hx. rewrite seq_S, fmap_app in Hx. apply Hx. lia. }
  assert (NoDup (rev (slots c b) ++ fl)) as Hnd'.
  { rewrite <-Permutation_rev. apply (NoDup_app (slots c b ++ fl) out). by rewrite <-(assoc_L (++)). }
  destruct (ll_add_list_spec h T (rev (slots c b)) (free_objs s) fl) as (L & T' & h' & Hal & HL & _ & Hfr' & Hmp').
  - done.
  - eapply list_rep_frame; [|apply H]. intros x Hx. apply Hfr; [|by intros ?%elem_of_nil]. apply NoDup_app in Hnd' as (_ & Hdis & _).
    intros Hx'. apply (Hdis x); [|done]. by rewrite <-Permutation_rev.
  - done.
  - rewrite length_rev, slots_length by done. nia.
  - exists L, h'. unfold alloc_grow. rewrite (mbind_ok _ _ _ _ _ eq_refl : mbind' mget _ _ = _). fold b.
    rewrite (proj2 (Z.eqb_neq b NULL)), (mbind_ok (massert true) _ _ _ _ eq_refl) by (unfold NULL; lia).
    rewrite Z.rem_mod_nonneg, Hpg, (mbind_ok (massert true) _ _ _ _ eq_refl) by (unfold PAGE_SIZE in *; lia).
    rewrite (wi_conf _ _ _ _ _ _ H), Hfill, (mbind_ok (mlift (Ok _)) _ _ _ _ eq_refl), Hal, (mbind_ok (mlift (Ok _)) _ _ _ _ eq_refl).
    split; [done|]. destruct H. split; cbn [conf free_objs alloc_bufs mem curr_size sys_allocs set_list add_buf]; try done.
    + rewrite all_slots_snoc, <-Permutation_rev, <-(assoc_L (++)), wi_part0. apply Permutation_app_comm.
    + rewrite wi_bufs0. change (0%nat :: seq 1 (sys_allocs s)) with (seq 0 (S (sys_allocs s))). rewrite seq_S, fmap_app. done.
    + intros x. rewrite all_slots_snoc, elem_of_app. intros Hx. apply Hmp', Hmp. naive_solver.
    + lia.
Qed.

Lemma free_loop_spec objs T t h :
  list_rep h T t → NoDup (objs ++ t) → (∀ x, x ∈ objs → is_Some (h !! x) ∧ x ≠ NULL) → Z.of_nat (length objs) + Z.of_nat (length t) < 2 ^ 31 →
  ∃ T' h', free_loop objs T h = Ok (T', h') ∧ list_rep h' T' (rev objs ++ t) ∧
    (∀ x, x ∉ objs → x ∉ t → h' !! x = h !! x) ∧ (∀ x, is_Some (h !! x) → is_Some (h' !! x)).
Proof.
  clear Hs Hc. revert T t h. induction objs as [|o objs IH]; intros T t h HT Hd Hm Hl; [exists T, h; done|]. cbn [free_loop rev].
  destruct (Hm o) as [[v Hv] Hnn]; [set_solver|]. cbn in Hd. apply NoDup_cons in Hd as [Hno Hd]. rewrite not_elem_of_app in Hno. destruct Hno as [Hn1 Hn2].
  unfold lo_set_next. rewrite Hv. cbn [rbind]. destruct (ll_add_spec (<[o := NULL]> h) T t o) as (T1 & Ha & HT1); [|by rewrite lookup_insert_eq|done|done|cbn [length] in Hl; lia|].
  { eapply list_rep_frame; [|exact HT]. intros y Hy. apply lookup_insert_ne. by intros ->. }
  rewrite Ha. cbn [rbind]. destruct (IH T1 (o :: t) _ HT1) as (T2 & h2 & Hf & HT2 & Hfr & Hmp); [| |cbn [length] in *; lia|].
  - rewrite <-Permutation_middle. constructor; [by rewrite not_elem_of_app|done].
  - intros x Hx. destruct (Hm x) as [? ?]; [set_solver|]. split; [|done]. rewrite !lookup_insert_is_Some'. by auto.
  - exists T2, h2. rewrite Hf. split; [done|]. split_and!.
    + by rewrite <-(assoc_L (++)).
    + intros x [Hx1 Hx2]%not_elem_of_cons Hx3. rewrite Hfr; [|done|by apply not_elem_of_cons]. by rewrite !lookup_insert_ne by done.
    + intros x Hx. apply Hmp. rewrite !lookup_insert_is_Some'. by auto.
Qed.

Lemma slab_free_spec s fl out f objs :
  winv s fl (objs ++ out) f →
  ∃ L h, slab_free objs s = (set_list L h s, Ok tt) ∧ winv (set_list L h s) (rev objs ++ fl) out f.
Proof using Hc Hs.
  intros H. pose proof (winv_nodup _ _ Hc Hs _ _ _ _ H) as Hd. pose proof (winv_count _ _ Hc _ _ _ _ H) as Hcnt.
  destruct (per_buf c Hc) as [Hp _]. pose proof (wi_fills _ _ _ _ _ _ H). rewrite !length_app in Hcnt.
  assert (NoDup (objs ++ fl)) as Hd1.
  { apply (NoDup_app (objs ++ fl) out). rewrite <-(assoc_L (++)), (Permutation_app_comm fl out), (assoc_L (++)), Permutation_app_comm. done. }
  apply NoDup_app in Hd1 as (Hdo & Hdis & Hdf). destruct (free_loop_spec objs ll_new [] (mem s)) as (T & h & Hf & HT & Hfr & Hmp).
  - apply list_rep_new.
  - by rewrite app_nil_r.
  - intros x Hx. eapply winv_mapped; [done..| |]; [exact H|]. set_solver.
  - cbn. nia.
  - rewrite app_nil_r in HT. destruct (ll_add_list_spec h T (rev objs) (free_objs s) fl) as (L & T' & h' & Hal & HL & _ & _ & Hmp').
    + done.
    + eapply list_rep_frame; [|apply H]. intros x Hx. apply Hfr; [|by intros ?%elem_of_nil]. intros Hx'. by apply (Hdis x).
    + rewrite <-Permutation_rev. by apply NoDup_app.
    + rewrite length_rev. nia.
    + exists L, h'. unfold slab_free. rewrite (mbind_ok _ _ _ _ _ eq_refl : mbind' mget _ _ = _), Hf, (mbind_ok (mlift (Ok _)) _ _ _ _ eq_refl), Hal, (mbind_ok (mlift (Ok _)) _ _ _ _ eq_refl).
      split; [done|]. eapply winv_list; [exact H|done| |by eauto]. rewrite <-Permutation_rev. solve_Permutation.
Qed.
End sections.

(** ** One thread: [alloc] takes exactly what it was asked for, or nothing *)

Section sequential.
Context (c : slab_conf) (sys_alloc : nat → Z) (Hc : conf_ok c) (Hs : sys_ok c sys_alloc).
Notation winv := (winv c sys_alloc).

(** What [alloc] leaves alone. *)
Record same_threads (s s' : slab) : Prop := {
  st_queues : per_thread_queues s' = per_thread_queues s;
  st_local : local_bufs s' = local_bufs s
}.

Lemma growths_reserve s fl out f tot :
  winv s fl out f → curr_size s < max_size c →
  growths_left s = growths_left (set_sizes (curr_size s + increase_size c) tot s) + 1 ∧ 0 < growths_left s.
Proof using Hc.
  intros H Hlt. destruct Hc. unfold growths_left. cbn [conf curr_size set_sizes]. rewrite (wi_conf _ _ _ _ _ _ H).
  set (d := max_size c - curr_size s) in *. replace (max_size c - (curr_size s + increase_size c)) with (d - increase_size c) by lia.
  assert (d + increase_size c - 1 = (d - increase_size c + increase_size c - 1) + 1 * increase_size c) as -> by lia.
  rewrite Z.div_add by lia. pose proof (Z.div_pos (d - increase_size c + increase_size c - 1) (increase_size c)). lia.
Qed.
Lemma growths_none s fl out f : winv s fl out f → max_size c ≤ curr_size s → growths_left s = 0.
Proof using Hc.
  intros H Hle. destruct Hc. unfold growths_left. rewrite (wi_conf _ _ _ _ _ _ H).
  assert ((max_size c - curr_size s + increase_size c - 1) / increase_size c < 1); [|lia]. apply Z.div_lt_upper_bound; lia.
Qed.
Lemma growths_list L h s b : growths_left (set_list L h (add_buf b s)) = growths_left s ∧ growths_left (set_list L h s) = growths_left s.
Proof. done. Qed.

(** What a call of [alloc] for [n] objects of which [got] are there already does. *)
Definition alloc_post (n : Z) (got fl out : list Z) (s s' : slab) (objs : list Z) : Prop :=
  let avail := Z.of_nat (length (got ++ fl)) in
  ∃ fl' new, alloc_bufs s' = alloc_bufs s ++ new ∧ winv s' fl' (objs ++ out) 0 ∧ same_threads s s' ∧
    (n ≤ avail + objs_per_buf c * growths_left s → Z.of_nat (length objs) = n) ∧
    (avail + objs_per_buf c * growths_left s < n → objs = [] ∧ growths_left s' = 0) ∧
    (new = [] ∨ avail + objs_per_buf c * (Z.of_nat (length new) - 1) < n).

Lemma alloc_loop_spec fuel n s got fl out :
  winv s fl (got ++ out) 0 → Z.of_nat (length got) < n → growths_left s < Z.of_nat fuel →
  ∃ s' objs, alloc_loop sys_alloc fuel n got s = (s', Ok objs) ∧ alloc_post n got fl out s s' objs.
Proof using Hc Hs.
  destruct (per_buf c Hc) as [Hp _]. revert s got fl. induction fuel as [|fuel IH]; intros s got fl H Hn Hf; [unfold growths_left in Hf; lia|].
  cbn [alloc_loop]. set (need := n - Z.of_nat (length got)) in *. set (m := Z.to_nat need). assert (0 ≤ growths_left s) as Hg0 by (unfold growths_left; lia).
  destruct (alloc_pop_spec c sys_alloc Hc Hs _ _ _ _ need H ltac:(lia)) as (L & h & Hpop & H1). fold m in Hpop, H1. rewrite (mbind_ok _ _ _ _ _ Hpop).
  apply (winv_out _ _ _ _ _ ((got ++ take m fl) ++ out)) in H1; [|solve_Permutation].
  destruct (Z.eqb_spec (Z.of_nat (length (got ++ take m fl))) n) as [He|He].
  { rewrite length_app, length_take in He. eexists _, _. split; [reflexivity|]. exists (drop m fl), []. split_and!; [by rewrite app_nil_r|done|done| | |by left].
    - intros _. rewrite length_app, length_take. lia.
    - rewrite length_app. nia. }
  assert ((length fl < m)%nat) as Hshort by (rewrite length_app, length_take in He; lia).
  rewrite drop_ge in H1 by lia. rewrite (take_ge fl) in * by lia.
  destruct (alloc_reserve_spec c sys_alloc Hc _ _ _ _ H1) as [(Hlt & tot & Hres & H2)|(Hge & Hres)]; rewrite (mbind_ok _ _ _ _ _ Hres); cbn [curr_size set_list] in *.
  - destruct (growths_reserve _ _ _ _ tot H1 Hlt) as [Hg Hg']. cbn [curr_size set_list] in Hg. rewrite (proj2 (growths_list L h s 0)) in Hg, Hg'.
    destruct (alloc_grow_spec c sys_alloc Hc Hs _ _ _ 0 H2 ltac:(lia)) as (L3 & h3 & Hgr & H3). rewrite (mbind_ok _ _ _ _ _ Hgr). cbn [sys_allocs set_sizes set_list] in *.
    rewrite app_nil_r in H3. set (b := sys_alloc (sys_allocs s)) in *. set (s3 := set_list L3 h3 _) in *.
    assert (growths_left s3 = growths_left s - 1) as Hg3 by (rewrite Hg; unfold s3, growths_left; cbn; lia).
    destruct (IH s3 (got ++ fl) (rev (slots c b)) H3) as (s' & objs & Hrun & fl' & new & Hb & Hw & Ht & Ha1 & Ha2 & Ha3); [rewrite length_app; lia|lia|].
    exists s', objs. split; [done|]. exists fl', (b :: new). rewrite ?length_app, ?length_rev, ?Nat2Z.inj_add, ?slots_length, ?Hg3 in * by done. split_and!.
    + rewrite Hb. unfold s3. cbn. by rewrite <-(assoc_L (++)).
    + done.
    + destruct Ht. by split.
    + intros. apply Ha1. lia.
    + intros. apply Ha2. lia.
    + right. cbn [length]. destruct Ha3 as [->|Ha3]; [cbn; lia|]. lia.
  - destruct (slab_free_spec c sys_alloc Hc Hs _ _ _ _ _ H1) as (L3 & h3 & Hfr & H3). rewrite (mbind_ok _ _ _ _ _ Hfr).
    eexists _, []. split; [reflexivity|]. assert (growths_left s = 0) as Hz by (by apply (growths_none _ _ _ _ H)).
    eexists _, []. split_and!; [by rewrite app_nil_r|exact H3|done| |done|by left]. rewrite Hz, Z.mul_0_r, length_app. lia.
Qed.

Lemma slab_alloc_post s fl out n :
  winv s fl out 0 → 0 < n → ∃ s' objs, slab_alloc sys_alloc n s = (s', Ok objs) ∧ alloc_post n [] fl out s s' objs.
Proof using Hc Hs. intros H Hn. unfold slab_alloc. apply alloc_loop_spec; [done|cbn; lia|unfold growths_left; lia]. Qed.
End sequential.

(** ** The buffers of the threads *)

(** The objects found in a table indexed by threads. *)
Definition objs_of {A} (f : A → list Z) (m : gmap nat A) : list Z := concat ((λ ta, f ta.2) <$> map_to_list m).

Section tables.
Context {A : Type} (f : A → list Z).
Implicit Types m : gmap nat A.

Lemma objs_of_delete m t : objs_of f m ≡ₚ from_option f [] (m !! t) ++ objs_of f (delete t m).
Proof.
  destruct (m !! t) as [a|] eqn:E; cbn [from_option].
  - unfold objs_of. rewrite <-(insert_delete_id m t a E) at 1. rewrite map_to_list_insert by apply lookup_delete_eq. done.
  - by rewrite delete_id.
Qed.
Lemma objs_of_insert m t a : objs_of f (<[t := a]> m) ≡ₚ f a ++ objs_of f (delete t m).
Proof. rewrite (objs_of_delete _ t), lookup_insert_eq, delete_insert_eq. done. Qed.
Lemma objs_of_update m t a l :
  l ++ f a ≡ₚ from_option f [] (m !! t) → l ++ objs_of f (<[t := a]> m) ≡ₚ objs_of f m.
Proof. intros Hl. rewrite objs_of_insert, (objs_of_delete m t), <-Hl, (assoc_L (++)). done. Qed.
End tables.

Definition buf_log (c : slab_conf) : Z := Z.log2_up (local_buf_size c).
Definition queues_ok (qs : ts_queue nat) : Prop := ∃ l, ts_rep 10 qs l ∧ ts_max_size qs = 1000.

(** The thread's buffers hold the objects of [loc]. *)
Record linv (s : slab) (loc : gmap nat (list Z)) : Prop := {
  li_queues : queues_ok (per_thread_queues s);
  li_bufs t : option_Forall2 (fifo_rep (buf_log (conf s))) (local_bufs s !! t) (loc !! t)
}.

(** Adding to a queue does not change its maximal size. *)
Lemma ts_add_max_size {T} (T0 : T) vs (t : ts_queue T) : ts_max_size (ts_add T0 vs t).1 = ts_max_size t.
Proof.
  unfold ts_add, mbind', ts_lift, mlift, mget, mret. destruct (add vs _) as [q1 [n1|e1]]; [|done]. cbn [ts_base ts_max_size].
  destruct (Fifo.get_size _) as [n|]; [|done]. destruct (_ && _); [|done]. destruct (grow _ _ _ _); [|done]. cbn [ts_base ts_max_size].
  destruct (expand_queue _ _ _) as [q2 [n2|e2]]; [|done]. cbn [ts_base ts_max_size].
  destruct (add _ _) as [q3 [n3|e3]]; [|done]. unfold massert. by destruct (_ =? _).
Qed.

Section local.
Context (s : slab) (loc : gmap nat (list Z)) (t : nat).
Context (Hl : linv s loc) (Hb : 0 < local_buf_size (conf s) ≤ 2 ^ 30).
Notation k := (buf_log (conf s)).
Notation cur := (default [] (loc !! t)).

Lemma linv_insert qs q l :
  queues_ok qs → fifo_rep k q l → linv (set_queues qs (<[t := q]> (local_bufs s)) s) (<[t := l]> loc).
Proof using Hl.
  intros Hq Hr. split; [done|]. cbn [conf set_queues local_bufs]. intros u. destruct (decide (u = t)) as [->|].
  - rewrite !lookup_insert_eq. by constructor.
  - rewrite !lookup_insert_ne by done. apply Hl.
Qed.

Lemma register_thread : ∃ qs n, ts_add 0%nat [t] (per_thread_queues s) = (qs, Ok n) ∧ queues_ok qs.
Proof using Hl.
  destruct (li_queues _ _ Hl) as (l & Hr & Hm). destruct (ts_add_plain 0%nat 10 _ l [t] Hr) as (qs & Ha & Hr'); [right; rewrite Hm; lia|].
  eexists _, _. split; [exact Ha|]. eexists. split; [exact Hr'|]. pose proof (ts_add_max_size 0%nat [t] (per_thread_queues s)) as Hq. rewrite Ha in Hq. by rewrite <-Hm.
Qed.

Lemma get_local_buf_spec :
  ∃ qs b q, get_local_buf t s = (set_queues qs b s, Ok q) ∧ b !! t = Some q ∧ fifo_rep k q cur ∧
    linv (set_queues qs b s) (<[t := cur]> loc).
Proof using Hl Hb.
  pose proof (li_bufs _ _ Hl t) as Ht. unfold get_local_buf. rewrite (mbind_ok _ _ _ _ _ eq_refl : mbind' mget _ _ = _).
  destruct (local_bufs s !! t) as [q|] eqn:Eq; inversion Ht as [? l Hr|]; subst.
  - exists (per_thread_queues s), (local_bufs s), q. split_and!; [by destruct s|done|done|]. cbn [default from_option].
    rewrite insert_id by done. by destruct s.
  - destruct (fifo_new_spec NULL (s_node_id (conf s)) (local_buf_size (conf s)) false) as (q & Hq & Hr & _); [lia|].
    destruct register_thread as (qs & n & Ha & Hqs). rewrite Hq, (mbind_ok (mlift (Ok _)) _ _ _ _ eq_refl), Ha.
    rewrite (mbind_ok (mlift (Ok _)) _ _ _ _ eq_refl). eexists qs, _, q. split; [reflexivity|].
    split_and!; [by rewrite lookup_insert_eq|done|by apply linv_insert].
Qed.

Lemma on_local_spec {A} (m : M (fifo_queue Z) A) a l' :
  (∀ q, fifo_rep k q cur → ∃ q', m q = (q', Ok a) ∧ fifo_rep k q' l') →
  ∃ qs b, on_local t m s = (set_queues qs b s, Ok a) ∧ linv (set_queues qs b s) (<[t := l']> loc).
Proof using Hl Hb.
  intros Hm. destruct get_local_buf_spec as (qs & b & q & Hg & Hbt & Hr & Hl'). destruct (Hm q Hr) as (q' & Hq & Hr').
  unfold on_local. rewrite (mbind_ok _ _ _ _ _ Hg), (mbind_ok _ _ _ _ _ eq_refl : mbind' mget _ _ = _), Hq.
  eexists qs, _. split; [reflexivity|]. split; [apply Hl'|]. cbn [conf set_queues local_bufs]. intros u. destruct (decide (u = t)) as [->|].
  - rewrite !lookup_insert_eq. by constructor.
  - rewrite !lookup_insert_ne by done. pose proof (li_bufs _ _ Hl' u) as Hu. cbn [conf set_queues local_bufs] in Hu. by rewrite lookup_insert_ne in Hu by done.
Qed.
End local.

Lemma fifo_pop_rep k (q : fifo_queue Z) x l : fifo_rep k q (x :: l) → ∃ q', pop_front q = (q', Ok x) ∧ fifo_rep k q' l.
Proof.
  intros H. destruct (readable_pop q x l (rep_read _ _ _ H)) as [Hx Hr]. unfold pop_front.
  rewrite (mbind_ok _ _ _ _ _ eq_refl : mbind' mget _ _ = _). pose proof (rd_end _ _ (rep_read _ _ _ H)) as He. cbn [length] in He.
  rewrite (proj2 (Z.ltb_lt _ _)), (mbind_ok (massert true) _ _ _ _ eq_refl), Hx, (mbind_ok (mlift (Ok _)) _ _ _ _ eq_refl) by lia.
  eexists. split; [reflexivity|]. destruct H as [H1 H2 H3 H4 H5 H6]. split; cbn [size_mask buf allocated set_start]; try done. cbn [length] in H5. lia.
Qed.
Lemma fifo_push_rep k (q : fifo_queue Z) x l :
  fifo_rep k q l → Z.of_nat (length l) < 2 ^ k → ∃ q', push_back x q = (q', Ok tt) ∧ fifo_rep k q' (l ++ [x]).
Proof.
  intros H Hl. destruct (rep_push k q l x H Hl) as (b & Hb & Hr). destruct (rep_sizes k q l H) as (Hs & _). unfold push_back.
  rewrite (mbind_ok _ _ _ _ _ eq_refl : mbind' mget _ _ = _), Hs, (mbind_ok (mlift (Ok _)) _ _ _ _ eq_refl).
  pose proof (rd_end _ _ (rep_read _ _ _ H)) as He. rewrite (proj2 (Z.ltb_lt _ _)), (mbind_ok (massert true) _ _ _ _ eq_refl), Hb, (mbind_ok (mlift (Ok _)) _ _ _ _ eq_refl) by lia.
  eexists. split; [reflexivity|done].
Qed.

(** The allocator and the threads' buffers together: [out] are the objects that
    are neither on the list nor in a buffer. *)
Record ainv (c : slab_conf) (sys_alloc : nat → Z) (s : slab) (fl : list Z) (loc : gmap nat (list Z)) (out : list Z) (fills : Z) : Prop := {
  ai_winv : winv c sys_alloc s fl (objs_of id loc ++ out) fills;
  ai_linv : linv s loc
}.

Section buffered.
Context (c : slab_conf) (sys_alloc : nat → Z) (Hc : conf_ok c) (Hs : sys_ok c sys_alloc).
Notation winv := (winv c sys_alloc).
Notation ainv := (ainv c sys_alloc).

Lemma winv_queues s fl out f qs b : winv s fl out f → winv (set_queues qs b s) fl out f.
Proof. intros []. by split. Qed.
Lemma linv_list s loc L h : linv s loc → linv (set_list L h s) loc.
Proof. intros []. by split. Qed.
Lemma linv_same s s' loc : conf s' = conf s → same_threads s s' → linv s loc → linv s' loc.
Proof. intros Hcf [E1 E2] [H1 H2]. split; [by rewrite E1|]. intros u. rewrite E2, Hcf. apply H2. Qed.

Lemma buf_fits : 0 < local_buf_size c → 0 ≤ buf_log c ∧ local_buf_size c ≤ 2 ^ buf_log c.
Proof using Hc. intros Hb. destruct Hc. unfold buf_log. destruct (round_size_spec (local_buf_size c)) as (_ & ? & ?); lia. Qed.

Lemma local_pop_spec s loc t :
  linv s loc → conf s = c → 0 < local_buf_size c →
  ∃ qs b, let s' := set_queues qs b s in
    local_pop t s = (s', Ok (head (default [] (loc !! t)))) ∧ linv s' (<[t := tail (default [] (loc !! t))]> loc).
Proof using Hc.
  intros Hl Hcf Hb. assert (0 < local_buf_size (conf s) ≤ 2 ^ 30) as Hb' by (rewrite Hcf; destruct Hc; lia).
  destruct (get_local_buf_spec s loc t Hl Hb') as (qs & b & q & Hg & Hbt & Hr & Hl'). unfold local_pop. rewrite (mbind_ok _ _ _ _ _ Hg).
  rewrite (readable_empty q _ (rep_read _ _ _ Hr)). destruct (default [] (loc !! t)) as [|o l] eqn:Ecur.
  - rewrite bool_decide_true by done. exists qs, b. done.
  - rewrite bool_decide_false by done.
    destruct (on_local_spec (set_queues qs b s) _ t Hl' Hb' pop_front o l) as (qs' & b' & Ho & Hl2).
    { intros q1. rewrite lookup_insert_eq. cbn [default from_option]. apply fifo_pop_rep. }
    rewrite (mbind_ok _ _ _ _ _ Ho). exists qs', b'. split; [done|]. rewrite insert_insert_eq in Hl2. done.
Qed.

Lemma local_refill_spec s loc t o objs :
  linv s loc → conf s = c → 0 < local_buf_size c → default [] (loc !! t) = [] → Z.of_nat (length (o :: objs)) ≤ 2 ^ buf_log c →
  ∃ qs b, let s' := set_queues qs b s in local_refill t (o :: objs) s = (s', Ok o) ∧ linv s' (<[t := objs]> loc).
Proof using Hc.
  intros Hl Hcf Hb He Hn. assert (0 < local_buf_size (conf s) ≤ 2 ^ 30) as Hb' by (rewrite Hcf; destruct Hc; lia).
  destruct (on_local_spec s loc t Hl Hb' (add (o :: objs)) (Z.of_nat (length (o :: objs))) (o :: objs)) as (qs & b & Ho & Hl1).
  { intros q Hr. rewrite He in Hr. destruct (rep_add _ _ _ (o :: objs) Hr) as (q' & Ha & Hr' & _). exists q'. rewrite Hcf in *.
    change (length []) with 0%nat in *. rewrite Z.sub_0_r in *. rewrite Z.min_l in Ha by done. split; [done|]. by rewrite take_ge in Hr' by lia. }
  unfold local_refill. rewrite (mbind_ok _ _ _ _ _ Ho), Z.eqb_refl, (mbind_ok (massert true) _ _ _ _ eq_refl).
  destruct (on_local_spec (set_queues qs b s) _ t Hl1 Hb' pop_front o objs) as (qs' & b' & Ho' & Hl2).
  { intros q1. rewrite lookup_insert_eq. cbn [default from_option]. apply fifo_pop_rep. }
  exists qs', b'. rewrite Ho'. rewrite insert_insert_eq in Hl2. done.
Qed.

Lemma local_spill_spec s loc t :
  linv s loc → conf s = c → 0 < local_buf_size c → let l := default [] (loc !! t) in
  ∃ qs b rest, let s' := set_queues qs b s in
    linv s' (<[t := rest]> loc) ∧ Z.of_nat (length rest) < 2 ^ buf_log c ∧
    ((local_spill t s = (s', Ok None) ∧ rest = l) ∨
     (∃ objs, local_spill t s = (s', Ok (Some objs)) ∧ objs ++ rest = l)).
Proof using Hc.
  intros Hl Hcf Hb l. assert (0 < local_buf_size (conf s) ≤ 2 ^ 30) as Hb' by (rewrite Hcf; destruct Hc; lia).
  destruct (get_local_buf_spec s loc t Hl Hb') as (qs & b & q & Hg & Hbt & Hr & Hl'). fold l in Hr, Hl'. unfold local_spill.
  rewrite (mbind_ok _ _ _ _ _ Hg). destruct (rep_sizes _ _ _ Hr) as (_ & _ & _ & Hf). rewrite Hf, (mbind_ok (mlift (Ok _)) _ _ _ _ eq_refl).
  rewrite (mbind_ok _ _ _ _ _ eq_refl : mbind' mget _ _ = _). cbn [conf set_queues]. pose proof (rep_len _ _ _ Hr) as Hlen. rewrite Hcf in *.
  destruct (Z.leb_spec (2 ^ buf_log c) (Z.of_nat (length l))).
  - set (n := Z.to_nat (local_buf_size c)). destruct (on_local_spec (set_queues qs b s) _ t Hl' ltac:(cbn; rewrite Hcf; lia) (fetch n) (take n l) (drop n l)) as (qs' & b' & Ho & Hl2).
    { intros q1. rewrite lookup_insert_eq. cbn [default from_option]. intros Hr1. destruct (rep_fetch _ _ _ n Hr1) as (st & Hfe & Hr2). eauto. }
    exists qs', b', (drop n l). rewrite insert_insert_eq in Hl2. split_and!; [done| |].
    + rewrite length_drop. unfold n. pose proof (pow_bounds _ (rep_k _ _ _ Hr)). lia.
    + right. exists (take n l). rewrite (mbind_ok _ _ _ _ _ Ho). split; [done|apply take_drop].
  - exists qs, b, l. split_and!; [done|lia|]. left. done.
Qed.

Lemma local_push_spec s loc t o :
  linv s loc → conf s = c → 0 < local_buf_size c → Z.of_nat (length (default [] (loc !! t))) < 2 ^ buf_log c →
  ∃ qs b, let s' := set_queues qs b s in on_local t (push_back o) s = (s', Ok tt) ∧ linv s' (<[t := default [] (loc !! t) ++ [o]]> loc).
Proof using Hc.
  intros Hl Hcf Hb Hn. assert (0 < local_buf_size (conf s) ≤ 2 ^ 30) as Hb' by (rewrite Hcf; destruct Hc; lia).
  apply (on_local_spec s loc t Hl Hb'). rewrite Hcf. intros q Hr. by apply fifo_push_rep.
Qed.

(** Moving objects between a buffer and the outside. *)
Lemma loc_update loc t l l0 : l0 ++ l ≡ₚ default [] (loc !! t) → l0 ++ objs_of id (<[t := l]> loc) ≡ₚ objs_of id loc.
Proof. intros H. apply objs_of_update. cbn. rewrite H. by destruct (loc !! t). Qed.

Lemma slab_free1_spec s fl loc out f t o :
  ainv s fl loc (o :: out) f →
  ∃ s' fl' loc', slab_free1 t o s = (s', Ok tt) ∧ ainv s' fl' loc' out f ∧ (∀ u, u ≠ t → loc' !! u = loc !! u).
Proof using Hc Hs.
  intros [Hw Hl]. pose proof (wi_conf _ _ _ _ _ _ Hw) as Hcf. unfold slab_free1. rewrite (mbind_ok _ _ _ _ _ eq_refl : mbind' mget _ _ = _), Hcf.
  destruct (Z.eqb_spec (local_buf_size c) 0).
  { apply (winv_out _ _ _ _ _ ([o] ++ objs_of id loc ++ out)) in Hw; [|solve_Permutation].
    destruct (slab_free_spec c sys_alloc Hc Hs _ _ _ _ _ Hw) as (L & h & Hf & Hw'). rewrite Hf. eexists _, _, loc. split; [reflexivity|].
    split; [|done]. split; [done|by apply linv_list]. }
  assert (0 < local_buf_size c) as Hb by (destruct Hc; lia).
  destruct (local_spill_spec s loc t Hl Hcf Hb) as (qs & b & rest & Hl1 & Hrest & Hsp).
  set (s1 := set_queues qs b s) in *. assert (∃ s2 fl2, conf s2 = c ∧ linv s2 (<[t := rest]> loc) ∧ winv s2 fl2 (o :: objs_of id (<[t := rest]> loc) ++ out) f ∧
    mbind' (local_spill t) (λ sp, match sp with Some objs => slab_free objs | None => mret tt end) s = (s2, Ok tt)) as (s2 & fl2 & Hcf2 & Hl2 & Hw2 & Hrun).
  { destruct Hsp as [[Hr ->]|(objs & Hr & Hobjs)]; rewrite (mbind_ok _ _ _ _ _ Hr).
    - exists s1, fl. split_and!; [done|done| |done]. apply winv_queues. eapply winv_out; [|exact Hw].
      rewrite <-(loc_update loc t (default [] (loc !! t)) []) by done. cbn [app]. solve_Permutation.
    - assert (winv s1 fl (objs ++ (o :: objs_of id (<[t := rest]> loc) ++ out)) f) as Hw1.
      { apply winv_queues. eapply winv_out; [|exact Hw]. rewrite <-(loc_update loc t rest objs) by (by rewrite Hobjs). solve_Permutation. }
      destruct (slab_free_spec c sys_alloc Hc Hs _ _ _ _ _ Hw1) as (L & h & Hf & Hw2). rewrite Hf. eexists _, _. split_and!; [| |exact Hw2|done]; [done|by apply linv_list]. }
  destruct (local_push_spec s2 _ t o Hl2 Hcf2 Hb) as (qs3 & b3 & Hp & Hl3); [by rewrite lookup_insert_eq|].
  rewrite lookup_insert_eq, insert_insert_eq in Hl3. cbn [default from_option id] in Hl3.
  eexists _, fl2, _. split; [|split; [split; [apply winv_queues|exact Hl3]|intros u Hu; by apply lookup_insert_ne]].
  - unfold mbind' in *. destruct (local_spill t s) as [s' [sp|e]]; [|done]. rewrite Hrun. exact Hp.
  - eapply winv_out; [|exact Hw2]. rewrite !objs_of_insert. cbn [id]. solve_Permutation.
Qed.

(** [alloc()] gives one object, or [NULL] when not even one buffer-full of them
    can be had. *)
Lemma slab_alloc1_spec s fl loc out t :
  ainv s fl loc out 0 →
  let need := if local_buf_size c =? 0 then 1 else local_buf_size c in
  ∃ s' fl' loc' o, slab_alloc1 sys_alloc t s = (s', Ok o) ∧ (∀ u, u ≠ t → loc' !! u = loc !! u) ∧
    ((o ≠ NULL ∧ ainv s' fl' loc' (o :: out) 0) ∨
     (o = NULL ∧ ainv s' fl' loc' out 0 ∧ Z.of_nat (length fl) + objs_per_buf c * growths_left s < need)).
Proof using Hc Hs.
  intros [Hw Hl] need. pose proof (wi_conf _ _ _ _ _ _ Hw) as Hcf.
  unfold slab_alloc1. rewrite (mbind_ok _ _ _ _ _ eq_refl : mbind' mget _ _ = _), Hcf.
  assert (∀ s1 o l loc1 out1 fl1, winv s1 fl1 (o :: l) 0 → o :: l ≡ₚ objs_of id loc1 ++ o :: out1 → linv s1 loc1 → o ≠ NULL ∧ ainv s1 fl1 loc1 (o :: out1) 0) as Hfin.
  { intros s1 o l loc1 out1 fl1 H1 Hp H2. split; [|split; [by eapply winv_out|done]]. eapply (winv_mapped c sys_alloc Hc Hs); [exact H1|]. set_solver. }
  unfold need. destruct (Z.eqb_spec (local_buf_size c) 0) as [|Hb0].
  - destruct (slab_alloc_post c sys_alloc Hc Hs s fl _ 1 Hw ltac:(lia)) as (s' & objs & Hrun & fl' & new & Hbf & Hw' & Ht & Ha1 & Ha2 & _).
    rewrite (mbind_ok _ _ _ _ _ Hrun). assert (linv s' loc) as Hl' by (eapply linv_same; [|done..]; by rewrite Hcf, (wi_conf _ _ _ _ _ _ Hw')).
    cbn [app] in *. exists s', fl', loc. eexists. split; [reflexivity|]. split; [done|].
    destruct (Z.le_gt_cases 1 (Z.of_nat (length fl) + objs_per_buf c * growths_left s)) as [Hle|Hgt].
    + specialize (Ha1 Hle). destruct objs as [|o []]; cbn [length] in Ha1; try lia. left. eapply Hfin; [exact Hw'| |done]. cbn. solve_Permutation.
    + right. destruct (Ha2 Hgt) as [-> _]. done.
  - assert (0 < local_buf_size c) as Hb by (destruct Hc; lia). destruct (local_pop_spec s loc t Hl Hcf Hb) as (qs & b & Hp & Hl1).
    rewrite (mbind_ok _ _ _ _ _ Hp). set (s1 := set_queues qs b s) in *. pose proof (winv_queues _ _ _ _ qs b Hw) as Hw1. fold s1 in Hw1.
    assert (∀ l u, u ≠ t → <[t := l]> loc !! u = loc !! u) as Hne by (intros; by apply lookup_insert_ne).
    destruct (default [] (loc !! t)) as [|o l] eqn:Ecur; cbn [head tail] in *.
    2:{ exists s1, fl, (<[t := l]> loc), o. split; [done|]. split; [by apply Hne|]. left. pose proof (loc_update loc t l [o]) as Hu. rewrite Ecur in Hu.
        specialize (Hu (reflexivity _)). eapply (Hfin _ _ (objs_of id (<[t := l]> loc) ++ out)); [eapply winv_out; [|exact Hw1]; rewrite <-Hu; done| |done]. cbn. solve_Permutation. }
    pose proof (loc_update loc t [] []) as Hu. rewrite Ecur in Hu. specialize (Hu (reflexivity _)). cbn [app] in Hu. set (loc1 := <[t := []]> loc) in *.
    apply (winv_out _ _ _ _ _ (objs_of id loc1 ++ out)) in Hw1; [|by rewrite Hu].
    destruct (slab_alloc_post c sys_alloc Hc Hs s1 fl _ (local_buf_size c) Hw1 Hb) as (s' & objs & Hrun & fl' & new & Hbf & Hw' & Ht & Ha1 & Ha2 & _).
    rewrite (mbind_ok _ _ _ _ _ Hrun). assert (conf s' = c) as Hcf' by apply Hw'. assert (linv s' loc1) as Hl' by (eapply linv_same; [|done..]; by rewrite Hcf'). cbn [app] in *.
    destruct (Z.le_gt_cases (local_buf_size c) (Z.of_nat (length fl) + objs_per_buf c * growths_left s)) as [Hle|Hgt].
    + specialize (Ha1 Hle). rewrite (proj2 (Z.eqb_neq _ _)) by lia. destruct objs as [|o objs]; [cbn in Ha1; lia|].
      destruct (local_refill_spec s' loc1 t o objs Hl' Hcf' Hb) as (qs2 & b2 & Hr & Hl2); [unfold loc1; by rewrite lookup_insert_eq|rewrite Ha1; by apply buf_fits|].
      rewrite Hr. eexists _, fl', (<[t := objs]> loc1), o. split; [reflexivity|]. split; [intros u Hu'; unfold loc1; by rewrite insert_insert_eq, Hne|]. left.
      eapply (Hfin _ _ (objs ++ objs_of id loc1 ++ out)); [by apply winv_queues| |exact Hl2]. unfold loc1. rewrite insert_insert_eq, !objs_of_insert. cbn. solve_Permutation.
    + destruct (Ha2 Hgt) as [-> _]. cbn [length]. exists s', fl', loc1, NULL. split; [done|]. split; [by apply Hne|]. by right.
Qed.
End buffered.

(** ** Any number of threads *)

(** Where the objects of a call of [alloc(objs, n)] go when it has them all: to the
    caller, or into the thread's buffer on behalf of [alloc()]. *)
Inductive kont := ToCaller | ToLocal.

(** A thread inside [alloc(objs, n)] that has got some of its objects: about to
    enter the first, the second or the third critical section, or to give back
    what it got.  A thread that is in no call is not in the table. *)
Inductive pc :=
  | APop (n : Z) (got : list Z) (k : kont)
  | AReserve (n : Z) (got : list Z) (k : kont)
  | AGrow (n : Z) (got : list Z) (k : kont)
  | AUndo (got : list Z).

(** [held] are the objects the clients have, whichever thread they got them from. *)
Record system := mkSys { store : slab; pcs : gmap nat pc; held : list Z }.

Inductive action := CallAlloc (n : Z) | CallFree (objs : list Z) | CallAlloc1 | CallFree1 (obj : Z) | Continue.

Definition lift_sys {A} (r : slab * res A) (k : A → slab → res system) : option (res system) :=
  Some (match r with (s, Ok a) => k a s | (_, Throw e) => Throw e end).

Section concurrent.
Context (sys_alloc : nat → Z).

(** The call has all its objects. *)
Definition finish (t : nat) (k : kont) (got : list Z) (s : slab) (y : system) : res system :=
  match k with
  | ToCaller => Ok (mkSys s (delete t (pcs y)) (got ++ held y))
  | ToLocal =>
      match local_refill t got s with
      | (s, Ok o) => Ok (mkSys s (delete t (pcs y)) (o :: held y))
      | (_, Throw e) => Throw e
      end
  end.

(** One step of a thread; [None] when the thread cannot take it.  A client asks
    for a positive number of objects, and frees only objects it has.  A section
    is one step because the code holds the lock throughout it, which it does only
    if [thread_safe] is set; an allocator without the flag is not meant to be
    shared and has no steps here (its one thread is [slab_alloc], [slab_free]). *)
Definition exec (t : nat) (a : action) (y : system) : option (res system) :=
  let s := store y in
  let goto p s := Ok (mkSys s (<[t := p]> (pcs y)) (held y)) in
  if negb (thread_safe (conf s)) then None else
  match pcs y !! t, a with
  | None, CallAlloc n => if 0 <? n then Some (goto (APop n [] ToCaller) s) else None
  | None, CallFree objs =>
      if bool_decide (NoDup objs ∧ objs ⊆ held y)
      then lift_sys (slab_free objs s) (λ _ s, Ok (mkSys s (pcs y) (list_difference (held y) objs))) else None
  | None, CallAlloc1 =>
      if local_buf_size (conf s) =? 0 then Some (goto (APop 1 [] ToCaller) s) else
      lift_sys (local_pop t s) (λ r s,
        match r with
        | Some o => Ok (mkSys s (pcs y) (o :: held y))
        | None => goto (APop (local_buf_size (conf s)) [] ToLocal) s
        end)
  | None, CallFree1 obj =>
      if bool_decide (obj ∈ held y)
      then lift_sys (slab_free1 t obj s) (λ _ s, Ok (mkSys s (pcs y) (list_difference (held y) [obj]))) else None
  | Some (APop n got k), Continue =>
      lift_sys (alloc_pop (n - Z.of_nat (length got)) s) (λ objs s,
        let got := got ++ objs in
        if Z.of_nat (length got) =? n then finish t k got s y else goto (AReserve n got k) s)
  | Some (AReserve n got k), Continue =>
      lift_sys (alloc_reserve s) (λ more s, goto (if (more : bool) then AGrow n got k else AUndo got) s)
  | Some (AGrow n got k), Continue => lift_sys (alloc_grow sys_alloc s) (λ _ s, goto (APop n got k) s)
  | Some (AUndo got), Continue => lift_sys (slab_free got s) (λ _ s, Ok (mkSys s (delete t (pcs y)) (held y)))
  | _, _ => None
  end.

(** A schedule: which thread takes which step. *)
Fixpoint run (sched : list (nat * action)) (y : system) : option (res system) :=
  match sched with
  | [] => Some (Ok y)
  | (t, a) :: sched =>
      match exec t a y with
      | Some (Ok y) => run sched y
      | r => r
      end
  end.
End concurrent.

Definition pc_objs (p : pc) : list Z :=
  match p with APop _ got _ | AReserve _ got _ | AGrow _ got _ | AUndo got => got end.
(** One entry for a thread that has reserved a buffer. *)
Definition pc_fill (p : pc) : list Z := match p with AGrow _ _ _ => [0] | _ => [] end.
Definition fills (m : gmap nat pc) : Z := Z.of_nat (length (objs_of pc_fill m)).

Definition pc_ok (c : slab_conf) (l : list Z) (p : pc) : Prop :=
  match p with
  | APop n got k | AReserve n got k | AGrow n got k =>
      Z.of_nat (length got) < n ∧ (k = ToLocal → n = local_buf_size c ∧ l = [])
  | AUndo _ => True
  end.

Section safety.
Context (c : slab_conf) (sys_alloc : nat → Z) (Hc : conf_ok c) (Hs : sys_ok c sys_alloc).
Notation ainv := (ainv c sys_alloc).

(** Every object of every buffer is in exactly one place. *)
Record sinv (y : system) (fl : list Z) (loc : gmap nat (list Z)) : Prop := {
  si_ainv : ainv (store y) fl loc (objs_of pc_objs (pcs y) ++ held y) (fills (pcs y));
  si_pcs t p : pcs y !! t = Some p → pc_ok c (default [] (loc !! t)) p
}.

(** A step that moves a thread to [p], given what it leaves of the objects. *)
Lemma sinv_goto y t p s fl loc :
  ainv s fl loc (pc_objs p ++ objs_of pc_objs (delete t (pcs y)) ++ held y) (Z.of_nat (length (pc_fill p)) + fills (delete t (pcs y))) →
  pc_ok c (default [] (loc !! t)) p →
  (∀ u q, u ≠ t → pcs y !! u = Some q → pc_ok c (default [] (loc !! u)) q) →
  sinv (mkSys s (<[t := p]> (pcs y)) (held y)) fl loc.
Proof.
  intros [Hw Hl] Hp Hr. split; cbn [store pcs held].
  - split; [|done]. assert (fills (<[t := p]> (pcs y)) = Z.of_nat (length (pc_fill p)) + fills (delete t (pcs y))) as ->.
    { unfold fills. rewrite (objs_of_insert pc_fill), length_app. lia. }
    eapply winv_out; [|exact Hw]. rewrite (objs_of_insert pc_objs). solve_Permutation.
  - intros u q. destruct (decide (u = t)) as [->|]; [rewrite lookup_insert_eq; by intros [= <-]|]. rewrite lookup_insert_ne by done. by apply Hr.
Qed.
(** A step after which the thread is in no call. *)
Lemma sinv_idle y t s fl loc hd :
  ainv s fl loc (objs_of pc_objs (delete t (pcs y)) ++ hd) (fills (delete t (pcs y))) →
  (∀ u q, u ≠ t → pcs y !! u = Some q → pc_ok c (default [] (loc !! u)) q) →
  sinv (mkSys s (delete t (pcs y)) hd) fl loc.
Proof.
  intros Ha Hr. split; cbn [store pcs held]; [done|]. intros u q. destruct (decide (u = t)) as [->|]; [by rewrite lookup_delete_eq|].
  rewrite lookup_delete_ne by done. by apply Hr.
Qed.

Lemma ainv_out s fl loc out out' f : out ≡ₚ out' → ainv s fl loc out f → ainv s fl loc out' f.
Proof. intros Hp [Hw Hl]. split; [|done]. eapply winv_out; [|exact Hw]. by rewrite Hp. Qed.
Lemma ainv_nodup s fl loc out f : ainv s fl loc out f → NoDup out.
Proof using Hc Hs. intros [Hw _]. apply (winv_nodup c sys_alloc Hc Hs) in Hw. by apply NoDup_app in Hw as (_ & _ & (_ & _ & ?)%NoDup_app). Qed.

Lemma take_held (l objs : list Z) : NoDup l → NoDup objs → objs ⊆ l → l ≡ₚ objs ++ list_difference l objs.
Proof.
  clear Hc Hs. intros Hl Ho Hsub. apply NoDup_Permutation; [done| |].
  - apply NoDup_app. split_and!; [done| |by apply NoDup_list_difference]. intros x Hx. rewrite list_elem_of_difference. naive_solver.
  - intros x. rewrite elem_of_app, list_elem_of_difference. specialize (Hsub x). destruct (decide (x ∈ objs)); naive_solver.
Qed.

(** A step taken safely. *)
Definition step_ok (r : res system) : Prop := ∃ y fl loc, r = Ok y ∧ sinv y fl loc.

(** The thread [t] seen apart from the others. *)
Lemma sinv_focus y fl loc t :
  sinv y fl loc →
  ainv (store y) fl loc (from_option pc_objs [] (pcs y !! t) ++ objs_of pc_objs (delete t (pcs y)) ++ held y)
    (Z.of_nat (length (from_option pc_fill [] (pcs y !! t))) + fills (delete t (pcs y))).
Proof.
  intros [Ha _]. assert (fills (pcs y) = Z.of_nat (length (from_option pc_fill [] (pcs y !! t))) + fills (delete t (pcs y))) as Hf.
  { unfold fills. rewrite (Permutation_length (objs_of_delete pc_fill (pcs y) t)), length_app. lia. }
  rewrite <-Hf. eapply ainv_out; [|exact Ha]. rewrite (objs_of_delete pc_objs (pcs y) t) at 1. by rewrite <-(assoc_L (++)).
Qed.
Lemma others_ok y fl loc (loc' : gmap nat (list Z)) t :
  sinv y fl loc → (∀ u, u ≠ t → loc' !! u = loc !! u) → ∀ u q, u ≠ t → pcs y !! u = Some q → pc_ok c (default [] (loc' !! u)) q.
Proof. intros [_ H] Hl u q Hu Hq. rewrite Hl by done. by apply H. Qed.

Lemma finish_ok y fl loc fl' s t k got n :
  sinv y fl loc → ainv s fl' loc (got ++ objs_of pc_objs (delete t (pcs y)) ++ held y) (fills (delete t (pcs y))) →
  (k = ToLocal → n = local_buf_size c ∧ default [] (loc !! t) = []) → Z.of_nat (length got) = n → 0 < n →
  step_ok (finish t k got s y).
Proof using Hc Hs.
  intros Hy Ha Hk Hn Hpos. unfold finish. destruct k.
  - eexists _, fl', loc. split; [reflexivity|]. apply sinv_idle; [|by eapply others_ok]. eapply ainv_out; [|exact Ha]. solve_Permutation.
  - destruct (Hk eq_refl) as [-> He]. destruct got as [|o got]; [cbn in Hn; lia|]. destruct Ha as [Hw Hl].
    destruct (local_refill_spec c Hc s loc t o got Hl) as (qs & b & Hr & Hl'); [apply Hw|lia|done|rewrite Hn; apply (buf_fits c Hc); lia|].
    rewrite Hr. eexists _, fl', _. split; [reflexivity|]. apply sinv_idle; [|eapply others_ok; [done|]; intros u Hu; by apply lookup_insert_ne].
    split; [|exact Hl']. apply winv_queues. eapply winv_out; [|exact Hw].
    rewrite (objs_of_insert id), (objs_of_delete id loc t). assert (from_option id [] (loc !! t) = []) as -> by done. cbn. solve_Permutation.
Qed.

Lemma exec_call y fl loc t a r :
  sinv y fl loc → pcs y !! t = None → exec sys_alloc t a y = Some r → step_ok r.
Proof using Hc Hs.
  intros Hy Ht. pose proof (sinv_focus _ _ _ t Hy) as Ha. rewrite Ht in Ha. cbn [from_option app length] in Ha.
  assert (Hd : delete t (pcs y) = pcs y) by (by apply delete_id).
  destruct Ha as [Hw Hl] eqn:EHa. clear EHa. pose proof (wi_conf _ _ _ _ _ _ Hw) as Hcf.
  unfold exec. destruct (negb _); [done|]. rewrite Ht. destruct a as [n|objs| |o|]; [| | | |done].
  - destruct (Z.ltb_spec 0 n); [|done]. intros [= <-]. eexists _, fl, loc. split; [reflexivity|].
    apply sinv_goto; [exact Ha|done|by eapply others_ok].
  - case_bool_decide as Hf; [|done]. destruct Hf as [Hn Hsub]. intros [= <-].
    assert (NoDup (held y)) as Hnh by (apply (ainv_nodup _ _ _ _ _) in Ha; by apply NoDup_app in Ha as (_ & _ & ?)).
    apply (winv_out _ _ _ _ _ (objs ++ objs_of id loc ++ objs_of pc_objs (delete t (pcs y)) ++ list_difference (held y) objs)) in Hw.
    2:{ rewrite (take_held (held y) objs) at 1 by done. solve_Permutation. }
    destruct (slab_free_spec c sys_alloc Hc Hs _ _ _ _ _ Hw) as (L & h & Hr & Hw'). rewrite Hr. eexists _, _, loc. split; [reflexivity|].
    rewrite <-Hd at 1. apply sinv_idle; [split; [exact Hw'|by apply linv_list]|by eapply others_ok].
  - rewrite Hcf. destruct (Z.eqb_spec (local_buf_size c) 0).
    + intros [= <-]. eexists _, fl, loc. split; [reflexivity|]. apply sinv_goto; [exact Ha|done|by eapply others_ok].
    + assert (0 < local_buf_size c) as Hb by (destruct Hc; lia). destruct (local_pop_spec c Hc _ loc t Hl Hcf Hb) as (qs & b & Hp & Hl'). rewrite Hp. cbn [lift_sys].
      intros [= <-]. assert (∀ l u, u ≠ t → <[t := l]> loc !! u = loc !! u) as Hne by (intros; by apply lookup_insert_ne).
      destruct (default [] (loc !! t)) as [|o l] eqn:Ecur; cbn [head tail] in *.
      * eexists _, fl, _. split; [reflexivity|]. cbn [conf set_queues]. rewrite Hcf. apply sinv_goto.
        -- split; [|exact Hl']. apply winv_queues. eapply winv_out; [|exact Hw]. pose proof (loc_update loc t [] []) as Hu. rewrite Ecur in Hu. specialize (Hu (reflexivity _)). cbn [app] in Hu. by rewrite Hu.
        -- rewrite lookup_insert_eq. split; [cbn; lia|done].
        -- eapply others_ok; [done|]. by apply Hne.
      * eexists _, fl, _. split; [reflexivity|]. rewrite <-Hd at 1. apply sinv_idle; [|eapply others_ok; [done|]; by apply Hne].
        split; [|exact Hl']. apply winv_queues. eapply winv_out; [|exact Hw]. pose proof (loc_update loc t l [o]) as Hu. rewrite Ecur in Hu. specialize (Hu (reflexivity _)). rewrite <-Hu. solve_Permutation.
  - case_bool_decide as Hf; [|done]. intros [= <-].
    assert (NoDup (held y)) as Hnh by (apply (ainv_nodup _ _ _ _ _) in Ha; by apply NoDup_app in Ha as (_ & _ & ?)).
    apply (ainv_out _ _ _ _ (o :: objs_of pc_objs (delete t (pcs y)) ++ list_difference (held y) [o])) in Ha.
    2:{ rewrite (take_held (held y) [o]) at 1; [solve_Permutation|done|apply NoDup_singleton|set_solver]. }
    destruct (slab_free1_spec c sys_alloc Hc Hs _ _ _ _ _ t o Ha) as (s' & fl' & loc' & Hr & Ha' & Hne). rewrite Hr.
    eexists _, _, loc'. split; [reflexivity|]. rewrite <-Hd at 1. apply sinv_idle; [exact Ha'|by eapply others_ok].
Qed.

Lemma exec_continue y fl loc t p r :
  sinv y fl loc → pcs y !! t = Some p → exec sys_alloc t Continue y = Some r → step_ok r.
Proof using Hc Hs.
  intros Hy Ht. pose proof (sinv_focus _ _ _ t Hy) as Ha. rewrite Ht in Ha. cbn [from_option] in Ha.
  pose proof (si_pcs _ _ _ Hy t p Ht) as Hp. destruct Ha as [Hw Hl]. unfold exec. destruct (negb _); [done|]. rewrite Ht.
  assert (∀ s' fl' out f, winv c sys_alloc s' fl' out f → same_threads (store y) s' → linv s' loc) as Hlin.
  { intros s' fl' out f H' Hst. eapply linv_same; [|done..]. by rewrite (wi_conf _ _ _ _ _ _ Hw), (wi_conf _ _ _ _ _ _ H'). }
  destruct p as [n got k|n got k|n got k|got]; cbn [pc_objs pc_fill length] in *; cbn [lift_sys].
  - destruct Hp as [Hn Hk]. apply (winv_out _ _ _ _ _ (got ++ objs_of id loc ++ objs_of pc_objs (delete t (pcs y)) ++ held y)) in Hw; [|solve_Permutation].
    destruct (alloc_pop_spec c sys_alloc Hc Hs _ _ _ _ (n - Z.of_nat (length got)) Hw ltac:(lia)) as (L & h & Hr & Hw'). rewrite Hr. set (objs := take _ fl) in *.
    intros [= <-]. assert (ainv (set_list L h (store y)) (drop (Z.to_nat (n - Z.of_nat (length got))) fl) loc
      ((got ++ objs) ++ objs_of pc_objs (delete t (pcs y)) ++ held y) (fills (delete t (pcs y)))) as Ha.
    { split; [|by apply linv_list]. eapply winv_out; [|exact Hw']. solve_Permutation. }
    destruct (Z.eqb_spec (Z.of_nat (length (got ++ objs))) n) as [He|He].
    + eapply finish_ok; [done|exact Ha|done|done|lia].
    + eexists _, _, loc. split; [reflexivity|]. apply sinv_goto; [exact Ha| |by eapply others_ok]. split; [|done].
      assert (length objs ≤ Z.to_nat (n - Z.of_nat (length got)))%nat by (unfold objs; rewrite length_take; lia). rewrite length_app in *. lia.
  - destruct (alloc_reserve_spec c sys_alloc Hc _ _ _ _ Hw) as [(_ & tot & Hr & Hw')|(_ & Hr)]; rewrite Hr; intros [= <-]; eexists _, fl, loc; (split; [reflexivity|]).
    + apply sinv_goto; [|done|by eapply others_ok]. cbn [pc_objs pc_fill length]. replace (Z.of_nat 1 + fills (delete t (pcs y))) with (Z.of_nat 0 + fills (delete t (pcs y)) + 1) by lia. split; [exact Hw'|by eapply Hlin].
    + apply sinv_goto; [by split|done|by eapply others_ok].
  - replace (Z.of_nat 1 + fills (delete t (pcs y))) with (fills (delete t (pcs y)) + 1) in Hw by lia. destruct (alloc_grow_spec c sys_alloc Hc Hs _ _ _ _ Hw ltac:(unfold fills; lia)) as (L & h & Hr & Hw'). rewrite Hr. intros [= <-].
    eexists _, _, loc. split; [reflexivity|]. apply sinv_goto; [|done|by eapply others_ok]. split; [exact Hw'|by eapply Hlin].
  - apply (winv_out _ _ _ _ _ (got ++ objs_of id loc ++ objs_of pc_objs (delete t (pcs y)) ++ held y)) in Hw; [|solve_Permutation].
    destruct (slab_free_spec c sys_alloc Hc Hs _ _ _ _ _ Hw) as (L & h & Hr & Hw'). rewrite Hr. intros [= <-]. eexists _, _, loc. split; [reflexivity|].
    apply sinv_idle; [|by eapply others_ok]. split; [exact Hw'|by apply linv_list].
Qed.

Lemma exec_safe y fl loc t a r : sinv y fl loc → exec sys_alloc t a y = Some r → step_ok r.
Proof using Hc Hs.
  intros Hy Hr. destruct (pcs y !! t) as [p|] eqn:Ht; [|by eapply exec_call].
  destruct a; [..|by eapply exec_continue]; unfold exec in Hr; rewrite Ht in Hr; destruct (negb _), p; done.
Qed.
Lemma run_safe sched y fl loc r : sinv y fl loc → run sys_alloc sched y = Some r → step_ok r.
Proof using Hc Hs.
  revert y fl loc. induction sched as [|[t a] sched IH]; intros y fl loc Hy; cbn [run].
  - intros [= <-]. by exists y, fl, loc.
  - destruct (exec sys_alloc t a y) as [r1|] eqn:E; [|done]. pose proof (exec_safe _ _ _ _ _ _ Hy E) as (y1 & fl1 & loc1 & -> & Hy1). by apply IH with fl1 loc1.
Qed.

(** A fresh allocator. *)
Lemma fresh_inv s : conf s = c → free_objs s = ll_new → curr_size s = 0 → alloc_bufs s = [] → sys_allocs s = 0%nat →
  queues_ok (per_thread_queues s) → local_bufs s = ∅ → sinv (mkSys s ∅ []) [] ∅.
Proof using Hc.
  intros H1 H2 H3 H4 H5 H6 H7. split; cbn [store pcs held].
  - split.
    + split; rewrite ?H1, ?H2, ?H3, ?H4, ?H5; try done.
      * apply list_rep_new.
      * by intros ? ?%elem_of_nil.
      * unfold fills, objs_of. rewrite map_to_list_empty. cbn. lia.
      * destruct Hc. lia.
    + split; [done|]. intros t. rewrite H7, !lookup_empty. constructor.
  - intros t p. by rewrite lookup_empty.
Qed.
End safety.

(** ** Theorems *)

Lemma slab_new_fresh counter name osz inc mx node init pin lbs ts tot h s :
  slab_new counter name osz inc mx node init pin lbs ts tot h = Ok s →
  free_objs s = ll_new ∧ curr_size s = 0 ∧ alloc_bufs s = [] ∧ sys_allocs s = 0%nat ∧ queues_ok (per_thread_queues s) ∧ local_bufs s = ∅.
Proof.
  unfold slab_new, ts_new. destruct (fifo_new_spec 0%nat node 1000 false ltac:(lia)) as (q & Hq & Hr & Hz). rewrite Hq. cbn [rbind].
  destruct (_ <? _); [done|]. intros [= <-]. cbn. split_and!; try done. exists []. split; [|done].
  change (Z.log2_up 1000) with 10 in Hr. split; cbn; [done|lia|lia].
Qed.

Lemma contains_slot c s x : conf_ok c → conf s = c → x ∈ all_slots c (alloc_bufs s) → contains x s = true.
Proof.
  intros Hc Hcf (b & Hb & Hx%(slots_range c Hc))%elem_of_all_slots. unfold contains. apply existsb_exists. exists b.
  split; [by apply list_elem_of_In|]. rewrite Hcf, andb_true_iff, Z.leb_le, Z.ltb_lt. lia.
Qed.

(** C9. Whatever the interleaving of the calls of any number of threads, no
    section of a fresh thread-safe allocator (constructed with [thread_safe] set,
    the only kind that takes its lock) fails, and the list, the calls in progress, the
    threads' buffers and the clients share out the objects of all buffers: no
    object is in two places and none is lost.  Every object a client has lies in
    a buffer of the allocator, and the memory in use exceeds the maximum by less
    than one buffer. *)
Theorem slab_concurrent_safe sys_alloc counter name osz inc mx node init pin lbs tot h s sched r :
  slab_new counter name osz inc mx node init pin lbs true tot h = Ok s → conf_ok (conf s) → sys_ok (conf s) sys_alloc →
  run sys_alloc sched (mkSys s ∅ []) = Some r →
  ∃ y fl loc, r = Ok y ∧ chain (mem (store y)) (ll_head (free_objs (store y))) fl ∧
    (∀ t, option_Forall2 (fifo_rep (buf_log (conf s))) (local_bufs (store y) !! t) (loc !! t)) ∧
    (let everything := fl ++ objs_of pc_objs (pcs y) ++ objs_of id loc ++ held y in
     everything ≡ₚ all_slots (conf s) (alloc_bufs (store y)) ∧ NoDup everything) ∧
    (∀ x, x ∈ held y → contains x (store y) = true) ∧
    curr_size (store y) < max_size (conf s) + increase_size (conf s).
Proof.
  intros Hn Hc Hs Hr. destruct (slab_new_fresh _ _ _ _ _ _ _ _ _ _ _ _ _ Hn) as (H1 & H2 & H3 & H4 & H5 & H6).
  pose proof (fresh_inv (conf s) sys_alloc Hc s eq_refl H1 H2 H3 H4 H5 H6) as Hi.
  destruct (run_safe _ _ Hc Hs sched _ _ _ _ Hi Hr) as (y & fl & loc & -> & [[Hw Hl] _]). pose proof (winv_nodup _ _ Hc Hs _ _ _ _ Hw) as Hd.
  pose proof (wi_conf _ _ _ _ _ _ Hw) as Hcf. assert (fl ++ objs_of pc_objs (pcs y) ++ objs_of id loc ++ held y ≡ₚ fl ++ objs_of id loc ++ objs_of pc_objs (pcs y) ++ held y) as Hp by solve_Permutation.
  exists y, fl, loc. split_and!; [done|apply Hw|intros t; rewrite <-Hcf; apply Hl| | |apply Hw].
  - cbn zeta. rewrite Hp. split; [apply Hw|done].
  - intros x Hx. apply (contains_slot (conf s)); [done|done|]. rewrite <-(wi_part _ _ _ _ _ _ Hw). set_solver.
Qed.

Definition ex_conf : slab_conf := mkConf 1024 4096 8192 0 2 true false false "ex-1".
Definition ex_sys (k : nat) : Z := 8192 * (1 + Z.of_nat k).
Definition ex_new : res slab := slab_new 0 "ex" 1024 4000 8192 0 false false 2 true 0 ∅.

Lemma ex_conf_ok : conf_ok ex_conf.
Proof. split; cbn; unfold LINK_SIZE; lia. Qed.
Lemma ex_sys_ok : sys_ok ex_conf ex_sys.
Proof.
  split; intros; unfold ex_sys, PAGE_SIZE; cbn [increase_size ex_conf].
  - split; [lia|]. replace (8192 * (1 + Z.of_nat k)) with (2 * (1 + Z.of_nat k) * 4096) by lia. apply Z.mod_mul. lia.
  - left. lia.
Qed.

(** Two threads race for the first buffer: both reserve one; thread 0 gets 5
    objects out of both, thread 1 asks for one object. *)
Definition ex_sched : list (nat * action) :=
  [(0%nat, CallAlloc 5); (1%nat, CallAlloc1); (0%nat, Continue); (1%nat, Continue); (0%nat, Continue); (1%nat, Continue);
   (1%nat, Continue); (0%nat, Continue); (1%nat, Continue); (0%nat, Continue); (1%nat, CallFree1 11264)].

Lemma slab_concurrent_safe_witness : ∃ s y, ex_new = Ok s ∧ run ex_sys ex_sched (mkSys s ∅ []) = Some (Ok y) ∧
  length (held y) = 5%nat ∧ NoDup (held y) ∧ curr_size (store y) < 8192 + 4096.
Proof.
  destruct ex_new as [s|] eqn:E; [|discriminate E]. destruct (run ex_sys ex_sched (mkSys s ∅ [])) as [r|] eqn:Er.
  2:{ exfalso. revert Er. vm_compute in E. injection E as <-. vm_compute. discriminate. }
  assert (conf s = ex_conf) as Hcf by (vm_compute in E; injection E as <-; reflexivity).
  assert (conf_ok (conf s)) as Hc by (rewrite Hcf; exact ex_conf_ok). assert (sys_ok (conf s) ex_sys) as Hs by (rewrite Hcf; exact ex_sys_ok).
  destruct (slab_concurrent_safe ex_sys 0 "ex" 1024 4000 8192 0 false false 2 0 ∅ s ex_sched r E Hc Hs Er) as (y & fl & loc & -> & _ & _ & [_ Hd] & _ & Hb).
  exists s, y. split; [reflexivity|]. split; [exact Er|]. split; [|split].
  - clear -E Er. vm_compute in E. injection E as <-. vm_compute in Er. injection Er as <-. reflexivity.
  - apply NoDup_app in Hd as (_ & _ & Hd). apply NoDup_app in Hd as (_ & _ & Hd). apply NoDup_app in Hd as (_ & _ & Hd). exact Hd.
  - rewrite Hcf in Hb. exact Hb.
Defined.

(** C10. For [n > 0], [alloc(objs, n)] by one thread always returns: with exactly
    [n] objects when the list and the buffers that may still be added have that many, and with none
    (and no buffer left to add) otherwise.  The invariant holds afterwards, with the
    objects taken off the list.  No buffer is added that was not needed.  Freeing
    the objects puts them back on the list, last one first.  (A request for no
    objects is excluded: [slab_alloc_zero_overruns] shows what it does.) *)
Theorem slab_alloc_correct c sys_alloc s fl out n :
  conf_ok c → sys_ok c sys_alloc → winv c sys_alloc s fl out 0 → 0 < n →
  let avail k := Z.of_nat (length fl) + objs_per_buf c * k in
  ∃ s' objs fl' new, slab_alloc sys_alloc n s = (s', Ok objs) ∧ alloc_bufs s' = alloc_bufs s ++ new ∧
    winv c sys_alloc s' fl' (objs ++ out) 0 ∧
    (n ≤ avail (growths_left s) → Z.of_nat (length objs) = n) ∧
    (avail (growths_left s) < n → objs = [] ∧ growths_left s' = 0) ∧
    (new = [] ∨ avail (Z.of_nat (length new) - 1) < n) ∧
    ∃ s'', slab_free objs s' = (s'', Ok tt) ∧ winv c sys_alloc s'' (rev objs ++ fl') out 0.
Proof.
  intros Hc Hs Hw Hn avail. destruct (slab_alloc_post c sys_alloc Hc Hs s fl out n Hw Hn) as (s' & objs & Hr & fl' & new & Hb & Hw' & _ & H1 & H2 & H3).
  destruct (slab_free_spec c sys_alloc Hc Hs _ _ _ _ _ Hw') as (L & h & Hf & Hw''). exists s', objs, fl', new. split_and!; try done. by eauto.
Qed.

Lemma slab_alloc_correct_witness : ∃ s, ex_new = Ok s ∧
  (∃ s' objs, slab_alloc ex_sys 6 s = (s', Ok objs) ∧ Z.of_nat (length objs) = 6) ∧
  (∃ s', slab_alloc ex_sys 9 s = (s', Ok [])).
Proof.
  destruct ex_new as [s|] eqn:E; [|discriminate E]. exists s. split; [reflexivity|].
  destruct (slab_new_fresh 0 "ex" 1024 4000 8192 0 false false 2 true 0 ∅ s E) as (H1 & H2 & H3 & H4 & H5 & H6).
  assert (conf s = ex_conf) as Hcf by (vm_compute in E; injection E as <-; reflexivity).
  pose proof (fresh_inv ex_conf ex_sys ex_conf_ok s Hcf H1 H2 H3 H4 H5 H6) as [[Hw _] _].
  assert (growths_left s = 2) as Hg by (vm_compute in E; injection E as <-; reflexivity). split.
  - destruct (slab_alloc_correct ex_conf ex_sys s [] _ 6 ex_conf_ok ex_sys_ok Hw ltac:(lia)) as (s' & objs & _ & _ & Hr & _ & _ & Ha & _).
    exists s', objs. split; [exact Hr|]. apply Ha. rewrite Hg. vm_compute. discriminate.
  - destruct (slab_alloc_correct ex_conf ex_sys s [] _ 9 ex_conf_ok ex_sys_ok Hw ltac:(lia)) as (s' & objs & _ & _ & Hr & _ & _ & _ & Ha & _).
    exists s'. rewrite Hr. f_equal. f_equal. apply Ha. rewrite Hg. vm_compute. reflexivity.
Defined.

(** Asking for no objects is not harmless: [pop(0)] returns the whole list without
    unlinking it, and the loop that stores it runs past the array of the caller. *)
Theorem slab_alloc_zero_overruns c sys_alloc s o fl out f :
  winv c sys_alloc s (o :: fl) out f → ∃ s', slab_alloc sys_alloc 0 s = (s', Throw Segfault).
Proof.
  intros H. pose proof (wi_list _ _ _ _ _ _ H) as [(Ho & Hn & _) _ Hsz _ Hm].
  assert (∃ L, ll_pop 0 (free_objs s) (mem s) = Ok (o, L, mem s)) as [L Hp].
  { unfold ll_pop. rewrite Ho, Hsz. change (Z.to_nat 0) with 0%nat. cbn [pop_loop rbind Z.eqb NULL]. rewrite s32_small by lia.
    rewrite (proj2 (Z.ltb_ge _ _)) by lia. by eexists. }
  unfold slab_alloc. cbn [alloc_loop length]. change (0 - Z.of_nat 0) with 0. unfold alloc_pop, mbind', mget, mlift, mput. rewrite Hp.
  change (Z.to_nat 0) with 0%nat. cbn [collect]. rewrite (proj2 (Z.eqb_neq _ _)) by done. by eexists.
Qed.

(** [obj_allocator::alloc_objs] returns the same pointer for all objects, and it is
    one into the array of addresses, not to an object. *)
Theorem obj_alloc_objs_aliased c sys_alloc s fl out n addrs :
  conf_ok c → sys_ok c sys_alloc → winv c sys_alloc s fl out 0 → 0 < n →
  ∃ s' l, alloc_objs sys_alloc addrs n s = (s', Ok l) ∧ l = replicate (length l) (addrs + 64).
Proof.
  intros Hc Hs Hw Hn. destruct (slab_alloc_post c sys_alloc Hc Hs s fl out n Hw Hn) as (s' & objs & Hr & _). unfold alloc_objs.
  rewrite (mbind_ok _ _ _ _ _ Hr). eexists _, _. split; [reflexivity|]. rewrite length_fmap. clear. induction objs; cbn; [done|]. by f_equal.
Qed.

(** An object of [obj_allocator] does not share a byte with another one or with a
    link, and is freed to the address it was made from. *)
Theorem obj_alloc_obj_disjoint c sys_alloc sizeof_T s fl loc out t :
  conf_ok c → sys_ok c sys_alloc → obj_size c = sizeof_T + LINK_SIZE → ainv c sys_alloc s fl loc out 0 →
  ∃ s' fl' loc' p, alloc_obj sys_alloc t s = (s', Ok p) ∧
    (p = NULL ∨ (∀ x, x ∈ fl' ++ objs_of id loc' ++ out → x + obj_size c ≤ p - LINK_SIZE ∨ p + sizeof_T ≤ x) ∧
       ∃ s'' fl'' loc'', obj_free1 t p s' = (s'', Ok tt) ∧ ainv c sys_alloc s'' fl'' loc'' out 0).
Proof.
  intros Hc Hs Hsz Ha. destruct (slab_alloc1_spec c sys_alloc Hc Hs s fl loc out t Ha) as (s' & fl' & loc' & o & Hr & _ & Hcase).
  unfold alloc_obj. rewrite (mbind_ok _ _ _ _ _ Hr). eexists s', fl', loc', _. split; [reflexivity|].
  destruct Hcase as [[Hnn Ha']|[-> _]]; [right|by left]. rewrite (proj2 (Z.eqb_neq _ _)) by done. unfold obj_free1. rewrite Z.add_simpl_r. split.
  - destruct Ha' as [Hw _]. pose proof (winv_nodup c sys_alloc Hc Hs _ _ _ _ Hw) as Hd. intros x Hx.
    assert (x ≠ o) as Hne.
    { intros ->. rewrite <-(Permutation_middle (objs_of id loc') out o), <-Permutation_middle in Hd. by apply NoDup_cons in Hd as [? _]. }
    assert (∀ z, z ∈ fl' ++ objs_of id loc' ++ o :: out → z ∈ all_slots c (alloc_bufs s')) as Hz by (intros z; by rewrite (wi_part _ _ _ _ _ _ Hw)).
    pose proof (Hz x ltac:(set_solver)) as Hx'. pose proof (Hz o ltac:(set_solver)) as Ho. clear Hz Hx Hd. rewrite (wi_bufs _ _ _ _ _ _ Hw) in Hx', Ho.
    apply elem_of_all_slots in Hx' as (bx & (kx & -> & Hkx%elem_of_seq)%list_elem_of_fmap & Hx). apply elem_of_all_slots in Ho as (bo & (ko & -> & Hko%elem_of_seq)%list_elem_of_fmap & Ho).
    pose proof (winv_allocs c sys_alloc Hc _ _ _ _ Hw) as Hal. apply elem_of_slots in Hx as (i & -> & Hi), Ho as (j & -> & Hj).
    destruct (per_buf c Hc) as [_ Hp]. assert (0 < obj_size c) by (destruct Hc; unfold LINK_SIZE in *; lia).
    assert (obj_size c * i + obj_size c ≤ increase_size c ∧ obj_size c * j + obj_size c ≤ increase_size c) as [Hbi Hbj] by nia.
    assert (0 ≤ obj_size c * i ∧ 0 ≤ obj_size c * j) as [? ?] by nia.
    destruct (lt_eq_lt_dec kx ko) as [[Hlt| ->]|Hlt].
    + destruct (so_apart _ _ Hs kx ko Hlt); lia.
    + assert (i < j ∨ j < i) as [Hij|Hij] by nia; [left|right]; nia.
    + destruct (so_apart _ _ Hs ko kx Hlt); lia.
  - destruct (slab_free1_spec c sys_alloc Hc Hs _ _ _ _ _ t o Ha') as (s'' & fl'' & loc'' & Hf & Hf' & _). by eauto 6.
Qed.
