(* ===== verification/IoRequest.v ===== *)
(** * I/O requests: [SAFS/libsafs/io_request.{h,cpp}]

    A request names a range of a file and what to do with it: a data buffer
    ([BASIC_REQ]), a list of buffers and pages ([EXT_REQ], kept in an
    [io_req_extension]) or a user task ([USER_COMPUTE]).  Pointers are addresses
    (0 for [NULL]).  The extensions live in a store indexed by their addresses,
    and an operation that may change one is a state-passing function on it.

    In a message a request is the 48 bytes of the object, little endian with the
    bit fields in the order of their declaration, possibly followed by its data;
    the buffer of the message is a list of bytes and its address a number. *)
From stdpp Require Import options gmap sorting.
From S2P Require Import Prelude SafsFile Fifo PageArray.
Open Scope Z_scope.

Definition MIN_NUM_ALLOC_IOVECS : Z := 16.
Definition NUM_EMBEDDED_IOVECS : Z := 1.
Definition MAX_INLINE_SIZE : Z := 128.
Definition MAX_FILE_SIZE : Z := 2 ^ 63 - 1.
Definition MAX_NODE_ID : Z := Z.shiftl 1 8 - 1.
Definition READ : Z := 0.
Definition WRITE : Z := 1.

(** The bit fields [int num_bufs: 16] and [int vec_capacity: 15]. *)
Definition s16f (z : Z) : Z := (z + 2 ^ 15) mod 2 ^ 16 - 2 ^ 15.
Definition s15f (z : Z) : Z := (z + 2 ^ 14) mod 2 ^ 15 - 2 ^ 14.

(** ** [io_buf]; [ib_u] is the address of the page or of the buffer. *)

Record io_buf := mkBuf { ib_u : Z; ib_size : Z; ib_is_page : bool }.
Definition io_buf_ctor : io_buf := mkBuf 0 0 false.
Definition ib_init (p size : Z) (is_page : bool) : res io_buf :=
  if is_page && negb (size =? PAGE_SIZE) then Throw AssertFailed
  else Ok (mkBuf p (size mod 2 ^ 31) is_page).
(** [init] of a page, given the reference count of the page. *)
Definition ib_init_page (p ref : Z) : res io_buf :=
  if ref <=? 0 then Throw AssertFailed else Ok (mkBuf p PAGE_SIZE true).
(** [get_buf], given the data of each page. *)
Definition ib_get_buf (page_data : Z → Z) (b : io_buf) : Z := if ib_is_page b then page_data (ib_u b) else ib_u b.
Definition ib_get_page (b : io_buf) : res Z := if ib_is_page b then Ok (ib_u b) else Throw AssertFailed.

(** ** [io_req_extension]; [vec] is the allocated array, [None] while
       [vec_pointer] is [embedded_vecs]. *)

Record io_req_extension := mkExt {
  priv : Z;
  num_bufs : Z;
  vec_capacity : Z;
  vec : option (list io_buf);
  embedded_vecs : list io_buf;
  issue_time : Z
}.

Definition vec_pointer (e : io_req_extension) : list io_buf := default (embedded_vecs e) (vec e).
Definition set_vec (l : list io_buf) (e : io_req_extension) : io_req_extension :=
  match vec e with
  | Some _ => mkExt (priv e) (num_bufs e) (vec_capacity e) (Some l) (embedded_vecs e) (issue_time e)
  | None => mkExt (priv e) (num_bufs e) (vec_capacity e) None l (issue_time e)
  end.

Definition ext_init (e : io_req_extension) : io_req_extension :=
  set_vec (replicate (Z.to_nat (vec_capacity e)) io_buf_ctor ++ drop (Z.to_nat (vec_capacity e)) (vec_pointer e))
    (mkExt 0 0 (vec_capacity e) (vec e) (embedded_vecs e) 0).
Definition ext_ctor : io_req_extension :=
  ext_init (mkExt 0 0 NUM_EMBEDDED_IOVECS None (replicate (Z.to_nat NUM_EMBEDDED_IOVECS) io_buf_ctor) 0).

(** [memcpy(dst + at, src, n)] on arrays of buffers. *)
Definition vec_copy (dst : list io_buf) (at_ : nat) (src : list io_buf) (n : nat) : res (list io_buf) :=
  if (at_ + n <=? length dst)%nat && (n <=? length src)%nat
  then Ok (take at_ dst ++ take n src ++ drop (at_ + n) dst) else Throw Segfault.
Definition vec_store (l : list io_buf) (i : Z) (b : io_buf) : res (list io_buf) :=
  if (0 <=? i) && (i <? Z.of_nat (length l)) then Ok (<[Z.to_nat i := b]> l) else Throw Segfault.

(** [init(ext)] *)
Definition ext_init_from (ext e : io_req_extension) : res io_req_extension :=
  if vec_capacity e <? vec_capacity ext then Throw AssertFailed else
  let? v := vec_copy (vec_pointer e) 0 (vec_pointer ext) (Z.to_nat (num_bufs ext)) in
  Ok (set_vec v (mkExt (priv ext) (num_bufs ext) (vec_capacity e) (vec e) (embedded_vecs e) 0)).

(** [new io_buf[n]] *)
Definition new_vec (n : Z) : res (list io_buf) :=
  if n <? 0 then Throw (runtime_error "bad_array_new_length") else Ok (replicate (Z.to_nat n) io_buf_ctor).

(** Makes the array larger and copies its contents to the position [at_]. *)
Definition ext_grow (at_ : nat) (e : io_req_extension) : res io_req_extension :=
  match vec e with
  | None =>
      let? v := new_vec MIN_NUM_ALLOC_IOVECS in
      let? v := vec_copy v at_ (embedded_vecs e) (Z.to_nat NUM_EMBEDDED_IOVECS) in
      Ok (mkExt (priv e) (num_bufs e) MIN_NUM_ALLOC_IOVECS (Some v) (embedded_vecs e) (issue_time e))
  | Some old =>
      let cap := s15f (vec_capacity e * 2) in
      let? v := new_vec cap in
      let? v := vec_copy v at_ old (Z.to_nat (cap `quot` 2)) in
      Ok (mkExt (priv e) (num_bufs e) cap (Some v) (embedded_vecs e) (issue_time e))
  end.
Definition ext_store (i : Z) (b : io_buf) (e : io_req_extension) : res io_req_extension :=
  if vec_capacity e <=? num_bufs e then Throw AssertFailed else
  let? v := vec_store (vec_pointer e) i b in
  let e := set_vec v e in
  Ok (mkExt (priv e) (s16f (num_bufs e + 1)) (vec_capacity e) (vec e) (embedded_vecs e) (issue_time e)).

Definition ext_add_io_buf (b : io_buf) (e : io_req_extension) : res io_req_extension :=
  let? e := (if vec_capacity e <=? num_bufs e then ext_grow 0 e else Ok e) in
  ext_store (num_bufs e) b e.
Definition ext_add_buf (buf size : Z) (is_page : bool) (e : io_req_extension) : res io_req_extension :=
  let? tmp := ib_init buf size is_page in ext_add_io_buf tmp e.
Definition ext_add_buf_front (buf size : Z) (is_page : bool) (e : io_req_extension) : res io_req_extension :=
  let? e := (if vec_capacity e <=? num_bufs e then ext_grow 1 e else
             let? v := vec_copy (vec_pointer e) 1 (vec_pointer e) (Z.to_nat (num_bufs e)) in Ok (set_vec v e)) in
  let? b := ib_init buf size is_page in
  ext_store 0 b e.

Definition ext_get_buf (i : Z) (e : io_req_extension) : res io_buf :=
  if i <? 0 then Throw Segfault else
  match vec_pointer e !! Z.to_nat i with Some b => Ok b | None => Throw Segfault end.
Definition sum_sizes (l : list io_buf) : Z := foldr (λ b n, ib_size b + n) 0 l.
Definition ext_get_size (e : io_req_extension) : Z := s32 (sum_sizes (take (Z.to_nat (num_bufs e)) (vec_pointer e))).

(** ** [data_loc_t] and [request_range] *)

Record data_loc_t := mkLoc { loc_file_id : Z; loc_off : Z }.
Definition INVALID_DATA_LOC : data_loc_t := mkLoc (-1) (-1).
Record request_range := mkRange { rr_loc : data_loc_t; rr_size : Z; rr_access : Z; rr_compute : Z }.
Definition request_range_ctor (loc : data_loc_t) (size access_method compute : Z) : request_range :=
  mkRange loc (size mod 2 ^ 63) (Z.land access_method 1) compute.

(** ** [io_request] *)

Definition BASIC_REQ : Z := 0.
Definition EXT_REQ : Z := 1.
Definition USER_COMPUTE : Z := 2.

Record io_request := mkReq {
  r_buf_size : Z;
  r_offset : Z;
  payload_type : Z;
  data_inline : bool;
  r_access : Z;
  r_sync : bool;
  high_prio : bool;
  low_latency : bool;
  discarded : bool;
  r_node_id : Z;
  r_file_id : Z;
  r_io : Z;
  user_data : Z;
  payload : Z
}.

Notation exts := (gmap Z io_req_extension).

Definition is_extended_req (r : io_request) : bool := payload_type r =? EXT_REQ.

(** An extension is never stored inside a message, so the branch of
    [get_extension] for that case is an error here. *)
Definition get_extension (r : io_request) : res Z :=
  if negb (is_extended_req r && negb (payload r =? 0)) then Throw AssertFailed
  else if data_inline r then Throw Segfault else Ok (payload r).
Definition find_ext (r : io_request) (h : exts) : res io_req_extension :=
  let? p := get_extension r in
  match h !! p with Some e => Ok e | None => Throw Segfault end.
Definition update_ext (r : io_request) (f : io_req_extension → res io_req_extension) (h : exts) : res exts :=
  let? e := find_ext r h in
  let? e := f e in
  Ok (<[payload r := e]> h).

Definition use_default_flags (r : io_request) : io_request :=
  mkReq (r_buf_size r) (r_offset r) (payload_type r) (data_inline r) (r_access r) false true false false
    (r_node_id r) (r_file_id r) (r_io r) (user_data r) (payload r).
Definition copy_flags (req r : io_request) : io_request :=
  mkReq (r_buf_size r) (r_offset r) (payload_type r) (data_inline r) (r_access r) (r_sync req) (high_prio req) (low_latency req)
    (discarded r) (r_node_id r) (r_file_id r) (r_io r) (user_data r) (payload r).
Definition set_sync (b : bool) (r : io_request) : io_request :=
  mkReq (r_buf_size r) (r_offset r) (payload_type r) (data_inline r) (r_access r) b (high_prio r) (low_latency r)
    (discarded r) (r_node_id r) (r_file_id r) (r_io r) (user_data r) (payload r).
Definition set_payload (p : Z) (r : io_request) : io_request :=
  mkReq (r_buf_size r) (r_offset r) (payload_type r) (data_inline r) (r_access r) (r_sync r) (high_prio r) (low_latency r)
    (discarded r) (r_node_id r) (r_file_id r) (r_io r) (user_data r) p.
Definition set_user_data (d : Z) (r : io_request) : io_request :=
  mkReq (r_buf_size r) (r_offset r) (payload_type r) (data_inline r) (r_access r) (r_sync r) (high_prio r) (low_latency r)
    (discarded r) (r_node_id r) (r_file_id r) (r_io r) d (payload r).
Definition set_data_inline (b : bool) (r : io_request) : io_request :=
  mkReq (r_buf_size r) (r_offset r) (payload_type r) b (r_access r) (r_sync r) (high_prio r) (low_latency r)
    (discarded r) (r_node_id r) (r_file_id r) (r_io r) (user_data r) (payload r).

(** [init(buf, loc, size, access_method, io, node_id)] *)
Definition req_init (buf : Z) (loc : data_loc_t) (size access_method io node_id : Z) (r : io_request) (h : exts) : res (io_request * exts) :=
  if MAX_FILE_SIZE <? loc_off loc then Throw AssertFailed else
  let? h := (if is_extended_req r then
               if negb (buf =? 0) then update_ext r (ext_add_buf buf size false) h else Ok h
             else Ok h) in
  let bsize := if is_extended_req r then r_buf_size r else u64 size in
  let pl := if is_extended_req r then payload r else if payload_type r =? BASIC_REQ then buf else 0 in
  if MAX_NODE_ID <? node_id then Throw AssertFailed else
  Ok (mkReq bsize (loc_off loc) (payload_type r) (data_inline r) (Z.land access_method 1) (r_sync r) (high_prio r) (low_latency r)
        (discarded r) (node_id mod 2 ^ 8) (loc_file_id loc) io (user_data r) pl, h).

(** The constructors.  [garbage] is the object before its construction. *)
Definition io_request_flush (sync : bool) : io_request :=
  set_sync sync (use_default_flags (mkReq 0 0 BASIC_REQ false 0 false false false false 0 0 0 0 0)).
Definition req_typed (type pl : Z) (g : io_request) : io_request :=
  mkReq (r_buf_size g) (r_offset g) type false (r_access g) (r_sync g) (high_prio g) (low_latency g) (discarded g)
    (r_node_id g) (r_file_id g) (r_io g) 0 pl.
Definition io_request_basic (garbage : io_request) (buf : Z) (loc : data_loc_t) (size access_method io node_id : Z) (sync : bool)
    (h : exts) : res (io_request * exts) :=
  let? (r, h) := req_init buf loc size access_method io node_id (req_typed BASIC_REQ (payload garbage) garbage) h in
  Ok (set_sync sync (use_default_flags r), h).
Definition io_request_ext (garbage : io_request) (ext : Z) (loc : data_loc_t) (access_method io node_id : Z)
    (h : exts) : res (io_request * exts) :=
  let? (r, h) := req_init 0 loc 0 access_method io node_id (req_typed EXT_REQ ext garbage) h in
  Ok (set_sync false (use_default_flags r), h).
Definition io_request_compute (garbage : io_request) (compute : Z) (loc : data_loc_t) (size access_method io node_id : Z)
    (h : exts) : res (io_request * exts) :=
  let? (r, h) := req_init 0 loc size access_method io node_id (req_typed USER_COMPUTE (payload garbage) garbage) h in
  Ok (set_sync false (use_default_flags (set_payload compute r)), h).

Definition req_get_size (h : exts) (r : io_request) : res Z :=
  if is_extended_req r then let? e := find_ext r h in Ok (ext_get_size e) else Ok (s64 (r_buf_size r)).
Definition req_get_num_bufs (h : exts) (r : io_request) : res Z :=
  if is_extended_req r then let? e := find_ext r h in Ok (num_bufs e) else Ok 1.
Definition req_get_buf (page_data : Z → Z) (idx : Z) (h : exts) (r : io_request) : res Z :=
  if is_extended_req r then let? e := find_ext r h in let? b := ext_get_buf idx e in Ok (ib_get_buf page_data b)
  else Ok (payload r).
Definition req_get_buf_size (idx : Z) (h : exts) (r : io_request) : res Z :=
  if is_extended_req r then let? e := find_ext r h in let? b := ext_get_buf idx e in Ok (ib_size b)
  else if idx =? 0 then Ok (s32 (r_buf_size r)) else Throw AssertFailed.
Definition req_get_page (idx : Z) (h : exts) (r : io_request) : res Z :=
  let? e := find_ext r h in let? b := ext_get_buf idx e in ib_get_page b.
Definition get_compute (r : io_request) : res Z := if payload_type r =? USER_COMPUTE then Ok (payload r) else Throw AssertFailed.
Definition req_is_empty (h : exts) (r : io_request) : res bool := let? e := find_ext r h in Ok (num_bufs e =? 0).
Definition req_is_valid (r : io_request) : bool := negb (r_offset r =? -1).
(** [get_vec]: the addresses and sizes of at most [num] buffers. *)
Fixpoint get_vec_loop (page_data : Z → Z) (e : io_req_extension) (n : nat) (i : Z) : res (list (Z * Z)) :=
  match n with
  | O => Ok []
  | S n =>
      let? b := ext_get_buf i e in
      let? l := get_vec_loop page_data e n (i + 1) in
      Ok ((ib_get_buf page_data b, ib_size b) :: l)
  end.
Definition get_vec (page_data : Z → Z) (num : Z) (h : exts) (r : io_request) : res (list (Z * Z)) :=
  let? n := req_get_num_bufs h r in
  if Z.min n num <=? 0 then Ok [] else
  let? e := find_ext r h in
  get_vec_loop page_data e (Z.to_nat (Z.min n num)) 0.

Definition req_add_buf (buf size : Z) (r : io_request) : exts → res exts := update_ext r (ext_add_buf buf size false).
Definition req_add_page (p : Z) (r : io_request) : exts → res exts := update_ext r (ext_add_buf p PAGE_SIZE true).
Definition req_add_io_buf (b : io_buf) (r : io_request) : exts → res exts := update_ext r (ext_add_io_buf b).
Definition req_add_buf_front (buf size : Z) (r : io_request) : exts → res exts := update_ext r (ext_add_buf_front buf size false).
Definition req_add_page_front (p : Z) (r : io_request) : exts → res exts := update_ext r (ext_add_buf_front p PAGE_SIZE true).

(** [init(req)] *)
Definition req_init_from (page_data : Z → Z) (req r : io_request) (h : exts) : res (io_request * exts) :=
  let loc := mkLoc (r_file_id req) (r_offset req) in
  if data_inline r then Throw AssertFailed else
  let? (r, h) :=
    (if (payload_type req =? USER_COMPUTE) || (payload_type r =? USER_COMPUTE) then
       if (payload_type req =? USER_COMPUTE) && (payload_type r =? USER_COMPUTE) then Ok (r, h) else Throw AssertFailed
     else if negb (is_extended_req req) then
       let? buf := req_get_buf page_data 0 h req in
       let? size := req_get_size h req in
       req_init buf loc size (r_access req) (r_io req) (r_node_id req) r h
     else if is_extended_req r then
       let? (r, h) := req_init 0 loc 0 (r_access req) (r_io req) (r_node_id req) r h in
       let? ext := find_ext req h in
       let? h := update_ext r (ext_init_from ext) h in
       Ok (r, h)
     else Ok (r, h)) in
  Ok (set_user_data (user_data req) (copy_flags req r), h).

(** [init()] *)
Definition req_reset (r : io_request) (h : exts) : res (io_request * exts) :=
  let r := set_data_inline false r in
  let? h := (if is_extended_req r then update_ext r (λ e, Ok (ext_init e)) h else Ok h) in
  let '(pt, pl) := if is_extended_req r then (payload_type r, payload r) else (BASIC_REQ, 0) in
  Ok (mkReq 0 0 pt false 0 false false (low_latency r) (discarded r) MAX_NODE_ID 0 0 0 pl, h).

Definition is_flush (r : io_request) : bool := r_sync r && high_prio r && (payload r =? 0).

(** *** Ranges *)

Definition within_1page (h : exts) (r : io_request) : res bool :=
  let? size := req_get_size h r in Ok (r_offset r + size <=? ROUND_PAGE (r_offset r) + PAGE_SIZE).
Definition contain_offset (off : Z) (h : exts) (r : io_request) : res bool :=
  let? size := req_get_size h r in Ok ((r_offset r <=? off) && (off <? r_offset r + size)).
(** [has_overlap] of the range [o, o + s) with [off, off + size). *)
Definition ranges_overlap (o s off size : Z) : bool :=
  ((o <=? off) && (off <? o + s)) || ((o <=? off + size) && (off + size <? o + s)) || ((off <=? o) && (o + s <=? off + size)).
Definition has_overlap (off size : Z) (h : exts) (r : io_request) : res bool :=
  let? s := req_get_size h r in Ok (ranges_overlap (r_offset r) s off size).
(** [get_overlap_size] with the page at [pg_off]. *)
Definition get_overlap_size (pg_off : Z) (h : exts) (r : io_request) : res Z :=
  let? s := req_get_size h r in
  Ok (s32 (Z.min (pg_off + PAGE_SIZE) (r_offset r + s) - Z.max pg_off (r_offset r))).
Definition get_num_covered_pages (h : exts) (r : io_request) : res Z :=
  let? s := req_get_size h r in Ok (s32 (num_covered_pages (r_offset r) s)).
Definition inside_RAID_block (block_size : Z) (h : exts) (r : io_request) : res bool :=
  let block_size_bytes := s32 (block_size * PAGE_SIZE) in
  let? s := req_get_size h r in
  Ok (ROUND (r_offset r) block_size_bytes =? ROUND (r_offset r + s - 1) block_size_bytes).

(** [extract]; the request it initialises is the last argument but one. *)
Definition extract (page_data : Z → Z) (off size : Z) (r extracted : io_request) (h : exts) : res (io_request * exts) :=
  let? n := req_get_num_bufs h r in
  if negb (n =? 1) then Throw AssertFailed else
  let? check := has_overlap off size h r in
  if negb check then Throw AssertFailed else
  let? s := req_get_size h r in
  let? buf := req_get_buf page_data 0 h r in
  let '(req_off, req_buf) := if off <=? r_offset r then (r_offset r, buf) else (off, buf + (off - r_offset r)) in
  let req_size := Z.min (off + size - req_off) (r_offset r + s - req_off) in
  req_init req_buf (mkLoc (r_file_id r) req_off) req_size (r_access r) (r_io r) (r_node_id r) extracted h.

(** *** The bytes of a request *)

Definition SIZEOF_REQ : Z := 48.
Definition SIZEOF_PAYLOAD : Z := 8.
Definition b2z (b : bool) : Z := if b then 1 else 0.

(** The word of the bit fields; [node_id] is the second byte. *)
Definition flag_word (r : io_request) : Z :=
  payload_type r + 4 * b2z (data_inline r) + 8 * r_access r + 16 * b2z (r_sync r) + 32 * b2z (high_prio r) +
  64 * b2z (low_latency r) + 128 * b2z (discarded r) + 256 * r_node_id r.
(** Everything before the payload. *)
Definition head_bytes (r : io_request) : list Z :=
  le_bytes 8 (r_buf_size r) ++ le_bytes 8 (r_offset r) ++ le_bytes 4 (flag_word r) ++ le_bytes 4 (r_file_id r) ++
  le_bytes 8 (r_io r) ++ le_bytes 8 (user_data r).
Definition req_bytes (r : io_request) : list Z := head_bytes r ++ le_bytes 8 (payload r).

Definition req_of_bytes (bs : list Z) : io_request :=
  let field o n := le_value (slice bs o n) in
  let w := field 16 4 in
  mkReq (field 0 8) (s64 (field 8 8)) (Z.land w 3) (Z.testbit w 2) (Z.land (Z.shiftr w 3) 1) (Z.testbit w 4) (Z.testbit w 5)
    (Z.testbit w 6) (Z.testbit w 7) (Z.land (Z.shiftr w 8) 255) (s32 (field 20 4)) (field 24 8) (field 32 8) (field 40 8).

Definition get_serialized_size (h : exts) (r : io_request) : res Z :=
  if payload_type r =? EXT_REQ then Ok SIZEOF_REQ
  else if payload_type r =? BASIC_REQ then
    let? s := req_get_size h r in
    if (MAX_INLINE_SIZE <? s) || (r_access r =? READ) then Ok SIZEOF_REQ
    else Ok (s32 (SIZEOF_REQ - SIZEOF_PAYLOAD + s))
  else Ok SIZEOF_REQ.

(** [serialize(buf + at, size, accept_inline)].  [data] are the bytes the request's
    buffer points to or, for a request whose data is inline, the bytes from its
    payload on. *)
Definition serialize (h : exts) (r : io_request) (data : list Z) (buf : list Z) (at_ size : Z) (accept_inline : bool) : res (Z * list Z) :=
  let check n k := if n <=? size then k else Throw AssertFailed in
  let whole := check SIZEOF_REQ (let? buf := mem_write buf at_ (req_bytes r) in Ok (SIZEOF_REQ, buf)) in
  if data_inline r then
    if negb accept_inline then Throw AssertFailed else
    let? n := get_serialized_size h r in
    check n (let? d := mem_read data 0 (n - (SIZEOF_REQ - SIZEOF_PAYLOAD)) in
             let? buf := mem_write buf at_ (head_bytes r ++ d) in Ok (n, buf))
  else if payload_type r =? EXT_REQ then whole
  else if payload_type r =? BASIC_REQ then
    let? s := req_get_size h r in
    if (MAX_INLINE_SIZE <? s) || (r_access r =? READ) || negb accept_inline then whole else
    let n := s32 (SIZEOF_REQ - SIZEOF_PAYLOAD + s) in
    check n (let? buf := mem_write buf at_ (req_bytes (set_data_inline true r)) in
             let? d := mem_read data 0 s in
             let? buf := mem_write buf (at_ + (SIZEOF_REQ - SIZEOF_PAYLOAD)) d in
             Ok (n, buf))
  else whole.

(** [deserialize(req, buf + at, size)]; [base] is the address of [buf]. *)
Definition deserialize (buf : list Z) (base at_ size : Z) : res io_request :=
  if u32 size <? SIZEOF_REQ then Throw AssertFailed else
  let? bs := mem_read buf at_ SIZEOF_REQ in
  let r := req_of_bytes bs in
  if data_inline r then
    if (payload_type r =? BASIC_REQ) || (payload_type r =? USER_COMPUTE)
    then Ok (set_data_inline false (set_payload (base + at_ + (SIZEOF_REQ - SIZEOF_PAYLOAD)) r))
    else Throw AssertFailed
  else Ok r.
(** [deserialize(buf + at, size)]: the request as it is in the buffer. *)
Definition deserialize_addr (h : exts) (buf : list Z) (at_ size : Z) : res io_request :=
  if u32 size <? SIZEOF_REQ then Throw AssertFailed else
  let? bs := mem_read buf at_ SIZEOF_REQ in
  let r := req_of_bytes bs in
  let? n := get_serialized_size h r in
  if n <=? size then Ok r else Throw AssertFailed.

(** ** [process_reqs_on_io] *)

(** [std::sort] leaves some permutation of the array in which no element is before
    a smaller one. *)
Class StdSortBy (A : Type) := {
  sort_by : (A → Z) → list A → list A;
  sort_by_perm f l : sort_by f l ≡ₚ l;
  sort_by_sorted f l : StronglySorted (λ x y, f x ≤ f y) (sort_by f l)
}.

Section process.
Context {A : Type} `{StdSortBy A} (func : A → Z).

(** The loop: [group] are the requests from [begin_idx] to [end_idx]; the result
    is the list of calls of [proc_func]. *)
Fixpoint group_loop (prev : Z) (group rest : list A) : list (Z * list A) :=
  match rest with
  | [] => [(prev, group)]
  | r :: rest =>
      if negb (func r =? prev) then (prev, group) :: group_loop (func r) [r] rest
      else group_loop prev (group ++ [r]) rest
  end.
Definition process_reqs_on_io (reqs : list A) : res (list (Z * list A)) :=
  match sort_by func reqs with
  | [] => Throw Segfault
  | r :: rest => Ok (group_loop (func r) [r] rest)
  end.
End process.

(** ** [user_compute]: what a task promises to [fetch_request(s)] *)

Class UserCompute (C : Type) := {
  has_requests : C → bool;
  get_next_request : C → C * request_range
}.

Section fetch.
Context {C : Type} `{UserCompute C} (garbage : io_request) (io node_id : Z).

(** The reference counts of the tasks named by the requests. *)
Notation refs := (gmap Z Z).
Definition inc_ref (c : Z) (m : refs) : refs := <[c := default 0 (m !! c) + 1]> m.

Definition range_request (range : request_range) (h : exts) : res (io_request * exts) :=
  io_request_compute garbage (rr_compute range) (rr_loc range) (s64 (rr_size range)) (rr_access range) io node_id h.

Definition fetch_request (c : C) (m : refs) (h : exts) : res (option io_request * C * refs) :=
  if negb (has_requests c) then Ok (None, c, m) else
  let '(c, range) := get_next_request c in
  let m := inc_ref (rr_compute range) m in
  let? (r, _) := range_request range h in
  Ok (Some r, c, m).

(** The state is the queue of requests; [n] counts down from [max_fetch]. *)
Fixpoint fetch_loop (n : nat) (c : C) (m : refs) (h : exts) (q : fifo_queue io_request) (num_issues : Z) : res (Z * C * refs * fifo_queue io_request) :=
  match n with
  | O => Ok (num_issues, c, m, q)
  | S n =>
      if negb (has_requests c) then Ok (num_issues, c, m, q) else
      let '(c, range) := get_next_request c in
      let m := inc_ref (rr_compute range) m in
      let? (r, _) := range_request range h in
      match push_back r q with
      | (q, Ok _) => fetch_loop n c m h q (num_issues + 1)
      | (_, Throw e) => Throw e
      end
  end.
Definition fetch_requests (c : C) (m : refs) (h : exts) (q : fifo_queue io_request) (max_fetch : Z) : res (Z * C * refs * fifo_queue io_request) :=
  fetch_loop (Z.to_nat max_fetch) c m h q 0.
End fetch.

(** ** The extension is a list of buffers *)

Definition MAX_BUFS : Z := 8192.

Record ext_rep (e : io_req_extension) (l : list io_buf) : Prop := {
  er_num : num_bufs e = Z.of_nat (length l);
  er_cap : vec_capacity e = Z.of_nat (length (vec_pointer e));
  er_vec : ∃ rest, vec_pointer e = l ++ rest;
  er_emb : length (embedded_vecs e) = 1%nat;
  er_shape : is_Some (vec e) → ∃ k, 0 ≤ k ≤ 9 ∧ vec_capacity e = 16 * 2 ^ k
}.

Lemma ext_rep_len e l : ext_rep e l → Z.of_nat (length l) ≤ vec_capacity e ≤ MAX_BUFS.
Proof.
  intros [_ Hc [rest Hr] He Hk]. rewrite Hc, Hr, length_app. split; [lia|]. rewrite <-length_app, <-Hr, <-Hc. unfold MAX_BUFS.
  destruct (vec e) as [v|] eqn:E.
  - destruct (Hk (mk_is_Some _ _ eq_refl)) as (k & Hk' & ->). pose proof (Z.pow_le_mono_r 2 k 9). lia.
  - rewrite Hc. unfold vec_pointer. rewrite E. cbn [default from_option]. rewrite He. lia.
Qed.

(** Positions [at_ .. at_ + |l|) of the new array hold what the old one held. *)
Lemma ext_grow_spec (at_ : nat) e l :
  (at_ ≤ 1)%nat → ext_rep e l → Z.of_nat (length l) = vec_capacity e → vec_capacity e < MAX_BUFS →
  ∃ e' pre post v, ext_grow at_ e = Ok e' ∧ vec e' = Some v ∧ v = pre ++ l ++ post ∧ length pre = at_ ∧ post ≠ [] ∧
    vec_capacity e' = Z.of_nat (length v) ∧ num_bufs e' = num_bufs e ∧ length (embedded_vecs e') = 1%nat ∧ priv e' = priv e ∧
    ∃ k, 0 ≤ k ≤ 9 ∧ vec_capacity e' = 16 * 2 ^ k.
Proof.
  intros Hat [Hn Hc [rest Hr] He Hk] Hfull Hlt. assert (rest = []) as ->.
  { apply length_zero_iff_nil. rewrite Hr, length_app in Hc. lia. }
  rewrite app_nil_r in Hr. unfold ext_grow. unfold MAX_BUFS in Hlt. destruct (vec e) as [old|] eqn:E.
  - assert (old = l) as -> by (unfold vec_pointer in Hr; by rewrite E in Hr). destruct (Hk (mk_is_Some _ _ eq_refl)) as (k & Hk' & Hcap).
    assert (k ≤ 8) as Hk8. { destruct (decide (k = 9)) as [->|]; [rewrite Hcap in Hlt; lia|lia]. }
    pose proof (Z.pow_le_mono_r 2 k 8) as Hpk. pose proof (Z.pow_pos_nonneg 2 k).
    assert (s15f (vec_capacity e * 2) = vec_capacity e * 2) as Hs by (unfold s15f; rewrite Z.mod_small; lia).
    rewrite Hs. unfold new_vec. rewrite (proj2 (Z.ltb_ge _ _)) by lia. cbn [rbind]. rewrite Z.quot_mul by lia.
    unfold vec_copy. rewrite length_replicate, (proj2 (Nat.leb_le _ _)) by lia. rewrite (proj2 (Nat.leb_le _ (length l))) by lia. cbn [rbind andb].
    eexists _, (take at_ (replicate _ io_buf_ctor)), _, _. split; [reflexivity|]. cbn [vec vec_capacity num_bufs embedded_vecs priv].
    rewrite (take_ge l) by lia. split_and!; [reflexivity|reflexivity| | | |done|done|done|].
    + rewrite length_take, length_replicate. lia.
    + intros Hz%(f_equal length). rewrite length_drop, length_replicate in Hz. cbn in Hz. lia.
    + rewrite !length_app, length_take, length_drop, length_replicate. lia.
    + exists (k + 1). rewrite Z.pow_add_r by lia. lia.
  - assert (embedded_vecs e = l) as Hl by (unfold vec_pointer in Hr; by rewrite E in Hr). unfold new_vec, MIN_NUM_ALLOC_IOVECS, NUM_EMBEDDED_IOVECS.
    cbn [rbind Z.ltb Z.compare]. unfold vec_copy. rewrite length_replicate, (proj2 (Nat.leb_le _ _)) by lia. rewrite (proj2 (Nat.leb_le _ (length (embedded_vecs e)))) by lia. cbn [rbind andb].
    eexists _, (take at_ (replicate _ io_buf_ctor)), _, _. split; [reflexivity|]. cbn [vec vec_capacity num_bufs embedded_vecs priv].
    rewrite Hl, (take_ge l) by (rewrite <-Hl, He; lia). rewrite Hl in He. split_and!; [reflexivity|reflexivity| | | |done|done|done|].
    + rewrite length_take, length_replicate. lia.
    + intros Hz%(f_equal length). rewrite length_drop, length_replicate in Hz. cbn in Hz. lia.
    + rewrite !length_app, length_take, length_drop, length_replicate, He. lia.
    + by exists 0.
Qed.

Lemma ext_grow_fails (at_ : nat) e l :
  ext_rep e l → vec_capacity e = MAX_BUFS → ext_grow at_ e = Throw (runtime_error "bad_array_new_length").
Proof.
  intros [_ Hc _ He _] Hcap. unfold ext_grow. destruct (vec e) as [old|] eqn:E; [by rewrite Hcap|].
  unfold vec_pointer in Hc. rewrite E in Hc. cbn [default from_option] in Hc. rewrite He in Hc. unfold MAX_BUFS in *. lia.
Qed.

(** Storing a buffer once there is room: at the end, or over the hole in front. *)
Lemma ext_store_spec e i b pre x post n :
  vec_pointer e = pre ++ x :: post → i = Z.of_nat (length pre) → vec_capacity e = Z.of_nat (length (vec_pointer e)) →
  num_bufs e = Z.of_nat n → Z.of_nat n < vec_capacity e ≤ MAX_BUFS → length (embedded_vecs e) = 1%nat → (is_Some (vec e) → ∃ k, 0 ≤ k ≤ 9 ∧ vec_capacity e = 16 * 2 ^ k) →
  ∃ e', ext_store i b e = Ok e' ∧ vec_pointer e' = pre ++ b :: post ∧ num_bufs e' = Z.of_nat (S n) ∧ vec_capacity e' = Z.of_nat (length (vec_pointer e')) ∧
    length (embedded_vecs e') = 1%nat ∧ priv e' = priv e ∧ (is_Some (vec e') → ∃ k, 0 ≤ k ≤ 9 ∧ vec_capacity e' = 16 * 2 ^ k).
Proof.
  intros Hv -> Hc Hn Hroom He Hk. unfold MAX_BUFS in *. unfold ext_store. rewrite (proj2 (Z.leb_gt _ _)) by lia.
  unfold vec_store. rewrite Hv, length_app. cbn [length]. rewrite (proj2 (Z.leb_le _ _)), (proj2 (Z.ltb_lt _ _)) by lia. cbn [andb rbind].
  rewrite Nat2Z.id, insert_app_r_alt, Nat.sub_diag by lia. cbn [insert list_insert].
  assert (s16f (num_bufs e + 1) = Z.of_nat (S n)) as Hs by (unfold s16f; rewrite Hn, Z.mod_small; lia).
  rewrite Hv, length_app in Hc. cbn [length] in Hc.
  unfold vec_pointer, set_vec in *. destruct (vec e) as [v|]; eexists; (split; [reflexivity|]); cbn; rewrite Hs, ?length_app; cbn [length]; split_and!; try done; try lia.
  - intros _. by apply Hk.
  - cbn in Hv. rewrite Hv, length_app in He. cbn in He. lia.
Qed.

Lemma ext_add_io_buf_spec e l b :
  ext_rep e l →
  if Z.of_nat (length l) <? MAX_BUFS
  then ∃ e', ext_add_io_buf b e = Ok e' ∧ ext_rep e' (l ++ [b]) ∧ priv e' = priv e
  else ext_add_io_buf b e = Throw (runtime_error "bad_array_new_length").
Proof.
  intros H. pose proof (ext_rep_len _ _ H) as Hlen. unfold ext_add_io_buf. rewrite (er_num _ _ H). destruct (Z.ltb_spec (Z.of_nat (length l)) MAX_BUFS) as [Hlt|Hge].
  2:{ rewrite (proj2 (Z.leb_le _ _)), (ext_grow_fails 0 e l H) by lia. done. }
  destruct (Z.leb_spec (vec_capacity e) (Z.of_nat (length l))) as [Hfull|Hroom].
  - destruct (ext_grow_spec 0 e l ltac:(lia) H) as (e1 & pre & post & v & Hg & Hv & Hve & Hpre & Hpost & Hc & Hn & He & Hp & Hk); [lia|lia|].
    rewrite Hg. cbn [rbind]. destruct pre; [|done]. destruct post as [|x post]; [done|]. cbn [app] in Hve.
    assert (vec_pointer e1 = v) as Hvp by (unfold vec_pointer; by rewrite Hv). rewrite (er_num _ _ H) in Hn.
    destruct (ext_store_spec e1 (num_bufs e1) b l x post (length l)) as (e2 & Hst & Hv2 & Hn2 & Hc2 & He2 & Hp2 & Hk2); [by rewrite Hvp|done|by rewrite Hvp|done| |done|done|].
    + rewrite Hc, Hve, length_app. cbn [length]. destruct Hk as (k & Hk & Hck). pose proof (Z.pow_le_mono_r 2 k 9). rewrite Hc, Hve, length_app in Hck. cbn [length] in Hck. unfold MAX_BUFS. lia.
    + exists e2. split; [done|]. split; [|by rewrite Hp2]. split; [rewrite length_app; cbn [length]; lia|done| |done|done]. exists post. rewrite Hv2. by rewrite <-(assoc_L (++)).
  - cbn [rbind]. destruct H as [Hn Hc [rest Hr] He Hk]. destruct rest as [|x post]; [rewrite Hc, Hr, app_nil_r in Hroom; lia|].
    destruct (ext_store_spec e (num_bufs e) b l x post (length l)) as (e2 & Hst & Hv2 & Hn2 & Hc2 & He2 & Hp2 & Hk2); [done|done|done|done|lia|done|done|].
    exists e2. split; [done|]. split; [|done]. split; [rewrite length_app; cbn [length]; lia|done| |done|done]. exists post. rewrite Hv2. by rewrite <-(assoc_L (++)).
Qed.

Lemma ext_add_buf_front_spec e l p size is_page :
  ext_rep e l →
  if Z.of_nat (length l) <? MAX_BUFS
  then match ib_init p size is_page with
       | Ok b => ∃ e', ext_add_buf_front p size is_page e = Ok e' ∧ ext_rep e' (b :: l) ∧ priv e' = priv e
       | Throw x => ext_add_buf_front p size is_page e = Throw x
       end
  else ext_add_buf_front p size is_page e = Throw (runtime_error "bad_array_new_length").
Proof.
  intros H. pose proof (ext_rep_len _ _ H) as Hlen. unfold ext_add_buf_front. rewrite (er_num _ _ H). destruct (Z.ltb_spec (Z.of_nat (length l)) MAX_BUFS) as [Hlt|Hge].
  2:{ rewrite (proj2 (Z.leb_le _ _)), (ext_grow_fails 1 e l H) by lia. done. }
  destruct (Z.leb_spec (vec_capacity e) (Z.of_nat (length l))) as [Hfull|Hroom].
  - destruct (ext_grow_spec 1 e l ltac:(lia) H) as (e1 & pre & post & v & Hg & Hv & Hve & Hpre & Hpost & Hc & Hn & He & Hp & Hk); [lia|lia|].
    rewrite Hg. cbn [rbind]. destruct pre as [|y [|]]; [done| |done]. cbn [app] in Hve. destruct (ib_init p size is_page) as [b|]; [|done]. cbn [rbind].
    assert (vec_pointer e1 = v) as Hvp by (unfold vec_pointer; by rewrite Hv). rewrite (er_num _ _ H) in Hn.
    destruct (ext_store_spec e1 0 b [] y (l ++ post) (length l)) as (e2 & Hst & Hv2 & Hn2 & Hc2 & He2 & Hp2 & Hk2); [by rewrite Hvp|done|by rewrite Hvp|done| |done|done|].
    + rewrite Hc, Hve. cbn [length]. rewrite length_app. destruct Hk as (k & Hk & Hck). pose proof (Z.pow_le_mono_r 2 k 9). rewrite Hc, Hve in Hck. cbn [length] in Hck. rewrite length_app in Hck. unfold MAX_BUFS. lia.
    + exists e2. split; [done|]. split; [|by rewrite Hp2]. split; [cbn [length]; lia|done| |done|done]. exists post. by rewrite Hv2.
  - destruct H as [Hn Hc [rest Hr] He Hk]. destruct rest as [|x post]; [rewrite Hc, Hr, app_nil_r in Hroom; lia|]. rewrite Nat2Z.id. unfold vec_copy.
    rewrite Hr, length_app. cbn [length]. rewrite (proj2 (Nat.leb_le _ _)) by lia. rewrite (proj2 (Nat.leb_le (length l) _)) by lia. cbn [rbind andb].
    rewrite take_app_length. replace (drop (1 + length l) (l ++ x :: post)) with post by (rewrite Nat.add_comm, <-drop_drop, drop_app_length; done).
    destruct (l ++ x :: post) as [|y tl] eqn:Etl; [by destruct l|]. cbn [firstn]. set (v := [y] ++ l ++ post).
    assert (length v = length (vec_pointer e)) as Hlv by (rewrite Hr, <-Etl; unfold v; cbn; rewrite !length_app; cbn; lia).
    destruct (ib_init p size is_page) as [b|]; [|done]. cbn [rbind].
    destruct (ext_store_spec (set_vec v e) 0 b [] y (l ++ post) (length l)) as (e2 & Hst & Hv2 & Hn2 & Hc2 & He2 & Hp2 & Hk2).
    + unfold vec_pointer, set_vec. by destruct (vec e).
    + done.
    + rewrite <-Hlv in Hc. unfold vec_pointer, set_vec. by destruct (vec e).
    + unfold set_vec. by destruct (vec e).
    + unfold set_vec. destruct (vec e); cbn; lia.
    + unfold vec_pointer, set_vec in *. destruct (vec e); cbn in *; [done|]. by rewrite Hlv.
    + unfold set_vec. destruct (vec e); [intros _; by apply Hk|by intros [? ?]].
    + exists e2. split; [done|]. split; [|rewrite Hp2; unfold set_vec; by destruct (vec e)]. split; [cbn [length]; lia|done| |done|done]. exists post. by rewrite Hv2.
Qed.

Lemma ext_init_spec e l : ext_rep e l → ext_rep (ext_init e) [] ∧ priv (ext_init e) = 0.
Proof.
  intros [Hn Hc Hr He Hk]. unfold ext_init. rewrite Hc, Nat2Z.id, drop_all, app_nil_r. unfold set_vec. destruct (vec e) as [v|] eqn:E; cbn [vec priv]; (split; [|done]).
  - unfold vec_pointer in *. rewrite E in *. cbn [default from_option] in *.
    split; cbn; rewrite ?length_replicate; try done; [by eexists|intros _; cbn in Hc; rewrite <-Hc; by apply Hk].
  - unfold vec_pointer in *. rewrite E in *. cbn [default from_option] in *.
    split; cbn; rewrite ?length_replicate; try done; by eexists.
Qed.

(** What the operations do to a list: it never grows beyond [MAX_BUFS]. *)
Inductive ext_op := AddIoBuf (b : io_buf) | AddBuf (p size : Z) (is_page : bool) | AddBufFront (p size : Z) (is_page : bool) | Init.
Definition ext_run (o : ext_op) (e : io_req_extension) : res io_req_extension :=
  match o with
  | AddIoBuf b => ext_add_io_buf b e
  | AddBuf p size is_page => ext_add_buf p size is_page e
  | AddBufFront p size is_page => ext_add_buf_front p size is_page e
  | Init => Ok (ext_init e)
  end.
Definition list_room (l : list io_buf) {A} (k : res A) : res A :=
  if Z.of_nat (length l) <? MAX_BUFS then k else Throw (runtime_error "bad_array_new_length").
Definition list_run (o : ext_op) (l : list io_buf) : res (list io_buf) :=
  match o with
  | AddIoBuf b => list_room l (Ok (l ++ [b]))
  | AddBuf p size is_page => let? b := ib_init p size is_page in list_room l (Ok (l ++ [b]))
  | AddBufFront p size is_page => list_room l (let? b := ib_init p size is_page in Ok (b :: l))
  | Init => Ok []
  end.
Fixpoint run_ops {St} (step : ext_op → St → res St) (ops : list ext_op) (s : St) : res St :=
  match ops with [] => Ok s | o :: ops => let? s := step o s in run_ops step ops s end.

Lemma ext_run_simulated o e l :
  ext_rep e l → match list_run o l with Ok l' => ∃ e', ext_run o e = Ok e' ∧ ext_rep e' l' | Throw x => ext_run o e = Throw x end.
Proof.
  intros H. destruct o as [b|p size pg|p size pg|]; cbn [list_run ext_run]; unfold list_room.
  - pose proof (ext_add_io_buf_spec e l b H) as Ha. destruct (_ <? _); [|done]. naive_solver.
  - unfold ext_add_buf. destruct (ib_init p size pg) as [b|]; cbn [rbind]; [|done]. pose proof (ext_add_io_buf_spec e l b H) as Ha. destruct (_ <? _); [|done]. naive_solver.
  - pose proof (ext_add_buf_front_spec e l p size pg H) as Ha. destruct (_ <? _); [|done]. destruct (ib_init p size pg); cbn [rbind]; [|done]. naive_solver.
  - eexists. split; [done|]. by apply (ext_init_spec e l).
Qed.
Lemma ext_ctor_rep : ext_rep ext_ctor [].
Proof. split; cbn; try done; by eexists. Qed.

Lemma ext_size_rep e l :
  ext_rep e l → Forall (λ b, 0 ≤ ib_size b) l → sum_sizes l < 2 ^ 31 → ext_get_size e = sum_sizes l.
Proof.
  intros [Hn Hc [rest Hr] He Hk] Hp Hs. unfold ext_get_size. rewrite Hn, Nat2Z.id, Hr, take_app_length. apply s32_small. split; [|done].
  clear -Hp. unfold sum_sizes. induction Hp; cbn; [done|]. lia.
Qed.

(** C29. Any sequence of operations on a request's extension has the result it has on
    a list of buffers, the reallocations included; the list holds 8192 buffers at
    most: growing further overflows the 15-bit capacity and the allocation fails. *)
Theorem ext_refines_list ops :
  match run_ops list_run ops [] with
  | Ok l => ∃ e, run_ops ext_run ops ext_ctor = Ok e ∧ ext_rep e l ∧ Z.of_nat (length l) ≤ MAX_BUFS
  | Throw x => run_ops ext_run ops ext_ctor = Throw x
  end.
Proof.
  pose proof ext_ctor_rep as H. revert H. generalize ext_ctor ([] : list io_buf). induction ops as [|o ops IH]; intros e l H; cbn [run_ops].
  - exists e. pose proof (ext_rep_len _ _ H). split_and!; [done|done|lia].
  - pose proof (ext_run_simulated o e l H) as Ho. destruct (list_run o l) as [l'|x]; [|by rewrite Ho]. destruct Ho as (e' & -> & H'). apply (IH e' l' H').
Qed.

Definition ex_ops : list ext_op := [AddBuf 100 512 false; AddBufFront 200 4096 true; AddIoBuf (mkBuf 300 7 false); Init; AddBufFront 400 5 false].
Example ext_refines_list_run :
  (let? e := run_ops ext_run ex_ops ext_ctor in Ok (vec_capacity e, ext_get_size e)) = Ok (16, 5).
Proof. vm_compute. reflexivity. Qed.

(** ** Ranges *)

(** A request in the simple form for a non-empty range of a file. *)
Record basic_ok (r : io_request) : Prop := {
  bo_type : payload_type r = BASIC_REQ;
  bo_off : 0 ≤ r_offset r;
  bo_size : 0 < r_buf_size r;
  bo_end : r_offset r + r_buf_size r < 2 ^ 63;
  bo_node : 0 ≤ r_node_id r ≤ MAX_NODE_ID;
  bo_access : r_access r = READ ∨ r_access r = WRITE
}.

Lemma basic_size h r : basic_ok r → req_get_size h r = Ok (r_buf_size r).
Proof.
  intros H. destruct H. unfold req_get_size, is_extended_req. rewrite bo_type0. cbn. f_equal. apply s64_small. lia.
Qed.

(** [has_overlap] also accepts a range that ends where the request begins. *)
Lemma ranges_overlap_spec o s off size :
  0 < s → 0 < size → ranges_overlap o s off size = true ↔ Z.max o off < Z.min (o + s) (off + size) ∨ off + size = o.
Proof.
  intros Hs Hz. unfold ranges_overlap. rewrite !orb_true_iff, !andb_true_iff, !Z.leb_le, !Z.ltb_lt. lia.
Qed.

Definition in_page (off size : Z) : Prop := ROUND_PAGE off = ROUND_PAGE (off + size - 1).

(** The part of [r] inside a range. *)
Definition part_of (r e : io_request) (off size : Z) : io_request :=
  let o := Z.max off (r_offset r) in
  mkReq (Z.min (off + size) (r_offset r + r_buf_size r) - o) o BASIC_REQ (data_inline e) (r_access r) (r_sync e) (high_prio e)
    (low_latency e) (discarded e) (r_node_id r) (r_file_id r) (r_io r) (user_data e) (payload r + (o - r_offset r)).

Lemma extract_spec page_data off size r e h :
  basic_ok r → payload_type e = BASIC_REQ → Z.max (r_offset r) off < Z.min (r_offset r + r_buf_size r) (off + size) → 0 < size →
  extract page_data off size r e h = Ok (part_of r e off size, h).
Proof.
  intros Hr He Ho Hz. pose proof (basic_size h r Hr) as Hs. destruct Hr. unfold extract, has_overlap. rewrite Hs.
  unfold req_get_num_bufs, req_get_buf, is_extended_req. rewrite bo_type0. cbn [rbind Z.eqb BASIC_REQ EXT_REQ negb Pos.eqb].
  rewrite (proj2 (ranges_overlap_spec _ _ _ _ bo_size0 Hz)) by (by left). cbn [negb].
  assert ((if off <=? r_offset r then (r_offset r, payload r) else (off, payload r + (off - r_offset r))) =
    (Z.max off (r_offset r), payload r + (Z.max off (r_offset r) - r_offset r))) as ->.
  { destruct (Z.leb_spec off (r_offset r)); f_equal; lia. }
  unfold req_init, is_extended_req, MAX_FILE_SIZE. rewrite He. cbn [rbind loc_off loc_file_id Z.eqb BASIC_REQ EXT_REQ].
  rewrite (proj2 (Z.ltb_ge _ _)) by lia. rewrite (proj2 (Z.ltb_ge _ _)) by lia.
  unfold part_of. do 2 f_equal. f_equal.
  - rewrite u64_small by lia. lia.
  - by destruct bo_access0 as [->| ->].
  - apply Z.mod_small. change MAX_NODE_ID with 255 in *. lia.
Qed.

(** The requests cover [off, last) one after the other, each inside a page, and
    their buffers are consecutive. *)
Fixpoint tiles (off buf last : Z) (l : list io_request) : Prop :=
  match l with
  | [] => off = last
  | x :: l => r_offset x = off ∧ payload x = buf ∧ 0 < r_buf_size x ≤ PAGE_SIZE ∧ in_page off (r_buf_size x) ∧
      tiles (off + r_buf_size x) (buf + r_buf_size x) last l
  end.

Lemma in_one_page p o n : p mod PAGE_SIZE = 0 → p ≤ o → 0 < n → o + n ≤ p + PAGE_SIZE → in_page o n.
Proof.
  unfold in_page, PAGE_SIZE. intros Hp Ho Hn Hl. rewrite !round_page. unfold PAGE_SIZE.
  assert (∀ x, p ≤ x < p + 4096 → x mod 4096 = x - p) as Hm.
  { intros x Hx. apply Z.mod_divide in Hp as [q Hq]; [|lia]. symmetry. apply (Z.mod_unique x 4096 q); lia. }
  rewrite !Hm by lia. lia.
Qed.

Lemma extract_tiles (m : nat) page_data r e h p :
  basic_ok r → payload_type e = BASIC_REQ → p mod PAGE_SIZE = 0 → p < r_offset r + r_buf_size r → r_offset r < p + PAGE_SIZE →
  let last := r_offset r + r_buf_size r in
  last ≤ p + Z.of_nat m * PAGE_SIZE → p + (Z.of_nat m - 1) * PAGE_SIZE < last →
  ∃ l, Forall2 (λ i x, extract page_data (p + i * PAGE_SIZE) PAGE_SIZE r e h = Ok (x, h)) (seqZ 0 (Z.of_nat m)) l ∧
    tiles (Z.max p (r_offset r)) (payload r + (Z.max p (r_offset r) - r_offset r)) last l ∧
    Forall (λ x, r_file_id x = r_file_id r ∧ r_io x = r_io r ∧ r_access x = r_access r ∧ r_node_id x = r_node_id r) l.
Proof.
  intros Hr He. revert p. induction m as [|m IH]; intros p Hp Hlt Hgt last Hle Hge; [unfold last in *; lia|].
  destruct Hr eqn:EHr. clear EHr. set (x := part_of r e p PAGE_SIZE).
  assert (extract page_data (p + 0 * PAGE_SIZE) PAGE_SIZE r e h = Ok (x, h)) as Hx.
  { rewrite Z.mul_0_l, Z.add_0_r. apply extract_spec; [done|done| |done]. unfold last, PAGE_SIZE in *. lia. }
  rewrite seqZ_cons by lia. destruct (decide (last ≤ p + PAGE_SIZE)) as [Hend|Hmore].
  - assert (m = 0)%nat as -> by (unfold PAGE_SIZE in *; lia). exists [x]. split_and!.
    + constructor; [done|]. constructor.
    + unfold x. cbn. split_and!; try done; try (unfold last, PAGE_SIZE in *; lia). apply (in_one_page p); [done|unfold last, PAGE_SIZE in *; lia..].
    + by repeat constructor.
  - destruct (IH (p + PAGE_SIZE)) as (l & Hl & Ht & Hf); [|fold last; lia|unfold PAGE_SIZE in *; lia|unfold last, PAGE_SIZE in *; lia|unfold last, PAGE_SIZE in *; lia|].
    { rewrite <-Z.add_mod_idemp_r, Z_mod_same_full, Z.add_0_r by done. done. }
    exists (x :: l). split_and!.
    + constructor; [done|]. replace (Z.pred (Z.of_nat (S m))) with (Z.of_nat m) by lia.
      replace (seqZ (Z.succ 0) (Z.of_nat m)) with ((λ i, i + 1) <$> seqZ 0 (Z.of_nat m)).
      2:{ change (Z.succ 0) with (1 + 0). rewrite <-fmap_add_seqZ. apply list_fmap_ext. intros; lia. }
      apply Forall2_fmap_l. eapply Forall2_impl; [exact Hl|]. cbn. intros i y Hy. replace (p + (i + 1) * PAGE_SIZE) with (p + PAGE_SIZE + i * PAGE_SIZE) by lia. done.
    + replace (Z.max (p + PAGE_SIZE) (r_offset r)) with (p + PAGE_SIZE) in Ht by (unfold PAGE_SIZE in *; lia).
      assert (r_buf_size x = p + PAGE_SIZE - Z.max p (r_offset r)) as Hsz by (unfold x; cbn; unfold last in *; lia). cbn [tiles]. rewrite Hsz.
      replace (Z.max p (r_offset r) + (p + PAGE_SIZE - Z.max p (r_offset r))) with (p + PAGE_SIZE) by lia.
      replace (payload r + (Z.max p (r_offset r) - r_offset r) + (p + PAGE_SIZE - Z.max p (r_offset r))) with (payload r + (p + PAGE_SIZE - r_offset r)) by lia.
      split_and!; [done|done|unfold PAGE_SIZE in *; lia|unfold PAGE_SIZE in *; lia| |done]. apply (in_one_page p); [done|unfold PAGE_SIZE in *; lia..].
    + by constructor.
Qed.

Lemma covered_pages off size :
  0 ≤ off → 0 < size → off + size < 2 ^ 62 →
  let n := num_covered_pages off size in
  1 ≤ n ∧ off + size ≤ ROUND_PAGE off + n * PAGE_SIZE ∧ ROUND_PAGE off + (n - 1) * PAGE_SIZE < off + size ∧ n ≤ size / PAGE_SIZE + 2.
Proof.
  intros Ho Hs Hb. unfold num_covered_pages. rewrite roundup_page, round_page. unfold PAGE_SIZE.
  pose proof (Z.div_mod off 4096). pose proof (Z.div_mod (off + size + 4096 - 1) 4096). pose proof (Z.mod_pos_bound off 4096). pose proof (Z.mod_pos_bound (off + size + 4096 - 1) 4096).
  pose proof (Z.div_mod size 4096). pose proof (Z.mod_pos_bound size 4096).
  replace (off + size + 4096 - 1 - (off + size + 4096 - 1) `mod` 4096 - (off - off `mod` 4096)) with (((off + size + 4096 - 1) / 4096 - off / 4096) * 4096) by lia.
  rewrite Z.quot_mul by lia. lia.
Qed.

(** C16. Extracting from a request the pages it covers, one after the other, cuts it
    into requests of at most a page, each within one page: they tile the range of
    the request in order, their buffers are consecutive parts of its buffer, and
    they go to the same file, I/O instance and node with the same access. *)
Theorem extract_tiles_request page_data r e h :
  basic_ok r → payload_type e = BASIC_REQ → r_buf_size r < 2 ^ 42 → r_offset r + r_buf_size r < 2 ^ 62 →
  ∃ n l, get_num_covered_pages h r = Ok n ∧
    Forall2 (λ i x, extract page_data (ROUND_PAGE (r_offset r) + i * PAGE_SIZE) PAGE_SIZE r e h = Ok (x, h)) (seqZ 0 n) l ∧
    tiles (r_offset r) (payload r) (r_offset r + r_buf_size r) l ∧
    Forall (λ x, r_file_id x = r_file_id r ∧ r_io x = r_io r ∧ r_access x = r_access r ∧ r_node_id x = r_node_id r) l.
Proof.
  intros Hr He Hs Hb. pose proof Hr as [_ Ho Hp _ _ _]. destruct (covered_pages (r_offset r) (r_buf_size r) Ho Hp Hb) as (Hn & H1 & H2 & H3).
  set (n := num_covered_pages (r_offset r) (r_buf_size r)) in *. assert (n < 2 ^ 31) as Hn'.
  { assert (r_buf_size r / PAGE_SIZE < 2 ^ 30 + 1); [|lia]. apply Z.div_lt_upper_bound; unfold PAGE_SIZE; lia. }
  assert (ROUND_PAGE (r_offset r) ≤ r_offset r < ROUND_PAGE (r_offset r) + PAGE_SIZE ∧ ROUND_PAGE (r_offset r) mod PAGE_SIZE = 0) as [Hrd Hal].
  { rewrite round_page. pose proof (Z.mod_pos_bound (r_offset r) PAGE_SIZE eq_refl). split; [lia|]. rewrite Zminus_mod_idemp_r, Z.sub_diag. done. }
  destruct (extract_tiles (Z.to_nat n) page_data r e h (ROUND_PAGE (r_offset r)) Hr He Hal) as (l & Hl & Ht & Hf); [lia|lia|rewrite Z2Nat.id by lia; done|rewrite Z2Nat.id by lia; done|].
  rewrite Z2Nat.id in Hl by lia. rewrite Z.max_r, Z.sub_diag, Z.add_0_r in Ht by lia. exists n, l. split_and!; [|done..].
  unfold get_num_covered_pages. rewrite (basic_size h r Hr). cbn [rbind]. fold n. rewrite s32_small by lia. done.
Qed.

Definition ex_req : io_request := mkReq 6000 4000 BASIC_REQ false WRITE false true false false 3 7 11 0 65536.
Lemma ex_req_ok : basic_ok ex_req.
Proof. split; cbn; unfold WRITE; try lia; try done. Qed.
Lemma extract_tiles_request_witness :
  basic_ok ex_req ∧ ∃ n l, get_num_covered_pages ∅ ex_req = Ok n ∧ n = 3 ∧ length l = 3%nat ∧ tiles 4000 65536 10000 l.
Proof.
  split; [exact ex_req_ok|].
  destruct (extract_tiles_request (λ _, 0) ex_req (io_request_flush false) ∅ ex_req_ok eq_refl ltac:(cbn; lia) ltac:(cbn; lia)) as (n & l & Hn & Hl & Ht & _).
  exists n, l. split; [exact Hn|]. assert (n = 3) as E by (vm_compute in Hn; injection Hn as <-; reflexivity). split; [exact E|].
  split; [|exact Ht]. apply Forall2_length in Hl. rewrite <-Hl, E. reflexivity.
Defined.

(** ** A request survives a message *)

Record req_wf (r : io_request) : Prop := {
  rw_size : 0 ≤ r_buf_size r < 2 ^ 64;
  rw_off : - 2 ^ 63 ≤ r_offset r < 2 ^ 63;
  rw_type : payload_type r = BASIC_REQ ∨ payload_type r = EXT_REQ ∨ payload_type r = USER_COMPUTE;
  rw_access : r_access r = READ ∨ r_access r = WRITE;
  rw_node : 0 ≤ r_node_id r < 2 ^ 8;
  rw_file : - 2 ^ 31 ≤ r_file_id r < 2 ^ 31;
  rw_io : 0 ≤ r_io r < 2 ^ 64;
  rw_user : 0 ≤ user_data r < 2 ^ 64;
  rw_payload : 0 ≤ payload r < 2 ^ 64
}.

Lemma signed_mod k z : 0 < k → - 2 ^ (k - 1) ≤ z < 2 ^ (k - 1) → (z mod 2 ^ k + 2 ^ (k - 1)) mod 2 ^ k - 2 ^ (k - 1) = z.
Proof.
  intros Hk Hz. assert (2 ^ k = 2 * 2 ^ (k - 1)) as E by (rewrite <-Z.pow_succ_r by lia; f_equal; lia).
  rewrite Z.add_mod_idemp_l by lia. rewrite Z.mod_small; lia.
Qed.

(** The low byte of the flags, apart from the node. *)
Definition low_flags (r : io_request) : Z :=
  payload_type r + 4 * b2z (data_inline r) + 8 * r_access r + 16 * b2z (r_sync r) + 32 * b2z (high_prio r) +
  64 * b2z (low_latency r) + 128 * b2z (discarded r).

Lemma low_flags_decode r : req_wf r →
  0 ≤ low_flags r < 2 ^ 8 ∧ Z.land (low_flags r) 3 = payload_type r ∧ Z.testbit (low_flags r) 2 = data_inline r ∧
  Z.land (Z.shiftr (low_flags r) 3) 1 = r_access r ∧ Z.testbit (low_flags r) 4 = r_sync r ∧ Z.testbit (low_flags r) 5 = high_prio r ∧
  Z.testbit (low_flags r) 6 = low_latency r ∧ Z.testbit (low_flags r) 7 = discarded r.
Proof.
  intros H. pose proof (rw_type _ H) as Ht. pose proof (rw_access _ H) as Ha. unfold low_flags.
  destruct Ht as [->|[->| ->]], Ha as [->| ->], (data_inline r), (r_sync r), (high_prio r), (low_latency r), (discarded r); vm_compute; by split_and!.
Qed.

Lemma flag_word_decode r : req_wf r → let w := flag_word r in
  0 ≤ w < 2 ^ 32 ∧ Z.land w 3 = payload_type r ∧ Z.testbit w 2 = data_inline r ∧
  Z.land (Z.shiftr w 3) 1 = r_access r ∧ Z.testbit w 4 = r_sync r ∧ Z.testbit w 5 = high_prio r ∧
  Z.testbit w 6 = low_latency r ∧ Z.testbit w 7 = discarded r ∧ Z.land (Z.shiftr w 8) 255 = r_node_id r.
Proof.
  intros H w. destruct (low_flags_decode r H) as (Hl & H1 & H2 & H3 & H4 & H5 & H6 & H7). pose proof (rw_node _ H) as Hn.
  assert (w = low_flags r + r_node_id r * 2 ^ 8) as Hw by (unfold w, flag_word, low_flags; lia).
  assert (w mod 2 ^ 8 = low_flags r) as Hm by (rewrite Hw, Z_mod_plus_full; apply Z.mod_small; done).
  assert (∀ i, 0 ≤ i < 8 → Z.testbit w i = Z.testbit (low_flags r) i) as Hb by (intros i Hi; rewrite <-Hm, Z.mod_pow2_bits_low by lia; done).
  split_and!; [lia|lia| | | | | | | |].
  - rewrite <-H1. apply Z.bits_inj'. intros i Hi. rewrite !Z.land_spec. destruct (decide (i < 8)) as [|Hge]; [by rewrite Hb by lia|].
    replace (Z.testbit 3 i) with false; [by rewrite !andb_false_r|]. symmetry. apply Z.bits_above_log2; [lia|]. change (Z.log2 3) with 1. lia.
  - by rewrite Hb by lia.
  - rewrite <-H3. apply Z.bits_inj'. intros i Hi. rewrite !Z.land_spec, !Z.shiftr_spec by lia. destruct (decide (i = 0)) as [->|Hne]; [by rewrite Hb by lia|].
    replace (Z.testbit 1 i) with false; [by rewrite !andb_false_r|]. symmetry. apply Z.bits_above_log2; [lia|]. change (Z.log2 1) with 0. lia.
  - by rewrite Hb by lia.
  - by rewrite Hb by lia.
  - by rewrite Hb by lia.
  - by rewrite Hb by lia.
  - change 255 with (Z.ones 8). rewrite Z.land_ones, Z.shiftr_div_pow2, Hw, Z.div_add by lia. rewrite (Z.div_small (low_flags r)) by lia. rewrite Z.add_0_l. apply Z.mod_small. lia.
Qed.

Lemma length_le_bytes n z : length (le_bytes n z) = n.
Proof. revert z. induction n as [|n IH]; intros z; cbn; [done|]. by rewrite IH. Qed.
Lemma length_head_bytes r : length (head_bytes r) = 40%nat.
Proof. unfold head_bytes. rewrite !length_app, !length_le_bytes. done. Qed.
Lemma length_req_bytes r : length (req_bytes r) = 48%nat.
Proof. unfold req_bytes. by rewrite length_app, length_head_bytes, length_le_bytes. Qed.

Lemma slice_here a b n : n = Z.of_nat (length a) → slice (a ++ b) 0 n = a.
Proof. intros ->. unfold slice. by rewrite Nat2Z.id, drop_0, take_app_length. Qed.
Lemma slice_skip a b o n : Z.of_nat (length a) ≤ o → slice (a ++ b) o n = slice b (o - Z.of_nat (length a)) n.
Proof. intros Ho. rewrite <-(slice_shift a b (o - Z.of_nat (length a)) n) by lia. f_equal. lia. Qed.

Lemma head_fields r p : length p = 8%nat → let bs := head_bytes r ++ p in
  slice bs 0 8 = le_bytes 8 (r_buf_size r) ∧ slice bs 8 8 = le_bytes 8 (r_offset r) ∧ slice bs 16 4 = le_bytes 4 (flag_word r) ∧
  slice bs 20 4 = le_bytes 4 (r_file_id r) ∧ slice bs 24 8 = le_bytes 8 (r_io r) ∧ slice bs 32 8 = le_bytes 8 (user_data r) ∧ slice bs 40 8 = p.
Proof.
  intros Hp bs. unfold bs, head_bytes. rewrite <-!(assoc_L (++)).
  split_and!; repeat (rewrite slice_skip by (rewrite length_le_bytes; lia); rewrite length_le_bytes); cbn [Z.sub Z.of_nat]; try (apply slice_here; by rewrite length_le_bytes).
  unfold slice. cbn. by rewrite take_ge by (rewrite drop_0; lia).
Qed.

(** What is read back: the request, with the payload that follows the header. *)
Lemma req_of_head r p : req_wf r → length p = 8%nat → req_of_bytes (head_bytes r ++ p) = set_payload (le_value p) r.
Proof.
  intros H Hp. unfold req_of_bytes. destruct (head_fields r p Hp) as (E1 & E2 & E3 & E4 & E5 & E6 & E7). rewrite E1, E2, E3, E4, E5, E6, E7.
  rewrite !le_value_bytes. destruct (flag_word_decode r H) as (Hw & F1 & F2 & F3 & F4 & F5 & F6 & F7 & F8).
  change (256 ^ Z.of_nat 8) with (2 ^ 64). change (256 ^ Z.of_nat 4) with (2 ^ 32). rewrite (Z.mod_small (flag_word r)) by done. rewrite F1, F2, F3, F4, F5, F6, F7, F8.
  destruct H. unfold set_payload, s64, s32. rewrite (Z.mod_small (r_buf_size r)), (Z.mod_small (r_io r)), (Z.mod_small (user_data r)) by done.
  pose proof (signed_mod 64 (r_offset r) ltac:(lia)) as G1. pose proof (signed_mod 32 (r_file_id r) ltac:(lia)) as G2.
  change (64 - 1) with 63 in G1. change (32 - 1) with 31 in G2. by rewrite G1, G2.
Qed.
Lemma req_of_req_bytes r : req_wf r → req_of_bytes (req_bytes r) = r.
Proof.
  intros H. unfold req_bytes. rewrite req_of_head by (done || apply length_le_bytes). rewrite le_value_bytes. change (256 ^ Z.of_nat 8) with (2 ^ 64).
  rewrite Z.mod_small by apply H. by destruct r.
Qed.

(** Is the data of the request copied into the message? *)
Definition inlined (r : io_request) (accept_inline : bool) : bool :=
  (payload_type r =? BASIC_REQ) && negb ((MAX_INLINE_SIZE <? r_buf_size r) || (r_access r =? READ)) && accept_inline.
Definition wire_size (r : io_request) (accept_inline : bool) : Z :=
  if inlined r accept_inline then SIZEOF_REQ - SIZEOF_PAYLOAD + r_buf_size r else SIZEOF_REQ.

Lemma mem_write_ok buf a bs :
  0 ≤ a → a + Z.of_nat (length bs) ≤ Z.of_nat (length buf) →
  mem_write buf a bs = Ok (take (Z.to_nat a) buf ++ bs ++ drop (Z.to_nat a + length bs) buf).
Proof. intros Ha Hl. unfold mem_write. by rewrite (proj2 (Z.leb_le _ _)), (proj2 (Z.leb_le _ _)) by lia. Qed.
Lemma mem_read_at buf a bs tl n :
  0 ≤ a ≤ Z.of_nat (length buf) → n = Z.of_nat (length bs) → mem_read (take (Z.to_nat a) buf ++ bs ++ tl) a n = Ok bs.
Proof.
  intros Ha ->. unfold mem_read. rewrite !length_app, length_take, !(proj2 (Z.leb_le _ _)) by lia. cbn [andb]. f_equal.
  rewrite slice_skip by (rewrite length_take; lia). rewrite length_take. replace (a - Z.of_nat (Z.to_nat a `min` length buf)) with 0 by lia. by apply slice_here.
Qed.

(** The buffer after a serialization: a header and what follows it. *)
Lemma serialize_shape h r data buf at_ size acc :
  req_wf r → data_inline r = false → (payload_type r = BASIC_REQ → r_buf_size r < 2 ^ 63) →
  (inlined r acc = true → r_buf_size r ≤ Z.of_nat (length data)) →
  0 ≤ at_ → SIZEOF_REQ ≤ size → wire_size r acc ≤ size → at_ + size ≤ Z.of_nat (length buf) →
  let inl := inlined r acc in
  let body := if inl then slice data 0 (r_buf_size r) else le_bytes 8 (payload r) in
  ∃ tl, let buf' := take (Z.to_nat at_) buf ++ head_bytes (set_data_inline inl r) ++ body ++ tl in
    serialize h r data buf at_ size acc = Ok (wire_size r acc, buf') ∧ length buf' = length buf ∧
    (∀ i, at_ + Z.max SIZEOF_REQ (wire_size r acc) ≤ Z.of_nat i → buf' !! i = buf !! i).
Proof.
  intros Hw Hi Hbs Hdata Ha H48 Hn Hroom inl body. unfold wire_size in *. fold inl in Hn, Hdata |- *. unfold SIZEOF_REQ, SIZEOF_PAYLOAD in *.
  destruct inl eqn:Einl; unfold inl, inlined in Einl.
  - apply andb_true_iff in Einl as [Einl ->]. apply andb_true_iff in Einl as [Ety Esm]. apply Z.eqb_eq in Ety. specialize (Hbs Ety).
    assert (r_buf_size r ≤ 128) as H128.
    { apply negb_true_iff, orb_false_iff in Esm as [E _]. apply Z.ltb_ge in E. exact E. }
    pose proof (rw_size _ Hw) as [Hs0 _]. unfold serialize. rewrite Hi. unfold req_get_size, is_extended_req. rewrite Ety. cbn [Z.eqb BASIC_REQ EXT_REQ rbind].
    rewrite s64_small by lia. apply negb_true_iff in Esm. rewrite Esm. cbn [orb negb]. rewrite s32_small by (unfold SIZEOF_REQ, SIZEOF_PAYLOAD; lia).
    rewrite (proj2 (Z.leb_le _ size)) by (unfold SIZEOF_REQ, SIZEOF_PAYLOAD; lia). set (r1 := set_data_inline true r).
    rewrite mem_write_ok by (rewrite ?length_req_bytes; lia). cbn [rbind]. rewrite length_req_bytes.
    unfold mem_read. rewrite (proj2 (Z.leb_le _ _)), (proj2 (Z.leb_le _ _)), (proj2 (Z.leb_le _ _)) by (specialize (Hdata eq_refl); lia). cbn [andb rbind].
    pose proof (length_slice data 0 (r_buf_size r) ltac:(lia) ltac:(lia) ltac:(specialize (Hdata eq_refl); lia)) as Hsl.
    set (buf1 := take (Z.to_nat at_) buf ++ req_bytes r1 ++ drop (Z.to_nat at_ + 48) buf).
    assert (length buf1 = length buf) as Hl1 by (unfold buf1; rewrite !length_app, length_take, length_drop, length_req_bytes; lia).
    rewrite mem_write_ok by (rewrite ?Hl1, ?Hsl; unfold SIZEOF_REQ, SIZEOF_PAYLOAD; lia). cbn [rbind].
    exists (drop (Z.to_nat (at_ + (48 - 8)) + length (slice data 0 (r_buf_size r))) buf1).
    assert (take (Z.to_nat (at_ + (48 - 8))) buf1 = take (Z.to_nat at_) buf ++ head_bytes r1) as Htk.
    { unfold buf1. replace (Z.to_nat (at_ + (48 - 8))) with (length (take (Z.to_nat at_) buf ++ head_bytes r1)) by (rewrite length_app, length_take, length_head_bytes; lia).
      unfold req_bytes. rewrite <-!(assoc_L (++)), (assoc_L (++) (take _ _)), take_app_length. done. }
    unfold SIZEOF_REQ, SIZEOF_PAYLOAD. rewrite Htk, <-!(assoc_L (++)). unfold body. split; [done|].
    assert (length (slice data 0 (r_buf_size r)) = Z.to_nat (r_buf_size r)) as Hsn by lia. split.
    + rewrite !length_app, length_take, length_drop, length_head_bytes, Hl1, Hsn. lia.
    + intros i Hi'. rewrite (assoc_L (++) (take _ _)), (assoc_L (++) (take _ _ ++ _)).
      rewrite lookup_app_r by (rewrite !length_app, length_take, length_head_bytes, Hsn; lia). rewrite lookup_drop, !length_app, length_take, length_head_bytes, Hsn.
      replace (_ + _)%nat with i by lia. unfold buf1. rewrite (assoc_L (++)), lookup_app_r by (rewrite length_app, length_take, length_req_bytes; lia).
      rewrite lookup_drop, length_app, length_take, length_req_bytes. f_equal. lia.
  - assert (serialize h r data buf at_ size acc = (let? buf := mem_write buf at_ (req_bytes r) in Ok (SIZEOF_REQ, buf))) as ->.
    { unfold serialize. rewrite Hi, (proj2 (Z.leb_le _ size)) by (unfold SIZEOF_REQ; lia). destruct (payload_type r =? EXT_REQ) eqn:Eext; [done|].
      destruct (payload_type r =? BASIC_REQ) eqn:Ebas; [|done]. cbn [andb] in Einl. apply Z.eqb_eq in Ebas. unfold req_get_size, is_extended_req. rewrite Eext. cbn [rbind].
      pose proof (rw_size _ Hw). specialize (Hbs Ebas). rewrite s64_small by lia. apply andb_false_iff in Einl as [Einl| ->]; [|by rewrite orb_true_r]. apply negb_false_iff in Einl. by rewrite Einl. }
    rewrite mem_write_ok by (rewrite ?length_req_bytes; lia). cbn [rbind]. rewrite length_req_bytes. exists (drop (Z.to_nat at_ + 48) buf).
    assert (set_data_inline false r = r) as -> by (destruct r; cbn in *; by subst). unfold body, req_bytes. rewrite <-(assoc_L (++)). split; [done|]. split.
    + rewrite !length_app, length_take, length_drop, length_head_bytes, length_le_bytes. lia.
    + intros i Hi'. rewrite (assoc_L (++) (head_bytes r)), (assoc_L (++) (take _ _)).
      rewrite lookup_app_r by (rewrite !length_app, length_take, length_head_bytes, length_le_bytes; lia). rewrite lookup_drop, !length_app, length_take, length_head_bytes, length_le_bytes. f_equal. lia.
Qed.

Lemma wf_inline b r : req_wf r → req_wf (set_data_inline b r).
Proof. intros []. by split. Qed.

(** Reading the 48 bytes at the place of a header. *)
Lemma read_header buf a r body tl :
  0 ≤ a ≤ Z.of_nat (length buf) → (8 ≤ length (body ++ tl))%nat →
  ∃ p, length p = 8%nat ∧ mem_read (take (Z.to_nat a) buf ++ head_bytes r ++ body ++ tl) a SIZEOF_REQ = Ok (head_bytes r ++ p) ∧
    ((8 ≤ length body)%nat → p = take 8 body).
Proof.
  intros Ha Hl. exists (take 8 (body ++ tl)). split; [by rewrite length_take_le|]. split; [|intros; by rewrite take_app_le].
  rewrite <-(take_drop 8 (body ++ tl)) at 1. rewrite (assoc_L (++) (head_bytes r)). apply mem_read_at; [done|].
  by rewrite length_app, length_head_bytes, length_take_le.
Qed.

Lemma serialize_deserialize h r data buf at_ size acc base :
  req_wf r → data_inline r = false → (payload_type r = BASIC_REQ → r_buf_size r < 2 ^ 63) →
  (inlined r acc = true → r_buf_size r ≤ Z.of_nat (length data)) →
  0 ≤ at_ → SIZEOF_REQ ≤ size < 2 ^ 31 → wire_size r acc ≤ size → at_ + size ≤ Z.of_nat (length buf) →
  ∃ buf', serialize h r data buf at_ size acc = Ok (wire_size r acc, buf') ∧ length buf' = length buf ∧
    deserialize buf' base at_ size = Ok (if inlined r acc then set_payload (base + at_ + (SIZEOF_REQ - SIZEOF_PAYLOAD)) r else r) ∧
    (inlined r acc = true → slice buf' (at_ + (SIZEOF_REQ - SIZEOF_PAYLOAD)) (r_buf_size r) = slice data 0 (r_buf_size r)) ∧
    (∀ i, Z.of_nat i < at_ ∨ at_ + Z.max SIZEOF_REQ (wire_size r acc) ≤ Z.of_nat i → buf' !! i = buf !! i).
Proof.
  intros Hw Hi Hbs Hdata Ha H48 Hn Hroom. destruct (serialize_shape h r data buf at_ size acc Hw Hi Hbs Hdata Ha ltac:(lia) Hn Hroom) as (tl & Hs & Hl & Hfr).
  set (inl := inlined r acc) in *. set (body := if inl then _ else _) in *. eexists. split; [exact Hs|]. split; [done|].
  assert (Z.of_nat (length (take (Z.to_nat at_) buf)) = at_) as Hpre by (rewrite length_take; unfold SIZEOF_REQ in *; lia).
  assert (8 ≤ length (body ++ tl))%nat as H8.
  { pose proof Hl as Hl'. rewrite (length_app (take (Z.to_nat at_) buf)), (length_app (head_bytes _)), length_head_bytes in Hl'. unfold SIZEOF_REQ in *. lia. }
  destruct (read_header buf at_ (set_data_inline inl r) body tl) as (p & Hp & Hrd & Hp'); [rewrite <-Hpre, length_take in *; lia|done|].
  split_and!.
  - unfold deserialize. rewrite u32_small, (proj2 (Z.ltb_ge _ _)), Hrd by (unfold SIZEOF_REQ in *; lia). cbn [rbind]. rewrite req_of_head by (done || by apply wf_inline).
    cbn [data_inline set_payload set_data_inline payload_type]. destruct inl eqn:Einl.
    + unfold inl, inlined in Einl. apply andb_true_iff in Einl as [Einl _]. apply andb_true_iff in Einl as [Ety _]. rewrite Ety. cbn [orb].
      f_equal. destruct r. cbn in *. by subst.
    + f_equal. rewrite Hp' by (unfold body; by rewrite length_le_bytes). unfold body. rewrite take_ge by (by rewrite length_le_bytes).
      rewrite le_value_bytes. change (256 ^ Z.of_nat 8) with (2 ^ 64). rewrite Z.mod_small by apply Hw. destruct r. cbn in *. by subst.
  - intros Einl. specialize (Hdata Einl). unfold body. rewrite Einl. pose proof (rw_size _ Hw). unfold SIZEOF_REQ, SIZEOF_PAYLOAD. rewrite slice_skip by lia.
    rewrite slice_skip by (rewrite length_head_bytes; lia). rewrite Hpre, length_head_bytes. replace (at_ + (48 - 8) - at_ - Z.of_nat 40) with 0 by lia.
    apply slice_here. by rewrite length_slice by lia.
  - intros i [Hlt|Hge]; [|by apply Hfr]. rewrite lookup_app_l by lia. apply lookup_take_lt. lia.
Qed.

(** C15. A request serialized into a message buffer with room for it is read back as
    it was; a small write also carries its data, and the request read back points
    to the copy in the buffer.  The bytes before it and after the 48 bytes of a
    request (or its data, where that is longer) are left alone, and when inline
    data is accepted [get_serialized_size] is the number of bytes it advances by. *)
Theorem serialize_roundtrip h r data buf at_ size acc base :
  req_wf r → data_inline r = false → (payload_type r = BASIC_REQ → r_buf_size r < 2 ^ 63) →
  (inlined r acc = true → r_buf_size r ≤ Z.of_nat (length data)) →
  0 ≤ at_ → SIZEOF_REQ ≤ size < 2 ^ 31 → wire_size r acc ≤ size → at_ + size ≤ Z.of_nat (length buf) →
  ∃ buf', serialize h r data buf at_ size acc = Ok (wire_size r acc, buf') ∧ length buf' = length buf ∧
    deserialize buf' base at_ size = Ok (if inlined r acc then set_payload (base + at_ + (SIZEOF_REQ - SIZEOF_PAYLOAD)) r else r) ∧
    (inlined r acc = true → slice buf' (at_ + (SIZEOF_REQ - SIZEOF_PAYLOAD)) (r_buf_size r) = slice data 0 (r_buf_size r)) ∧
    (∀ i, Z.of_nat i < at_ ∨ at_ + Z.max SIZEOF_REQ (wire_size r acc) ≤ Z.of_nat i → buf' !! i = buf !! i) ∧
    (acc = true → get_serialized_size h r = Ok (wire_size r acc)).
Proof.
  intros Hw Hi Hbs Hdata Ha H48 Hn Hroom. destruct (serialize_deserialize h r data buf at_ size acc base Hw Hi Hbs Hdata Ha H48 Hn Hroom) as (buf' & H1 & H2 & H3 & H4 & H5).
  exists buf'. split_and!; try done. intros ->. unfold get_serialized_size, wire_size, inlined. pose proof (rw_size _ Hw).
  destruct (rw_type _ Hw) as [E|[E|E]]; rewrite E; cbn [Z.eqb BASIC_REQ EXT_REQ USER_COMPUTE andb Pos.eqb]; [|done|done].
  unfold req_get_size, is_extended_req. rewrite E. cbn [Z.eqb BASIC_REQ EXT_REQ rbind]. specialize (Hbs E). rewrite s64_small, andb_true_r by lia.
  destruct (Z.ltb_spec MAX_INLINE_SIZE (r_buf_size r)) as [|Hs]; cbn [orb negb]; [done|]. destruct (_ =? READ); cbn [negb]; [done|]. rewrite s32_small; [done|]. unfold SIZEOF_REQ, SIZEOF_PAYLOAD, MAX_INLINE_SIZE in *. lia.
Qed.

Definition ex_small : io_request := mkReq 10 4000 BASIC_REQ false WRITE false true false false 3 7 11 0 65536.
Lemma ex_small_write_wf : req_wf ex_small.
Proof. split; cbn; unfold BASIC_REQ, EXT_REQ, USER_COMPUTE, READ, WRITE; lia. Qed.
Lemma serialize_roundtrip_witness : ∃ buf', let data := seqZ 0 10 in
  serialize ∅ ex_small data (replicate 200 0) 7 100 true = Ok (50, buf') ∧
  deserialize buf' 5000 7 100 = Ok (set_payload 5047 ex_small) ∧ slice buf' 47 10 = data.
Proof.
  destruct (serialize_roundtrip ∅ ex_small (seqZ 0 10) (replicate 200 0) 7 100 true 5000 ex_small_write_wf eq_refl) as (buf' & H1 & _ & H2 & H3 & _).
  - intros _. reflexivity.
  - intros _. vm_compute. discriminate.
  - lia.
  - unfold SIZEOF_REQ. lia.
  - vm_compute. discriminate.
  - vm_compute. discriminate.
  - exists buf'. split; [exact H1|]. split; [exact H2|]. etransitivity; [exact (H3 eq_refl)|vm_compute; reflexivity].
Defined.

(** A write of less than 8 bytes is announced with fewer than 48 bytes, but the whole
    object is copied first: given the room it asked for at the end of a buffer, it
    is written past the end. *)
Theorem serialize_small_overruns h r data buf at_ :
  req_wf r → data_inline r = false → inlined r true = true → r_buf_size r < SIZEOF_PAYLOAD →
  0 ≤ at_ → at_ + wire_size r true = Z.of_nat (length buf) →
  get_serialized_size h r = Ok (wire_size r true) ∧ serialize h r data buf at_ (wire_size r true) true = Throw Segfault.
Proof.
  intros Hw Hi Hinl Hs Ha Hl. unfold wire_size in *. rewrite Hinl in *. unfold inlined in Hinl. rewrite andb_true_r in Hinl. apply andb_true_iff in Hinl as [Ety Esm].
  apply Z.eqb_eq in Ety. apply negb_true_iff in Esm. pose proof (rw_size _ Hw). unfold SIZEOF_REQ, SIZEOF_PAYLOAD in *.
  unfold serialize, get_serialized_size, req_get_size, is_extended_req. rewrite Hi, Ety. cbn [Z.eqb BASIC_REQ EXT_REQ rbind]. rewrite s64_small, Esm, s32_small by (unfold SIZEOF_REQ, SIZEOF_PAYLOAD; lia).
  split; [done|]. cbn [orb negb]. rewrite Z.leb_refl. unfold mem_write. rewrite length_req_bytes, (proj2 (Z.leb_gt _ (Z.of_nat (length buf)))), andb_false_r by lia. done.
Qed.

(** ** Grouping and fetching *)

Section grouping.
Context {A : Type} `{StdSortBy A} (func : A → Z).

(** The requests of a call belong to its I/O instance, and the instances of the
    calls increase: each instance is called once. *)
Definition calls_ok (calls : list (Z * list A)) : Prop :=
  Forall (λ c, c.2 ≠ [] ∧ Forall (λ r, func r = c.1) c.2) calls ∧ StronglySorted Z.lt calls.*1.

Lemma group_loop_ok prev g rest :
  g ≠ [] → Forall (λ r, func r = prev) g → StronglySorted (λ x y, func x ≤ func y) rest → Forall (λ r, prev ≤ func r) rest →
  let calls := group_loop func prev g rest in
  calls_ok calls ∧ concat calls.*2 = g ++ rest ∧ head calls.*1 = Some prev.
Proof.
  revert prev g. induction rest as [|r rest IH]; intros prev g Hne Hg Hs Hle; cbn [group_loop].
  - split_and!; [|cbn; by rewrite !app_nil_r|done]. split; [by repeat constructor|]. repeat constructor.
  - apply Forall_cons in Hle as [Hr Hle]. apply StronglySorted_inv in Hs as [Hs Hall]. destruct (Z.eqb_spec (func r) prev) as [<-|Hn]; cbn [negb].
    + destruct (IH (func r) (g ++ [r])) as (H1 & H2 & H3); [by destruct g|apply Forall_app; auto|done|done|]. split_and!; [done| |done]. rewrite H2. by rewrite <-(assoc_L (++)).
    + destruct (IH (func r) [r]) as ([H1 H1'] & H2 & H3); [done|by constructor|done|done|]. set (calls := group_loop func (func r) [r] rest) in *. split_and!; [|cbn; by rewrite H2|done].
      split; [by constructor|]. cbn [fmap list_fmap]. constructor; [done|]. destruct (calls.*1) as [|x xs] eqn:Ex; [done|]. injection H3 as ->.
      apply StronglySorted_inv in H1' as [_ Hx]. cbn [fst]; constructor; [lia|]. eapply Forall_impl; [exact Hx|]. cbn. lia.
Qed.

(** C30. [process_reqs_on_io] calls the function once for every I/O instance that has
    a request, with exactly the requests of that instance, and hands over every
    request exactly once.  It must not be called without requests: it reads the
    first one. *)
Theorem process_reqs_on_io_groups reqs :
  match reqs with
  | [] => process_reqs_on_io func reqs = Throw Segfault
  | _ => ∃ calls, process_reqs_on_io func reqs = Ok calls ∧ calls_ok calls ∧ concat calls.*2 ≡ₚ reqs ∧
           (∀ io, io ∈ calls.*1 ↔ io ∈ func <$> reqs)
  end.
Proof using All.
  pose proof (sort_by_perm func reqs) as Hp. pose proof (sort_by_sorted func reqs) as Hs. unfold process_reqs_on_io.
  destruct reqs as [|q reqs]; [by apply Permutation_nil_r in Hp as ->|]. destruct (sort_by func (q :: reqs)) as [|r rest] eqn:E; [by apply Permutation_nil_l in Hp|].
  apply StronglySorted_inv in Hs as [Hs Hall]. destruct (group_loop_ok (func r) [r] rest) as (H1 & H2 & _); [done|by constructor|done|done|].
  set (calls := group_loop func (func r) [r] rest) in *. assert (concat calls.*2 ≡ₚ q :: reqs) as Hc by (by rewrite H2, <-Hp).
  exists calls. split_and!; [done|done|done|]. intros io. rewrite <-Hc. destruct H1 as [Hg _]. clear -Hg. induction Hg as [|c calls [Hne Hf] Hg IH]; [done|]. cbn [fmap list_fmap concat].
  rewrite fmap_app, elem_of_cons, elem_of_app. rewrite IH. apply or_iff_compat_r. split.
  - intros ->. destruct (c.2) as [|x l]; [done|]. apply Forall_cons in Hf as [<- _]. by left.
  - intros (x & -> & Hx)%list_elem_of_fmap. rewrite Forall_forall in Hf. by apply Hf.
Qed.
End grouping.

(** Insertion sort is such a sort. *)
Definition isort_by {A} (f : A → Z) (l : list A) : list A := foldr (ins_by (λ x y, f x <? f y)) [] l.
Lemma isort_by_sorted {A} (f : A → Z) l : StronglySorted (λ x y, f x ≤ f y) (isort_by f l).
Proof.
  induction l as [|x l IH]; cbn; [constructor|]. fold (isort_by f l). revert IH. generalize (isort_by f l). clear l. intros l. induction l as [|y l IH]; intros Hs; cbn.
  - repeat constructor.
  - apply StronglySorted_inv in Hs as [Hs Hy]. destruct (Z.ltb_spec (f x) (f y)) as [Hlt|Hge].
    + constructor; [by constructor|]. constructor; [lia|]. eapply Forall_impl; [exact Hy|]. cbn. lia.
    + constructor; [by apply IH|]. rewrite ins_by_perm. constructor; [lia|done].
Qed.
#[export] Program Instance isort_StdSortBy {A} : StdSortBy A := {| sort_by := isort_by |}.
Next Obligation. intros A f l. induction l as [|x l IH]; cbn; [done|]. by rewrite ins_by_perm, IH. Qed.
Next Obligation. intros. apply isort_by_sorted. Qed.

Example process_reqs_run :
  process_reqs_on_io (λ x : Z * Z, x.1) [(2, 0); (1, 1); (2, 2)] = Ok [(1, [(1, 1)]); (2, [(2, 2); (2, 0)])].
Proof. reflexivity. Qed.

Section fetching.
Context {C : Type} `{UserCompute C} (garbage : io_request) (io node_id : Z).

(** The ranges the task gives out, at most [n]. *)
Fixpoint next_ranges (n : nat) (c : C) : list request_range * C :=
  match n with
  | O => ([], c)
  | S n => if has_requests c then let '(c, r) := get_next_request c in let '(l, c) := next_ranges n c in (r :: l, c) else ([], c)
  end.
Definition compute_request (range : request_range) : io_request :=
  mkReq (u64 (s64 (rr_size range))) (loc_off (rr_loc range)) USER_COMPUTE false (Z.land (rr_access range) 1) false true false false
    (node_id mod 2 ^ 8) (loc_file_id (rr_loc range)) io 0 (rr_compute range).

Lemma range_request_spec range h :
  loc_off (rr_loc range) ≤ MAX_FILE_SIZE → node_id ≤ MAX_NODE_ID → range_request garbage io node_id range h = Ok (compute_request range, h).
Proof using.
  intros Ho Hn. unfold range_request, io_request_compute, req_init, is_extended_req. cbn [payload_type req_typed Z.eqb USER_COMPUTE EXT_REQ rbind Pos.eqb].
  rewrite (proj2 (Z.ltb_ge MAX_FILE_SIZE _)), (proj2 (Z.ltb_ge MAX_NODE_ID _)) by done. done.
Qed.

(** [fetch_requests] queues a request for every range the task gives out, in
    order, up to [max_fetch], and counts a reference for each. *)
Theorem fetch_requests_spec (c : C) m h q k l max_fetch :
  fifo_rep k q l → node_id ≤ MAX_NODE_ID →
  let '(ranges, c') := next_ranges (Z.to_nat max_fetch) c in
  Forall (λ r, loc_off (rr_loc r) ≤ MAX_FILE_SIZE) ranges → Z.of_nat (length l) + Z.of_nat (length ranges) ≤ 2 ^ k →
  ∃ q', fetch_requests garbage io node_id c m h q max_fetch =
      Ok (Z.of_nat (length ranges), c', foldl (λ m r, inc_ref (rr_compute r) m) m ranges, q') ∧
    fifo_rep k q' (l ++ (compute_request <$> ranges)).
Proof using All.
  intros Hq Hn. unfold fetch_requests. generalize (Z.to_nat max_fetch). intros n.
  enough (∀ a, let '(ranges, c') := next_ranges n c in
    Forall (λ r, loc_off (rr_loc r) ≤ MAX_FILE_SIZE) ranges → Z.of_nat (length l) + Z.of_nat (length ranges) ≤ 2 ^ k →
    ∃ q', fetch_loop garbage io node_id n c m h q a =
        Ok (a + Z.of_nat (length ranges), c', foldl (λ m r, inc_ref (rr_compute r) m) m ranges, q') ∧
      fifo_rep k q' (l ++ (compute_request <$> ranges))) as Hgen by apply (Hgen 0).
  revert c m q l Hq. induction n as [|n IH]; intros c m q l Hq a; cbn [next_ranges fetch_loop].
  { intros _ _. exists q. cbn. by rewrite Z.add_0_r, app_nil_r. }
  destruct (has_requests c); cbn [negb]; [|intros _ _; exists q; cbn; by rewrite Z.add_0_r, app_nil_r].
  destruct (get_next_request c) as [c1 r]. pose proof (IH c1 (inc_ref (rr_compute r) m)) as IH'. destruct (next_ranges n c1) as [ranges c'].
  intros [Hr Hrs]%Forall_cons Hroom. cbn [length] in Hroom. rewrite range_request_spec by done. cbn [rbind].
  destruct (rep_push k q l (compute_request r) Hq ltac:(lia)) as (b & Hb & Hrep). destruct (rep_sizes k q l Hq) as (Hsz & _).
  assert (push_back (compute_request r) q = (set_end b (end_ q + 1) q, Ok tt)) as ->.
  { unfold push_back. rewrite (mbind_ok _ _ _ _ _ eq_refl : mbind' mget _ _ = _), Hsz, (mbind_ok (mlift (Ok _)) _ _ _ _ eq_refl).
    pose proof (rd_end _ _ (rep_read _ _ _ Hq)) as He. rewrite (proj2 (Z.ltb_lt _ _)), (mbind_ok (massert true) _ _ _ _ eq_refl), Hb, (mbind_ok (mlift (Ok _)) _ _ _ _ eq_refl) by lia. done. }
  destruct (IH' _ _ Hrep (a + 1) Hrs) as (q' & Hrun & Hq'); [rewrite length_app; cbn [length]; lia|]. exists q'. rewrite Hrun. split.
  - cbn [length foldl]. do 4 f_equal. lia.
  - cbn [fmap list_fmap]. by rewrite <-(assoc_L (++)) in Hq'.
Qed.
End fetching.
