(* ===== verification/Messaging.v ===== *)
(** * Messages between threads: [SAFS/libsafs/messaging.{h,cpp}]

    A [message] is a buffer of fixed size, taken from an allocator, into which
    requests (or replies, which are requests in another coat) are serialized one
    after the other.  [msg_buffer] is a queue of messages that grows,
    [msg_queue] the queue of the receiver, and the senders put requests into
    messages and messages into the queue.  A pointer to an array of requests is
    the list of them, each with the bytes its data buffer points to; requests are
    read out of a message by value.  Locks are held around every operation on a
    sender's message, and the operations of [msg_queue] are atomic.

    The allocator is known through an interface, which the slab allocator
    implements. *)
From stdpp Require Import options gmap.
From S2P Require Import Prelude Fifo PageArray SlabAllocator IoRequest.
Open Scope Z_scope.

(** [short] *)
Definition s16 (z : Z) : Z := (z + 2 ^ 15) mod 2 ^ 16 - 2 ^ 15.

(** ** The allocator of message buffers *)

(** [ma_alloc] gives the address of a buffer of [ma_obj_size] bytes, or [NULL];
    it never fails otherwise while [ma_inv] holds. *)
Class MsgAlloc (St : Type) := {
  ma_obj_size : St → Z;
  ma_alloc : M St Z;
  ma_free : Z → M St unit;
  ma_inv : St → Prop;
  ma_alloc_ok s : ma_inv s → ∃ s' a, ma_alloc s = (s', Ok a) ∧ ma_inv s' ∧ ma_obj_size s' = ma_obj_size s
}.

(** ** [io_reply] *)

Record io_reply := mkReply { rep_req : io_request }.
Definition io_reply_ctor (page_data : Z → Z) (garbage reqp : io_request) (h : exts) : res io_reply :=
  if is_extended_req reqp then
    let? n := req_get_num_bufs h reqp in
    if negb (n =? 1) then Throw AssertFailed else
    let? buf := req_get_buf page_data 0 h reqp in
    let? size := req_get_size h reqp in
    let? (r, _) := io_request_basic garbage buf (mkLoc (r_file_id reqp) (r_offset reqp)) size (r_access reqp) (r_io reqp) (-1) false h in
    Ok (mkReply r)
  else Ok (mkReply reqp).

(** ** [message]; [m_addr] is the pointer [buf] and [m_bytes] what it points to. *)

Record message := mkMsg {
  m_addr : Z;
  m_bytes : list Z;
  curr_get_off : Z;
  curr_add_off : Z;
  num_objs : Z;
  accept_inline : bool
}.
Definition message_init : message := mkMsg 0 [] 0 0 0 false.
(** [alloc->get_obj_size()]: the size of the buffer. *)
Definition msg_size (m : message) : Z := Z.of_nat (length (m_bytes m)).

Definition advance_get (n : Z) (m : message) : message :=
  mkMsg (m_addr m) (m_bytes m) (s16 (curr_get_off m + n)) (curr_add_off m) (num_objs m) (accept_inline m).
Definition set_num (n : Z) (m : message) : message :=
  mkMsg (m_addr m) (m_bytes m) (curr_get_off m) (curr_add_off m) n (accept_inline m).

Section message.
(** The extensions of the requests. *)
Context (h : exts).

(** [get_next_addr]; the object is the one in the buffer. *)
Definition get_next_addr (m : message) : res (io_request * message) :=
  let remaining := msg_size m - curr_get_off m in
  if num_objs m <=? 0 then Throw AssertFailed else
  let m := set_num (s16 (num_objs m - 1)) m in
  let? r := deserialize_addr h (m_bytes m) (curr_get_off m) remaining in
  let? n := get_serialized_size h r in
  Ok (r, advance_get n m).

Definition has_next (m : message) : bool := 0 <? num_objs m.
Definition msg_is_empty (m : message) : bool := num_objs m =? 0.

Definition get_next (m : message) : res (io_request * message) :=
  let? (r, m) := get_next_addr m in
  if accept_inline m || data_inline r then Throw AssertFailed else Ok (r, m).
Fixpoint get_next_objs (num : nat) (m : message) : res (list io_request * message) :=
  match num with
  | O => Ok ([], m)
  | S num =>
      if has_next m then
        let? (r, m) := get_next m in
        let? (l, m) := get_next_objs num m in
        Ok (r :: l, m)
      else Ok ([], m)
  end.

(** [get_next_inline(objs, num_objs)]: the parameter [num_objs] hides the member of
    that name, so it is the parameter that is tested and counted down, while
    [has_next] looks at the member. *)
Fixpoint inline_loop (num : nat) (m : message) : res (list io_request * message) :=
  if has_next m then
    let remaining := msg_size m - curr_get_off m in
    match num with
    | O => Throw AssertFailed
    | S num =>
        let? r := deserialize (m_bytes m) (m_addr m) (curr_get_off m) remaining in
        let? n := get_serialized_size h r in
        let? (l, m) := inline_loop num (advance_get n m) in
        Ok (r :: l, m)
    end
  else Ok ([], m).
Definition get_next_inline (num_objs : Z) (m : message) : res (list io_request * message) :=
  if accept_inline m then inline_loop (Z.to_nat num_objs) m else Throw AssertFailed.

(** [add(objs, num)]: the number of objects added. *)
Fixpoint msg_add (objs : list (io_request * list Z)) (m : message) : res (Z * message) :=
  match objs with
  | [] => Ok (0, m)
  | (r, data) :: objs =>
      let remaining := msg_size m - curr_add_off m in
      let? sz := get_serialized_size h r in
      if remaining <? sz then Ok (0, m) else
      let? (n, bytes) := serialize h r data (m_bytes m) (curr_add_off m) remaining (accept_inline m) in
      let m := mkMsg (m_addr m) bytes (curr_get_off m) (s16 (curr_add_off m + n)) (s16 (num_objs m + 1)) (accept_inline m) in
      let? (k, m) := msg_add objs m in
      Ok (1 + k, m)
  end.

(** [this->copy_to(msg)]: the message copied from and the one copied to. *)
Definition copy_to (this msg : message) : res (message * message) :=
  if m_addr msg =? 0 then Throw AssertFailed else
  if msg_size msg <? msg_size this then Throw AssertFailed else
  let? bs := mem_read (m_bytes this) 0 (curr_add_off this) in
  let? bytes := mem_write (m_bytes msg) 0 bs in
  Ok (mkMsg (m_addr this) (m_bytes this) (curr_add_off this) (curr_add_off this) 0 (accept_inline this),
      mkMsg (m_addr msg) bytes 0 (curr_add_off this) (num_objs this) (accept_inline this)).

Section allocated.
Context {St : Type} `{MsgAlloc St}.
(** What a fresh buffer holds. *)
Context (junk : Z → Z).

(** [message(alloc, accept_inline)] *)
Definition message_new (accept : bool) : M St message :=
  let! a := ma_alloc in
  massert (negb (a =? 0));;;
  let! s := mget in
  mret (mkMsg a (junk <$> seqZ a (ma_obj_size s)) 0 0 0 accept).

(** [destroy]: the destructor of a request does nothing. *)
Fixpoint destroy_objs (num : nat) (m : message) : res message :=
  match num with
  | O => Ok m
  | S num => if has_next m then let? (_, m) := get_next_addr m in destroy_objs num m else Ok m
  end.
Definition msg_destroy (m : message) : M St unit :=
  if m_addr m =? 0 then mret tt else
  let! _ := mlift (if accept_inline m then Ok m else destroy_objs (Z.to_nat (num_objs m)) m) in
  ma_free (m_addr m).
Definition msg_clear (m : message) : M St message := msg_destroy m;;; mret message_init.

(** ** [msg_buffer]: the state is the queue and the allocator. *)

Definition INIT_MSG_BUF_SIZE : Z := 16.
Definition msg_buffer_new (node_id : Z) : res (fifo_queue message) := fifo_new message_init node_id INIT_MSG_BUF_SIZE true.

Definition on_queue {A} (m : M (fifo_queue message) A) : M (fifo_queue message * St) A := λ '(q, s),
  let '(q, r) := m q in ((q, s), r).
Definition on_alloc {A} (m : M St A) : M (fifo_queue message * St) A := λ '(q, s),
  let '(s, r) := m s in ((q, s), r).

Definition add_msg (msg : message) : M (fifo_queue message) unit :=
  let! q := mget in
  let! full := mlift (is_full q) in
  (if full then let! n := mlift (Fifo.get_size q) in expand_queue message_init (n * 2) else mret true);;;
  let! n := add [msg] in
  massert (n =? 1).
(** [back().add(objs, num)] changes the last message in place. *)
Definition back_add (objs : list (io_request * list Z)) : M (fifo_queue message) Z :=
  let! q := mget in
  let! m := mlift (back q) in
  let! (n, m) := mlift (msg_add objs m) in
  let! b := mlift (buf_store (loc_in_queue q (end_ q - 1)) m (buf q)) in
  mput (set_end b (end_ q) q);;;
  mret n.

Definition new_back (accept : bool) : M (fifo_queue message * St) unit :=
  let! tmp := on_alloc (message_new accept) in
  on_queue (add_msg tmp).
(** The loop does not end when an object does not fit into an empty message. *)
Fixpoint add_objs_loop (fuel : nat) (accept : bool) (objs : list (io_request * list Z)) (num_added : Z) : M (fifo_queue message * St) Z :=
  match objs with
  | [] => mret num_added
  | _ =>
      match fuel with
      | O => mthrow OutOfFuel
      | S fuel =>
          let! ret := on_queue (back_add objs) in
          if ret =? 0 then new_back accept;;; add_objs_loop fuel accept objs num_added
          else add_objs_loop fuel accept (drop (Z.to_nat ret) objs) (num_added + ret)
      end
  end.
Definition add_objs (accept : bool) (objs : list (io_request * list Z)) : M (fifo_queue message * St) Z :=
  let! (q, _) := mget in
  (if is_empty q then new_back accept else mret tt);;;
  add_objs_loop (S (2 * length objs)) accept objs 0.

(** ** [msg_queue] *)

Definition msg_queue_new (node_id : Z) (name : string) (init_size max_size : Z) : res (ts_queue message) :=
  ts_new_max message_init name node_id init_size max_size.
(** The messages are taken out, counted and put back. *)
Definition get_num_objs : M (ts_queue message) Z :=
  let! q := mget in
  let! msgs := ts_fetch (Z.to_nat (get_num_entries (ts_base q))) in
  let! n := ts_add message_init msgs in
  massert (n =? Z.of_nat (length msgs));;;
  mret (foldr (λ m n, num_objs m + n) 0 msgs).

(** ** [thread_safe_msg_sender]: the message being filled, the destination and the
       allocator. *)

Record sender := mkSender { s_buf : message; dest_queue : ts_queue message; s_alloc : St }.

Definition on_dest {A} (m : M (ts_queue message) A) : M sender A := λ x,
  let '(q, r) := m (dest_queue x) in (mkSender (s_buf x) q (s_alloc x), r).
Definition from_alloc {A} (m : M St A) : M sender A := λ x,
  let '(s, r) := m (s_alloc x) in (mkSender (s_buf x) (dest_queue x) s, r).
Definition set_buf (b : message) : M sender unit := mmodify (λ x, mkSender b (dest_queue x) (s_alloc x)).

(** One thread's [flush].  The code swaps the buffer under the sender's lock and
    adds the full message to the destination after releasing it, so for threads
    that share a sender these are two steps: their messages may reach the queue in
    either order.  What is stated of senders below is about one thread. *)
Definition flush (accept : bool) : M sender Z :=
  let! x := mget in
  if negb (msg_is_empty (s_buf x)) then
    let! tmp1 := from_alloc (message_new accept) in
    set_buf tmp1;;;
    let! ret := on_dest (ts_add message_init [s_buf x]) in
    massert (ret =? 1);;;
    mret ret
  else mret 0.

Fixpoint send_cached (fuel : nat) (accept : bool) (msg : list (io_request * list Z)) (num_added : Z) : M sender Z :=
  match fuel with
  | O => mthrow OutOfFuel
  | S fuel =>
      let! x := mget in
      let! (ret, b) := mlift (msg_add msg (s_buf x)) in
      set_buf b;;;
      if Z.of_nat (length msg) - ret =? 0 then mret (num_added + ret) else
      flush accept;;;
      send_cached fuel accept (drop (Z.to_nat ret) msg) (num_added + ret)
  end.

(** [send]: one message per round, put into the queue by force. *)
Fixpoint send (fuel : nat) (accept : bool) (msg : list (io_request * list Z)) (num_sent : Z) : M sender Z :=
  match msg with
  | [] => mret num_sent
  | _ =>
      match fuel with
      | O => mthrow OutOfFuel
      | S fuel =>
          let! tmp := from_alloc (message_new accept) in
          let! (ret, tmp) := mlift (msg_add msg tmp) in
          on_dest (ts_push_back message_init 1 tmp);;;
          send fuel accept (drop (Z.to_nat ret) msg) (num_sent + ret)
      end
  end.
Definition send_msgs (accept : bool) (msg : list (io_request * list Z)) : M sender Z :=
  flush accept;;; send (length msg) accept msg 0.

(** ** [simple_msg_sender]: the messages go to the queue together. *)

Record simple_sender := mkSimple { ss_buf : fifo_queue message; ss_queue : ts_queue message; ss_num_objs : Z; ss_alloc : St }.
Definition simple_send_cached (accept : bool) (msgs : list (io_request * list Z)) : M simple_sender Z := λ x,
  let '((q, s), r) := add_objs accept msgs (ss_buf x, ss_alloc x) in
  (mkSimple q (ss_queue x) (s32 (ss_num_objs x + Z.of_nat (length msgs))) s, r).
Definition simple_flush : M simple_sender Z := λ x,
  if is_empty (ss_buf x) then (mkSimple (ss_buf x) (ss_queue x) 0 (ss_alloc x), Ok 0) else
  let '((t, q), r) := ts_add_queue message_init (ss_queue x, ss_buf x) in
  (mkSimple q t 0 (ss_alloc x), match r with
                                 | Ok _ => if is_empty q then Ok 1 else Throw AssertFailed
                                 | Throw e => Throw e
                                 end).
End allocated.
End message.

(** ** A message is a queue *)

(** A request that takes 48 bytes whether or not inline data is accepted: anything
    but a small write. *)
Record plain (r : io_request) : Prop := {
  pl_wf : req_wf r;
  pl_inline : data_inline r = false;
  pl_size : payload_type r = BASIC_REQ → r_buf_size r < 2 ^ 63 ∧ (MAX_INLINE_SIZE < r_buf_size r ∨ r_access r = READ)
}.

Lemma plain_sizes h r acc : plain r → get_serialized_size h r = Ok SIZEOF_REQ ∧ inlined r acc = false.
Proof.
  intros [Hw _ Hs]. unfold get_serialized_size, inlined. destruct (rw_type _ Hw) as [E|[E|E]]; rewrite E; cbn [Z.eqb BASIC_REQ EXT_REQ USER_COMPUTE andb Pos.eqb]; [|done|done].
  destruct (Hs E) as [Hb Hc]. pose proof (rw_size _ Hw). unfold req_get_size, is_extended_req. rewrite E. cbn [Z.eqb BASIC_REQ EXT_REQ rbind]. rewrite s64_small by lia.
  assert ((MAX_INLINE_SIZE <? r_buf_size r) || (r_access r =? READ) = true) as ->; [|done].
  apply orb_true_iff. destruct Hc; [left; by apply Z.ltb_lt|right; by apply Z.eqb_eq].
Qed.

(** The message has [l] still to be read. *)
Record msg_rep (m : message) (l : list io_request) : Prop := {
  mr_accept : accept_inline m = false;
  mr_num : num_objs m = Z.of_nat (length l);
  mr_bytes : ∃ pre tl, m_bytes m = pre ++ concat (req_bytes <$> l) ++ tl ∧ curr_get_off m = Z.of_nat (length pre);
  mr_add : curr_add_off m = curr_get_off m + SIZEOF_REQ * Z.of_nat (length l);
  mr_small : msg_size m < 2 ^ 15;
  mr_plain : Forall plain l
}.

Lemma length_concat_reqs l : Z.of_nat (length (concat (req_bytes <$> l))) = SIZEOF_REQ * Z.of_nat (length l).
Proof. unfold SIZEOF_REQ. induction l as [|r l IH]; cbn [fmap list_fmap concat]; [done|]. rewrite length_app, length_req_bytes. cbn [length]. lia. Qed.

Lemma msg_rep_offs m l : msg_rep m l → 0 ≤ curr_get_off m ∧ curr_get_off m ≤ curr_add_off m ≤ msg_size m.
Proof.
  intros [_ _ (pre & tl & Hb & Hg) Ha _ _]. unfold msg_size. rewrite Ha, Hg, Hb, !length_app. pose proof (length_concat_reqs l). unfold SIZEOF_REQ in *. lia.
Qed.

Lemma s16_small z : 0 ≤ z < 2 ^ 15 → s16 z = z.
Proof. intros. unfold s16. rewrite Z.mod_small; lia. Qed.

Section queue.
Context (h : exts).

Lemma add_one m l r data :
  msg_rep m l → plain r → SIZEOF_REQ ≤ msg_size m - curr_add_off m →
  ∃ m', serialize h r data (m_bytes m) (curr_add_off m) (msg_size m - curr_add_off m) (accept_inline m) = Ok (SIZEOF_REQ, m_bytes m') ∧
    m' = mkMsg (m_addr m) (m_bytes m') (curr_get_off m) (s16 (curr_add_off m + SIZEOF_REQ)) (s16 (num_objs m + 1)) (accept_inline m) ∧
    msg_rep m' (l ++ [r]) ∧ msg_size m' = msg_size m.
Proof.
  intros H Hr Hroom. pose proof (msg_rep_offs _ _ H) as Ho. destruct H as [Hacc Hn (pre & tl & Hb & Hg) Ha Hsm Hpl]. destruct (plain_sizes h r (accept_inline m) Hr) as [_ Hinl].
  destruct (serialize_shape h r data (m_bytes m) (curr_add_off m) (msg_size m - curr_add_off m) (accept_inline m)) as (tl' & Hs & Hl & _);
    [apply Hr|apply Hr|intros E; by apply (pl_size _ Hr E)|by rewrite Hinl|lia|lia|unfold wire_size; by rewrite Hinl|unfold msg_size in *; lia|].
  rewrite Hinl in *. unfold wire_size in Hs. rewrite Hinl in Hs. assert (set_data_inline false r = r) as E by (pose proof (pl_inline _ Hr); destruct r; cbn in *; by subst). rewrite E in *.
  assert (take (Z.to_nat (curr_add_off m)) (m_bytes m) = pre ++ concat (req_bytes <$> l)) as Htk.
  { rewrite Hb, (assoc_L (++)). replace (Z.to_nat (curr_add_off m)) with (length (pre ++ concat (req_bytes <$> l))) by (rewrite length_app; pose proof (length_concat_reqs l); lia). apply take_app_length. }
  rewrite Htk in Hs, Hl. eexists (mkMsg _ _ _ _ _ _). split; [exact Hs|]. split; [reflexivity|]. unfold SIZEOF_REQ in *. assert (s16 (curr_add_off m + 48) = curr_add_off m + 48) as Hadd by (apply s16_small; lia).
  assert (s16 (num_objs m + 1) = num_objs m + 1) as Hnum by (apply s16_small; unfold msg_size in *; lia). split; [|unfold msg_size; cbn [m_bytes]; by rewrite Hl].
  split; cbn [accept_inline num_objs m_bytes curr_get_off curr_add_off]; [done|rewrite Hnum, length_app; cbn [length]; lia| |rewrite Hadd, length_app; unfold SIZEOF_REQ; cbn [length]; lia|unfold msg_size in *; cbn [m_bytes]; by rewrite Hl|apply Forall_app; auto].
  exists pre, tl'. split; [|done]. rewrite fmap_app, concat_app. cbn [fmap list_fmap concat]. rewrite app_nil_r. unfold req_bytes. by rewrite <-!(assoc_L (++)).
Qed.

Lemma msg_add_spec objs m l :
  msg_rep m l → Forall (λ o, plain o.1) objs →
  let n := Z.min (Z.of_nat (length objs)) ((msg_size m - curr_add_off m) / SIZEOF_REQ) in
  ∃ m', msg_add h objs m = Ok (n, m') ∧ msg_rep m' (l ++ take (Z.to_nat n) objs.*1) ∧ msg_size m' = msg_size m ∧ m_addr m' = m_addr m ∧
    curr_add_off m' = curr_add_off m + SIZEOF_REQ * n.
Proof.
  revert m l. induction objs as [|[r data] objs IH]; intros m l H Hp n; pose proof (msg_rep_offs _ _ H) as Ho; cbn [msg_add].
  { exists m. assert (n = 0) as ->; [|rewrite app_nil_r; split_and!; (done || lia)]. unfold n. cbn. apply Z.min_l. apply Z.div_pos; [lia|done]. }
  apply Forall_cons in Hp as [Hr Hp]. cbn [fst] in Hr. destruct (plain_sizes h r (accept_inline m) Hr) as [Hsz _]. rewrite Hsz. cbn [rbind].
  destruct (Z.ltb_spec (msg_size m - curr_add_off m) SIZEOF_REQ) as [Hfull|Hroom].
  { exists m. assert (n = 0) as ->; [|rewrite app_nil_r; split_and!; (done || lia)]. unfold n. rewrite Z.div_small by lia. cbn [length]. lia. }
  destruct (add_one m l r data H Hr Hroom) as (m1 & Hs & Hm1 & H1 & Hz1). rewrite Hs. cbn [rbind]. rewrite <-Hm1.
  destruct (IH m1 (l ++ [r]) H1 Hp) as (m' & Hrun & H' & Hz & Had & Hof). rewrite Hrun. cbn [rbind].
  assert (curr_add_off m1 = curr_add_off m + SIZEOF_REQ) as Ho1.
  { pose proof (mr_add _ _ H) as E0. pose proof (mr_add _ _ H1) as E1. rewrite length_app in E1. rewrite Hm1 in E1 |- *. cbn [curr_get_off curr_add_off length] in *. lia. }
  assert (n = 1 + Z.min (Z.of_nat (length objs)) ((msg_size m1 - curr_add_off m1) / SIZEOF_REQ)) as Hn.
  { unfold n. rewrite Ho1, Hz1. replace (msg_size m - curr_add_off m) with ((msg_size m - (curr_add_off m + SIZEOF_REQ)) + 1 * SIZEOF_REQ) by lia. rewrite Z.div_add by done. cbn [length]. lia. }
  set (k := Z.min (Z.of_nat (length objs)) ((msg_size m1 - curr_add_off m1) / SIZEOF_REQ)) in *. assert (0 ≤ k). { unfold k. apply Z.min_glb; [lia|]. apply Z.div_pos; [|done]. rewrite Ho1, Hz1. lia. }
  exists m'. rewrite Hn. split_and!; [done| |by rewrite Hz|rewrite Had, Hm1; done|lia].
  replace (Z.to_nat (1 + k)) with (S (Z.to_nat k)) by lia. cbn [fmap list_fmap firstn fst]. by rewrite <-(assoc_L (++)) in H'.
Qed.

Lemma get_next_spec m r l : msg_rep m (r :: l) → ∃ m', get_next h m = Ok (r, m') ∧ msg_rep m' l ∧ msg_size m' = msg_size m ∧ m_addr m' = m_addr m.
Proof.
  intros H. pose proof (msg_rep_offs _ _ H) as Ho. destruct H as [Hacc Hn (pre & tl & Hb & Hg) Ha Hsm [Hr Hpl]%Forall_cons]. cbn [length] in *.
  destruct (plain_sizes h r false Hr) as [Hsz _]. unfold get_next, get_next_addr. rewrite (proj2 (Z.leb_gt _ _)) by lia. unfold deserialize_addr. unfold msg_size in *. cbn [m_bytes set_num curr_get_off].
  unfold SIZEOF_REQ in *. cbn [fmap list_fmap concat] in Hb. rewrite <-(assoc_L (++)) in Hb.
  rewrite u32_small, (proj2 (Z.ltb_ge _ _)) by lia. assert (mem_read (m_bytes m) (curr_get_off m) 48 = Ok (req_bytes r)) as Hrd.
  { rewrite Hb, Hg. pose proof (mem_read_at pre (Z.of_nat (length pre)) (req_bytes r) (concat (req_bytes <$> l) ++ tl) 48) as E. rewrite Nat2Z.id, take_ge in E by lia. apply E; [lia|by rewrite length_req_bytes]. }
  unfold SIZEOF_REQ in *. rewrite Hrd. cbn [rbind]. rewrite req_of_req_bytes, Hsz by apply Hr. cbn [rbind]. rewrite (proj2 (Z.leb_le _ _)) by (unfold SIZEOF_REQ; lia). cbn [rbind].
  rewrite Hsz. cbn [rbind advance_get accept_inline set_num]. rewrite Hacc, (pl_inline _ Hr). cbn [orb]. eexists. split; [reflexivity|]. split; [|done].
  unfold advance_get, set_num. cbn [m_addr m_bytes curr_get_off curr_add_off num_objs accept_inline]. unfold SIZEOF_REQ in *. rewrite (s16_small (curr_get_off m + 48)), s16_small by lia.
  split; cbn [m_addr m_bytes curr_get_off curr_add_off num_objs accept_inline]; [done|lia| |unfold SIZEOF_REQ; lia|done|done].
  exists (pre ++ req_bytes r), tl. rewrite <-!(assoc_L (++)). split; [done|]. rewrite length_app, length_req_bytes. lia.
Qed.

Lemma get_next_objs_spec n m l : msg_rep m l → ∃ m', get_next_objs h n m = Ok (take n l, m') ∧ msg_rep m' (drop n l).
Proof.
  revert m l. induction n as [|n IH]; intros m l H; cbn [get_next_objs]; [by exists m|]. unfold has_next. rewrite (mr_num _ _ H). destruct l as [|r l].
  - exists m. done.
  - rewrite (proj2 (Z.ltb_lt _ _)) by (cbn; lia). destruct (get_next_spec m r l H) as (m1 & -> & H1 & _). cbn [rbind]. destruct (IH m1 l H1) as (m' & -> & H'). by exists m'.
Qed.
End queue.

(** ** Senders *)

Lemma ts_add_one {T} (T0 : T) k t l x :
  ts_rep k t l → Z.of_nat (length l) + 1 ≤ ts_max_size t →
  ∃ j t', ts_add T0 [x] t = (t', Ok 1) ∧ ts_rep j t' (l ++ [x]) ∧ ts_max_size t' = ts_max_size t.
Proof.
  intros H Hmx. pose proof (ts_add_max_size T0 [x] t) as Hms. pose proof (rep_len _ _ _ (ts_fifo _ _ _ H)) as Hlen.
  destruct (decide (Z.of_nat (length l) + 1 ≤ 2 ^ k)) as [Hfit|Hbig].
  - destruct (ts_add_plain T0 k t l [x] H) as (t' & Ha & Hr); [by left|]. rewrite Ha in Hms. exists k, t'. rewrite Ha. change (length [x]) with 1%nat. rewrite Z.min_l by lia.
    rewrite take_ge in Hr by (cbn; lia). done.
  - destruct (ts_add_grow T0 k t l [x] H) as (j & t' & _ & Hst & _ & Ha & Hr); [lia|cbn; lia|]. change (length [x]) with 1%nat in *. rewrite Ha in Hms.
    exists j, t'. assert (Z.of_nat (length l) + Z.of_nat 1 ≤ 2 ^ j) as Hj by lia. rewrite (proj2 (Z.leb_le _ _) Hj) in Ha. split_and!; [done|by apply Hr|done].
Qed.

Section senders.
Context {St : Type} {MA : MsgAlloc St} (h : exts) (junk : Z → Z).

(** The destination holds messages with the contents [ls]; [l] is in the message
    being filled. *)
Record sender_rep (x : sender (St := St)) (ls : list (list io_request)) (l : list io_request) : Prop := {
  sr_dest : ∃ k msgs, ts_rep k (dest_queue x) msgs ∧ Forall2 msg_rep msgs ls;
  sr_buf : msg_rep (s_buf x) l;
  sr_get : curr_get_off (s_buf x) = 0;
  sr_size : msg_size (s_buf x) = ma_obj_size (s_alloc x);
  sr_fits : SIZEOF_REQ ≤ ma_obj_size (s_alloc x) < 2 ^ 15;
  sr_inv : ma_inv (s_alloc x)
}.

(** [n] allocations in a row, each of which gets a buffer. *)
Fixpoint alloc_n (n : nat) (s : St) : option St :=
  match n with
  | O => Some s
  | S n =>
      match ma_alloc s with
      | (s', Ok a) => if a =? 0 then None else alloc_n n s'
      | (_, Throw _) => None
      end
  end.
Lemma alloc_n_app n m s s' s'' : alloc_n n s = Some s' → alloc_n m s' = Some s'' → alloc_n (n + m) s = Some s''.
Proof.
  revert s. induction n as [|n IH]; intros s; cbn [alloc_n Nat.add]; [by intros [= ->]|].
  destruct (ma_alloc s) as [s1 [a|]]; [|done]. destruct (a =? 0); [done|]. apply IH.
Qed.
(** [f] threw because, after [n] allocations from [s] that succeeded, the next one returned [NULL]. *)
Definition no_buffer {A} (s : St) (bound : nat) (f : sender (St := St) * res A) : Prop :=
  ∃ x' n s0, f = (x', Throw AssertFailed) ∧ (n < bound)%nat ∧ alloc_n n s = Some s0 ∧ ma_alloc s0 = (s_alloc x', Ok 0).
Lemma no_buffer_after {A} n s s' b b' (f : sender (St := St) * res A) :
  alloc_n n s = Some s' → no_buffer s' b f → (n + b ≤ b')%nat → no_buffer s b' f.
Proof. intros Hn (x' & m & s0 & -> & Hm & Hs & Ha) Hb. exists x', (n + m)%nat, s0. split_and!; [done|lia|by eapply alloc_n_app|done]. Qed.
Lemma no_buffer_bind {A B} s b (m : M (sender (St := St)) A) (k : A → M sender B) x :
  no_buffer s b (m x) → no_buffer s b (mbind' m k x).
Proof. intros (x' & n & s0 & Hr & H). exists x', n, s0. by rewrite (mbind_throw _ _ _ _ _ Hr). Qed.

(** A fresh message, or no memory. *)
Lemma message_new_spec s : ma_inv s → 0 ≤ ma_obj_size s < 2 ^ 15 →
  (∃ s' m, message_new junk false s = (s', Ok m) ∧ ma_inv s' ∧ ma_obj_size s' = ma_obj_size s ∧ msg_rep m [] ∧ curr_get_off m = 0 ∧ curr_add_off m = 0 ∧
     msg_size m = ma_obj_size s ∧ alloc_n 1 s = Some s') ∨
  (∃ s', message_new junk false s = (s', Throw AssertFailed) ∧ ma_alloc s = (s', Ok 0)).
Proof.
  intros Hi Hz. destruct (ma_alloc_ok s Hi) as (s' & a & Ha & Hi' & Hz'). unfold message_new. rewrite (mbind_ok _ _ _ _ _ Ha).
  assert (alloc_n 1 s = if a =? 0 then None else Some s') as Han by (cbn [alloc_n]; by rewrite Ha).
  destruct (Z.eqb_spec a 0) as [->|]; cbn [negb]; [right; by exists s'|left]. rewrite (mbind_ok (massert true) _ _ _ _ eq_refl), (mbind_ok _ _ _ _ _ eq_refl : mbind' mget _ _ = _).
  assert (Z.of_nat (length (junk <$> seqZ a (ma_obj_size s'))) = ma_obj_size s) as Hl by (rewrite length_fmap, length_seqZ, Hz'; lia).
  eexists s', _. split; [reflexivity|]. split_and!; try done. split; cbn [accept_inline num_objs m_bytes curr_get_off curr_add_off]; try done.
  - exists [], (junk <$> seqZ a (ma_obj_size s')). done.
  - unfold msg_size. cbn [m_bytes]. lia.
Qed.

Lemma flush_spec x ls l :
  sender_rep x ls l → Z.of_nat (length ls) + 1 ≤ ts_max_size (dest_queue x) →
  (∃ x' n, flush junk false x = (x', Ok n) ∧ sender_rep x' (if decide (l = []) then ls else ls ++ [l]) [] ∧
     curr_add_off (s_buf x') = 0 ∧ ts_max_size (dest_queue x') = ts_max_size (dest_queue x) ∧
     alloc_n (if decide (l = []) then 0 else 1) (s_alloc x) = Some (s_alloc x')) ∨
  no_buffer (s_alloc x) 1 (flush junk false x).
Proof.
  intros [(k & msgs & Hd & Hf) Hb Hg Hz Hfit Hi] Hmx. unfold flush. rewrite (mbind_ok _ _ _ _ _ eq_refl : mbind' mget _ _ = _). unfold msg_is_empty. rewrite (mr_num _ _ Hb).
  destruct (decide (l = [])) as [->|Hne].
  { left. exists x, 0. split; [done|]. split; [split; eauto|]. split; [|done]. cbn. rewrite (mr_add _ _ Hb), Hg. done. }
  rewrite (proj2 (Z.eqb_neq _ _)) by (destruct l; [done|cbn; lia]). cbn [negb].
  destruct (message_new_spec (s_alloc x) Hi ltac:(unfold SIZEOF_REQ in *; lia)) as [(s' & m & Hn & Hi' & Hz' & Hm & Hg' & Ha' & Hsz & Han)|(s' & Hn & Hno)].
  2:{ right. unfold mbind', from_alloc. rewrite Hn. eexists _, 0%nat, (s_alloc x). split_and!; [done|lia|done|exact Hno]. }
  left. destruct (ts_add_one message_init k (dest_queue x) msgs (s_buf x) Hd) as (j & t' & Ht & Hd' & Hms); [apply Forall2_length in Hf; lia|].
  unfold mbind', from_alloc, set_buf, mmodify, on_dest, massert, mret. rewrite Hn. cbn [s_buf dest_queue s_alloc]. rewrite Ht. cbn.
  eexists _, _. split; [reflexivity|]. split_and!; cbn [s_buf dest_queue s_alloc]; [|done|done|exact Han]. split; cbn [s_buf dest_queue s_alloc]; [|done|done|by rewrite Hsz|by rewrite Hz'|done].
  exists j, (msgs ++ [s_buf x]). split; [done|]. apply Forall2_app; [done|]. by constructor.
Qed.

Lemma send_cached_spec fuel msg added x ls l :
  sender_rep x ls l → Forall (λ o, plain o.1) msg → Z.of_nat (length ls) + Z.of_nat (length msg + (if decide (l = []) then 0 else 1)) ≤ ts_max_size (dest_queue x) →
  (length msg + (if decide (l = []) then 0 else 1) ≤ fuel)%nat → (1 ≤ fuel)%nat →
  (∃ x' ls' l', send_cached h junk fuel false msg added x = (x', Ok (added + Z.of_nat (length msg))) ∧ sender_rep x' ls' l' ∧
     concat ls' ++ l' = concat ls ++ l ++ msg.*1 ∧ Z.of_nat (length ls') ≤ Z.of_nat (length ls) + Z.of_nat (length msg + (if decide (l = []) then 0 else 1)) ∧
     ts_max_size (dest_queue x') = ts_max_size (dest_queue x) ∧
     ∃ n, (n ≤ length msg + (if decide (l = []) then 0 else 1))%nat ∧ alloc_n n (s_alloc x) = Some (s_alloc x')) ∨
  no_buffer (s_alloc x) (length msg + (if decide (l = []) then 0 else 1)) (send_cached h junk fuel false msg added x).
Proof.
  revert msg added x ls l. induction fuel as [|fuel IH]; intros msg added x ls l H Hp Hmx Hf H1; [lia|]. cbn [send_cached].
  rewrite (mbind_ok _ _ _ _ _ eq_refl : mbind' mget _ _ = _). destruct (msg_add_spec h msg (s_buf x) l (sr_buf _ _ _ H) Hp) as (m & Ha & Hm & Hz & _ & Ho).
  set (n := Z.min _ _) in *. rewrite Ha, (mbind_ok (mlift (Ok _)) _ _ _ _ eq_refl), (mbind_ok (set_buf m) _ _ _ _ eq_refl).
  pose proof (msg_rep_offs _ _ (sr_buf _ _ _ H)) as Hoff. assert (0 ≤ n ≤ Z.of_nat (length msg)) as Hn.
  { split; [|unfold n; lia]. apply Z.min_glb; [lia|]. apply Z.div_pos; [lia|done]. }
  set (x1 := mkSender m (dest_queue x) (s_alloc x)). set (took := take (Z.to_nat n) msg.*1) in *. assert (sender_rep x1 ls (l ++ took)) as H1'.
  { destruct H. split; cbn; [done|done| |by rewrite Hz|done|done]. pose proof (mr_add _ _ Hm) as E. pose proof (mr_add _ _ sr_buf0) as E0. rewrite length_app in E. unfold took in E. rewrite length_take, length_fmap in E. unfold SIZEOF_REQ in *. lia. }
  destruct (Z.eqb_spec (Z.of_nat (length msg) - n) 0) as [He|He].
  { left. exists x1, ls, (l ++ took). split; [unfold mret; do 2 f_equal; lia|]. split; [done|]. split_and!; [|lia|done|exists 0%nat; split; [lia|done]]. unfold took. rewrite take_ge by (rewrite length_fmap; lia). done. }
  assert (l ++ took ≠ []) as Hne.
  { intros E. apply app_eq_nil in E as [-> E]. apply (f_equal length) in E. unfold took in E. rewrite length_take, length_fmap in E. cbn in E.
    assert (n = 0) as Hn0 by lia. pose proof (mr_add _ _ (sr_buf _ _ _ H)) as Hz0. rewrite (sr_get _ _ _ H) in Hz0. cbn in Hz0. pose proof (sr_fits _ _ _ H) as Hfit. rewrite <-(sr_size _ _ _ H) in Hfit.
    assert (1 ≤ (msg_size (s_buf x) - curr_add_off (s_buf x)) / SIZEOF_REQ) by (apply Z.div_le_lower_bound; unfold SIZEOF_REQ in *; lia). unfold n in *. lia. }
  assert (1 ≤ length msg + (if decide (l = []) then 0 else 1))%nat as Hpos.
  { destruct msg; [cbn in *; lia|cbn [length]; lia]. }
  destruct (flush_spec x1 ls (l ++ took) H1') as [(x2 & k & Hfl & H2 & Ha2 & Hm2 & Han)|Hno]; [cbn; lia| |right].
  2:{ apply no_buffer_bind, (no_buffer_after 0 _ (s_alloc x) 1); [done|exact Hno|lia]. }
  rewrite decide_False in H2 by done. rewrite decide_False in Han by done. change (s_alloc x1) with (s_alloc x) in Han. rewrite (mbind_ok _ _ _ _ _ Hfl). set (rest := drop (Z.to_nat n) msg) in *.
  assert (length rest = (length msg - Z.to_nat n)%nat) as Hrl by apply length_drop.
  assert (length rest + 1 ≤ length msg + (if decide (l = []) then 0 else 1))%nat as Hdec.
  { destruct (decide (l = [])) as [->|]; [|lia]. destruct (decide (n = 0)) as [E0|]; [|lia]. exfalso. apply Hne. unfold took. by rewrite E0. }
  destruct (IH rest (added + n) x2 (ls ++ [l ++ took]) [] H2) as [(x' & ls' & l' & Hrun & H' & Hc & Hle & Hm' & m' & Hm1 & Hm2')|Hbad];
    rewrite ?decide_True, ?length_app, ?Hm2 in * by done; [by apply Forall_drop|cbn; lia|lia|lia| |right; eapply no_buffer_after; [exact Han|exact Hbad|lia]].
  left. exists x', ls', l'. split_and!; [|done| |cbn [length] in Hle; lia|by rewrite Hm'|exists (1 + m')%nat; split; [lia|by eapply alloc_n_app]].
  - rewrite Hrun. do 2 f_equal. lia.
  - rewrite Hc, concat_app. cbn. rewrite app_nil_r, <-!(assoc_L (++)). do 2 f_equal. unfold took, rest. rewrite fmap_drop. apply take_drop.
Qed.
End senders.

(** The slab allocator, used by the thread [t], implements the interface. *)
Program Definition slab_msg_alloc (c : slab_conf) (sys_alloc : nat → Z) (t : nat) (Hc : conf_ok c) (Hs : sys_ok c sys_alloc) : MsgAlloc slab := {|
  ma_obj_size s := obj_size (conf s);
  ma_alloc := slab_alloc1 sys_alloc t;
  ma_free := slab_free1 t;
  ma_inv s := ∃ fl loc out, ainv c sys_alloc s fl loc out 0
|}.
Next Obligation.
  intros c sys_alloc t Hc Hs s (fl & loc & out & Ha). destruct (slab_alloc1_spec c sys_alloc Hc Hs s fl loc out t Ha) as (s' & fl' & loc' & o & Hr & _ & Hcase).
  assert (∃ out', ainv c sys_alloc s' fl' loc' out' 0) as [out' Ha'] by (destruct Hcase as [[_ ?]|(_ & ? & _)]; eauto).
  exists s', o. split_and!; [done|by eauto|]. by rewrite (wi_conf _ _ _ _ _ _ (ai_winv _ _ _ _ _ _ _ Ha')), (wi_conf _ _ _ _ _ _ (ai_winv _ _ _ _ _ _ _ Ha)).
Qed.

(** ** Theorems *)

(** C14. A message that does not take inline data is a queue of requests: [add] appends
    as many as there is room for (48 bytes each), [get_next_objs] takes them out in
    the order they were added, whatever was added or read before.  Small writes
    are excluded. *)
Theorem message_refines_queue h m l objs n :
  msg_rep m l → Forall (λ o, plain o.1) objs →
  let k := Z.min (Z.of_nat (length objs)) ((msg_size m - curr_add_off m) / SIZEOF_REQ) in
  ∃ m1 m2, msg_add h objs m = Ok (k, m1) ∧ msg_rep m1 (l ++ take (Z.to_nat k) objs.*1) ∧
    get_next_objs h n m1 = Ok (take n (l ++ take (Z.to_nat k) objs.*1), m2) ∧ msg_rep m2 (drop n (l ++ take (Z.to_nat k) objs.*1)).
Proof.
  intros H Hp k. destruct (msg_add_spec h objs m l H Hp) as (m1 & Ha & H1 & _). fold k in Ha, H1. destruct (get_next_objs_spec h n m1 _ H1) as (m2 & Hg & H2). by exists m1, m2.
Qed.

Definition ex_read : io_request := mkReq 4096 8192 BASIC_REQ false READ false true false false 0 1 17 0 65536.
Definition ex_msg (n : nat) : message := mkMsg 4096 (replicate n 0) 0 0 0 false.
Lemma ex_msg_rep n : (n ≤ 4000)%nat → msg_rep (ex_msg n) [].
Proof. intros Hn. split; cbn; try done; [by exists [], (replicate n 0)|]. unfold msg_size. cbn. rewrite length_replicate. lia. Qed.
Lemma ex_read_plain : plain ex_read.
Proof. split; [split; cbn; unfold BASIC_REQ, EXT_REQ, USER_COMPUTE, READ, WRITE; lia|done|]. intros _. cbn. split; [lia|by left]. Qed.

Lemma message_refines_queue_witness : ∃ m1 m2, let r2 := set_payload 77 ex_read in
  msg_add ∅ [(ex_read, []); (r2, []); (ex_read, [])] (ex_msg 100) = Ok (2, m1) ∧ get_next_objs ∅ 5 m1 = Ok ([ex_read; r2], m2).
Proof.
  assert (plain (set_payload 77 ex_read)) as H2 by (destruct ex_read_plain as [[] ? ?]; split; [split; cbn; try assumption; lia|assumption|assumption]).
  destruct (message_refines_queue ∅ (ex_msg 100) [] [(ex_read, []); (set_payload 77 ex_read, []); (ex_read, [])] 5 (ex_msg_rep 100 ltac:(lia))) as (m1 & m2 & H1 & _ & H3 & _).
  - constructor; [exact ex_read_plain|]. constructor; [exact H2|]. constructor; [exact ex_read_plain|constructor].
  - exists m1, m2. split; [exact H1|exact H3].
Defined.

(** C11. What one thread sends through a [thread_safe_msg_sender] arrives: after
    [send_cached] of any list of requests and [flush], the requests of the messages
    in the destination queue, one after the other, are those that were there
    before, those that were waiting in the sender and the ones sent, in this order,
    and the sender is empty.  The requests are not small writes (see
    [small_write_desync]) and the destination has room for one message per
    request and two more.  The only way to fail is the assertion on a buffer: it
    fails when the allocator, after at most one successful allocation per request
    and one more, returns [NULL]. *)
Theorem sender_delivers {St} {MA : MsgAlloc St} h junk (msgs : list (io_request * list Z)) (x : sender (St := St)) ls l :
  sender_rep x ls l → Forall (λ o, plain o.1) msgs → Z.of_nat (length ls) + Z.of_nat (length msgs) + 2 ≤ ts_max_size (dest_queue x) →
  let run := (let! n := send_cached h junk (S (length msgs)) false msgs 0 in let! _ := flush junk false in mret n) x in
  (∃ x' ls' n, run = (x', Ok (Z.of_nat (length msgs))) ∧ sender_rep x' ls' [] ∧ concat ls' = concat ls ++ l ++ msgs.*1 ∧
     (n ≤ length msgs + 2)%nat ∧ alloc_n n (s_alloc x) = Some (s_alloc x')) ∨
  (∃ x' n s0, run = (x', Throw AssertFailed) ∧ (n < length msgs + 2)%nat ∧
     alloc_n n (s_alloc x) = Some s0 ∧ ma_alloc s0 = (s_alloc x', Ok 0)).
Proof.
  intros H Hp Hmx run. unfold run. assert (length msgs + (if decide (l = []) then 0 else 1) ≤ S (length msgs))%nat as Hf by (destruct (decide (l = [])); lia).
  destruct (send_cached_spec h junk (S (length msgs)) msgs 0 x ls l H Hp ltac:(lia) Hf ltac:(lia)) as [(x1 & ls1 & l1 & Hr & H1 & Hc & Hle & Hm & n1 & Hn1 & Ha1)|Hno].
  2:{ right. apply no_buffer_bind, (no_buffer_after 0 _ (s_alloc x) _ _ _ eq_refl Hno). lia. }
  rewrite (mbind_ok _ _ _ _ _ Hr). destruct (flush_spec junk x1 ls1 l1 H1) as [(x2 & k & Hfl & H2 & _ & _ & Ha2)|Hno]; [lia| |].
  2:{ right. apply no_buffer_bind, (no_buffer_after _ _ _ 1 _ _ Ha1 Hno). lia. }
  left. rewrite (mbind_ok _ _ _ _ _ Hfl). eexists x2, _, _. split; [reflexivity|]. split; [exact H2|].
  split; [|split; [|eapply alloc_n_app; [exact Ha1|exact Ha2]]; destruct (decide (l1 = [])); lia].
  rewrite <-Hc. destruct (decide (l1 = [])) as [->|]; [by rewrite app_nil_r|]. rewrite concat_app. cbn. by rewrite app_nil_r.
Qed.

Definition ex_alloc : MsgAlloc slab := slab_msg_alloc ex_conf ex_sys 0%nat ex_conf_ok ex_sys_ok.
Definition ex_sender : res (sender (St := slab)) :=
  let? s := ex_new in let? q := msg_queue_new 0 "dest" 2 1000 in Ok (mkSender (ex_msg 1024) q s).
Lemma ex_sender_rep x : ex_sender = Ok x → sender_rep (MA := ex_alloc) x [] [] ∧ ts_max_size (dest_queue x) = 1000.
Proof.
  unfold ex_sender. destruct ex_new as [s|] eqn:E; [|done]. destruct (ts_new_max_spec message_init "dest" 0 2 1000 ltac:(lia) ltac:(lia)) as (t & Ht & Hr & Hm).
  cbn [rbind]. unfold msg_queue_new. rewrite Ht. cbn [rbind]. intros [= <-]. split; [|done].
  destruct (slab_new_fresh 0 "ex" 1024 4000 8192 0 false false 2 true 0 ∅ s E) as (H1 & H2 & H3 & H4 & H5 & H6).
  assert (conf s = ex_conf) as Hcf by (vm_compute in E; injection E as <-; reflexivity).
  pose proof (fresh_inv ex_conf ex_sys ex_conf_ok s Hcf H1 H2 H3 H4 H5 H6) as [Ha _]. cbn [store pcs held] in Ha.
  assert (obj_size (conf s) = 1024) as Hz by (by rewrite Hcf). split; cbn [s_buf dest_queue s_alloc].
  - eexists _, []. split; [exact Hr|constructor].
  - apply ex_msg_rep. lia.
  - done.
  - cbn. rewrite Hz. done.
  - cbn. rewrite Hz. done.
  - exists [], ∅, (objs_of pc_objs ∅ ++ []). exact Ha.
Qed.
Lemma sender_delivers_witness : ∃ x x' ls', ex_sender = Ok x ∧
  (let! n := send_cached (H := ex_alloc) ∅ (λ _, 0) 31 false (replicate 30 (ex_read, [])) 0 in let! _ := flush (H := ex_alloc) (λ _, 0) false in mret n) x = (x', Ok 30) ∧
  sender_rep (MA := ex_alloc) x' ls' [] ∧ concat ls' = replicate 30 ex_read.
Proof.
  destruct ex_sender as [x|] eqn:E; [|discriminate E]. destruct (ex_sender_rep x E) as [Hx Hm].
  destruct (sender_delivers (MA := ex_alloc) ∅ (λ _, 0) (replicate 30 (ex_read, [])) x [] [] Hx) as [(x' & ls' & n & Hr & Hx' & Hc & _)|(x' & n & s0 & Hr & _)].
  - apply Forall_replicate. exact ex_read_plain.
  - rewrite Hm. cbn. lia.
  - exists x, x', ls'. split; [reflexivity|]. split; [exact Hr|]. split; [exact Hx'|exact Hc].
  - exfalso. apply (f_equal snd) in Hr. revert Hr. vm_compute in E. injection E as <-. vm_compute. discriminate.
Defined.

(** Two requests, the first a small write, in a message that does not take inline
    data: both are stored in 48 bytes, but the reader steps over the first by the
    size it would have with its data, and so does not find the second. *)
Theorem small_write_desync h m r data :
  msg_rep m [] → req_wf r → data_inline r = false → payload_type r = BASIC_REQ → r_access r = WRITE → 0 < r_buf_size r ≤ MAX_INLINE_SIZE →
  SIZEOF_REQ - SIZEOF_PAYLOAD + MAX_INLINE_SIZE ≤ msg_size m - curr_add_off m →
  ∃ m1 m2, msg_add h [(r, data)] m = Ok (1, m1) ∧ curr_add_off m1 = curr_add_off m + SIZEOF_REQ ∧
    get_next h m1 = Ok (r, m2) ∧ curr_get_off m2 = curr_add_off m + (SIZEOF_REQ - SIZEOF_PAYLOAD) + r_buf_size r.
Proof.
  intros H Hw Hi Hty Hac Hsz Hroom. pose proof (msg_rep_offs _ _ H) as Ho. destruct H as [Hacc Hn (pre & tl & Hb & Hg) Ha Hsm _]. unfold SIZEOF_REQ, SIZEOF_PAYLOAD, MAX_INLINE_SIZE in *. cbn [length] in *.
  rewrite Z.mul_0_r, Z.add_0_r in Ha. assert (get_serialized_size h r = Ok (40 + r_buf_size r)) as Hss.
  { unfold get_serialized_size, req_get_size, is_extended_req. rewrite Hty, Hac. cbn [Z.eqb BASIC_REQ EXT_REQ rbind]. rewrite s64_small by lia.
    unfold MAX_INLINE_SIZE. rewrite (proj2 (Z.ltb_ge _ _)) by lia. cbn [orb Z.eqb WRITE READ]. f_equal. unfold SIZEOF_REQ, SIZEOF_PAYLOAD. apply s32_small. lia. }
  assert (inlined r false = false) as Hinl by (unfold inlined; by rewrite andb_false_r).
  destruct (serialize_shape h r data (m_bytes m) (curr_add_off m) (msg_size m - curr_add_off m) false) as (tl' & Hs & Hl & _);
    [done|done|lia|by rewrite Hinl|lia|unfold SIZEOF_REQ; lia|unfold wire_size, SIZEOF_REQ; rewrite Hinl; lia|unfold msg_size in *; lia|].
  rewrite Hinl in *. unfold wire_size in Hs. rewrite Hinl in Hs. assert (set_data_inline false r = r) as E by (destruct r; cbn in *; by subst). rewrite E in *.
  cbn [msg_add]. rewrite Hss. cbn [rbind]. rewrite (proj2 (Z.ltb_ge _ _)), Hacc, Hs by lia. cbn [rbind]. eexists _, _. split; [reflexivity|]. cbn [curr_add_off].
  unfold SIZEOF_REQ in *. rewrite s16_small by lia. split; [done|]. rewrite Hn. change (s16 (Z.of_nat 0 + 1)) with 1.
  unfold get_next, get_next_addr, deserialize_addr, msg_size in *. cbn [m_bytes curr_get_off num_objs set_num Z.leb Z.compare]. rewrite Hl, Ha in *. unfold SIZEOF_REQ. rewrite u32_small, (proj2 (Z.ltb_ge _ 48)) by lia.
  rewrite (assoc_L (++) (head_bytes r)), mem_read_at by (rewrite ?length_app, ?length_head_bytes, ?length_le_bytes; lia). fold (req_bytes r). cbn [rbind]. rewrite req_of_req_bytes, Hss by done. cbn [rbind].
  rewrite (proj2 (Z.leb_le _ _)) by lia. cbn [rbind]. rewrite Hss. cbn [rbind advance_get accept_inline set_num orb]. rewrite Hi. split; [reflexivity|]. unfold advance_get, set_num. cbn [curr_get_off]. rewrite s16_small by lia. lia.
Qed.

(** [get_next_inline] never hands out an object: it counts down its parameter
    instead of the number of objects in the message, and fails when it is 0. *)
Theorem get_next_inline_fails h n m l m' : get_next_inline h n m = Ok (l, m') → l = [] ∧ num_objs m ≤ 0.
Proof.
  unfold get_next_inline. destruct (accept_inline m); [|done]. revert m l m'. generalize (Z.to_nat n). intros k. induction k as [|k IH]; intros m l m'; cbn [inline_loop]; unfold has_next.
  - destruct (Z.ltb_spec 0 (num_objs m)); [done|]. by intros [= <- <-].
  - destruct (Z.ltb_spec 0 (num_objs m)) as [Hp|]; [|by intros [= <- <-]]. destruct (deserialize _ _ _ _) as [r|]; [|done]. cbn [rbind]. destruct (get_serialized_size h r) as [sz|]; [|done]. cbn [rbind].
    destruct (inline_loop h k (advance_get sz m)) as [[l1 m1]|] eqn:E; [|done]. apply IH in E as [_ E]. cbn in E. lia.
Qed.
