(* ===== verification/SeqLock.v ===== *)
(** * Lock-free protocols: [SAFS/libsafs/concurrency.h] ([seq_lock],
      [atomic_number], [atomic_flags]) and the [frame] of [cache.h]

    The sequence lock lets threads read data that is rarely written without
    taking a lock: a writer makes a counter odd while it changes the data, and a
    reader that finds the counter changed (or odd) starts again.  The page cache
    reads the shape of its hash table this way ([get_cell_offset]).  A frame is
    pinned by its users with compare-and-swap on a counter, and evicted by
    setting the counter to -1.

    Both are step relations: any number of threads, one access to shared memory
    per step, sequentially consistent.  The data a sequence lock protects is a
    list of words; a reader reads them one by one, and a writer writes them in
    any order, any number of times. *)
From stdpp Require Import options gmap.
From S2P Require Import Prelude SlabAllocator.
Open Scope Z_scope.

(** ** [atomic_number<int>] and [atomic_flags<int>]: the new value and the result *)

Definition an_inc (by_ v : Z) : Z * Z := (s32 (v + by_), s32 (v + by_)).
Definition an_dec (by_ v : Z) : Z * Z := (s32 (v - by_), s32 (v - by_)).
Definition an_CAS (expected value v : Z) : Z * bool := if v =? expected then (value, true) else (v, false).

Definition af_mask (flag : Z) : Z := s32 (Z.shiftl 1 flag).
Definition af_test_flag (flag v : Z) : bool := negb (Z.land v (af_mask flag) =? 0).
Definition af_set_flag (flag v : Z) : Z * bool := (Z.lor v (af_mask flag), af_test_flag flag v).
Definition af_clear_flag (flag v : Z) : Z * bool := (Z.land v (Z.lnot (af_mask flag)), af_test_flag flag v).

(** ** [seq_lock] *)

(** The counter and the spin lock. *)
Record seq_lock := mkSeq { count : Z; locked : bool }.
Definition seq_lock_new : seq_lock := mkSeq 0 false.
(** One round of the loop of [read_lock]. *)
Definition read_lock (l : seq_lock) : option Z := if Z.odd (count l) then None else Some (count l).
Definition read_unlock (c : Z) (l : seq_lock) : bool := count l =? c.
Definition bump (l : seq_lock) : seq_lock := mkSeq (u64 (count l + 1)) (locked l).
Definition acquire (l : seq_lock) : option seq_lock := if locked l then None else Some (mkSeq (count l) true).
Definition release (l : seq_lock) : seq_lock := mkSeq (count l) false.

(** Where a thread is.  A reader has the counter it read first and the words read
    so far; the number of increments it saw done is for the proof only. *)
Inductive spc :=
  | Reading (c ticks0 : Z) (vals : list Z)
  | Acquired
  | Writing
  | Unlocking.

(** [ticks] counts the increments, and [committed] is the memory as the last
    writer left it; both are for the proof only. *)
Record seq_sys := mkSS { lock : seq_lock; words : list Z; threads : gmap nat spc; ticks : Z; committed : list Z }.
Definition seq_init (ws : list Z) : seq_sys := mkSS seq_lock_new ws ∅ 0 ws.

Definition goto (t : nat) (p : spc) (s : seq_sys) : seq_sys := mkSS (lock s) (words s) (<[t := p]> (threads s)) (ticks s) (committed s).
Definition leave (t : nat) (s : seq_sys) : seq_sys := mkSS (lock s) (words s) (delete t (threads s)) (ticks s) (committed s).
Definition with_lock (l : seq_lock) (s : seq_sys) : seq_sys := mkSS l (words s) (threads s) (ticks s) (committed s).
Definition tick (s : seq_sys) : seq_sys := mkSS (bump (lock s)) (words s) (threads s) (ticks s + 1) (committed s).

(** The label is what a reader got. *)
Inductive seq_step : seq_sys → option (nat * list Z) → seq_sys → Prop :=
  | step_read_lock s t c : threads s !! t = None → read_lock (lock s) = Some c →
      seq_step s None (goto t (Reading c (ticks s) []) s)
  | step_read_word s t c k vals w : threads s !! t = Some (Reading c k vals) → words s !! length vals = Some w →
      seq_step s None (goto t (Reading c k (vals ++ [w])) s)
  | step_read_retry s t c k vals : threads s !! t = Some (Reading c k vals) → length vals = length (words s) → read_unlock c (lock s) = false →
      seq_step s None (leave t s)
  | step_read_done s t c k vals : threads s !! t = Some (Reading c k vals) → length vals = length (words s) → read_unlock c (lock s) = true →
      seq_step s (Some (t, vals)) (leave t s)
  | step_acquire s t l : threads s !! t = None → acquire (lock s) = Some l →
      seq_step s None (goto t Acquired (with_lock l s))
  | step_write_lock s t : threads s !! t = Some Acquired →
      seq_step s None (goto t Writing (tick s))
  | step_write s t i w : threads s !! t = Some Writing → (i < length (words s))%nat →
      seq_step s None (mkSS (lock s) (<[i := w]> (words s)) (threads s) (ticks s) (committed s))
  | step_write_unlock s t : threads s !! t = Some Writing →
      seq_step s None (goto t Unlocking (mkSS (bump (lock s)) (words s) (threads s) (ticks s + 1) (words s)))
  | step_release s t : threads s !! t = Some Unlocking →
      seq_step s None (leave t (with_lock (release (lock s)) s)).

Inductive seq_reach (ws : list Z) : seq_sys → Prop :=
  | reach_init : seq_reach ws (seq_init ws)
  | reach_step s e s' : seq_reach ws s → seq_step s e s' → seq_reach ws s'.

Definition is_writer (p : spc) : bool := match p with Reading _ _ _ => false | _ => true end.

Record seq_inv (s : seq_sys) : Prop := {
  sq_count : count (lock s) = u64 (ticks s);
  sq_ticks : 0 ≤ ticks s;
  sq_locked t p : threads s !! t = Some p → is_writer p = true → locked (lock s) = true;
  sq_one t u p q : threads s !! t = Some p → threads s !! u = Some q → is_writer p = true → is_writer q = true → t = u;
  sq_odd : Z.odd (ticks s) = true ↔ ∃ t, threads s !! t = Some Writing;
  sq_commit : Z.odd (ticks s) = false → words s = committed s;
  sq_read t c k vals : threads s !! t = Some (Reading c k vals) →
    c = u64 k ∧ Z.odd k = false ∧ 0 ≤ k ≤ ticks s ∧ (k = ticks s → vals = take (length vals) (words s))
}.

Lemma odd_u64 z : Z.odd (u64 z) = Z.odd z.
Proof. unfold u64. rewrite <-!Z.bit0_odd. apply Z.mod_pow2_bits_low. lia. Qed.

Lemma u64_succ z : u64 (u64 z + 1) = u64 (z + 1).
Proof. unfold u64. by rewrite Z.add_mod_idemp_l by lia. Qed.

(** No writer is inside while the lock is free. *)
Lemma no_writer s t p : seq_inv s → locked (lock s) = false → threads s !! t = Some p → is_writer p = false.
Proof. intros H Hl Ht. destruct (is_writer p) eqn:E; [|done]. by rewrite (sq_locked _ H t p Ht E) in Hl. Qed.

Lemma seq_init_inv ws : seq_inv (seq_init ws).
Proof.
  split; cbn; try done; intros *; rewrite ?lookup_empty; try done.
  split; [done|]. by intros [t ?%lookup_empty_Some].
Qed.

(** What a step of [t] to a place that holds the lock as before leaves of the
    exclusion between writers. *)
Lemma excl_goto s t p p0 :
  seq_inv s → threads s !! t = Some p0 → is_writer p0 = true → is_writer p = true →
  (∀ u q, <[t := p]> (threads s) !! u = Some q → is_writer q = true → u = t).
Proof.
  intros H Ht H0 Hp u q Hu Hq. destruct (decide (u = t)) as [->|Hne]; [done|]. rewrite lookup_insert_ne in Hu by done. by apply (sq_one _ H u t q p0).
Qed.

Lemma reading_goto s t p u c k vals :
  is_writer p = true → <[t := p]> (threads s) !! u = Some (Reading c k vals) → threads s !! u = Some (Reading c k vals).
Proof. intros Hp Hu. destruct (decide (u = t)) as [->|Hne]; [rewrite lookup_insert_eq in Hu; by injection Hu as ->|]. by rewrite lookup_insert_ne in Hu. Qed.

Lemma writing_goto s t p : is_writer p = false → (∀ q, threads s !! t = Some q → q ≠ Writing) →
  (∃ u, <[t := p]> (threads s) !! u = Some Writing) ↔ ∃ u, threads s !! u = Some Writing.
Proof.
  intros Hp Ht. split; intros [u Hu].
  - destruct (decide (u = t)) as [->|Hne]; [rewrite lookup_insert_eq in Hu; by injection Hu as ->|]. rewrite lookup_insert_ne in Hu by done. by exists u.
  - exists u. rewrite lookup_insert_ne; [done|]. intros <-. by apply (Ht Writing).
Qed.

(** A reader moves on. *)
Lemma inv_reader s t c k vals :
  seq_inv s → (∀ q, threads s !! t = Some q → is_writer q = false) →
  c = u64 k ∧ Z.odd k = false ∧ 0 ≤ k ≤ ticks s ∧ (k = ticks s → vals = take (length vals) (words s)) →
  seq_inv (goto t (Reading c k vals) s).
Proof.
  intros H Ht Hr. split; cbn [lock words threads ticks committed goto].
  - apply H.
  - apply H.
  - intros u p Hu Hp. destruct (decide (u = t)) as [->|]; [rewrite lookup_insert_eq in Hu; by injection Hu as <-|]. rewrite lookup_insert_ne in Hu by done. by apply (sq_locked _ H u p).
  - intros u v p q Hu Hv Hp Hq. assert (u ≠ t ∧ v ≠ t) as [? ?].
    { split; intros ->; rewrite lookup_insert_eq in *; naive_solver. }
    rewrite lookup_insert_ne in * by done. by apply (sq_one _ H u v p q).
  - rewrite (sq_odd _ H). symmetry. apply writing_goto; [done|]. intros q Hq ->. by apply Ht in Hq.
  - apply H.
  - intros u c' k' vals' Hu. destruct (decide (u = t)) as [->|]; [rewrite lookup_insert_eq in Hu; by injection Hu as <- <- <-|]. rewrite lookup_insert_ne in Hu by done. by apply (sq_read _ H u).
Qed.

(** A reader leaves. *)
Lemma inv_leave s t c k vals : seq_inv s → threads s !! t = Some (Reading c k vals) → seq_inv (leave t s).
Proof.
  intros H Ht. assert (∀ u p, delete t (threads s) !! u = Some p → threads s !! u = Some p) as Hd by (intros u p [_ Hu]%lookup_delete_Some; done).
  split; cbn [lock words threads ticks committed leave]; [apply H|apply H|by eauto using sq_locked|by eauto using sq_one| |apply H|by eauto using sq_read].
  rewrite (sq_odd _ H). split; intros [u Hu]; exists u; [|by apply Hd]. apply lookup_delete_Some. split; [|done]. intros <-. congruence.
Qed.

(** The counter goes up: readers that saw it before cannot match it any more. *)
Lemma reading_tick s u c k vals : seq_inv s → threads s !! u = Some (Reading c k vals) →
  ∀ ws, c = u64 k ∧ Z.odd k = false ∧ 0 ≤ k ≤ ticks s + 1 ∧ (k = ticks s + 1 → vals = take (length vals) ws).
Proof. intros H Hu ws. destruct (sq_read _ H u c k vals Hu) as (? & ? & ? & _). split_and!; [done|done|lia|lia|lia]. Qed.

Lemma seq_step_inv s e s' : seq_inv s → seq_step s e s' → seq_inv s'.
Proof.
  intros H Hst. destruct Hst as [s t c Ht Hc|s t c k vals w Ht Hw|s t c k vals Ht _ _|s t c k vals Ht _ _|s t l Ht Hl|s t Ht|s t i w Ht Hi|s t Ht|s t Ht].
  - unfold read_lock in Hc. destruct (Z.odd (count (lock s))) eqn:Eo; [done|]. injection Hc as <-. apply inv_reader; [done|by rewrite Ht|].
    rewrite (sq_count _ H), odd_u64 in Eo. pose proof (sq_ticks _ H). rewrite (sq_count _ H). split_and!; done || lia.
  - destruct (sq_read _ H t c k vals Ht) as (H1 & H2 & H3 & H4). apply inv_reader; [done|rewrite Ht; by intros ? [= <-]|]. split_and!; [done|done|lia|lia|].
    intros E. rewrite length_app. cbn [length]. rewrite Nat.add_1_r. erewrite take_S_r by done. f_equal. by apply H4.
  - by eapply inv_leave.
  - by eapply inv_leave.
  - unfold acquire in Hl. destruct (locked (lock s)) eqn:El; [done|]. injection Hl as <-. pose proof (λ u p Hu, no_writer s u p H El Hu) as Hno.
    split; cbn [lock words threads ticks committed goto with_lock count locked]; [apply H|apply H|done| | |apply H|].
    + intros u v p q Hu Hv Hp Hq. assert (∀ x r, <[t := Acquired]> (threads s) !! x = Some r → is_writer r = true → x = t) as Hx.
      { intros x r Hx Hr. destruct (decide (x = t)) as [->|]; [done|]. rewrite lookup_insert_ne in Hx by done. apply Hno in Hx. congruence. }
      by rewrite (Hx u p Hu Hp), (Hx v q Hv Hq).
    + rewrite (sq_odd _ H). split; intros [u Hu]; exfalso; [by apply Hno in Hu|]. destruct (decide (u = t)) as [->|]; [by rewrite lookup_insert_eq in Hu|]. rewrite lookup_insert_ne in Hu by done. by apply Hno in Hu.
    + intros u c k vals Hu. apply reading_goto in Hu; [|done]. by apply (sq_read _ H u).
  - pose proof (excl_goto s t Writing Acquired H Ht eq_refl eq_refl) as Hex. pose proof (sq_ticks _ H). assert (Z.odd (ticks s) = false) as Hev.
    { destruct (Z.odd (ticks s)) eqn:E; [|done]. apply (sq_odd _ H) in E as [u Hu]. pose proof (sq_one _ H u t _ _ Hu Ht eq_refl eq_refl) as ->. congruence. }
    assert (Z.odd (ticks s + 1) = true) as Hod by (rewrite Z.odd_add, Hev; done).
    split; cbn [lock words threads ticks committed goto tick bump count locked]; [by rewrite (sq_count _ H), u64_succ|lia| | | |by rewrite Hod|].
    + intros u p Hu Hp. by apply (sq_locked _ H t Acquired).
    + intros u v p q Hu Hv Hp Hq. by rewrite (Hex u p Hu Hp), (Hex v q Hv Hq).
    + split; [|done]. intros _. exists t. by rewrite lookup_insert_eq.
    + intros u c k vals Hu. apply reading_goto in Hu; [|done]. by apply (reading_tick s u).
  - assert (Z.odd (ticks s) = true) as Hod by (apply (sq_odd _ H); by exists t).
    split; cbn [lock words threads ticks committed]; [apply H|apply H|apply H|apply H|apply H|by rewrite Hod|].
    intros u c k vals Hu. destruct (sq_read _ H u c k vals Hu) as (H1 & H2 & H3 & _). split_and!; [done|done|lia|lia|]. intros ->. congruence.
  - pose proof (excl_goto s t Unlocking Writing H Ht eq_refl eq_refl) as Hex. pose proof (sq_ticks _ H). assert (Z.odd (ticks s) = true) as Hod by (apply (sq_odd _ H); by exists t).
    assert (Z.odd (ticks s + 1) = false) as Hev by (rewrite Z.odd_add, Hod; done).
    split; cbn [lock words threads ticks committed goto bump count locked]; [by rewrite (sq_count _ H), u64_succ|lia| | | |done|].
    + intros u p Hu Hp. by apply (sq_locked _ H t Writing).
    + intros u v p q Hu Hv Hp Hq. by rewrite (Hex u p Hu Hp), (Hex v q Hv Hq).
    + rewrite Hev. split; [done|]. intros [u Hu]. pose proof (Hex u Writing Hu eq_refl) as ->. by rewrite lookup_insert_eq in Hu.
    + intros u c k vals Hu. apply reading_goto in Hu; [|done]. by apply (reading_tick s u).
  - assert (∀ u p, delete t (threads s) !! u = Some p → threads s !! u = Some p ∧ is_writer p = false) as Hd.
    { intros u p [Hne Hu]%lookup_delete_Some. split; [done|]. destruct (is_writer p) eqn:E; [|done]. by destruct (Hne (sq_one _ H t u _ _ Ht Hu eq_refl E)). }
    assert (¬ ∃ u, threads s !! u = Some Writing) as Hnw.
    { intros [u Hu]. pose proof (sq_one _ H u t _ _ Hu Ht eq_refl eq_refl) as ->. congruence. }
    split; cbn [lock words threads ticks committed leave with_lock release count locked]; [apply H|apply H| | | |apply H|].
    + intros u p Hu Hp. apply Hd in Hu as [_ Hu]. congruence.
    + intros u v p q Hu _ Hp _. apply Hd in Hu as [_ Hu]. congruence.
    + rewrite (sq_odd _ H). split; [by intros []%Hnw|]. intros [u Hu]. by apply Hd in Hu as [_ Hu].
    + intros u c k vals Hu. apply Hd in Hu as [Hu _]. by apply (sq_read _ H u).
Qed.

Lemma seq_reach_inv ws s : seq_reach ws s → seq_inv s.
Proof. induction 1; eauto using seq_init_inv, seq_step_inv. Qed.

(** As long as the counter has not gone round, a matching counter means that no
    writer started since the reader did. *)
Lemma match_ticks s t c k vals :
  seq_inv s → ticks s < 2 ^ 64 → threads s !! t = Some (Reading c k vals) → read_unlock c (lock s) = true → k = ticks s.
Proof.
  intros H Hb Ht Hu. destruct (sq_read _ H t c k vals Ht) as (-> & _ & Hk & _). apply Z.eqb_eq in Hu. rewrite (sq_count _ H) in Hu. unfold u64 in Hu.
  rewrite !Z.mod_small in Hu by lia. done.
Qed.

(** C21. A read under the sequence lock is never torn, for any number of readers and
    writers and any interleaving of their accesses: the words a reader returns after
    [read_unlock] accepted its count are exactly the words as the last finished
    writer left them, although it read them one at a time while writers ran.  The
    counter is a 64-bit number, and the claim needs that it has not gone round. *)
Theorem seq_read_consistent ws s s' t vals :
  seq_reach ws s → ticks s < 2 ^ 64 → seq_step s (Some (t, vals)) s' → vals = committed s ∧ words s = committed s ∧ Z.odd (count (lock s)) = false.
Proof.
  intros Hr Hb Hst. apply seq_reach_inv in Hr. inversion Hst as [| | |s0 t0 c k vals0 Ht Hlen Hu| | | | |]; subst.
  pose proof (match_ticks _ _ _ _ _ Hr Hb Ht Hu) as Hk. destruct (sq_read _ Hr t c k vals Ht) as (_ & Hodd & _ & Hv).
  rewrite Hk in Hodd. split_and!; [|by apply Hr|by rewrite (sq_count _ Hr), odd_u64].
  rewrite (Hv Hk), Hlen, firstn_all. by apply Hr.
Qed.

(** A writer changes both words while a reader is between them; the reader starts
    again and gets the new words. *)
Definition ex_seq_end : seq_sys :=
  mkSS (mkSeq 2 true) [7; 8] {[1%nat := Unlocking; 0%nat := Reading 2 2 [7; 8]]} 2 [7; 8].

Lemma ex_seq_reach : seq_reach [1; 2] ex_seq_end.
Proof.
  assert (∀ a b, seq_reach [1; 2] a → seq_step a None b → seq_reach [1; 2] b) as go by (intros a b ? ?; by eapply reach_step).
  assert (∀ a b e, seq_step a e b → ∀ b', b' = b → seq_step a e b') as to by congruence.
  pose proof (reach_init [1; 2]) as R.
  eapply go in R; [|eapply (step_read_lock _ 0%nat); vm_compute; reflexivity].
  eapply go in R; [|eapply (step_read_word _ 0%nat); vm_compute; reflexivity].
  eapply go in R; [|eapply (step_acquire _ 1%nat); vm_compute; reflexivity].
  eapply go in R; [|eapply (step_write_lock _ 1%nat); vm_compute; reflexivity].
  eapply go in R; [|eapply (step_write _ 1%nat 1%nat 8); [vm_compute; reflexivity|cbn; lia]].
  eapply go in R; [|eapply (step_read_word _ 0%nat); vm_compute; reflexivity].
  eapply go in R; [|eapply (step_write _ 1%nat 0%nat 7); [vm_compute; reflexivity|cbn; lia]].
  eapply go in R; [|eapply (step_read_retry _ 0%nat); vm_compute; reflexivity].
  eapply go in R; [|eapply (step_write_unlock _ 1%nat); vm_compute; reflexivity].
  eapply go in R; [|eapply (step_read_lock _ 0%nat); vm_compute; reflexivity].
  eapply go in R; [|eapply (step_read_word _ 0%nat); vm_compute; reflexivity].
  eapply go in R; [|eapply (step_read_word _ 0%nat); vm_compute; reflexivity].
  vm_compute in R. exact R.
Qed.

Lemma seq_read_consistent_witness : [7; 8] = committed ex_seq_end ∧ words ex_seq_end = committed ex_seq_end ∧ Z.odd (count (lock ex_seq_end)) = false.
Proof.
  apply (seq_read_consistent [1; 2] ex_seq_end (leave 0 ex_seq_end) 0 [7; 8]); [exact ex_seq_reach|vm_compute; reflexivity|].
  eapply step_read_done; vm_compute; reflexivity.
Defined.


(** ** [frame]: pinning and eviction *)

(** Where a user of a frame is: about to read the counter in [pin], about to
    compare-and-swap it, or holding a pin. *)
Inductive fpc := PinRead | PinCas (x : Z) | Holding.
#[export] Instance fpc_eq_dec : EqDecision fpc.
Proof. solve_decision. Defined.

Record frame_sys := mkFS { pinning : Z; users : gmap nat fpc }.
Definition frame_init : frame_sys := mkFS 0 ∅.

Definition tryEvict (p : Z) : Z * bool := an_CAS 0 (-1) p.
Definition evictUnshared (p : Z) : Z := (an_CAS 1 (-1) p).1.
Definition unpin (p : Z) : Z := (an_dec 1 p).1.
(** The body of the loop of [pin] up to the compare-and-swap, and the
    compare-and-swap itself. *)
Definition pin_read (p : Z) : option Z := if p <=? -1 then None else Some p.
Definition pin_cas (x p : Z) : Z * bool := an_CAS x (s32 (x + 1)) p.

Inductive fev := FPinned (b : bool) | FEvicted (b : bool) | FTau.

(** [N] users; a user that holds a pin may try [evictUnshared], which takes its
    pin when it succeeds. *)
Inductive frame_step (N : nat) : frame_sys → nat → fev → frame_sys → Prop :=
  | f_pin p us t : (t < N)%nat → us !! t = None → frame_step N (mkFS p us) t FTau (mkFS p (<[t := PinRead]> us))
  | f_read_fail p us t : us !! t = Some PinRead → pin_read p = None → frame_step N (mkFS p us) t (FPinned false) (mkFS p (delete t us))
  | f_read p us t x : us !! t = Some PinRead → pin_read p = Some x → frame_step N (mkFS p us) t FTau (mkFS p (<[t := PinCas x]> us))
  | f_cas_again p us t x p' : us !! t = Some (PinCas x) → pin_cas x p = (p', false) → frame_step N (mkFS p us) t FTau (mkFS p' (<[t := PinRead]> us))
  | f_cas p us t x p' : us !! t = Some (PinCas x) → pin_cas x p = (p', true) → frame_step N (mkFS p us) t (FPinned true) (mkFS p' (<[t := Holding]> us))
  | f_unpin p us t : us !! t = Some Holding → frame_step N (mkFS p us) t FTau (mkFS (unpin p) (delete t us))
  | f_evict p us t p' b : us !! t = None → tryEvict p = (p', b) → frame_step N (mkFS p us) t (FEvicted b) (mkFS p' us)
  | f_unshared p us t : us !! t = Some Holding → evictUnshared p ≠ p → frame_step N (mkFS p us) t (FEvicted true) (mkFS (evictUnshared p) (delete t us))
  | f_shared p us t : us !! t = Some Holding → evictUnshared p = p → frame_step N (mkFS p us) t (FEvicted false) (mkFS p us).

Inductive frame_reach (N : nat) : frame_sys → Prop :=
  | f_init : frame_reach N frame_init
  | f_step s t e s' : frame_reach N s → frame_step N s t e s' → frame_reach N s'.

Definition holding (us : gmap nat fpc) : gmap nat fpc := filter (λ kp, kp.2 = Holding) us.
Definition holders (us : gmap nat fpc) : Z := Z.of_nat (size (holding us)).

Lemma holders_nonneg us : 0 ≤ holders us.
Proof. unfold holders. lia. Qed.

Lemma holding_other t us : us !! t ≠ Some Holding → holding us !! t = None.
Proof. intros H. apply map_lookup_filter_None. right. intros x Hx. cbn. intros ->. by apply H. Qed.

Lemma holders_delete_other t us : us !! t ≠ Some Holding → holders (delete t us) = holders us.
Proof. intros H. unfold holders, holding. rewrite map_filter_delete. fold (holding us). by rewrite delete_id by by apply holding_other. Qed.

Lemma holders_insert_other t p us : p ≠ Holding → us !! t ≠ Some Holding → holders (<[t := p]> us) = holders us.
Proof.
  intros Hp H. rewrite <-(holders_delete_other t (<[t := p]> us)) by (rewrite lookup_insert_eq; congruence).
  rewrite delete_insert_eq. by apply holders_delete_other.
Qed.

Lemma holders_insert t us : us !! t ≠ Some Holding → holders (<[t := Holding]> us) = holders us + 1.
Proof.
  intros H. unfold holders, holding. rewrite map_filter_insert_True by done. fold (holding us).
  rewrite map_size_insert_None by by apply holding_other. lia.
Qed.

Lemma holders_delete t us : us !! t = Some Holding → holders (delete t us) = holders us - 1 ∧ 1 ≤ holders us.
Proof.
  intros H. assert (holding us !! t = Some Holding) as Hl by (apply map_lookup_filter_Some; done).
  assert (0 < size (holding us))%nat by (apply Nat.neq_0_lt_0; intros E%map_size_empty_inv; by rewrite E in Hl).
  unfold holders, holding. rewrite map_filter_delete. fold (holding us). rewrite (map_size_delete_Some t (holding us)) by by exists Holding. lia.
Qed.

Lemma holders_bound N us : (∀ t p, us !! t = Some p → (t < N)%nat) → holders us ≤ Z.of_nat N.
Proof.
  intros H. unfold holders. rewrite <-size_dom. transitivity (Z.of_nat (size (set_seq 0 N : gset nat))); [|by rewrite size_set_seq].
  apply inj_le, subseteq_size. intros t [p [Ht _]%map_lookup_filter_Some]%elem_of_dom. apply H in Ht. apply elem_of_set_seq. lia.
Qed.

Record frame_inv (N : nat) (s : frame_sys) : Prop := {
  fr_count : pinning s = holders (users s) ∨ pinning s = -1 ∧ holders (users s) = 0;
  fr_users t p : users s !! t = Some p → (t < N)%nat;
  fr_cas t x : users s !! t = Some (PinCas x) → 0 ≤ x ≤ Z.of_nat N
}.

Ltac frame_unfold := unfold pin_read, pin_cas, tryEvict, evictUnshared, unpin, an_CAS, an_dec in *; cbn [pinning users fst snd] in *.

(** The users' places after a step of [t], the counter apart. *)
Lemma frame_goto N p p' us t q :
  frame_inv N (mkFS p us) → (t < N)%nat → (∀ x, q = PinCas x → 0 ≤ x ≤ Z.of_nat N) →
  p' = holders (<[t := q]> us) ∨ p' = -1 ∧ holders (<[t := q]> us) = 0 → frame_inv N (mkFS p' (<[t := q]> us)).
Proof.
  intros [_ Hu Hc] Ht Hq Hp. split; cbn [pinning users] in *; [done| |].
  - intros u r. destruct (decide (u = t)) as [->|]; [done|]. rewrite lookup_insert_ne by done. apply Hu.
  - intros u x. destruct (decide (u = t)) as [->|]; [rewrite lookup_insert_eq; intros [= ->]; by apply Hq|]. rewrite lookup_insert_ne by done. apply Hc.
Qed.

Lemma frame_leave N p p' us t :
  frame_inv N (mkFS p us) → p' = holders (delete t us) ∨ p' = -1 ∧ holders (delete t us) = 0 → frame_inv N (mkFS p' (delete t us)).
Proof.
  intros [_ Hu Hc] Hp. split; cbn [pinning users] in *; [done| |].
  - intros u r [_ Hr]%lookup_delete_Some. by apply (Hu u r).
  - intros u x [_ Hx]%lookup_delete_Some. by apply (Hc u).
Qed.

Lemma frame_step_inv N s t e s' : Z.of_nat N < 2 ^ 31 → frame_inv N s → frame_step N s t e s' → frame_inv N s'.
Proof.
  intros HN H Hst. pose proof (fr_count _ _ H) as Hp. pose proof (holders_bound N (users s) (fr_users _ _ H)) as Hb. pose proof (holders_nonneg (users s)) as H0.
  destruct Hst as [p us t Ht Hn|p us t Hn Hr|p us t x Hn Hr|p us t x p' Hn Hr|p us t x p' Hn Hr|p us t Hn|p us t p' b Hn Hr|p us t Hn Hr|p us t Hn Hr]; cbn [pinning users] in *.
  - apply (frame_goto _ p); [done|done|done|]. by rewrite holders_insert_other by congruence.
  - apply (frame_leave _ p); [done|]. by rewrite holders_delete_other by congruence.
  - pose proof (fr_users _ _ H t _ Hn). frame_unfold. destruct (Z.leb_spec p (-1)); [done|]. injection Hr as <-.
    apply (frame_goto _ p); [done|done|intros ? [= <-]; lia|]. by rewrite holders_insert_other by congruence.
  - pose proof (fr_users _ _ H t _ Hn). frame_unfold. destruct (Z.eqb_spec p x); [done|]. injection Hr as <-.
    apply (frame_goto _ p); [done|done|done|]. by rewrite holders_insert_other by congruence.
  - pose proof (fr_users _ _ H t _ Hn). pose proof (fr_cas _ _ H t x Hn). frame_unfold. destruct (Z.eqb_spec p x) as [<-|]; [|done]. injection Hr as <-.
    apply (frame_goto _ p); [done|done|done|]. left. rewrite holders_insert by congruence.
    assert (holders us + 1 ≤ Z.of_nat N).
    { rewrite <-(holders_insert t us) by congruence. apply holders_bound. intros u q [[<- _]|[_ Hq]]%lookup_insert_Some; [done|]. by apply (fr_users _ _ H u q). }
    rewrite s32_small by lia. lia.
  - destruct (holders_delete t us Hn) as [Hd Hge]. frame_unfold. apply (frame_leave _ p); [done|]. left. rewrite s32_small by lia. lia.
  - frame_unfold. destruct (Z.eqb_spec p 0) as [->|]; injection Hr as <- <-; [|done]. split; cbn [pinning users]; [|apply H|apply H]. right. lia.
  - destruct (holders_delete t us Hn) as [Hd Hge]. frame_unfold. destruct (Z.eqb_spec p 1) as [->|]; [|done]. apply (frame_leave _ 1); [done|]. right. cbn [fst]. lia.
  - done.
Qed.

Lemma frame_reach_inv N s : Z.of_nat N < 2 ^ 31 → frame_reach N s → frame_inv N s.
Proof.
  intros HN. induction 1 as [|s t e s' _ IH Hst]; [|by eapply frame_step_inv]. split; cbn; [by left| |]; intros *; by rewrite lookup_empty.
Qed.

(** C22. Pins protect a frame, for any number of users below 2^31 and any
    interleaving of [pin]'s reads and compare-and-swaps with [unpin], [tryEvict] and
    [evictUnshared]: the counter is the number of users that hold a pin, or -1 with
    no holder; an eviction succeeds only when nobody but the evicting user itself
    holds a pin, and leaves none; a [pin] succeeds only on a frame that is not
    evicted, fails only on an evicted one, and an evicted frame stays evicted. *)
Theorem frame_pin_safe N s t e s' :
  Z.of_nat N < 2 ^ 31 → frame_reach N s → frame_step N s t e s' →
  (pinning s = holders (users s) ∨ pinning s = -1 ∧ holders (users s) = 0) ∧
  (e = FEvicted true → pinning s' = -1 ∧ ∀ u, users s !! u = Some Holding → u = t) ∧
  (e = FPinned true → pinning s ≠ -1) ∧ (e = FPinned false → pinning s = -1) ∧
  (pinning s = -1 → pinning s' = -1).
Proof.
  intros HN Hr Hst. pose proof (frame_reach_inv N s HN Hr) as H. pose proof (fr_count _ _ H) as Hp. pose proof (holders_nonneg (users s)) as H0.
  split; [done|].
  destruct Hst as [p us t Ht Hn|p us t Hn Hf|p us t x Hn Hf|p us t x p' Hn Hf|p us t x p' Hn Hf|p us t Hn|p us t p' b Hn Hf|p us t Hn Hf|p us t Hn Hf]; frame_unfold.
  - by split_and!.
  - split_and!; try done. intros _. destruct (Z.leb_spec p (-1)); [|done]. lia.
  - by split_and!.
  - split_and!; try done. destruct (p =? x); [done|]. by injection Hf as <-.
  - pose proof (fr_cas _ _ H t x Hn). destruct (Z.eqb_spec p x) as [<-|]; [|done]. split_and!; try done; lia.
  - destruct (holders_delete t us Hn) as [_ Hge]. split_and!; try done; lia.
  - destruct (Z.eqb_spec p 0) as [->|]; injection Hf as <- <-; split_and!; try done. intros _. split; [done|]. intros u Hu. apply holders_delete in Hu. lia.
  - destruct (Z.eqb_spec p 1) as [->|]; [|done]. split_and!; try done. intros _. split; [done|]. intros u Hu. destruct (decide (u = t)) as [|Hne]; [done|exfalso].
    destruct (holders_delete t us Hn) as [Hd _]. assert (delete t us !! u = Some Holding) as Hu' by (by rewrite lookup_delete_ne). apply holders_delete in Hu' as [_ ?]. lia.
  - by split_and!.
Qed.

(** Two users pin a frame, one of them unpins it, the other evicts it. *)
Lemma frame_pin_safe_witness :
  ∃ s, frame_reach 2 s ∧ pinning s = 1 ∧ (pinning s = holders (users s) ∨ pinning s = -1 ∧ holders (users s) = 0) ∧
  (FEvicted true = FEvicted true → pinning (mkFS (-1) ∅) = -1 ∧ ∀ u, users s !! u = Some Holding → u = 1%nat) ∧
  (FEvicted true = FPinned true → pinning s ≠ -1) ∧ (FEvicted true = FPinned false → pinning s = -1) ∧ (pinning s = -1 → pinning (mkFS (-1) ∅) = -1).
Proof.
  assert (frame_reach 2 (mkFS 1 {[1%nat := Holding]})) as R.
  { pose proof (f_init 2) as R. unfold frame_init in R.
    pose proof (f_step 2 _ _ _ _ R (f_pin 2 0 ∅ 0 ltac:(lia) eq_refl)) as R1.
    pose proof (f_step 2 _ _ _ _ R1 (f_pin 2 0 (<[0%nat:=PinRead]> ∅) 1 ltac:(lia) eq_refl)) as R2.
    pose proof (f_step 2 _ _ _ _ R2 (f_read 2 0 (<[1%nat:=PinRead]> (<[0%nat:=PinRead]> ∅)) 0 0 eq_refl eq_refl)) as R3.
    pose proof (f_step 2 _ _ _ _ R3 (f_read 2 0 (<[0%nat:=PinCas 0]> (<[1%nat:=PinRead]> ∅)) 1 0 eq_refl eq_refl)) as R4.
    pose proof (f_step 2 _ _ _ _ R4 (f_cas 2 0 (<[1%nat:=PinCas 0]> (<[0%nat:=PinCas 0]> ∅)) 0 0 1 eq_refl eq_refl)) as R5.
    pose proof (f_step 2 _ _ _ _ R5 (f_cas_again 2 1 (<[0%nat:=Holding]> (<[1%nat:=PinCas 0]> ∅)) 1 0 1 eq_refl eq_refl)) as R6.
    pose proof (f_step 2 _ _ _ _ R6 (f_read 2 1 (<[1%nat:=PinRead]> (<[0%nat:=Holding]> ∅)) 1 1 eq_refl eq_refl)) as R7.
    pose proof (f_step 2 _ _ _ _ R7 (f_cas 2 1 (<[1%nat:=PinCas 1]> (<[0%nat:=Holding]> ∅)) 1 1 2 eq_refl eq_refl)) as R8.
    pose proof (f_step 2 _ _ _ _ R8 (f_unpin 2 2 (<[1%nat:=Holding]> (<[0%nat:=Holding]> ∅)) 0 eq_refl)) as R9.
    exact R9. }
  exists (mkFS 1 {[1%nat := Holding]}). split; [exact R|]. split; [reflexivity|].
  apply (frame_pin_safe 2 (mkFS 1 {[1%nat := Holding]}) 1 (FEvicted true) (mkFS (-1) ∅)); [vm_compute; reflexivity|exact R|].
  exact (f_unshared 2 1 {[1%nat := Holding]} 1 eq_refl ltac:(vm_compute; discriminate)).
Defined.
