(* ===== verification/AssocCache.v ===== *)
(** * The page cache: [associative_cache] of [SAFS/libsafs/associative_cache.{h,cpp}]
      and [memory_manager] of [memory_manager.{h,cpp}]

    The cache is a linear hash table of cells ([HashCell.v]).  It grows by adding
    pages to the cells, up to [CELL_SIZE], and then by splitting one cell after
    the other into two; [expand] does both with pages it takes from its memory
    manager, a slab allocator ([SlabAllocator.v]).  [expand] and [shrink] run
    under the flag [TABLE_EXPANDING], so they are single operations here; the
    readers of the table's shape use a sequence lock ([SeqLock.v]).

    A pointer to a cell is the index of its array and its position there, as
    [get_cell] computes them.  A page that [expand] has not used yet is in the
    list [pages], the tail of the array from [pg_idx] on. *)
From stdpp Require Import options gmap.
From S2P Require Import Prelude NativeFs PageArray SlabAllocator PageCell HashCell.
Open Scope Z_scope.

(** ** [memory_manager] *)

Definition SHRINK_NPAGES : Z := 1024.
Definition INCREASE_SIZE : Z := 1024 * 1024 * 128.

Definition mm_new (max_size node_id tot counter : Z) (h : heap) : res slab :=
  slab_new counter ("mem_manager-" ++ itoa node_id) PAGE_SIZE (if INCREASE_SIZE <=? max_size then INCREASE_SIZE else max_size) max_size node_id false true SLAB_LOCAL_BUF_SIZE true tot h.

(** The first cache of the largest size, a size of 0 not counting. *)
Fixpoint largest_cache (size : Z) (cache : option Z) (caches : list (Z * Z)) : option Z :=
  match caches with
  | [] => cache
  | (id, sz) :: caches => if size <? sz then largest_cache sz (Some id) caches else largest_cache size cache caches
  end.

Section memory_manager.
Context (sys_alloc : nat → Z).

(** [get_free_pages]: [caches] are the registered caches with their sizes, and
    [shrink] is the method of the page cache that is chosen.  [None] is [false]. *)
Definition get_free_pages (npages : Z) (caches : list (Z * Z)) (shrink : Z → Z → option (list Z)) (request_cache : Z) : M slab (option (list Z)) :=
  let! pages := slab_alloc sys_alloc npages in
  if (length pages =? 0)%nat then
    match largest_cache 0 None caches with
    | None => mret None
    | Some cache =>
        if request_cache =? cache then mret None else
        match shrink cache (Z.max SHRINK_NPAGES npages) with
        | None => mret None
        | Some buf =>
            let! _ := slab_free buf in
            let! pages := slab_alloc sys_alloc npages in
            mret (Some pages)
        end
    end
  else mret (Some pages).
Definition free_pages (pages : list Z) : M slab unit := slab_free pages.
End memory_manager.

(** What the cache needs of its manager: the pages it hands out are distinct and
    not in use, it gives all that are asked for or none, and it takes pages back. *)
Class PageManager (St : Type) := {
  pm_get : Z → Z → M St (option (list Z));
  pm_free : list Z → M St unit;
  pm_max_size : St → Z;
  pm_owns : St → list Z → Prop;
  pm_nodup s out : pm_owns s out → NoDup out;
  pm_perm s out out' : out ≡ₚ out' → pm_owns s out → pm_owns s out';
  pm_get_ok s out size n : pm_owns s out → 0 < n → ∃ s' r, pm_get size n s = (s', Ok r) ∧ pm_max_size s' = pm_max_size s ∧
    match r with Some ps => Z.of_nat (length ps) = n ∧ pm_owns s' (ps ++ out) | None => pm_owns s' out end;
  pm_free_ok s out ps : pm_owns s (ps ++ out) → ∃ s', pm_free ps s = (s', Ok tt) ∧ pm_max_size s' = pm_max_size s ∧ pm_owns s' out
}.

(** ** [associative_cache] *)

Record acache (St : Type) := mkAC {
  cells_table : list (option (list hash_cell));
  expand_cell_idx : Z;
  cache_npages : Z;
  c_offset_factor : Z;
  expanding : bool;
  c_init_ncells : Z;
  manager : St;
  c_node_id : Z;
  expandable : bool;
  height : Z;
  c_level : Z;
  c_split : Z
}.
Arguments mkAC {St}. Arguments cells_table {St}. Arguments expand_cell_idx {St}. Arguments cache_npages {St}. Arguments c_offset_factor {St}.
Arguments expanding {St}. Arguments c_init_ncells {St}. Arguments manager {St}. Arguments c_node_id {St}. Arguments expandable {St}.
Arguments height {St}. Arguments c_level {St}. Arguments c_split {St}.

Section cache.
Context {St : Type}.
Notation cache := (acache St).

(** The fields that determine the cell of a page. *)
Definition tbl (c : cache) : table := mkTable (c_init_ncells c) (c_level c) (c_split c) (c_offset_factor c) (Z.of_nat (length (cells_table c))).

Definition with_table (t : list (option (list hash_cell))) (c : cache) : cache :=
  mkAC t (expand_cell_idx c) (cache_npages c) (c_offset_factor c) (expanding c) (c_init_ncells c) (manager c) (c_node_id c) (expandable c) (height c) (c_level c) (c_split c).
Definition with_expand (idx h : Z) (c : cache) : cache :=
  mkAC (cells_table c) idx (cache_npages c) (c_offset_factor c) (expanding c) (c_init_ncells c) (manager c) (c_node_id c) (expandable c) h (c_level c) (c_split c).
Definition with_shape (lv sp : Z) (c : cache) : cache :=
  mkAC (cells_table c) (expand_cell_idx c) (cache_npages c) (c_offset_factor c) (expanding c) (c_init_ncells c) (manager c) (c_node_id c) (expandable c) (height c) lv sp.
Definition with_flag (b : bool) (c : cache) : cache :=
  mkAC (cells_table c) (expand_cell_idx c) (cache_npages c) (c_offset_factor c) b (c_init_ncells c) (manager c) (c_node_id c) (expandable c) (height c) (c_level c) (c_split c).
Definition with_npages (n : Z) (c : cache) : cache :=
  mkAC (cells_table c) (expand_cell_idx c) n (c_offset_factor c) (expanding c) (c_init_ncells c) (manager c) (c_node_id c) (expandable c) (height c) (c_level c) (c_split c).
Definition with_manager (m : St) (c : cache) : cache :=
  mkAC (cells_table c) (expand_cell_idx c) (cache_npages c) (c_offset_factor c) (expanding c) (c_init_ncells c) m (c_node_id c) (expandable c) (height c) (c_level c) (c_split c).

Definition cache_size (c : cache) : Z := cache_npages c * PAGE_SIZE.

(** The cell a pointer points to; [NULL] and freed arrays fault. *)
Definition deref (p : Z * Z) (c : cache) : res hash_cell :=
  match cells_table c !! Z.to_nat p.1 with
  | Some (Some arr) => match arr !! Z.to_nat p.2 with Some hc => Ok hc | None => Throw Segfault end
  | _ => Throw Segfault
  end.
Definition store_cell (p : Z * Z) (hc : hash_cell) (c : cache) : cache :=
  with_table (alter (fmap (λ arr, <[Z.to_nat p.2 := hc]> arr)) (Z.to_nat p.1) (cells_table c)) c.
Definition the_cell (k : Z) (c : cache) : res hash_cell := let? p := get_cell (tbl c) k in deref p c.
Definition put_cell (k : Z) (hc : hash_cell) (c : cache) : res cache := let? p := get_cell (tbl c) k in Ok (store_cell p hc c).

(** [create_array] followed by [init] of the cells, without pages. *)
Fixpoint create_cells (num : nat) (h node : Z) : res (list hash_cell) :=
  match num with
  | O => Ok []
  | S num =>
      let? hc := init h None false node new_hash_cell in
      let? l := create_cells num (h + 1) node in
      Ok (hc :: l)
  end.
Fixpoint create_arrays (n : nat) (i ncells node : Z) : res (list (list hash_cell)) :=
  match n with
  | O => Ok []
  | S n =>
      let? a := create_cells (Z.to_nat ncells) (i * ncells) node in
      let? l := create_arrays n (i + 1) ncells node in
      Ok (a :: l)
  end.
(** [cells_table[i] = ...]: past the end of the vector it faults. *)
Fixpoint store_arrays (i : nat) (arrays : list (list hash_cell)) (t : list (option (list hash_cell))) : res (list (option (list hash_cell))) :=
  match arrays with
  | [] => Ok t
  | a :: arrays => if decide (i < length t)%nat then store_arrays (S i) arrays (<[i := Some a]> t) else Throw Segfault
  end.

(** ** [expand] *)

(** The loop that adds pages to the cells there are. *)
Definition next_cell (orig_ncells : Z) (c : cache) : cache :=
  if orig_ncells <=? expand_cell_idx c + 1 then with_expand 0 (height c + 1) c else with_expand (expand_cell_idx c + 1) (height c) c.
Definition fill_cell (p : Z * Z) (pages : list Z) (c : cache) : res (list Z * cache) :=
  let? hc := deref p c in
  if height c <=? num_pages (hbuf hc) then Ok (pages, c) else
  let num_missing := Z.to_nat (Z.min (height c - num_pages (hbuf hc)) (Z.of_nat (length pages))) in
  let? hc := hc_add_pages (take num_missing pages) (c_node_id c) hc in
  Ok (drop num_missing pages, store_cell p hc c).
Fixpoint fill_loop (fuel : nat) (orig_ncells : Z) (pages : list Z) (c : cache) : res (list Z * cache) :=
  let? p := get_cell (tbl c) (expand_cell_idx c) in
  if (height c <=? Z.of_nat CELL_SIZE) && (0 <? length pages)%nat then
    match fuel with
    | O => Throw OutOfFuel
    | S fuel =>
        let? (pages, c) := fill_cell p pages c in
        fill_loop fuel orig_ncells pages (next_cell orig_ncells c)
    end
  else Ok (pages, c).

(** New arrays for the second half of the table. *)
Definition double_table (c : cache) : res cache :=
  let orig_narrays := Z.shiftl 1 (c_level c) in
  let? arrays := create_arrays (Z.to_nat orig_narrays) orig_narrays (c_init_ncells c) (c_node_id c) in
  let? t := store_arrays (Z.to_nat orig_narrays) arrays (cells_table c) in
  Ok (with_table t c).

Section expand.
Context (min_cell_size : Z).

(** One cell is split; [true] when it had to be merged again. *)
Definition add_to_both (pages : list Z) (node : Z) (hc e : hash_cell) : res (list Z * hash_cell * hash_cell) :=
  let num_required := Z.max (num_pages (hbuf e) - min_cell_size) 0 + Z.max (num_pages (hbuf hc) - min_cell_size) 0 in
  if num_required <=? Z.of_nat (length pages) then
    let? (k, hc) := add_pages_to_min pages node hc in
    let pages := drop (Z.to_nat k) pages in
    let? (k, e) := add_pages_to_min pages node e in
    Ok (drop (Z.to_nat k) pages, hc, e)
  else Ok (pages, hc, e).
Definition split_cell (num_half : Z) (pages : list Z) (c : cache) : res (bool * list Z * cache) :=
  let? pe := get_cell (tbl c) (c_split c + num_half) in
  let? p := get_cell (tbl c) (c_split c) in
  let? hc := deref p c in
  let? e := deref pe c in
  let? (hc, e) := rehash (hash1_of (tbl c)) min_cell_size hc e in
  let? (pages, hc, e) := add_to_both pages (c_node_id c) hc e in
  if (num_pages (hbuf e) <? min_cell_size) || (num_pages (hbuf hc) <? min_cell_size) then
    let? (hc, e) := merge hc e in
    Ok (true, pages, store_cell p hc (store_cell pe e c))
  else Ok (false, pages, with_shape (c_level c) (c_split c + 1) (store_cell p hc (store_cell pe e c))).
Fixpoint split_loop (fuel : nat) (num_half : Z) (pages : list Z) (c : cache) : res (bool * list Z * cache) :=
  if c_split c <? num_half then
    match fuel with
    | O => Throw OutOfFuel
    | S fuel =>
        let? (over, pages, c) := split_cell num_half pages c in
        if over then Ok (true, pages, c) else split_loop fuel num_half pages c
    end
  else Ok (false, pages, c).

(** The outer loop: [true] when all pages went into the cells there are, which
    returns at once. *)
Definition grow_cells (pages : list Z) (c : cache) : res (bool * list Z * cache) :=
  if c_split c =? 0 then
    let orig_ncells := get_num_cells (tbl c) in
    let? (pages, c) := fill_loop (Z.to_nat (17 * orig_ncells)) orig_ncells pages c in
    if (length pages =? 0)%nat then Ok (true, pages, c) else
    let? c := double_table c in Ok (false, pages, c)
  else Ok (false, pages, c).
Definition end_level (num_half : Z) (c : cache) : cache := if c_split c =? num_half then with_shape (c_level c + 1) 0 c else c.
Fixpoint expand_loop (fuel : nat) (pages : list Z) (c : cache) : res (bool * list Z * cache) :=
  if (0 <? length pages)%nat then
    match fuel with
    | O => Throw OutOfFuel
    | S fuel =>
        let? (all, pages, c) := grow_cells pages c in
        if all then Ok (true, pages, c) else
        let c := with_expand (expand_cell_idx c) (min_cell_size + 1) c in
        let num_half := Z.shiftl 1 (c_level c) * c_init_ncells c in
        let? (over, pages, c) := split_loop (Z.to_nat num_half) num_half pages c in
        let c := end_level num_half c in
        if over then Ok (false, pages, c) else expand_loop fuel pages c
    end
  else Ok (false, pages, c).

Context {PM : PageManager St}.

Definition expand (npages : Z) (c : cache) : res (Z * cache) :=
  if expanding c then Ok (0, c) else
  let c := with_flag true c in
  match pm_get (cache_size c) npages (manager c) with
  | (_, Throw e) => Throw e
  | (m, Ok None) => Ok (0, with_flag false (with_manager m c))
  | (m, Ok (Some pages)) =>
      let? (all, rest, c) := expand_loop (S (length (cells_table c))) pages (with_manager m c) in
      if all then Ok (npages, with_flag false (with_npages (s32 (cache_npages c + npages)) c)) else
      let? c := if (0 <? length rest)%nat then
                  match pm_free rest (manager c) with (m, Ok _) => Ok (with_manager m c) | (_, Throw e) => Throw e end
                else Ok c in
      Ok (Z.of_nat (length rest), with_npages (s32 (cache_npages c + npages)) (with_flag false c))
  end.

(** ** The constructor *)

Definition default_init_cache_size : Z := 128 * 1024 * 1024.

(** [init] of the cells of the first array, each with pages of its own. *)
Fixpoint init_cells (num : nat) (h node : Z) (m : St) : res (list hash_cell * St) :=
  match num with
  | O => Ok ([], m)
  | S num =>
      match pm_get 0 min_cell_size m with
      | (_, Throw e) => Throw e
      | (m, Ok pages) =>
          let? hc := init h pages true node new_hash_cell in
          let? (l, m) := init_cells num (h + 1) node m in
          Ok (hc :: l, m)
      end
  end.

Definition init_size (size : Z) (expandable : bool) : Z :=
  let init := if (size <? default_init_cache_size) || negb expandable then size else default_init_cache_size in
  if init <? min_cell_size * PAGE_SIZE then min_cell_size * PAGE_SIZE else init.
Definition cache_new (size node offset_factor : Z) (expandable : bool) (m : St) : res cache :=
  let init_cache_size := init_size size expandable in
  let npages := s32 (init_cache_size `quot` PAGE_SIZE) in
  let init_ncells := npages `quot` min_cell_size in
  let max_npages := s32 (pm_max_size m `quot` PAGE_SIZE) in
  let? (cells, m) := init_cells (Z.to_nat init_ncells) 0 node m in
  let max_ncells := max_npages `quot` min_cell_size in
  let t := Some cells :: replicate (Z.to_nat (max_ncells `quot` init_ncells - 1)) None in
  let c := mkAC t 0 0 offset_factor false init_ncells m node expandable min_cell_size 0 0 in
  if expandable && (init_cache_size <? size) then
    let? (_, c) := expand (s32 ((size - init_cache_size) `quot` PAGE_SIZE)) c in Ok c
  else Ok c.

(** The destructor destroys the arrays; the manager keeps the pages. *)
Definition cache_destroy (c : cache) : cache := with_table [] c.
End expand.

(** ** Searching *)

(** [search(pg_id, old_id)] and [search(pg_id)]: the page is in the cell at the pointer. *)
Definition cache_search (id : page_id) (c : cache) : res (Z * Z * option Z * option page_id * cache) :=
  let? p := get_cell_offset (tbl c) id in
  let? hc := deref p c in
  let? (pg, old, hc) := search id hc in
  Ok (p, pg, old, store_cell p hc c).
Definition cache_lookup (id : page_id) (c : cache) : res (Z * Z * option Z * cache) :=
  let? p := get_cell_offset (tbl c) id in
  let? hc := deref p c in
  let? (pg, hc) := HashCell.lookup id hc in
  Ok (p, pg, store_cell p hc c).

(** [get_num_used_pages], when the sequence lock is free; [get_prev_cell] and [get_next_cell]. *)
Fixpoint count_used (k : nat) (i : Z) (c : cache) : res Z :=
  match k with
  | O => Ok 0
  | S k => let? hc := the_cell i c in let? n := count_used k (i + 1) c in Ok (num_pages (hbuf hc) + n)
  end.
Definition get_num_used_pages (c : cache) : res Z := count_used (Z.to_nat (get_num_cells (tbl c))) 0 c.

(** The pointer before and after a cell's; [None] is [NULL].  The search for the
    array that begins at the cell finds it when the cell is the first of its array. *)
Definition get_prev_cell (p : Z * Z) (c : cache) : res (option (Z * Z)) :=
  let? hc := deref p c in
  if hash hc =? 0 then Ok None
  else if negb (hash hc `rem` c_init_ncells c =? 0) then Ok (Some (p.1, p.2 - 1))
  else if negb (p.2 =? 0) then Ok None
  else if negb (0 <? p.1) then Throw AssertFailed
  else Ok (Some (p.1 - 1, c_init_ncells c - 1)).
(** The array after the last one of the table that exists is [NULL]. *)
Definition get_next_cell (p : Z * Z) (c : cache) : res (option (Z * Z)) :=
  let? hc := deref p c in
  if negb (hash hc `rem` c_init_ncells c =? c_init_ncells c - 1) then Ok (Some (p.1, p.2 + 1))
  else if negb (p.2 =? c_init_ncells c - 1) then Ok None
  else match cells_table c !! Z.to_nat (p.1 + 1) with Some (Some _) => Ok (Some (p.1 + 1, 0)) | _ => Ok None end.

(** ** [shrink] *)

Section shrink.
Context (min_cell_size : Z).

(** The loop over the cells; [got] are the pages stolen so far. *)
Definition prev_cell (orig_ncells : Z) (c : cache) : cache :=
  if expand_cell_idx c <=? 0 then with_expand (orig_ncells - 1) (height c - 1) c else with_expand (expand_cell_idx c - 1) (height c) c.
Definition steal_cell (p : Z * Z) (npages : Z) (got : list Z) (c : cache) : res (list Z * cache) :=
  let? hc := deref p c in
  let num := Z.min (npages - Z.of_nat (length got)) (Z.max 0 (num_pages (hbuf hc) - height c)) in
  if 0 <? num then
    let? (l, hc) := hc_steal_pages (Z.to_nat num) hc in Ok (got ++ l, store_cell p hc c)
  else Ok (got, c).
Fixpoint steal_loop (fuel : nat) (orig_ncells npages : Z) (got : list Z) (c : cache) : res (list Z * cache) :=
  let? p := get_cell (tbl c) (expand_cell_idx c) in
  if min_cell_size <=? height c then
    match fuel with
    | O => Throw OutOfFuel
    | S fuel => let? (got, c) := steal_cell p npages got c in steal_loop fuel orig_ncells npages got (prev_cell orig_ncells c)
    end
  else Ok (got, c).

Fixpoint merge_loop (fuel : nat) (num_half : Z) (c : cache) : res cache :=
  if 0 <? c_split c then
    match fuel with
    | O => Throw OutOfFuel
    | S fuel =>
        let? ph := get_cell (tbl c) (c_split c + num_half) in
        let? p := get_cell (tbl c) (c_split c) in
        let? hc := deref p c in
        let? high := deref ph c in
        let? (hc, high) := merge hc high in
        merge_loop fuel num_half (with_shape (c_level c) (c_split c - 1) (store_cell p hc (store_cell ph high c)))
    end
  else Ok c.
Fixpoint destroy_arrays (n i : nat) (t : list (option (list hash_cell))) : res (list (option (list hash_cell))) :=
  match n with
  | O => Ok t
  | S n => match t !! i with Some (Some _) => destroy_arrays n (S i) (<[i := None]> t) | _ => Throw Segfault end
  end.

(** The part that makes the table smaller. *)
Definition shrink_table (c : cache) : res cache :=
  let num_half := (Z.shiftl 1 (c_level c) * c_init_ncells c) `quot` 2 in
  let c := if c_split c =? 0 then with_shape (c_level c - 1) (num_half - 1) c else c in
  let? c := merge_loop (Z.to_nat (c_split c)) num_half c in
  let orig_narrays := Z.shiftl 1 (c_level c) in
  let narrays := orig_narrays `quot` 2 in
  let? t := destroy_arrays (Z.to_nat (orig_narrays - narrays)) (Z.to_nat narrays) (cells_table c) in
  Ok (with_table t c).
Fixpoint shrink_loop (fuel : nat) (orig_ncells npages : Z) (got : list Z) (c : cache) : res (list Z * cache) :=
  if Z.of_nat (length got) <? npages then
    match fuel with
    | O => Throw OutOfFuel
    | S fuel =>
        let? (got, c) := if c_split c =? 0 then steal_loop (Z.to_nat (17 * orig_ncells)) orig_ncells npages got c else Ok (got, c) in
        if (c_split c =? 0) && (Z.of_nat (length got) =? npages) then Ok (got, c)
        else if c_level c =? 0 then Ok (got, c)
        else let? c := shrink_table c in shrink_loop fuel orig_ncells npages got c
    end
  else Ok (got, c).

(** The result: false, or true with the pages stored in the array. *)
Definition cache_shrink (npages : Z) (c : cache) : res (option (list Z) * cache) :=
  if expanding c then Ok (None, c) else
  let? (got, c) := shrink_loop (S (S (Z.to_nat (c_level c)))) (get_num_cells (tbl c)) npages [] c in
  Ok (Some got, with_npages (s32 (cache_npages c - npages)) (with_flag false c)).
End shrink.
End cache.

(** ** The table as one list of cells *)

(** The arrays of the table are a prefix of the vector, all of the same length. *)
Definition rep (init : Z) (t : list (option (list hash_cell))) (cells : list hash_cell) : Prop :=
  0 < init ∧ ∃ arrs r, t = (Some <$> arrs) ++ replicate r None ∧ Forall (λ a, Z.of_nat (length a) = init) arrs ∧ cells = concat arrs.

Definition ptr (init k : Z) : Z * Z := (k `quot` init, k `rem` init).

Lemma length_concat_uniform {A} (n : nat) (ls : list (list A)) : Forall (λ a, length a = n) ls → length (concat ls) = (n * length ls)%nat.
Proof. induction 1 as [|a ls Ha _ IH]; [cbn; lia|]. cbn. rewrite length_app, IH, Ha. lia. Qed.

Lemma lookup_concat_uniform {A} (n : nat) (ls : list (list A)) k i : Forall (λ a, length a = n) ls → (i < n)%nat →
  concat ls !! (n * k + i)%nat = ls !! k ≫= (.!! i).
Proof.
  intros H Hi. revert k. induction H as [|a ls Ha _ IH]; intros [|k]; cbn; [done|done| |].
  - rewrite Nat.mul_0_r, lookup_app_l by lia. done.
  - rewrite lookup_app_r by lia. replace (n * S k + i - length a)%nat with (n * k + i)%nat by lia. apply IH.
Qed.

Lemma insert_concat_uniform {A} (n : nat) (ls : list (list A)) k i x : Forall (λ a, length a = n) ls → (i < n)%nat →
  concat (alter (insert i x) k ls) = <[(n * k + i)%nat := x]> (concat ls).
Proof.
  intros H Hi. revert k. induction H as [|a ls Ha _ IH]; intros [|k]; [done|done| |].
  - cbn. rewrite Nat.mul_0_r, insert_app_l by lia. done.
  - change (a ++ concat (alter (insert i x) k ls) = <[(n * S k + i)%nat := x]> (a ++ concat ls)).
    rewrite IH, insert_app_r_alt by lia. do 2 f_equal. lia.
Qed.

Lemma rep_uniform init t cells : rep init t cells → ∃ arrs r, t = (Some <$> arrs) ++ replicate r None ∧
  Forall (λ a, length a = Z.to_nat init) arrs ∧ cells = concat arrs ∧ length cells = (Z.to_nat init * length arrs)%nat.
Proof.
  intros (Hi & arrs & r & -> & Ha & ->). assert (Forall (λ a, length a = Z.to_nat init) arrs) by (eapply Forall_impl; [done|]; cbn; lia).
  exists arrs, r. split_and!; [done|done|done|by apply length_concat_uniform].
Qed.

(** An index below the number of cells has a pointer. *)
Lemma ptr_split init k : 0 < init → 0 ≤ k → let q := Z.to_nat (k `quot` init) in let i := Z.to_nat (k `rem` init) in
  Z.to_nat k = (Z.to_nat init * q + i)%nat ∧ (i < Z.to_nat init)%nat.
Proof.
  intros Hi Hk q i. pose proof (Z.quot_rem' k init). pose proof (Z.rem_bound_pos k init ltac:(lia) ltac:(lia)).
  assert (0 ≤ k `quot` init) by (apply Z.quot_pos; lia). unfold q, i. split; [|lia]. nia.
Qed.

Lemma get_cell_ok {St} (c : acache St) cells k : rep (c_init_ncells c) (cells_table c) cells → 0 ≤ k < Z.of_nat (length cells) →
  get_cell (tbl c) k = Ok (ptr (c_init_ncells c) k).
Proof.
  intros Hr Hk. pose proof Hr as [Hi _]. destruct (rep_uniform _ _ _ Hr) as (arrs & r & Ht & _ & _ & Hl). unfold get_cell. cbn [init_ncells narrays tbl].
  rewrite Ht, length_app, length_fmap, length_replicate. rewrite (proj2 (Z.ltb_lt _ _)); [done|].
  apply Z.quot_lt_upper_bound; [lia|lia|]. nia.
Qed.

Lemma deref_ok {St} (c : acache St) cells k hc : rep (c_init_ncells c) (cells_table c) cells → 0 ≤ k → cells !! Z.to_nat k = Some hc →
  deref (ptr (c_init_ncells c) k) c = Ok hc.
Proof.
  intros Hr Hk Hc. pose proof Hr as [Hi _]. destruct (rep_uniform _ _ _ Hr) as (arrs & r & Ht & Ha & -> & Hl). destruct (ptr_split _ k Hi Hk) as [E Hlt].
  rewrite E, (lookup_concat_uniform _ _ _ _ Ha Hlt) in Hc. destruct (arrs !! _) as [a|] eqn:Ea; [|done]. cbn in Hc.
  unfold deref. cbn [fst snd ptr]. rewrite Ht, (lookup_app_l_Some _ _ _ (Some a)); [by rewrite Hc|]. by rewrite list_lookup_fmap, Ea.
Qed.

Lemma cells_store {St} (c : acache St) cells k hc : rep (c_init_ncells c) (cells_table c) cells → 0 ≤ k < Z.of_nat (length cells) →
  rep (c_init_ncells c) (cells_table (store_cell (ptr (c_init_ncells c) k) hc c)) (<[Z.to_nat k := hc]> cells).
Proof.
  intros Hr Hk. pose proof Hr as [Hi _]. destruct (rep_uniform _ _ _ Hr) as (arrs & r & Ht & Ha & -> & Hl). destruct (ptr_split _ k Hi ltac:(lia)) as [E Hlt].
  split; [done|]. exists (alter (insert (Z.to_nat (k `rem` c_init_ncells c)) hc) (Z.to_nat (k `quot` c_init_ncells c)) arrs), r. split_and!.
  - cbn [cells_table store_cell with_table fst snd ptr]. rewrite Ht. assert (Z.to_nat (k `quot` c_init_ncells c) < length arrs)%nat by nia.
    rewrite alter_app_l by (by rewrite length_fmap). f_equal. symmetry. apply list_fmap_alter. by apply Forall_forall.
  - apply Forall_lookup_2. intros i a Hl'. destruct (decide (i = Z.to_nat (k `quot` c_init_ncells c))) as [->|Hne].
    + rewrite list_lookup_alter_eq in Hl'. destruct (arrs !! _) as [b|] eqn:Eb; [|done]. injection Hl' as <-. rewrite length_insert.
      apply (Forall_lookup_1 _ _ _ _ Ha) in Eb. lia.
    + rewrite list_lookup_alter_ne in Hl' by done. apply (Forall_lookup_1 _ _ _ _ Ha) in Hl'. lia.
  - rewrite E. symmetry. by apply insert_concat_uniform.
Qed.

(** ** The pages of the cache *)

(** A page without its hits, which [rehash] may change. *)
Definition bare (p : page) : page := with_hits p 0.
Definition cell_pages (hc : hash_cell) : list page := bare <$> view (hbuf hc).
Definition pages_of (cells : list hash_cell) : list page := cells ≫= cell_pages.










Lemma cell_pages_elem hc p : p ∈ view (hbuf hc) → bare p ∈ cell_pages hc.
Proof. intros Hp. apply list_elem_of_fmap. eauto. Qed.

(** ** The invariant of the cache *)

Section inv.
Context (min_cell_size : Z).

(** A cell of the table at index [k]: its pages are those hashed to it. *)
Record cell_ok (t : table) (k : nat) (hc : hash_cell) : Prop := {
  ck_wf : cell_wf (hbuf hc);
  ck_hash : hash hc = Z.of_nat k;
  ck_home p : p ∈ cell_pages hc → initialized p = true → cell_index t (id_of p) = Z.of_nat k;
  ck_min : Z.of_nat k < get_num_cells t → min_cell_size ≤ num_pages (hbuf hc);
  ck_empty : get_num_cells t ≤ Z.of_nat k → num_pages (hbuf hc) = 0
}.

(** Pages are not in use, and the offsets of those that have data hash. *)
Definition page_idle (t : table) (p : page) : Prop := refcnt p = 0 ∧ (initialized p = true → 0 ≤ hash_key t (id_of p)).

Definition full (hc : hash_cell) : Prop := num_pages (hbuf hc) = Z.of_nat CELL_SIZE.

(** Pages are added to the cells in rounds: in the round of [height], the cells
    before [expand_cell_idx] have as many pages already. *)
Record filled (idx h : Z) (cells : list hash_cell) (n : Z) : Prop := {
  fi_idx : 0 ≤ idx < n;
  fi_height : min_cell_size ≤ h ≤ Z.of_nat CELL_SIZE + 1;
  fi_last : h = Z.of_nat CELL_SIZE + 1 → idx = 0;
  fi_cells k hc : cells !! k = Some hc → Z.of_nat k < n → (if bool_decide (Z.of_nat k < idx) then h else h - 1) ≤ num_pages (hbuf hc)
}.

Record table_inv {St} (c : acache St) (cells : list hash_cell) : Prop := {
  ti_rep : rep (c_init_ncells c) (cells_table c) cells;
  ti_tbl : table_ok (tbl c);
  ti_len : Z.of_nat (length cells) = ncells (tbl c) (c_level c) ∨ Z.of_nat (length cells) = ncells (tbl c) (c_level c + 1);
  ti_half : 0 < c_split c → Z.of_nat (length cells) = ncells (tbl c) (c_level c + 1);
  ti_cell k hc : cells !! k = Some hc → cell_ok (tbl c) k hc;
  ti_full k hc : 0 < c_split c → cells !! k = Some hc → c_split c ≤ Z.of_nat k < ncells (tbl c) (c_level c) → full hc;
  ti_fill : c_split c = 0 → filled (expand_cell_idx c) (height c) cells (ncells (tbl c) (c_level c));
  ti_idx : 0 < c_split c → expand_cell_idx c = 0;
  ti_idle : Forall (page_idle (tbl c)) (pages_of cells)
}.

Lemma num_cells_eq t : get_num_cells t = ncells t (level t) + split t.
Proof. unfold get_num_cells, ncells. lia. Qed.

(** What the steps of [expand] leave as it is. *)
Record keeps {St} (c c' : acache St) : Prop := {
  kp_init : c_init_ncells c' = c_init_ncells c;
  kp_factor : c_offset_factor c' = c_offset_factor c;
  kp_len : length (cells_table c') = length (cells_table c);
  kp_manager : manager c' = manager c;
  kp_node : c_node_id c' = c_node_id c;
  kp_npages : cache_npages c' = cache_npages c;
  kp_flag : expanding c' = expanding c
}.
Lemma keeps_refl {St} (c : acache St) : keeps c c.
Proof. done. Qed.
Lemma keeps_store {St} p hc (c : acache St) : keeps c (store_cell p hc c).
Proof. split; try done. cbn. apply length_alter. Qed.
Lemma keeps_tbl {St} (c c' : acache St) : keeps c c' → c_level c' = c_level c → c_split c' = c_split c → tbl c' = tbl c.
Proof. intros [] H1 H2. unfold tbl. congruence. Qed.
Lemma tbl_store {St} p hc (c : acache St) : tbl (store_cell p hc c) = tbl c.
Proof. apply keeps_tbl; [apply keeps_store|done|done]. Qed.





Lemma next_cell_keeps {St} n (c : acache St) : keeps c (next_cell n c) ∧ tbl (next_cell n c) = tbl c ∧ cells_table (next_cell n c) = cells_table c.
Proof. unfold next_cell. by case_match. Qed.


Notation tinv := table_inv.

Lemma ti_bound {St} (c : acache St) cells : tinv c cells → ncells (tbl c) (c_level c) ≤ Z.of_nat (length cells) ∧ get_num_cells (tbl c) ≤ Z.of_nat (length cells) ∧ 0 < ncells (tbl c) (c_level c).
Proof.
  intros H. rewrite num_cells_eq. pose proof (ncells_pos _ (ti_tbl _ _ H)) as [Hp _]. pose proof (tb_split _ (ti_tbl _ _ H)) as Hs. cbn [split level tbl] in *.
  pose proof (ncells_succ (tbl c) (tb_level _ (ti_tbl _ _ H))) as E. cbn [level tbl] in E. destruct (ti_len _ _ H) as [El|El]; [|lia].
  destruct (Z.eq_dec (c_split c) 0); [lia|]. pose proof (ti_half _ _ H ltac:(lia)). lia.
Qed.








(** *** New arrays *)











(** *** Splitting a cell *)



Lemma cell_pages_inv hc p : p ∈ cell_pages hc → ∃ q, q ∈ view (hbuf hc) ∧ p = bare q.
Proof. intros (q & -> & Hq)%list_elem_of_fmap. eauto. Qed.


Lemma pages_of_elem cells k hc p : cells !! k = Some hc → p ∈ cell_pages hc → p ∈ pages_of cells.
Proof. intros Hk Hp. apply list_elem_of_bind. exists hc. split; [done|]. by eapply list_elem_of_lookup_2. Qed.












(** The vector of arrays is large enough for [mx] pages, and indices are [int]s. *)
Record room {St} (mx : Z) (c : acache St) : Prop := {
  ro_int : 2 * (c_init_ncells c * Z.of_nat (length (cells_table c))) < 2 ^ 31;
  ro_max : mx / min_cell_size / c_init_ncells c ≤ Z.of_nat (length (cells_table c))
}.



End inv.

(** ** The cache and its manager *)

Section managed.
Context {St : Type} {PM : PageManager St} (min_cell_size : Z).

Definition max_npages (c : acache St) : Z := pm_max_size (manager c) / PAGE_SIZE.
Definition addrs (pages : list page) : list Z := omap data pages.
Definition ids (pages : list page) : list page_id := id_of <$> filter (λ p, initialized p = true) pages.

(** The pages of the cells are those the manager has handed out, and no page of a
    file is cached twice. *)
Record cache_inv (c : acache St) (cells : list hash_cell) : Prop := {
  cv_table : table_inv min_cell_size c cells;
  cv_split : c_split c < ncells (tbl c) (c_level c);
  cv_room : room min_cell_size (max_npages c) c;
  cv_owns : pm_owns (manager c) (addrs (pages_of cells));
  cv_ids : NoDup (ids (pages_of cells))
}.

#[export] Instance addrs_perm : Proper ((≡ₚ) ==> (≡ₚ)) addrs.
Proof. unfold addrs. solve_proper. Qed.
#[export] Instance ids_perm : Proper ((≡ₚ) ==> (≡ₚ)) ids.
Proof. intros l k H. unfold ids. by rewrite H. Qed.





(** *** The constructor *)





End managed.

(** ** Lookups in a cache in use *)

(** What a lookup relies on, and keeps: unlike [cache_inv] it allows pages that are
    referenced, as long as the count of references, an [int16_t], is at most [n]. *)
Record serving {St} (n : Z) (c : acache St) (cells : list hash_cell) : Prop := {
  sv_rep : rep (c_init_ncells c) (cells_table c) cells;
  sv_tbl : table_ok (tbl c);
  sv_len : get_num_cells (tbl c) ≤ Z.of_nat (length cells);
  sv_wf k hc : cells !! k = Some hc → cell_wf (hbuf hc);
  sv_home k hc p : cells !! k = Some hc → p ∈ cell_pages hc → initialized p = true → cell_index (tbl c) (id_of p) = Z.of_nat k;
  sv_refs : Forall (λ p, 0 ≤ refcnt p ≤ n) (pages_of cells);
  sv_ids : NoDup (ids (pages_of cells))
}.

(** A cache nobody uses is ready to serve. *)
Lemma cache_serving {St} {PM : PageManager St} min_cell_size (c : acache St) cells : cache_inv min_cell_size c cells → serving 0 c cells.
Proof.
  intros [H _ _ _ Hids]. pose proof (ti_bound _ _ _ H) as (_ & Hb & _). split; try apply H; try done.
  - intros k hc p Hk. apply (ti_cell _ _ _ H k hc Hk).
  - eapply Forall_impl; [apply (ti_idle _ _ _ H)|]. intros p [-> _]. lia.
Qed.

(** The same page, with as many references or one more. *)
Definition bumped (p q : page) : Prop := id_of q = id_of p ∧ initialized q = initialized p ∧ refcnt p ≤ refcnt q ≤ refcnt p + 1.
Lemma bumped_refl p : bumped p p.
Proof. split_and!; [done|done|lia|lia]. Qed.
Lemma bumped_ids l k : Forall2 bumped l k → ids k = ids l.
Proof.
  unfold ids. induction 1 as [|p q l k (E & Ei & _) _ IH]; [done|]. rewrite !filter_cons. rewrite Ei. destruct (decide _); [cbn; by rewrite E, IH|done].
Qed.
Lemma bumped_refs n l k : Forall2 bumped l k → Forall (λ p, 0 ≤ refcnt p ≤ n) l → Forall (λ p, 0 ≤ refcnt p ≤ n + 1) k.
Proof. induction 1 as [|p q l k (_ & _ & Hr) _ IH]; [done|]. intros [Hp Hl]%Forall_cons. constructor; [lia|by apply IH]. Qed.

Lemma bumped_cell hc pg : cell_wf (hbuf hc) → Forall (λ p, 0 ≤ refcnt p < 2 ^ 15 - 1) (cell_pages hc) →
  cell_wf (upd_page pg inc_ref (hbuf hc)) ∧ Forall2 bumped (cell_pages hc) (cell_pages (with_buf hc (upd_page pg inc_ref (hbuf hc)))).
Proof.
  intros Hw Hr. split; [by apply upd_page_wf; [done|done|]; intros q _ [? ?]; split; simpl; lia|].
  unfold cell_pages in *. rewrite Forall_fmap in Hr. change (hbuf (with_buf hc ?b)) with b. unfold view in *. cbn [buf upd_page]. rewrite used_alter by done.
  rewrite Forall_fmap in Hr. rewrite !Forall2_fmap. apply Forall_Forall2_diag. eapply Forall_impl; [exact Hr|]. intros u Hu. cbn in Hu |- *.
  rewrite list_lookup_alter. case_decide as E; [|apply bumped_refl]. rewrite E. destruct (buf (hbuf hc) !! u) as [p|]; cbn in *; [|apply bumped_refl].
  rewrite inc_ref_ok by lia. split_and!; [done|done|cbn; lia|cbn; lia].
Qed.
Lemma bumped_pages cells k hc hc' : cells !! k = Some hc → Forall2 bumped (cell_pages hc) (cell_pages hc') → Forall2 bumped (pages_of cells) (pages_of (<[k := hc']> cells)).
Proof.
  revert k. induction cells as [|x cells IH]; intros [|k] Hk Hb; try done; cbn in Hk |- *.
  - injection Hk as ->. apply Forall2_app; [done|]. apply Forall_Forall2_diag, Forall_true. apply bumped_refl.
  - apply Forall2_app; [apply Forall_Forall2_diag, Forall_true, bumped_refl|by apply IH].
Qed.

Lemma serving_bump {St} n (c : acache St) cells k hc hc' : 0 ≤ k →
  serving n c cells → cells !! Z.to_nat k = Some hc → cell_wf (hbuf hc') → Forall2 bumped (cell_pages hc) (cell_pages hc') →
  serving (n + 1) (store_cell (ptr (c_init_ncells c) k) hc' c) (<[Z.to_nat k := hc']> cells).
Proof.
  intros Hk0 H Hk Hw Hb. pose proof (lookup_lt_Some _ _ _ Hk) as Hlt. pose proof (bumped_pages cells _ hc hc' Hk Hb) as Hp.
  assert (∀ j x, <[Z.to_nat k := hc']> cells !! j = Some x → j = Z.to_nat k ∧ x = hc' ∨ cells !! j = Some x) as Hcase.
  { intros j x Hj. destruct (decide (j = Z.to_nat k)) as [->|]; [left; rewrite list_lookup_insert_eq in Hj by done; by injection Hj|right; by rewrite list_lookup_insert_ne in Hj]. }
  split; rewrite ?tbl_store, ?length_insert; try apply H.
  - apply (cells_store c cells k hc'); [apply H|lia].
  - intros j x Hj. destruct (Hcase j x Hj) as [[-> ->]|Hj']; [done|by eapply (sv_wf _ _ _ H)].
  - intros j x p Hj Hin Hi. destruct (Hcase j x Hj) as [[-> ->]|Hj']; [|by eapply (sv_home _ _ _ H)].
    apply list_elem_of_lookup in Hin as [i Hin]. destruct (Forall2_lookup_r _ _ _ _ _ Hb Hin) as (p0 & Hp0 & E & Ei & _). rewrite E. eapply (sv_home _ _ _ H); [exact Hk| |by rewrite <-Ei].
    by eapply list_elem_of_lookup_2.
  - by eapply bumped_refs, H.
  - rewrite (bumped_ids _ _ Hp). apply H.
Qed.

(** C19. Looking up a page in the cache, in use or not, finds it exactly when it is
    there.  The cache may hold referenced pages; the counts of references are at
    most [n], and [n + 1] still fits their [int16_t].  The search goes to one cell,
    the one the shape of the table names; the page it returns is the only cached
    page with the identifier, referenced or not; its reference count goes up by one
    and no other cell or page changes.  When it returns nothing, no cell of the
    whole table holds the page.  What lookups rely on holds again afterwards, with
    [n + 1], so lookups can follow each other. *)
Theorem cache_lookup_correct {St} n id (c : acache St) cells :
  serving n c cells → n < 2 ^ 15 - 1 → id_ok id → 0 ≤ hash_key (tbl c) id →
  ∃ q r c' hc cells', cache_lookup id c = Ok (q, r, c') ∧ deref q c = Ok hc ∧ serving (n + 1) c' cells' ∧
    match r with
    | Some pg => ∃ u p, pg = Z.of_nat u ∧ buf (hbuf hc) !! u = Some p ∧ id_of p = id ∧ bare p ∈ pages_of cells ∧ (∀ p', p' ∈ pages_of cells → id_of p' = id → p' = bare p) ∧
        c' = store_cell q (with_buf hc (upd_page pg (λ p, with_ref p (refcnt p + 1)) (hbuf hc))) c
    | None => (∀ p, p ∈ pages_of cells → id_of p ≠ id) ∧ c' = store_cell q hc c
    end.
Proof.
  intros H Hn Hid Hk. pose proof (sv_tbl _ _ _ H) as Ht. destruct (linear_hashing_correct (tbl c) id Ht Hk) as ([Hi1 Hi2] & _). pose proof (sv_len _ _ _ H) as Hb.
  set (k := cell_index (tbl c) id) in *. destruct (lookup_lt_is_Some_2 cells (Z.to_nat k)) as [hc Hc]; [lia|]. pose proof (sv_wf _ _ _ H _ _ Hc) as Hw. pose proof (sv_rep _ _ _ H) as Hr.
  assert (Forall (λ p, 0 ≤ refcnt p < 2 ^ 15 - 1) (cell_pages hc)) as Hrefs.
  { apply Forall_forall. intros p Hp. pose proof (proj1 (Forall_forall _ _) (sv_refs _ _ _ H) _ (pages_of_elem _ _ _ _ Hc Hp)) as Hrc. cbn in Hrc. lia. }
  unfold cache_lookup, get_cell_offset. fold k. rewrite (get_cell_ok c cells k Hr) by lia. cbn [rbind]. pose proof (deref_ok c cells k hc Hr ltac:(lia) Hc) as Hd. rewrite Hd. cbn [rbind].
  unfold HashCell.lookup. destruct (find_page_ok id (hbuf hc) Hw) as (r & -> & Hcase). cbn [rbind].
  destruct r as [pg|]; cbn [rbind]; eexists _, _, _, hc, _; (split; [reflexivity|]); (split; [exact Hd|]); (split; [eapply serving_bump; [lia|exact H|exact Hc|..]|]).
  - by apply bumped_cell.
  - by apply bumped_cell.
  - destruct Hcase as (u & p & -> & Hu & Hdt & Hm%matches_id). pose proof (cell_pages_elem hc p (view_elem _ _ _ Hu Hdt)) as Hin. pose proof (pages_of_elem _ _ _ _ Hc Hin) as Hin'.
    exists u, p. split_and!; try done.
    + intros p' Hp' Hid'. assert (bare p ∈ filter (λ p, initialized p = true) (pages_of cells) ∧ p' ∈ filter (λ p, initialized p = true) (pages_of cells)) as [F1 F2].
      { split; apply list_elem_of_filter; split; try done; by apply (initialized_id id). }
      apply list_elem_of_lookup in F1 as [a Ha], F2 as [b Hb']. assert (a = b) as ->; [|congruence].
      apply (NoDup_lookup _ _ _ id (sv_ids _ _ _ H)); unfold ids; rewrite list_lookup_fmap; rewrite ?Ha, ?Hb'; cbn; by f_equal.
    + do 2 f_equal. unfold upd_page. f_equal. apply list_eq. intros j. rewrite !list_lookup_alter. case_decide as E; [|done]. subst j. rewrite Nat2Z.id, Hu. cbn [fmap option_fmap option_map]. f_equal.
      apply inc_ref_ok. exact (proj1 (Forall_forall _ _) Hrefs _ Hin).
  - done.
  - apply Forall_Forall2_diag, Forall_true, bumped_refl.
  - split; [|done]. intros p Hp Hpid. pose proof (initialized_id id p Hid Hpid) as Hini. apply list_elem_of_bind in Hp as (hc' & Hin & Hc'). apply list_elem_of_lookup in Hc' as [j Hj].
    pose proof (sv_home _ _ _ H j hc' p Hj Hin Hini) as Hjk. rewrite Hpid in Hjk. fold k in Hjk. rewrite Hjk, Nat2Z.id, Hj in Hc. injection Hc as ->.
    destruct (cell_pages_inv _ _ Hin) as (x & Hx & ->). specialize (Hcase x Hx). assert (matches id x = true) by (by apply matches_id). congruence.
Qed.

(** ** The memory manager is a page manager *)

(** A cache has a manager of its own, so the largest cache is the one that asks
    for pages: the manager gives it pages or refuses. *)
Lemma get_free_pages_own sys_alloc n size shrink : get_free_pages sys_alloc n [(0, size)] shrink 0 =
  (let! pages := slab_alloc sys_alloc n in if (length pages =? 0)%nat then mret None else mret (Some pages)).
Proof. unfold get_free_pages. cbn [largest_cache]. by destruct (0 <? size). Qed.

Program Definition slab_manager (c : slab_conf) (sys_alloc : nat → Z) (Hc : conf_ok c) (Hs : sys_ok c sys_alloc) : PageManager slab := {|
  pm_get size n := get_free_pages sys_alloc n [(0, size)] (λ _ _, None) 0;
  pm_free := free_pages;
  pm_max_size s := max_size (conf s);
  pm_owns s out := ∃ fl, winv c sys_alloc s fl out 0
|}.
Next Obligation. intros c sys Hc Hs s out [fl Hw]. pose proof (winv_nodup _ _ Hc Hs _ _ _ _ Hw) as Hd. by apply NoDup_app in Hd as (_ & _ & ?). Qed.
Next Obligation. intros c sys Hc Hs s out out' Hp [fl Hw]. exists fl. by eapply winv_out. Qed.
Next Obligation.
  intros c sys Hc Hs s out size n [fl Hw] Hn. cbn beta. destruct (slab_alloc_post c sys Hc Hs s fl out n Hw Hn) as (s' & objs & Hr & fl' & new & _ & Hw' & _ & H1 & H2 & _).
  exists s', (if (length objs =? 0)%nat then None else Some objs). rewrite get_free_pages_own. split; [rewrite (mbind_ok _ _ _ _ _ Hr); by case_match|].
  split; [by rewrite (wi_conf _ _ _ _ _ _ Hw'), (wi_conf _ _ _ _ _ _ Hw)|]. destruct (Nat.eqb_spec (length objs) 0) as [E|E].
  - apply length_zero_iff_nil in E as ->. by exists fl'.
  - split; [|by exists fl']. destruct (decide (n ≤ Z.of_nat (length ([] ++ fl)) + objs_per_buf c * growths_left s)); [by apply H1|]. destruct (H2 ltac:(lia)) as [-> _]. done.
Qed.
Next Obligation.
  intros c sys Hc Hs s out ps [fl Hw]. destruct (slab_free_spec c sys Hc Hs _ _ _ _ _ Hw) as (L & h & Hf & Hw'). exists (set_list L h s). split; [exact Hf|]. split; [done|]. by exists (rev ps ++ fl).
Qed.

(** A manager of 64 pages. *)
Definition ex_mconf : slab_conf := mkConf 4096 262144 262144 0 100 true false true "mem_manager-0-1".
Definition ex_msys (k : nat) : Z := 1048576 * (Z.of_nat k + 1).
Lemma ex_mconf_ok : conf_ok ex_mconf.
Proof. by split; vm_compute; repeat split. Qed.
Lemma ex_msys_ok : sys_ok ex_mconf ex_msys.
Proof.
  split; unfold ex_msys.
  - intros k _. split; [lia|]. replace (1048576 * (Z.of_nat k + 1)) with ((256 * (Z.of_nat k + 1)) * PAGE_SIZE) by (unfold PAGE_SIZE; lia). apply Z.mod_mul. done.
  - intros j k Hlt _. left. cbn. lia.
Qed.
Definition ex_pm : PageManager slab := slab_manager ex_mconf ex_msys ex_mconf_ok ex_msys_ok.
Definition ex_mm : res slab := mm_new 262144 0 0 0 ∅.

(** A cache of one cell with two pages. *)
Definition ex_cache : res (acache slab) := let? m := ex_mm in cache_new (PM := ex_pm) 2 8192 0 1 false m.



(** The cache after a page was brought in: one reference to it. *)
Definition ex_loaded : res (acache slab) := let? c := ex_cache in let? r := cache_search (mkId 3 8192) c in Ok r.2.
Lemma ex_loaded_serving : ∃ c hc p, ex_loaded = Ok c ∧ serving 1 c [hc] ∧ tbl c = mkTable 1 0 0 1 32 ∧
  pages_of [hc] !! 0%nat = Some p ∧ id_of p = mkId 3 8192 ∧ refcnt p = 1.
Proof.
  destruct ex_loaded as [c|] eqn:E; [|vm_compute in E; discriminate E]. vm_compute in E. injection E as <-. eexists _, _, _. split; [reflexivity|].
  split.
  { split.
    - split; [done|]. eexists [_], 31%nat. split; [reflexivity|]. split; [by constructor|reflexivity].
    - by split; vm_compute.
    - done.
    - intros [|[|]] hc Hk; cbn in Hk; simplify_eq. split; [reflexivity..|]. by repeat (constructor; [vm_compute; split; discriminate|]).
    - intros [|[|]] hc p Hk; cbn in Hk; simplify_eq. intros Hp Hi. vm_compute in Hp. match type of Hp with list_elem_of _ ?l => change (p ∈ l) in Hp end.
      apply elem_of_cons in Hp as [->|Hp]; [vm_compute; reflexivity|]. apply elem_of_cons in Hp as [->|Hp]; [discriminate Hi|by apply elem_of_nil in Hp].
    - vm_compute. repeat (constructor; [split; discriminate|]). constructor.
    - vm_compute. apply NoDup_singleton. }
  split; [reflexivity|]. split; [reflexivity|]. split; reflexivity.
Qed.

(** A hit on a page that is in use. *)
Lemma cache_lookup_correct_witness : ∃ c q c' cells', ex_loaded = Ok c ∧ cache_lookup (mkId 3 8192) c = Ok (q, Some 0, c') ∧ serving 2 c' cells'.
Proof.
  destruct ex_loaded_serving as (c & hc & p & Hc & H & Ht & Hp & Hid & _).
  destruct (cache_lookup_correct 1 (mkId 3 8192) c [hc] H) as (q & r & c' & hc' & cells' & Hl & Hd & H' & Hr).
  - lia.
  - split; [split; [discriminate|reflexivity]|exists 2; reflexivity].
  - rewrite Ht. vm_compute. discriminate.
  - exists c, q, c', cells'. destruct r as [pg|].
    + split; [exact Hc|]. split; [|exact H']. clear -Hc Hl. vm_compute in Hc. injection Hc as <-. vm_compute in Hl. injection Hl as <- <- <-. reflexivity.
    + exfalso. destruct Hr as [Hr _]. apply (Hr p); [by eapply list_elem_of_lookup_2|exact Hid].
Defined.

(** ** What does not work *)

Definition ex_default : res (acache slab) := let? m := ex_mm in cache_new (PM := ex_pm) 12 49152 0 1 false m.

(** With the default least size of 12 pages a cell cannot be split: a full cell
    has 16 pages, [add_pages_to_min] fills the halves up to 8 only, so one of them is
    too small, and they no longer fit in one cell when they are merged again. *)
Theorem expand_default_fails : (let? c := ex_default in expand (PM := ex_pm) 12 30 c) = Throw AssertFailed.
Proof. vm_compute. reflexivity. Qed.

Definition ex_two_cells : res (acache slab) := let? c := ex_cache in let? r := expand (PM := ex_pm) 2 30 c in Ok r.2.

(** Taking more pages than the cells can spare makes the table smaller, and destroys
    the first array, which is still in use: the next search faults. *)
Theorem shrink_destroys_cells :
  let shrunk := (let? c := ex_two_cells in let? (_, c) := cache_shrink 2 29 c in Ok c) in
  (let? c := shrunk in Ok (c_level c, cells_table c !! 0%nat)) = Ok (0, Some None) ∧ (let? c := shrunk in cache_lookup (mkId 3 8192) c) = Throw Segfault.
Proof. split; vm_compute; reflexivity. Qed.
