(* ===== verification/Flusher.v ===== *)
(** * Writing back dirty pages: [associative_flusher] and [flush_io] of
      [SAFS/libsafs/associative_cache.cpp]

    Dirty pages are written back before they are evicted.  When pages become dirty,
    the flusher looks at their cells; a cell with enough dirty pages is flushed (a
    write request for each page the eviction policy would take next, at most
    [NUM_WRITEBACK_DIRTY_PAGES]) or, when too many writes are pending, put in a queue
    that [run] works off.  The I/O layer is outside: what it is given is the list
    [issued].  A request is for one page; it is the identifier of the page and
    where the page is. *)
From stdpp Require Import options gmap.
From S2P Require Import Prelude Fifo PageCell HashCell AssocCache.
Open Scope Z_scope.

Definition DIRTY_PAGES_THRESHOLD : Z := 1.
Definition NUM_WRITEBACK_DIRTY_PAGES : Z := 2.

(** ** Selecting pages: [select_dirty_pages_policy] *)

Definition dirty_set : Z := page_set_flag 0 DIRTY_BIT true.
Definition busy_set : Z := page_set_flag (page_set_flag 0 IO_PENDING_BIT true) PREPARE_WRITEBACK true.
Definition eviction_select (num : Z) (hc : hash_cell) : res (gmap Z Z * hash_cell) := hc_predict_evicted_pages num dirty_set busy_set ∅ hc.
Definition default_select (num : Z) (hc : hash_cell) : res (gmap Z Z * hash_cell) := hc_get_pages dirty_set busy_set ∅ hc.

(** ** [flush_cell] *)

(** A write request: the page's identifier and its slot in the cell. *)
Record wreq := mkWreq { w_id : page_id; w_slot : Z }.

(** The pages are visited in the order of the map, by offset. *)
Definition by_offset (pages : gmap Z Z) : list (Z * Z) := foldr (ins_by (λ x y, x.1 <? y.1)) [] (map_to_list pages).
Fixpoint flush_loop (l : list (Z * Z)) (room : Z) (c : page_cell) : res (list wreq * page_cell) :=
  match l with
  | [] => Ok ([], c)
  | (_, pg) :: l =>
      let? p := page_at c pg in
      if is_old_dirty p || negb (data_ready p) || negb (0 <? room) then Throw AssertFailed else
      if negb (is_io_pending p) && negb (is_prepare_writeback p) && is_dirty p then
        let? (rs, c) := flush_loop l (room - 1) (upd_page pg (λ p, dec_ref (set_prepare_writeback true p)) c) in
        Ok (mkWreq (id_of p) pg :: rs, c)
      else flush_loop l room (upd_page pg dec_ref c)
  end.
Definition flush_cell (hc : hash_cell) : res (list wreq * hash_cell) :=
  let? (pages, hc) := eviction_select NUM_WRITEBACK_DIRTY_PAGES hc in
  let? (rs, c) := flush_loop (by_offset pages) NUM_WRITEBACK_DIRTY_PAGES (hbuf hc) in
  Ok (rs, with_buf hc c).

(** ** The flusher *)

(** Its cache, the queue of cells, the counter of the cache and what it has sent. *)
Record flusher (St : Type) := mkFl {
  fl_cache : acache St;
  dirty_cells : ts_queue (Z * Z);
  num_pending_flush : Z;
  max_num_pending_flush : Z;
  issued : list ((Z * Z) * wreq)
}.
Arguments mkFl {St}. Arguments fl_cache {St}. Arguments dirty_cells {St}. Arguments num_pending_flush {St}.
Arguments max_num_pending_flush {St}. Arguments issued {St}.

Section flusher.
Context {St : Type}.
Notation fl := (flusher St).

Definition with_cache (c : acache St) (f : fl) : fl := mkFl c (dirty_cells f) (num_pending_flush f) (max_num_pending_flush f) (issued f).
Definition with_queue (q : ts_queue (Z * Z)) (f : fl) : fl := mkFl (fl_cache f) q (num_pending_flush f) (max_num_pending_flush f) (issued f).
Definition add_pending (n : Z) (f : fl) : fl := mkFl (fl_cache f) (dirty_cells f) (s32 (num_pending_flush f + n)) (max_num_pending_flush f) (issued f).

Definition flusher_new (c : acache St) (node max_pending : Z) : res fl :=
  let? q := ts_new (0, 0) "dirty_cells-" node (get_num_cells (tbl c)) in
  Ok (mkFl c q 0 max_pending []).

(** Sending the requests of a cell. *)
Definition access (p : Z * Z) (rs : list wreq) (f : fl) : fl := mkFl (fl_cache f) (dirty_cells f) (num_pending_flush f) (max_num_pending_flush f) (issued f ++ ((λ r, (p, r)) <$> rs)).

(** A cell is flushed and its requests are sent. *)
Definition flush_at (p : Z * Z) (f : fl) : res (Z * fl) :=
  let? hc := deref p (fl_cache f) in
  let? (rs, hc) := flush_cell hc in
  Ok (Z.of_nat (length rs), access p rs (with_cache (store_cell p hc (fl_cache f)) f)).
Definition mark_queue (v : bool) (p : Z * Z) (f : fl) : res (bool * fl) :=
  let? hc := deref p (fl_cache f) in
  let (orig, hc) := set_in_queue v hc in
  Ok (orig, with_cache (store_cell p hc (fl_cache f)) f).
Definition queue_add (cells : list (Z * Z)) (f : fl) : res (Z * fl) :=
  match ts_add (0, 0) cells (dirty_cells f) with (q, Ok n) => Ok (n, with_queue q f) | (_, Throw e) => Throw e end.
Definition queue_fetch (num : nat) (f : fl) : res (list (Z * Z) * fl) :=
  match ts_fetch num (dirty_cells f) with (q, Ok l) => Ok (l, with_queue q f) | (_, Throw e) => Throw e end.
Definition num_queued (f : fl) : Z := get_num_entries (ts_base (dirty_cells f)).

(** [run]: the loop over the fetched cells gives the cells to queue again and the
    number of requests. *)
Fixpoint run_cells (cells : list (Z * Z)) (f : fl) : res (list (Z * Z) * Z * fl) :=
  match cells with
  | [] => Ok ([], 0, f)
  | p :: cells =>
      let? (ret, f) := flush_at p f in
      if ret =? NUM_WRITEBACK_DIRTY_PAGES then
        let? (tmp, n, f) := run_cells cells f in Ok (p :: tmp, ret + n, f)
      else
        let? (_, f) := mark_queue false p f in
        let? (tmp, n, f) := run_cells cells f in Ok (tmp, ret + n, f)
  end.
Definition FETCH_BUF_SIZE : nat := 32.
Fixpoint run (fuel : nat) (f : fl) : res fl :=
  if 0 <? num_queued f then
    match fuel with
    | O => Throw OutOfFuel
    | S fuel =>
        let? (cells, f) := queue_fetch FETCH_BUF_SIZE f in
        let? (tmp, num_flushes, f) := run_cells cells f in
        let? (_, f) := queue_add tmp f in
        let f := add_pending num_flushes f in
        if max_num_pending_flush f <? num_pending_flush f then Ok f else run fuel f
    end
  else Ok f.

(** [flush_dirty_pages(pages, num, io)], called when the pages have become dirty. *)
Fixpoint consider (ids : list page_id) (f : fl) : res (list (Z * Z) * Z * fl) :=
  match ids with
  | [] => Ok ([], 0, f)
  | id :: ids =>
      let? p := get_cell_offset (tbl (fl_cache f)) id in
      let? hc := deref p (fl_cache f) in
      let? n := hc_num_pages dirty_set busy_set hc in
      if DIRTY_PAGES_THRESHOLD <? n then
        if max_num_pending_flush f <? num_pending_flush f then
          let? (was, f) := mark_queue true p f in
          let? (cs, k, f) := consider ids f in Ok (if was then cs else p :: cs, k, f)
        else
          let? (ret, f) := flush_at p f in
          if (ret =? NUM_WRITEBACK_DIRTY_PAGES) && (6 <? n - ret) then
            let? (was, f) := mark_queue true p f in
            let? (cs, k, f) := consider ids f in Ok (if was then cs else p :: cs, ret + k, f)
          else let? (cs, k, f) := consider ids f in Ok (cs, ret + k, f)
      else consider ids f
  end.
Definition flush_dirty_pages (use_flusher : bool) (ids : list page_id) (f : fl) : res fl :=
  if negb use_flusher then Ok f else
  let? (cells, num_flushes, f) := consider ids f in
  let f := if 0 <? num_flushes then add_pending num_flushes f else f in
  if (0 <? length cells)%nat then let? (_, f) := queue_add cells f in Ok f else Ok f.
(** [mark_dirty_pages] of the cache: nothing without a flusher. *)
Definition mark_dirty_pages (use_flusher : bool) (ids : list page_id) (f : option fl) : res (option fl) :=
  match f with Some f => let? f := flush_dirty_pages use_flusher ids f in Ok (Some f) | None => Ok None end.

(** [flush_dirty_pages(filter, max_num)]: the filter is not used. *)
Fixpoint flush_some (fuel : nat) (max_num num_flushes : Z) (f : fl) : res (Z * fl) :=
  if num_flushes <? max_num then
    match fuel with
    | O => Throw OutOfFuel
    | S fuel =>
        let num_cells := (max_num - num_flushes) `quot` NUM_WRITEBACK_DIRTY_PAGES in
        let num_cells := if num_cells =? 0 then 1 else num_cells in
        let? (cells, f) := queue_fetch (Z.to_nat num_cells) f in
        if (length cells =? 0)%nat then Ok (num_flushes, f) else
        let? (queue_cells, n, f) := run_cells cells f in
        let? (_, f) := queue_add queue_cells f in
        flush_some fuel max_num (num_flushes + n) f
    end
  else Ok (num_flushes, add_pending num_flushes f).
Definition flush_dirty_pages_max (fuel : nat) (use_flusher : bool) (max_num : Z) (f : fl) : res (Z * fl) :=
  if negb use_flusher then Ok (0, f) else flush_some fuel max_num 0 f.

(** [get_num_dirty_pages] of the cache *)
Fixpoint count_dirty (k : nat) (i : Z) (c : acache St) : res Z :=
  match k with
  | O => Ok 0
  | S k =>
      let? hc := the_cell i c in
      let? n := hc_num_pages dirty_set 0 hc in
      let? r := count_dirty k (i + 1) c in Ok (n + r)
  end.
Definition get_num_dirty_pages (c : acache St) : res Z := count_dirty (Z.to_nat (get_num_cells (tbl c))) 0 c.

(** ** [flush_io::notify_completion] *)

(** A completed request: it was discarded by the I/O thread, or its pages have been
    written.  The pages are a cell and slots in it. *)
Inductive completion :=
  | Discarded (id : page_id)
  | Written (cell : Z * Z) (slots : list Z).

Fixpoint written_pages (slots : list Z) (c : page_cell) : res page_cell :=
  match slots with
  | [] => Ok c
  | pg :: slots =>
      let? p := page_at c pg in
      if negb (is_dirty p) then Throw AssertFailed else
      written_pages slots (upd_page pg (λ p, dec_ref (set_io_pending false (set_dirty false p))) c)
  end.
Fixpoint complete (reqs : list completion) (f : fl) : res (list (Z * Z) * Z * fl) :=
  match reqs with
  | [] => Ok ([], 0, f)
  | Discarded id :: reqs =>
      let? p := get_cell_offset (tbl (fl_cache f)) id in
      let? hc := deref p (fl_cache f) in
      if is_in_queue hc then complete reqs f else
      if num_pending_flush f <? max_num_pending_flush f then
        let? (ret, f) := flush_at p f in
        if ret =? NUM_WRITEBACK_DIRTY_PAGES then
          let? (was, f) := mark_queue true p f in
          let? (cs, k, f) := complete reqs f in Ok (if was then cs else p :: cs, ret + k, f)
        else let? (cs, k, f) := complete reqs f in Ok (cs, ret + k, f)
      else let? (cs, k, f) := complete reqs f in Ok (p :: cs, k, f)
  | Written p slots :: reqs =>
      if (length slots =? 0)%nat then Throw AssertFailed else
      let? hc := deref p (fl_cache f) in
      let? c := written_pages slots (hbuf hc) in
      complete reqs (with_cache (store_cell p (with_buf hc c) (fl_cache f)) f)
  end.
Definition notify_completion (fuel : nat) (reqs : list completion) (f : fl) : res fl :=
  let? (cells, num_flushes, f) := complete reqs f in
  let? f := if (0 <? length cells)%nat then let? (_, f) := queue_add cells f in Ok f else Ok f in
  let f := if 0 <? num_flushes then add_pending num_flushes f else f in
  let f := add_pending (- Z.of_nat (length reqs)) f in
  if num_pending_flush f <? max_num_pending_flush f then run fuel f else Ok f.
End flusher.

(** ** The prediction of evicted pages *)

(** The selected pages: by offset, the slot of a page that is selected. *)
Definition picks (set_flags clear_flags : Z) (c : page_cell) (pages : gmap Z Z) : Prop :=
  ∀ off pg, pages !! off = Some pg → ∃ u p, pg = Z.of_nat u ∧ buf c !! u = Some p ∧ has_data p = true ∧ get_offset p = off ∧ selected set_flags clear_flags p = true.

Definition spent (hs : list Z) : Z := Z.of_nat (length (filter (λ h, h < 0) hs)).

Lemma spent_insert hs i h h' : hs !! i = Some h → 0 ≤ h → spent (<[i := h']> hs) = spent hs + (if bool_decide (h' < 0) then 1 else 0).
Proof.
  intros Hi Hh. unfold spent. rewrite (insert_take_drop _ _ _ (lookup_lt_Some _ _ _ Hi)). rewrite <-(take_drop_middle hs i h Hi) at 3.
  rewrite !filter_app, !length_app, !filter_cons. rewrite (decide_False (P := h < 0)) by lia. case_decide; case_bool_decide; try lia; cbn [length]; lia.
Qed.

Lemma spent_all hs : (∀ i h, hs !! i = Some h → h < 0) → spent hs = Z.of_nat (length hs).
Proof.
  intros H. unfold spent. f_equal. induction hs as [|h hs IH]; [done|]. rewrite filter_cons, decide_True by (by apply (H 0%nat)). cbn. f_equal. apply IH. intros i. apply (H (S i)).
Qed.

Section predict.
Context (head want set_flags clear_flags : Z) (c : page_cell).
Hypotheses (Hwf : cell_wf c) (Hn : MAX_NUM_WRITEBACK ≤ num_pages c) (Hhead : 0 ≤ head) (Hwrap : head + num_pages c ≤ 2 ^ 32) (Hwant : 1 ≤ want).

Definition hand (i : Z) : nat := Z.to_nat ((i + head) mod num_pages c).

(** What a pass keeps. *)
Record pass_inv (s : pred_state) : Prop := {
  pa_len : length s.1.2 = Z.to_nat (num_pages c);
  pa_picks : picks set_flags clear_flags c s.1.1;
  pa_size : Z.of_nat (size s.1.1) < want;
  pa_spent : s.2 = spent s.1.2;
  pa_likely : s.2 < MAX_NUM_WRITEBACK
}.

Definition pass_post (k : nat) (i : Z) (s : pred_state) (r : gmap Z Z + pred_state) : Prop :=
  match r with
  | inl pages => picks set_flags clear_flags c pages ∧ Z.of_nat (size pages) ≤ want
  | inr s' => pass_inv s' ∧ ∀ x h, s.1.2 !! x = Some h → ∃ h', s'.1.2 !! x = Some h' ∧ h' ≤ h ∧ ((∃ j, i ≤ j < i + Z.of_nat k ∧ hand j = x) → h' ≤ Z.max (h - 1) (-1))
  end.

(** One position of the hand, then the rest of the pass. *)
Lemma pass_cons k i s s1 r h h1 :
  s.1.2 !! hand i = Some h → s1.1.2 = <[hand i := h1]> s.1.2 → h1 ≤ h → h1 ≤ Z.max (h - 1) (-1) → pass_post k (i + 1) s1 r → pass_post (S k) i s r.
Proof.
  intros Hx E Hle1 Hle Hr. destruct r as [pages|s']; [done|]. destruct Hr as [Hinv Hd]. split; [done|]. intros x g Hg. rewrite E in Hd. destruct (decide (x = hand i)) as [->|Hne].
  - destruct (Hd (hand i) h1) as (h' & Hh' & Hl & _); [by apply list_lookup_insert_eq; eapply lookup_lt_Some|]. rewrite Hx in Hg. injection Hg as <-. exists h'. split_and!; [done|lia|lia].
  - destruct (Hd x g) as (h' & Hh' & Hl & Hj); [by rewrite list_lookup_insert_ne|]. exists h'. split_and!; [done|done|]. intros (j & Hj1 & Hj2). apply Hj. exists j. split; [|done].
    destruct (decide (j = i)) as [->|]; [congruence|lia].
Qed.

Lemma picks_insert pages u p : picks set_flags clear_flags c pages → buf c !! u = Some p → has_data p = true → selected set_flags clear_flags p = true →
  picks set_flags clear_flags c (match pages !! get_offset p with Some _ => pages | None => <[get_offset p := Z.of_nat u]> pages end).
Proof.
  intros Hp Hu Hd Hs. destruct (pages !! get_offset p); [done|]. intros off pg [[<- <-]|[_ Hl]]%lookup_insert_Some; [|by apply Hp]. exists u, p. done.
Qed.

Lemma size_insert_le (pages : gmap Z Z) off pg : (size (match pages !! off with Some _ => pages | None => <[off := pg]> pages end) ≤ S (size pages))%nat.
Proof. destruct (pages !! off) eqn:E; [lia|]. by rewrite map_size_insert_None. Qed.

Lemma predict_pass_ok k : ∀ i s, 0 ≤ i → i + Z.of_nat k ≤ num_pages c → pass_inv s →
  ∃ r, predict_pass k i head want set_flags clear_flags c s = Ok r ∧ pass_post k i s r.
Proof using Hwf Hn Hhead Hwrap.
  induction k as [|k IH]; intros i [[pages hs] likely] Hi Hk Hinv; cbn [predict_pass].
  { exists (inr (pages, hs, likely)). split; [done|]. split; [done|]. intros x h Hx. exists h. split_and!; [done|lia|]. intros (j & ? & _). lia. }
  pose proof Hinv as [Hlen Hp Hsz Hsp Hlk]. cbn [fst snd] in *. unfold MAX_NUM_WRITEBACK in *.
  assert (Z.to_nat (u32 (i + head) mod num_pages c) = hand i) as Ei by (unfold hand; rewrite u32_small by lia; done). rewrite Ei.
  assert (hand i < length hs)%nat as Hlt by (unfold hand; pose proof (Z.mod_pos_bound (i + head) (num_pages c)); lia). destruct (lookup_lt_is_Some_2 _ _ Hlt) as [h Hh]. rewrite Hh.
  assert (0 ≤ u32 (i + head) mod num_pages c < num_pages c) as Hix by (apply Z.mod_pos_bound; lia).
  destruct (Z.ltb_spec h 0) as [Hneg|Hpos].
  { destruct (IH (i + 1) (pages, hs, likely) ltac:(lia) ltac:(lia) Hinv) as (r & -> & Hr). exists r. split; [done|]. eapply (pass_cons k i _ (pages, hs, likely) r h h); cbn [fst snd]; try done; [|lia]. by rewrite list_insert_id. }
  destruct (Z.eqb_spec h 0) as [->|Hnz].
  - destruct (view_get c Hwf (u32 (i + head) mod num_pages c) Hix) as (u & p & Hu & Hv & Hb & -> & Hpa & Hd). cbn [rbind]. rewrite Hpa. cbn [rbind]. fold (selected set_flags clear_flags p).
    set (pages' := if selected set_flags clear_flags p then _ else _).
    assert (picks set_flags clear_flags c pages' ∧ Z.of_nat (size pages') ≤ want ∧ (selected set_flags clear_flags p = false → pages' = pages)) as (Hp' & Hsz' & Hsame).
    { unfold pages'. destruct (selected _ _ p) eqn:Es; [|split_and!; [done|lia|done]]. split_and!; [by apply picks_insert|pose proof (size_insert_le pages (get_offset p) (Z.of_nat u)); lia|done]. }
    destruct (selected set_flags clear_flags p && (Z.of_nat (size pages') =? want)) eqn:Efull; [exists (inl pages'); done|].
    destruct (Z.leb_spec 4 (likely + 1)) as [Hmax|Hmax]; [exists (inl pages'); done|].
    destruct (IH (i + 1) (pages', <[hand i := -1]> hs, likely + 1) ltac:(lia) ltac:(lia)) as (r & -> & Hr).
    { split; cbn [fst snd]; [by rewrite length_insert|done| | |unfold MAX_NUM_WRITEBACK; lia].
      - destruct (selected _ _ p) eqn:Es; [lia|]. by rewrite Hsame.
      - rewrite (spent_insert _ _ _ _ Hh) by lia. rewrite bool_decide_true by lia. lia. }
    exists r. split; [done|]. eapply (pass_cons k i _ (pages', <[hand i := -1]> hs, likely + 1) r 0 (-1)); cbn [fst snd]; [exact Hh|done|lia|lia|exact Hr].
  - destruct (Z.leb_spec 4 likely) as [Hmax|Hmax]; [lia|].
    destruct (IH (i + 1) (pages, <[hand i := h - 1]> hs, likely) ltac:(lia) ltac:(lia)) as (r & -> & Hr).
    { split; cbn [fst snd]; [by rewrite length_insert|done|done| |done]. rewrite (spent_insert _ _ _ _ Hh) by lia. rewrite bool_decide_false by lia. lia. }
    exists r. split; [done|]. eapply (pass_cons k i _ (pages, <[hand i := h - 1]> hs, likely) r h (h - 1)); cbn [fst snd]; [exact Hh|done|lia|lia|exact Hr].
Qed.

(** Every position is visited in a pass, so the largest count goes down. *)
Lemma hand_all x : (x < Z.to_nat (num_pages c))%nat → ∃ j, 0 ≤ j < 0 + Z.of_nat (Z.to_nat (num_pages c)) ∧ hand j = x.
Proof using Hn.
  intros Hx. unfold MAX_NUM_WRITEBACK in *. exists ((Z.of_nat x - head) mod num_pages c). pose proof (Z.mod_pos_bound (Z.of_nat x - head) (num_pages c)). split; [lia|]. unfold hand. rewrite Z.add_mod_idemp_l by lia.
  replace (Z.of_nat x - head + head) with (Z.of_nat x) by lia. rewrite Z.mod_small by lia. lia.
Qed.

Lemma predict_loop_ok fuel : ∀ s m, pass_inv s → (∀ x h, s.1.2 !! x = Some h → h ≤ m) → m + 1 < Z.of_nat fuel →
  ∃ pages, predict_loop fuel head want set_flags clear_flags c s = Ok pages ∧ picks set_flags clear_flags c pages ∧ Z.of_nat (size pages) ≤ want.
Proof using Hwf Hn Hhead Hwrap.
  induction fuel as [|fuel IH]; intros s m Hinv Hm Hf; pose proof Hinv as [Hlen _ _ Hsp Hlk].
  { exfalso. unfold MAX_NUM_WRITEBACK in *. rewrite spent_all in Hsp by (intros i h Hh; specialize (Hm i h Hh); lia). lia. }
  cbn [predict_loop]. destruct (predict_pass_ok (Z.to_nat (num_pages c)) 0 s ltac:(lia) ltac:(unfold MAX_NUM_WRITEBACK in *; lia) Hinv) as (r & -> & Hr). cbn [rbind].
  destruct r as [pages|s']; [by exists pages|]. destruct Hr as [Hinv' Hd]. destruct (decide (m < 0)) as [Hneg|Hpos].
  { exfalso. unfold MAX_NUM_WRITEBACK in *. rewrite spent_all in Hsp by (intros i h Hh; specialize (Hm i h Hh); lia). lia. }
  apply (IH s' (m - 1) Hinv'); [|lia]. intros x h' Hx. assert (x < length s.1.2)%nat as Hlt by (rewrite Hlen, <-(pa_len _ Hinv'); by eapply lookup_lt_Some).
  destruct (lookup_lt_is_Some_2 _ _ Hlt) as [h Hh]. destruct (Hd x h Hh) as (h'' & Hh'' & _ & Hj). rewrite Hx in Hh''. injection Hh'' as <-. specialize (Hm x h Hh).
  rewrite Hlen in Hlt. specialize (Hj (hand_all x Hlt)). lia.
Qed.
End predict.

(** ** Cells that differ only in their pages *)

Record paged (R : page → page → Prop) (c c' : page_cell) : Prop := {
  pd_idx : idx c' = idx c;
  pd_num : num_pages c' = num_pages c;
  pd_maps : maps c' = maps c;
  pd_buf : Forall2 R (buf c) (buf c')
}.

Lemma paged_refl (R : page → page → Prop) c : (∀ p, R p p) → paged R c c.
Proof. intros HR. split; try done. induction (buf c); by constructor. Qed.

Lemma paged_trans (R S T : page → page → Prop) c1 c2 c3 : (∀ p q r, R p q → S q r → T p r) → paged R c1 c2 → paged S c2 c3 → paged T c1 c3.
Proof.
  intros HT [? ? ? H1] [? ? ? H2]. split; try congruence. revert H2. generalize (buf c3). induction H1 as [|p q l k HR _ IH]; intros m H2; inversion H2; subst; [done|]. constructor; eauto.
Qed.

Lemma paged_upd (R : page → page → Prop) c u f : (∀ p, R p p) → (∀ p, buf c !! u = Some p → R p (f p)) → paged R c (upd_page (Z.of_nat u) f c).
Proof.
  intros HR Hf. split; try done. cbn. rewrite Nat2Z.id. apply Forall2_same_length_lookup_2; [by rewrite length_alter|]. intros i p q Hp Hq. rewrite list_lookup_alter in Hq. case_decide as E.
  - subst i. rewrite Hp in Hq. injection Hq as <-. by apply Hf.
  - rewrite Hp in Hq. by injection Hq as <-.
Qed.

Lemma paged_lookup R c c' u p : paged R c c' → buf c !! u = Some p → ∃ q, buf c' !! u = Some q ∧ R p q.
Proof. intros H Hp. destruct (Forall2_lookup_l _ _ _ _ _ (pd_buf _ _ _ H) Hp) as (q & ? & ?). eauto. Qed.

Lemma paged_used (R : page → page → Prop) c c' : (∀ p q, R p q → has_data q = has_data p) → paged R c c' → used (buf c') = used (buf c).
Proof.
  intros HR H. unfold used. rewrite <-(Forall2_length _ _ _ (pd_buf _ _ _ H)). apply filter_ext_in. intros u [_ Hu]%elem_of_seq.
  destruct (lookup_lt_is_Some_2 (buf c) u) as [p Hp]; [lia|]. destruct (paged_lookup _ _ _ _ _ H Hp) as (q & Hq & HR'). rewrite Hp, Hq. cbn. by rewrite (HR p q HR').
Qed.

Lemma paged_wf (R : page → page → Prop) c c' : (∀ p q, R p q → has_data q = has_data p) → (∀ p q, R p q → page_ok p → page_ok q) → cell_wf c → paged R c c' → cell_wf c'.
Proof.
  intros H1 H2 [W1 W2 W3 W4 W5] H. pose proof (paged_used R c c' H1 H) as Hu. split; rewrite ?(pd_maps _ _ _ H), ?(pd_num _ _ _ H), ?Hu; try done.
  - by rewrite <-(Forall2_length _ _ _ (pd_buf _ _ _ H)).
  - apply Forall_lookup_2. intros i q Hq. destruct (Forall2_lookup_r _ _ _ _ _ (pd_buf _ _ _ H) Hq) as (p & Hp & HR). apply (H2 p q HR). by eapply Forall_lookup_1.
Qed.

(** Only the flush score. *)
Definition rescored (p q : page) : Prop := ∃ s, q = with_score p s.
Lemma rescored_refl p : rescored p p.
Proof. exists (flush_score p). by destruct p. Qed.
Lemma rescored_trans p q r : rescored p q → rescored q r → rescored p r.
Proof. intros [s ->] [t ->]. by exists t. Qed.
Lemma rescored_data p q : rescored p q → has_data q = has_data p.
Proof. by intros [s ->]. Qed.
Lemma rescored_ok p q : rescored p q → page_ok p → page_ok q.
Proof. by intros [s ->]. Qed.

Lemma collect_scores_ok k : ∀ i head c, cell_wf c → 0 ≤ i → i + Z.of_nat k = num_pages c →
  ∃ l c', collect_scores k i head c = Ok (l, c') ∧ cell_wf c' ∧ paged rescored c c' ∧ Forall (λ x, 0 ≤ x.1) l.
Proof.
  induction k as [|k IH]; intros i head c Hwf Hi Hk; cbn [collect_scores]; [exists [], c; split_and!; try done; apply paged_refl, rescored_refl|].
  destruct (view_get c Hwf i) as (u & p & Hu & Hv & Hb & -> & Hpa & Hd); [lia|]. cbn [rbind]. rewrite Hpa. cbn [rbind]. destruct (is_valid p); [|apply IH; [done|lia|lia]].
  set (c1 := upd_page _ _ c). assert (paged rescored c c1) as H1 by (apply paged_upd; [apply rescored_refl|intros q _; by eexists]).
  pose proof (paged_wf rescored c c1 rescored_data rescored_ok Hwf H1) as Hwf1. destruct (IH (i + 1) head c1 Hwf1) as (l & c' & -> & Hwf' & H2 & Hl); [lia|rewrite (pd_num _ _ _ H1); lia|].
  cbn [rbind fst snd]. eexists _, c'. split_and!; [done|done|by eapply paged_trans; [apply rescored_trans|done|done]|constructor; [cbn; lia|done]].
Qed.

Lemma number_scores_ok l : ∀ i c, Forall (λ x, 0 ≤ x.1) l → paged rescored c (number_scores i l c).
Proof.
  induction l as [|[pg s] l IH]; intros i c Hl; cbn [number_scores]; [apply paged_refl, rescored_refl|]. apply Forall_cons in Hl as [Hpg Hl]. cbn in Hpg.
  eapply paged_trans; [apply rescored_trans| |by apply IH]. rewrite <-(Z2Nat.id pg Hpg). apply paged_upd; [apply rescored_refl|]. intros q _. by eexists.
Qed.

Lemma assign_flush_scores_ok head c : cell_wf c → 0 < num_pages c → ∃ c', assign_flush_scores head c = Ok c' ∧ cell_wf c' ∧ paged rescored c c'.
Proof.
  intros Hwf Hn. unfold assign_flush_scores. rewrite (proj2 (Z.eqb_neq _ _)) by lia.
  destruct (collect_scores_ok (Z.to_nat (num_pages c)) 0 (head mod num_pages c) c Hwf) as (l & c1 & -> & _ & H1 & Hl); [lia|lia|]. cbn [rbind fst snd].
  assert (paged rescored c (number_scores 0 (sort_scores l) c1)) as H2.
  { eapply paged_trans; [apply rescored_trans|done|]. apply number_scores_ok. unfold sort_scores.
    assert (foldr (ins_by (λ x y, x.2 <? y.2)) [] l ≡ₚ l) as -> by (clear; induction l as [|x l IH]; [done|]; cbn; by rewrite ins_by_perm, IH). done. }
  eexists. split_and!; [done| |done]. by apply (paged_wf rescored c); [apply rescored_data|apply rescored_ok| |].
Qed.

Lemma copy_hits_ok k : ∀ i c, cell_wf c → 0 ≤ i → i + Z.of_nat k = num_pages c → ∃ hs, copy_hits k i c = Ok hs ∧ length hs = k ∧ Forall (λ h, 0 ≤ h ≤ 255) hs.
Proof.
  induction k as [|k IH]; intros i c Hwf Hi Hk; cbn [copy_hits]; [by exists []|].
  destruct (view_get c Hwf i) as (u & p & Hu & Hv & Hb & -> & Hpa & Hd); [lia|]. cbn [rbind]. rewrite Hpa. cbn [rbind]. destruct (IH (i + 1) c Hwf ltac:(lia) ltac:(lia)) as (hs & -> & Hl & Hf). cbn [rbind].
  eexists. split_and!; [done|cbn; lia|]. constructor; [|done]. exact (Forall_lookup_1 _ _ _ _ (wf_pages _ Hwf) Hb).
Qed.

Lemma predict_ok head want set_flags clear_flags c :
  cell_wf c → MAX_NUM_WRITEBACK ≤ num_pages c → 0 ≤ head → head + num_pages c ≤ 2 ^ 32 → 1 ≤ want →
  ∃ pages c', predict_evicted_pages head want set_flags clear_flags ∅ c = Ok (pages, c') ∧ cell_wf c' ∧ paged rescored c c' ∧ picks set_flags clear_flags c' pages ∧ Z.of_nat (size pages) ≤ want.
Proof.
  intros Hwf Hn Hh Hw Hwant. unfold predict_evicted_pages. destruct (copy_hits_ok (Z.to_nat (num_pages c)) 0 c Hwf) as (hs & -> & Hl & Hf); [lia|unfold MAX_NUM_WRITEBACK in *; lia|]. cbn [rbind].
  destruct (assign_flush_scores_ok head c Hwf) as (c' & -> & Hwf' & Hp); [unfold MAX_NUM_WRITEBACK in *; lia|]. cbn [rbind]. pose proof (pd_num _ _ _ Hp) as En.
  destruct (predict_loop_ok head want set_flags clear_flags c' Hwf' ltac:(lia) Hh ltac:(lia) 257 (∅, hs, 0) 255) as (pages & -> & Hpk & Hsz).
  - split; cbn [fst snd]; [congruence|by intros off pg ?%lookup_empty_Some|rewrite map_size_empty; lia| |done].
    unfold spent. assert (filter (λ h, h < 0) hs = []) as ->; [|done]. clear -Hf. induction Hf as [|h hs Hh _ IH]; [done|]. rewrite filter_cons, decide_False by lia. exact IH.
  - cbn [fst snd]. intros x h Hx. pose proof (Forall_lookup_1 _ _ _ _ Hf Hx). cbn in *. lia.
  - lia.
  - cbn [rbind]. exists pages, c'. done.
Qed.

(** ** What [flush_cell] does *)

(** Changing the pages in distinct slots. *)
Definition upd_slots (f : page → page) (us : list nat) (c : page_cell) : page_cell := foldr (λ u, upd_page (Z.of_nat u) f) c us.

Lemma upd_slots_fields f us c : idx (upd_slots f us c) = idx c ∧ num_pages (upd_slots f us c) = num_pages c ∧ maps (upd_slots f us c) = maps c.
Proof. induction us as [|u us IH]; [done|]. exact IH. Qed.

Lemma upd_slots_lookup f us c u : NoDup us → buf (upd_slots f us c) !! u = if bool_decide (u ∈ us) then f <$> buf c !! u else buf c !! u.
Proof.
  induction 1 as [|v us Hv _ IH]; [done|]. cbn [upd_slots foldr]. cbn [upd_page buf]. rewrite Nat2Z.id, list_lookup_alter. fold (upd_slots f us c). destruct (decide (v = u)) as [->|E]; rewrite IH.
  - rewrite (bool_decide_false _ Hv), bool_decide_true; [done|left].
  - case_bool_decide as E1; [rewrite bool_decide_true; [done|by right]|]. rewrite bool_decide_false; [done|]. by intros [|]%elem_of_cons.
Qed.

Lemma upd_slots_fold f (l : list (Z * Z)) c : Forall (λ x, 0 ≤ x.2) l → foldr (λ x c, upd_page x.2 f c) c l = upd_slots f (Z.to_nat <$> l.*2) c.
Proof. induction 1 as [|[o pg] l H _ IH]; [done|]. cbn in H |- *. by rewrite IH, Z2Nat.id. Qed.

(** A page that [flush_loop] writes. *)
Definition to_write (p : page) : Prop := is_io_pending p = false ∧ is_prepare_writeback p = false ∧ is_dirty p = true ∧ is_old_dirty p = false ∧ data_ready p = true.
Definition request_of (c : page_cell) (u : nat) : wreq := mkWreq (id_of (default null_page (buf c !! u))) (Z.of_nat u).
Definition queued (p : page) : page := dec_ref (set_prepare_writeback true p).

Lemma flush_loop_ok l : ∀ room c us, l.*2 = Z.of_nat <$> us → NoDup us → (∀ u, u ∈ us → ∃ p, buf c !! u = Some p ∧ to_write p) → Z.of_nat (length us) ≤ room →
  ∃ c', flush_loop l room c = Ok (request_of c <$> us, c') ∧ idx c' = idx c ∧ num_pages c' = num_pages c ∧ maps c' = maps c ∧
    ∀ u, buf c' !! u = if bool_decide (u ∈ us) then queued <$> buf c !! u else buf c !! u.
Proof.
  induction l as [|[off pg] l IH]; intros room c us Hus Hnd Hw Hr; destruct us as [|u us]; try done; [by exists c|]. cbn [fmap list_fmap snd] in Hus. injection Hus as -> Hus. apply NoDup_cons in Hnd as [Hu Hnd].
  cbn [flush_loop]. destruct (Hw u ltac:(left)) as (p & Hp & H1 & H2 & H3 & H4 & H5). rewrite (page_at_lookup _ _ _ Hp). cbn [rbind]. cbn [length] in Hr.
  rewrite H1, H2, H3, H4, H5, (proj2 (Z.ltb_lt 0 room)) by lia. cbn [negb orb andb]. set (c1 := upd_page (Z.of_nat u) _ c).
  assert (∀ v, buf c1 !! v = if decide (u = v) then queued <$> buf c !! u else buf c !! v) as Hc1 by (intros v; cbn; by rewrite Nat2Z.id, list_lookup_alter).
  destruct (IH (room - 1) c1 us Hus Hnd) as (c' & -> & E1 & E2 & E3 & Hb); [|lia|].
  { intros v Hv. rewrite Hc1, decide_False by (intros ->; done). apply Hw. by right. }
  cbn [rbind fst snd]. exists c'. split_and!; try done.
  - do 2 f_equal. cbn [fmap list_fmap]. f_equal; [unfold request_of; by rewrite Hp|]. apply list_fmap_ext. intros i v Hv. unfold request_of. rewrite Hc1, decide_False; [done|]. intros ->. by apply list_elem_of_lookup_2 in Hv.
  - intros v. rewrite Hb, Hc1. destruct (decide (u = v)) as [<-|Hne].
    + rewrite bool_decide_false, bool_decide_true; [done|left|done].
    + case_bool_decide as E; [rewrite bool_decide_true; [done|by right]|]. rewrite bool_decide_false; [done|]. by intros [|]%elem_of_cons.
Qed.

Lemma selected_flags p : selected dirty_set busy_set p = true → is_dirty p = true ∧ is_io_pending p = false ∧ is_prepare_writeback p = false.
Proof.
  unfold selected, test_flags, is_dirty, is_io_pending, is_prepare_writeback, get_flag. change dirty_set with 4. change busy_set with 18.
  change (Z.shiftl 1 DIRTY_BIT) with 4. change (Z.shiftl 1 IO_PENDING_BIT) with 2. change (Z.shiftl 1 PREPARE_WRITEBACK) with 16. intros [H1 H2]%andb_prop. rewrite negb_involutive in H2. apply Z.eqb_eq in H2. split; [done|].
  assert (∀ m, Z.land 18 m = m → Z.land (flags p) m = 0) as Hz by (intros m E; rewrite <-E, Z.land_assoc, H2; done). by rewrite (Hz 2), (Hz 16).
Qed.

(** Taking a reference and giving it back. *)
Lemma inc_dec_ref p : - 2 ^ 15 ≤ refcnt p < 2 ^ 15 - 1 → queued (inc_ref p) = set_prepare_writeback true p.
Proof.
  intros H. unfold queued, dec_ref, inc_ref, set_prepare_writeback, set_flag, with_ref, with_flags, s16. destruct p as [o f d r h fl w s]. cbn [refcnt flags] in *. cbn.
  rewrite (Z.mod_small (r + 1 + _)) by lia. replace (r + 1 + 2 ^ 15 - 2 ^ 15 - 1 + 2 ^ 15) with (r + 2 ^ 15) by lia. rewrite Z.mod_small by lia. f_equal. lia.
Qed.

Lemma picks_slots c pages : picks dirty_set busy_set c pages → ∃ us, (map_to_list pages).*2 = Z.of_nat <$> us ∧ NoDup us ∧ length us = size pages ∧
  ∀ u, u ∈ us → ∃ p, buf c !! u = Some p ∧ has_data p = true ∧ selected dirty_set busy_set p = true.
Proof.
  intros Hp. exists (Z.to_nat <$> (map_to_list pages).*2). assert (Forall (λ x, ∃ u p, x.2 = Z.of_nat u ∧ buf c !! u = Some p ∧ has_data p = true ∧ get_offset p = x.1 ∧ selected dirty_set busy_set p = true) (map_to_list pages)) as Hall.
  { apply Forall_forall. intros [off pg] Hin%elem_of_map_to_list. destruct (Hp off pg Hin) as (u & p & H). by exists u, p. }
  rewrite Forall_forall in Hall. split_and!.
  - rewrite <-!list_fmap_compose. apply list_fmap_ext. intros i x Hx%list_elem_of_lookup_2. destruct (Hall x Hx) as (u & p & E & _). cbn. rewrite E. by rewrite Nat2Z.id.
  - rewrite <-list_fmap_compose. apply NoDup_fmap_2_strong; [|apply NoDup_map_to_list]. intros [o1 g1] [o2 g2] H1 H2 E. cbn in E. destruct (Hall _ H1) as (u1 & p1 & E1 & B1 & _ & O1 & _), (Hall _ H2) as (u2 & p2 & E2 & B2 & _ & O2 & _).
    cbn in *. subst g1 g2. rewrite !Nat2Z.id in E. subst u2. congruence.
  - by rewrite !length_fmap, length_map_to_list.
  - intros u (pg & -> & Hin)%list_elem_of_fmap. apply list_elem_of_fmap in Hin as (x & -> & Hin). destruct (Hall x Hin) as (v & p & -> & Hb & Hd & _ & Hs).
    exists p. by rewrite Nat2Z.id.
Qed.

(** What can be asked of a cell that is flushed: pages to be written have their data
    and no older data waiting, and reference counts are in range. *)
Record flushable (hc : hash_cell) : Prop := {
  fb_wf : cell_wf (hbuf hc);
  fb_num : MAX_NUM_WRITEBACK ≤ num_pages (hbuf hc);
  fb_head : 0 ≤ clock_head hc ∧ clock_head hc + num_pages (hbuf hc) ≤ 2 ^ 32;
  fb_page u p : buf (hbuf hc) !! u = Some p → - 2 ^ 15 ≤ refcnt p < 2 ^ 15 - 1 ∧ (selected dirty_set busy_set p = true → data_ready p = true ∧ is_old_dirty p = false)
}.

(** The effect on the pages: those in the slots [us] are marked. *)
Definition marked (us : list nat) (c c' : page_cell) : Prop :=
  ∀ u p, buf c !! u = Some p → ∃ s, buf c' !! u = Some (if bool_decide (u ∈ us) then set_prepare_writeback true (with_score p s) else with_score p s).

Lemma by_offset_perm pages : by_offset pages ≡ₚ map_to_list pages.
Proof. unfold by_offset. induction (map_to_list pages) as [|x l IH]; [done|]. cbn. by rewrite ins_by_perm, IH. Qed.

Lemma flush_cell_spec hc : flushable hc →
  ∃ us hc', flush_cell hc = Ok (request_of (hbuf hc) <$> us, hc') ∧ cell_wf (hbuf hc') ∧ num_pages (hbuf hc') = num_pages (hbuf hc) ∧
    hash hc' = hash hc ∧ hflags hc' = hflags hc ∧ clock_head hc' = clock_head hc ∧ length (buf (hbuf hc')) = length (buf (hbuf hc)) ∧
    NoDup us ∧ Z.of_nat (length us) ≤ NUM_WRITEBACK_DIRTY_PAGES ∧ marked us (hbuf hc) (hbuf hc') ∧
    ∀ u, u ∈ us → ∃ p, buf (hbuf hc) !! u = Some p ∧ has_data p = true ∧ selected dirty_set busy_set p = true.
Proof.
  intros [Hwf Hn [Hh1 Hh2] Hpg]. unfold flush_cell, eviction_select, hc_predict_evicted_pages.
  destruct (predict_ok (clock_head hc) NUM_WRITEBACK_DIRTY_PAGES dirty_set busy_set (hbuf hc) Hwf Hn Hh1 Hh2) as (pages & c1 & -> & Hwf1 & H1 & Hpk & Hsz); [unfold NUM_WRITEBACK_DIRTY_PAGES; lia|].
  cbn [rbind fst snd]. rewrite map_fold_foldr. destruct (picks_slots c1 pages Hpk) as (us & Eus & Hnd & Hlen & Hus).
  assert (Forall (λ x, 0 ≤ x.2) (map_to_list pages)) as Hpos.
  { apply Forall_forall. intros x Hx. assert (x.2 ∈ (map_to_list pages).*2) as Hin by (apply list_elem_of_fmap; eauto). rewrite Eus in Hin. apply list_elem_of_fmap in Hin as (u & -> & _). lia. }
  assert (foldr (uncurry (λ _ pg c, upd_page pg inc_ref c)) c1 (map_to_list pages) = upd_slots inc_ref us c1) as Ec2.
  { trans (foldr (λ x c, upd_page x.2 inc_ref c) c1 (map_to_list pages)); [clear; induction (map_to_list pages) as [|[o g] l IH]; cbn; congruence|].
    rewrite upd_slots_fold by done. rewrite Eus, <-list_fmap_compose. f_equal. trans (id <$> us); [apply list_fmap_ext; intros; cbn; apply Nat2Z.id|apply list_fmap_id]. }
  rewrite Ec2. set (c2 := upd_slots inc_ref us c1). destruct (upd_slots_fields inc_ref us c1) as (F1 & F2 & F3). fold c2 in F1, F2, F3.
  assert (∃ vs, (by_offset pages).*2 = Z.of_nat <$> vs ∧ us ≡ₚ vs) as (vs & Evs & Hvs).
  { destruct (Permutation_map_inv Z.of_nat us (l1 := (by_offset pages).*2)) as (vs & E & Hp); [|by exists vs]. change (map Z.of_nat us) with (Z.of_nat <$> us). rewrite <-Eus. f_equiv. apply by_offset_perm. }
  assert (∀ u, u ∈ us ↔ u ∈ vs) as Hin by (intros u; by rewrite Hvs). cbn [hbuf with_buf].
  assert (∀ u, buf c2 !! u = if bool_decide (u ∈ us) then inc_ref <$> buf c1 !! u else buf c1 !! u) as Hc2 by (intros u; by apply upd_slots_lookup).
  assert (∀ u p, buf (hbuf hc) !! u = Some p → ∃ s, buf c1 !! u = Some (with_score p s)) as Hc1 by (intros u p Hp; destruct (paged_lookup _ _ _ _ _ H1 Hp) as (q & ? & [s ->]); eauto).
  assert (∀ u p1, buf c1 !! u = Some p1 → ∃ p s, buf (hbuf hc) !! u = Some p ∧ p1 = with_score p s) as Hc1'.
  { intros u p1 Hp1. destruct (Forall2_lookup_r _ _ _ _ _ (pd_buf _ _ _ H1) Hp1) as (p & Hp & [s ->]). eauto. }
  destruct (flush_loop_ok (by_offset pages) NUM_WRITEBACK_DIRTY_PAGES c2 vs Evs) as (c3 & -> & G1 & G2 & G3 & Hc3).
  - by rewrite <-Hvs.
  - intros u Hu%Hin. destruct (Hus u Hu) as (p1 & Hp1 & Hd & Hs). destruct (Hc1' u p1 Hp1) as (p & s & Hp & ->). exists (inc_ref (with_score p s)). rewrite Hc2, bool_decide_true, Hp1 by done. split; [done|].
    destruct (selected_flags _ Hs) as (S1 & S2 & S3). destruct (Hpg u p Hp) as [_ Hr]. destruct (Hr Hs) as [R1 R2]. done.
  - rewrite <-(Permutation_length Hvs). lia.
  - cbn [rbind fst snd]. eexists vs, (with_buf _ c3). split.
    { do 2 f_equal. apply list_fmap_ext. intros i u Hu%list_elem_of_lookup_2%Hin. destruct (Hus u Hu) as (p1 & Hp1 & _). destruct (Hc1' u p1 Hp1) as (p & s & Hp & ->).
      unfold request_of. by rewrite Hc2, bool_decide_true, Hp1, Hp by done. }
    assert (marked vs (hbuf hc) c3) as Hm.
    { intros u p Hp. destruct (Hc1 u p Hp) as [s Hs]. exists s. rewrite Hc3, !Hc2, Hs. rewrite (bool_decide_ext (u ∈ us) (u ∈ vs) (Hin u)). case_bool_decide; [|done]. cbn. f_equal.
      apply (inc_dec_ref (with_score p s)). by apply (Hpg u p Hp). }
    assert (length (buf c3) = length (buf (hbuf hc))) as El.
    { assert (∀ u, is_Some (buf c3 !! u) ↔ is_Some (buf (hbuf hc) !! u)) as Hsome.
      { intros u. rewrite Hc3, !Hc2. split.
        - intros Hx. assert (is_Some (buf c1 !! u)) as [p1 Hp1] by (repeat case_bool_decide; rewrite ?fmap_is_Some in Hx; done). destruct (Hc1' u p1 Hp1) as (p & _ & -> & _). done.
        - intros [p Hp]. destruct (Hc1 u p Hp) as [s ->]. repeat case_bool_decide; done. }
      apply Nat.le_antisymm; apply Nat.nlt_ge; intros Hlt; [destruct (proj1 (Hsome (length (buf (hbuf hc))))) as [x Hx]|destruct (proj2 (Hsome (length (buf c3)))) as [x Hx]];
        try (by apply lookup_lt_is_Some_2); apply lookup_lt_Some in Hx; lia. }
    split_and!; try done; cbn [hbuf with_buf].
    + apply (paged_wf (λ p q, ∃ s, q = with_score p s ∨ q = set_prepare_writeback true (with_score p s)) (hbuf hc)); [by intros p q [s [-> | ->]]|by intros p q [s [-> | ->]]|done|].
      split; [by rewrite G1, F1, (pd_idx _ _ _ H1)|by rewrite G2, F2, (pd_num _ _ _ H1)|by rewrite G3, F3, (pd_maps _ _ _ H1)|]. apply Forall2_same_length_lookup_2; [done|].
      intros u p q Hp Hq. destruct (Hm u p Hp) as [s Hs]. rewrite Hq in Hs. injection Hs as ->. exists s. case_bool_decide; [by right|by left].
    + by rewrite G2, F2, (pd_num _ _ _ H1).
    + by rewrite <-Hvs.
    + rewrite <-(Permutation_length Hvs). lia.
    + intros u Hu%Hin. destruct (Hus u Hu) as (p1 & Hp1 & Hd & Hs). destruct (Hc1' u p1 Hp1) as (p & s & Hp & ->). by exists p.
Qed.

(** ** The queue *)

Section run.
Context {St : Type}.
Notation fl := (flusher St).

Lemma queue_fetch_ok k num (f : fl) l : ts_rep k (dirty_cells f) l →
  ∃ q, queue_fetch num f = Ok (take num l, with_queue q f) ∧ ts_rep k q (drop num l).
Proof.
  intros [H Hm Hz]. destruct (rep_fetch k (ts_base (dirty_cells f)) l num H) as (s & Hf & H'). exists (mkTS (set_start s (ts_base (dirty_cells f))) (ts_max_size (dirty_cells f)) (ts_name (dirty_cells f))).
  unfold queue_fetch, ts_fetch. rewrite (ts_lift_run _ _ _ _ Hf). split; [done|]. by split.
Qed.

Lemma queue_add_ok k (f : fl) l vs : ts_rep k (dirty_cells f) l → Z.of_nat (length l) + Z.of_nat (length vs) ≤ 2 ^ k →
  ∃ q, queue_add vs f = Ok (Z.of_nat (length vs), with_queue q f) ∧ ts_rep k q (l ++ vs).
Proof.
  intros H Hle. destruct (ts_add_plain (0, 0) k (dirty_cells f) l vs H (or_introl Hle)) as (q & Ha & H'). exists q. unfold queue_add. rewrite Ha. rewrite Z.min_l by lia. split; [done|].
  rewrite take_ge in H' by lia. done.
Qed.

(** ** Which pages have been requested *)

(** Page [u] of cell [k]. *)
Definition page_in (cells : list hash_cell) (x : nat * nat) : option page := cells !! x.1 ≫= λ hc, buf (hbuf hc) !! x.2.

(** [cells] are the cells [cells0] after requests for the pages in [ws]: these were
    dirty and not being written, and are marked; other pages are the same. *)
Record requested (cells0 : list hash_cell) (ws : list (nat * nat)) (cells : list hash_cell) : Prop := {
  rq_len : length cells = length cells0;
  rq_cell k hc : cells !! k = Some hc → flushable hc ∧ ∃ hc0, cells0 !! k = Some hc0 ∧ length (buf (hbuf hc)) = length (buf (hbuf hc0));
  rq_nodup : NoDup ws;
  rq_sel x : x ∈ ws → ∃ p, page_in cells0 x = Some p ∧ selected dirty_set busy_set p = true;
  rq_page x p : page_in cells0 x = Some p → ∃ s, page_in cells x = Some (if bool_decide (x ∈ ws) then set_prepare_writeback true (with_score p s) else with_score p s)
}.

Lemma prepared_not_selected p s : selected dirty_set busy_set (set_prepare_writeback true (with_score p s)) = false.
Proof.
  destruct (selected _ _ _) eqn:E; [|done]. destruct (selected_flags _ E) as (_ & _ & H). exfalso. revert H. unfold is_prepare_writeback, set_prepare_writeback, set_flag, get_flag, page_set_flag. cbn [flags with_flags].
  change (Z.shiftl 1 PREPARE_WRITEBACK) with 16. intros H. apply negb_false_iff, Z.eqb_eq, (f_equal (λ z, Z.testbit z 4)) in H.
  rewrite Z.land_spec, s8_bit, Z.lor_spec, orb_true_r in H by lia. done.
Qed.

(** The requests are at most the pages that can be written. *)
Definition wanted (cells : list hash_cell) (x : nat * nat) : bool := match page_in cells x with Some p => selected dirty_set busy_set p | None => false end.
Definition candidates (cells : list hash_cell) : list (nat * nat) := filter (λ x, wanted cells x = true) (list_prod (seq 0 (length cells)) (seq 0 CELL_SIZE)).

Lemma requested_count cells0 ws cells : (∀ k hc, cells0 !! k = Some hc → length (buf (hbuf hc)) = CELL_SIZE) → requested cells0 ws cells → (length ws ≤ length (candidates cells0))%nat.
Proof.
  intros Hl H. apply submseteq_length, NoDup_submseteq; [apply H|]. intros [k u] Hx. apply list_elem_of_filter. destruct (rq_sel _ _ _ H _ Hx) as (p & Hp & Hs). unfold wanted. rewrite Hp. split; [done|].
  unfold page_in in Hp. cbn in Hp. destruct (cells0 !! k) as [hc|] eqn:Ek; [|done]. cbn in Hp. apply list_elem_of_In, in_prod; apply list_elem_of_In, elem_of_seq; [apply lookup_lt_Some in Ek; lia|].
  apply lookup_lt_Some in Hp. rewrite (Hl k hc Ek) in Hp. lia.
Qed.

Lemma requested_init cells : (∀ k hc, cells !! k = Some hc → flushable hc) → requested cells [] cells.
Proof.
  intros H. split; [done|eauto|constructor|by intros x ?%elem_of_nil|]. intros x p Hp. exists (flush_score p). rewrite bool_decide_false by apply not_elem_of_nil. rewrite Hp. by destruct p.
Qed.

(** A page with another score or a mark has the same identifier. *)
Lemma request_same hc hc0 u p s (b : bool) : buf (hbuf hc0) !! u = Some p → buf (hbuf hc) !! u = Some (if b then set_prepare_writeback true (with_score p s) else with_score p s) →
  request_of (hbuf hc) u = request_of (hbuf hc0) u.
Proof. intros H1 H2. unfold request_of. rewrite H1, H2. by destruct b. Qed.

Definition request_at (cells : list hash_cell) (init : Z) (x : nat * nat) : (Z * Z) * wreq :=
  (ptr init (Z.of_nat x.1), request_of (from_option hbuf new_cell (cells !! x.1)) x.2).

(** One cell is flushed. *)
Lemma requested_step cells0 ws cells k hc :
  requested cells0 ws cells → cells !! k = Some hc →
  ∃ us hc', flush_cell hc = Ok (request_of (hbuf hc) <$> us, hc') ∧ Z.of_nat (length us) ≤ NUM_WRITEBACK_DIRTY_PAGES ∧
    requested cells0 (ws ++ (pair k <$> us)) (<[k := hc']> cells) ∧
    ∀ init, (λ r, (ptr init (Z.of_nat k), r)) <$> (request_of (hbuf hc) <$> us) = request_at cells0 init <$> (pair k <$> us).
Proof.
  intros H Hk. destruct (rq_cell _ _ _ H k hc Hk) as (Hfb & hc0 & Hk0 & Hlen). destruct (flush_cell_spec hc Hfb) as (us & hc' & Hf & Hwf' & Hn & Hh & Hfl & Hch & Hl' & Hnd & Hle & Hm & Hus).
  assert (∀ u, u ∈ us → ∃ p0, buf (hbuf hc0) !! u = Some p0 ∧ (k, u) ∉ ws ∧ selected dirty_set busy_set p0 = true) as Hnew.
  { intros u Hu. destruct (Hus u Hu) as (p & Hp & _ & Hs). assert (u < length (buf (hbuf hc0)))%nat as Hlt by (rewrite <-Hlen; by eapply lookup_lt_Some). destruct (lookup_lt_is_Some_2 _ _ Hlt) as [p0 Hp0]. exists p0. split; [done|].
    assert (page_in cells0 (k, u) = Some p0) as Hpi by (unfold page_in; cbn; by rewrite Hk0). destruct (rq_page _ _ _ H _ _ Hpi) as [s Hs']. unfold page_in in Hs'. cbn in Hs'. rewrite Hk in Hs'. cbn in Hs'. rewrite Hp in Hs'. injection Hs' as ->.
    destruct (bool_decide_reflect ((k, u) ∈ ws)) as [|Hni]; [by rewrite prepared_not_selected in Hs|done]. }
  exists us, hc'. split; [done|]. split; [done|]. split.
  - split.
    + rewrite length_insert. apply H.
    + intros j x [(<- & <- & _)|[_ Hj]]%list_lookup_insert_Some; [|by apply (rq_cell _ _ _ H j)]. split; [|exists hc0; split; [done|congruence]].
      destruct Hfb as [F1 F2 F3 F4]. split; [done|congruence|by rewrite Hch, Hn|]. intros u q Hq. assert (u < length (buf (hbuf hc)))%nat as Hlt by (rewrite <-Hl'; by eapply lookup_lt_Some). destruct (lookup_lt_is_Some_2 _ _ Hlt) as [p Hp].
      destruct (Hm u p Hp) as [s Hs]. rewrite Hq in Hs. injection Hs as ->. destruct (F4 u p Hp) as [G1 G2]. case_bool_decide; [|done]. split; [done|]. by rewrite prepared_not_selected.
    + apply NoDup_app. split_and!; [apply H| |apply NoDup_fmap; [by intros ? ? [=]|done]]. intros x Hx (u & -> & Hu)%list_elem_of_fmap. by destruct (Hnew u Hu) as (_ & _ & ? & _).
    + intros x [Hx|Hx]%elem_of_app; [by apply H|]. apply list_elem_of_fmap in Hx as (u & -> & Hu). destruct (Hnew u Hu) as (p0 & Hp0 & _ & Hs). exists p0. split; [|done]. unfold page_in. cbn. by rewrite Hk0.
    + intros [j u] p Hp. destruct (rq_page _ _ _ H _ _ Hp) as [s Hs]. unfold page_in in Hs |- *. cbn [fst snd] in *. destruct (decide (j = k)) as [->|Hne].
      * rewrite Hk in Hs. cbn in Hs. rewrite list_lookup_insert_eq by (by eapply lookup_lt_Some). cbn. destruct (Hm u _ Hs) as [t Ht]. exists t. rewrite Ht. f_equal.
        assert (bool_decide ((k, u) ∈ ws ++ (pair k <$> us)) = bool_decide ((k, u) ∈ ws) || bool_decide (u ∈ us)) as ->.
        { rewrite <-bool_decide_or. apply bool_decide_ext. rewrite elem_of_app, list_elem_of_fmap. naive_solver. }
        destruct (bool_decide_reflect (u ∈ us)) as [Hu|]; [|rewrite orb_false_r; by case_bool_decide]. rewrite orb_true_r. destruct (Hnew u Hu) as (_ & _ & Hni & _). by rewrite bool_decide_false.
      * exists s. rewrite list_lookup_insert_ne by done. rewrite Hs. assert (bool_decide ((j, u) ∈ ws ++ (pair k <$> us)) = bool_decide ((j, u) ∈ ws)) as ->; [|done].
        apply bool_decide_ext. rewrite elem_of_app, list_elem_of_fmap. naive_solver.
  - intros init. rewrite <-!list_fmap_compose. apply list_fmap_ext. intros i u Hu%list_elem_of_lookup_2. unfold request_at. cbn. rewrite Hk0. cbn. f_equal. destruct (Hnew u Hu) as (p0 & Hp0 & _).
    assert (page_in cells0 (k, u) = Some p0) as Hpi by (unfold page_in; cbn; by rewrite Hk0). destruct (rq_page _ _ _ H _ _ Hpi) as [s Hs']. unfold page_in in Hs'. cbn in Hs'. rewrite Hk in Hs'. cbn in Hs'. by eapply request_same.
Qed.

(** ** [run] *)

(** The flusher between two steps, with [cells0] its cells and [iss] the requests
    sent before. *)
Record fl_inv (cells0 : list hash_cell) (iss : list ((Z * Z) * wreq)) (ws : list (nat * nat)) (f : fl) (cells : list hash_cell) : Prop := {
  fv_rep : rep (c_init_ncells (fl_cache f)) (cells_table (fl_cache f)) cells;
  fv_req : requested cells0 ws cells;
  fv_iss : issued f = iss ++ (request_at cells0 (c_init_ncells (fl_cache f)) <$> ws)
}.

(** What the steps leave alone. *)
Definition fl_same (f f' : fl) : Prop := c_init_ncells (fl_cache f') = c_init_ncells (fl_cache f) ∧ dirty_cells f' = dirty_cells f ∧ num_pending_flush f' = num_pending_flush f ∧ max_num_pending_flush f' = max_num_pending_flush f.

Lemma flush_at_ok cells0 iss ws f cells k :
  fl_inv cells0 iss ws f cells → (k < length cells)%nat →
  ∃ us f' cells', flush_at (ptr (c_init_ncells (fl_cache f)) (Z.of_nat k)) f = Ok (Z.of_nat (length us), f') ∧ Z.of_nat (length us) ≤ NUM_WRITEBACK_DIRTY_PAGES ∧
    fl_inv cells0 iss (ws ++ (pair k <$> us)) f' cells' ∧ length cells' = length cells ∧ fl_same f f'.
Proof.
  intros [Hr Hq Hi] Hk. destruct (lookup_lt_is_Some_2 _ _ Hk) as [hc Hc]. assert (cells !! Z.to_nat (Z.of_nat k) = Some hc) as Hc' by (by rewrite Nat2Z.id).
  destruct (requested_step cells0 ws cells k hc Hq Hc) as (us & hc' & Hf & Hle & Hq' & Hrs). unfold flush_at. rewrite (deref_ok (fl_cache f) cells (Z.of_nat k) hc Hr ltac:(lia) Hc'). cbn [rbind]. rewrite Hf. cbn [rbind].
  eexists us, _, (<[k := hc']> cells). rewrite length_fmap. split; [done|]. split; [done|]. split; [|split; [by rewrite length_insert|done]]. split.
  - pose proof (cells_store (fl_cache f) cells (Z.of_nat k) hc' Hr ltac:(lia)) as Hs. rewrite Nat2Z.id in Hs. exact Hs.
  - done.
  - cbn [issued access with_cache fl_cache store_cell with_table c_init_ncells]. by rewrite Hi, Hrs, fmap_app, <-(assoc_L (++)).
Qed.

(** The flags of a cell have nothing to do with its pages. *)
Lemma mark_queue_ok cells0 iss ws f cells k v :
  fl_inv cells0 iss ws f cells → (k < length cells)%nat →
  ∃ b f' cells', mark_queue v (ptr (c_init_ncells (fl_cache f)) (Z.of_nat k)) f = Ok (b, f') ∧ fl_inv cells0 iss ws f' cells' ∧ length cells' = length cells ∧ fl_same f f'.
Proof.
  intros [Hr Hq Hi] Hk. destruct (lookup_lt_is_Some_2 _ _ Hk) as [hc Hc]. assert (cells !! Z.to_nat (Z.of_nat k) = Some hc) as Hc' by (by rewrite Nat2Z.id).
  unfold mark_queue. rewrite (deref_ok (fl_cache f) cells (Z.of_nat k) hc Hr ltac:(lia) Hc'). cbn [rbind]. unfold set_in_queue. set (hc' := mkHC _ _ _ _ _ _).
  eexists _, _, (<[k := hc']> cells). split; [done|]. split; [|split; [by rewrite length_insert|done]]. split; [|clear Hr|done].
  - pose proof (cells_store (fl_cache f) cells (Z.of_nat k) hc' Hr ltac:(lia)) as Hs. rewrite Nat2Z.id in Hs. exact Hs.
  - destruct Hq as [Q1 Q2 Q3 Q4 Q5]. split; [by rewrite length_insert| |done|done|].
    + intros j x [(<- & <- & _)|[_ Hj]]%list_lookup_insert_Some; [|by apply Q2]. destruct (Q2 k hc Hc) as ([F1 F2 F3 F4] & Hl). split; [by split|exact Hl].
    + intros [j u] p Hp. destruct (Q5 _ _ Hp) as [s Hs]. exists s. rewrite <-Hs. unfold page_in. cbn [fst snd]. destruct (decide (j = k)) as [->|Hne]; [|by rewrite list_lookup_insert_ne].
      by rewrite list_lookup_insert_eq, Hc.
Qed.

Lemma fl_same_trans (f g h : fl) : fl_same f g → fl_same g h → fl_same f h.
Proof. unfold fl_same. intros (? & ? & ? & ?) (? & ? & ? & ?). split_and!; congruence. Qed.

Definition ptr_of (init : Z) (k : nat) : Z * Z := ptr init (Z.of_nat k).

(** A batch of cells: those that may have more dirty pages got two requests each. *)
Lemma run_cells_ok cells0 iss ks : ∀ ws f cells,
  fl_inv cells0 iss ws f cells → Forall (λ k, k < length cells)%nat ks → let i := c_init_ncells (fl_cache f) in
  ∃ js new f' cells', run_cells (ptr_of i <$> ks) f = Ok (ptr_of i <$> js, Z.of_nat (length new), f') ∧ js `sublist_of` ks ∧ (2 * length js ≤ length new)%nat ∧
    fl_inv cells0 iss (ws ++ new) f' cells' ∧ length cells' = length cells ∧ fl_same f f'.
Proof.
  induction ks as [|k ks IH]; intros ws f cells H Hks i; cbn [fmap list_fmap run_cells].
  { exists [], [], f, cells. rewrite app_nil_r. split_and!; done. }
  apply Forall_cons in Hks as [Hk Hks]. destruct (flush_at_ok cells0 iss ws f cells k H Hk) as (us & f1 & cells1 & Hfl & Hle & H1 & Hl1 & S1). fold i in Hfl. unfold ptr_of at 1. rewrite Hfl. cbn [rbind].
  assert (c_init_ncells (fl_cache f1) = i) as E1 by apply S1. destruct (Z.eqb_spec (Z.of_nat (length us)) NUM_WRITEBACK_DIRTY_PAGES) as [E|E].
  - destruct (IH _ f1 cells1 H1) as (js & new & f2 & cells2 & Hr & Hsub & Hcnt & H2 & Hl2 & S2); [by rewrite Hl1|]. rewrite E1 in Hr. rewrite Hr. cbn [rbind].
    exists (k :: js), ((pair k <$> us) ++ new), f2, cells2. rewrite length_app, length_fmap, (assoc_L (++)). split_and!; [do 3 f_equal; lia|by constructor|cbn [length]; unfold NUM_WRITEBACK_DIRTY_PAGES in *; lia|done|congruence|by eapply fl_same_trans].
  - destruct (mark_queue_ok cells0 iss _ f1 cells1 k false H1) as (b & f2 & cells2 & Hmq & H2 & Hl2 & S2); [by rewrite Hl1|]. rewrite E1 in Hmq. unfold ptr_of at 1. rewrite Hmq. cbn [rbind].
    assert (c_init_ncells (fl_cache f2) = i) as E2 by (rewrite <-E1; apply S2).
    destruct (IH _ f2 cells2 H2) as (js & new & f3 & cells3 & Hr & Hsub & Hcnt & H3 & Hl3 & S3); [by rewrite Hl2, Hl1|]. rewrite E2 in Hr. rewrite Hr. cbn [rbind].
    exists js, ((pair k <$> us) ++ new), f3, cells3. rewrite length_app, length_fmap, (assoc_L (++)). split_and!; [do 3 f_equal; lia|by constructor|lia|done|congruence|eapply fl_same_trans; [done|by eapply fl_same_trans]].
Qed.

Lemma fl_inv_queue cells0 iss ws f cells q : fl_inv cells0 iss ws f cells → fl_inv cells0 iss ws (with_queue q f) cells.
Proof. by intros []. Qed.
Lemma fl_inv_pending cells0 iss ws f cells n : fl_inv cells0 iss ws f cells → fl_inv cells0 iss ws (add_pending n f) cells.
Proof. by intros []. Qed.

Lemma run_ok kq cells0 iss fuel : (∀ k hc, cells0 !! k = Some hc → length (buf (hbuf hc)) = CELL_SIZE) → ∀ ws f cells ks,
  let i := c_init_ncells (fl_cache f) in let left := Z.of_nat (length (candidates cells0)) - Z.of_nat (length ws) in
  fl_inv cells0 iss ws f cells → ts_rep kq (dirty_cells f) (ptr_of i <$> ks) → Forall (λ k, k < length cells)%nat ks →
  0 ≤ num_pending_flush f → num_pending_flush f + left < 2 ^ 31 → Z.of_nat (length ks) + left ≤ Z.of_nat fuel →
  ∃ f' new cells' ks', run fuel f = Ok f' ∧ fl_inv cells0 iss (ws ++ new) f' cells' ∧ ts_rep kq (dirty_cells f') (ptr_of i <$> ks') ∧
    num_pending_flush f' = num_pending_flush f + Z.of_nat (length new) ∧ (ks' = [] ∨ max_num_pending_flush f < num_pending_flush f') ∧ c_init_ncells (fl_cache f') = i.
Proof.
  intros Hsz. induction fuel as [|fuel IH]; intros ws f cells ks i left H Hq Hks Hp0 Hp1 Hf; pose proof (requested_count _ _ _ Hsz (fv_req _ _ _ _ _ H)) as Hcnt;
    destruct (rep_sizes _ _ _ (ts_fifo _ _ _ Hq)) as (_ & Hne & _ & _); rewrite length_fmap in Hne; cbn [run]; unfold num_queued; rewrite Hne.
  all: destruct ks as [|k0 ks0] eqn:Ek; [exists f, [], cells, []; rewrite app_nil_r; cbn; split_and!; try done; [lia|by left]|].
  { cbn [length] in Hf. lia. }
  rewrite <-Ek in *. rewrite (proj2 (Z.ltb_lt 0 (Z.of_nat (length ks)))) by (rewrite Ek; cbn; lia).
  destruct (queue_fetch_ok kq FETCH_BUF_SIZE f _ Hq) as (q1 & -> & Hq1). cbn [rbind]. rewrite <-fmap_take. rewrite <-fmap_drop in Hq1. pose proof (fl_inv_queue _ _ _ _ _ q1 H) as H1.
  destruct (run_cells_ok cells0 iss (take FETCH_BUF_SIZE ks) ws (with_queue q1 f) cells H1) as (js & new & f2 & cells2 & Hr & Hsub & Htwo & H2 & Hl2 & S2); [by apply Forall_take|].
  change (c_init_ncells (fl_cache (with_queue q1 f))) with i in Hr. rewrite Hr. cbn [rbind]. destruct S2 as (E1 & E2 & E3 & E4). cbn [fl_cache dirty_cells num_pending_flush max_num_pending_flush with_queue] in E1, E2, E3, E4.
  assert (length js ≤ length (take FETCH_BUF_SIZE ks))%nat as Hjs by (by apply sublist_length). assert (length (take FETCH_BUF_SIZE ks) + length (drop FETCH_BUF_SIZE ks) = length ks)%nat as Hsplit by (rewrite <-length_app, take_drop; done).
  assert (1 ≤ length (take FETCH_BUF_SIZE ks))%nat as Hone by (rewrite Ek; unfold FETCH_BUF_SIZE; cbn; lia).
  assert (Z.of_nat (length (ptr_of i <$> drop FETCH_BUF_SIZE ks)) + Z.of_nat (length (ptr_of i <$> js)) ≤ 2 ^ kq) as Hcap.
  { pose proof (rep_len _ _ _ (ts_fifo _ _ _ Hq)) as Hl. rewrite !length_fmap in *. lia. }
  rewrite <-E2 in Hq1. destruct (queue_add_ok kq f2 _ (ptr_of i <$> js) Hq1 Hcap) as (q3 & -> & Hq3). cbn [rbind]. rewrite <-fmap_app in Hq3.
  pose proof (fl_inv_pending _ _ _ _ _ (Z.of_nat (length new)) (fl_inv_queue _ _ _ _ _ q3 H2)) as H3. set (f3 := add_pending _ _) in *.
  pose proof (requested_count _ _ _ Hsz (fv_req _ _ _ _ _ H3)) as Hcnt3. rewrite length_app in Hcnt3.
  assert (num_pending_flush f3 = num_pending_flush f + Z.of_nat (length new)) as Ep by (unfold f3; cbn; rewrite E3; apply s32_small; lia).
  assert (max_num_pending_flush f3 = max_num_pending_flush f) as Em by (unfold f3; cbn; done).
  destruct (Z.ltb_spec (max_num_pending_flush f3) (num_pending_flush f3)) as [Hlt|Hge].
  { exists f3, new, cells2, (drop FETCH_BUF_SIZE ks ++ js). split_and!; try done. right. lia. }
  assert (c_init_ncells (fl_cache f3) = i) as Ei by done.
  destruct (IH (ws ++ new) f3 cells2 (drop FETCH_BUF_SIZE ks ++ js) H3) as (f' & new' & cells' & ks' & Hrun & H' & Hq' & Hp' & Hd' & Ei').
  - by rewrite Ei.
  - rewrite Hl2. apply Forall_app. split; [by apply Forall_drop|]. apply Forall_forall. intros x Hx. rewrite Forall_forall in Hks. apply Hks. eapply elem_of_sublist; [exact Hx|]. etransitivity; [exact Hsub|apply sublist_take].
  - lia.
  - rewrite length_app. lia.
  - rewrite !length_app. lia.
  - exists f', (new ++ new'), cells', ks'. rewrite Hrun. rewrite Ei in Hq'. rewrite (assoc_L (++)), length_app. split_and!; [done|done|done|lia| |congruence]. destruct Hd'; [by left|right; lia].
Qed.
End run.

(** C17. [run] works off the queue of dirty cells and ends: with as many rounds as there
    are cells in the queue and pages to write, it leaves an empty queue or more
    pending writes than the limit.  Every request it sends is for a page that was
    dirty, neither being written nor waiting to be, no page is requested twice, the
    pages are marked as waiting and keep everything else but their score, and the
    counter of pending writes goes up by the number of requests. *)
Theorem run_correct {St} kq (f : flusher St) cells ks :
  let i := c_init_ncells (fl_cache f) in let todo := Z.of_nat (length (candidates cells)) in
  rep i (cells_table (fl_cache f)) cells → (∀ k hc, cells !! k = Some hc → flushable hc) →
  ts_rep kq (dirty_cells f) (ptr_of i <$> ks) → Forall (λ k, k < length cells)%nat ks → 0 ≤ num_pending_flush f → num_pending_flush f + todo < 2 ^ 31 →
  ∃ f' ws cells' ks', run (Z.to_nat (Z.of_nat (length ks) + todo)) f = Ok f' ∧
    issued f' = issued f ++ (request_at cells i <$> ws) ∧ NoDup ws ∧ (∀ x, x ∈ ws → ∃ p, page_in cells x = Some p ∧ selected dirty_set busy_set p = true) ∧
    rep i (cells_table (fl_cache f')) cells' ∧
    (∀ x p, page_in cells x = Some p → ∃ s, page_in cells' x = Some (if bool_decide (x ∈ ws) then set_prepare_writeback true (with_score p s) else with_score p s)) ∧
    num_pending_flush f' = num_pending_flush f + Z.of_nat (length ws) ∧ ts_rep kq (dirty_cells f') (ptr_of i <$> ks') ∧
    (ks' = [] ∨ max_num_pending_flush f < num_pending_flush f').
Proof.
  intros i todo Hr Hfb Hq Hks Hp0 Hp1.
  destruct (run_ok kq cells (issued f) (Z.to_nat (Z.of_nat (length ks) + todo)) (λ k hc Hk, wf_buf _ (fb_wf _ (Hfb k hc Hk))) [] f cells ks) as (f' & ws & cells' & ks' & Hrun & [Hr' Hq' Hi'] & Hqr & Hp & Hd & Ei).
  - split; [done|by apply requested_init|by rewrite app_nil_r].
  - done.
  - done.
  - done.
  - cbn. lia.
  - cbn. lia.
  - cbn [app] in *.
    exists f', ws, cells', ks'. rewrite Ei in *. split_and!; try done; apply Hq'.
Qed.

(** ** Examples *)

(** A cell of eight pages, three of them dirty. *)
Definition ex_page (k : nat) : page := mkPage (Z.of_nat k) 3 (Some (4096 * (Z.of_nat k + 1))) 0 (if (k <? 3)%nat then 5 else 1) (Z.of_nat k mod 3) 0 0.
Definition ex_dirty_cell : hash_cell := mkHC 0 2 (mkCell 0 8 ((Z.of_nat <$> seq 0 8) ++ replicate 8 0) ((ex_page <$> seq 0 8) ++ replicate 8 null_page)) 5 0 0.
Definition ex_dirty_cache : acache unit := mkAC [Some [ex_dirty_cell]] 0 8 1 false 1 tt 0 false 9 0 0.

Lemma ex_dirty_flushable : flushable ex_dirty_cell.
Proof.
  split.
  - split; [done..|]. unfold ex_dirty_cell. cbn [hbuf buf]. repeat (apply Forall_cons_2; [split; vm_compute; discriminate|]). apply Forall_nil_2.
  - vm_compute. discriminate.
  - vm_compute. done.
  - assert (Forall (λ p, - 2 ^ 15 ≤ refcnt p < 2 ^ 15 - 1 ∧ (selected dirty_set busy_set p = true → data_ready p = true ∧ is_old_dirty p = false)) (buf (hbuf ex_dirty_cell))) as H.
    { unfold ex_dirty_cell. cbn [hbuf buf]. repeat (apply Forall_cons_2; [split; [cbn; lia|intros Hs; first [by vm_compute|vm_compute in Hs; discriminate Hs]]|]). apply Forall_nil_2. }
    intros u p Hp. by eapply Forall_lookup_1 in H.
Qed.

Lemma ex_dirty_rep : rep 1 (cells_table ex_dirty_cache) [ex_dirty_cell].
Proof. split; [lia|]. exists [[ex_dirty_cell]], 0%nat. split_and!; [done|by repeat constructor|done]. Qed.

Lemma run_correct_witness : ∃ q f' ws, ts_rep 2 q [ptr 1 0] ∧ run 4 (mkFl ex_dirty_cache q 0 10 []) = Ok f' ∧ issued f' = request_at [ex_dirty_cell] 1 <$> ws ∧ NoDup ws.
Proof.
  destruct (ts_new_max_spec (0, 0) "dirty_cells-0" 0 4 4 ltac:(lia) ltac:(lia)) as (t & _ & Ht & _).
  destruct (queue_add_ok 2 (mkFl ex_dirty_cache t 0 10 []) [] [ptr 1 0] Ht ltac:(cbn; lia)) as (q & _ & Hq).
  destruct (run_correct 2 (mkFl ex_dirty_cache q 0 10 []) [ex_dirty_cell] [0%nat]) as (f' & ws & cells' & ks' & Hr & Hi & Hd & _).
  - exact ex_dirty_rep.
  - intros [|k] hc E; [|discriminate E]. injection E as <-. exact ex_dirty_flushable.
  - exact Hq.
  - repeat constructor.
  - discriminate.
  - vm_compute. reflexivity.
  - exists q, f', ws. split; [exact Hq|]. split; [exact Hr|]. split; [exact Hi|exact Hd].
Defined.

Definition ex_flusher (pending : Z) : res (flusher unit) :=
  let? f := flusher_new ex_dirty_cache 0 10 in
  let? (_, f) := queue_add [(0, 0)] f in Ok (add_pending pending f).

(** When the queue runs empty, [flush_dirty_pages(filter, max_num)] returns without
    counting the writes it has sent. *)
Theorem flush_uncounted :
  (let? f := ex_flusher 0 in let? (n, f) := flush_dirty_pages_max 10 true 10 f in Ok (n, length (issued f), num_pending_flush f)) = Ok (1, 1%nat, 0).
Proof. vm_compute. reflexivity. Qed.

(** A cell whose write was discarded is queued without being marked as queued, so it
    can be in the queue twice. *)
Theorem discarded_queued_twice :
  let hc := mkHC 0 0 (hbuf ex_dirty_cell) 5 0 0 in
  (let? f := ex_flusher 10 in
   let? (cells, _, f) := complete [Discarded (mkId 3 0); Discarded (mkId 3 4096)] (with_cache (store_cell (0, 0) hc (fl_cache f)) f) in
   Ok cells) = Ok [(0, 0); (0, 0)].
Proof. vm_compute. reflexivity. Qed.
